(* ===== verification/_CoqProject ===== *)
-Q . S2P
Prelude.v
StreamElement.v
Operator.v
BasicOps.v
MapMemo.v
Folds.v
Frontier.v
Batcher.v
MapAsync.v
Start.v
End.v
Shuffle.v
Exchange.v
GroupByFold.v
Aggregations.v
Distinct.v
Route.v
Window.v
WindowManagers.v
WindowSpec.v
Reorder.v
BinaryStart.v
Zip.v
Join.v
BinaryJoin.v
BinaryFinal.v
SortMerge.v
DistributedJoin.v
IntervalJoin.v
IterationLock.v
Iteration.v
Iterate.v
DeltaIterate.v
Scan.v
Sources.v
Sinks.v
Gather.v
Remote.v
Config.v
Topology.v
Scheduler.v
Cache.v
Writers.v
Environment.v
Registry.v
