(* ===== verification/Prelude.v ===== *)
(** * A verified model of Renoir

    Renoir ([src/src/]) is a dataflow engine: a program is a graph of blocks, each a chain
    of operators, replicated over the cores of one or more hosts.  The replicas exchange
    batches of stream elements over channels, locally in memory and between hosts through
    multiplexed sockets.  This library models the engine's own logic and proves what makes
    it correct.  Every definition that models code carries the name of the code it models,
    in its own doc comment.

    ** How the program is put together, and which file models which part

    - Data.  [StreamElement.v]: [StreamElement] of [operator/mod.rs], the documented shape
      of a stream (rounds closed by [FlushAndRestart], one final [Terminate]), coordinates
      and batches of [network/mod.rs].
    - Operators.  [Operator.v]: the trait [Operator] as a record with a state and a step
      [op_next], the laws an operator keeps ([OperatorLaws]: more fuel never changes a
      result), what an operator emits ([emits]), the worker loop of [worker.rs].
      [BasicOps.v]: map, filter, filter_map, key_by, flat_map, flatten, rich_map,
      timestamps, inspect.  [MapMemo.v]: map with a cache of results.  [MapAsync.v]: the
      asynchronous map with its batcher.  [Folds.v]: fold and keyed fold.  [Reorder.v]:
      reordering by timestamp and the sorted limit.  [Zip.v]: zip.
    - Block boundaries.  [Frontier.v]: the watermark frontier.  [Batcher.v]: the batcher
      and its timer thread ([block/batcher.rs]).  [Start.v]: the start of a block
      ([operator/start]).  [BinaryStart.v]: its receiver with two inputs.  [End.v]: the end
      of a block and the next strategies.  [Shuffle.v]: what [End] delivers to whom, and that
      senders agree on the destination of a key.  [Exchange.v]: what the replicas of a block receive together
      from those of another, as composed from [End], the channels and [Start].  [Route.v]:
      the routing end.
    - Two-phase operators.  [GroupByFold.v]: local fold, shuffle, global fold.
      [Aggregations.v]: the sums, counts, averages and extremes built on it.  [Distinct.v]:
      removal of duplicates with a set shared by the replicas of a host.
    - Windows.  [Window.v]: the window operator against interfaces for managers and
      accumulators.  [WindowManagers.v]: the seven managers and the accumulators
      ([operator/window]).  [WindowSpec.v]: what they compute.
    - Joins.  [Join.v]: local hash join and the keyed joins.  [SortMerge.v]: sort-merge
      join.  [BinaryJoin.v]: the two-input start composed with the hash join.
      [BinaryFinal.v]: the last round of a block with two inputs.  [DistributedJoin.v]: the
      whole job of a join, from the replicas of the two sides, through the ship
      strategies and the network, to the tuples of the replicas that join; the joins of
      keyed streams, which stay on their replicas.
      [IntervalJoin.v]: the join of items whose timestamps are close.
    - Iterations.  [IterationLock.v]: the state shared by the replicas of a host, its lock
      and its barrier, as a step relation over all interleavings and over the dataflow of the
      loop.  [Iteration.v]: leader,
      end and replay ([operator/iteration]).  [Iterate.v]: the head of a loop that feeds its
      output back ([operator/iteration/iterate.rs]).  [DeltaIterate.v]: the iteration that
      keeps a value per key, on its replicas ([operator/iteration/iterate_delta.rs]).  [Scan.v]: the scans,
      loops of two passes over the items ([fold_scan] and [reduce_scan] of [operator/mod.rs]).
    - Sources.  [Sources.v]: iterator, parallel iterator, channel, file and the part of the
      CSV source that divides the file.
    - Sinks.  [Sinks.v]: collecting, counting, channel and function sinks.  [Cache.v]:
      caching a stream in memory or in files and starting another from it
      ([operator/cache]).  [Writers.v]: writing a stream to one file per replica, as CSV or
      Avro ([operator/sink/writer.rs], [csv.rs], [avro.rs]).  [Gather.v]: the global folds and the collection of the results
      on one replica, as whole jobs ([operator/mod.rs]).
    - Programs.  [Environment.v]: the context that numbers, closes and connects blocks and
      the methods of streams that change the graph ([environment.rs], [stream.rs], the
      builders of routes and iterations), as operations on the streams a program holds.
    - Distribution.  [Config.v]: the configuration ([config.rs]).  [Topology.v]: the network
      topology of a host ([network/topology.rs]).  [Scheduler.v]: placement and linking of
      replicas ([scheduler.rs], [block/mod.rs]).  [Registry.v]: the channels,
      multiplexers and demultiplexers the hosts end up with.  [Remote.v]: the wire protocol
      between hosts ([network/sync]).

    This file holds what all of them share: the results of running code, fuel, hash maps,
    sorts, maxima of timestamps, the tactics and the hint database [renoir].

    ** How code is translated

    A function that may panic returns an [outcome]: a value, a panic, a call that blocks
    for ever, or the end of the fuel.  Mutable state is passed explicitly; one definition
    per method, composed as in the code.  Loops that are not structural take fuel; the
    theorems about them say how much is enough and that the result is [Done], and
    [fuel_le] says that more never changes it.  Timestamps ([i64]) are [Z]; where the code adds
    to them or subtracts, in the interval join, the event-time windows and the sources of ranges,
    a result out of range saturates or panics as the code does in a build with overflow checks,
    and the theorems ask for timestamps that stay in range.  Lengths and counters ([usize]) are
    [nat]: a subtraction below zero panics, and a counter that goes up by one is not bounded.
    Points in time ([Instant]) are [Z] and ports ([u16]) are [N], without bounds.

    ** What is a parameter, and what is assumed of it

    - [HashOrder]: the iteration order of a hash map, constrained only to enumerate each
      entry once.  Theorems hold for every order; two hosts may have different ones.
    - [Glidesort]: the sort of that crate, with its documented contract (stable, sorted,
      a permutation).
    - [Bincode]: the serializer, with its documented round trip and header size.
    - Answers of the outside: the clock, the random generator, time-outs, which of two
      channels [select] picks, what arrives at a receiver, the TOML parser, the environment
      and the contents of files, as scripts or functions that the theorems quantify over.
    - [Cache] ([MapMemo.v]): the cache of the [quick_cache] crate, which may forget.
      [Buffered]: the concurrent evaluation of futures, with the documented order of its
      results.  [BincodeVec]: the encoding of a vector, with its round trip and its error at
      the end of a file.  [CsvWriter], [AvroWriter]: the writers of the [csv] and
      [apache_avro] crates.
    - What the other replicas of a host do with shared sets, locks and registries between
      two steps: sequences or functions that the theorems quantify over.
    - User functions and hash functions: arguments of the operators.
    - In [IterationLock.v], the replicas of the iteration block on the host are set up by
      [IterationStateHandler_setup], which computes the size of their barrier; the graph of the
      blocks inside the loop, on this host and elsewhere, is any acyclic one in which these
      replicas lead to an [IterationEnd].
    - In [DeltaIterate.v], the body of the user, from the updates of an iteration to its deltas.

    Each of these has an instance that evaluates ([key_order], [insertion_glidesort],
    [RemoteExample.bincode]), used by the witnesses.

    ** What the theorems show

    - Transport: a batcher loses and reorders nothing, under every schedule of its timer;
      [End] delivers to every receiver exactly what its strategy assigns and nothing to others;
      senders agree on the replica of a key; messages to another host arrive unchanged and in
      order, and a cut connection delivers exactly the messages that arrived whole.
    - Start of a block: whatever the interleaving of the previous replicas, a round of
      [Start] is the merge of theirs, with watermarks that are never overtaken, and [Start]
      terminates when they do.
    - Jobs: aggregations by key, global folds, the removal of duplicates, joins and the
      collection of the results, over any number of replicas, channels and interleavings,
      are what the sequential definitions give on everything that was read.
    - Operators: folds, keyed folds, per-key isolation of stateful closures and windows,
      the contents of count and event-time windows, joins against the relational join.
    - Iterations: no data race on the shared state and no stale read under any
      interleaving, for the replicas of the iteration block and the blocks that have the lock of
      the iteration and lead to an [IterationEnd] (the others race, [iteration_state_races]); the
      replicas can always catch up with the leader; and the leader is the fold of the deltas
      with the documented stopping rule.  A delta iteration keeps one value per key when its body
      brings the deltas back to the replica that holds the key.
    - Distribution: replicas are placed and numbered without gaps, the execution graph is
      the linked product of the job graph, its two adjacency lists mirror each other,
      hosts agree on addresses, and every demultiplexer gets the connections it waits for.
      A program that ends its streams gives the scheduler a graph with the properties these
      theorems ask for, and one that does not is refused.
    - Files: whatever the interleaving of the replicas of a host, each leaves the header and the
      records of its items in a file of its own.
    - Sources and caches: the replicas of a source divide its input without loss or
      duplication; a cached stream is given out again replica by replica.
    - Errors: where the code panics or loses data, a theorem says when.

    ** Not modelled

    Sockets, connection retries and thread creation; the channel library; the tokio
    variants of the network code; the asynchronous, Kafka and Parquet connectors and the
    Avro source; accumulators over Arrow arrays; the SSH runner; profiling, tracing and the
    textual description of blocks; the stream methods that only chain operators;
    [map_async_memo.rs], which is not part of the module tree. *)
From stdpp Require Export base tactics option list numbers gmap.
From Stdlib Require Export ZArith Lia Sorted.

(** ** Results of running the code

    A call of a Rust function either returns a value, panics ([unwrap] on
    [None], a failed [assert!], an explicit [panic!]), blocks for ever on a
    channel on which nothing more arrives, or (in the model only) exhausts the
    fuel that bounds its loops. *)
Inductive outcome (A : Type) : Type :=
| Done (a : A)
| Panicked
| Blocked
| OutOfFuel.
Global Arguments Done {_} _.
Global Arguments Panicked {_}.
Global Arguments Blocked {_}.
Global Arguments OutOfFuel {_}.

Global Instance outcome_ret : MRet outcome := @Done.
Global Instance outcome_bind : MBind outcome := λ A B f m,
  match m with
  | Done a => f a
  | Panicked => Panicked
  | Blocked => Blocked
  | OutOfFuel => OutOfFuel
  end.
Global Instance outcome_fmap : FMap outcome := λ A B f m,
  match m with
  | Done a => Done (f a)
  | Panicked => Panicked
  | Blocked => Blocked
  | OutOfFuel => OutOfFuel
  end.

(** [Option::unwrap]: panics on [None]. *)
Definition unwrap {A} (o : option A) : outcome A :=
  match o with Some a => Done a | None => Panicked end.

(** [assert!]: panics when the condition does not hold. *)
Definition rassert (b : bool) : outcome unit :=
  if b then Done tt else Panicked.

(** [a - b] on [usize] in a build with overflow checks: panics on underflow. *)
Definition usize_sub (a b : nat) : outcome nat :=
  if decide (b ≤ a) then Done (a - b) else Panicked.

Lemma usize_sub_le a b : b ≤ a → usize_sub a b = Done (a - b).
Proof. intros. unfold usize_sub. by rewrite decide_True. Qed.

(** Machine widths. *)
Definition i64_min : Z := (-2^63)%Z.
Definition i64_max : Z := (2^63 - 1)%Z.
Definition in_i64 (z : Z) : Prop := (i64_min ≤ z ≤ i64_max)%Z.
Global Instance in_i64_dec z : Decision (in_i64 z).
Proof. unfold in_i64; apply _. Defined.

(** Arithmetic on [i64] in a build with overflow checks. *)
Definition i64_checked (z : Z) : option Z :=
  if decide (in_i64 z) then Some z else None.
Definition i64_arith (z : Z) : outcome Z := unwrap (i64_checked z).

Lemma i64_arith_in z : in_i64 z → i64_arith z = Done z.
Proof. intros Hz. unfold i64_arith, i64_checked. by rewrite decide_True. Qed.
Lemma i64_arith_out z : ¬ in_i64 z → i64_arith z = Panicked.
Proof. intros Hz. unfold i64_arith, i64_checked. by rewrite decide_False. Qed.

(** ** Fuel

    Every loop of the source is a [Fixpoint] on a fuel argument.  The order
    [fuel_le] says that [r2] is what [r1] becomes when more fuel is supplied:
    any result other than [OutOfFuel] is final. *)
Definition fuel_le {A} (r1 r2 : outcome A) : Prop := r1 = OutOfFuel ∨ r1 = r2.

Lemma fuel_le_refl {A} (r : outcome A) : fuel_le r r.
Proof. by right. Qed.

Lemma fuel_le_out {A} (r : outcome A) : fuel_le OutOfFuel r.
Proof. by left. Qed.

Lemma fuel_le_done {A} (r : outcome A) a : fuel_le (Done a) r → r = Done a.
Proof. by intros [?|<-]. Qed.

Lemma fuel_le_panicked {A} (r : outcome A) : fuel_le Panicked r → r = Panicked.
Proof. by intros [?|<-]. Qed.

Lemma fuel_le_trans {A} (r1 r2 r3 : outcome A) :
  fuel_le r1 r2 → fuel_le r2 r3 → fuel_le r1 r3.
Proof. intros [->| ->]; [by left|done]. Qed.

Lemma fuel_le_bind {A B} (r1 r2 : outcome A) (k1 k2 : A → outcome B) :
  fuel_le r1 r2 → (∀ a, fuel_le (k1 a) (k2 a)) →
  fuel_le (r1 ≫= k1) (r2 ≫= k2).
Proof.
  intros [->| ->] Hk; [by left|].
  destruct r2; simpl; auto using fuel_le_refl.
Qed.

Create HintDb renoir.
Create Rewrite HintDb renoir.
#[export] Hint Resolve fuel_le_refl fuel_le_out fuel_le_bind : renoir.

(** Closes goals [fuel_le (e f) (e f')] whose two sides differ in fuel only:
    follows binds and case distinctions, and uses the monotonicity facts in the
    context or in the database. *)
Ltac fuel_le_step :=
  match goal with
  | |- fuel_le ?a ?a => apply fuel_le_refl
  | |- fuel_le OutOfFuel _ => apply fuel_le_out
  | |- fuel_le (mbind _ _) (mbind _ _) => apply fuel_le_bind; [|intros]
  | |- fuel_le (match ?x with _ => _ end) (match ?x with _ => _ end) =>
      destruct x
  | _ => solve [eauto with renoir]
  end.
Ltac fuel_mono := repeat (fuel_le_step; simpl).

(** Reads off what a monadic computation that returned must have done. *)
Ltac inv_bind H :=
  match type of H with
  | mbind _ ?m = Done _ =>
      let E := fresh "E" in
      destruct m eqn:E; simpl in H; try discriminate H
  end.

Lemma bind_done {A B} (m : outcome A) (k : A → outcome B) b :
  m ≫= k = Done b ↔ ∃ a, m = Done a ∧ k a = Done b.
Proof.
  split.
  - destruct m; simpl; intros; naive_solver.
  - intros (a & -> & Hk). done.
Qed.

(** ** Hash maps

    [std::collections::HashMap] documents its iteration order as arbitrary.
    The order is a parameter of everything that iterates over a map, constrained
    only by enumerating each entry once. *)
Class HashOrder := {
  hash_iter : ∀ {K V} `{Countable K}, gmap K V → list (K * V);
  hash_iter_perm : ∀ {K V} `{Countable K} (m : gmap K V),
    hash_iter m ≡ₚ map_to_list m
}.

(** One concrete order, used to evaluate examples. *)
Definition key_order : HashOrder := {|
  hash_iter := λ K V _ _ m, map_to_list m;
  hash_iter_perm := λ K V _ _ m, reflexivity _
|}.

(** ** Option helpers the source uses on timestamps *)

(** [Some(self.x.unwrap_or(ts).max(ts))]. *)
Definition max_ts (o : option Z) (ts : Z) : option Z :=
  Some (Z.max (default ts o) ts).

(** The least timestamp not below any element of a list, [None] when empty. *)
Definition max_list (l : list Z) : option Z :=
  foldl max_ts None l.
Global Arguments max_list : simpl never.

Lemma max_ts_spec o ts :
  max_ts o ts = Some (match o with Some m => Z.max m ts | None => ts end).
Proof. destruct o; unfold max_ts; simpl; f_equal; lia. Qed.

Lemma foldl_max_ts_Some l m :
  foldl max_ts (Some m) l = Some (foldl Z.max m l).
Proof. revert m; induction l as [|x l IH]; intros m; simpl; [done|]. apply IH. Qed.

Lemma foldl_max_bound l m :
  (m ≤ foldl Z.max m l)%Z ∧ Forall (λ x, (x ≤ foldl Z.max m l)%Z) l ∧
  (foldl Z.max m l = m ∨ foldl Z.max m l ∈ l).
Proof.
  revert m; induction l as [|x l IH]; intros m; simpl.
  { split_and!; [lia|constructor|by left]. }
  destruct (IH (Z.max m x)) as (H1 & H2 & H3). split_and!.
  - lia.
  - constructor; [lia|done].
  - destruct H3 as [->|H3]; [|right; by right].
    destruct (Z.max_spec m x) as [[_ ->]|[_ ->]]; [right; left|left]; done.
Qed.

(** [max_list] is the maximum of the list. *)
Lemma max_list_spec l m :
  max_list l = Some m → m ∈ l ∧ Forall (λ x, (x ≤ m)%Z) l.
Proof.
  unfold max_list. destruct l as [|x l]; [done|]. cbn.
  rewrite max_ts_spec, foldl_max_ts_Some. intros [= <-].
  destruct (foldl_max_bound l x) as (H1 & H2 & [H3|H3]).
  - split; [rewrite H3; left|by constructor].
  - split; [by right|by constructor].
Qed.

Lemma max_list_None l : max_list l = None ↔ l = [].
Proof.
  split; [|by intros ->]. destruct l as [|x l]; [done|].
  unfold max_list; cbn. by rewrite max_ts_spec, foldl_max_ts_Some.
Qed.

Lemma max_list_snoc l x : max_list (l ++ [x]) = max_ts (max_list l) x.
Proof. unfold max_list. by rewrite foldl_app. Qed.

(** ** Lists *)
Lemma elem_of_concat {A} (x : A) (l : list (list A)) : x ∈ concat l ↔ ∃ g, g ∈ l ∧ x ∈ g.
Proof.
  rewrite list_elem_of_In, in_concat. split; intros (g & H1 & H2); exists g;
    by rewrite !list_elem_of_In in *.
Qed.

Lemma list_filter_all {A} (P : A → Prop) `{!∀ x, Decision (P x)} l :
  Forall P l → base.filter P l = l.
Proof. induction 1; [done|]. rewrite filter_cons_True by done. by f_equal. Qed.
Lemma list_filter_none {A} (P : A → Prop) `{!∀ x, Decision (P x)} l :
  Forall (λ x, ¬ P x) l → base.filter P l = [].
Proof. induction 1; [done|]. by rewrite filter_cons_False. Qed.

(** [Iterator::take_while]. *)
Fixpoint take_while {X} (P : X → bool) (l : list X) : list X :=
  match l with
  | [] => []
  | x :: l => if P x then x :: take_while P l else []
  end.

Fixpoint drop_while {X} (P : X → bool) (l : list X) : list X :=
  match l with
  | [] => []
  | x :: l' => if P x then drop_while P l' else l
  end.
Lemma take_while_take {X} (P : X → bool) l : take (length (take_while P l)) l = take_while P l.
Proof. induction l as [|x l IH]; [done|]. cbn. destruct (P x); [|done]. cbn. by f_equal. Qed.

Lemma take_while_le {X} (P : X → bool) l : length (take_while P l) ≤ length l.
Proof. induction l as [|x l IH]; [done|]. cbn. destruct (P x); cbn; lia. Qed.

Lemma take_while_all {X} (P : X → bool) l : Forall (λ x, P x = true) (take_while P l).
Proof. induction l as [|x l IH]; cbn; [done|]. by destruct (P x) eqn:E; constructor. Qed.

Lemma drop_take_while {X} (P : X → bool) l :
  match drop (length (take_while P l)) l with [] => True | x :: _ => P x = false end.
Proof. induction l as [|x l IH]; cbn; [done|]. by destruct (P x) eqn:E. Qed.

Lemma take_drop_while {X} (P : X → bool) l : take_while P l ++ drop_while P l = l.
Proof. induction l as [|x l IH]; cbn; [done|]. destruct (P x); cbn; by rewrite ?IH. Qed.

(** ** Sorting

    The [glidesort] crate documents its functions as stable sorts.  The sort is a
    parameter of everything that calls it, with that contract as its laws. *)
Record total_preorder {X} (leb : X → X → bool) : Prop := {
  tp_total x y : leb x y = true ∨ leb y x = true;
  tp_trans x y z : leb x y = true → leb y z = true → leb x z = true
}.
Class Glidesort := {
  glidesort : ∀ {X}, (X → X → bool) → list X → list X;
  glidesort_perm : ∀ {X} (leb : X → X → bool) l, glidesort leb l ≡ₚ l;
  glidesort_sorted : ∀ {X} (leb : X → X → bool) l,
    total_preorder leb → StronglySorted (λ x y, leb x y = true) (glidesort leb l);
  glidesort_stable : ∀ {X} (leb : X → X → bool) l x,
    total_preorder leb →
    List.filter (λ y, leb x y && leb y x) (glidesort leb l) =
    List.filter (λ y, leb x y && leb y x) l
}.

(** A stable insertion sort: it meets the contract, and evaluates examples. *)
Fixpoint insert_sorted {X} (leb : X → X → bool) (x : X) (l : list X) : list X :=
  match l with
  | [] => [x]
  | y :: l' => if leb x y then x :: l else y :: insert_sorted leb x l'
  end.
Definition insertion_sort {X} (leb : X → X → bool) (l : list X) : list X :=
  foldr (insert_sorted leb) [] l.

Lemma insert_sorted_perm {X} leb (x : X) l : insert_sorted leb x l ≡ₚ x :: l.
Proof.
  induction l as [|y l IH]; [done|]. cbn. destruct (leb x y); [done|].
  rewrite IH. apply Permutation_swap.
Qed.
Lemma insertion_sort_perm {X} leb (l : list X) : insertion_sort leb l ≡ₚ l.
Proof. induction l as [|x l IH]; [done|]. cbn. by rewrite insert_sorted_perm, IH. Qed.

Lemma insert_sorted_sorted {X} leb (x : X) l :
  total_preorder leb → StronglySorted (λ x y, leb x y = true) l →
  StronglySorted (λ x y, leb x y = true) (insert_sorted leb x l).
Proof.
  intros Ht. induction 1 as [|y l Hs IH Hy]; cbn; [by repeat constructor|].
  destruct (leb x y) eqn:E.
  - constructor; [by constructor|]. constructor; [done|]. eapply Forall_impl; [exact Hy|].
    intros z Hz. by eapply tp_trans.
  - constructor; [done|]. rewrite insert_sorted_perm. constructor; [|done].
    destruct (tp_total _ Ht x y); [congruence|done].
Qed.
Lemma insertion_sort_sorted {X} leb (l : list X) :
  total_preorder leb → StronglySorted (λ x y, leb x y = true) (insertion_sort leb l).
Proof. intros Ht. induction l; cbn; [constructor|by apply insert_sorted_sorted]. Qed.

Lemma insertion_sort_stable {X} leb (l : list X) x :
  total_preorder leb →
  List.filter (λ y, leb x y && leb y x) (insertion_sort leb l) =
  List.filter (λ y, leb x y && leb y x) l.
Proof.
  intros Ht. induction l as [|a l IH]; [done|]. cbn. rewrite <-IH. clear IH.
  fold (insertion_sort leb l). induction (insertion_sort leb l) as [|b l' IH]; cbn; [done|].
  destruct (leb a b) eqn:E; cbn; [done|]. rewrite IH.
  destruct (leb x a && leb a x) eqn:Ea; [|done].
  destruct (leb x b && leb b x) eqn:Eb; [|done].
  apply andb_prop in Ea as [E1 E2], Eb as [E3 E4].
  rewrite (tp_trans _ Ht a x b E2 E3) in E. done.
Qed.

Definition insertion_glidesort : Glidesort := {|
  glidesort := @insertion_sort;
  glidesort_perm := @insertion_sort_perm;
  glidesort_sorted := @insertion_sort_sorted;
  glidesort_stable := @insertion_sort_stable
|}.
