(* ===== verification/StreamElement.v ===== *)
(** * Stream elements and coordinates

    The messages that flow through a chain of operators
    ([src/src/operator/mod.rs], [StreamElement]), the shape every complete
    stream has, and the coordinates and batches of the network layer
    ([src/src/network/mod.rs]). *)
From S2P Require Import Prelude.

(** [pub type Timestamp = i64] (feature [timestamp]). *)
Abbreviation Timestamp := Z (only parsing).

(** [enum MergeElement] ([src/src/operator/merge.rs]). *)
Inductive MergeElement (A B : Type) :=
| MLeft (x : A)
| MRight (x : B).
Global Arguments MLeft {_ _} _.
Global Arguments MRight {_ _} _.

(** [pub enum StreamElement<Out>]. *)
Inductive StreamElement (Out : Type) : Type :=
| Item (x : Out)
| Timestamped (x : Out) (ts : Timestamp)
| Watermark (ts : Timestamp)
| FlushBatch
| Terminate
| FlushAndRestart.
Global Arguments Item {_} _.
Global Arguments Timestamped {_} _ _.
Global Arguments Watermark {_} _.
Global Arguments FlushBatch {_}.
Global Arguments Terminate {_}.
Global Arguments FlushAndRestart {_}.

Global Instance StreamElement_eq_dec `{EqDecision A} : EqDecision (StreamElement A).
Proof. solve_decision. Defined.

(** [StreamElement::variant]. *)
Definition variant {Out} (e : StreamElement Out) : StreamElement unit :=
  match e with
  | Item _ => Item tt
  | Timestamped _ _ => Item tt
  | Watermark w => Watermark w
  | Terminate => Terminate
  | FlushAndRestart => FlushAndRestart
  | FlushBatch => FlushBatch
  end.

(** [StreamElement::map]. *)
Definition se_map {Out NewOut} (f : Out → NewOut) (e : StreamElement Out)
    : StreamElement NewOut :=
  match e with
  | Item x => Item (f x)
  | Timestamped x ts => Timestamped (f x) ts
  | Watermark w => Watermark w
  | Terminate => Terminate
  | FlushAndRestart => FlushAndRestart
  | FlushBatch => FlushBatch
  end.

(** [StreamElement::timestamp]. *)
Definition timestamp {Out} (e : StreamElement Out) : option Timestamp :=
  match e with
  | Timestamped _ ts | Watermark ts => Some ts
  | _ => None
  end.

(** [StreamElement::add_key]. *)
Definition add_key {Key Out} (k : Key) (e : StreamElement Out)
    : StreamElement (Key * Out) :=
  match e with
  | Item v => Item (k, v)
  | Timestamped v ts => Timestamped (k, v) ts
  | Watermark w => Watermark w
  | Terminate => Terminate
  | FlushAndRestart => FlushAndRestart
  | FlushBatch => FlushBatch
  end.

(** [StreamElement::value]. *)
Definition value {Out} (e : StreamElement Out) : option Out :=
  match e with
  | Item v => Some v
  | Timestamped v _ => Some v
  | Watermark _ => None
  | FlushBatch => None
  | Terminate => None
  | FlushAndRestart => None
  end.

(** [StreamElement::take_key]. *)
Definition take_key {Key Out} (e : StreamElement (Key * Out))
    : option Key * StreamElement Out :=
  match e with
  | Item (k, v) => (Some k, Item v)
  | Timestamped (k, v) ts => (Some k, Timestamped v ts)
  | Watermark w => (None, Watermark w)
  | Terminate => (None, Terminate)
  | FlushAndRestart => (None, FlushAndRestart)
  | FlushBatch => (None, FlushBatch)
  end.

(** [StreamElement::key]. *)
Definition se_key {Key Out} (e : StreamElement (Key * Out)) : option Key :=
  match e with
  | Item (k, _) => Some k
  | Timestamped (k, _) _ => Some k
  | Watermark _ => None
  | Terminate => None
  | FlushAndRestart => None
  | FlushBatch => None
  end.

(** ** Classification used by the specifications *)

(** The items of a trace, in order. *)
Definition values {Out} (l : list (StreamElement Out)) : list Out := omap value l.

(** The timestamps attached to the items of a trace. *)
Definition item_ts {Out} (e : StreamElement Out) : option Timestamp :=
  match e with Timestamped _ ts => Some ts | _ => None end.

(** The watermark a trace element carries. *)
Definition watermark_ts {Out} (e : StreamElement Out) : option Timestamp :=
  match e with Watermark ts => Some ts | _ => None end.

(** Elements that may appear inside one round of a stream: everything but the
    two end markers. *)
Definition is_data {Out} (e : StreamElement Out) : bool :=
  match e with FlushAndRestart | Terminate => false | _ => true end.

(** The documented shape of a stream:
    [((Item | Timestamped | Watermark | FlushBatch)* FlushAndRestart)+ Terminate]. *)
Definition stream_of {Out} (rounds : list (list (StreamElement Out)))
    : list (StreamElement Out) :=
  concat ((λ r, r ++ [FlushAndRestart]) <$> rounds) ++ [Terminate].

(** The items of a trace that carry a given key. *)
Definition values_of {K A} `{EqDecision K} (k : K) (l : list (StreamElement (K * A)))
    : list A :=
  omap (λ kv, if decide (kv.1 = k) then Some kv.2 else None) (values l).

(** The keys of a trace, one per item. *)
Definition keys {K A} (l : list (StreamElement (K * A))) : list K := fst <$> values l.

(** The timestamps attached to the items of a given key. *)
Definition ts_of {K A} `{EqDecision K} (k : K) (l : list (StreamElement (K * A)))
    : list Timestamp :=
  omap (λ e, match e with
             | Timestamped kv ts => if decide (kv.1 = k) then Some ts else None
             | _ => None end) l.

Lemma values_app {A} (l1 l2 : list (StreamElement A)) :
  values (l1 ++ l2) = values l1 ++ values l2.
Proof. apply omap_app. Qed.

Lemma values_map {A B} (f : A → B) l : values (se_map f <$> l) = f <$> values l.
Proof. unfold values. induction l as [|[] l IH]; cbn; by rewrite ?IH. Qed.

Lemma values_of_snoc {K A} `{EqDecision K} (k : K) (l : list (StreamElement (K * A))) e :
  values_of k (l ++ [e]) =
  values_of k l ++ match value e with
                   | Some (k', v) => if decide (k' = k) then [v] else []
                   | None => [] end.
Proof.
  unfold values_of. rewrite values_app, omap_app. f_equal.
  unfold values. destruct e as [[k' v]|[k' v] ts| | | |]; csimpl; try done;
    by case_decide.
Qed.

Lemma elem_of_keys {K A} `{EqDecision K} (k : K) (l : list (StreamElement (K * A))) :
  k ∈ keys l ↔ values_of k l ≠ [].
Proof.
  unfold keys, values_of. induction (values l) as [|[k' v] vs IH]; csimpl.
  - split; [by intros ?%elem_of_nil|done].
  - rewrite elem_of_cons. case_decide; naive_solver.
Qed.

Lemma variant_map {A B} (f : A → B) e : variant (se_map f e) = variant e.
Proof. by destruct e. Qed.

(** Adding a key and taking it back is the identity on elements that carry
    an item. *)
Lemma take_add_key {K A} (k : K) (e : StreamElement A) :
  take_key (add_key k e) = ((λ _, k) <$> value e, e).
Proof. by destruct e. Qed.

#[export] Hint Rewrite @values_app @values_map : renoir.

(** ** Coordinates ([src/src/network/mod.rs])

    [CoordUInt] is [u64]: an unbounded [N] here, no arithmetic is done on
    coordinates. *)
Abbreviation CoordUInt := N (only parsing).
Abbreviation BlockId := N (only parsing).
Abbreviation HostId := N (only parsing).
Abbreviation ReplicaId := N (only parsing).

Record BlockCoord := mkBlockCoord { bc_block_id : BlockId; bc_host_id : HostId }.

Record Coord := mkCoord {
  block_id : BlockId;
  host_id : HostId;
  replica_id : ReplicaId
}.

Record ReceiverEndpoint := mkReceiverEndpoint {
  re_coord : Coord;
  re_prev_block_id : BlockId
}.

Record DemuxCoord := mkDemuxCoord {
  dc_coord : BlockCoord;
  dc_prev_block_id : BlockId
}.

Global Instance BlockCoord_eq_dec : EqDecision BlockCoord.
Proof. solve_decision. Defined.
Global Instance Coord_eq_dec : EqDecision Coord.
Proof. solve_decision. Defined.
Global Instance ReceiverEndpoint_eq_dec : EqDecision ReceiverEndpoint.
Proof. solve_decision. Defined.
Global Instance DemuxCoord_eq_dec : EqDecision DemuxCoord.
Proof. solve_decision. Defined.

Global Instance BlockCoord_countable : Countable BlockCoord.
Proof.
  apply (inj_countable' (λ c, (bc_block_id c, bc_host_id c))
    (λ '(b, h), mkBlockCoord b h)); by intros [].
Defined.
Global Instance Coord_countable : Countable Coord.
Proof.
  apply (inj_countable' (λ c, (block_id c, host_id c, replica_id c))
    (λ '(b, h, r), mkCoord b h r)); by intros [].
Defined.
Global Instance ReceiverEndpoint_countable : Countable ReceiverEndpoint.
Proof.
  apply (inj_countable' (λ c, (re_coord c, re_prev_block_id c))
    (λ '(c, b), mkReceiverEndpoint c b)); by intros [].
Defined.
Global Instance DemuxCoord_countable : Countable DemuxCoord.
Proof.
  apply (inj_countable' (λ c, (dc_coord c, dc_prev_block_id c))
    (λ '(c, b), mkDemuxCoord c b)); by intros [].
Defined.

(** [impl Default for Coord]. *)
Definition coord_default : Coord := mkCoord 0 0 0.

(** [impl From<Coord> for BlockCoord]. *)
Definition blockcoord_of_coord (c : Coord) : BlockCoord :=
  mkBlockCoord (block_id c) (host_id c).

(** [DemuxCoord::new]. *)
Definition DemuxCoord_new (from to : Coord) : DemuxCoord :=
  mkDemuxCoord (blockcoord_of_coord to) (block_id from).

(** [DemuxCoord::includes_channel]. *)
Definition includes_channel (d : DemuxCoord) (from to : Coord) : bool :=
  bool_decide (dc_coord d = blockcoord_of_coord to) &&
  bool_decide (dc_prev_block_id d = block_id from).

(** [impl From<ReceiverEndpoint> for DemuxCoord]. *)
Definition demux_of_endpoint (e : ReceiverEndpoint) : DemuxCoord :=
  mkDemuxCoord (blockcoord_of_coord (re_coord e)) (re_prev_block_id e).

(** A channel goes through exactly the demultiplexer it names. *)
Lemma includes_channel_iff d from to :
  includes_channel d from to = true ↔ d = DemuxCoord_new from to.
Proof.
  unfold includes_channel. rewrite andb_true_iff, !bool_decide_eq_true.
  destruct d; unfold DemuxCoord_new; simpl. naive_solver.
Qed.

(** ** Batches ([NetworkMessage]) *)
Record NetworkMessage (T : Type) := mkNetworkMessage {
  sender : Coord;
  data : list (StreamElement T)
}.
Global Arguments mkNetworkMessage {_} _ _.
Global Arguments sender {_} _.
Global Arguments data {_} _.

(** [NetworkMessage::new_single]. *)
Definition new_single {T} (d : StreamElement T) (s : Coord) : NetworkMessage T :=
  mkNetworkMessage s [d].

(** [NetworkMessage::new_batch]. *)
Definition new_batch {T} (d : list (StreamElement T)) (s : Coord) : NetworkMessage T :=
  mkNetworkMessage s d.

(** [NetworkMessage::num_items]. *)
Definition num_items {T} (m : NetworkMessage T) : nat := length (data m).
