(* ===== verification/Operator.v ===== *)
(** * Operators: the pull interface and its refinement theory

    [trait Operator] ([src/src/operator/mod.rs]): a block is a chain of
    operators, each of which answers [next] by calling [next] on the previous
    one.  An operator is here a state type with an executable [next]; the class
    [OperatorLaws] is what every operator promises to the one after it.

    The second half is the theory all operators share.  A [transducer] is the
    abstract behaviour of an operator: what it can return without reading, and
    what it does with one element read.  [refines] is the simulation between the
    code of an operator and its transducer, and [refines_emits] transports the
    behaviour of the transducer on a trace to the operator behind an arbitrary
    upstream. *)
From S2P Require Import Prelude StreamElement.

(** What is pulled from: a state and the function that answers a call.  Operators
    produce stream elements; the receiving side of a block also pulls from the
    network, which produces elements tagged with their sender. *)
Record producer (E : Type) := mkOperator {
  op_state : Type;
  op_next : nat → op_state → outcome (E * op_state)
}.
Abbreviation Operator Out := (producer (StreamElement Out)).
Global Arguments mkOperator {_} _ _.
Global Arguments op_state {_} _.
Global Arguments op_next {_} _ _ _.

(** More fuel never changes an answer. *)
Class OperatorLaws {E} (o : producer E) := {
  op_next_mono : ∀ f f' s, f ≤ f' → fuel_le (op_next o f s) (op_next o f' s)
}.
#[export] Hint Resolve op_next_mono : renoir.

(** One answered call. *)
Definition Step {E} (o : producer E) (s : op_state o) (e : E)
    (s' : op_state o) : Prop :=
  ∃ f, op_next o f s = Done (e, s').

(** A call that panics. *)
Definition Panics {E} (o : producer E) (s : op_state o) : Prop :=
  ∃ f, op_next o f s = Panicked.

(** A sequence of answered calls: the trace an operator emits. *)
Inductive emits {E} (o : producer E) :
    op_state o → list E → op_state o → Prop :=
| emits_nil s : emits o s [] s
| emits_cons s e s1 l s2 :
    Step o s e s1 → emits o s1 l s2 → emits o s (e :: l) s2.
#[export] Hint Constructors emits : renoir.

Lemma emits_app {E} (o : producer E) s1 l1 s2 l2 s3 :
  emits o s1 l1 s2 → emits o s2 l2 s3 → emits o s1 (l1 ++ l2) s3.
Proof. induction 1; simpl; eauto with renoir. Qed.

Lemma emits_app_inv {E} (o : producer E) s1 l1 l2 s3 :
  emits o s1 (l1 ++ l2) s3 → ∃ s2, emits o s1 l1 s2 ∧ emits o s2 l2 s3.
Proof.
  revert s1; induction l1 as [|e l1 IH]; simpl; intros s1 H.
  - exists s1; eauto with renoir.
  - inversion H as [|? ? s' ? ? HS HE]; subst.
    destruct (IH _ HE) as (s2 & H1 & H2). exists s2; eauto with renoir.
Qed.

Lemma emits_one {E} (o : producer E) s e s' : emits o s [e] s' ↔ Step o s e s'.
Proof.
  split; [|eauto with renoir].
  intros H; inversion H as [|? ? s1 ? ? HS HE]; subst. by inversion HE; subst.
Qed.

Section determinism.
Context {E : Type} (o : producer E) `{!OperatorLaws o}.

(** Two successful runs with different fuel agree on a common amount. *)
Lemma Step_fuel s e s' f :
  op_next o f s = Done (e, s') → ∀ f', f ≤ f' → op_next o f' s = Done (e, s').
Proof.
  intros H f' Hle. apply fuel_le_done. rewrite <-H. by apply op_next_mono.
Qed.

Lemma Step_det s e1 s1 e2 s2 :
  Step o s e1 s1 → Step o s e2 s2 → e1 = e2 ∧ s1 = s2.
Proof.
  intros [f1 H1] [f2 H2].
  pose proof (Step_fuel _ _ _ _ H1 (f1 `max` f2) ltac:(lia)) as H1'.
  pose proof (Step_fuel _ _ _ _ H2 (f1 `max` f2) ltac:(lia)) as H2'.
  rewrite H1' in H2'. by injection H2'.
Qed.

(** The trace of a given length is determined by the initial state. *)
Lemma emits_det s l1 s1 l2 s2 :
  length l1 = length l2 → emits o s l1 s1 → emits o s l2 s2 →
  l1 = l2 ∧ s1 = s2.
Proof.
  intros Hlen H1; revert l2 s2 Hlen.
  induction H1 as [s|s e s1 l1 s1' HS HE IH]; intros [|e2 l2] s2 Hlen H2;
    try discriminate Hlen.
  - by inversion H2.
  - inversion H2 as [|? ? s1b ? ? HSb HEb]; subst.
    destruct (Step_det _ _ _ _ _ HS HSb) as [-> ->].
    destruct (IH l2 s2) as [-> ->]; auto.
Qed.
End determinism.

(** ** Running an operator

    [do_work] of [src/src/worker.rs] calls [next] until it answers [Terminate];
    the model also returns what was emitted on the way. *)
Fixpoint do_work {Out} (o : Operator Out) (fuel : nat) (s : op_state o)
    : outcome (list (StreamElement Out) * op_state o) :=
  match fuel with
  | O => OutOfFuel
  | S fuel =>
      '(e, s) ← op_next o fuel s;
      match e with
      | Terminate => Done ([e], s)
      | _ => '(l, s) ← do_work o fuel s; Done (e :: l, s)
      end
  end.

(** Calls [next] a fixed number of times. *)
Fixpoint next_n {Out} (o : Operator Out) (fuel n : nat) (s : op_state o)
    : outcome (list (StreamElement Out) * op_state o) :=
  match n with
  | O => Done ([], s)
  | S n =>
      '(e, s) ← op_next o fuel s;
      '(l, s) ← next_n o fuel n s;
      Done (e :: l, s)
  end.

Lemma next_n_emits {Out} (o : Operator Out) f n s l s' :
  next_n o f n s = Done (l, s') → emits o s l s'.
Proof.
  revert s l; induction n as [|n IH]; simpl; intros s l H.
  - injection H as <- <-. constructor.
  - apply bind_done in H as ([e s1] & HS & H).
    apply bind_done in H as ([l1 s2] & HE & [= <- <-]).
    econstructor; [by exists f|]. by apply IH.
Qed.

Lemma do_work_emits {Out} (o : Operator Out) f s l s' :
  do_work o f s = Done (l, s') → emits o s l s'.
Proof.
  revert s l; induction f as [|f IH]; simpl; intros s l H; [done|].
  apply bind_done in H as ([e s1] & HS & H).
  assert (Step o s e s1) as HStep by (by exists f).
  destruct e; try (injection H as <- <-; econstructor; [done|constructor]);
    apply bind_done in H as ([l1 s2] & HE & [= <- <-]);
    (econstructor; [done|by apply IH]).
Qed.

Section worker.
Context {Out : Type} (o : Operator Out) `{!OperatorLaws o}.

Lemma do_work_mono f f' s : f ≤ f' → fuel_le (do_work o f s) (do_work o f' s).
Proof.
  revert f' s; induction f as [|f IH]; intros [|f'] s Hle; simpl;
    try lia; eauto with renoir.
  apply fuel_le_bind; [apply op_next_mono; lia|]. intros [e s1]. destruct e; eauto with renoir;
    (apply fuel_le_bind; [apply IH; lia|intros [l s2]; eauto with renoir]).
Qed.

(** The worker loop stops, and it stops with the whole trace, as soon as the
    chain emits a [Terminate] it did not emit before. *)
Lemma do_work_complete s l s' :
  Forall (λ e, e ≠ Terminate) l → emits o s (l ++ [Terminate]) s' →
  ∃ f, do_work o f s = Done (l ++ [Terminate], s').
Proof.
  intros Hl; revert s; induction Hl as [|e l He Hl IH]; simpl; intros s H;
    inversion H as [|? ? s1 ? ? [f Hf] HE]; subst.
  - inversion HE; subst. exists (S f). simpl. by rewrite Hf.
  - destruct (IH _ HE) as [f2 Hf2]. exists (S (f `max` f2)). simpl.
    rewrite (Step_fuel o _ _ _ _ Hf) by lia. simpl.
    assert (do_work o (f `max` f2) s1 = Done (l ++ [Terminate], s')) as ->.
    { apply fuel_le_done. rewrite <-Hf2. apply do_work_mono. lia. }
    by destruct e.
Qed.
End worker.

(** ** The fake source of the unit tests ([src/src/test.rs])

    Returns the elements of a buffer, then [Terminate] for ever. *)
Definition FakeOperator_next {Out} (fuel : nat) (buffer : list (StreamElement Out))
    : outcome (StreamElement Out * list (StreamElement Out)) :=
  match buffer with
  | item :: buffer => Done (item, buffer)
  | [] => Done (Terminate, [])
  end.

Definition FakeOperator (Out : Type) : Operator Out :=
  mkOperator (list (StreamElement Out)) FakeOperator_next.

Global Instance FakeOperator_laws Out : OperatorLaws (FakeOperator Out).
Proof. constructor. intros f f' s _. apply fuel_le_refl. Qed.

Lemma FakeOperator_emits {Out} (l rest : list (StreamElement Out)) :
  emits (FakeOperator Out) (l ++ rest) l rest.
Proof.
  induction l as [|e l IH]; simpl; econstructor; [|done]. by exists 0.
Qed.

Lemma FakeOperator_emits_all {Out} (l : list (StreamElement Out)) :
  emits (FakeOperator Out) l l [].
Proof. rewrite <-(app_nil_r l) at 1. apply FakeOperator_emits. Qed.

(** ** Transducers: the abstract behaviour of an operator *)
Record gtransducer (I E : Type) := mkTransducer {
  t_state : Type;
  (** what the operator returns without reading from upstream *)
  t_ready : t_state → option (E * t_state);
  (** one element read: the new state, and the element returned at once if the
      operator does not go on reading *)
  t_feed : t_state → I → outcome (t_state * option E)
}.
Global Arguments mkTransducer {_ _} _ _ _.
Global Arguments t_state {_ _} _.
Global Arguments t_ready {_ _} _ _.
Global Arguments t_feed {_ _} _ _ _.
Abbreviation transducer A B := (gtransducer (StreamElement A) (StreamElement B)).

(** [runs t s inp out s']: started in [s] and reading exactly [inp], the
    operator answers exactly [out] and is left in [s']. *)
Inductive runs {I E} (t : gtransducer I E) :
    t_state t → list I → list E → t_state t → Prop :=
| runs_stop s : runs t s [] [] s
| runs_ready s e s1 inp out s2 :
    t_ready t s = Some (e, s1) → runs t s1 inp out s2 →
    runs t s inp (e :: out) s2
| runs_return s x s1 e inp out s2 :
    t_ready t s = None → t_feed t s x = Done (s1, Some e) → runs t s1 inp out s2 →
    runs t s (x :: inp) (e :: out) s2
| runs_skip s x s1 e inp out s2 :
    t_ready t s = None → t_feed t s x = Done (s1, None) →
    runs t s1 inp (e :: out) s2 →
    runs t s (x :: inp) (e :: out) s2.
#[export] Hint Constructors runs : renoir.

Lemma runs_app {I E} (t : gtransducer I E) s1 i1 o1 s2 i2 o2 s3 :
  runs t s1 i1 o1 s2 → runs t s2 i2 o2 s3 → runs t s1 (i1 ++ i2) (o1 ++ o2) s3.
Proof. induction 1; simpl; eauto with renoir. Qed.

Lemma runs_skip_ne {I E} (t : gtransducer I E) s x s1 inp out s2 :
  t_ready t s = None → t_feed t s x = Done (s1, None) → out ≠ [] →
  runs t s1 inp out s2 → runs t s (x :: inp) out s2.
Proof. destruct out; [done|]. eauto with renoir. Qed.

(** Reading a prefix that is absorbed without an answer. *)
Inductive absorbs {I E} (t : gtransducer I E) :
    t_state t → list I → t_state t → Prop :=
| absorbs_nil s : absorbs t s [] s
| absorbs_cons s x s1 inp s2 :
    t_ready t s = None → t_feed t s x = Done (s1, None) → absorbs t s1 inp s2 →
    absorbs t s (x :: inp) s2.
#[export] Hint Constructors absorbs : renoir.

Lemma absorbs_runs {I E} (t : gtransducer I E) s i1 s1 i2 e out s2 :
  absorbs t s i1 s1 → runs t s1 i2 (e :: out) s2 → runs t s (i1 ++ i2) (e :: out) s2.
Proof. induction 1; simpl; eauto with renoir. Qed.

Lemma absorbs_app {I E} (t : gtransducer I E) s i1 s1 i2 s2 :
  absorbs t s i1 s1 → absorbs t s1 i2 s2 → absorbs t s (i1 ++ i2) s2.
Proof. induction 1; simpl; eauto with renoir. Qed.

(** Reading a prefix element by element, with what is answered on the way. *)
Inductive feeds {I E} (t : gtransducer I E) :
    t_state t → list I → list E → t_state t → Prop :=
| feeds_nil s : feeds t s [] [] s
| feeds_cons s x s1 o inp out s2 :
    t_ready t s = None → t_feed t s x = Done (s1, o) → feeds t s1 inp out s2 →
    feeds t s (x :: inp) (option_list o ++ out) s2.
#[export] Hint Constructors feeds : renoir.

Lemma feeds_runs {I E} (t : gtransducer I E) s i1 o1 s1 i2 e out s2 :
  feeds t s i1 o1 s1 → runs t s1 i2 (e :: out) s2 →
  runs t s (i1 ++ i2) (o1 ++ e :: out) s2.
Proof.
  induction 1 as [|s x s' o inp o' s'' H0 H _ IH]; [done|].
  intros Hr. specialize (IH Hr). destruct o; cbn; [by eapply runs_return|].
  eapply runs_skip_ne; [done..| |done]. by destruct o'.
Qed.

Lemma feeds_app {I E} (t : gtransducer I E) s i1 o1 s1 i2 o2 s2 :
  feeds t s i1 o1 s1 → feeds t s1 i2 o2 s2 → feeds t s (i1 ++ i2) (o1 ++ o2) s2.
Proof.
  induction 1; cbn; [done|]. intros. rewrite <-app_assoc. eauto with renoir.
Qed.

Lemma feeds_snoc {I E} (t : gtransducer I E) s inp out s1 x o s2 :
  feeds t s inp out s1 → t_ready t s1 = None → t_feed t s1 x = Done (s2, o) →
  feeds t s (inp ++ [x]) (out ++ option_list o) s2.
Proof.
  intros. eapply feeds_app; [done|]. rewrite <-(app_nil_r (option_list o)).
  eauto with renoir.
Qed.

(** Reading a prefix and draining what it buffers, in front of any continuation that
    answers at least once. *)
Definition consumes {I E} (t : gtransducer I E) (s : t_state t) (inp : list I) (out : list E)
    (s' : t_state t) : Prop :=
  ∀ inp' e out' s'', runs t s' inp' (e :: out') s'' →
    runs t s (inp ++ inp') (out ++ e :: out') s''.

Lemma consumes_nil {I E} (t : gtransducer I E) s : consumes t s [] [] s.
Proof. by intros inp e out s'. Qed.

Lemma consumes_app {I E} (t : gtransducer I E) s i1 o1 s1 i2 o2 s2 :
  consumes t s i1 o1 s1 → consumes t s1 i2 o2 s2 → consumes t s (i1 ++ i2) (o1 ++ o2) s2.
Proof.
  intros H1 H2 inp e out s' Hr. specialize (H2 _ _ _ _ Hr). rewrite <-!app_assoc.
  destruct (o2 ++ e :: out) as [|e' out'] eqn:E'; [by destruct o2|]. by apply H1.
Qed.

Lemma consumes_cons {I E} (t : gtransducer I E) s x o1 s1 i2 o2 s2 :
  consumes t s [x] o1 s1 → consumes t s1 i2 o2 s2 → consumes t s (x :: i2) (o1 ++ o2) s2.
Proof. apply (consumes_app t s [x]). Qed.

(** One element after which the buffer [out] is returned. *)
Lemma consumes_buffer {I E} (t : gtransducer I E) s x s1 out s2 :
  t_ready t s = None → t_feed t s x = Done (s1, None) → runs t s1 [] out s2 →
  consumes t s [x] out s2.
Proof.
  intros H0 H1 H2 inp e out' s' Hr. eapply runs_skip_ne; [done..|by destruct out|].
  by eapply (runs_app _ _ []).
Qed.

Lemma consumes_return {I E} (t : gtransducer I E) s x s1 e :
  t_ready t s = None → t_feed t s x = Done (s1, Some e) → consumes t s [x] [e] s1.
Proof. intros H0 H1 inp e' out' s' Hr. by eapply runs_return. Qed.

(** Rounds compose: if each round brings the operator back to [s0], the whole
    stream is the concatenation of what each round produces. *)
Lemma runs_rounds {I E} (t : gtransducer I E) s0
    (inp : list (list I)) (out : list (list E)) :
  Forall2 (λ i o, runs t s0 i o s0) inp out →
  runs t s0 (concat inp) (concat out) s0.
Proof.
  induction 1 as [|i o inp out H _ IH]; simpl; [constructor|].
  by eapply runs_app.
Qed.

(** ** The simulation between an operator and its transducer *)
Section refinement.
Context {I E : Type} (prev : producer I) (t : gtransducer I E).

Definition next_fn : Type :=
  nat → t_state t * op_state prev →
  outcome (E * (t_state t * op_state prev)).

(** [Finally next q r]: with enough fuel the call from [q] ends in [r]. *)
Definition Finally (next : next_fn) q r : Prop :=
  r ≠ OutOfFuel ∧ ∃ f, next f q = r.

Record refines (next : next_fn) : Prop := {
  refines_ready s e s1 p :
    t_ready t s = Some (e, s1) → Finally next (s, p) (Done (e, (s1, p)));
  refines_return s x s1 e p p1 :
    t_ready t s = None → Step prev p x p1 → t_feed t s x = Done (s1, Some e) →
    Finally next (s, p) (Done (e, (s1, p1)));
  refines_skip s x s1 p p1 r :
    t_ready t s = None → Step prev p x p1 → t_feed t s x = Done (s1, None) →
    Finally next (s1, p1) r → Finally next (s, p) r;
  refines_panic s x p p1 :
    t_ready t s = None → Step prev p x p1 → t_feed t s x = Panicked →
    Finally next (s, p) Panicked
}.

(** One turn of the loop in the body of [next], as the transducer prescribes. *)
Definition drive (next : next_fn) (f : nat) (s : t_state t) (p : op_state prev)
    : outcome (E * (t_state t * op_state prev)) :=
  match t_ready t s with
  | Some (e, s1) => Done (e, (s1, p))
  | None =>
      '(x, p1) ← op_next prev f p;
      '(s1, o) ← t_feed t s x;
      match o with
      | Some e => Done (e, (s1, p1))
      | None => next f (s1, p1)
      end
  end.

(** Code whose [next] is, turn by turn, the loop of its transducer, but for states, never
    reached, in which it panics before it reads; there the transducer rejects every
    element. *)
Class FollowsBut (stuck : t_state t → bool) (next : next_fn) := {
  follows_but_O q : next 0 q = OutOfFuel;
  follows_but_S f s p : next (S f) (s, p) = if stuck s then Panicked else drive next f s p;
  follows_but_ready s : stuck s = true → t_ready t s = None;
  follows_but_feed s x : stuck s = true → t_feed t s x = Panicked
}.

Lemma follows_but_mono stuck next `{!OperatorLaws prev, !FollowsBut stuck next} f f' q :
  f ≤ f' → fuel_le (next f q) (next f' q).
Proof.
  revert f' q; induction f as [|f IH]; intros f' [s p] Hle.
  { rewrite follows_but_O. eauto with renoir. }
  destruct f' as [|f']; [lia|]. rewrite !follows_but_S. destruct (stuck s); [eauto with renoir|]. unfold drive.
  destruct (t_ready t s) as [[e s1]|]; [eauto with renoir|].
  apply fuel_le_bind; [apply op_next_mono; lia|]. intros [x p1].
  apply fuel_le_bind; [eauto with renoir|]. intros [s1 [e|]];
    [eauto with renoir|apply IH; lia].
Qed.

Lemma follows_but_refines stuck next `{!OperatorLaws prev, !FollowsBut stuck next} : refines next.
Proof.
  split.
  - intros s e s1 p H. split; [done|]. exists 1. rewrite follows_but_S.
    destruct (stuck s) eqn:Es; [by rewrite follows_but_ready in H|]. unfold drive. by rewrite H.
  - intros s x s1 e p p1 H0 [f Hf] H. split; [done|]. exists (S f). rewrite follows_but_S.
    destruct (stuck s) eqn:Es; [by rewrite follows_but_feed in H|]. unfold drive.
    by rewrite H0, Hf; simpl; rewrite H.
  - intros s x s1 p p1 r H0 [f Hf] H [Hr [f2 H2]]. split; [done|].
    exists (S (f `max` f2)). rewrite follows_but_S.
    destruct (stuck s) eqn:Es; [by rewrite follows_but_feed in H|]. unfold drive. rewrite H0.
    rewrite (Step_fuel prev _ _ _ _ Hf) by lia. simpl. rewrite H. simpl.
    destruct (follows_but_mono stuck next f2 (f `max` f2) (s1, p1)) as [Ho|Ho]; [lia|congruence..].
  - intros s x p p1 H0 [f Hf] H. split; [done|]. exists (S f). rewrite follows_but_S.
    destruct (stuck s); [done|]. unfold drive. by rewrite H0, Hf; simpl; rewrite H.
Qed.

(** The usual case: no such states. *)
Class Follows (next : next_fn) := {
  follows_O q : next 0 q = OutOfFuel;
  follows_S f s p : next (S f) (s, p) = drive next f s p
}.

Context (next : next_fn).

Lemma follows_follows_but `{!Follows next} : FollowsBut (λ _, false) next.
Proof. split; [apply follows_O|apply follows_S|done..]. Qed.
Lemma follows_mono `{!OperatorLaws prev, !Follows next} f f' q :
  f ≤ f' → fuel_le (next f q) (next f' q).
Proof. apply (follows_but_mono _ _ (FollowsBut0 := follows_follows_but)). Qed.
Lemma follows_refines `{!OperatorLaws prev, !Follows next} : refines next.
Proof. apply (follows_but_refines _ _ (FollowsBut0 := follows_follows_but)). Qed.

Context (Href : refines next).
Let o := mkOperator _ next.

(** The operator placed after [prev] answers the calls as its transducer does
    on the trace [prev] emits. *)
Lemma refines_emits s inp out s' p p' :
  runs t s inp out s' → emits prev p inp p' →
  emits o (s, p) out (s', p').
Proof.
  intros Hr; revert p. induction Hr as
    [s|s e s1 inp out s2 H Hr IH|s x s1 e inp out s2 H0 H Hr IH
    |s x s1 e inp out s2 H0 H Hr IH]; intros p Hp.
  - inversion Hp; subst. constructor.
  - econstructor; [by apply (refines_ready _ Href)|eauto].
  - inversion Hp as [|? ? p1 ? ? HS HE]; subst.
    econstructor; [by eapply (refines_return _ Href)|eauto].
  - inversion Hp as [|? ? p1 ? ? HS HE]; subst.
    specialize (IH _ HE). inversion IH as [|? ? q ? ? [f Hf] HEq]; subst.
    econstructor; [|done]. eapply (refines_skip _ Href); [done..|].
    split; [done|by exists f].
Qed.

Lemma refines_absorbs s inp s1 p p1 r :
  absorbs t s inp s1 → emits prev p inp p1 →
  Finally next (s1, p1) r → Finally next (s, p) r.
Proof.
  intros Ha; revert p. induction Ha as [s|s x s1' inp s2 H0 H Ha IH];
    intros p Hp HS; inversion Hp as [|? ? p2 ? ? HSp HEp]; subst; [done|].
  eapply (refines_skip _ Href); [done..|]. by eapply IH.
Qed.

(** The operator panics when, after input it absorbs, it reads an element its
    transducer rejects. *)
Lemma refines_panics s inp s1 x p p1 :
  absorbs t s inp s1 → t_ready t s1 = None → t_feed t s1 x = Panicked →
  emits prev p (inp ++ [x]) p1 → Panics o (s, p).
Proof.
  intros Ha H0 H Hp. apply emits_app_inv in Hp as (p2 & Hp & Hx).
  apply emits_one in Hx.
  destruct (refines_absorbs s inp s1 p p2 Panicked Ha Hp) as [_ ?]; [|done].
  by eapply (refines_panic _ Href).
Qed.

Lemma follows_laws `{!OperatorLaws prev, !Follows next} : OperatorLaws o.
Proof. constructor. intros; by apply follows_mono. Qed.
Lemma follows_but_laws stuck `{!OperatorLaws prev, !FollowsBut stuck next} : OperatorLaws o.
Proof. constructor. intros; by apply (follows_but_mono stuck). Qed.
End refinement.
Global Arguments next_fn {_ _} _ _.
Global Arguments Follows {_ _} _ _ _.
Global Arguments FollowsBut {_ _} _ _ _ _.
Global Arguments refines {_ _} _ _ _.
Global Arguments Finally {_ _ _ _} _ _ _.

(** Discharges the equation of [Follows] for code whose loop body mentions the
    same case distinctions as its transducer. *)
Ltac follows_tac :=
  constructor;
  [by intros []
  |intros ? ? ?; unfold drive; cbn;
   repeat (first
     [ reflexivity
     | match goal with
       | |- context [op_next ?pr ?f ?p] => destruct (op_next pr f p) as [[[]]| | |]; cbn
       | |- context [match ?x with _ => _ end] => destruct x eqn:?; cbn
       end ])].
