(* ===== verification/BasicOps.v ===== *)
(** * Element-wise operators

    [Map], [Filter], [FilterMap], [KeyBy], [Inspect], [DropTimestamp],
    [AddTimestamp], [RichMap] and the four flattening operators
    ([src/src/operator/{map,filter,filter_map,key_by,inspect,add_timestamps,
    rich_map,flatten,flat_map}.rs]).

    Each [X_next] is the body of [X::next]; each is placed after an arbitrary
    upstream operator [prev].  The stateless operators share one transducer,
    [pointwise]; the flattening operators share [flattening]. *)
From S2P Require Import Prelude StreamElement Operator.

(** ** The shared transducer of stateless operators *)
Section pointwise.
Context {A B : Type} (g : StreamElement A → option (StreamElement B)).

Definition pointwise : transducer A B :=
  mkTransducer unit (λ _, None) (λ _ x, Done (tt, g x)).

Lemma pointwise_runs l x y :
  g x = Some y → runs pointwise tt (l ++ [x]) (omap g l ++ [y]) tt.
Proof.
  intros Hx. induction l as [|z l IH]; csimpl.
  - eapply runs_return; [done| |constructor]. simpl. by rewrite Hx.
  - destruct (g z) as [w|] eqn:Hz.
    + eapply runs_return; [done|simpl; by rewrite Hz|done].
    + eapply runs_skip_ne; [done|simpl; by rewrite Hz| |done].
      by destruct (omap g l).
Qed.
End pointwise.

(** ** Code of the stateless operators *)
Section stateless.
Context {A : Type} (prev : Operator A).

(** [Map::next]: [self.prev.next().map(&self.f)]. *)
Definition Map_next {O} (f : A → O) (fuel : nat) (q : unit * op_state prev)
    : outcome (StreamElement O * (unit * op_state prev)) :=
  match fuel with
  | O => OutOfFuel
  | S fuel =>
      '(e, p) ← op_next prev fuel q.2;
      Done (se_map f e, (tt, p))
  end.

(** [Filter::next]. *)
Fixpoint Filter_next (predicate : A → bool) (fuel : nat) (q : unit * op_state prev)
    : outcome (StreamElement A * (unit * op_state prev)) :=
  match fuel with
  | O => OutOfFuel
  | S fuel =>
      '(element, p) ← op_next prev fuel q.2;
      match element with
      | Item item | Timestamped item _ =>
          if negb (predicate item) then Filter_next predicate fuel (tt, p)
          else Done (element, (tt, p))
      | _ => Done (element, (tt, p))
      end
  end.

(** [FilterMap::next]. *)
Fixpoint FilterMap_next {O} (predicate : A → option O) (fuel : nat)
    (q : unit * op_state prev) : outcome (StreamElement O * (unit * op_state prev)) :=
  match fuel with
  | O => OutOfFuel
  | S fuel =>
      '(element, p) ← op_next prev fuel q.2;
      match element with
      | Item item =>
          match predicate item with
          | Some el => Done (Item el, (tt, p))
          | None => FilterMap_next predicate fuel (tt, p)
          end
      | Timestamped item ts =>
          match predicate item with
          | Some el => Done (Timestamped el ts, (tt, p))
          | None => FilterMap_next predicate fuel (tt, p)
          end
      | Watermark w => Done (Watermark w, (tt, p))
      | Terminate => Done (Terminate, (tt, p))
      | FlushAndRestart => Done (FlushAndRestart, (tt, p))
      | FlushBatch => Done (FlushBatch, (tt, p))
      end
  end.

(** [KeyBy::next]. *)
Definition KeyBy_next {Key} (keyer : A → Key) (fuel : nat) (q : unit * op_state prev)
    : outcome (StreamElement (Key * A) * (unit * op_state prev)) :=
  match fuel with
  | O => OutOfFuel
  | S fuel =>
      '(e, p) ← op_next prev fuel q.2;
      Done (match e with
            | Item t => Item (keyer t, t)
            | Timestamped t ts => Timestamped (keyer t, t) ts
            | Watermark w => Watermark w
            | Terminate => Terminate
            | FlushAndRestart => FlushAndRestart
            | FlushBatch => FlushBatch
            end, (tt, p))
  end.

(** [DropTimestamp::next]. *)
Fixpoint DropTimestamp_next (fuel : nat) (q : unit * op_state prev)
    : outcome (StreamElement A * (unit * op_state prev)) :=
  match fuel with
  | O => OutOfFuel
  | S fuel =>
      '(e, p) ← op_next prev fuel q.2;
      match e with
      | Watermark _ => DropTimestamp_next fuel (tt, p)
      | Timestamped item _ => Done (Item item, (tt, p))
      | el => Done (el, (tt, p))
      end
  end.
End stateless.

(** Their behaviour on one element. *)
Definition map_elem {A B} (f : A → B) (e : StreamElement A) : option (StreamElement B) :=
  Some (se_map f e).

Definition filter_elem {A} (predicate : A → bool) (e : StreamElement A)
    : option (StreamElement A) :=
  match value e with
  | Some x => if predicate x then Some e else None
  | None => Some e
  end.

Definition filter_map_elem {A B} (predicate : A → option B) (e : StreamElement A)
    : option (StreamElement B) :=
  match e with
  | Item x => Item <$> predicate x
  | Timestamped x ts => (λ y, Timestamped y ts) <$> predicate x
  | Watermark w => Some (Watermark w)
  | FlushBatch => Some FlushBatch
  | Terminate => Some Terminate
  | FlushAndRestart => Some FlushAndRestart
  end.

Definition drop_timestamp_elem {A} (e : StreamElement A) : option (StreamElement A) :=
  match e with
  | Watermark _ => None
  | Timestamped x _ => Some (Item x)
  | _ => Some e
  end.

Section stateless_refinement.
Context {A : Type} (prev : Operator A) `{!OperatorLaws prev}.

Global Instance Map_follows {O} (f : A → O) :
  Follows prev (pointwise (map_elem f)) (Map_next prev f).
Proof. follows_tac. Qed.

Global Instance Filter_follows predicate :
  Follows prev (pointwise (filter_elem predicate)) (Filter_next prev predicate).
Proof.
  constructor; [by intros [[]]|]. intros f [] p. unfold drive. cbn.
  destruct (op_next prev f p) as [[[] p1]| | |]; cbn; try done;
    unfold filter_elem; cbn; by destruct (predicate _).
Qed.

Global Instance FilterMap_follows {O} (predicate : A → option O) :
  Follows prev (pointwise (filter_map_elem predicate)) (FilterMap_next prev predicate).
Proof.
  constructor; [by intros [[]]|]. intros f [] p. unfold drive. cbn.
  destruct (op_next prev f p) as [[[] p1]| | |]; cbn; try done;
    by destruct (predicate _).
Qed.

Global Instance KeyBy_follows {Key} (keyer : A → Key) :
  Follows prev (pointwise (map_elem (λ t, (keyer t, t)))) (KeyBy_next prev keyer).
Proof. follows_tac. Qed.

Global Instance DropTimestamp_follows :
  Follows prev (pointwise drop_timestamp_elem) (DropTimestamp_next prev).
Proof. follows_tac. Qed.

(** An operator that follows [pointwise g] maps each round with [g]. *)
Lemma pointwise_emits {B} (g : StreamElement A → option (StreamElement B)) next
    `{!Follows prev (pointwise g) next} p l x y p' :
  g x = Some y → emits prev p (l ++ [x]) p' →
  emits (mkOperator _ next) (tt, p) (omap g l ++ [y]) (tt, p').
Proof.
  intros Hx Hp.
  by eapply refines_emits; [apply follows_refines|apply pointwise_runs|].
Qed.
End stateless_refinement.

(** The operators themselves. *)
Definition Map {A O} (prev : Operator A) (f : A → O) : Operator O :=
  mkOperator _ (Map_next prev f).
Definition Filter {A} (prev : Operator A) (predicate : A → bool) : Operator A :=
  mkOperator _ (Filter_next prev predicate).
Definition FilterMap {A O} (prev : Operator A) (predicate : A → option O) : Operator O :=
  mkOperator _ (FilterMap_next prev predicate).
Definition KeyBy {A Key} (prev : Operator A) (keyer : A → Key) : Operator (Key * A) :=
  mkOperator _ (KeyBy_next prev keyer).
Definition DropTimestamp {A} (prev : Operator A) : Operator A :=
  mkOperator _ (DropTimestamp_next prev).

Global Instance Map_laws {A O} prev (f : A → O) `{!OperatorLaws prev} :
  OperatorLaws (Map prev f).
Proof. apply (follows_laws prev (pointwise (map_elem f)) _). Qed.
Global Instance Filter_laws {A} prev (f : A → bool) `{!OperatorLaws prev} :
  OperatorLaws (Filter prev f).
Proof. apply (follows_laws prev (pointwise (filter_elem f)) _). Qed.
Global Instance FilterMap_laws {A O} prev (f : A → option O) `{!OperatorLaws prev} :
  OperatorLaws (FilterMap prev f).
Proof. apply (follows_laws prev (pointwise (filter_map_elem f)) _). Qed.
Global Instance KeyBy_laws {A Key} prev (f : A → Key) `{!OperatorLaws prev} :
  OperatorLaws (KeyBy prev f).
Proof. apply (follows_laws prev (pointwise (map_elem (λ t, (f t, t)))) _). Qed.
Global Instance DropTimestamp_laws {A} (prev : Operator A) `{!OperatorLaws prev} :
  OperatorLaws (DropTimestamp prev).
Proof. apply (follows_laws prev (pointwise (drop_timestamp_elem)) _). Qed.

(** ** Operators that carry the state of a user closure

    A Rust [FnMut] is a state and a function that updates it. *)
Section stateful.
Context {A : Type} (prev : Operator A).

(** [Inspect::next]. *)
Definition Inspect_next {C} (f : C → A → C) (fuel : nat) (q : C * op_state prev)
    : outcome (StreamElement A * (C * op_state prev)) :=
  match fuel with
  | O => OutOfFuel
  | S fuel =>
      let '(c, p) := q in
      '(el, p) ← op_next prev fuel p;
      match el with
      | Item t | Timestamped t _ => Done (el, (f c t, p))
      | _ => Done (el, (c, p))
      end
  end.

(** State of [AddTimestamp]: its two closures and [pending_watermark]. *)
Record AddTimestamp_state (G W : Type) := mkAddTimestamp {
  timestamp_gen : G;
  watermark_gen : W;
  pending_watermark : option Timestamp
}.
Global Arguments mkAddTimestamp {_ _} _ _ _.
Global Arguments timestamp_gen {_ _} _.
Global Arguments watermark_gen {_ _} _.
Global Arguments pending_watermark {_ _} _.

(** [AddTimestamp::next]. *)
Definition AddTimestamp_next {G W}
    (tgen : G → A → Timestamp * G) (wgen : W → A → Timestamp → option Timestamp * W)
    (fuel : nat) (q : AddTimestamp_state G W * op_state prev)
    : outcome (StreamElement A * (AddTimestamp_state G W * op_state prev)) :=
  match fuel with
  | O => OutOfFuel
  | S fuel =>
      let '(self, p) := q in
      match pending_watermark self with
      | Some ts =>
          Done (Watermark ts,
                (mkAddTimestamp (timestamp_gen self) (watermark_gen self) None, p))
      | None =>
          '(elem, p) ← op_next prev fuel p;
          match elem with
          | Item item =>
              let (ts, g) := tgen (timestamp_gen self) item in
              let (watermark, w) := wgen (watermark_gen self) item ts in
              Done (Timestamped item ts, (mkAddTimestamp g w watermark, p))
          | FlushAndRestart | FlushBatch | Terminate => Done (elem, (self, p))
          | _ => Panicked
          end
      end
  end.
End stateful.

(** [RichMap::next]: one copy of the closure per key, never cleared. *)
Definition RichMap_next {K I} `{Countable K} (prev : Operator (K * I))
    {C O} (call : C → K → I → O * C) (init_map : C) (fuel : nat)
    (q : gmap K C * op_state prev)
    : outcome (StreamElement (K * O) * (gmap K C * op_state prev)) :=
  match fuel with
  | O => OutOfFuel
  | S fuel =>
      let '(maps_fn, p) := q in
      '(element, p) ← op_next prev fuel p;
      let apply := λ (key : K) (v : I),
        let (new_value, map_fn) := call (default init_map (maps_fn !! key)) key v in
        ((key, new_value), <[key := map_fn]> maps_fn) in
      match element with
      | Item (key, v) =>
          let (kv, maps_fn) := apply key v in Done (Item kv, (maps_fn, p))
      | Timestamped (key, v) ts =>
          let (kv, maps_fn) := apply key v in Done (Timestamped kv ts, (maps_fn, p))
      | Watermark w => Done (Watermark w, (maps_fn, p))
      | Terminate => Done (Terminate, (maps_fn, p))
      | FlushAndRestart => Done (FlushAndRestart, (maps_fn, p))
      | FlushBatch => Done (FlushBatch, (maps_fn, p))
      end
  end.

(** The abstract behaviour of an operator that answers every element it reads. *)
Definition mealy {A B S} (step : S → StreamElement A → StreamElement B * S)
    : transducer A B :=
  mkTransducer S (λ _, None) (λ s x, Done ((step s x).2, Some (step s x).1)).

Fixpoint mealy_out {A B S} (step : S → StreamElement A → StreamElement B * S)
    (s : S) (l : list (StreamElement A)) : list (StreamElement B) * S :=
  match l with
  | [] => ([], s)
  | x :: l => let '(y, s) := step s x in let '(out, s) := mealy_out step s l in (y :: out, s)
  end.

Lemma mealy_runs {A B S} (step : S → StreamElement A → StreamElement B * S) s l :
  runs (mealy step) s l (mealy_out step s l).1 (mealy_out step s l).2.
Proof.
  revert s; induction l as [|x l IH]; intros s; simpl; [constructor|].
  destruct (step s x) as [y s1] eqn:E. specialize (IH s1).
  destruct (mealy_out step s1 l) as [out s2]; simpl in *.
  eapply (runs_return (mealy step)); [done|simpl; by rewrite E|done].
Qed.

Definition rich_map_step {K I C O} `{Countable K} (call : C → K → I → O * C)
    (init_map : C) (m : gmap K C) (e : StreamElement (K * I))
    : StreamElement (K * O) * gmap K C :=
  let run k v := call (default init_map (m !! k)) k v in
  match e with
  | Item (k, v) => (Item (k, (run k v).1), <[k := (run k v).2]> m)
  | Timestamped (k, v) ts => (Timestamped (k, (run k v).1) ts, <[k := (run k v).2]> m)
  | Watermark w => (Watermark w, m)
  | FlushBatch => (FlushBatch, m)
  | Terminate => (Terminate, m)
  | FlushAndRestart => (FlushAndRestart, m)
  end.

Global Instance RichMap_follows {K I C O} `{Countable K} (prev : Operator (K * I))
    (call : C → K → I → O * C) init_map :
  Follows prev (mealy (rich_map_step call init_map)) (RichMap_next prev call init_map).
Proof.
  constructor; [by intros []|]. intros f m p. unfold drive. cbn.
  destruct (op_next prev f p) as [[[[k v]|[k v] ts| | | |] p1]| | |]; cbn; try done;
    by destruct (call _ _ _).
Qed.

Definition inspect_step {A C} (f : C → A → C) (c : C) (e : StreamElement A)
    : StreamElement A * C :=
  (e, match value e with Some t => f c t | None => c end).

Global Instance Inspect_follows {A C} (prev : Operator A) (f : C → A → C) :
  Follows prev (mealy (inspect_step f)) (Inspect_next prev f).
Proof.
  constructor; [by intros []|]. intros n c p. unfold drive. cbn.
  by destruct (op_next prev n p) as [[[] p1]| | |].
Qed.

Definition RichMap {K I C O} `{Countable K} (prev : Operator (K * I))
    (call : C → K → I → O * C) (init_map : C) : Operator (K * O) :=
  mkOperator _ (RichMap_next prev call init_map).
Definition Inspect {A C} (prev : Operator A) (f : C → A → C) : Operator A :=
  mkOperator _ (Inspect_next prev f).

Global Instance RichMap_laws {K I C O} `{Countable K} prev (call : C → K → I → O * C) init_map
    `{!OperatorLaws prev} : OperatorLaws (RichMap prev call init_map).
Proof. apply (follows_laws prev (mealy (rich_map_step call init_map)) _). Qed.
Global Instance Inspect_laws {A C} prev (f : C → A → C) `{!OperatorLaws prev} : OperatorLaws (Inspect prev f).
Proof. apply (follows_laws prev (mealy (inspect_step f)) _). Qed.

Lemma mealy_emits {A B S} (prev : Operator A) `{!OperatorLaws prev}
    (step : S → StreamElement A → StreamElement B * S) next
    `{!Follows prev (mealy step) next} s p l p' :
  emits prev p l p' →
  emits (mkOperator _ next) (s, p) (mealy_out step s l).1 ((mealy_out step s l).2, p').
Proof.
  intros Hp. eapply refines_emits; [by apply follows_refines|apply mealy_runs|done].
Qed.

(** [AddTimestamp] as a transducer. *)
Definition add_timestamp {A G W} (tgen : G → A → Timestamp * G)
    (wgen : W → A → Timestamp → option Timestamp * W) : transducer A A :=
  mkTransducer (AddTimestamp_state G W)
    (λ s, (λ ts, (Watermark ts,
        mkAddTimestamp (timestamp_gen s) (watermark_gen s) None)) <$> pending_watermark s)
    (λ s e, match e with
      | Item x =>
          let ts := (tgen (timestamp_gen s) x).1 in
          Done (mkAddTimestamp (tgen (timestamp_gen s) x).2
                  (wgen (watermark_gen s) x ts).2 (wgen (watermark_gen s) x ts).1,
                Some (Timestamped x ts))
      | FlushAndRestart | FlushBatch | Terminate => Done (s, Some e)
      | Timestamped _ _ | Watermark _ => Panicked
      end).

Global Instance AddTimestamp_follows {A G W} (prev : Operator A)
    (tgen : G → A → Timestamp * G) (wgen : W → A → Timestamp → option Timestamp * W) :
  Follows prev (add_timestamp tgen wgen) (AddTimestamp_next prev tgen wgen).
Proof.
  constructor; [by intros []|]. intros f s p. unfold drive. cbn.
  destruct (pending_watermark s); [done|]. cbn.
  destruct (op_next prev f p) as [[[] p1]| | |]; cbn; try done.
  destruct (tgen _ _); cbn. by destruct (wgen _ _ _).
Qed.

Definition AddTimestamp {A G W} (prev : Operator A) (tgen : G → A → Timestamp * G)
    (wgen : W → A → Timestamp → option Timestamp * W) : Operator A :=
  mkOperator _ (AddTimestamp_next prev tgen wgen).

(** ** Flattening *)

(** An iterator that is known to be finite: [it_list] is what is left in it. *)
Class FiniteIter (It B : Type) := {
  it_next : It → option (B * It);
  it_list : It → list B;
  it_next_None : ∀ it, it_next it = None → it_list it = [];
  it_next_Some : ∀ it b it', it_next it = Some (b, it') → it_list it = b :: it_list it'
}.

(** [std::vec::IntoIter]. *)
Global Instance list_iter B : FiniteIter (list B) B.
Proof.
  refine {| it_next := λ l, match l with [] => None | x :: l => Some (x, l) end;
            it_list := λ l, l |}.
  - by intros [].
  - intros [|? ?] ? ? ?; simplify_eq; done.
Defined.

(** [std::option::IntoIter]. *)
Global Instance option_iter B : FiniteIter (option B) B.
Proof.
  refine {| it_next := λ o : option B, match o with Some x => Some (x, None) | None => None end;
            it_list := option_list |}.
  - by intros [].
  - intros [b|] ? ? ?; simplify_eq/=; done.
Defined.

(** A finite iterator paired with the key of the element it came from. *)
Global Instance keyed_iter K It B `{!FiniteIter It B} : FiniteIter (K * It) (K * B).
Proof.
  refine {| it_next := λ '(k, it), (λ '(b, it), ((k, b), (k, it))) <$> it_next it;
            it_list := λ '(k, it), pair k <$> it_list it |}.
  - intros [k it] H. apply fmap_None in H. by rewrite (it_next_None it H).
  - intros [k it] kb it' H. apply fmap_Some in H as ([b it2] & H & [= -> ->]).
    by rewrite (it_next_Some _ _ _ H).
Defined.

(** State of the four flattening operators: [frontiter] and [timestamp]. *)
Record Flatten_state (It : Type) := mkFlatten {
  frontiter : option It;
  fl_timestamp : option Timestamp
}.
Global Arguments mkFlatten {_} _ _.
Global Arguments frontiter {_} _.
Global Arguments fl_timestamp {_} _.

(** The loop of [Flatten::next], [FlatMap::next], [KeyedFlatten::next] and
    [KeyedFlatMap::next]; they differ in how an item becomes an iterator. *)
Fixpoint flatten_loop {A B It} `{!FiniteIter It B} (prev : Operator A) (start : A → It)
    (fuel : nat) (q : Flatten_state It * op_state prev)
    : outcome (StreamElement B * (Flatten_state It * op_state prev)) :=
  match fuel with
  | O => OutOfFuel
  | S fuel =>
      let '(self, p) := q in
      match frontiter self ≫= it_next with
      | Some (item, inner) =>
          let self := mkFlatten (Some inner) (fl_timestamp self) in
          match fl_timestamp self with
          | None => Done (Item item, (self, p))
          | Some ts => Done (Timestamped item ts, (self, p))
          end
      | None =>
          let self := mkFlatten None (fl_timestamp self) in
          '(e, p) ← op_next prev fuel p;
          match e with
          | Item inner => flatten_loop prev start fuel (mkFlatten (Some (start inner)) None, p)
          | Timestamped inner ts =>
              flatten_loop prev start fuel (mkFlatten (Some (start inner)) (Some ts), p)
          | Watermark ts => Done (Watermark ts, (self, p))
          | FlushBatch => Done (FlushBatch, (self, p))
          | Terminate => Done (Terminate, (self, p))
          | FlushAndRestart => Done (FlushAndRestart, (self, p))
          end
      end
  end.

(** [Flatten::next]: [Some(inner.into_iter())]. *)
Definition Flatten_next {A B It} `{!FiniteIter It B} (prev : Operator A)
    (into_iter : A → It) := flatten_loop prev into_iter.

(** [FlatMap::next]: [Some((self.f)(inner).into_iter())]. *)
Definition FlatMap_next {A C B It} `{!FiniteIter It B} (prev : Operator A)
    (f : A → C) (into_iter : C → It) := flatten_loop prev (λ inner, into_iter (f inner)).

(** [KeyedFlatten::next]: [Some((key, value.into_iter()))]. *)
Definition KeyedFlatten_next {K V B It} `{!FiniteIter It B} (prev : Operator (K * V))
    (into_iter : V → It) := flatten_loop prev (λ '(key, value), (key, into_iter value)).

(** [KeyedFlatMap::next]: the key is cloned, the closure gets the whole pair. *)
Definition KeyedFlatMap_next {K V C B It} `{!FiniteIter It B} (prev : Operator (K * V))
    (f : K * V → C) (into_iter : C → It) :=
  flatten_loop prev (λ kv, (kv.1, into_iter (f kv))).

Section flattening.
Context {A B It : Type} `{!FiniteIter It B} (start : A → It).

Definition flattening : transducer A B :=
  mkTransducer (Flatten_state It)
    (λ s, match frontiter s ≫= it_next with
          | Some (x, it) =>
              Some (match fl_timestamp s with
                    | None => Item x | Some ts => Timestamped x ts end,
                    mkFlatten (Some it) (fl_timestamp s))
          | None => None
          end)
    (λ s e, match e with
            | Item x => Done (mkFlatten (Some (start x)) None, None)
            | Timestamped x ts => Done (mkFlatten (Some (start x)) (Some ts), None)
            | Watermark ts => Done (mkFlatten None (fl_timestamp s), Some (Watermark ts))
            | FlushBatch => Done (mkFlatten None (fl_timestamp s), Some FlushBatch)
            | Terminate => Done (mkFlatten None (fl_timestamp s), Some Terminate)
            | FlushAndRestart =>
                Done (mkFlatten None (fl_timestamp s), Some FlushAndRestart)
            end).

Global Instance flatten_follows (prev : Operator A) :
  Follows prev flattening (flatten_loop prev start).
Proof.
  constructor; [by intros []|]. intros f s p. unfold drive. cbn.
  destruct (frontiter s ≫= it_next) as [[x it]|]; [by destruct (fl_timestamp s)|].
  by destruct (op_next prev f p) as [[[] p1]| | |].
Qed.

(** What one input element becomes. *)
Definition flatten_elem (e : StreamElement A) : list (StreamElement B) :=
  match e with
  | Item x => Item <$> it_list (start x)
  | Timestamped x ts => (λ y, Timestamped y ts) <$> it_list (start x)
  | Watermark ts => [Watermark ts]
  | FlushBatch => [FlushBatch]
  | Terminate => [Terminate]
  | FlushAndRestart => [FlushAndRestart]
  end.

(** What a state still has to return before reading again. *)
Definition flatten_rest (s : Flatten_state It) : list (StreamElement B) :=
  (λ y, match fl_timestamp s with None => Item y | Some ts => Timestamped y ts end)
    <$> from_option it_list [] (frontiter s).

Lemma flatten_ready s :
  match flatten_rest s with
  | [] => t_ready flattening s = None
  | y :: r => ∃ s', t_ready flattening s = Some (y, s') ∧ flatten_rest s' = r
  end.
Proof.
  unfold flatten_rest. destruct s as [[it|] ts]; cbn; [|done].
  destruct (it_next it) as [[b it']|] eqn:E.
  - rewrite (it_next_Some _ _ _ E). cbn. eexists; split; [done|].
    by destruct ts.
  - by rewrite (it_next_None _ E).
Qed.

(** What is pending, then the expansion of every element, in order, up to an element [x]
    that is passed on as [y]. *)
Lemma flatten_runs_upto x y l s :
  (∀ s, t_feed flattening s x = Done (mkFlatten None (fl_timestamp s), Some y)) →
  ∃ ts, runs flattening s (l ++ [x]) (flatten_rest s ++ (l ≫= flatten_elem) ++ [y]) (mkFlatten None ts).
Proof.
  intros Hx. revert s; induction l as [|e l IH]; intros s;
    remember (flatten_rest s) as r eqn:Hr; revert s Hr;
    induction r as [|z r IHr]; intros s Hr;
    pose proof (flatten_ready s) as Hs; rewrite <-Hr in Hs.
  - exists (fl_timestamp s). eapply runs_return; [done|apply Hx|constructor].
  - destruct Hs as (s' & Hs & <-). destruct (IHr s' eq_refl) as [ts H].
    exists ts. by eapply runs_ready.
  - destruct e as [e|e ts|ts| | |].
    1: destruct (IH (mkFlatten (Some (start e)) None)) as [ts' H]; exists ts';
      (eapply runs_skip_ne; [done|done| |]; csimpl; rewrite <-?app_assoc;
       [by destruct (Item <$> _), (l ≫= flatten_elem)|done]).
    1: destruct (IH (mkFlatten (Some (start e)) (Some ts))) as [ts' H]; exists ts';
      (eapply runs_skip_ne; [done|done| |]; csimpl; rewrite <-?app_assoc;
       [by destruct (_ <$> _), (l ≫= flatten_elem)|done]).
    all: destruct (IH (mkFlatten None (fl_timestamp s))) as [ts' H]; exists ts';
      (eapply runs_return; [done|done|exact H]).
  - destruct Hs as (s' & Hs & <-). destruct (IHr s' eq_refl) as [ts H].
    exists ts. by eapply runs_ready.
Qed.
(** A round: what is pending, then the expansion of every element, in order. *)
Lemma flatten_runs l s :
  ∃ ts, runs flattening s (l ++ [FlushAndRestart])
          (flatten_rest s ++ (l ≫= flatten_elem) ++ [FlushAndRestart])
          (mkFlatten None ts).
Proof. by apply flatten_runs_upto. Qed.
End flattening.

(** ** What the operators do to a whole round

    In every statement [prev] is an arbitrary upstream operator and
    [round ++ [FlushAndRestart]] the trace it emits. *)

(** [KeyedFlatMap] replaces every item by the items of its expansion, in order,
    each under the key of the item it came from and with its timestamp; watermarks
    and control messages keep their place, nothing is left pending at the end of
    the round. *)
Theorem KeyedFlatMap_round {K V C B It} `{!FiniteIter It B} (prev : Operator (K * V))
    `{!OperatorLaws prev} (f : K * V → C) (into_iter : C → It) p round p' :
  emits prev p (round ++ [FlushAndRestart]) p' →
  ∃ ts, emits (mkOperator _ (KeyedFlatMap_next prev f into_iter))
    (mkFlatten None None, p)
    ((round ≫= λ e, match e with
        | Item kv => (λ b, Item (kv.1, b)) <$> it_list (into_iter (f kv))
        | Timestamped kv ts =>
            (λ b, Timestamped (kv.1, b) ts) <$> it_list (into_iter (f kv))
        | Watermark ts => [Watermark ts]
        | FlushBatch => [FlushBatch]
        | Terminate => [Terminate]
        | FlushAndRestart => [FlushAndRestart]
        end) ++ [FlushAndRestart])
    (mkFlatten None ts, p').
Proof.
  intros Hp. set (start := λ kv : K * V, (kv.1, into_iter (f kv))).
  destruct (flatten_runs start round (mkFlatten None None)) as [ts H].
  exists ts. eapply (refines_emits prev (flattening start)) in H;
    [|apply follows_refines; apply _|exact Hp].
  cbn in H. match goal with |- emits _ _ (?l ++ _) _ =>
    replace l with (round ≫= flatten_elem start); [exact H|] end.
  clear. induction round as [|e round IH]; csimpl; [done|].
  rewrite IH. f_equal. destruct e; try done; csimpl; by rewrite <-list_fmap_compose.
Qed.

Lemma KeyedFlatMap_round_witness :
  ∃ ts, emits (mkOperator _ (KeyedFlatMap_next (B := nat) (FakeOperator (nat * nat))
                (λ kv, seq 0 kv.2) (λ l, l)))
    (mkFlatten None None,
     [Item (7, 2); Watermark 5%Z; Timestamped (8, 1) 9%Z; FlushAndRestart])
    [Item (7, 0); Item (7, 1); Watermark 5%Z; Timestamped (8, 0) 9%Z; FlushAndRestart]
    (mkFlatten None ts, []).
Proof.
  refine (KeyedFlatMap_round (B := nat) (FakeOperator (nat * nat)) (λ kv, seq 0 kv.2)
    (λ l, l) _ [Item (7, 2); Watermark 5%Z; Timestamped (8, 1) 9%Z] _ _).
  apply FakeOperator_emits_all.
Defined.

(** The answers of a closure called on a list of values. *)
Fixpoint run_closure {K I C O} (call : C → K → I → O * C) (c : C) (k : K) (vs : list I)
    : list O :=
  match vs with
  | [] => []
  | v :: vs => (call c k v).1 :: run_closure call (call c k v).2 k vs
  end.

Lemma rich_map_values_of {K I C O} `{Countable K} (call : C → K → I → O * C)
    (c0 : C) (m : gmap K C) l k :
  values_of k (mealy_out (rich_map_step call c0) m l).1 =
  run_closure call (default c0 (m !! k)) k (values_of k l).
Proof.
  revert m; induction l as [|e l IH]; intros m; [done|].
  destruct e as [[k' v]|[k' v] ts|ts| | |]; cbn;
    match goal with |- context [mealy_out _ ?m' l] =>
      specialize (IH m'); destruct (mealy_out (rich_map_step call c0) m' l) as [out m2] end;
    cbn in IH |- *; try exact IH;
    (case_decide; subst; cbn;
     [rewrite lookup_insert_eq in IH|rewrite lookup_insert_ne in IH by done]);
    try (f_equal); exact IH.
Qed.

Lemma rich_map_variants {K I C O} `{Countable K} (call : C → K → I → O * C)
    (c0 : C) (m : gmap K C) l :
  variant <$> (mealy_out (rich_map_step call c0) m l).1 = variant <$> l.
Proof.
  revert m; induction l as [|e l IH]; intros m; [done|].
  destruct e as [[k' v]|[k' v] ts|ts| | |]; cbn;
    match goal with |- context [mealy_out _ ?m' l] =>
      specialize (IH m'); destruct (mealy_out (rich_map_step call c0) m' l) as [out m2] end;
    cbn in *; by rewrite IH.
Qed.

(** [RichMap] isolates the keys: whatever the interleaving of the keys in the
    input, the outputs for one key are those of the closure run on the items of
    that key alone, in order.  The closures live across [FlushAndRestart], which
    is one of the elements of the trace. *)
Theorem RichMap_isolates_keys {K I C O} `{Countable K} (prev : Operator (K * I))
    `{!OperatorLaws prev} (call : C → K → I → O * C) (c0 : C) p l p' :
  emits prev p l p' →
  ∃ out m, emits (RichMap prev call c0) (∅, p) out (m, p') ∧
    (variant <$> out) = (variant <$> l) ∧
    ∀ k, values_of k out = run_closure call c0 k (values_of k l).
Proof.
  intros Hp. eexists _, _. split.
  { apply (mealy_emits prev (rich_map_step call c0) (RichMap_next prev call c0)).
    exact Hp. }
  split; [apply rich_map_variants|].
  intros k. by rewrite rich_map_values_of, lookup_empty.
Qed.

Lemma RichMap_isolates_keys_witness :
  ∃ out m, emits (RichMap (FakeOperator (nat * nat)) (λ c _ v, (c + v, c + v)) 0)
      (∅, [Item (0, 1); Item (1, 10); FlushAndRestart; Item (0, 2)]) out (m, []) ∧
    (variant <$> out) = [Item tt; Item tt; FlushAndRestart; Item tt] ∧
    ∀ k, values_of k out = run_closure (λ c _ v, (c + v, c + v)) 0 k
      (values_of k [Item (0, 1); Item (1, 10); FlushAndRestart; Item (0, 2)]).
Proof.
  apply (RichMap_isolates_keys (FakeOperator (nat * nat)) (λ c _ v, (c + v, c + v)) 0
    [Item (0, 1); Item (1, 10); FlushAndRestart; Item (0, 2)]
    [Item (0, 1); Item (1, 10); FlushAndRestart; Item (0, 2)]).
  apply FakeOperator_emits_all.
Defined.

(** What [AddTimestamp] makes of a list of items. *)
Fixpoint stamped {A G W} (tgen : G → A → Timestamp * G)
    (wgen : W → A → Timestamp → option Timestamp * W) (g : G) (w : W) (xs : list A)
    : list (StreamElement A) :=
  match xs with
  | [] => []
  | x :: xs =>
      let ts := (tgen g x).1 in
      Timestamped x ts ::
        from_option (λ wm, [Watermark wm]) [] (wgen w x ts).1 ++
        stamped tgen wgen (tgen g x).2 (wgen w x ts).2 xs
  end.

Lemma add_timestamp_runs {A G W} (tgen : G → A → Timestamp * G)
    (wgen : W → A → Timestamp → option Timestamp * W) xs g w :
  ∃ g' w', runs (add_timestamp tgen wgen) (mkAddTimestamp g w None)
    ((Item <$> xs) ++ [FlushAndRestart]) (stamped tgen wgen g w xs ++ [FlushAndRestart])
    (mkAddTimestamp g' w' None).
Proof.
  revert g w; induction xs as [|x xs IH]; intros g w; csimpl.
  { exists g, w. eapply runs_return; [done|done|constructor]. }
  destruct (IH (tgen g x).2 (wgen w x (tgen g x).1).2) as (g' & w' & H).
  exists g', w'. eapply runs_return; [done|done|]. cbn.
  destruct (wgen w x (tgen g x).1).1 as [wm|]; cbn; [|done].
  by eapply runs_ready.
Qed.

(** [AddTimestamp] stamps every item with its generated timestamp and sends
    each generated watermark right after the item it was generated for, the last
    one before the [FlushAndRestart] that ends the round. *)
Theorem AddTimestamp_round {A G W} (prev : Operator A) `{!OperatorLaws prev}
    (tgen : G → A → Timestamp * G) (wgen : W → A → Timestamp → option Timestamp * W)
    g w xs p p' :
  emits prev p ((Item <$> xs) ++ [FlushAndRestart]) p' →
  ∃ g' w', emits (AddTimestamp prev tgen wgen) (mkAddTimestamp g w None, p)
    (stamped tgen wgen g w xs ++ [FlushAndRestart]) (mkAddTimestamp g' w' None, p').
Proof.
  intros Hp. destruct (add_timestamp_runs tgen wgen xs g w) as (g' & w' & H).
  exists g', w'.
  by eapply (refines_emits prev (add_timestamp tgen wgen));
    [apply follows_refines; apply _|..].
Qed.

Lemma AddTimestamp_round_witness :
  ∃ g' w', emits (AddTimestamp (FakeOperator Z) (λ (g : unit) n, (n, g))
      (λ (w : unit) n ts, (if Z.even n then Some ts else None, w)))
    (mkAddTimestamp tt tt None, (Item <$> [0; 1; 2]%Z) ++ [FlushAndRestart])
    [Timestamped 0%Z 0%Z; Watermark 0%Z; Timestamped 1%Z 1%Z; Timestamped 2%Z 2%Z;
     Watermark 2%Z; FlushAndRestart] (mkAddTimestamp g' w' None, []).
Proof.
  apply (AddTimestamp_round (FakeOperator Z) (λ (g : unit) n, (n, g))
    (λ (w : unit) n ts, (if Z.even n then Some ts else None, w)) tt tt [0; 1; 2]%Z).
  apply FakeOperator_emits_all.
Defined.

(** [Map::next] with a closure that may panic. *)
Definition map_closure_elem {A O} (f : A → outcome O) (e : StreamElement A) : outcome (StreamElement O) :=
  match e with
  | Item x => y ← f x; Done (Item y)
  | Timestamped x t => y ← f x; Done (Timestamped y t)
  | Watermark t => Done (Watermark t)
  | FlushBatch => Done FlushBatch
  | Terminate => Done Terminate
  | FlushAndRestart => Done FlushAndRestart
  end.
Definition Map_closure_next {A O} (prev : Operator A) (f : A → outcome O) (fuel : nat) (q : unit * op_state prev)
    : outcome (StreamElement O * (unit * op_state prev)) :=
  match fuel with
  | 0 => OutOfFuel
  | S fuel =>
      '(e, p) ← op_next prev fuel q.2;
      e ← map_closure_elem f e;
      Done (e, (tt, p))
  end.
Definition Map_closure {A O} (prev : Operator A) (f : A → outcome O) : Operator O :=
  mkOperator _ (Map_closure_next prev f).

Lemma Map_closure_emits {A O} (prev : Operator A) (f : A → outcome O) p l p' l' :
  emits prev p l p' → Forall2 (λ e e', map_closure_elem f e = Done e') l l' →
  emits (Map_closure prev f) (tt, p) l' (tt, p').
Proof.
  intros He. revert l'. induction He as [|p e p1 l p2 [fuel Hs] _ IH]; intros l' Hl.
  - inversion Hl. constructor.
  - inversion Hl as [|? e' ? l1 He' Hl']; subst. econstructor; [|by apply IH].
    exists (S fuel). cbn. rewrite Hs. cbn. by rewrite He'.
Qed.
