(* ===== verification/MapMemo.v ===== *)
(** * Memoised maps

    [MapMemo] ([src/src/operator/map_memo.rs]) maps the items of a stream with a function
    whose results are kept in a cache, by a key of the item.  The cache is the one of the
    [quick_cache] crate: a parameter, with what it documents about [get_or_insert_with]. *)
From S2P Require Import Prelude StreamElement Operator BasicOps.

(** A cache may forget entries at any time, but it gives out nothing that was not put into
    it under the same key. *)
Class Cache (K V : Type) := {
  cache : Type;
  cache_empty : cache;
  (** [get_or_insert_with k (|| v)]: the value returned and the cache afterwards *)
  get_or_insert_with : cache → K → V → V * cache;
  cached : cache → K → V → Prop;
  cached_empty k v : ¬ cached cache_empty k v;
  cache_answers c k v : (get_or_insert_with c k v).1 = v ∨ cached c k (get_or_insert_with c k v).1;
  cache_keeps c k v k' v' :
    cached (get_or_insert_with c k v).2 k' v' → cached c k' v' ∨ (k' = k ∧ v' = v)
}.
Global Arguments cache _ _ {_}.
Global Arguments cache_empty {_ _ _}.

Section map_memo.
Context {A K O : Type} `{!Cache K O} (prev : Operator A) (f : A → O) (fk : A → K).

(** [MapMemo::next].  The replicas of a host share the cache: [others] is what they do to
    it before a call. *)
Definition MapMemo_next (others : nat → cache K O → cache K O) (fuel : nat)
    (q : (nat * cache K O) * op_state prev)
    : outcome (StreamElement O * ((nat * cache K O) * op_state prev)) :=
  match fuel with
  | 0 => OutOfFuel
  | S fuel =>
      let '((n, c), p) := q in
      '(e, p) ← op_next prev fuel p;
      let apply v := let k := fk v in get_or_insert_with (others n c) k (f v) in
      match e with
      | Item v => let (o, c) := apply v in Done (Item o, ((S n, c), p))
      | Timestamped v ts => let (o, c) := apply v in Done (Timestamped o ts, ((S n, c), p))
      | Watermark w => Done (Watermark w, ((n, c), p))
      | Terminate => Done (Terminate, ((n, c), p))
      | FlushAndRestart => Done (FlushAndRestart, ((n, c), p))
      | FlushBatch => Done (FlushBatch, ((n, c), p))
      end
  end.
Definition MapMemo (others : nat → cache K O → cache K O) : Operator O := mkOperator _ (MapMemo_next others).

Definition memo_step (others : nat → cache K O → cache K O) (s : nat * cache K O) (e : StreamElement A)
    : StreamElement O * (nat * cache K O) :=
  let apply v := get_or_insert_with (others s.1 s.2) (fk v) (f v) in
  match e with
  | Item v => (Item (apply v).1, (S s.1, (apply v).2))
  | Timestamped v ts => (Timestamped (apply v).1 ts, (S s.1, (apply v).2))
  | Watermark w => (Watermark w, s)
  | FlushBatch => (FlushBatch, s)
  | Terminate => (Terminate, s)
  | FlushAndRestart => (FlushAndRestart, s)
  end.
Global Instance MapMemo_follows others : Follows prev (mealy (memo_step others)) (MapMemo_next others).
Proof.
  constructor; [by intros []|]. intros n [i c] p. unfold drive. cbn.
  destruct (op_next prev n p) as [[[v|v ts| | | |] p1]| | |]; cbn; try done; by destruct (get_or_insert_with _ _ _).
Qed.

(** Every entry of the cache is a result of the function. *)
Definition sound (c : cache K O) : Prop := ∀ k v, cached c k v → ∃ x, fk x = k ∧ f x = v.

Context (Hf : ∀ x y, fk x = fk y → f x = f y).
Lemma memo_out others s l :
  (∀ n c, sound c → sound (others n c)) → sound s.2 →
  (mealy_out (memo_step others) s l).1 = se_map f <$> l.
Proof.
  intros Hothers. revert s. induction l as [|e l IH]; intros [n c] Hs; [done|]. simpl in Hs.
  pose proof (Hothers n c Hs) as Ho. cbn [mealy_out].
  assert (∀ v, (get_or_insert_with (others n c) (fk v) (f v)).1 = f v) as Hv.
  { intros v. destruct (cache_answers (others n c) (fk v) (f v)) as [E|Hc]; [done|].
    destruct (Ho _ _ Hc) as (x & Ex & <-). by apply Hf. }
  assert (sound (memo_step others (n, c) e).2.2) as Hs'.
  { destruct e as [v|v ts| | | |]; simpl; try done; intros k w [Hc|[-> ->]]%cache_keeps; eauto. }
  assert ((memo_step others (n, c) e).1 = se_map f e) as He by (destruct e; simpl; by rewrite ?Hv).
  destruct (memo_step others (n, c) e) as [y s1]. specialize (IH s1 Hs').
  destruct (mealy_out (memo_step others) s1 l) as [out s2]. simpl in *. by rewrite He, IH.
Qed.

(** If the function depends on the key only, [MapMemo] is [Map]: whatever the cache
    forgets and whatever the other replicas of the host put into it, every element comes
    out as the function makes it. *)
Theorem MapMemo_map `{!OperatorLaws prev} others p l p' :
  (∀ n c, sound c → sound (others n c)) → emits prev p l p' →
  ∃ s, emits (MapMemo others) ((0, cache_empty), p) (se_map f <$> l) (s, p').
Proof.
  intros Hothers He. eexists.
  rewrite <-(memo_out others (0, cache_empty) l Hothers) by (intros k v Hc; by apply cached_empty in Hc).
  exact (mealy_emits prev (memo_step others) (MapMemo_next others) (0, cache_empty) p l p' He).
Qed.
End map_memo.

(** ** An instance: a cache of one entry *)
Module Example.
#[local] Instance one_entry : Cache N N.
Proof.
  refine {| cache := option (N * N); cache_empty := None;
    get_or_insert_with c k v :=
      match c with Some (k', v') => if decide (k' = k) then (v', c) else (v, Some (k, v)) | None => (v, Some (k, v)) end;
    cached c k v := c = Some (k, v) |}.
  - done.
  - intros [[k' v']|] k v; [|by left]. case_decide; subst; simpl; auto.
  - intros [[k1 v1]|] k v k' v'; simpl; [case_decide|]; simpl; intros; simplify_eq; auto.
Defined.
Lemma MapMemo_map_witness :
  let l := [Item 1; Timestamped 11 5; FlushBatch; Item 2; Terminate]%N in
  ∃ s, emits (MapMemo (FakeOperator N) (λ x, (x mod 10) * 2)%N (λ x, x mod 10)%N (λ _ c, c)) ((0, None), l)
    [Item 2; Timestamped 2 5; FlushBatch; Item 4; Terminate]%N (s, []).
Proof.
  intros l.
  apply (MapMemo_map (FakeOperator N) (λ x, (x mod 10) * 2)%N (λ x, x mod 10)%N ltac:(intros x y E; cbn in *; by rewrite E) (λ _ c, c) l l []).
  - done.
  - apply FakeOperator_emits_all.
Defined.
End Example.
