(* ===== verification/Folds.v ===== *)
(** * Aggregations that hold their output until a round ends

    [Fold] and [KeyedFold] ([src/src/operator/{fold,keyed_fold}.rs]).  A user
    closure [Fn(&mut O, In)] is a function [O → In → O]. *)
From S2P Require Import Prelude StreamElement Operator.

(** ** [Fold] *)
Record Fold_state (O : Type) := mkFold {
  accumulator : option O;
  fo_timestamp : option Timestamp;
  fo_max_watermark : option Timestamp;
  fo_received_end : bool;
  fo_received_end_iter : bool
}.
Global Arguments mkFold {_} _ _ _ _ _.
Global Arguments accumulator {_} _.
Global Arguments fo_timestamp {_} _.
Global Arguments fo_max_watermark {_} _.
Global Arguments fo_received_end {_} _.
Global Arguments fo_received_end_iter {_} _.

(** [Fold::new]. *)
Definition Fold_new (O : Type) : Fold_state O := mkFold None None None false false.

Section fold.
Context {A O : Type} (init : O) (fold : O → A → O).

(** The arms of the [match] inside the [while !self.received_end] loop. *)
Definition Fold_process (self : Fold_state O) (e : StreamElement A) : Fold_state O :=
  match e with
  | Terminate =>
      mkFold (accumulator self) (fo_timestamp self) (fo_max_watermark self)
        true (fo_received_end_iter self)
  | FlushAndRestart =>
      mkFold (accumulator self) (fo_timestamp self) (fo_max_watermark self) true true
  | Watermark ts =>
      mkFold (accumulator self) (fo_timestamp self) (max_ts (fo_max_watermark self) ts)
        (fo_received_end self) (fo_received_end_iter self)
  | Item item =>
      mkFold (Some (fold (default init (accumulator self)) item)) (fo_timestamp self)
        (fo_max_watermark self) (fo_received_end self) (fo_received_end_iter self)
  | Timestamped item ts =>
      mkFold (Some (fold (default init (accumulator self)) item))
        (max_ts (fo_timestamp self) ts)
        (fo_max_watermark self) (fo_received_end self) (fo_received_end_iter self)
  | FlushBatch => self
  end.

(** The part of [next] after the loop. *)
Definition Fold_finish (self : Fold_state O) : StreamElement O * Fold_state O :=
  match accumulator self with
  | Some acc =>
      match fo_timestamp self with
      | Some ts =>
          (Timestamped acc ts, mkFold None None (fo_max_watermark self)
            (fo_received_end self) (fo_received_end_iter self))
      | None =>
          (Item acc, mkFold None None (fo_max_watermark self)
            (fo_received_end self) (fo_received_end_iter self))
      end
  | None =>
      match fo_max_watermark self with
      | Some ts =>
          (Watermark ts, mkFold None (fo_timestamp self) None
            (fo_received_end self) (fo_received_end_iter self))
      | None =>
          if fo_received_end_iter self then
            (FlushAndRestart, mkFold None (fo_timestamp self) None false false)
          else (Terminate, self)
      end
  end.

(** [Fold::next]. *)
Fixpoint Fold_next (prev : Operator A) (fuel : nat) (q : Fold_state O * op_state prev)
    : outcome (StreamElement O * (Fold_state O * op_state prev)) :=
  match fuel with
  | 0 => OutOfFuel
  | S fuel =>
      let '(self, p) := q in
      if negb (fo_received_end self) then
        '(e, p) ← op_next prev fuel p;
        Fold_next prev fuel (Fold_process self e, p)
      else
        let '(e, self) := Fold_finish self in Done (e, (self, p))
  end.

Definition folding : transducer A O :=
  mkTransducer (Fold_state O)
    (λ s, if fo_received_end s then Some (Fold_finish s) else None)
    (λ s e, Done (Fold_process s e, None)).

Global Instance Fold_follows (prev : Operator A) :
  Follows prev folding (Fold_next prev).
Proof.
  constructor; [by intros []|]. intros f s p. unfold drive. cbn.
  destruct (fo_received_end s); cbn; [by destruct (Fold_finish s)|].
  by destruct (op_next prev f p) as [[e p1]| | |].
Qed.

(** The state after a prefix of a round: what [foldl] gives. *)
Definition fold_acc (round : list (StreamElement A)) : option O :=
  match values round with [] => None | xs => Some (foldl fold init xs) end.

Definition Fold_at (round : list (StreamElement A)) : Fold_state O :=
  mkFold (fold_acc round) (max_list (omap item_ts round))
    (max_list (omap watermark_ts round)) false false.

Lemma Fold_process_at round e :
  is_data e = true → Fold_process (Fold_at round) e = Fold_at (round ++ [e]).
Proof.
  intros He. unfold Fold_at, fold_acc. rewrite values_app, !omap_app.
  destruct e; try discriminate He; csimpl;
    rewrite ?app_nil_r, ?max_list_snoc; try done;
    destruct (values round) as [|v vs] eqn:E; csimpl; try done;
    by rewrite foldl_app.
Qed.

Lemma Fold_absorbs round l :
  Forall (λ e, is_data e = true) l →
  absorbs folding (Fold_at round) l (Fold_at (round ++ l)).
Proof.
  intros Hl; revert round. induction Hl as [|e l He Hl IH]; intros round.
  { rewrite app_nil_r. constructor. }
  econstructor; [done|by cbn; rewrite Fold_process_at|].
  replace (round ++ e :: l) with ((round ++ [e]) ++ l) by by rewrite <-app_assoc.
  apply IH.
Qed.

(** What a round of input becomes. *)
Definition fold_round (round : list (StreamElement A)) : list (StreamElement O) :=
  from_option (λ acc, [match max_list (omap item_ts round) with
                       | Some ts => Timestamped acc ts
                       | None => Item acc end]) [] (fold_acc round) ++
  from_option (λ ts, [Watermark ts]) [] (max_list (omap watermark_ts round)) ++
  [FlushAndRestart].

Lemma item_ts_values (round : list (StreamElement A)) :
  values round = [] → omap item_ts round = [].
Proof. unfold values. induction round as [|[] round IH]; csimpl; naive_solver. Qed.

Lemma Fold_runs round :
  Forall (λ e, is_data e = true) round →
  runs folding (Fold_new O) (round ++ [FlushAndRestart]) (fold_round round) (Fold_new O).
Proof.
  intros Hr. assert (∃ e out, fold_round round = e :: out) as (e & out & Hout).
  { unfold fold_round. destruct (fold_acc round), (max_list (omap watermark_ts round)); eauto. }
  rewrite Hout. eapply absorbs_runs; [by apply (Fold_absorbs [])|]. rewrite <-Hout.
  eapply runs_skip_ne; [done|done|by rewrite Hout|]. cbn. unfold fold_round, fold_acc.
  destruct (values round) as [|v vs] eqn:Ev.
  - rewrite (item_ts_values round Ev). csimpl.
    destruct (max_list (omap watermark_ts round)) as [w|]; csimpl;
      repeat (eapply runs_ready; [done|]); constructor.
  - csimpl. destruct (max_list (omap item_ts round)) as [ts|],
      (max_list (omap watermark_ts round)) as [w|]; csimpl;
      repeat (eapply runs_ready; [done|]); constructor.
Qed.
End fold.

Definition Fold {A O} (prev : Operator A) (init : O) (fold : O → A → O) : Operator O :=
  mkOperator _ (Fold_next init fold prev).
Global Instance Fold_laws {A O} prev init (fold : O → A → O) `{!OperatorLaws prev} :
  OperatorLaws (Fold prev init fold).
Proof. apply (follows_laws prev (folding init fold) _). Qed.

(** [Fold] answers a round with the fold of its items (nothing when there are
    none), stamped with the greatest of their timestamps, then the greatest
    watermark, then [FlushAndRestart], and is back in its initial state: no
    accumulator, timestamp or watermark leaks into the next round. *)
Theorem Fold_round {A O} (prev : Operator A) `{!OperatorLaws prev} (init : O)
    (fold : O → A → O) p round p' :
  Forall (λ e, is_data e = true) round →
  emits prev p (round ++ [FlushAndRestart]) p' →
  emits (Fold prev init fold) (Fold_new O, p) (fold_round init fold round)
    (Fold_new O, p').
Proof.
  intros Hr Hp. eapply (refines_emits prev (folding init fold));
    [apply follows_refines; apply _|by apply Fold_runs|done].
Qed.

Lemma Fold_round_witness :
  emits (Fold (FakeOperator Z) 0%Z Z.add)
    (Fold_new Z, [Timestamped 1%Z 7%Z; Watermark 3%Z; FlushBatch; Timestamped 4%Z 6%Z;
                  FlushAndRestart])
    [Timestamped 5%Z 7%Z; Watermark 3%Z; FlushAndRestart] (Fold_new Z, []).
Proof.
  refine (Fold_round (FakeOperator Z) 0%Z Z.add _
    [Timestamped 1%Z 7%Z; Watermark 3%Z; FlushBatch; Timestamped 4%Z 6%Z] _ _ _).
  - repeat constructor.
  - apply FakeOperator_emits_all.
Defined.

(** ** [KeyedFold] *)
Record KeyedFold_state (K O : Type) `{Countable K} := mkKeyedFold {
  accumulators : gmap K O;
  kf_timestamps : gmap K Timestamp;
  kf_ready : list (StreamElement (K * O));
  kf_max_watermark : option Timestamp;
  kf_received_end : bool;
  kf_received_end_iter : bool
}.
Global Arguments mkKeyedFold {_ _ _ _} _ _ _ _ _ _.
Global Arguments accumulators {_ _ _ _} _.
Global Arguments kf_timestamps {_ _ _ _} _.
Global Arguments kf_ready {_ _ _ _} _.
Global Arguments kf_max_watermark {_ _ _ _} _.
Global Arguments kf_received_end {_ _ _ _} _.
Global Arguments kf_received_end_iter {_ _ _ _} _.

(** [KeyedFold::new]. *)
Definition KeyedFold_new (K O : Type) `{Countable K} : KeyedFold_state K O :=
  mkKeyedFold ∅ ∅ [] None false false.

Section keyed_fold.
Context {K A O : Type} `{Countable K} `{!HashOrder} (init : O) (fold : O → A → O).
Implicit Types self : KeyedFold_state K O.
Implicit Types round : list (StreamElement (K * A)).

(** [KeyedFold::process_item] on the map of accumulators. *)
Definition process_item (m : gmap K O) (key : K) (v : A) : gmap K O :=
  match m !! key with
  | None => <[key := fold init v]> m
  | Some acc => <[key := fold acc v]> m
  end.

(** The arms of the [match] inside the [while !self.received_end] loop. *)
Definition KeyedFold_process self (e : StreamElement (K * A)) : KeyedFold_state K O :=
  match e with
  | Terminate =>
      mkKeyedFold (accumulators self) (kf_timestamps self) (kf_ready self)
        (kf_max_watermark self) true (kf_received_end_iter self)
  | FlushAndRestart =>
      mkKeyedFold (accumulators self) (kf_timestamps self) (kf_ready self)
        (kf_max_watermark self) true true
  | Watermark ts =>
      mkKeyedFold (accumulators self) (kf_timestamps self) (kf_ready self)
        (max_ts (kf_max_watermark self) ts) (kf_received_end self)
        (kf_received_end_iter self)
  | Item (k, v) =>
      mkKeyedFold (process_item (accumulators self) k v) (kf_timestamps self)
        (kf_ready self) (kf_max_watermark self) (kf_received_end self)
        (kf_received_end_iter self)
  | Timestamped (k, v) ts =>
      mkKeyedFold (process_item (accumulators self) k v)
        (<[k := match kf_timestamps self !! k with
                | Some entry => Z.max entry ts | None => ts end]> (kf_timestamps self))
        (kf_ready self) (kf_max_watermark self) (kf_received_end self)
        (kf_received_end_iter self)
  | FlushBatch => self
  end.

(** The closure mapped over [accumulators.drain()]: it takes the timestamp of
    the key out of [timestamps]. *)
Fixpoint drain_entries (l : list (K * O)) (ts : gmap K Timestamp)
    : list (StreamElement (K * O)) * gmap K Timestamp :=
  match l with
  | [] => ([], ts)
  | (key, v) :: l =>
      let e := match ts !! key with
               | Some t => Timestamped (key, v) t
               | None => Item (key, v) end in
      let '(es, ts) := drain_entries l (delete key ts) in
      (e :: es, ts)
  end.

(** "move all the accumulators into a faster vec". *)
Definition KeyedFold_drain self : KeyedFold_state K O :=
  if decide (accumulators self = ∅) then self
  else
    let '(es, ts) := drain_entries (hash_iter (accumulators self)) (kf_timestamps self) in
    mkKeyedFold ∅ ts (kf_ready self ++ es) (kf_max_watermark self)
      (kf_received_end self) (kf_received_end_iter self).

(** The part of [next] after the loop. *)
Definition KeyedFold_finish self : StreamElement (K * O) * KeyedFold_state K O :=
  let self := KeyedFold_drain self in
  match last (kf_ready self) with
  | Some elem =>
      (elem, mkKeyedFold (accumulators self) (kf_timestamps self)
        (removelast (kf_ready self)) (kf_max_watermark self) (kf_received_end self)
        (kf_received_end_iter self))
  | None =>
      match kf_max_watermark self with
      | Some ts =>
          (Watermark ts, mkKeyedFold (accumulators self) (kf_timestamps self)
            (kf_ready self) None (kf_received_end self) (kf_received_end_iter self))
      | None =>
          if kf_received_end_iter self then
            (FlushAndRestart, mkKeyedFold (accumulators self) (kf_timestamps self)
              (kf_ready self) None false false)
          else (Terminate, self)
      end
  end.

(** [KeyedFold::next]. *)
Fixpoint KeyedFold_next (prev : Operator (K * A)) (fuel : nat)
    (q : KeyedFold_state K O * op_state prev)
    : outcome (StreamElement (K * O) * (KeyedFold_state K O * op_state prev)) :=
  match fuel with
  | 0 => OutOfFuel
  | S fuel =>
      let '(self, p) := q in
      if negb (kf_received_end self) then
        '(e, p) ← op_next prev fuel p;
        KeyedFold_next prev fuel (KeyedFold_process self e, p)
      else
        let '(e, self) := KeyedFold_finish self in Done (e, (self, p))
  end.

Definition keyed_folding : transducer (K * A) (K * O) :=
  mkTransducer (KeyedFold_state K O)
    (λ s, if kf_received_end s then Some (KeyedFold_finish s) else None)
    (λ s e, Done (KeyedFold_process s e, None)).

Global Instance KeyedFold_follows (prev : Operator (K * A)) :
  Follows prev keyed_folding (KeyedFold_next prev).
Proof.
  constructor; [by intros []|]. intros f s p. unfold drive. cbn.
  destruct (kf_received_end s); cbn; [by destruct (KeyedFold_finish s)|].
  by destruct (op_next prev f p) as [[e p1]| | |].
Qed.

(** *** Specification *)

(** The accumulator and the timestamp of a key after a prefix of a round. *)
Definition keyed_acc round (k : K) : option O :=
  match values_of k round with [] => None | xs => Some (foldl fold init xs) end.
Definition keyed_ts round (k : K) : option Timestamp := max_list (ts_of k round).

(** The element a key contributes to the output of a round. *)
Definition keyed_elem round (k : K) : option (StreamElement (K * O)) :=
  (λ acc, match keyed_ts round k with
          | Some ts => Timestamped (k, acc) ts
          | None => Item (k, acc) end) <$> keyed_acc round k.

(** What the state holds after a prefix of a round. *)
Record keyed_at round self : Prop := {
  ka_acc k : accumulators self !! k = keyed_acc round k;
  ka_ts k : kf_timestamps self !! k = keyed_ts round k;
  ka_ready : kf_ready self = [];
  ka_watermark : kf_max_watermark self = max_list (omap watermark_ts round);
  ka_end : kf_received_end self = false;
  ka_end_iter : kf_received_end_iter self = false
}.
Lemma process_item_lookup m k v k' :
  process_item m k v !! k' =
  if decide (k = k') then Some (fold (default init (m !! k)) v) else m !! k'.
Proof.
  unfold process_item. destruct (m !! k) eqn:E; rewrite lookup_insert; by case_decide.
Qed.

(** An item of key [k] extends the accumulator of [k] and of no other key. *)
Lemma keyed_acc_snoc round e k' :
  keyed_acc (round ++ [e]) k' =
  match value e with
  | Some (k, v) =>
      if decide (k = k') then Some (fold (default init (keyed_acc round k')) v)
      else keyed_acc round k'
  | None => keyed_acc round k'
  end.
Proof.
  unfold keyed_acc. rewrite values_of_snoc. destruct (value e) as [[k v]|].
  2: by rewrite app_nil_r.
  case_decide; [|by rewrite app_nil_r].
  destruct (values_of k' round) as [|w ws] eqn:E; csimpl; [done|].
  by rewrite foldl_app.
Qed.

Lemma keyed_ts_snoc round e k' :
  keyed_ts (round ++ [e]) k' =
  match e with
  | Timestamped (k, _) ts =>
      if decide (k = k') then max_ts (keyed_ts round k') ts else keyed_ts round k'
  | _ => keyed_ts round k'
  end.
Proof.
  unfold keyed_ts, ts_of. rewrite omap_app. destruct e as [|[k v] ts| | | |];
    csimpl; rewrite ?app_nil_r; try done.
  case_decide; csimpl; [by rewrite max_list_snoc|by rewrite app_nil_r].
Qed.

Lemma keyed_process_at round self e :
  is_data e = true → keyed_at round self →
  keyed_at (round ++ [e]) (KeyedFold_process self e).
Proof.
  intros He [Ha Ht Hr Hw H1 H2].
  split; try (intros k'); rewrite ?keyed_acc_snoc, ?keyed_ts_snoc, ?omap_app;
    destruct e as [[k v]|[k v] ts|ts| | |]; try discriminate He; csimpl;
    rewrite ?app_nil_r, ?max_list_snoc, <-?Hw, ?process_item_lookup, <-?Ht, <-?Ha; try done.
  - by case_decide; subst.
  - by case_decide; subst.
  - rewrite lookup_insert. case_decide; subst; [|done].
    rewrite max_ts_spec. by destruct (kf_timestamps self !! k').
Qed.

Lemma keyed_absorbs l round self :
  Forall (λ e, is_data e = true) l → keyed_at round self →
  ∃ self', absorbs keyed_folding self l self' ∧ keyed_at (round ++ l) self'.
Proof.
  intros Hl; revert round self. induction Hl as [|e l He Hl IH]; intros round self Hat.
  { rewrite app_nil_r. exists self. split; [constructor|done]. }
  destruct (IH (round ++ [e]) (KeyedFold_process self e)) as (self' & H1 & H2).
  { by apply keyed_process_at. }
  exists self'. rewrite <-app_assoc in H2. split; [|done].
  econstructor; [cbn; by rewrite (ka_end _ _ Hat)|done|done].
Qed.

(** Draining entries with distinct keys reads the timestamps of the start. *)
Lemma drain_entries_spec l ts :
  NoDup (l.*1) →
  (drain_entries l ts).1 =
    (λ kv, match ts !! kv.1 with
           | Some t => Timestamped kv t | None => Item kv end) <$> l ∧
  ∀ k, (drain_entries l ts).2 !! k = if decide (k ∈ l.*1) then None else ts !! k.
Proof.
  revert ts; induction l as [|[k v] l IH]; intros ts Hnd; [done|].
  rewrite !fmap_cons in *. apply NoDup_cons in Hnd as [Hk Hnd].
  destruct (IH (delete k ts) Hnd) as [IH1 IH2]. cbn [drain_entries].
  destruct (drain_entries l (delete k ts)) as [es ts']; cbn [fst snd] in *. split.
  - f_equal. rewrite IH1. apply list_fmap_ext. intros i [k' v'] Hi. csimpl.
    rewrite lookup_delete_ne; [done|]. intros ->. apply Hk.
    apply list_elem_of_fmap. exists (k', v'). split; [done|].
    by eapply list_elem_of_lookup_2.
  - intros k'. rewrite IH2, lookup_delete.
    repeat case_decide; set_solver.
Qed.

(** The elements a round leaves in [ready]. *)
Lemma drain_entries_perm round (m : gmap K O) (ts : gmap K Timestamp) :
  (∀ k, m !! k = keyed_acc round k) → (∀ k, ts !! k = keyed_ts round k) →
  (drain_entries (hash_iter m) ts).1 ≡ₚ omap (keyed_elem round) (remove_dups (keys round))
  ∧ (drain_entries (hash_iter m) ts).2 = ∅.
Proof.
  intros Hm Hts. pose proof (hash_iter_perm m) as Hp.
  assert (NoDup ((hash_iter m).*1)) as Hnd.
  { rewrite Hp. apply NoDup_fst_map_to_list. }
  destruct (drain_entries_spec _ ts Hnd) as [-> H2]. split.
  - assert (((hash_iter m).*1) ≡ₚ remove_dups (keys round)) as <-.
    { apply NoDup_Permutation; [done|apply NoDup_remove_dups|]. intros k.
      rewrite elem_of_remove_dups, elem_of_keys, Hp, list_elem_of_fmap. split.
      - intros ([k' v] & -> & Hin%elem_of_map_to_list). csimpl.
        rewrite Hm in Hin. unfold keyed_acc in Hin. by destruct (values_of k' round).
      - intros Hne. destruct (keyed_acc round k) as [a|] eqn:Ha.
        + exists (k, a). split; [done|]. apply elem_of_map_to_list. by rewrite Hm.
        + unfold keyed_acc in Ha. by destruct (values_of k round). }
    assert (Forall (λ kv, m !! kv.1 = Some kv.2) (hash_iter m)) as Hall.
    { rewrite Hp. apply Forall_forall. intros [k v] Hin.
      by apply elem_of_map_to_list in Hin. }
    clear Hp H2. induction Hall as [|[k v] l Hkv _ IH]; [done|]. csimpl in *.
    unfold keyed_elem at 1. rewrite <-Hm, <-Hts, Hkv. csimpl.
    apply NoDup_cons in Hnd as [_ Hnd]. constructor. apply IH; done.
  - apply map_eq. intros k. rewrite H2, lookup_empty. case_decide as Hk; [done|].
    rewrite Hts. unfold keyed_ts. apply max_list_None.
    assert (m !! k = None) as HN.
    { apply eq_None_not_Some. intros [v Hv]. apply Hk. rewrite Hp.
      apply list_elem_of_fmap. exists (k, v). split; [done|]. by apply elem_of_map_to_list. }
    rewrite Hm in HN. unfold keyed_acc in HN.
    destruct (values_of k round) eqn:E; [|done]. clear -E. unfold values_of, values, ts_of in *.
    induction round as [|[[k' v]|[k' v] t| | | |] round IH]; csimpl in *; try done; auto;
      case_decide; naive_solver.
Qed.
(** With the accumulators drained, [ready] is emitted from its end, then the
    watermark, then the end of the round. *)
Lemma keyed_pop_runs es w :
  runs keyed_folding (mkKeyedFold ∅ ∅ es w true true) []
    (reverse es ++ from_option (λ ts, [Watermark ts]) [] w ++ [FlushAndRestart])
    (KeyedFold_new K O).
Proof.
  induction es as [|e es IH] using rev_ind.
  - destruct w; csimpl; repeat (eapply runs_ready; [done|]); constructor.
  - rewrite reverse_snoc. eapply runs_ready; [|exact IH].
    cbn. unfold KeyedFold_finish, KeyedFold_drain.
    rewrite decide_True by done. cbn [kf_ready].
    by rewrite last_snoc, removelast_last.
Qed.

Lemma keyed_round_runs round self :
  keyed_at round self →
  ∃ outs, runs keyed_folding self [FlushAndRestart]
      (outs ++ from_option (λ ts, [Watermark ts]) [] (max_list (omap watermark_ts round))
       ++ [FlushAndRestart]) (KeyedFold_new K O) ∧
    outs ≡ₚ omap (keyed_elem round) (remove_dups (keys round)).
Proof.
  intros Hat. destruct (drain_entries_perm round _ _ (ka_acc _ _ Hat) (ka_ts _ _ Hat))
    as [Hperm Hts].
  set (d := drain_entries (hash_iter (accumulators self)) (kf_timestamps self)) in *.
  exists (reverse d.1). split; [|by rewrite reverse_Permutation].
  eapply runs_skip_ne; [cbn; by rewrite (ka_end _ _ Hat)|done| |].
  { by destruct (reverse d.1), (max_list (omap watermark_ts round)). }
  pose proof (keyed_pop_runs d.1 (kf_max_watermark self)) as Hpop.
  rewrite <-(ka_watermark _ _ Hat).
  destruct (decide (accumulators self = ∅)) as [E|E].
  - assert (d.1 = [] ∧ kf_timestamps self = ∅) as [Hd Ht0].
    { subst d. rewrite E in *. assert (hash_iter (∅ : gmap K O) = []) as Hi.
      { apply Permutation_nil. by rewrite hash_iter_perm, map_to_list_empty. }
      by rewrite Hi in Hts |- *. }
    destruct Hat as [_ _ Hr _ _ _]. destruct self; cbn in *; subst. rewrite Hd in *.
    exact Hpop.
  - revert Hpop. generalize (reverse d.1 ++
      from_option (λ ts, [Watermark ts]) [] (kf_max_watermark self) ++ [FlushAndRestart]).
    intros o Hpop. inversion Hpop as [|? e s1 ? out ? Hready Hrest| |]; subst.
    eapply runs_ready; [|exact Hrest]. cbn in Hready |- *.
    rewrite <-Hready. f_equal. unfold KeyedFold_finish at 2. unfold KeyedFold_drain at 2.
    rewrite decide_True by done. unfold KeyedFold_finish, KeyedFold_drain. cbn.
    rewrite decide_False by done. fold d. destruct d as [es ts]; cbn in *.
    by rewrite (ka_ready _ _ Hat), Hts.
Qed.
End keyed_fold.

Definition KeyedFold {K A O} `{Countable K} `{!HashOrder} (prev : Operator (K * A))
    (init : O) (fold : O → A → O) : Operator (K * O) :=
  mkOperator _ (KeyedFold_next init fold prev).

Global Instance KeyedFold_laws {K A O} `{Countable K} `{!HashOrder} prev init
    (fold : O → A → O) `{!OperatorLaws prev} : OperatorLaws (KeyedFold (K:=K) prev init fold).
Proof. apply (follows_laws prev (keyed_folding init fold) _). Qed.

Lemma KeyedFold_emits {K A O} `{Countable K} `{!HashOrder} (prev : Operator (K * A))
    `{!OperatorLaws prev} (init : O) (fold : O → A → O) p round p' :
  Forall (λ e, is_data e = true) round →
  emits prev p (round ++ [FlushAndRestart]) p' →
  ∃ outs,
    emits (KeyedFold prev init fold) (KeyedFold_new K O, p)
      (outs ++ from_option (λ ts, [Watermark ts]) [] (max_list (omap watermark_ts round))
       ++ [FlushAndRestart]) (KeyedFold_new K O, p') ∧
    outs ≡ₚ omap (keyed_elem init fold round) (remove_dups (keys round)).
Proof.
  intros Hr Hp. destruct (keyed_absorbs init fold round [] (KeyedFold_new K O))
    as (self & Ha & Hat); [done|by split|].
  destruct (keyed_round_runs init fold round self Hat) as (outs & Hruns & Hperm).
  exists outs. split; [|done].
  eapply (refines_emits prev (keyed_folding init fold));
    [apply follows_refines; apply _| |exact Hp].
  destruct outs as [|e outs]; cbn in *.
  - destruct (max_list (omap watermark_ts round)); cbn in *; by eapply absorbs_runs.
  - by eapply absorbs_runs.
Qed.

(** Whatever the order in which the hash map is drained, [KeyedFold] answers a
    round with exactly one element per distinct key of the round, the fold of the
    items of that key alone stamped with the greatest of its own timestamps; then
    the greatest watermark and [FlushAndRestart]; and it is back in its initial
    state. *)
Theorem KeyedFold_round {K A O} `{Countable K} `{!HashOrder} (prev : Operator (K * A))
    `{!OperatorLaws prev} (init : O) (fold : O → A → O) p round p' :
  Forall (λ e, is_data e = true) round →
  emits prev p (round ++ [FlushAndRestart]) p' →
  ∃ outs,
    emits (KeyedFold prev init fold) (KeyedFold_new K O, p)
      (outs ++ from_option (λ ts, [Watermark ts]) [] (max_list (omap watermark_ts round))
       ++ [FlushAndRestart]) (KeyedFold_new K O, p') ∧
    outs ≡ₚ omap (keyed_elem init fold round) (remove_dups (keys round)).
Proof. apply KeyedFold_emits; apply _. Qed.

Lemma KeyedFold_round_witness :
  let round := [Timestamped (0, 5) 3%Z; Item (1, 7); Timestamped (0, 6) 2%Z; Watermark 9%Z] in
  ∃ outs,
    emits (@KeyedFold nat nat nat _ _ key_order (FakeOperator (nat * nat)) 0 Nat.add)
      (KeyedFold_new nat nat, round ++ [FlushAndRestart])
      (outs ++ [Watermark 9%Z] ++ [FlushAndRestart]) (KeyedFold_new nat nat, []) ∧
    outs ≡ₚ [Item (1, 7); Timestamped (0, 11) 3%Z].
Proof.
  intros round.
  refine (@KeyedFold_round nat nat nat _ _ key_order (FakeOperator (nat * nat)) _ 0
    Nat.add _ round _ _ _).
  - repeat constructor.
  - apply FakeOperator_emits_all.
Defined.
