(* ===== verification/Frontier.v ===== *)
(** * The watermark frontier

    [src/src/operator/start/watermark_frontier.rs]: combines the watermarks of
    all the previous replicas of a block.  The [IndexMap] is an association list
    in insertion order. *)
From S2P Require Import Prelude StreamElement.

Record WatermarkFrontier := mkFrontier {
  wf_map : list (Coord * option Timestamp);
  front : option Timestamp
}.

(** [opt_join]. *)
Definition opt_join {T} (a b : option T) (f : T → T → T) : option T :=
  match a, b with
  | Some a, Some b => Some (f a b)
  | a, None => a
  | None, a => a
  end.

(** [IndexMap]: lookup, and overwriting the value of a key that is present or
    adding it at the end. *)
Fixpoint im_get {V} (k : Coord) (m : list (Coord * V)) : option V :=
  match m with
  | [] => None
  | (k', v) :: m => if decide (k' = k) then Some v else im_get k m
  end.
Fixpoint im_insert {V} (k : Coord) (v : V) (m : list (Coord * V)) : list (Coord * V) :=
  match m with
  | [] => [(k, v)]
  | (k', v') :: m =>
      if decide (k' = k) then (k, v) :: m else (k', v') :: im_insert k v m
  end.

(** [WatermarkFrontier::new]. *)
Definition WatermarkFrontier_new (prev_replicas : list Coord) : WatermarkFrontier :=
  mkFrontier (foldl (λ m c, im_insert c None m) [] prev_replicas) None.

(** [WatermarkFrontier::compute_frontier]. *)
Definition compute_frontier (self : WatermarkFrontier) : option Timestamp :=
  let '(complete, mn) :=
    foldl (λ '(all, mn) x, (all && bool_decide (is_Some x), opt_join mn x Z.min))
      (true, None) (snd <$> wf_map self) in
  if complete : bool then mn else None.

(** [WatermarkFrontier::update]: [self.map[&coord]] panics on an unknown replica. *)
Definition update (self : WatermarkFrontier) (coord : Coord) (ts : Timestamp)
    : outcome (option Timestamp * WatermarkFrontier) :=
  match im_get coord (wf_map self) with
  | None => Panicked
  | Some t0 =>
      if match t0 with Some t => Z.geb t ts | None => false end then Done (None, self)
      else
        let self := mkFrontier (im_insert coord (Some ts) (wf_map self)) (front self) in
        let prev_frontier := front self in
        let self := mkFrontier (wf_map self) (compute_frontier self) in
        Done (match prev_frontier, front self with
              | None, Some new => Some new
              | Some old, Some new => if decide (old ≠ new) then Some new else None
              | _, _ => None
              end, self)
  end.

(** [WatermarkFrontier::reset]. *)
Definition reset (self : WatermarkFrontier) : WatermarkFrontier :=
  mkFrontier ((λ kv, (kv.1, None)) <$> wf_map self) None.

(** ** Index maps *)
Lemma im_get_insert {V} k (v : V) m k' :
  im_get k' (im_insert k v m) = if decide (k = k') then Some v else im_get k' m.
Proof.
  induction m as [|[k1 v1] m IH]; simpl; [done|].
  repeat (case_decide; simpl; subst); try done; by rewrite ?IH; repeat case_decide.
Qed.

Lemma im_insert_keys {V} k (v v0 : V) m :
  im_get k m = Some v0 → fst <$> im_insert k v m = fst <$> m.
Proof.
  induction m as [|[k1 v1] m IH]; csimpl; [done|]. case_decide; csimpl; subst; [done|].
  intros ?. by rewrite IH.
Qed.

Lemma elem_of_im_insert {V} k (v : V) m c :
  c ∈ fst <$> im_insert k v m ↔ c = k ∨ c ∈ fst <$> m.
Proof.
  induction m as [|[k1 v1] m IH]; csimpl; [set_solver|].
  case_decide; csimpl; set_solver.
Qed.

Lemma im_insert_NoDup {V} k (v : V) m : NoDup (fst <$> m) → NoDup (fst <$> im_insert k v m).
Proof.
  induction m as [|[k1 v1] m IH]; csimpl; intros Hnd; [apply NoDup_singleton|].
  apply NoDup_cons in Hnd as [H1 H2]. case_decide; csimpl; subst.
  - by apply NoDup_cons.
  - apply NoDup_cons. rewrite elem_of_im_insert. naive_solver.
Qed.

Lemma im_get_elem {V} (m : list (Coord * V)) k v :
  NoDup (fst <$> m) → im_get k m = Some v ↔ (k, v) ∈ m.
Proof.
  induction m as [|[k1 v1] m IH]; csimpl; intros Hnd; [set_solver|].
  apply NoDup_cons in Hnd as [H1 H2]. case_decide; subst.
  - rewrite elem_of_cons. split; [intros [= ->]; by left|].
    intros [[= ->]|Hin]; [done|]. exfalso. apply H1. apply list_elem_of_fmap.
    by exists (k, v).
  - rewrite IH by done. set_solver.
Qed.

(** ** What the frontier computes *)
Section compute.
Implicit Types self : WatermarkFrontier.

Lemma frontier_fold (vs : list (option Timestamp)) all mn :
  foldl (λ '(all, mn) x, (all && bool_decide (is_Some x), opt_join mn x Z.min))
    (all, mn) vs =
  (all && forallb (λ x, bool_decide (is_Some x)) vs,
   foldl (λ mn x, opt_join mn x Z.min) mn vs).
Proof.
  revert all mn; induction vs as [|v vs IH]; intros all mn; simpl.
  - by rewrite andb_true_r.
  - by rewrite IH, andb_assoc.
Qed.

(** The running minimum: a lower bound that is attained. *)
Lemma frontier_min (vs : list (option Timestamp)) (m0 : option Timestamp) :
  match foldl (λ mn x, opt_join mn x Z.min) m0 vs with
  | Some m => (∀ t, m0 = Some t ∨ Some t ∈ vs → (m ≤ t)%Z) ∧ (m0 = Some m ∨ Some m ∈ vs)
  | None => m0 = None ∧ ∀ t, Some t ∉ vs
  end.
Proof.
  revert m0; induction vs as [|v vs IH]; intros m0; simpl.
  { destruct m0; [|by split; [|intros t ?%elem_of_nil]].
    split; [intros t [[= ->]|?%elem_of_nil]; [lia|done]|by left]. }
  specialize (IH (opt_join m0 v Z.min)).
  destruct (foldl _ (opt_join m0 v Z.min) vs) as [m|] eqn:Ef;
    destruct m0 as [a|], v as [b|]; simpl in *.
  all: try (destruct IH as [IH1 IH2]; split).
  all: try (intros t [?|[?|?]%elem_of_cons]); simplify_eq.
  all: try (apply IH1; set_solver).
  all: try set_solver.
  - etransitivity; [apply (IH1 (Z.min t b)); by left|lia].
  - etransitivity; [apply (IH1 (Z.min a b)); by left|lia].
  - destruct IH2 as [[= <-]|?]; [|set_solver].
    destruct (Z.min_spec a b) as [[_ ->]|[_ ->]]; set_solver.
Qed.

(** The frontier is the least of the watermarks of the replicas, once every
    replica has one. *)
Lemma compute_frontier_spec self m :
  compute_frontier self = Some m ↔
  (∀ c v, (c, v) ∈ wf_map self → ∃ t, v = Some t ∧ (m ≤ t)%Z) ∧
  ∃ c, (c, Some m) ∈ wf_map self.
Proof.
  unfold compute_frontier. rewrite frontier_fold. simpl.
  pose proof (frontier_min (snd <$> wf_map self) None) as Hmin.
  destruct (forallb _ _) eqn:Hall.
  - rewrite forallb_forall in Hall. setoid_rewrite <-list_elem_of_In in Hall.
    assert (∀ c v, (c, v) ∈ wf_map self → is_Some v) as Hs.
    { intros c v Hin. specialize (Hall v). rewrite bool_decide_eq_true in Hall.
      apply Hall, list_elem_of_fmap. by exists (c, v). }
    split.
    + intros E. rewrite E in Hmin. destruct Hmin as [H1 [?|H2]]; [done|].
      apply list_elem_of_fmap in H2 as ([c v] & Hv & Hc); simpl in Hv; subst.
      split; [|by exists c]. intros c' v' Hin. destruct (Hs _ _ Hin) as [t ->].
      exists t; split; [done|]. apply H1. right. apply list_elem_of_fmap.
      by exists (c', Some t).
    + intros [H1 [c Hc]]. destruct (foldl _ _ _) as [m'|].
      * destruct Hmin as [H2 [?|H3]]; [done|].
        apply list_elem_of_fmap in H3 as ([c' v] & Hv & Hc'); simpl in Hv; subst.
        destruct (H1 _ _ Hc') as (t & [= ->] & Hle). f_equal.
        assert (t ≤ m)%Z; [|lia]. apply H2. right. apply list_elem_of_fmap.
        by exists (c, Some m).
      * destruct Hmin as [_ Hno]. exfalso. eapply Hno, list_elem_of_fmap.
        by exists (c, Some m).
  - split; [done|]. intros [H1 _]. exfalso. apply not_true_iff_false in Hall.
    apply Hall, forallb_forall. intros v Hv%list_elem_of_In.
    apply list_elem_of_fmap in Hv as ([c v'] & -> & Hc). apply bool_decide_eq_true.
    by destruct (H1 _ _ Hc) as (t & -> & _).
Qed.
Lemma compute_frontier_total self c0 v0 :
  (c0, v0) ∈ wf_map self → (∀ c v, (c, v) ∈ wf_map self → is_Some v) →
  is_Some (compute_frontier self).
Proof.
  intros H0 Hs. unfold compute_frontier. rewrite frontier_fold. simpl.
  pose proof (frontier_min (snd <$> wf_map self) None) as Hmin.
  destruct (forallb _ _) eqn:Hall.
  - destruct (foldl _ _ _); [done|]. destruct Hmin as [_ Hno].
    destruct (Hs _ _ H0) as [t ->]. exfalso. eapply Hno, list_elem_of_fmap.
    by exists (c0, Some t).
  - exfalso. apply not_true_iff_false in Hall. apply Hall, forallb_forall.
    intros v Hv%list_elem_of_In. apply bool_decide_eq_true.
    apply list_elem_of_fmap in Hv as ([c v'] & -> & Hc). by eapply Hs.
Qed.
End compute.

(** ** The history of a frontier *)

(** The updates of a list of watermarks, with what each call returned. *)
Fixpoint run_updates (self : WatermarkFrontier) (h : list (Coord * Timestamp))
    : outcome (list Timestamp * WatermarkFrontier) :=
  match h with
  | [] => Done ([], self)
  | (c, ts) :: h =>
      '(o, self) ← update self c ts;
      '(out, self) ← run_updates self h;
      Done (option_list o ++ out, self)
  end.

(** The watermarks a replica has sent. *)
Definition sent_by (c : Coord) (h : list (Coord * Timestamp)) : list Timestamp :=
  omap (λ '(c', t), if decide (c' = c) then Some t else None) h.

(** [t] may be passed downstream: every replica has sent a watermark at least [t]. *)
Definition safe (prevs : list Coord) (h : list (Coord * Timestamp)) (t : Timestamp) : Prop :=
  ∀ c, c ∈ prevs → ∃ t', t' ∈ sent_by c h ∧ (t ≤ t')%Z.

Definition greatest_safe prevs h (m : Timestamp) : Prop :=
  safe prevs h m ∧ ∀ t, safe prevs h t → (t ≤ m)%Z.

Record frontier_at (prevs : list Coord) (h : list (Coord * Timestamp))
    (self : WatermarkFrontier) : Prop := {
  fa_NoDup : NoDup (fst <$> wf_map self);
  fa_keys c : c ∈ fst <$> wf_map self ↔ c ∈ prevs;
  fa_get c : c ∈ prevs → im_get c (wf_map self) = Some (max_list (sent_by c h));
  fa_front : front self = compute_frontier self
}.

Lemma sent_by_snoc c h c' ts :
  sent_by c (h ++ [(c', ts)]) = sent_by c h ++ if decide (c' = c) then [ts] else [].
Proof. unfold sent_by. rewrite omap_app. csimpl. by case_decide. Qed.

(** The frontier is exactly the greatest timestamp that is safe. *)
Lemma frontier_at_safe prevs h self m :
  frontier_at prevs h self → front self = Some m ↔ greatest_safe prevs h m.
Proof.
  intros [Hnd Hk Hg ->]. rewrite compute_frontier_spec.
  assert (∀ c v, (c, v) ∈ wf_map self ↔ c ∈ prevs ∧ v = max_list (sent_by c h)) as Hin.
  { intros c v. rewrite <-im_get_elem by done. split.
    - intros Hv. assert (c ∈ prevs) as Hc.
      { apply Hk, list_elem_of_fmap. exists (c, v). by rewrite <-im_get_elem. }
      rewrite (Hg c Hc) in Hv. by injection Hv.
    - intros [Hc ->]. by apply Hg. }
  assert (∀ t, safe prevs h t ↔ ∀ c, c ∈ prevs →
      ∃ t', max_list (sent_by c h) = Some t' ∧ (t ≤ t')%Z) as Hsafe.
  { intros t. apply forall_proper. intros c. split; intros H Hc;
      destruct (H Hc) as (t' & H1 & H2); clear H.
    - destruct (max_list (sent_by c h)) as [t2|] eqn:E.
      + exists t2; split; [done|]. apply max_list_spec in E as [_ E].
        rewrite Forall_forall in E. specialize (E _ H1). lia.
      + apply max_list_None in E. rewrite E in H1. by apply elem_of_nil in H1.
    - exists t'. split; [|done]. by apply max_list_spec in H1 as [? _]. }
  split.
  - intros [H1 [c Hc]]. apply Hin in Hc as [Hc Hm]. split.
    + apply Hsafe. intros c' Hc'. apply H1 with c'. by apply Hin.
    + intros t Ht. rewrite Hsafe in Ht. destruct (Ht c Hc) as (t' & Ht' & ?).
      rewrite <-Hm in Ht'. by injection Ht' as <-.
  - intros [Hm Hgr]. rewrite Hsafe in Hm. split.
    { intros c v [Hc ->]%Hin. destruct (Hm c Hc) as (t' & -> & ?). eauto. }
    assert (is_Some (compute_frontier self)) as [m' Hm'].
    { destruct (wf_map self) as [|[c0 v0] l] eqn:El.
      - exfalso. assert (safe prevs h (m + 1)) as H%Hgr; [|lia].
        intros c Hc. apply Hk in Hc. by apply elem_of_nil in Hc.
      - apply (compute_frontier_total self c0 v0); [rewrite El; by left|].
        intros c v. rewrite El. intros [Hc ->]%Hin. by destruct (Hm c Hc) as (t' & -> & _). }
    apply compute_frontier_spec in Hm' as [H1 [c Hc]]. exists c.
    replace m with m'; [done|]. apply Hin in Hc as Hc2. destruct Hc2 as [Hcp Hmc].
    assert (safe prevs h m') as Hs%Hgr.
    { apply Hsafe. intros c' Hc'. apply (H1 c'). by apply Hin. }
    destruct (Hm c Hcp) as (t' & Ht' & ?). rewrite <-Hmc in Ht'. injection Ht' as <-. lia.
Qed.

(** Whether or not the entry of the sender is rewritten, it holds the greatest
    watermark the sender has sent. *)
Lemma update_spec self c ts t0 :
  im_get c (wf_map self) = Some t0 → front self = compute_frontier self →
  ∃ o self', update self c ts = Done (o, self') ∧
    wf_map self' = (if match t0 with Some t => Z.geb t ts | None => false end
                    then wf_map self else im_insert c (Some ts) (wf_map self)) ∧
    front self' = compute_frontier self' ∧
    o = match front self, front self' with
        | None, Some new => Some new
        | Some old, Some new => if decide (old ≠ new) then Some new else None
        | _, _ => None
        end.
Proof.
  intros Hg Hf. unfold update. rewrite Hg.
  destruct (match t0 with Some t => (t >=? ts)%Z | None => false end); cbn.
  - eexists _, _. split; [done|]. split_and!; [done..|].
    destruct (front self); [|done]. by rewrite decide_False by naive_solver.
  - eexists _, _. split; [done|]. by split_and!.
Qed.

Lemma frontier_at_get prevs h self c c' ts t0 :
  frontier_at prevs h self → c ∈ prevs → c' ∈ prevs →
  im_get c (wf_map self) = Some t0 →
  im_get c' (if match t0 with Some t => Z.geb t ts | None => false end
             then wf_map self else im_insert c (Some ts) (wf_map self)) =
  Some (max_list (sent_by c' (h ++ [(c, ts)]))).
Proof.
  intros Hat Hc Hc' Hg. rewrite sent_by_snoc.
  pose proof (fa_get _ _ _ Hat _ Hc) as Hm. rewrite Hg in Hm. injection Hm as ->.
  destruct (decide (c = c')) as [<-|Hne].
  - rewrite max_list_snoc, max_ts_spec. destruct (max_list (sent_by c h)) as [t|].
    + destruct (Z.geb_spec t ts).
      * rewrite Hg. do 2 f_equal. lia.
      * rewrite im_get_insert, decide_True by done. do 2 f_equal. lia.
    + by rewrite im_get_insert, decide_True.
  - rewrite app_nil_r, <-(fa_get _ _ _ Hat _ Hc').
    destruct (match max_list (sent_by c h) with Some t => _ | None => _ end); [done|].
    by rewrite im_get_insert, decide_False.
Qed.

(** One update extends the history by one watermark, and reports the new frontier
    exactly when it changed. *)
Lemma frontier_step prevs h self c ts :
  frontier_at prevs h self → c ∈ prevs →
  ∃ o self', update self c ts = Done (o, self') ∧ frontier_at prevs (h ++ [(c, ts)]) self' ∧
    o = match front self, front self' with
        | None, Some new => Some new
        | Some old, Some new => if decide (old ≠ new) then Some new else None
        | _, _ => None
        end.
Proof.
  intros Hat Hc. pose proof (fa_get _ _ _ Hat _ Hc) as Hg.
  destruct (update_spec self c ts _ Hg (fa_front _ _ _ Hat)) as (o & self' & Hu & Hm & Hf & Ho).
  exists o, self'. split_and!; [done| |done]. split; [| | |done].
  - rewrite Hm. destruct (match max_list _ with Some _ => _ | None => _ end);
      [apply Hat|apply im_insert_NoDup, Hat].
  - intros c'. rewrite Hm, <-(fa_keys _ _ _ Hat c').
    destruct (match max_list _ with Some _ => _ | None => _ end); [done|].
    by erewrite im_insert_keys.
  - intros c' Hc'. rewrite Hm. by apply (frontier_at_get prevs).
Qed.

Lemma safe_snoc prevs h x t : safe prevs h t → safe prevs (h ++ [x]) t.
Proof.
  intros H c Hc. destruct (H c Hc) as (t' & Hin & Hle). exists t'. split; [|done].
  destruct x. rewrite sent_by_snoc. set_solver.
Qed.

(** The frontier never moves back. *)
Lemma front_mono prevs h x self self' m :
  frontier_at prevs h self → frontier_at prevs (h ++ [x]) self' → front self = Some m →
  ∃ m', front self' = Some m' ∧ (m ≤ m')%Z.
Proof.
  intros H1 H2 Hm. apply (frontier_at_safe _ _ _ _ H1) in Hm as [Hs Hg].
  apply (safe_snoc _ _ x) in Hs.
  destruct prevs as [|c0 prevs'] eqn:Ep.
  { exfalso. assert (safe [] h (m + 1)) as H%Hg; [|lia]. intros c ?%elem_of_nil. done. }
  rewrite <-Ep in *. assert (is_Some (front self')) as [m' Hm'].
  { rewrite (fa_front _ _ _ H2).
    assert (∀ c v, (c, v) ∈ wf_map self' → is_Some v) as Hsome.
    { intros c v Hin. apply im_get_elem in Hin; [|apply H2].
      assert (c ∈ prevs) as Hc.
      { apply (fa_keys _ _ _ H2), list_elem_of_fmap. exists (c, v).
        rewrite <-im_get_elem; [done|apply (fa_NoDup _ _ _ H2)]. }
      rewrite (fa_get _ _ _ H2 c Hc) in Hin. injection Hin as <-.
      destruct (Hs c Hc) as (t & Ht & _). destruct (max_list _) eqn:E; [done|].
      apply max_list_None in E. rewrite E in Ht. by apply elem_of_nil in Ht. }
    apply (compute_frontier_total self' c0 (max_list (sent_by c0 (h ++ [x]))));
      [|done]. rewrite <-im_get_elem by apply (fa_NoDup _ _ _ H2). apply (fa_get _ _ _ H2).
    rewrite Ep. left. }
  exists m'. split; [done|]. apply (frontier_at_safe _ _ _ _ H2) in Hm' as [_ Hg'].
  by apply Hg'.
Qed.

Lemma foldl_insert_None prevs (m : list (Coord * option Timestamp)) :
  NoDup (fst <$> m) → (∀ c v, im_get c m = Some v → v = None) →
  let m' := foldl (λ m c, im_insert c None m) m prevs in
  NoDup (fst <$> m') ∧ (∀ c, c ∈ fst <$> m' ↔ c ∈ fst <$> m ∨ c ∈ prevs) ∧
  (∀ c v, im_get c m' = Some v → v = None).
Proof.
  revert m; induction prevs as [|c0 prevs IH]; intros m Hnd Hn; simpl.
  { split_and!; [done|set_solver|done]. }
  destruct (IH (im_insert c0 None m)) as (H1 & H2 & H3).
  - by apply im_insert_NoDup.
  - intros c v. rewrite im_get_insert. case_decide; naive_solver.
  - split_and!; [done| |done]. intros c. rewrite H2, elem_of_im_insert. set_solver.
Qed.

Lemma compute_frontier_empty self :
  (∀ c v, (c, v) ∈ wf_map self → v = None) → compute_frontier self = None.
Proof.
  intros Hn. destruct (compute_frontier self) as [m|] eqn:E; [|done].
  apply compute_frontier_spec in E as [_ [c Hc]]. by apply Hn in Hc.
Qed.

(** A map in which no replica has a watermark stands for the empty history. *)
Lemma frontier_at_nil prevs self :
  NoDup (fst <$> wf_map self) → (∀ c, c ∈ fst <$> wf_map self ↔ c ∈ prevs) →
  (∀ c v, (c, v) ∈ wf_map self → v = None) → front self = None →
  frontier_at prevs [] self.
Proof.
  intros Hnd Hk Hn Hf. split; [done..| |].
  - intros c Hc. apply Hk, list_elem_of_fmap in Hc as ([c' v] & -> & Hin).
    apply im_get_elem; [done|]. by rewrite (Hn _ _ Hin) in Hin.
  - by rewrite compute_frontier_empty.
Qed.

Lemma frontier_at_new prevs : frontier_at prevs [] (WatermarkFrontier_new prevs).
Proof.
  destruct (foldl_insert_None prevs []) as (H1 & H2 & H3); [constructor|done|].
  apply frontier_at_nil; [done| | |done].
  - intros c. cbn. rewrite H2. set_solver.
  - intros c v Hin. apply (H3 c). by apply im_get_elem.
Qed.

(** [reset] forgets the history. *)
Lemma frontier_at_reset prevs h self :
  frontier_at prevs h self → frontier_at prevs [] (reset self).
Proof.
  intros [Hnd Hk _ _].
  assert (fst <$> wf_map (reset self) = fst <$> wf_map self) as E.
  { cbn. rewrite <-list_fmap_compose. by apply list_fmap_ext. }
  apply frontier_at_nil; rewrite ?E; [done..| |done].
  intros c v. cbn. rewrite list_elem_of_fmap. by intros (kv & [= -> ->] & _).
Qed.

#[export] Hint Resolve frontier_at_new frontier_at_reset : renoir.

(** *** The outputs of a whole history *)

Lemma Sorted_snoc_lt out m :
  Sorted Z.lt out → (∀ x, last out = Some x → (x < m)%Z) → Sorted Z.lt (out ++ [m]).
Proof.
  induction out as [|a out IH]; cbn; intros Hs Hl; [by repeat constructor|].
  apply Sorted_inv in Hs as [Hs Hh]. destruct out as [|b out].
  - repeat constructor. by apply Hl.
  - constructor; [|by inversion Hh; constructor]. apply IH; [done|]. intros x Hx. by apply Hl.
Qed.

Lemma run_updates_at prevs h0 out0 self h :
  frontier_at prevs h0 self → front self = last out0 → Sorted Z.lt out0 →
  Forall (λ x, x.1 ∈ prevs) h →
  ∃ out self', run_updates self h = Done (out, self') ∧
    frontier_at prevs (h0 ++ h) self' ∧
    front self' = last (out0 ++ out) ∧ Sorted Z.lt (out0 ++ out).
Proof.
  intros Hat Hl Hs Hh; revert h0 out0 self Hat Hl Hs.
  induction Hh as [|[c ts] h Hc Hh IH]; intros h0 out0 self Hat Hl Hs; cbn.
  { exists [], self. rewrite !app_nil_r. done. }
  destruct (frontier_step _ _ _ _ ts Hat Hc) as (o & self1 & Hu & Hat1 & Ho).
  assert (front self1 = last (out0 ++ option_list o) ∧ Sorted Z.lt (out0 ++ option_list o))
    as [Hl1 Hs1].
  { destruct (front self) as [old|] eqn:E0.
    - destruct (front_mono _ _ _ _ _ _ Hat Hat1 E0) as (new & E1 & Hle).
      rewrite E1 in Ho |- *. subst o. case_decide as Hne; cbn.
      + rewrite last_snoc. split; [done|]. apply Sorted_snoc_lt; [done|].
        intros x Hx. rewrite <-Hl in Hx. injection Hx as ->. lia.
      + rewrite app_nil_r, <-Hl. split; [|done].
        f_equal. destruct (decide (old = new)); [done|by contradiction Hne].
    - destruct (front self1) as [new|] eqn:E1; subst o; cbn.
      + rewrite last_snoc. split; [done|]. apply Sorted_snoc_lt; [done|].
        intros x Hx. by rewrite <-Hl in Hx.
      + by rewrite app_nil_r. }
  destruct (IH _ _ self1 Hat1 Hl1 Hs1) as (out & self' & Hr & Hat' & Hl' & Hs').
  exists (option_list o ++ out), self'. rewrite <-app_assoc in Hl', Hs', Hat'.
  split_and!; [|done..]. cbn [fst] in Hu. rewrite Hu. cbn. rewrite Hr. done.
Qed.

(** C12. Whatever the order in which the watermarks of the previous replicas arrive,
    no update panics, the watermarks the frontier reports strictly increase, and
    the last one reported is always the greatest timestamp that every replica has
    already passed: none is reported too early, and none is held back. *)
Theorem frontier_history prevs h :
  Forall (λ x, x.1 ∈ prevs) h →
  ∃ out self, run_updates (WatermarkFrontier_new prevs) h = Done (out, self) ∧
    Sorted Z.lt out ∧ ∀ m, last out = Some m ↔ greatest_safe prevs h m.
Proof.
  intros Hh. destruct (run_updates_at prevs [] [] (WatermarkFrontier_new prevs) h)
    as (out & self & Hr & Hat & Hl & Hs); [auto with renoir|done|constructor|done|].
  cbn in *. exists out, self. split_and!; [done..|].
  intros m. by rewrite <-Hl, (frontier_at_safe _ _ _ _ Hat).
Qed.

Lemma frontier_history_witness :
  let a := mkCoord 0 0 0 in let b := mkCoord 0 0 1 in
  let h := [(a, 3%Z); (b, 1%Z); (b, 7%Z); (a, 2%Z)] in
  ∃ out self, run_updates (WatermarkFrontier_new [a; b]) h = Done (out, self) ∧
    Sorted Z.lt out ∧ ∀ m, last out = Some m ↔ greatest_safe [a; b] h m.
Proof.
  intros a b h. refine (frontier_history [a; b] h _). repeat constructor; set_solver.
Defined.
