(* ===== verification/Batcher.v ===== *)
(** * Batching of outgoing messages

    [src/src/block/batcher.rs]: the batch mode, the batcher that owns the buffer
    of one outgoing channel, and its variant shared with a background timer; with
    the sending half of [src/src/network/network_channel.rs].

    - Time: [Instant::now()] answers are a parameter, [clock], the successive
      instants this batcher reads.
    - The other end of the channels is the state [Network]: what was put in each
      channel, in order.  [send] on a channel whose receiver is gone is an error,
      which the batcher unwraps.
    - The timer thread of a [Timed] batcher runs [try_flush] under the mutex that
      the worker takes for each of its own operations.  [timer i] lists the calls
      it manages to make before the [i]-th operation of the worker, each with
      whether it finds the channel full. *)
From S2P Require Import Prelude StreamElement.

(** Durations and instants, in milliseconds. *)
Abbreviation Duration := Z (only parsing).
Abbreviation Instant := Z (only parsing).

(** ** Batch modes ([NonZeroUsize] is a [nat] constrained by [wf_mode]) *)
Inductive BatchMode :=
| Fixed (n : nat)
| Adaptive (n : nat) (max_delay : Duration)
| Timed (max_size : nat) (interval : Duration)
| Single.

Global Instance BatchMode_eq_dec : EqDecision BatchMode.
Proof. solve_decision. Defined.

Definition max_size (self : BatchMode) : nat :=
  match self with
  | Fixed s => s
  | Adaptive s _ => s
  | Timed s _ => s
  | Single => 1
  end.

Definition interval (self : BatchMode) : option Duration :=
  match self with
  | Adaptive _ ts => Some ts
  | Timed _ interval => Some interval
  | _ => None
  end.

(** [BatchMode::max_delay]. *)
Definition max_delay (self : BatchMode) : option Duration :=
  match self with
  | Adaptive _ max_delay => Some max_delay
  | Timed _ interval => Some interval
  | Single => Some 5000%Z
  | Fixed _ => None
  end.

(** [NonZeroUsize::new(size).expect(..)]. *)
Definition non_zero (size : nat) : outcome nat :=
  match size with 0 => Panicked | S _ => Done size end.

Definition fixed (size : nat) : outcome BatchMode :=
  n ← non_zero size; Done (Fixed n).
Definition adaptive (size : nat) (max_delay : Duration) : outcome BatchMode :=
  n ← non_zero size; Done (Adaptive n max_delay).
Definition timed (size : nat) (interval : Duration) : outcome BatchMode :=
  n ← non_zero size; Done (Timed n interval).
Definition single : BatchMode := Single.

(** [impl Default for BatchMode]. *)
Definition BatchMode_default : outcome BatchMode := timed 1024 100%Z.

(** What the [NonZeroUsize] fields guarantee. *)
Definition wf_mode (m : BatchMode) : Prop := 0 < max_size m.

(** ** Channels *)
Record Network (A : Type) := mkNetwork {
  delivered : gmap ReceiverEndpoint (list (NetworkMessage A));
  disconnected : gset ReceiverEndpoint
}.
Global Arguments mkNetwork {_} _ _.
Global Arguments delivered {_} _.
Global Arguments disconnected {_} _.

(** The messages put so far in the channel to an endpoint. *)
Definition sent_to {A} (net : Network A) (ep : ReceiverEndpoint) : list (NetworkMessage A) :=
  default [] (delivered net !! ep).

(** [NetworkSender::send], [None] for [NetworkSendError::Disconnected]. *)
Definition send {A} (ep : ReceiverEndpoint) (m : NetworkMessage A) (net : Network A)
    : option (Network A) :=
  if decide (ep ∈ disconnected net) then None
  else Some (mkNetwork (<[ep := sent_to net ep ++ [m]]> (delivered net)) (disconnected net)).

(** [NetworkSender::try_send]. *)
Inductive NetworkTrySendError (A : Type) :=
| Full (m : NetworkMessage A)
| TryDisconnected (ep : ReceiverEndpoint).
Global Arguments Full {_} _.
Global Arguments TryDisconnected {_} _.

Definition try_send {A} (full : bool) (ep : ReceiverEndpoint) (m : NetworkMessage A)
    (net : Network A) : Network A + NetworkTrySendError A :=
  match send ep m net with
  | None => inr (TryDisconnected ep)
  | Some net' => if full then inr (Full m) else inl net'
  end.

(** ** [BatcherInner] *)
Record BatcherInner (A : Type) := mkBatcherInner {
  remote_sender : ReceiverEndpoint;
  mode : BatchMode;
  buffer : list (StreamElement A);
  last_send : Instant;
  bi_coord : Coord;
  finished : bool;
  (** the instants [Instant::now()] answers, and how many were consumed *)
  clock : nat → Instant;
  clock_reads : nat
}.
Global Arguments mkBatcherInner {_} _ _ _ _ _ _ _ _.
Global Arguments remote_sender {_} _.
Global Arguments mode {_} _.
Global Arguments buffer {_} _.
Global Arguments last_send {_} _.
Global Arguments bi_coord {_} _.
Global Arguments finished {_} _.
Global Arguments clock {_} _.
Global Arguments clock_reads {_} _.

Section batcher_inner.
Context {A : Type}.
Implicit Types self : BatcherInner A.

Definition with_buffer self (l : list (StreamElement A)) : BatcherInner A :=
  mkBatcherInner (remote_sender self) (mode self) l (last_send self) (bi_coord self)
    (finished self) (clock self) (clock_reads self).

(** [self.last_send = Instant::now()]. *)
Definition mark_sent self : BatcherInner A :=
  mkBatcherInner (remote_sender self) (mode self) (buffer self)
    (clock self (clock_reads self)) (bi_coord self) (finished self)
    (clock self) (S (clock_reads self)).

(** [self.last_send.elapsed()]: reads the clock. *)
Definition elapsed self : Duration * BatcherInner A :=
  ((clock self (clock_reads self) - last_send self)%Z,
   mkBatcherInner (remote_sender self) (mode self) (buffer self) (last_send self)
     (bi_coord self) (finished self) (clock self) (S (clock_reads self))).

(** [BatcherInner::flush]. *)
Definition flush self (net : Network A) : outcome (BatcherInner A * Network A) :=
  match buffer self with
  | [] => Done (self, net)
  | batch =>
      net ← unwrap (send (remote_sender self) (new_batch batch (bi_coord self)) net);
      Done (mark_sent (with_buffer self []), net)
  end.

(** [BatcherInner::try_flush]; [full] is the state of the channel. *)
Definition try_flush (full : bool) self (net : Network A)
    : outcome (bool * BatcherInner A * Network A) :=
  match buffer self with
  | [] => Done (false, self, net)
  | batch =>
      match try_send full (remote_sender self) (new_batch batch (bi_coord self)) net with
      | inl net => Done (true, mark_sent (with_buffer self []), net)
      | inr (Full m) => Done (false, with_buffer self (data m), net)
      | inr (TryDisconnected _) => Panicked
      end
  end.

(** [BatcherInner::enqueue]. *)
Definition enqueue self (message : StreamElement A) (net : Network A)
    : outcome (BatcherInner A * Network A) :=
  match mode self with
  | Adaptive n max_delay =>
      let self := with_buffer self (buffer self ++ [message]) in
      let '(e, self) := elapsed self in
      if (n <=? length (buffer self)) || (max_delay <? e)%Z then flush self net
      else Done (self, net)
  | Fixed n =>
      let self := with_buffer self (buffer self ++ [message]) in
      if n <=? length (buffer self) then flush self net else Done (self, net)
  | Timed max_size _ =>
      let self := with_buffer self (buffer self ++ [message]) in
      if max_size <=? length (buffer self) then flush self net else Done (self, net)
  | Single =>
      net ← unwrap (send (remote_sender self) (new_single message (bi_coord self)) net);
      Done (self, net)
  end.

(** [BatcherInner::end]. *)
Definition end_inner self (net : Network A) : outcome (BatcherInner A * Network A) :=
  '(self, net) ← match buffer self with
                 | [] => Done (self, net)
                 | batch =>
                     net ← unwrap (send (remote_sender self)
                                     (new_batch batch (bi_coord self)) net);
                     Done (with_buffer self [], net)
                 end;
  Done (mkBatcherInner (remote_sender self) (mode self) (buffer self) (last_send self)
          (bi_coord self) true (clock self) (clock_reads self), net).
End batcher_inner.

(** ** [Batcher] *)
Record SyncBatcher (A : Type) := mkSyncBatcher {
  inner : BatcherInner A;
  cancel_token : bool;
  (** what the timer thread does before each operation of the worker *)
  timer : nat → list bool;
  worker_ops : nat
}.
Global Arguments mkSyncBatcher {_} _ _ _ _.
Global Arguments inner {_} _.
Global Arguments cancel_token {_} _.
Global Arguments timer {_} _.
Global Arguments worker_ops {_} _.

Inductive Batcher (A : Type) :=
| Unsync (inner : BatcherInner A)
| Sync (s : SyncBatcher A).
Global Arguments Unsync {_} _.
Global Arguments Sync {_} _.

(** The environment a batcher is created in: its clock and, for the timed mode,
    its timer. *)
Record BatcherEnv := mkBatcherEnv {
  env_clock : nat → Instant;
  env_timer : nat → list bool
}.

Section batcher.
Context {A : Type}.

(** [Batcher::new]. *)
Definition Batcher_new (env : BatcherEnv) (remote_sender : ReceiverEndpoint)
    (mode : BatchMode) (coord : Coord) : Batcher A :=
  let inner := mkBatcherInner remote_sender mode [] (env_clock env 0) coord false
                 (env_clock env) 1 in
  match mode with
  | Timed _ _ => Sync (mkSyncBatcher inner false (env_timer env) 0)
  | _ => Unsync inner
  end.

(** The calls of the timer thread, [batcher.lock().try_flush()].  A call that was
    past the test of the token when [end] cancels it still takes the lock. *)
Fixpoint run_timer (calls : list bool) (i : BatcherInner A) (net : Network A)
    : outcome (BatcherInner A * Network A) :=
  match calls with
  | [] => Done (i, net)
  | full :: calls =>
      '(_, i, net) ← try_flush full i net;
      run_timer calls i net
  end.

(** [inner.lock()]: the timer thread may have run since the last time. *)
Definition lock (s : SyncBatcher A) (net : Network A) : outcome (SyncBatcher A * Network A) :=
  '(i, net) ← run_timer (timer s (worker_ops s)) (inner s) net;
  Done (mkSyncBatcher i (cancel_token s) (timer s) (S (worker_ops s)), net).

Definition set_inner (s : SyncBatcher A) (i : BatcherInner A) : SyncBatcher A :=
  mkSyncBatcher i (cancel_token s) (timer s) (worker_ops s).

(** [Batcher::enqueue]. *)
Definition Batcher_enqueue (self : Batcher A) (message : StreamElement A) (net : Network A)
    : outcome (Batcher A * Network A) :=
  match self with
  | Unsync i => '(i, net) ← enqueue i message net; Done (Unsync i, net)
  | Sync s =>
      '(s, net) ← lock s net;
      '(i, net) ← enqueue (inner s) message net;
      Done (Sync (set_inner s i), net)
  end.

(** [Batcher::flush]. *)
Definition Batcher_flush (self : Batcher A) (net : Network A)
    : outcome (Batcher A * Network A) :=
  match self with
  | Unsync i => '(i, net) ← flush i net; Done (Unsync i, net)
  | Sync s =>
      '(s, net) ← lock s net;
      '(i, net) ← flush (inner s) net;
      Done (Sync (set_inner s i), net)
  end.

(** [Batcher::end]: consumes the batcher. *)
Definition Batcher_end (self : Batcher A) (net : Network A) : outcome (Network A) :=
  match self with
  | Unsync i => '(_, net) ← end_inner i net; Done net
  | Sync s =>
      let s := mkSyncBatcher (inner s) true (timer s) (worker_ops s) in
      '(s, net) ← lock s net;
      '(_, net) ← end_inner (inner s) net;
      Done net
  end.
End batcher.

(** ** The contract of a batcher *)

(** The state shared with the timer, or owned alone. *)
Definition inner_of {A} (b : Batcher A) : BatcherInner A :=
  match b with Unsync i => i | Sync s => inner s end.

(** The batches of a sender: tagged with its coordinate, never empty and never
    larger than the mode allows. *)
Definition batch_ok {A} (c : Coord) (n : nat) (m : NetworkMessage A) : Prop :=
  sender m = c ∧ 0 < length (data m) ≤ n.

(** What the channel to [ep] got from the batcher since it held [base]. *)
Definition unbatched {A} (ms : list (NetworkMessage A)) : list (StreamElement A) :=
  concat (data <$> ms).

(** [inner_at m c ep base l i net]: the elements [l] were enqueued, they are in the
    channel or still in the buffer, in order. *)
Record inner_at {A} (m : BatchMode) (c : Coord) (ep : ReceiverEndpoint)
    (base : list (NetworkMessage A)) (l : list (StreamElement A))
    (i : BatcherInner A) (net : Network A) : Prop := {
  ia_mode : mode i = m;
  ia_coord : bi_coord i = c;
  ia_remote : remote_sender i = ep;
  ia_alive : ep ∉ disconnected net;
  ia_contents : ∃ ms, sent_to net ep = base ++ ms ∧ Forall (batch_ok c (max_size m)) ms ∧
    unbatched ms ++ buffer i = l;
  ia_room : length (buffer i) < max_size m
}.

(** Only the channel to [ep] changed. *)
Definition net_frame {A} (ep : ReceiverEndpoint) (net net' : Network A) : Prop :=
  disconnected net' = disconnected net ∧ ∀ ep', ep' ≠ ep → sent_to net' ep' = sent_to net ep'.

Lemma net_frame_refl {A} ep (net : Network A) : net_frame ep net net.
Proof. by split. Qed.
Lemma net_frame_trans {A} ep (n1 n2 n3 : Network A) :
  net_frame ep n1 n2 → net_frame ep n2 n3 → net_frame ep n1 n3.
Proof. intros [H1 H2] [H3 H4]. split; [congruence|]. intros. by rewrite H4, H2. Qed.
#[export] Hint Resolve net_frame_refl net_frame_trans : renoir.

Lemma sent_to_send {A} ep (m : NetworkMessage A) net :
  ep ∉ disconnected net →
  ∃ net', send ep m net = Some net' ∧ net_frame ep net net' ∧
    sent_to net' ep = sent_to net ep ++ [m].
Proof.
  intros H. unfold send. rewrite decide_False by done. eexists; split_and!; [done|split; [done|]|].
  - intros ep' Hne. unfold sent_to; cbn. by rewrite lookup_insert_ne.
  - unfold sent_to; cbn. by rewrite lookup_insert_eq.
Qed.

Lemma unbatched_snoc {A} (ms : list (NetworkMessage A)) m :
  unbatched (ms ++ [m]) = unbatched ms ++ data m.
Proof. unfold unbatched. by rewrite fmap_app, concat_app; csimpl; rewrite app_nil_r. Qed.

Section contract.
Context {A : Type} (m : BatchMode) (c : Coord) (ep : ReceiverEndpoint)
  (base : list (NetworkMessage A)).
Implicit Types i : BatcherInner A.

(** Sending the whole buffer, whatever [last_send] becomes. *)
Lemma send_buffer_at l i net :
  mode i = m → bi_coord i = c → remote_sender i = ep → ep ∉ disconnected net →
  0 < length (buffer i) ≤ max_size m →
  (∃ ms, sent_to net ep = base ++ ms ∧ Forall (batch_ok c (max_size m)) ms ∧
     unbatched ms ++ buffer i = l) →
  ∃ net', send (remote_sender i) (new_batch (buffer i) (bi_coord i)) net = Some net' ∧
    net_frame ep net net' ∧ ep ∉ disconnected net' ∧
    ∃ ms, sent_to net' ep = base ++ ms ∧ Forall (batch_ok c (max_size m)) ms ∧
      unbatched ms = l.
Proof.
  intros H1 H2 H3 H4 H5 (ms & H6 & H7 & H8). rewrite H3.
  destruct (sent_to_send ep (new_batch (buffer i) (bi_coord i)) net H4)
    as (net' & Hs & Hf & Hst). exists net'. split_and!; [done..| |].
  - by rewrite (proj1 Hf).
  - exists (ms ++ [new_batch (buffer i) (bi_coord i)]).
    rewrite Hst, H6, <-app_assoc, unbatched_snoc. split_and!; [done| |done].
    apply Forall_app; split; [done|]. repeat constructor; cbn; [done|lia|lia].
Qed.

(** Flushing a buffer that may have just reached the maximum size. *)
Lemma flush_at l i net :
  mode i = m → bi_coord i = c → remote_sender i = ep → ep ∉ disconnected net →
  0 < max_size m → length (buffer i) ≤ max_size m →
  (∃ ms, sent_to net ep = base ++ ms ∧ Forall (batch_ok c (max_size m)) ms ∧
     unbatched ms ++ buffer i = l) →
  ∃ i' net', flush i net = Done (i', net') ∧ inner_at m c ep base l i' net' ∧
    buffer i' = [] ∧ net_frame ep net net'.
Proof.
  intros H1 H2 H3 H4 H0 H5 H6. unfold flush. destruct (buffer i) as [|x b] eqn:Eb.
  - exists i, net. split_and!; [done| |done|apply net_frame_refl].
    split; rewrite ?Eb; [done..|cbn; lia].
  - rewrite <-Eb in *. destruct (send_buffer_at l i net) as (net' & Hs & Hf & Ha & ms & M1 & M2 & M3);
      [done..|rewrite Eb in *; cbn in *; lia|done|].
    rewrite Hs. cbn. eexists _, net'. split_and!; [done| |done|done].
    split; [done..| |cbn; lia]. exists ms. cbn. by rewrite app_nil_r.
Qed.

Lemma inner_flush_at l i net :
  inner_at m c ep base l i net →
  ∃ i' net', flush i net = Done (i', net') ∧ inner_at m c ep base l i' net' ∧
    buffer i' = [] ∧ net_frame ep net net'.
Proof. intros []. apply flush_at; [done..|lia|lia|done]. Qed.

Lemma try_flush_at full l i net :
  inner_at m c ep base l i net →
  ∃ b i' net', try_flush full i net = Done (b, i', net') ∧
    inner_at m c ep base l i' net' ∧ net_frame ep net net'.
Proof.
  intros Hat. unfold try_flush. destruct (buffer i) as [|x b] eqn:Eb.
  { exists false, i, net. split_and!; [done|done|apply net_frame_refl]. }
  rewrite <-Eb. pose proof Hat as [H1 H2 H3 H4 H5 H6].
  destruct (send_buffer_at l i net) as (net' & Hs & Hf & Ha & ms & M1 & M2 & M3);
    [done..|rewrite Eb in *; cbn in *; lia|done|].
  unfold try_send. rewrite Hs. destruct full; cbn.
  - eexists _, _, _. split_and!; [done| |apply net_frame_refl].
    by split.
  - eexists _, _, _. split_and!; [done| |done].
    split; [done..| |cbn; lia]. exists ms. cbn. by rewrite app_nil_r.
Qed.

Lemma enqueue_at e l i net :
  inner_at m c ep base l i net →
  ∃ i' net', enqueue i e net = Done (i', net') ∧
    inner_at m c ep base (l ++ [e]) i' net' ∧ net_frame ep net net'.
Proof.
  intros [H1 H2 H3 H4 (ms & H5 & H6 & H7) H8].
  assert (unbatched ms ++ (buffer i ++ [e]) = l ++ [e]) as H7' by (by rewrite app_assoc, H7).
  unfold enqueue. rewrite H1.
  assert (∀ i1 (full : bool), mode i1 = m → bi_coord i1 = c → remote_sender i1 = ep →
    buffer i1 = buffer i ++ [e] → (full = false → S (length (buffer i)) < max_size m) →
    ∃ i' net', (if full then flush i1 net else Done (i1, net)) = Done (i', net') ∧
      inner_at m c ep base (l ++ [e]) i' net' ∧ net_frame ep net net') as Hgen.
  { intros i1 full E1 E2 E3 E4 E5. destruct full.
    - destruct (flush_at (l ++ [e]) i1 net) as (i' & net' & ? & ? & ? & ?);
        [done..|lia|rewrite E4, length_app; cbn; lia|exists ms; by rewrite E4|eauto].
    - exists i1, net. split_and!; [done| |apply net_frame_refl].
      split; [done..| |rewrite E4, length_app; cbn; specialize (E5 eq_refl); lia].
      exists ms. by rewrite E4. }
  destruct m as [n|n d|n d|] eqn:Em; cbn [elapsed].
  - apply Hgen; [done..|]. cbn. rewrite length_app; cbn. intros ?%Nat.leb_gt. lia.
  - apply Hgen; [done..|]. cbn. rewrite length_app; cbn.
    intros [?%Nat.leb_gt _]%orb_false_iff. lia.
  - apply Hgen; [done..|]. cbn. rewrite length_app; cbn. intros ?%Nat.leb_gt. lia.
  - rewrite H3. destruct (sent_to_send ep (new_single e (bi_coord i)) net H4)
      as (net' & Hs & Hf & Hst). rewrite Hs. cbn.
    exists i, net'. split_and!; [done| |done].
    split; [done..|by rewrite (proj1 Hf)| |done].
    exists (ms ++ [new_single e (bi_coord i)]). rewrite Hst, H5, <-app_assoc, unbatched_snoc.
    cbn in H8. destruct (buffer i); [|cbn in H8; lia].
    rewrite app_nil_r in H7 |- *. split_and!; [done| |by rewrite H7].
    apply Forall_app; split; [done|]. repeat constructor; cbn; [done|lia..].
Qed.

Lemma end_inner_at l i net :
  inner_at m c ep base l i net →
  ∃ i' net', end_inner i net = Done (i', net') ∧ net_frame ep net net' ∧ finished i' = true ∧
    ∃ ms, sent_to net' ep = base ++ ms ∧ Forall (batch_ok c (max_size m)) ms ∧ unbatched ms = l.
Proof.
  intros Hat. unfold end_inner. pose proof Hat as [H1 H2 H3 H4 H5 H6].
  destruct (buffer i) as [|x b] eqn:Eb; cbn.
  - eexists _, _. split_and!; [done|apply net_frame_refl|done|].
    destruct H5 as (ms & ? & ? & E). exists ms. by rewrite app_nil_r in E.
  - rewrite <-Eb. destruct (send_buffer_at l i net) as (net' & Hs & Hf & Ha & Hms);
      [done..|rewrite Eb; cbn in *; lia|by rewrite Eb|].
    rewrite Hs. cbn. by eexists _, _.
Qed.

Lemma run_timer_at calls l i net :
  inner_at m c ep base l i net →
  ∃ i' net', run_timer calls i net = Done (i', net') ∧
    inner_at m c ep base l i' net' ∧ net_frame ep net net'.
Proof.
  revert i net; induction calls as [|full calls IH]; intros i net Hat; cbn.
  { exists i, net. split_and!; [done..|apply net_frame_refl]. }
  destruct (try_flush_at full _ _ _ Hat) as (b & i1 & net1 & Ht & Hat1 & Hf1).
  rewrite Ht. cbn. destruct (IH _ _ Hat1) as (i' & net' & ? & ? & ?).
  eexists _, _. split_and!; eauto with renoir.
Qed.

(** The same contract for [Batcher]. *)
Definition batcher_at l (b : Batcher A) (net : Network A) : Prop :=
  inner_at m c ep base l (inner_of b) net.

Lemma lock_at l s net :
  inner_at m c ep base l (inner s) net →
  ∃ s' net', lock s net = Done (s', net') ∧ inner_at m c ep base l (inner s') net' ∧
    net_frame ep net net'.
Proof.
  intros Hat. unfold lock.
  destruct (run_timer_at (timer s (worker_ops s)) _ _ _ Hat) as (i' & net' & -> & ? & ?).
  cbn. by eexists _, _.
Qed.

Lemma Batcher_enqueue_at e l b net :
  batcher_at l b net →
  ∃ b' net', Batcher_enqueue b e net = Done (b', net') ∧ batcher_at (l ++ [e]) b' net' ∧
    net_frame ep net net'.
Proof.
  unfold batcher_at, Batcher_enqueue. destruct b as [i|s]; intros Hat; cbn in *.
  - destruct (enqueue_at e _ _ _ Hat) as (i' & net' & -> & ? & ?). cbn. by eexists _, _.
  - destruct (lock_at _ _ _ Hat) as (s' & net1 & -> & Hat1 & ?). cbn.
    destruct (enqueue_at e _ _ _ Hat1) as (i' & net' & -> & ? & ?). cbn.
    eexists _, _; split_and!; eauto with renoir.
Qed.

Lemma Batcher_flush_at l b net :
  batcher_at l b net →
  ∃ b' net', Batcher_flush b net = Done (b', net') ∧ batcher_at l b' net' ∧
    buffer (inner_of b') = [] ∧ net_frame ep net net'.
Proof.
  unfold batcher_at, Batcher_flush. destruct b as [i|s]; intros Hat; cbn in *.
  - destruct (inner_flush_at _ _ _ Hat) as (i' & net' & -> & ? & ? & ?). cbn. by eexists _, _.
  - destruct (lock_at _ _ _ Hat) as (s' & net1 & -> & Hat1 & ?). cbn.
    destruct (inner_flush_at _ _ _ Hat1) as (i' & net' & -> & ? & ? & ?). cbn.
    eexists _, _; split_and!; eauto with renoir.
Qed.

Lemma Batcher_end_at l b net :
  batcher_at l b net →
  ∃ net', Batcher_end b net = Done net' ∧ net_frame ep net net' ∧
    ∃ ms, sent_to net' ep = base ++ ms ∧ Forall (batch_ok c (max_size m)) ms ∧ unbatched ms = l.
Proof.
  unfold batcher_at, Batcher_end. destruct b as [i|s]; intros Hat; cbn [inner_of] in *.
  - destruct (end_inner_at _ _ _ Hat) as (i' & net' & -> & ? & ? & ?). cbn. by eexists _.
  - destruct (lock_at _ (mkSyncBatcher (inner s) true (timer s) (worker_ops s)) _ Hat)
      as (s' & net1 & -> & Hat1 & ?). cbn.
    destruct (end_inner_at _ _ _ Hat1) as (i' & net' & -> & ? & ? & ?). cbn.
    eexists; split_and!; eauto with renoir.
Qed.

End contract.

Lemma Batcher_new_at {A} env ep m c (net : Network A) :
  wf_mode m → ep ∉ disconnected net →
  batcher_at m c ep (sent_to net ep) [] (Batcher_new env ep m c) net.
Proof.
  intros Hm Ha. unfold batcher_at, wf_mode in *.
  assert (∀ i : BatcherInner A, mode i = m → bi_coord i = c → remote_sender i = ep →
    buffer i = [] → inner_at m c ep (sent_to net ep) [] i net) as Hgen.
  { intros i H1 H2 H3 H4. split; rewrite ?H4; try done.
    exists []. rewrite app_nil_r. split_and!; [done|constructor|done]. }
  destruct m; cbn; by apply Hgen.
Qed.

(** ** A whole life of a batcher *)
Inductive batcher_op (A : Type) := OpEnqueue (e : StreamElement A) | OpFlush.
Global Arguments OpEnqueue {_} _.
Global Arguments OpFlush {_}.

Fixpoint run_batcher {A} (ops : list (batcher_op A)) (b : Batcher A) (net : Network A)
    : outcome (Batcher A * Network A) :=
  match ops with
  | [] => Done (b, net)
  | OpEnqueue e :: ops => '(b, net) ← Batcher_enqueue b e net; run_batcher ops b net
  | OpFlush :: ops => '(b, net) ← Batcher_flush b net; run_batcher ops b net
  end.

(** What was enqueued. *)
Definition enqueued {A} (ops : list (batcher_op A)) : list (StreamElement A) :=
  omap (λ o, match o with OpEnqueue e => Some e | OpFlush => None end) ops.

Lemma run_batcher_at {A} m c ep base ops l (b : Batcher A) net :
  batcher_at m c ep base l b net →
  ∃ b' net', run_batcher ops b net = Done (b', net') ∧
    batcher_at m c ep base (l ++ enqueued ops) b' net' ∧ net_frame ep net net'.
Proof.
  revert l b net; induction ops as [|[e|] ops IH]; intros l b net Hat; csimpl.
  - exists b, net. rewrite app_nil_r. split_and!; [done..|apply net_frame_refl].
  - destruct (Batcher_enqueue_at m c ep base e _ _ _ Hat) as (b1 & n1 & -> & Hat1 & Hf1). cbn.
    destruct (IH _ _ _ Hat1) as (b' & n' & ? & ? & ?).
    rewrite <-app_assoc in *. eexists _, _; split_and!; eauto with renoir.
  - destruct (Batcher_flush_at m c ep base _ _ _ Hat) as (b1 & n1 & -> & Hat1 & _ & Hf1). cbn.
    destruct (IH _ _ _ Hat1) as (b' & n' & ? & ? & ?).
    eexists _, _; split_and!; eauto with renoir.
Qed.

(** C11. Whatever the batch mode, the clock, and the calls the timer thread manages to
    interleave (with the channel full or not), a batcher that is created, used and
    ended without the receiver disappearing puts in its channel exactly the elements
    enqueued, once each and in order, in non-empty batches no larger than the mode
    allows, tagged with its coordinate; no other channel is touched. *)
Theorem Batcher_delivers {A} env (ep : ReceiverEndpoint) (m : BatchMode) (c : Coord)
    (ops : list (batcher_op A)) (net : Network A) :
  wf_mode m → ep ∉ disconnected net →
  ∃ b net1 net2 ms,
    run_batcher ops (Batcher_new env ep m c) net = Done (b, net1) ∧
    Batcher_end b net1 = Done net2 ∧
    sent_to net2 ep = sent_to net ep ++ ms ∧ unbatched ms = enqueued ops ∧
    Forall (batch_ok c (max_size m)) ms ∧ net_frame ep net net2.
Proof.
  intros Hm Ha. pose proof (Batcher_new_at env ep m c net Hm Ha) as Hat.
  destruct (run_batcher_at _ _ _ _ ops _ _ _ Hat) as (b & net1 & Hr & Hat1 & Hf1).
  destruct (Batcher_end_at _ _ _ _ _ _ _ Hat1) as (net2 & He & Hf2 & ms & H1 & H2 & H3).
  exists b, net1, net2, ms. split_and!; eauto with renoir.
Qed.

Lemma Batcher_delivers_witness :
  let ep := mkReceiverEndpoint (mkCoord 1 0 0) 0 in
  let env := mkBatcherEnv (λ n, Z.of_nat n) (λ n, [Nat.even n]) in
  let net := mkNetwork (A:=nat) ∅ ∅ in
  ∃ b net1 net2 ms,
    run_batcher [OpEnqueue (Item 1); OpEnqueue (Item 2); OpFlush; OpEnqueue Terminate]
      (Batcher_new env ep (Timed 5 10) (mkCoord 0 0 0)) net = Done (b, net1) ∧
    Batcher_end b net1 = Done net2 ∧
    sent_to net2 ep = [] ++ ms ∧ unbatched ms = [Item 1; Item 2; Terminate] ∧
    Forall (batch_ok (mkCoord 0 0 0) 5) ms ∧ net_frame ep net net2.
Proof.
  intros ep env net.
  refine (Batcher_delivers env ep (Timed 5 10) (mkCoord 0 0 0)
    [OpEnqueue (Item 1); OpEnqueue (Item 2); OpFlush; OpEnqueue Terminate] net _ _).
  - unfold wf_mode; cbn; lia.
  - set_solver.
Defined.
