(* ===== verification/MapAsync.v ===== *)
(** * Asynchronous maps

    [MapAsync] ([src/src/operator/map_async.rs]) evaluates a future for each item.  It
    collects the elements of the stream in a batcher of its own and runs a batch of
    futures at a time, several of them concurrently, with [buffered] of the [futures]
    crate: a parameter, of which only the documented order of the results is used. *)
From S2P Require Import Prelude StreamElement Operator BasicOps Batcher.

(** [stream::iter(l).buffered(n).collect()], driven to its end by [block_on]: at most [n]
    futures are pending at a time, and their results come in the order of the stream. *)
Class Buffered := {
  buffered_collect : ∀ {X : Type}, nat → list (() → X) → list X;
  buffered_in_order {X} n (l : list (() → X)) : 0 < n → buffered_collect n l = (λ future, future ()) <$> l
}.

(** ** [map_async::Batcher] *)
Record AsyncBatcher (A : Type) := mkAsyncBatcher {
  ab_mode : BatchMode;
  ab_buffer : list (StreamElement A);
  ab_last_send : Instant;
  (** how often the clock was read *)
  ab_reads : nat
}.
Global Arguments mkAsyncBatcher {_} _ _ _ _.
Global Arguments ab_mode {_} _.
Global Arguments ab_buffer {_} _.
Global Arguments ab_last_send {_} _.
Global Arguments ab_reads {_} _.

Section batcher.
Context {A : Type} (clock : nat → Instant).
Definition ab_flush (self : AsyncBatcher A) : option (list (StreamElement A)) * AsyncBatcher A :=
  match ab_buffer self with
  | [] => (None, self)
  | batch => (Some batch, mkAsyncBatcher (ab_mode self) [] (clock (ab_reads self)) (S (ab_reads self)))
  end.
Definition ab_push (message : StreamElement A) (reads : nat) (self : AsyncBatcher A) : AsyncBatcher A :=
  mkAsyncBatcher (ab_mode self) (ab_buffer self ++ [message]) (ab_last_send self) reads.
Definition ab_enqueue (message : StreamElement A) (self : AsyncBatcher A)
    : option (list (StreamElement A)) * AsyncBatcher A :=
  match ab_mode self with
  | Adaptive n max_delay | Timed n max_delay =>
      let timeout_elapsed := (max_delay <? clock (ab_reads self) - ab_last_send self)%Z in
      let self := ab_push message (S (ab_reads self)) self in
      if (n <=? length (ab_buffer self)) || timeout_elapsed then ab_flush self else (None, self)
  | Fixed n =>
      let self := ab_push message (ab_reads self) self in
      if n <=? length (ab_buffer self) then ab_flush self else (None, self)
  | Single => (Some [message], self)
  end.
End batcher.

(** ** [MapAsync] *)
Record MapAsync_state (A O : Type) := mkMapAsync {
  ma_batcher : AsyncBatcher A;
  ma_buffer : option (list (StreamElement O));
  ma_buffering : nat
}.
Global Arguments mkMapAsync {_ _} _ _ _.
Global Arguments ma_batcher {_ _} _.
Global Arguments ma_buffer {_ _} _.
Global Arguments ma_buffering {_ _} _.

(** Whether [next] runs what has been collected after this element. *)
Definition flushes {A} (e : StreamElement A) : bool :=
  match e with FlushAndRestart | FlushBatch | Terminate => true | _ => false end.

Section map_async.
Context `{!Buffered} {A O : Type} (prev : Operator A) (clock : nat → Instant) (f : A → O).

(** [MapAsync::new], and the mode that [setup] takes from the metadata; the last batch
    of a new batcher was sent at the origin of time. *)
Definition MapAsync_new (buffer : nat) (mode : BatchMode) : MapAsync_state A O :=
  mkMapAsync (mkAsyncBatcher mode [] 0 0) None buffer.
(** [StreamElement::map_async]. *)
Definition se_map_async (el : StreamElement A) : () → StreamElement O := λ _, se_map f el.
Definition run_batch (b : list (StreamElement A)) (self : MapAsync_state A O) : MapAsync_state A O :=
  mkMapAsync (ma_batcher self) (Some (buffered_collect (ma_buffering self) (se_map_async <$> b))) (ma_buffering self).
Definition run_batch_opt (b : option (list (StreamElement A))) (self : MapAsync_state A O) : MapAsync_state A O :=
  match b with Some b => run_batch b self | None => self end.
Definition set_batcher (b : AsyncBatcher A) (self : MapAsync_state A O) : MapAsync_state A O :=
  mkMapAsync b (ma_buffer self) (ma_buffering self).

(** The body of the loop of [MapAsync::next], once the next element is there. *)
Definition MapAsync_process (el : StreamElement A) (self : MapAsync_state A O) : MapAsync_state A O :=
  let '(b, batcher) := ab_enqueue clock el (ma_batcher self) in
  let self := run_batch_opt b (set_batcher batcher self) in
  if flushes el then
    let '(b, batcher) := ab_flush clock (ma_batcher self) in
    run_batch_opt b (set_batcher batcher self)
  else self.

(** [MapAsync::next]. *)
Fixpoint MapAsync_next (fuel : nat) (q : MapAsync_state A O * op_state prev)
    : outcome (StreamElement O * (MapAsync_state A O * op_state prev)) :=
  match fuel with
  | 0 => OutOfFuel
  | S fuel =>
      let '(self, p) := q in
      match ab_mode (ma_batcher self) with
      | Single => '(el, p) ← op_next prev fuel p; Done (se_map f el, (self, p))
      | _ =>
          match ma_buffer self with
          | Some (el :: rest) => Done (el, (mkMapAsync (ma_batcher self) (Some rest) (ma_buffering self), p))
          | _ =>
              let self := mkMapAsync (ma_batcher self) None (ma_buffering self) in
              '(el, p) ← op_next prev fuel p;
              MapAsync_next fuel (MapAsync_process el self, p)
          end
      end
  end.
Definition MapAsync : Operator O := mkOperator _ MapAsync_next.

(** ** The operator as a transducer *)
Definition ma_clear (self : MapAsync_state A O) : MapAsync_state A O :=
  mkMapAsync (ma_batcher self) None (ma_buffering self).
Definition mapping : transducer A O :=
  mkTransducer (MapAsync_state A O)
    (λ s, if decide (ab_mode (ma_batcher s) = Single) then None
          else match ma_buffer s with
               | Some (el :: rest) => Some (el, mkMapAsync (ma_batcher s) (Some rest) (ma_buffering s))
               | _ => None
               end)
    (λ s x, if decide (ab_mode (ma_batcher s) = Single) then Done (s, Some (se_map f x))
            else Done (MapAsync_process x (ma_clear s), None)).
Global Instance MapAsync_follows : Follows prev mapping MapAsync_next.
Proof.
  constructor; [by intros []|]. intros n s p. unfold drive. cbn. case_decide as E.
  - rewrite E. by destruct (op_next prev n p) as [[]| | |].
  - destruct (ab_mode (ma_batcher s)); try done; (destruct (ma_buffer s) as [[|el rest]|]; [| done | ]);
      by destruct (op_next prev n p) as [[]| | |].
Qed.

(** What an element does to the batch in progress: it joins it, or the batch runs with it. *)
Lemma process_spec x s :
  ab_mode (ma_batcher s) ≠ Single → 0 < ma_buffering s → ma_buffer s = None →
  let s' := MapAsync_process x s in let b := ab_buffer (ma_batcher s) in
  ab_mode (ma_batcher s') = ab_mode (ma_batcher s) ∧ ma_buffering s' = ma_buffering s ∧
  ((ab_buffer (ma_batcher s') = b ++ [x] ∧ ma_buffer s' = None ∧ flushes x = false) ∨
   (ab_buffer (ma_batcher s') = [] ∧ ma_buffer s' = Some (se_map f <$> b ++ [x]))).
Proof.
  intros Hm Hn Hb s' b.
  assert (∀ l, buffered_collect (ma_buffering s) (se_map_async <$> l) = se_map f <$> l) as Hrun.
  { intros l. rewrite buffered_in_order by done. by rewrite <-list_fmap_compose. }
  assert (∀ k, ∃ c, ab_flush clock (ab_push x k (ma_batcher s)) =
    (Some (b ++ [x]), mkAsyncBatcher (ab_mode (ma_batcher s)) [] c (S k))) as Hflush.
  { intros k. exists (clock k). unfold ab_flush. cbn. fold b. by destruct (b ++ [x]) eqn:E; [destruct b|]. }
  assert (∃ k, (∃ c, ab_enqueue clock x (ma_batcher s) =
      (Some (b ++ [x]), mkAsyncBatcher (ab_mode (ma_batcher s)) [] c (S k))) ∨
    ab_enqueue clock x (ma_batcher s) = (None, ab_push x k (ma_batcher s))) as (k & Henq).
  { unfold ab_enqueue. destruct (ab_mode (ma_batcher s)) as [n|n d|n d|] eqn:Em; [| | |done]; eexists;
      (case_match; [left; apply Hflush|by right]). }
  unfold s', MapAsync_process. destruct Henq as [[c ->]| ->].
  - destruct (flushes x); cbn; (split; [done|]); (split; [done|]); right; by rewrite Hrun.
  - destruct (flushes x) eqn:Ef; [|by split_and!; auto].
    destruct (Hflush k) as [c Hc]. cbn. rewrite Hc. cbn. split; [done|]. split; [done|]. right. by rewrite Hrun.
Qed.

Lemma mapping_drain s o :
  ab_mode (ma_batcher s) ≠ Single → ma_buffer s = Some o →
  runs mapping s [] o (mkMapAsync (ma_batcher s) (Some []) (ma_buffering s)).
Proof.
  intros Hm. revert s Hm. induction o as [|e o IH]; intros s Hm Hb.
  - destruct s; cbn in *; subst. constructor.
  - eapply (runs_ready mapping); [|apply (IH (mkMapAsync (ma_batcher s) (Some o) (ma_buffering s)) Hm eq_refl)].
    cbn. rewrite decide_False by done. by rewrite Hb.
Qed.

(** The last element makes the operator give out what it holds back. *)
Definition flushed_by (b l : list (StreamElement A)) : Prop :=
  match l with [] => b = [] | _ => (flushes <$> last l) = Some true end.
Lemma mapping_runs s l :
  ab_mode (ma_batcher s) ≠ Single → 0 < ma_buffering s → (ma_buffer s = None ∨ ma_buffer s = Some []) →
  flushed_by (ab_buffer (ma_batcher s)) l →
  ∃ s', runs mapping s l (se_map f <$> ab_buffer (ma_batcher s) ++ l) s'.
Proof.
  revert s. induction l as [|x l IH]; intros s Hm Hn Hb Hl.
  { cbn in Hl. rewrite Hl. eexists. constructor. }
  destruct (process_spec x (ma_clear s) Hm Hn eq_refl) as (Em & En & Hcase). cbn in Em, En, Hcase.
  set (s1 := MapAsync_process x (ma_clear s)) in *.
  assert (t_ready mapping s = None) as Hr by (cbn; rewrite decide_False by done; by destruct Hb as [-> | ->]).
  assert (t_feed mapping s x = Done (s1, None)) as Hf by (cbn; by rewrite decide_False).
  destruct Hcase as [(Eb & Eo & Ef)|(Eb & Eo)].
  - destruct (IH s1) as [s' Hs']; [by rewrite Em|by rewrite En|by left| |].
    { destruct l as [|y l]; [|done]. cbn in Hl. by rewrite Ef in Hl. }
    exists s'. rewrite Eb, <-app_assoc in Hs'. eapply runs_skip_ne; [done|done| |done].
    by destruct (ab_buffer (ma_batcher s)).
  - pose proof (mapping_drain s1 _ ltac:(by rewrite Em) Eo) as Hd.
    destruct (IH (mkMapAsync (ma_batcher s1) (Some []) (ma_buffering s1))) as [s' Hs'];
      [by cbn; rewrite Em|by cbn; rewrite En|by right| |].
    { by destruct l. }
    cbn in Hs'. rewrite Eb in Hs'. cbn in Hs'. exists s'.
    rewrite (app_assoc _ [x] l : _ ++ x :: l = _), fmap_app.
    eapply runs_skip_ne; [done|done| |].
    + by destruct (ab_buffer (ma_batcher s)).
    + exact (runs_app _ _ _ _ _ _ _ _ Hd Hs').
Qed.
Lemma mapping_runs_single s l :
  ab_mode (ma_batcher s) = Single → runs mapping s l (se_map f <$> l) s.
Proof.
  intros Hm. induction l as [|x l IH]; [constructor|].
  eapply (runs_return mapping); [cbn; by rewrite decide_True|cbn; by rewrite decide_True|done].
Qed.

(** C27. An asynchronous map is [Map], whatever the batch mode, whatever the clock and
    however many futures are pending at a time: a stream that ends with an element that
    flushes comes out element by element as the function makes it, in order, and nothing
    is held back. *)
Theorem MapAsync_map `{!OperatorLaws prev} buffer mode p l e p' :
  0 < buffer → flushes e = true → emits prev p (l ++ [e]) p' →
  ∃ s, emits MapAsync (MapAsync_new buffer mode, p) (se_map f <$> l ++ [e]) (s, p').
Proof.
  intros Hn He Hp. destruct (decide (mode = Single)) as [->|Hm].
  - eexists. eapply (refines_emits prev mapping MapAsync_next); [apply (follows_refines prev mapping MapAsync_next)| |exact Hp].
    by apply mapping_runs_single.
  - destruct (mapping_runs (MapAsync_new buffer mode) (l ++ [e]) Hm Hn) as [s Hs]; [by left| |].
    { unfold flushed_by. rewrite last_snoc. cbn. rewrite He. by destruct l. }
    exists s. eapply (refines_emits prev mapping MapAsync_next); [apply (follows_refines prev mapping MapAsync_next)|exact Hs|exact Hp].
Qed.
End map_async.

(** ** An instance *)
Module Example.
#[local] Instance sequential : Buffered.
Proof. by refine {| buffered_collect X n l := (λ future, future ()) <$> l |}. Defined.
Lemma MapAsync_map_witness :
  let l := [Item 1; Timestamped 2 5; Watermark 5; Item 3; Item 4; FlushAndRestart]%N in
  ∃ s, emits (MapAsync (FakeOperator N) (λ n, Z.of_nat n * 60)%Z N.double)
         (MapAsync_new 4 (Timed 2 100), l ++ [Terminate])
         [Item 2; Timestamped 4 5; Watermark 5; Item 6; Item 8; FlushAndRestart; Terminate]%N (s, []).
Proof.
  intros l. apply (MapAsync_map (FakeOperator N) (λ n, Z.of_nat n * 60)%Z N.double 4 (Timed 2 100) _ l Terminate []).
  - lia.
  - done.
  - apply FakeOperator_emits_all.
Defined.
End Example.
