(* ===== verification/Start.v ===== *)
(** * The start of a block

    [src/src/operator/start/{mod,simple}.rs]: the operator every block begins
    with.  It reads batches from the replicas of the previous blocks, merges their
    watermarks through the frontier, and emits one [FlushAndRestart] and one
    [Terminate] when every replica has sent its own.

    The fields of [struct Start] are grouped in two records: [Start_core], which
    the elements of a batch act upon, and [Start_rx], where the next element comes
    from.

    The network is a script: what arrives in the channel, in order, and the moments
    at which a receive with a timeout expires.  Once the script is over every sender
    is gone, so a receive reports a disconnection. *)
From S2P Require Import Prelude StreamElement Operator Frontier Batcher.

(** ** Receivers *)
Inductive RecvTimeoutError := RecvTimeout | RecvDisconnected.

Inductive net_event (A : Type) :=
| Arrive (m : NetworkMessage A)
| Elapse.
Global Arguments Arrive {_} _.
Global Arguments Elapse {_}.
Abbreviation channel A := (list (net_event A)).

(** [NetworkReceiver::recv]: [None] for [RecvError::Disconnected]. *)
Fixpoint chan_recv {A} (ch : channel A) : option (NetworkMessage A) * channel A :=
  match ch with
  | [] => (None, [])
  | Arrive m :: ch => (Some m, ch)
  | Elapse :: ch => chan_recv ch
  end.

(** [NetworkReceiver::recv_timeout]. *)
Definition chan_recv_timeout {A} (ch : channel A)
    : (NetworkMessage A + RecvTimeoutError) * channel A :=
  match ch with
  | [] => (inr RecvDisconnected, [])
  | Arrive m :: ch => (inl m, ch)
  | Elapse :: ch => (inr RecvTimeout, ch)
  end.

(** [TypeId::of::<T>()]. *)
Class TypeId (A : Type) := type_id : N.

(** [struct ExecutionMetadata]; the network topology is [StartReceiver]'s
    [sr_network]. *)
Record ExecutionMetadata := mkExecutionMetadata {
  em_coord : Coord;
  em_replicas : list Coord;
  em_global_id : N;
  em_prev : list (Coord * N);
  em_batch_mode : BatchMode
}.

(** [trait StartReceiver]. *)
Class StartReceiver (R A : Type) := {
  (** the receiving ends [metadata.network.get_receiver] hands out *)
  sr_network : Type;
  sr_setup : ExecutionMetadata → sr_network → R → outcome R;
  prev_replicas : R → list Coord;
  recv_timeout : Duration → R → outcome ((NetworkMessage A + RecvTimeoutError) * R);
  recv : R → outcome (NetworkMessage A * R)
}.

(** ** [SimpleStartReceiver] *)
Record SimpleStartReceiver (A : Type) := mkSimpleReceiver {
  ss_receiver : option (channel A);
  previous_replicas : list Coord;
  previous_block_id : BlockId
}.
Global Arguments mkSimpleReceiver {_} _ _ _.
Global Arguments ss_receiver {_} _.
Global Arguments previous_replicas {_} _.
Global Arguments previous_block_id {_} _.

Section simple.
Context {A : Type} `{!TypeId A}.
Implicit Types self : SimpleStartReceiver A.

(** [SimpleStartReceiver::new]. *)
Definition SimpleStartReceiver_new (previous_block_id : BlockId) : SimpleStartReceiver A :=
  mkSimpleReceiver None [] previous_block_id.

(** [SimpleStartReceiver::setup]. *)
Definition SimpleStartReceiver_setup (metadata : ExecutionMetadata)
    (get_receiver : ReceiverEndpoint → outcome (channel A)) self
    : outcome (SimpleStartReceiver A) :=
  let in_type := type_id in
  let endpoint := mkReceiverEndpoint (em_coord metadata) (previous_block_id self) in
  receiver ← get_receiver endpoint;
  Done (foldl (λ self '(prev, typ),
          if decide (in_type ≠ typ) then self
          else if decide (block_id prev = previous_block_id self) then
            mkSimpleReceiver (ss_receiver self) (previous_replicas self ++ [prev])
              (previous_block_id self)
          else self)
        (mkSimpleReceiver (Some receiver) (previous_replicas self) (previous_block_id self))
        (em_prev metadata)).

(** [SimpleStartReceiver::recv_timeout]. *)
Definition SimpleStartReceiver_recv_timeout (timeout : Duration) self
    : outcome ((NetworkMessage A + RecvTimeoutError) * SimpleStartReceiver A) :=
  receiver ← unwrap (ss_receiver self);
  let '(res, receiver) := chan_recv_timeout receiver in
  Done (res, mkSimpleReceiver (Some receiver) (previous_replicas self) (previous_block_id self)).

(** [SimpleStartReceiver::recv]. *)
Definition SimpleStartReceiver_recv self : outcome (NetworkMessage A * SimpleStartReceiver A) :=
  receiver ← unwrap (ss_receiver self);
  let '(res, receiver) := chan_recv receiver in
  m ← unwrap res;
  Done (m, mkSimpleReceiver (Some receiver) (previous_replicas self) (previous_block_id self)).

Global Instance SimpleStartReceiver_receiver : StartReceiver (SimpleStartReceiver A) A := {|
  sr_network := ReceiverEndpoint → outcome (channel A);
  sr_setup := SimpleStartReceiver_setup;
  prev_replicas := previous_replicas;
  recv_timeout := SimpleStartReceiver_recv_timeout;
  recv := SimpleStartReceiver_recv
|}.
End simple.

(** ** [Start] *)

(** The fields that the elements of a batch act upon. *)
Record Start_core := mkStartCore {
  st_coord : option Coord;
  missing_terminate : nat;
  missing_flush_and_restart : nat;
  num_previous_replicas : nat;
  flushed_batch : bool;
  watermark_frontier : WatermarkFrontier;
  wait_for_state : bool;
  state_generation : nat
}.

(** The fields that say where the next element comes from. *)
Record Start_rx (R A : Type) := mkStartRx {
  max_delay_rx : option Duration;
  rx_receiver : R;
  batch_iter : option (Coord * list (StreamElement A));
  already_timed_out : bool
}.
Global Arguments mkStartRx {_ _} _ _ _ _.
Global Arguments max_delay_rx {_ _} _.
Global Arguments rx_receiver {_ _} _.
Global Arguments batch_iter {_ _} _.
Global Arguments already_timed_out {_ _} _.

Section start.
Context {R A : Type} `{!StartReceiver R A}.
(** [state_lock]: for the lock of the enclosing iteration, the generations it
    eventually reaches. *)
Context (state_lock : option (nat → bool)).
Implicit Types self : Start_core.
Implicit Types rx : Start_rx R A.

(** [Start::new]. *)
Definition Start_new (receiver : R) : Start_core * Start_rx R A :=
  (mkStartCore None 0 0 0 false (mkFrontier [] None) false 0,
   mkStartRx None receiver None false).

(** [Start::setup]. *)
Definition Start_setup (metadata : ExecutionMetadata) (network : sr_network)
    (q : Start_core * Start_rx R A) : outcome (Start_core * Start_rx R A) :=
  let '(self, rx) := q in
  receiver ← sr_setup metadata network (rx_receiver rx);
  let prev_replicas := prev_replicas receiver in
  let num := length prev_replicas in
  Done (mkStartCore (Some (em_coord metadata)) num num num (flushed_batch self)
          (WatermarkFrontier_new prev_replicas) (wait_for_state self) (state_generation self),
        mkStartRx (max_delay (em_batch_mode metadata)) receiver (batch_iter rx)
          (already_timed_out rx)).

(** The branch of [next] taken when every replica has sent [FlushAndRestart]. *)
Definition Start_restart self : Start_core :=
  mkStartCore (st_coord self) (missing_terminate self) (num_previous_replicas self)
    (num_previous_replicas self) (flushed_batch self) (reset (watermark_frontier self))
    true (state_generation self + 2).

(** The wait for the iteration state: [lock.wait_for_update(self.state_generation)]. *)
Definition Start_wait self : outcome Start_core :=
  if wait_for_state self then
    match state_lock with
    | Some reaches => if reaches (state_generation self) then Done tt else Blocked
    | None => Done tt
    end;;
    Done (mkStartCore (st_coord self) (missing_terminate self) (missing_flush_and_restart self)
      (num_previous_replicas self) (flushed_batch self) (watermark_frontier self) false
      (state_generation self))
  else Done self.

Definition set_frontier self (wf : WatermarkFrontier) : Start_core :=
  mkStartCore (st_coord self) (missing_terminate self) (missing_flush_and_restart self)
    (num_previous_replicas self) (flushed_batch self) wf (wait_for_state self)
    (state_generation self).
Definition set_flushed self (b : bool) : Start_core :=
  mkStartCore (st_coord self) (missing_terminate self) (missing_flush_and_restart self)
    (num_previous_replicas self) b (watermark_frontier self) (wait_for_state self)
    (state_generation self).

(** The [match item] of [next]: [None] stands for [continue]. *)
Definition Start_process self (sender : Coord) (item : StreamElement A)
    : outcome (Start_core * option (StreamElement A)) :=
  match item with
  | Watermark ts =>
      '(o, wf) ← update (watermark_frontier self) sender ts;
      Done (set_frontier self wf, option_map Watermark o)
  | FlushAndRestart =>
      '(_, wf) ← update (watermark_frontier self) sender i64_max;
      n ← usize_sub (missing_flush_and_restart self) 1;
      Done (mkStartCore (st_coord self) (missing_terminate self) n (num_previous_replicas self)
              (flushed_batch self) wf (wait_for_state self) (state_generation self), None)
  | Terminate =>
      n ← usize_sub (missing_terminate self) 1;
      Done (mkStartCore (st_coord self) n (missing_flush_and_restart self) (num_previous_replicas self)
              (flushed_batch self) (watermark_frontier self) (wait_for_state self)
              (state_generation self), None)
  | FlushBatch =>
      if flushed_batch self then Done (self, None)
      else Done (set_flushed self true, Some FlushBatch)
  | _ => Done (set_flushed self false, Some item)
  end.

(** "Receive next batch". *)
Definition Start_receive rx : outcome (Start_rx R A) :=
  '(net_msg, timed_out, receiver) ←
    match already_timed_out rx, max_delay_rx rx with
    | false, Some max_delay =>
        '(res, receiver) ← recv_timeout max_delay (rx_receiver rx);
        match res with
        | inl net_msg => Done (net_msg, already_timed_out rx, receiver)
        | inr _ => Done (new_single FlushBatch coord_default, true, receiver)
        end
    | _, _ =>
        '(net_msg, receiver) ← recv (rx_receiver rx);
        Done (net_msg, false, receiver)
    end;
  Done (mkStartRx (max_delay_rx rx) receiver
          (Some (sender net_msg, data net_msg)) timed_out).

Definition set_batch rx (b : option (Coord * list (StreamElement A))) : Start_rx R A :=
  mkStartRx (max_delay_rx rx) (rx_receiver rx) b (already_timed_out rx).

(** [Start::next]: one unit of fuel per turn of the loop. *)
Fixpoint Start_next (fuel : nat) (q : Start_core * Start_rx R A)
    : outcome (StreamElement A * (Start_core * Start_rx R A)) :=
  match fuel with
  | 0 => OutOfFuel
  | S fuel =>
      let '(self, rx) := q in
      _ ← unwrap (st_coord self);
      if missing_terminate self =? 0 then Done (Terminate, (self, rx))
      else if missing_flush_and_restart self =? 0 then
        Done (FlushAndRestart, (Start_restart self, rx))
      else
        self ← Start_wait self;
        match batch_iter rx with
        | Some (sender, []) => Start_next fuel (self, set_batch rx None)
        | Some (sender, item :: inner) =>
            let rx := set_batch rx (Some (sender, inner)) in
            '(self, o) ← Start_process self sender item;
            match o with
            | Some e => Done (e, (self, rx))
            | None => Start_next fuel (self, rx)
            end
        | None =>
            rx ← Start_receive rx;
            Start_next fuel (self, rx)
        end
  end.
End start.

Definition Start {R A} `{!StartReceiver R A} (state_lock : option (nat → bool)) : Operator A :=
  mkOperator (Start_core * Start_rx R A) (Start_next state_lock).

Global Arguments Start_receive {_ _ _} _ : simpl never.

(** ** The abstract behaviour of [Start]

    [Start_rx] alone is a producer of elements tagged with their sender, and
    [Start_core] alone a transducer of tagged elements; the loop of [next] is the
    second reading from the first. *)
Section abstract.
Context {R A : Type} `{!StartReceiver R A} (state_lock : option (nat → bool)).
Implicit Types self : Start_core.
Implicit Types rx : Start_rx R A.

Fixpoint rx_next (fuel : nat) rx : outcome ((Coord * StreamElement A) * Start_rx R A) :=
  match fuel with
  | 0 => OutOfFuel
  | S fuel =>
      match batch_iter rx with
      | Some (sender, []) => rx_next fuel (set_batch rx None)
      | Some (sender, item :: inner) =>
          Done ((sender, item), set_batch rx (Some (sender, inner)))
      | None => rx ← Start_receive rx; rx_next fuel rx
      end
  end.

Definition incoming : producer (Coord * StreamElement A) :=
  mkOperator (Start_rx R A) rx_next.

Definition starting : gtransducer (Coord * StreamElement A) (StreamElement A) :=
  mkTransducer Start_core
    (λ self,
       if decide (st_coord self = None) then None
       else if missing_terminate self =? 0 then Some (Terminate, self)
       else if missing_flush_and_restart self =? 0 then
         Some (FlushAndRestart, Start_restart self)
       else None)
    (λ self '(sender, item),
       _ ← unwrap (st_coord self);
       self ← Start_wait state_lock self;
       Start_process self sender item).

Lemma rx_next_mono f f' rx : f ≤ f' → fuel_le (rx_next f rx) (rx_next f' rx).
Proof.
  revert f' rx; induction f as [|f IH]; intros [|f'] rx Hle; cbn; try lia;
    eauto with renoir.
  destruct (batch_iter rx) as [[c [|e l]]|]; [apply IH; lia|eauto with renoir|].
  apply fuel_le_bind; [eauto with renoir|]. intros; apply IH; lia.
Qed.

Global Instance incoming_laws : OperatorLaws incoming.
Proof. constructor. intros; by apply rx_next_mono. Qed.

Lemma Start_next_mono f f' q :
  f ≤ f' → fuel_le (Start_next state_lock f q) (Start_next state_lock f' q).
Proof.
  revert f' q; induction f as [|f IH]; intros [|f'] [self rx] Hle; cbn; try lia;
    eauto with renoir.
  assert (∀ q, fuel_le (Start_next state_lock f q) (Start_next state_lock f' q)) as IH'.
  { intros; apply IH; lia. }
  apply fuel_le_bind; [eauto with renoir|]. intros _.
  destruct (missing_terminate self =? 0), (missing_flush_and_restart self =? 0);
    eauto with renoir.
  apply fuel_le_bind; [eauto with renoir|]. intros self1.
  destruct (batch_iter rx) as [[c [|e l]]|]; [done| |].
  - apply fuel_le_bind; [eauto with renoir|]. intros [self2 [o|]]; eauto with renoir.
  - apply fuel_le_bind; [eauto with renoir|]. done.
Qed.

Global Instance Start_laws : OperatorLaws (Start (R:=R) state_lock).
Proof. constructor. intros; by apply Start_next_mono. Qed.

(** Waiting twice is waiting once, and changes nothing that [starting] tests. *)
Lemma Start_wait_spec self self' :
  Start_wait state_lock self = Done self' →
  Start_wait state_lock self' = Done self' ∧ st_coord self' = st_coord self ∧
  missing_terminate self' = missing_terminate self ∧
  missing_flush_and_restart self' = missing_flush_and_restart self.
Proof.
  unfold Start_wait. destruct (wait_for_state self) eqn:E.
  - destruct (match state_lock with Some _ => _ | None => _ end) as [[]| | |]; cbn;
      intros [= <-]; done.
  - intros [= <-]. by rewrite E.
Qed.

(** What one call does once the next tagged element is there. *)
Definition Start_answer self (x : Coord * StreamElement A) (rx : Start_rx R A) (f : nat) :=
  '(self, o) ← t_feed starting self x;
  match o with
  | Some e => Done (e, (self, rx))
  | None => Start_next state_lock f (self, rx)
  end.

Lemma Start_next_reads f self rx x rx' :
  t_ready starting self = None → is_Some (st_coord self) →
  rx_next f rx = Done (x, rx') →
  ∀ f', ∃ f'', f' ≤ f'' ∧
    fuel_le (Start_answer self x rx' f') (Start_next state_lock f'' (self, rx)).
Proof.
  intros Hr [co Hc]. revert self rx Hr Hc; induction f as [|f IH]; intros self rx Hr Hc Hx f';
    [done|].
  assert (missing_terminate self ≠ 0 ∧ missing_flush_and_restart self ≠ 0) as [H1 H2].
  { cbn in Hr. rewrite Hc in Hr. rewrite decide_False in Hr by done.
    destruct (Nat.eqb_spec (missing_terminate self) 0); [done|].
    by destruct (Nat.eqb_spec (missing_flush_and_restart self) 0). }
  apply Nat.eqb_neq in H1 as H1', H2 as H2'.
  assert (∀ self1 rx1, Start_wait state_lock self = Done self1 → rx_next f rx1 = Done (x, rx') →
    ∃ f'', f' ≤ f'' ∧
      fuel_le (Start_answer self x rx' f') (Start_next state_lock f'' (self1, rx1))) as IH'.
  { intros self1 rx1 Hw Hx1. destruct (Start_wait_spec _ _ Hw) as (W1 & W2 & W3 & W4).
    destruct (IH self1 rx1) with f' as (f'' & Hle & Hf); [|congruence|done|].
    - cbn. rewrite W2, W3, W4, Hc, H1', H2', decide_False by done. done.
    - exists f''. split; [done|]. unfold Start_answer in *. destruct x as [c e]. cbn in *.
      rewrite Hc, Hw. rewrite W2, Hc, W1 in Hf. done. }
  cbn in Hx. destruct (Start_wait state_lock self) as [self1| | |] eqn:Hw.
  2-4: exists (S f'); split; [lia|]; unfold Start_answer; destruct x as [c e]; cbn;
    rewrite Hc; cbn; rewrite H1', H2', Hw; eauto with renoir.
  destruct (batch_iter rx) as [[c [|e l]]|] eqn:Hb.
  - destruct (IH' _ _ eq_refl Hx) as (f'' & Hle & Hf). exists (S f''). split; [lia|].
    revert Hf; generalize (Start_answer self x rx' f'); intros ans Hf. cbn.
    rewrite Hc; cbn; rewrite H1', H2', Hw; cbn. rewrite Hb. exact Hf.
  - injection Hx as <- <-. exists (S f'). split; [lia|]. unfold Start_answer. cbn.
    rewrite Hc; cbn. rewrite H1', H2', Hw; cbn. rewrite Hb. eauto with renoir.
  - apply bind_done in Hx as (rx1 & Hrec & Hx).
    destruct (IH' _ _ eq_refl Hx) as (f'' & Hle & Hf). exists (S f''). split; [lia|].
    revert Hf; generalize (Start_answer self x rx' f'); intros ans Hf. cbn.
    rewrite Hc; cbn; rewrite H1', H2', Hw; cbn. rewrite Hb, Hrec. exact Hf.
Qed.

Lemma Start_refines : refines incoming starting (Start_next state_lock).
Proof.
  assert (∀ s x p p1 r f', t_ready starting s = None → Step incoming p x p1 →
    is_Some (st_coord s) → Start_answer s x p1 f' = r → r ≠ OutOfFuel →
    @Finally _ _ incoming starting (Start_next state_lock) (s, p) r) as Hgen.
  { intros s x p p1 r f' H0 [f Hf] Hc Ha Hr.
    destruct (Start_next_reads f s p x p1 H0 Hc Hf f') as (f'' & _ & [Ho|Ho]); [congruence|].
    split; [done|]. exists f''. etransitivity; [symmetry; exact Ho|exact Ha]. }
  split.
  - intros s e s1 p H. split; [done|]. exists 1. cbn in *.
    destruct (st_coord s); [|done]. rewrite decide_False in H by done. cbn.
    by destruct (missing_terminate s =? 0), (missing_flush_and_restart s =? 0); simplify_eq.
  - intros s x s1 e p p1 H0 HS H. destruct x as [c el].
    destruct (st_coord s) as [co|] eqn:Hc; [|by cbn in H; rewrite Hc in H].
    eapply (Hgen _ _ _ _ _ 0); [done..| |done]. unfold Start_answer. by rewrite H.
  - intros s x s1 p p1 r H0 HS H [Hr [f2 H2]]. destruct x as [c el].
    destruct (st_coord s) as [co|] eqn:Hc; [|by cbn in H; rewrite Hc in H].
    eapply (Hgen _ _ _ _ _ f2); [done..| |done]. unfold Start_answer. by rewrite H.
  - intros s x p p1 H0 HS H. destruct x as [c el].
    destruct (st_coord s) as [co|] eqn:Hc.
    + eapply (Hgen _ _ _ _ _ 0); [done..| |done]. unfold Start_answer. by rewrite H.
    + split; [done|]. exists 1. cbn. by rewrite Hc.
Qed.
End abstract.

(** ** Specification *)
Definition is_item {A} (e : StreamElement A) : bool :=
  match e with Item _ | Timestamped _ _ => true | _ => false end.
Definition is_fnr {A} (e : StreamElement A) : bool :=
  match e with FlushAndRestart => true | _ => false end.
Definition is_term {A} (e : StreamElement A) : bool :=
  match e with Terminate => true | _ => false end.

Definition is_flush {A} (e : StreamElement A) : bool :=
  match e with FlushBatch => true | _ => false end.

(** What one sender has put on the network.  [FlushBatch] is never sent: those of a
    trace are the ones a timeout produces, whose sender is meaningless. *)
Definition elems_of {A} (c : Coord) (r : list (Coord * StreamElement A))
    : list (StreamElement A) :=
  omap (λ '(c', e), if is_flush e then None
                    else if decide (c' = c) then Some e else None) r.

(** The watermarks the frontier is updated with: a replica that ended its round no
    longer holds it back. *)
Definition wm_hist {A} (r : list (Coord * StreamElement A)) : list (Coord * Timestamp) :=
  omap (λ '(c, e), match e with
                   | Watermark ts => Some (c, ts)
                   | FlushAndRestart => Some (c, i64_max)
                   | _ => None end) r.

(** After a watermark no item with a smaller or equal timestamp follows. *)
Definition watermark_ok {A} (l : list (StreamElement A)) : Prop :=
  ∀ l1 w l2, l = l1 ++ Watermark w :: l2 → Forall (λ ts, (w < ts)%Z) (omap item_ts l2).

(** How many elements of a kind a tagged trace has. *)
Definition count {A} (P : StreamElement A → bool) (r : list (Coord * StreamElement A)) : nat :=
  length (List.filter P (r.*2)).

(** Every element comes from a previous replica, but for the [FlushBatch] that a
    timeout produces. *)
Definition from_prevs {A} (prevs : list Coord) (r : list (Coord * StreamElement A)) : Prop :=
  Forall (λ x, x.1 ∈ prevs ∨ x.2 = FlushBatch) r.

(** The end of a round: the last replica sends its [FlushAndRestart]; every replica
    has sent data and one [FlushAndRestart]. *)
Record complete_round {A} (prevs : list Coord) (r : list (Coord * StreamElement A)) : Prop := {
  cr_from : from_prevs prevs r;
  cr_last : ∃ r0 c, r = r0 ++ [(c, FlushAndRestart)];
  cr_each c : c ∈ prevs → ∃ d, elems_of c r = d ++ [FlushAndRestart] ∧
    Forall (λ e, is_data e = true) d
}.

(** The last round: every replica has sent data, one [FlushAndRestart] and
    [Terminate], interleaved in any way. *)
Record final_round {A} (prevs : list Coord) (r : list (Coord * StreamElement A)) : Prop := {
  fr_from : from_prevs prevs r;
  fr_last : ∃ r0 c, r = r0 ++ [(c, Terminate)];
  fr_each c : c ∈ prevs → ∃ d, elems_of c r = d ++ [FlushAndRestart; Terminate] ∧
    Forall (λ e, is_data e = true) d
}.

(** The state between two rounds. *)
Record round_start (prevs : list Coord) (s : Start_core) : Prop := {
  rs_coord : is_Some (st_coord s);
  rs_num : num_previous_replicas s = length prevs;
  rs_fnr : missing_flush_and_restart s = length prevs;
  rs_term : missing_terminate s = length prevs;
  rs_frontier : frontier_at prevs [] (watermark_frontier s)
}.

(** The lock of the enclosing iteration, if any, is eventually released. *)
Definition lock_live (state_lock : option (nat → bool)) : Prop :=
  match state_lock with Some reaches => ∀ g, reaches g = true | None => True end.

(** *** Counting *)
Section counting.
Context {A : Type}.
Implicit Types r : list (Coord * StreamElement A).

Lemma count_app P r1 r2 : count P (r1 ++ r2) = count P r1 + count P r2.
Proof. unfold count. by rewrite fmap_app, List.filter_app, length_app. Qed.

Lemma elems_of_app c r1 r2 : elems_of c (r1 ++ r2) = elems_of c r1 ++ elems_of c r2.
Proof. apply omap_app. Qed.

Lemma elems_of_same c e :
  is_flush e = false → elems_of c [(c, e)] = ([e] : list (StreamElement A)).
Proof. intros He. cbn. by rewrite He, decide_True. Qed.

Lemma sum_update (prevs : list Coord) (f g : Coord → nat) c :
  NoDup prevs → c ∈ prevs → (∀ c', c' ≠ c → g c' = f c') → g c = S (f c) →
  sum_list (g <$> prevs) = S (sum_list (f <$> prevs)).
Proof.
  intros Hnd Hin Hne He. induction Hnd as [|c0 prevs Hn Hnd IH]; [by apply elem_of_nil in Hin|].
  csimpl. destruct (decide (c0 = c)) as [->|Hc].
  - rewrite He. cbn. do 2 f_equal. f_equal. apply list_fmap_ext. intros i c' Hi. apply Hne.
    intros ->. apply Hn. by eapply list_elem_of_lookup_2.
  - rewrite IH, Hne by set_solver. lia.
Qed.

(** The elements of a kind are counted replica by replica. *)
Lemma count_by_sender P prevs r :
  NoDup prevs → P FlushBatch = false → from_prevs prevs r →
  count P r = sum_list ((λ c, length (List.filter P (elems_of c r))) <$> prevs).
Proof.
  intros Hnd HP Hr. induction Hr as [|[c e] r Hx Hr IH].
  { unfold count; cbn. clear. induction prevs; csimpl; auto. }
  destruct (P e) eqn:He.
  - transitivity (S (count P r)); [unfold count; csimpl; by rewrite He|]. rewrite IH. symmetry.
    apply (sum_update _ _ _ c); [done|by destruct Hx as [?|Hx]; [|cbn in Hx; congruence]| |].
    + intros c' Hc'. cbn. rewrite decide_False by done. by destruct (is_flush e).
    + cbn. rewrite decide_True by done. destruct e; cbn in *; try congruence; by rewrite He.
  - transitivity (count P r); [unfold count; csimpl; by rewrite He|]. rewrite IH. f_equal.
    apply list_fmap_ext. intros i c' _. cbn. destruct (is_flush e); [done|].
    case_decide; [|done]. cbn. by rewrite He.
Qed.

Lemma sum_const (prevs : list Coord) (f : Coord → nat) :
  (∀ c, c ∈ prevs → f c = 1) → sum_list (f <$> prevs) = length prevs.
Proof.
  induction prevs as [|c prevs IH]; intros Hf; [done|]. csimpl.
  rewrite (Hf c), IH by set_solver. done.
Qed.

Lemma data_no_end (d : list (StreamElement A)) :
  Forall (λ e, is_data e = true) d →
  List.filter is_fnr d = [] ∧ List.filter is_term d = [].
Proof. induction 1 as [|[] d He _ [IH1 IH2]]; cbn in *; done. Qed.

Lemma complete_round_counts prevs r :
  NoDup prevs → complete_round prevs r →
  count is_fnr r = length prevs ∧ count is_term r = 0.
Proof.
  intros Hnd [Hf _ He]. rewrite !(count_by_sender _ prevs) by done. split.
  - apply sum_const. intros c Hc. destruct (He c Hc) as (d & -> & Hd).
    rewrite List.filter_app, (proj1 (data_no_end d Hd)). done.
  - assert (∀ c, c ∈ prevs → length (List.filter is_term (elems_of c r)) = 0) as H0.
    { intros c Hc. destruct (He c Hc) as (d & -> & Hd).
      rewrite List.filter_app, (proj2 (data_no_end d Hd)). done. }
    clear -H0. induction prevs as [|c prevs IH]; [done|]. csimpl.
    rewrite H0, IH by set_solver. done.
Qed.

Lemma final_round_counts prevs r :
  NoDup prevs → final_round prevs r →
  count is_fnr r = length prevs ∧ count is_term r = length prevs.
Proof.
  intros Hnd [Hf _ He]. rewrite !(count_by_sender _ prevs) by done.
  split; apply sum_const; intros c Hc; destruct (He c Hc) as (d & -> & Hd);
    rewrite List.filter_app, ?(proj1 (data_no_end d Hd)), ?(proj2 (data_no_end d Hd)); done.
Qed.
End counting.

(** *** One element *)
Section step.
Context {R A : Type} `{!StartReceiver R A} (state_lock : option (nat → bool)).
Context (Hlock : lock_live state_lock) (prevs : list Coord).
Implicit Types s : Start_core.
Implicit Types h : list (Coord * StreamElement A).

Abbreviation t := (starting (A:=A) state_lock).

(** The state after a prefix [h] of a round. *)
Record core_at h s : Prop := {
  ca_coord : is_Some (st_coord s);
  ca_num : num_previous_replicas s = length prevs;
  ca_fnr : missing_flush_and_restart s + count is_fnr h = length prevs;
  ca_term : missing_terminate s + count is_term h = length prevs;
  ca_frontier : frontier_at prevs (wm_hist h) (watermark_frontier s)
}.

(** What was answered to a prefix of a round: the items in order, the watermarks in
    increasing order, each the greatest one that is safe when it is emitted. *)
Record outs_at h (outs : list (StreamElement A)) s : Prop := {
  oa_data : Forall (λ e, is_data e = true) outs;
  oa_items : List.filter is_item outs = List.filter is_item (h.*2);
  oa_sorted : Sorted Z.lt (omap watermark_ts outs);
  oa_front m : last (omap watermark_ts outs) = Some m →
    ∃ m', front (watermark_frontier s) = Some m' ∧ (m ≤ m')%Z;
  oa_safe o1 w o2 : outs = o1 ++ Watermark w :: o2 →
    ∃ h1 h2, h = h1 ++ h2 ∧ greatest_safe prevs (wm_hist h1) w ∧
      List.filter is_item o2 = List.filter is_item (h2.*2);
  oa_untimed : omap watermark_ts (h.*2) = [] → omap watermark_ts outs = []
}.

Lemma wait_live s :
  ∃ s', Start_wait state_lock s = Done s' ∧ ∀ h, core_at h s → core_at h s' ∧
    watermark_frontier s' = watermark_frontier s.
Proof.
  unfold Start_wait. destruct (wait_for_state s).
  - assert (match state_lock with
      | Some reaches => if reaches (state_generation s) then Done tt else Blocked
      | None => Done tt end = Done tt) as ->.
    { unfold lock_live in Hlock. destruct state_lock; [by rewrite Hlock|done]. }
    eexists. split; [done|]. intros h []; split; [split|]; done.
  - exists s. done.
Qed.

Lemma split_snoc {B} (l : list B) x l1 y l2 :
  l ++ [x] = l1 ++ y :: l2 →
  (l2 = [] ∧ l = l1 ∧ x = y) ∨ ∃ l2', l2 = l2' ++ [x] ∧ l = l1 ++ y :: l2'.
Proof.
  destruct l2 as [|z l2 _] using rev_ind; intros E.
  - left. by apply app_inj_tail in E as [-> ->].
  - right. exists l2. rewrite app_comm_cons, app_assoc in E.
    by apply app_inj_tail in E as [-> ->].
Qed.

(** The answers grow by what one element makes [Start] return. *)
Lemma outs_at_snoc h outs s c e s' (o : option (StreamElement A)) :
  outs_at h outs s →
  (∀ m, front (watermark_frontier s) = Some m →
     ∃ m', front (watermark_frontier s') = Some m' ∧ (m ≤ m')%Z) →
  match o with
  | None => is_item e = false
  | Some (Watermark w) => is_item e = false ∧ watermark_ts e ≠ None ∧ front (watermark_frontier s') = Some w ∧
      greatest_safe prevs (wm_hist (h ++ [(c, e)])) w ∧
      (∀ m, front (watermark_frontier s) = Some m → (m < w)%Z)
  | Some e' => e' = e ∧ is_data e = true
  end →
  outs_at (h ++ [(c, e)]) (outs ++ option_list o) s'.
Proof.
  intros [H1 H2 H3 H4 H5 H6] Hmono Ho.
  assert (omap watermark_ts ((h ++ [(c, e)]).*2) = [] →
    omap watermark_ts (h.*2) = [] ∧ watermark_ts e = None) as Hun.
  { rewrite fmap_app, omap_app. intros [E1 E2]%app_eq_nil. split; [done|].
    cbn in E2. by destruct (watermark_ts e). }
  assert (∀ o1 w o2, outs = o1 ++ Watermark w :: o2 → ∃ h1 h2, h ++ [(c, e)] = h1 ++ h2 ∧
    greatest_safe prevs (wm_hist h1) w ∧
    List.filter is_item o2 ++ List.filter is_item [e] = List.filter is_item (h2.*2)) as H5'.
  { intros o1 w o2 E. destruct (H5 _ _ _ E) as (h1 & h2 & -> & Hg & Hi).
    exists h1, (h2 ++ [(c, e)]). rewrite app_assoc, fmap_app, List.filter_app, Hi. done. }
  assert (∀ m, last (omap watermark_ts outs) = Some m →
    ∃ m', front (watermark_frontier s') = Some m' ∧ (m ≤ m')%Z) as H4'.
  { intros m Hm. destruct (H4 m Hm) as (m1 & Hf & ?). destruct (Hmono _ Hf) as (m2 & ? & ?).
    exists m2. split; [done|lia]. }
  destruct o as [e'|]; cbn [option_list].
  2: { rewrite app_nil_r. split; [done| |done|done| |naive_solver].
    - by rewrite fmap_app, List.filter_app, H2; cbn; rewrite Ho, app_nil_r.
    - intros o1 w o2 E. destruct (H5' _ _ _ E) as (h1 & h2 & ? & ? & Hi).
      exists h1, h2. cbn in Hi. rewrite Ho, app_nil_r in Hi. done. }
  change (option_list (Some e')) with [e'].
  destruct (match e' with Watermark w => true | _ => false end) eqn:Hw.
  - destruct e' as [| |w| | |]; try done. destruct Ho as (He & Hwe & Hf & Hg & Hlt).
    assert (∀ m, last (omap watermark_ts outs) = Some m → (m < w)%Z) as Hlast.
    { intros m Hm. destruct (H4 m Hm) as (m1 & Hf1 & ?). specialize (Hlt _ Hf1). lia. }
    split; rewrite ?omap_app; csimpl.
    + by apply Forall_app; split; [|repeat constructor].
    + rewrite fmap_app, !List.filter_app, H2. cbn. by rewrite He.
    + by apply Sorted_snoc_lt.
    + intros m. rewrite last_snoc. intros [= ->]. eexists; split; [done|lia].
    + intros o1 w' o2 E. apply split_snoc in E as [(-> & -> & [= ->])|(o2' & -> & E)].
      * exists (h ++ [(c, e)]), []. by rewrite app_nil_r.
      * destruct (H5' _ _ _ E) as (h1 & h2 & ? & ? & Hi). exists h1, h2.
        rewrite List.filter_app. cbn in *. rewrite He in Hi. done.
    + intros [_ ?]%Hun. done.
  - assert (e' = e ∧ is_data e = true) as [-> He] by (by destruct e'). clear Ho.
    assert (omap watermark_ts (outs ++ [e]) = omap watermark_ts outs) as Ew.
    { rewrite omap_app. destruct e; try done; csimpl; by rewrite app_nil_r. }
    split; rewrite ?Ew; [ | |done|done| |naive_solver].
    + by apply Forall_app; split; [|repeat constructor].
    + by rewrite fmap_app, !List.filter_app, H2.
    + intros o1 w' o2 E. apply split_snoc in E as [(-> & -> & ->)|(o2' & -> & E)]; [done|].
      destruct (H5' _ _ _ E) as (h1 & h2 & ? & ? & Hi). exists h1, h2.
      by rewrite List.filter_app.
Qed.

Lemma wm_hist_app h1 h2 : wm_hist (h1 ++ h2) = wm_hist h1 ++ wm_hist h2.
Proof. apply omap_app. Qed.

Lemma count_snoc P h c e : count P (h ++ [(c, e)]) = count P h + if P e : bool then 1 else 0.
Proof. rewrite count_app. unfold count at 2. csimpl. by destruct (P e). Qed.

Lemma core_ready h s :
  core_at h s → count is_fnr h < length prevs → count is_term h < length prevs →
  t_ready t s = None.
Proof.
  intros [[co Hc] _ H1 H2 _] ? ?. cbn. rewrite Hc, decide_False by done.
  destruct (Nat.eqb_spec (missing_terminate s) 0); [lia|].
  destruct (Nat.eqb_spec (missing_flush_and_restart s) 0); [lia|done].
Qed.

(** Processing one element of a round. *)
Lemma Start_process_at h outs s c e :
  core_at h s → outs_at h outs s → c ∈ prevs ∨ e = FlushBatch →
  count is_fnr h < length prevs → count is_term h < length prevs →
  ∃ s' o, Start_process s c e = Done (s', o) ∧ core_at (h ++ [(c, e)]) s' ∧
    outs_at (h ++ [(c, e)]) (outs ++ option_list o) s'.
Proof.
  intros Hc Ho Hin Hf Ht. pose proof Hc as [C1 C2 C3 C4 C5].
  assert (∀ m, front (watermark_frontier s) = Some m →
     ∃ m', front (watermark_frontier s) = Some m' ∧ (m ≤ m')%Z) as Hrefl.
  { intros m Hm. eexists; split; [done|lia]. }
  destruct e as [x|x ts|ts| | |]; cbn.
  - eexists _, _. split; [done|]. split.
    + split; rewrite ?count_snoc, ?wm_hist_app, ?app_nil_r; cbn; auto; lia.
    + by eapply outs_at_snoc.
  - eexists _, _. split; [done|]. split.
    + split; rewrite ?count_snoc, ?wm_hist_app, ?app_nil_r; cbn; auto; lia.
    + by eapply outs_at_snoc.
  - destruct Hin as [Hin|]; [|done].
    destruct (frontier_step _ _ _ _ ts C5 Hin) as (o & wf & -> & Hat & Ho'). cbn.
    eexists _, _. split; [done|]. split.
    + split; rewrite ?count_snoc, ?wm_hist_app; cbn; auto; lia.
    + eapply (outs_at_snoc _ _ _ _ _ _ (option_map Watermark o)); [done| |].
      * intros m Hm. by destruct (front_mono _ _ _ _ _ _ C5 Hat Hm) as (m' & ? & ?); eauto.
      * destruct o as [w|]; cbn; [|done]. rewrite wm_hist_app. cbn.
        rewrite <-(frontier_at_safe _ _ _ w Hat).
        destruct (front (watermark_frontier s)) as [old|] eqn:E0,
          (front wf) as [new|] eqn:E1; try done.
        destruct (front_mono _ _ _ _ _ _ C5 Hat E0) as (m' & E2 & Hle).
        rewrite E1 in E2. injection E2 as <-.
        case_decide; [|done]. injection Ho' as ->. split_and!; [done..|].
        intros m [= <-]. lia.
  - destruct (flushed_batch s); eexists _, _; (split; [done|]); split.
    + split; rewrite ?count_snoc, ?wm_hist_app, ?app_nil_r; cbn; auto; lia.
    + by eapply (outs_at_snoc _ _ _ _ _ _ None).
    + split; rewrite ?count_snoc, ?wm_hist_app, ?app_nil_r; cbn; auto; lia.
    + by eapply (outs_at_snoc _ _ _ _ _ _ (Some FlushBatch)).
  - unfold usize_sub. rewrite decide_True by lia. cbn. eexists _, _. split; [done|]. split.
    + split; rewrite ?count_snoc, ?wm_hist_app, ?app_nil_r; cbn; auto; lia.
    + by eapply (outs_at_snoc _ _ _ _ _ _ None).
  - destruct Hin as [Hin|]; [|done].
    destruct (frontier_step _ _ _ _ i64_max C5 Hin) as (o & wf & -> & Hat & _). cbn.
    unfold usize_sub. rewrite decide_True by lia. cbn. eexists _, _. split; [done|]. split.
    + split; rewrite ?count_snoc, ?wm_hist_app; cbn; auto; lia.
    + eapply (outs_at_snoc _ _ _ _ _ _ None); [done| |done].
      intros m Hm. by destruct (front_mono _ _ _ _ _ _ C5 Hat Hm) as (m' & ? & ?); eauto.
Qed.

(** Reading a whole prefix of a round. *)
Lemma Start_feeds s0 l h outs s :
  feeds t s0 h outs s → core_at h s → outs_at h outs s → from_prevs prevs l →
  count is_fnr (h ++ l) < length prevs → count is_term (h ++ l) < length prevs →
  ∃ outs' s', feeds t s0 (h ++ l) outs' s' ∧ core_at (h ++ l) s' ∧ outs_at (h ++ l) outs' s'.
Proof.
  intros Hfd Hc Ho Hl; revert h outs s Hfd Hc Ho.
  induction Hl as [|[c e] l Hin Hl IH]; intros h outs s Hfd Hc Ho Hf Ht.
  { rewrite app_nil_r. eauto. }
  rewrite cons_middle, app_assoc in *. rewrite !count_app in Hf, Ht.
  assert (t_ready t s = None) as Hr by (apply (core_ready h); [done|lia|lia]).
  destruct (wait_live s) as (s1 & Hw & Hat1). destruct (Hat1 h Hc) as [Hc1 Hwf].
  assert (outs_at h outs s1) as Ho1.
  { destruct Ho as [O1 O2 O3 O4 O5 O6]. split; [done..| |done|done]. by rewrite Hwf. }
  destruct (Start_process_at h outs s1 c e) as (s2 & o & Hp & Hc2 & Ho2); [done..|lia|lia|].
  apply (IH (h ++ [(c, e)]) (outs ++ option_list o) s2); [|done|done|by rewrite !count_app..].
  eapply feeds_snoc; [done|done|]. cbn. destruct (ca_coord _ _ Hc) as [co ->]. cbn.
  by rewrite Hw.
Qed.

Lemma round_start_at s : round_start prevs s → core_at [] s ∧ outs_at [] [] s.
Proof.
  intros [H1 H2 H3 H4 H5]. split; split; cbn; try done; try lia; [constructor..|].
  intros o1 w o2 E. by destruct o1.
Qed.

(** Reading up to and including the element that ends a count. *)
Lemma Start_feeds_snoc s0 r0 c e :
  round_start prevs s0 → from_prevs prevs (r0 ++ [(c, e)]) →
  count is_fnr r0 < length prevs → count is_term r0 < length prevs →
  ∃ outs s, feeds t s0 (r0 ++ [(c, e)]) outs s ∧ core_at (r0 ++ [(c, e)]) s ∧
    outs_at (r0 ++ [(c, e)]) outs s.
Proof.
  intros Hs Hfr Hf Ht. destruct (round_start_at _ Hs) as [Hc0 Ho0].
  apply Forall_app in Hfr as [Hfr0 [Hx _]%Forall_cons].
  destruct (Start_feeds s0 r0 [] [] s0) as (outs & s & Hfd & Hc & Ho); [constructor|done..|].
  assert (t_ready t s = None) as Hr by (by apply (core_ready r0)).
  destruct (wait_live s) as (s1 & Hw & Hat1). destruct (Hat1 _ Hc) as [Hc1 Hwf].
  assert (outs_at r0 outs s1) as Ho1.
  { destruct Ho as [O1 O2 O3 O4 O5 O6]. split; [done..| |done|done]. by rewrite Hwf. }
  destruct (Start_process_at r0 outs s1 c e) as (s2 & o & Hp & Hc2 & Ho2); [done..|].
  exists (outs ++ option_list o), s2. split_and!; [|done..].
  eapply feeds_snoc; [done|done|]. cbn. destruct (ca_coord _ _ Hc) as [co ->]. cbn.
  by rewrite Hw.
Qed.

(** The [FlushAndRestart] that follows the last one of the replicas. *)
Lemma Start_restart_ready r s :
  core_at r s → count is_fnr r = length prevs → count is_term r < length prevs →
  t_ready t s = Some (FlushAndRestart, Start_restart s).
Proof.
  intros [[co Hc] _ H1 H2 _] ? ?. cbn. rewrite Hc, decide_False by done.
  destruct (Nat.eqb_spec (missing_terminate s) 0); [lia|].
  destruct (Nat.eqb_spec (missing_flush_and_restart s) 0); [done|lia].
Qed.

(** Between the [FlushAndRestart] of the block and its [Terminate]. *)
Lemma Start_drains l s :
  is_Some (st_coord s) → missing_flush_and_restart s ≠ 0 →
  Forall (λ x : Coord * StreamElement A, x.2 = Terminate ∨ x.2 = FlushBatch) l →
  count is_term l < missing_terminate s →
  ∃ fl s', feeds t s l fl s' ∧ Forall (λ e, e = FlushBatch) fl ∧
    is_Some (st_coord s') ∧ missing_flush_and_restart s' ≠ 0 ∧
    missing_terminate s' = missing_terminate s - count is_term l.
Proof.
  intros Hco Hm Hl; revert s Hco Hm. induction Hl as [|[c e] l Hx Hl IH]; intros s Hco Hm Hlt.
  { exists [], s. split_and!; [constructor|constructor|done..|cbn; lia]. }
  destruct Hco as [co Hco].
  assert (t_ready t s = None) as Hr.
  { cbn. rewrite Hco, decide_False by done. destruct (Nat.eqb_spec (missing_terminate s) 0); [lia|].
    by destruct (Nat.eqb_spec (missing_flush_and_restart s) 0). }
  destruct (wait_live s) as (s1 & Hw & _).
  destruct (Start_wait_spec state_lock _ _ Hw) as (_ & W2 & W3 & W4).
  assert (count is_term ((c, e) :: l) = count is_term l + if is_term e then 1 else 0) as Hcnt.
  { unfold count. csimpl. destruct (is_term e); csimpl; lia. }
  rewrite Hcnt in Hlt |- *.
  assert (∃ s2 o, Start_process s1 c e = Done (s2, o) ∧
    Forall (λ e, e = FlushBatch) (option_list o) ∧ is_Some (st_coord s2) ∧
    missing_flush_and_restart s2 ≠ 0 ∧
    missing_terminate s2 = missing_terminate s - (if is_term e then 1 else 0))
    as (s2 & o & Hp & Hfl & P1 & P2 & P3).
  { destruct Hx as [Hx|Hx]; cbn in Hx; subst e; cbn in *.
    - unfold usize_sub. rewrite decide_True by lia. cbn. eexists _, _.
      split_and!; [done|constructor|cbn; rewrite W2; eauto|cbn; lia|cbn; lia].
    - destruct (flushed_batch s1); eexists _, _;
        (split_and!; [done| |cbn; rewrite W2; eauto|cbn; lia|cbn; lia]); by repeat constructor. }
  destruct (IH s2) as (fl & s' & Hfd & F1 & F2 & F3 & F4); [done|done|lia|].
  exists (option_list o ++ fl), s'. split_and!; [|by apply Forall_app|done|done|lia].
  econstructor; [done| |done]. cbn. rewrite Hco. cbn. by rewrite Hw.
Qed.
End step.

(** *** Where a final round ends *)
Section final.
Context {A : Type}.
Implicit Types r : list (Coord * StreamElement A).

Lemma count_last P r :
  0 < count P r → ∃ r1 x r2, r = r1 ++ x :: r2 ∧ P x.2 = true ∧ count P r2 = 0.
Proof.
  induction r as [|x r IH] using rev_ind; [cbn; lia|]. rewrite count_app.
  destruct (P x.2) eqn:E.
  - intros _. exists r, x, []. done.
  - unfold count at 2. csimpl. rewrite E. cbn. intros H.
    destruct IH as (r1 & y & r2 & -> & ? & H2); [lia|].
    exists r1, y, (r2 ++ [x]). rewrite <-app_assoc. split_and!; [done..|].
    rewrite count_app, H2. unfold count. csimpl. by rewrite E.
Qed.

Lemma final_suffix (l1 l2 d : list (StreamElement A)) :
  l1 ++ l2 = d ++ [FlushAndRestart; Terminate] → List.filter is_fnr l2 = [] →
  l2 = [] ∨ l2 = [Terminate].
Proof.
  change ([FlushAndRestart; Terminate]) with ([FlushAndRestart] ++ [@Terminate A]).
  rewrite app_assoc. destruct l2 as [|x l2 _] using rev_ind; [by left|]. right.
  rewrite app_assoc in H. apply app_inj_tail in H as [H ->].
  destruct l2 as [|y l2 _] using rev_ind; [done|]. exfalso.
  rewrite app_assoc in H. apply app_inj_tail in H as [_ ->].
  rewrite !List.filter_app in H0. cbn in H0. by destruct (List.filter is_fnr l2).
Qed.

Lemma filter_elems_of P c r : count P r = 0 → List.filter P (elems_of c r) = [].
Proof.
  induction r as [|[c' e] r IH]; [done|]. unfold count in *. csimpl.
  destruct (P e) eqn:E; [done|]. intros H. unfold elems_of in *. csimpl.
  destruct (is_flush e); csimpl; [by apply IH|].
  case_decide; csimpl; [by rewrite E; apply IH|by apply IH].
Qed.

Lemma elem_of_elems_of c e r : is_flush e = false → (c, e) ∈ r → e ∈ elems_of c r.
Proof.
  intros He H. apply list_elem_of_omap. exists (c, e). split; [done|].
  by rewrite He, decide_True.
Qed.

Lemma final_split prevs r :
  NoDup prevs → final_round prevs r →
  ∃ r1 c r2, r = r1 ++ (c, FlushAndRestart) :: r2 ∧ c ∈ prevs ∧
    count is_fnr r1 + 1 = length prevs ∧ count is_term r1 < length prevs ∧
    count is_term r1 + count is_term r2 = length prevs ∧
    Forall (λ x, x.2 = Terminate ∨ x.2 = FlushBatch) r2.
Proof.
  intros Hnd Hr. destruct (final_round_counts _ _ Hnd Hr) as [C1 C2].
  pose proof Hr as [Hf (r0 & cl & El) He].
  assert (0 < length prevs) as Hpos.
  { rewrite <-C2, El, count_app. unfold count. cbn. lia. }
  destruct (count_last is_fnr r) as (r1 & [c e] & r2 & -> & Hx & H2); [lia|].
  destruct e; try done. clear El. unfold from_prevs in Hf.
  rewrite Forall_app, Forall_cons in Hf. destruct Hf as (Hf1 & [Hc|Hc] & Hf2); [|done].
  cbn in Hc. rewrite cons_middle, !count_app in C1, C2. rewrite H2 in C1.
  unfold count at 2 in C1. unfold count at 2 in C2. cbn in C1, C2.
  assert (∀ c', c' ∈ prevs → elems_of c' r2 = [] ∨ elems_of c' r2 = [Terminate]) as Hsuf.
  { intros c' Hc'. destruct (He c' Hc') as (d & E & _).
    rewrite cons_middle, app_assoc, elems_of_app in E.
    eapply final_suffix; [exact E|]. by apply filter_elems_of. }
  exists r1, c, r2. split_and!; [done|done|lia| |lia|].
  - destruct (He c Hc) as (d & E & _).
    rewrite cons_middle, !elems_of_app, elems_of_same, app_assoc in E by done.
    destruct (Hsuf c Hc) as [Hn|Hn].
    + rewrite Hn, app_nil_r in E.
      change ([FlushAndRestart; Terminate]) with ([FlushAndRestart] ++ [@Terminate A]) in E.
      rewrite app_assoc in E. by apply app_inj_tail in E as [_ ?].
    + destruct (count is_term r2) eqn:E0; [|lia].
      pose proof (filter_elems_of is_term c r2 E0) as Hfi. by rewrite Hn in Hfi.
  - rewrite Forall_forall in Hf2 |- *. intros [c' e'] Hin. cbn.
    destruct (Hf2 _ Hin) as [Hc'|?]; [|by right]. cbn in Hc'.
    destruct (is_flush e') eqn:Hfl; [right; by destruct e'|].
    apply elem_of_elems_of in Hin; [|done]. destruct (Hsuf c' Hc') as [E|E]; rewrite E in Hin.
    + by apply elem_of_nil in Hin.
    + left. by apply list_elem_of_singleton in Hin.
Qed.
End final.

(** ** Theorems *)

(** The answers to a round, in the words of the documentation of [Start]: the items
    pass in the order of arrival, the watermarks strictly increase, and each is the
    greatest one that every replica has passed when it is emitted. *)
Record round_output {A} (prevs : list Coord) (r : list (Coord * StreamElement A))
    (outs : list (StreamElement A)) : Prop := {
  ro_data : Forall (λ e, is_data e = true) outs;
  ro_items : List.filter is_item outs = List.filter is_item (r.*2);
  ro_sorted : Sorted Z.lt (omap watermark_ts outs);
  ro_safe o1 w o2 : outs = o1 ++ Watermark w :: o2 →
    ∃ h1 h2, r = h1 ++ h2 ∧ greatest_safe prevs (wm_hist h1) w ∧
      List.filter is_item o2 = List.filter is_item (h2.*2);
  ro_untimed : omap watermark_ts (r.*2) = [] → omap watermark_ts outs = []
}.

Lemma outs_at_output {A} prevs (r : list (Coord * StreamElement A)) outs s :
  outs_at prevs r outs s → round_output prevs r outs.
Proof. by intros []. Qed.

Lemma Start_round_runs {A} state_lock prevs s (r : list (Coord * StreamElement A)) :
  lock_live state_lock → NoDup prevs → round_start prevs s → complete_round prevs r →
  ∃ outs s', runs (starting state_lock) s r (outs ++ [FlushAndRestart]) s' ∧
    round_start prevs s' ∧ round_output prevs r outs.
Proof.
  intros Hl Hnd Hs Hr. destruct (complete_round_counts _ _ Hnd Hr) as [C1 C2].
  destruct Hr as [Hf (r0 & c & ->) He]. rewrite count_snoc in C1, C2. cbn in C1, C2.
  destruct (Start_feeds_snoc state_lock Hl prevs s r0 c FlushAndRestart)
    as (outs & s1 & Hfd & Hc & Ho); [done|done|lia|lia|].
  exists outs, (Start_restart s1). split_and!; [| |by eapply outs_at_output].
  - rewrite <-(app_nil_r (r0 ++ _)). eapply feeds_runs; [done|].
    eapply runs_ready; [|constructor].
    eapply Start_restart_ready; [done|rewrite count_snoc; cbn; lia..].
  - destruct Hc as [H1 H2 H3 H4 H5]. rewrite count_snoc in H4. cbn in H4.
    split; cbn; [done|done|done|lia|by eapply frontier_at_reset].
Qed.

Lemma round_output_app {A} prevs (r1 r2 : list (Coord * StreamElement A)) outs :
  round_output prevs r1 outs → Forall (λ x, is_item x.2 = false) r2 →
  round_output prevs (r1 ++ r2) outs.
Proof.
  intros [H1 H2 H3 H4 H5] Hr2.
  assert (List.filter is_item (r2.*2) = []) as E.
  { induction Hr2 as [|[c e] r2 Hx _ IH]; csimpl in *; [done|]. by rewrite Hx. }
  split; [done| |done| |by rewrite fmap_app, omap_app; intros [? _]%app_eq_nil; auto].
  - by rewrite fmap_app, List.filter_app, E, app_nil_r.
  - intros o1 w o2 Eo. destruct (H4 _ _ _ Eo) as (h1 & h2 & -> & ? & Hi).
    exists h1, (h2 ++ r2). rewrite app_assoc, fmap_app, List.filter_app, E, app_nil_r. done.
Qed.

Lemma Start_last_terminate {A} state_lock s c :
  lock_live state_lock → is_Some (st_coord s) → missing_flush_and_restart s ≠ 0 →
  missing_terminate s = 1 →
  ∃ s', runs (starting (A:=A) state_lock) s [(c, Terminate)] [Terminate] s'.
Proof.
  intros Hl [co Hco] Hm Ht. destruct (wait_live (A:=A) state_lock Hl [] s) as (s1 & Hw & _).
  destruct (Start_wait_spec state_lock _ _ Hw) as (_ & W2 & W3 & W4).
  eexists. eapply runs_skip.
  - cbn. rewrite Hco, decide_False, Ht by done. cbn.
    by destruct (Nat.eqb_spec (missing_flush_and_restart s) 0).
  - cbn. rewrite Hco. cbn. rewrite Hw. cbn. rewrite W3, Ht. done.
  - eapply runs_ready; [|constructor]. cbn. by rewrite W2, Hco, decide_False.
Qed.

Lemma Start_final_runs {A} state_lock prevs s (r : list (Coord * StreamElement A)) :
  lock_live state_lock → NoDup prevs → round_start prevs s → final_round prevs r →
  ∃ outs fl s', runs (starting state_lock) s r
      (outs ++ FlushAndRestart :: fl ++ [Terminate]) s' ∧
    Forall (λ e, e = FlushBatch) fl ∧ round_output prevs r outs.
Proof.
  intros Hl Hnd Hs Hr. destruct (final_split _ _ Hnd Hr)
    as (r1 & c & r2 & E & Hc & C1 & C2 & C3 & Hr2).
  destruct Hr as [Hf (r0 & cl & El) He].
  assert (∃ r3, r2 = r3 ++ [(cl, Terminate)]) as [r3 ->].
  { destruct r2 as [|x r3 _] using rev_ind.
    - rewrite El in E. by apply app_inj_tail in E as [_ ?].
    - exists r3. rewrite El, app_comm_cons, app_assoc in E. by apply app_inj_tail in E as [_ <-]. }
  clear El. subst r. rewrite (cons_middle (c, FlushAndRestart)) in Hf |- *. unfold from_prevs in Hf.
  rewrite app_assoc in Hf. apply Forall_app in Hf as [Hf _].
  destruct (Start_feeds_snoc state_lock Hl prevs s r1 c FlushAndRestart)
    as (outs & s1 & Hfd & Hc1 & Ho); [done|done|lia|done|].
  rewrite count_snoc in C3. cbn in C3. apply Forall_app in Hr2 as [Hr3 _].
  pose proof Hc1 as [K1 K2 K3 K4 K5]. rewrite count_snoc in K3, K4. cbn in K3, K4.
  destruct (Start_drains state_lock Hl prevs r3 (Start_restart s1))
    as (fl & s2 & Hfd2 & F1 & [co F2] & F3 & F4); [done|cbn; lia|done|cbn; lia|].
  cbn in F4.
  destruct (Start_last_terminate (A:=A) state_lock s2 cl Hl) as (s3 & Hrun); [by rewrite F2|done|lia|].
  exists outs, fl, s3. split_and!; [|done|].
  - rewrite (app_assoc r1). eapply feeds_runs; [done|].
    eapply (runs_ready _ _ _ _ (r3 ++ [(cl, Terminate)])).
    { eapply Start_restart_ready; [done|rewrite count_snoc; cbn; lia..]. }
    by eapply feeds_runs.
  - rewrite (app_assoc r1). apply round_output_app; [by eapply outs_at_output|].
    apply Forall_app; split; [|by repeat constructor].
    eapply Forall_impl; [done|]. by intros [? ?] [Hx|Hx]; cbn in Hx; subst.
Qed.

(** C6. For any interleaving of the batches of the previous replicas, with any timeouts
    in between: once every replica has ended its round with [FlushAndRestart], the
    block has emitted all the items in order of arrival, strictly increasing
    watermarks, each the greatest one that every replica had passed at that moment,
    and then exactly one [FlushAndRestart]; no counter underflows and the operator is
    ready for the next round. *)
Theorem Start_round {R A} `{!StartReceiver R A} state_lock prevs s rx
    (r : list (Coord * StreamElement A)) rx' :
  lock_live state_lock → NoDup prevs → round_start prevs s → complete_round prevs r →
  emits (incoming (R:=R)) rx r rx' →
  ∃ outs s', emits (Start (R:=R) state_lock) (s, rx) (outs ++ [FlushAndRestart]) (s', rx') ∧
    round_start prevs s' ∧ round_output prevs r outs.
Proof.
  intros Hl Hnd Hs Hr Hrx.
  destruct (Start_round_runs state_lock prevs s r Hl Hnd Hs Hr) as (outs & s' & Hruns & H1 & H2).
  exists outs, s'. split_and!; [|done..].
  by eapply (refines_emits incoming (starting state_lock)); [apply Start_refines| |].
Qed.

(** C8. In the last round, where the replicas also send [Terminate] and those of the fast
    ones arrive while the slow ones still send data: [FlushAndRestart] is emitted once,
    after all the data, then nothing but [FlushBatch] until the one [Terminate]. *)
Theorem Start_terminates {R A} `{!StartReceiver R A} state_lock prevs s rx
    (r : list (Coord * StreamElement A)) rx' :
  lock_live state_lock → NoDup prevs → round_start prevs s → final_round prevs r →
  emits (incoming (R:=R)) rx r rx' →
  ∃ outs fl s', emits (Start (R:=R) state_lock) (s, rx)
      (outs ++ FlushAndRestart :: fl ++ [Terminate]) (s', rx') ∧
    Forall (λ e, e = FlushBatch) fl ∧ round_output prevs r outs.
Proof.
  intros Hl Hnd Hs Hr Hrx.
  destruct (Start_final_runs state_lock prevs s r Hl Hnd Hs Hr)
    as (outs & fl & s' & Hruns & H1 & H2).
  exists outs, fl, s'. split_and!; [|done..].
  by eapply (refines_emits incoming (starting state_lock)); [apply Start_refines| |].
Qed.

(** *** Watermarks *)
Lemma watermark_ok_nil {A} : watermark_ok ([] : list (StreamElement A)).
Proof. intros [] w l2 E; done. Qed.

Lemma watermark_ok_cons {A} (e : StreamElement A) l :
  match e with Watermark w => Forall (λ ts, (w < ts)%Z) (omap item_ts l) | _ => True end →
  watermark_ok l → watermark_ok (e :: l).
Proof.
  intros He Hl [|x l1] w l2 E; cbn in E; injection E as -> ->; [done|]. by eapply Hl.
Qed.

Lemma item_ts_filter {A} (l : list (StreamElement A)) :
  omap item_ts (List.filter is_item l) = omap item_ts l.
Proof. induction l as [|[] l IH]; csimpl; by rewrite ?IH. Qed.

Lemma sent_by_wm_hist {A} c t (h : list (Coord * StreamElement A)) :
  t ∈ sent_by c (wm_hist h) → Watermark t ∈ elems_of c h ∨ FlushAndRestart ∈ elems_of c h.
Proof.
  unfold sent_by, wm_hist, elems_of. rewrite list_elem_of_omap.
  intros ([c' t'] & Hin & Ht). case_decide; [|done]. injection Ht as ->. subst c'.
  apply list_elem_of_omap in Hin as ([c' e] & Hin & He).
  assert (c' = c ∧ (e = Watermark t ∨ e = FlushAndRestart)) as [-> He'] by (destruct e; naive_solver).
  destruct He' as [->| ->]; [left|right]; apply list_elem_of_omap; eexists (c, _);
    (split; [done|cbn; by rewrite decide_True]).
Qed.

(** A watermark that every replica has passed is sound for what is still to come. *)
Lemma round_output_watermark_ok {A} prevs (r : list (Coord * StreamElement A)) outs :
  from_prevs prevs r →
  (∀ c, c ∈ prevs → watermark_ok (elems_of c r) ∧
     ∀ l1 l2, elems_of c r = l1 ++ FlushAndRestart :: l2 → omap item_ts l2 = []) →
  round_output prevs r outs → watermark_ok outs.
Proof.
  intros Hf Hok [_ _ _ Hsafe] o1 w o2 E.
  destruct (Hsafe _ _ _ E) as (h1 & h2 & -> & [Hs _] & Hi).
  rewrite <-(item_ts_filter o2), Hi, item_ts_filter. apply Forall_forall. intros ts Hts.
  apply list_elem_of_omap in Hts as (e & He & Hts). apply list_elem_of_fmap in He as ([c e'] & -> & He).
  destruct e' as [|x ts'| | | |]; try done. cbn in Hts. injection Hts as ->.
  assert (c ∈ prevs) as Hc.
  { apply Forall_app in Hf as [_ Hf]. rewrite Forall_forall in Hf.
    by destruct (Hf _ He) as [?|?]. }
  destruct (Hok c Hc) as [Hok1 Hok2]. rewrite elems_of_app in Hok1, Hok2.
  apply elem_of_elems_of in He; [|done]. apply list_elem_of_split in He as (k1 & k2 & E2).
  rewrite E2 in Hok1, Hok2. destruct (Hs c Hc) as (t' & Ht' & Hle).
  apply sent_by_wm_hist in Ht' as [Hw|Hw]; apply list_elem_of_split in Hw as (j1 & j2 & E1);
    rewrite E1 in Hok1, Hok2.
  - specialize (Hok1 j1 t' (j2 ++ k1 ++ Timestamped x ts :: k2)).
    rewrite <-app_assoc in Hok1. specialize (Hok1 eq_refl).
    rewrite !omap_app in Hok1. csimpl in Hok1.
    apply Forall_app in Hok1 as [_ [_ [? _]%Forall_cons]%Forall_app]. lia.
  - specialize (Hok2 j1 (j2 ++ k1 ++ Timestamped x ts :: k2)).
    rewrite <-app_assoc in Hok2. specialize (Hok2 eq_refl).
    rewrite !omap_app in Hok2. csimpl in Hok2. by destruct (omap item_ts j2), (omap item_ts k1).
Qed.

Lemma complete_round_no_items {A} (d l1 l2 l3 : list (StreamElement A)) :
  Forall (λ e, is_data e = true) d → d ++ FlushAndRestart :: l3 = l1 ++ FlushAndRestart :: l2 →
  omap item_ts l3 = [] → omap item_ts l2 = [].
Proof.
  intros Hd; revert l1. induction Hd as [|e d He _ IH]; intros [|y l1] E; csimpl in *.
  - by injection E as ->.
  - injection E as _ ->. rewrite omap_app. csimpl. by destruct (omap item_ts l1), (omap item_ts l2).
  - injection E as -> _. done.
  - injection E as _ E. eauto.
Qed.

(** C7. Watermarks stay sound through the network: if no previous replica sends an item
    with a timestamp at or below a watermark it sent before, then the merged stream of
    the block has the same property, for any interleaving of the replicas. *)
Theorem Start_watermarks_sound {R A} `{!StartReceiver R A} state_lock prevs s rx
    (r : list (Coord * StreamElement A)) rx' :
  lock_live state_lock → NoDup prevs → round_start prevs s → complete_round prevs r →
  emits (incoming (R:=R)) rx r rx' →
  (∀ c, c ∈ prevs → watermark_ok (elems_of c r)) →
  ∃ outs q, emits (Start (R:=R) state_lock) (s, rx) (outs ++ [FlushAndRestart]) q ∧
    Forall (λ e, is_data e = true) outs ∧ watermark_ok outs.
Proof.
  intros Hl Hnd Hs Hr Hrx Hok.
  destruct (Start_round_runs state_lock prevs s r Hl Hnd Hs Hr) as (outs & s' & Hruns & H1 & H2).
  exists outs, (s', rx'). split_and!; [|apply H2|].
  - by eapply (refines_emits incoming (starting state_lock)); [apply Start_refines| |].
  - apply (round_output_watermark_ok prevs r); [apply Hr| |done].
    intros c Hc. split; [by apply Hok|]. intros l1 l2 E.
    destruct (cr_each _ _ Hr c Hc) as (d & Ed & Hd). rewrite Ed in E.
    by eapply complete_round_no_items.
Qed.

(** ** Reading a batch after the other, for any receiver *)
Section batches.
Context {R A : Type} `{!StartReceiver R A}.

Lemma rx_batch_emits (rx : Start_rx R A) c l inner :
  batch_iter rx = Some (c, l ++ inner) →
  emits (incoming (R:=R)) rx ((λ e, (c, e)) <$> l) (set_batch rx (Some (c, inner))).
Proof.
  revert rx; induction l as [|e l IH]; intros rx Hb; csimpl.
  - destruct rx; cbn in *; subst. constructor.
  - econstructor; [exists 1; cbn; by rewrite Hb|].
    apply (IH (set_batch rx (Some (c, l ++ inner)))). done.
Qed.

Lemma rx_receive_step (rx : Start_rx R A) c rx1 x rx2 :
  batch_iter rx = None ∨ batch_iter rx = Some (c, []) →
  Start_receive (set_batch rx None) = Done rx1 →
  Step (incoming (R:=R)) rx1 x rx2 → Step (incoming (R:=R)) rx x rx2.
Proof.
  intros Hb Hrec [f Hf]. cbn in Hf. destruct Hb as [Hb|Hb].
  - exists (S f). cbn. rewrite Hb. replace (set_batch rx None) with rx in Hrec; [by rewrite Hrec|].
    destruct rx; cbn in *; by subst.
  - exists (S (S f)). cbn. rewrite Hb. cbn. by rewrite Hrec.
Qed.

Lemma rx_receive_emits (rx : Start_rx R A) c rx1 l rx2 :
  batch_iter rx = None ∨ batch_iter rx = Some (c, []) →
  Start_receive (set_batch rx None) = Done rx1 → l ≠ [] →
  emits (incoming (R:=R)) rx1 l rx2 → emits (incoming (R:=R)) rx l rx2.
Proof.
  intros Hb Hrec Hl He. inversion He as [|? x s1 l' ? HS HE]; subst; [done|].
  econstructor; [|done]. by eapply rx_receive_step.
Qed.

(** Two receivers that give the same next batch. *)
Lemma rx_same_emits (rx rx0 : Start_rx R A) c l rx2 :
  batch_iter rx = batch_iter rx0 → batch_iter rx = None ∨ batch_iter rx = Some (c, []) →
  Start_receive (set_batch rx None) = Start_receive (set_batch rx0 None) → l ≠ [] →
  emits (incoming (R:=R)) rx0 l rx2 → emits (incoming (R:=R)) rx l rx2.
Proof.
  intros Hb0 Hb Hrec Hl He. inversion He as [|? x s1 l' ? [f HS] HE]; subst; [done|].
  econstructor; [|done]. exists f. rewrite <-HS. cbn.
  assert (∀ f, rx_next f (set_batch rx None) = rx_next f (set_batch rx0 None)) as Hn.
  { intros [|f']; [done|]. cbn. by rewrite Hrec. }
  assert (∀ rx : Start_rx R A, batch_iter rx = None → set_batch rx None = rx)
    as Hid by (intros []; cbn; by intros ->).
  destruct Hb as [Hb|Hb].
  - rewrite <-(Hid rx), <-(Hid rx0) by congruence. apply Hn.
  - destruct f as [|f]; [done|]. cbn. rewrite <-Hb0, Hb. apply Hn.
Qed.
End batches.

(** ** [SimpleStartReceiver]: what a script of the network delivers *)
Section simple_spec.
Context {A : Type} `{!TypeId A}.

Definition tag (m : NetworkMessage A) : list (Coord * StreamElement A) :=
  (λ e, (sender m, e)) <$> data m.

(** The elements read from a script: a receive that times out yields one
    [FlushBatch], after which the next one waits without a limit. *)
Fixpoint script_elems (delay : option Duration) (timed_out : bool) (ch : channel A)
    : list (Coord * StreamElement A) :=
  match ch with
  | [] => []
  | Arrive m :: ch => tag m ++ script_elems delay false ch
  | Elapse :: ch =>
      match timed_out, delay with
      | false, Some _ => (coord_default, FlushBatch) :: script_elems delay true ch
      | _, _ => script_elems delay timed_out ch
      end
  end.

Definition simple_rx delay timed_out ch b prevs id : Start_rx (SimpleStartReceiver A) A :=
  mkStartRx delay (mkSimpleReceiver (Some ch) prevs id) b timed_out.

(** The script is read to its end, whatever the sizes of its batches. *)
Lemma simple_emits delay prevs id ch timed_out b c0 :
  b = None ∨ b = Some (c0, []) →
  ∃ rx', emits incoming (simple_rx delay timed_out ch b prevs id)
    (script_elems delay timed_out ch) rx'.
Proof.
  revert timed_out b c0. induction ch as [|[m|] ch IH]; intros timed_out b c0 Hb; csimpl.
  - eexists; constructor.
  - destruct (IH false (Some (sender m, [])) (sender m)) as [rx' IH']; [by right|].
    destruct (decide (tag m ++ script_elems delay false ch = [])) as [->|Hne];
      [eexists; constructor|]. exists rx'.
    eapply (rx_receive_emits _ c0 (simple_rx delay false ch (Some (sender m, data m)) prevs id));
      [done| |done|].
    { unfold Start_receive. by destruct timed_out, delay. }
    eapply emits_app; [|exact IH'].
    apply (rx_batch_emits (simple_rx delay false ch _ prevs id) _ (data m) []). cbn.
    by rewrite app_nil_r.
  - destruct (IH timed_out b c0 Hb) as [rx' IH'].
    destruct (decide (timed_out = false ∧ is_Some delay)) as [[-> [d ->]]|Hno].
    + destruct (IH true (Some (coord_default, [])) coord_default) as [rx2 IH2]; [by right|].
      exists rx2. change (?x :: ?l) with ([x] ++ l).
      eapply (rx_receive_emits _ c0 (simple_rx (Some d) true ch
        (Some (coord_default, [FlushBatch])) prevs id)); [done|done|done|].
      eapply emits_app; [|exact IH2].
      by apply (rx_batch_emits (simple_rx (Some d) true ch _ prevs id) _ [FlushBatch] []).
    + assert (script_elems delay timed_out (Elapse :: ch) = script_elems delay timed_out ch) as E.
      { cbn. destruct timed_out, delay; try done. exfalso. apply Hno. eauto. }
      cbn in E. rewrite E.
      destruct (decide (script_elems delay timed_out ch = [])) as [->|Hne];
        [eexists; constructor|]. exists rx'.
      eapply (rx_same_emits _ (simple_rx delay timed_out ch b prevs id) c0); [done..| |done|done].
      unfold Start_receive. destruct timed_out, delay; try done. exfalso. apply Hno. eauto.
Qed.

(** The replicas a receiver listens to. *)
Definition matching (id : BlockId) (l : list (Coord * N)) : list Coord :=
  (base.filter (λ x, type_id = x.2 ∧ block_id x.1 = id) l).*1.

Lemma SimpleStartReceiver_setup_spec md gr id ch :
  gr (mkReceiverEndpoint (em_coord md) id) = Done ch →
  SimpleStartReceiver_setup md gr (SimpleStartReceiver_new id) =
  Done (mkSimpleReceiver (Some ch) (matching id (em_prev md)) id).
Proof.
  intros Hg. unfold SimpleStartReceiver_setup. cbn. rewrite Hg. cbn. f_equal.
  assert (∀ l ps, foldl (λ self '(prev, typ),
          if decide (type_id ≠ typ) then self
          else if decide (block_id prev = previous_block_id self) then
            mkSimpleReceiver (ss_receiver self) (previous_replicas self ++ [prev])
              (previous_block_id self)
          else self) (mkSimpleReceiver (Some ch) ps id) l =
    mkSimpleReceiver (Some ch) (ps ++ matching id l) id) as H; [|apply H].
  induction l as [|[p ty] l IH]; intros ps; cbn [foldl]; [by cbn; rewrite app_nil_r|].
  unfold matching in *. rewrite filter_cons. cbn [fst snd previous_block_id ss_receiver previous_replicas].
  destruct (decide (type_id ≠ ty)) as [Hne|He].
  - rewrite IH. by rewrite decide_False by tauto.
  - apply dec_stable in He. destruct (decide (block_id p = id)) as [Hb|Hb].
    + rewrite IH, decide_True by done. cbn. by rewrite <-app_assoc.
    + rewrite IH. by rewrite decide_False by tauto.
Qed.

(** [setup] leaves the operator ready for a first round. *)
Lemma Start_setup_spec md gr id ch :
  gr (mkReceiverEndpoint (em_coord md) id) = Done ch →
  ∃ s, Start_setup md gr (Start_new (SimpleStartReceiver_new id)) =
    Done (s, simple_rx (max_delay (em_batch_mode md)) false ch None
               (matching id (em_prev md)) id) ∧
    round_start (matching id (em_prev md)) s.
Proof.
  intros Hg. unfold Start_setup, Start_new. cbn -[SimpleStartReceiver_setup].
  rewrite (SimpleStartReceiver_setup_spec _ _ _ _ Hg). cbn.
  eexists. split; [done|]. split; cbn; [done|done|done|done|apply frontier_at_new].
Qed.
End simple_spec.

(** ** An instance of the hypotheses: two replicas, batches interleaved, a timeout *)
Module Example.
Definition a : Coord := mkCoord 0 0 0.
Definition b : Coord := mkCoord 0 0 1.
Global Instance nat_type : TypeId nat := 0%N.

Definition core : Start_core :=
  mkStartCore (Some (mkCoord 1 0 0)) 2 2 2 false (WatermarkFrontier_new [a; b]) false 0.
Definition rx (ch : channel nat) : Start_rx (SimpleStartReceiver nat) nat :=
  simple_rx (Some 50%Z) false ch None [a; b] 0.

Definition round_script : channel nat :=
  [Arrive (mkNetworkMessage a [Timestamped 1 5%Z; Watermark 5%Z]); Elapse;
   Arrive (mkNetworkMessage b [Watermark 3%Z; Timestamped 2 6%Z; FlushAndRestart]);
   Arrive (mkNetworkMessage a [FlushAndRestart])].
Definition final_script : channel nat :=
  [Arrive (mkNetworkMessage b [Item 4; FlushAndRestart; Terminate]);
   Arrive (mkNetworkMessage a [Item 3; FlushAndRestart]); Elapse;
   Arrive (mkNetworkMessage a [Terminate])].

Definition elems (ch : channel nat) : list (Coord * StreamElement nat) :=
  script_elems (Some 50%Z) false ch.

Lemma prevs_NoDup : NoDup [a; b].
Proof. apply NoDup_cons; split; [|apply NoDup_singleton]. by intros ?%list_elem_of_singleton. Qed.

Lemma core_round_start : round_start [a; b] core.
Proof. split; [done..|apply frontier_at_new]. Qed.

Lemma each_of (P : Coord → Prop) : P a → P b → ∀ c, c ∈ [a; b] → P c.
Proof. intros Ha Hb c. rewrite elem_of_cons, list_elem_of_singleton. by intros [->| ->]. Qed.

Lemma round_complete : complete_round [a; b] (elems round_script).
Proof.
  split.
  - repeat constructor; (by right) || (left; cbn; set_solver).
  - by eexists (removelast (elems round_script)), a.
  - apply each_of.
    + exists [Timestamped 1 5%Z; Watermark 5%Z]. split; [done|by repeat constructor].
    + exists [Watermark 3%Z; Timestamped 2 6%Z]. split; [done|by repeat constructor].
Qed.

Lemma round_final : final_round [a; b] (elems final_script).
Proof.
  split.
  - repeat constructor; (by right) || (left; cbn; set_solver).
  - by eexists (removelast (elems final_script)), a.
  - apply each_of.
    + exists [Item 3]. split; [done|by repeat constructor].
    + exists [Item 4]. split; [done|by repeat constructor].
Qed.
End Example.

Lemma Start_round_witness :
  ∃ rx' outs s', emits (Start (R:=SimpleStartReceiver nat) None)
      (Example.core, Example.rx Example.round_script) (outs ++ [FlushAndRestart]) (s', rx') ∧
    round_start [Example.a; Example.b] s' ∧
    round_output [Example.a; Example.b] (Example.elems Example.round_script) outs.
Proof.
  destruct (simple_emits (Some 50%Z) [Example.a; Example.b] 0 Example.round_script false None
    Example.a (or_introl eq_refl)) as [rx' H].
  exists rx'. exact (Start_round None [Example.a; Example.b] Example.core _ _ rx' I
    Example.prevs_NoDup Example.core_round_start Example.round_complete H).
Defined.

Lemma Start_terminates_witness :
  ∃ rx' outs fl s', emits (Start (R:=SimpleStartReceiver nat) None)
      (Example.core, Example.rx Example.final_script)
      (outs ++ FlushAndRestart :: fl ++ [Terminate]) (s', rx') ∧
    Forall (λ e, e = FlushBatch) fl ∧
    round_output [Example.a; Example.b] (Example.elems Example.final_script) outs.
Proof.
  destruct (simple_emits (Some 50%Z) [Example.a; Example.b] 0 Example.final_script false None
    Example.a (or_introl eq_refl)) as [rx' H].
  exists rx'. exact (Start_terminates None [Example.a; Example.b] Example.core _ _ rx' I
    Example.prevs_NoDup Example.core_round_start Example.round_final H).
Defined.

Lemma Start_watermarks_sound_witness :
  ∃ outs q, emits (Start (R:=SimpleStartReceiver nat) None)
      (Example.core, Example.rx Example.round_script) (outs ++ [FlushAndRestart]) q ∧
    Forall (λ e, is_data e = true) outs ∧ watermark_ok outs.
Proof.
  destruct (simple_emits (Some 50%Z) [Example.a; Example.b] 0 Example.round_script false None
    Example.a (or_introl eq_refl)) as [rx' H].
  refine (Start_watermarks_sound None [Example.a; Example.b] Example.core _ _ rx' I
    Example.prevs_NoDup Example.core_round_start Example.round_complete H _).
  apply Example.each_of; repeat (apply watermark_ok_cons; [repeat constructor; lia|]);
    apply watermark_ok_nil.
Defined.
