(* ===== verification/End.v ===== *)
(** * The end of a block

    [src/src/operator/end.rs] and [src/src/operator/route.rs]: the operators a block
    ends with.  They decide which replicas of the next blocks get each element and
    put it in the batcher of that connection; and [src/src/block/next_strategy.rs],
    the strategies they choose by. *)
From S2P Require Import Prelude StreamElement Operator Batcher.

(** ** [NextStrategy] *)
Inductive NextStrategy (A : Type) :=
| OnlyOne
| Random
| GroupBy (keyer : A → N)
| All.
Global Arguments OnlyOne {_}.
Global Arguments Random {_}.
Global Arguments GroupBy {_} _.
Global Arguments All {_}.

(** [NextStrategy::group_by]; [group_by_hash] is the hasher of a third-party crate. *)
Definition group_by {A Key} (group_by_hash : Key → N) (keyer : A → Key) : NextStrategy A :=
  GroupBy (λ item, group_by_hash (keyer item)).

(** [NextStrategy::index]; [rng] lists what [tls_rng().generate()] answers, and the
    second component counts the answers used. *)
Definition index {A} (rng : nat → nat) (self : NextStrategy A) (message : A) (k : nat)
    : nat * nat :=
  match self with
  | OnlyOne | All => (0, k)
  | Random => (rng k, S k)
  | GroupBy keyer => (N.to_nat (keyer message), k)
  end.

(** ** Ordering of the endpoints: the derived [Ord] *)
Definition coord_key (c : Coord) : list N := [block_id c; host_id c; replica_id c].
Definition endpoint_key (e : ReceiverEndpoint) : list N :=
  coord_key (re_coord e) ++ [re_prev_block_id e].

Fixpoint lex_leb (a b : list N) : bool :=
  match a, b with
  | [], _ => true
  | _ :: _, [] => false
  | x :: a, y :: b => if N.eqb x y then lex_leb a b else N.ltb x y
  end.

(** The order by endpoint of the senders. *)
Definition sender_leb {X} (a b : ReceiverEndpoint * X) : bool :=
  lex_leb (endpoint_key a.1) (endpoint_key b.1).

(** The position of every sender, grouped by destination block. *)
Definition group_senders (blocks : list BlockId) : gmap BlockId (list nat) :=
  foldl (λ m '(i, b), <[b := default [] (m !! b) ++ [i]]> m) ∅
    (zip (seq 0 (length blocks)) blocks).

(** ** [End] *)
Record End_state (A : Type) := mkEnd {
  end_coord : option Coord;
  next_strategy : NextStrategy A;
  batch_mode : BatchMode;
  block_senders : list (list nat);
  senders : list (ReceiverEndpoint * Batcher A);
  feedback_id : option BlockId;
  ignore_block_ids : list BlockId;
  rng_used : nat
}.
Global Arguments mkEnd {_} _ _ _ _ _ _ _ _.
Global Arguments end_coord {_} _.
Global Arguments next_strategy {_} _.
Global Arguments batch_mode {_} _.
Global Arguments block_senders {_} _.
Global Arguments senders {_} _.
Global Arguments feedback_id {_} _.
Global Arguments ignore_block_ids {_} _.
Global Arguments rng_used {_} _.

Section code.
Context {A : Type} `{!HashOrder, !Glidesort} (rng : nat → nat).
Implicit Types self : End_state A.
Abbreviation outbox := (list (ReceiverEndpoint * Batcher A) * Network A)%type.

(** [End::new], [mark_feedback], [ignore_destination]. *)
Definition End_new (next_strategy : NextStrategy A) (batch_mode : BatchMode) : End_state A :=
  mkEnd None next_strategy batch_mode [] [] None [] 0.
Definition mark_feedback self (block_id : BlockId) : End_state A :=
  mkEnd (end_coord self) (next_strategy self) (batch_mode self) (block_senders self)
    (senders self) (Some block_id) (ignore_block_ids self) (rng_used self).
Definition ignore_destination self (block_id : BlockId) : End_state A :=
  mkEnd (end_coord self) (next_strategy self) (batch_mode self) (block_senders self)
    (senders self) (feedback_id self) (ignore_block_ids self ++ [block_id]) (rng_used self).

(** [End::setup_senders]. *)
Definition setup_senders self : outcome (End_state A) :=
  let senders := glidesort sender_leb (senders self) in
  let block_senders :=
    match next_strategy self with
    | All => (λ i, [i]) <$> seq 0 (length senders)
    | _ => snd <$> hash_iter (group_senders ((λ s, block_id (re_coord s.1)) <$> senders))
    end in
  match next_strategy self with
  | OnlyOne => rassert (forallb (λ indexes, length indexes =? 1) block_senders)
  | _ => Done tt
  end;;
  Done (mkEnd (end_coord self) (next_strategy self) (batch_mode self) block_senders senders
          (feedback_id self) (ignore_block_ids self) (rng_used self)).

(** [End::setup]; [get_senders] is what [metadata.network.get_senders] answers. *)
Definition End_setup (env : ReceiverEndpoint → BatcherEnv) (coord : Coord)
    (get_senders : list ReceiverEndpoint) self : outcome (End_state A) :=
  let kept := base.filter (λ ep, block_id (re_coord ep) ∉ ignore_block_ids self) get_senders in
  self ← setup_senders
    (mkEnd (end_coord self) (next_strategy self) (batch_mode self) (block_senders self)
       ((λ ep, (ep, Batcher_new (env ep) ep (batch_mode self) coord)) <$> kept)
       (feedback_id self) (ignore_block_ids self) (rng_used self));
  Done (mkEnd (Some coord) (next_strategy self) (batch_mode self) (block_senders self)
          (senders self) (feedback_id self) (ignore_block_ids self) (rng_used self)).

(** [self.senders[sender_idx].1.enqueue(message.clone())]. *)
Definition enqueue_to (sender_idx : nat) (message : StreamElement A) (out : outbox)
    : outcome outbox :=
  let '(senders, net) := out in
  '(ep, b) ← unwrap (senders !! sender_idx);
  '(b, net) ← Batcher_enqueue b message net;
  Done (<[sender_idx := (ep, b)]> senders, net).

(** The loop over the indexes of a block, for a message that is broadcast. *)
Fixpoint broadcast (feedback_id : option BlockId) (message : StreamElement A)
    (indexes : list nat) (out : outbox) : outcome outbox :=
  match indexes with
  | [] => Done out
  | sender_idx :: indexes =>
      sender ← unwrap (out.1 !! sender_idx);
      if match message with
         | Terminate => bool_decide (Some (block_id (re_coord sender.1)) = feedback_id)
         | _ => false
         end
      then broadcast feedback_id message indexes out
      else
        out ← enqueue_to sender_idx message out;
        broadcast feedback_id message indexes out
  end.

(** The loop over the blocks, for a message that goes to one replica of each. *)
Fixpoint direct (message : StreamElement A) (index : nat) (blocks : list (list nat))
    (out : outbox) : outcome outbox :=
  match blocks with
  | [] => Done out
  | indexes :: blocks =>
      match indexes with
      | [] => Panicked
      | _ =>
          sender_idx ← unwrap (indexes !! (index `mod` length indexes));
          out ← enqueue_to sender_idx message out;
          direct message index blocks out
      end
  end.

Fixpoint flush_all (todo : list (ReceiverEndpoint * Batcher A)) (net : Network A)
    : outcome outbox :=
  match todo with
  | [] => Done ([], net)
  | (ep, b) :: todo =>
      '(b, net) ← Batcher_flush b net;
      '(rest, net) ← flush_all todo net;
      Done ((ep, b) :: rest, net)
  end.

Fixpoint end_all (todo : list (ReceiverEndpoint * Batcher A)) (net : Network A)
    : outcome (Network A) :=
  match todo with
  | [] => Done net
  | (ep, b) :: todo => net ← Batcher_end b net; end_all todo net
  end.

(** The first [match] of [End::next]. *)
Definition End_dispatch self (message : StreamElement A) (net : Network A)
    : outcome (End_state A * Network A) :=
  '(out, k) ← match message with
              | Watermark _ | Terminate | FlushAndRestart =>
                  out ← broadcast (feedback_id self) message (concat (block_senders self))
                          (senders self, net);
                  Done (out, rng_used self)
              | Item item | Timestamped item _ =>
                  let '(idx, k) := index rng (next_strategy self) item (rng_used self) in
                  out ← direct message idx (block_senders self) (senders self, net);
                  Done (out, k)
              | FlushBatch => Done ((senders self, net), rng_used self)
              end;
  Done (mkEnd (end_coord self) (next_strategy self) (batch_mode self) (block_senders self)
          out.1 (feedback_id self) (ignore_block_ids self) k, out.2).

Definition set_senders self (s : list (ReceiverEndpoint * Batcher A)) : End_state A :=
  mkEnd (end_coord self) (next_strategy self) (batch_mode self) (block_senders self)
    s (feedback_id self) (ignore_block_ids self) (rng_used self).

(** "Flushing messages". *)
Definition End_flush self (to_return : StreamElement unit) (net : Network A)
    : outcome (End_state A * Network A) :=
  match to_return with
  | FlushAndRestart | FlushBatch =>
      '(s, net) ← flush_all (senders self) net;
      Done (set_senders self s, net)
  | Terminate =>
      _ ← unwrap (end_coord self);
      net ← end_all (senders self) net;
      Done (set_senders self [], net)
  | _ => Done (self, net)
  end.

(** [End::next]. *)
Definition End_next (prev : Operator A) (fuel : nat)
    (q : (End_state A * Network A) * op_state prev)
    : outcome (StreamElement unit * ((End_state A * Network A) * op_state prev)) :=
  match fuel with
  | 0 => OutOfFuel
  | S fuel =>
      let '((self, net), p) := q in
      '(message, p) ← op_next prev fuel p;
      let to_return := variant message in
      '(self, net) ← End_dispatch self message net;
      '(self, net) ← End_flush self to_return net;
      Done (to_return, ((self, net), p))
  end.

(** The loops of [next] on one message, as a transducer without state of its own. *)
Definition ending : transducer A unit :=
  mkTransducer (End_state A * Network A) (λ _, None)
    (λ '(self, net) message,
       '(self, net) ← End_dispatch self message net;
       q ← End_flush self (variant message) net;
       Done (q, Some (variant message))).

Global Instance End_follows (prev : Operator A) : Follows prev ending (End_next prev).
Proof.
  constructor; [by intros [[]]|]. intros f [self net] p. unfold drive. cbn.
  destruct (op_next prev f p) as [[e p1]| | |]; cbn; try done.
  destruct (End_dispatch self e net) as [[self1 net1]| | |]; cbn; try done.
  destruct (End_flush self1 (variant e) net1) as [[self2 net2]| | |]; done.
Qed.
End code.

Definition End {A} (rng : nat → nat) (prev : Operator A) : Operator unit :=
  mkOperator _ (End_next rng prev).

(** ** Specification *)

(** [Terminate] does not go back along a feedback connection. *)
Definition skips {A} (fb : option BlockId) (eps : list ReceiverEndpoint)
    (e : StreamElement A) (i : nat) : bool :=
  match e with
  | Terminate => bool_decide ((λ ep, block_id (re_coord ep)) <$> eps !! i = fb)
  | _ => false
  end.

(** Which senders get an element, and the random answers consumed so far. *)
Definition receivers {A} (rng : nat → nat) (groups : list (list nat)) (strat : NextStrategy A)
    (fb : option BlockId) (eps : list ReceiverEndpoint) (k : nat) (e : StreamElement A)
    : list nat * nat :=
  match e with
  | Watermark _ | FlushAndRestart | Terminate =>
      (List.filter (λ i, negb (skips fb eps e i)) (concat groups), k)
  | Item x | Timestamped x _ =>
      let '(idx, k) := index rng strat x k in
      (omap (λ g, g !! (idx `mod` length g)) groups, k)
  | FlushBatch => ([], k)
  end.

(** What a whole trace sends to the [i]-th sender. *)
Fixpoint delivered_to {A} (rng : nat → nat) groups (strat : NextStrategy A) fb eps (i k : nat)
    (l : list (StreamElement A)) : list (StreamElement A) :=
  match l with
  | [] => []
  | e :: l =>
      let '(ids, k) := receivers rng groups strat fb eps k e in
      (if decide (i ∈ ids) then [e] else []) ++ delivered_to rng groups strat fb eps i k l
  end.

Lemma batcher_at_frame {A} m c ep base (l : list (StreamElement A)) b net net' ep' :
  net_frame ep' net net' → ep ≠ ep' → batcher_at m c ep base l b net →
  batcher_at m c ep base l b net'.
Proof.
  intros [H1 H2] Hne [I1 I2 I3 I4 I5 I6]. split; [done..| | |done].
  - by rewrite H1.
  - by rewrite (H2 ep Hne).
Qed.

Section delivery.
Context {A : Type}.
Context (m : BatchMode) (c : Coord) (base : ReceiverEndpoint → list (NetworkMessage A)).
Implicit Types (out : list (ReceiverEndpoint * Batcher A)) (ls : nat → list (StreamElement A)).

(** Every sender of the list has been given its share [ls i]. *)
Record outbox_at ls out net : Prop := {
  ob_NoDup : NoDup (out.*1);
  ob_at i ep b : out !! i = Some (ep, b) → batcher_at m c ep (base ep) (ls i) b net
}.

(** Only the channels to some endpoints changed. *)
Definition nets_frame (eps : list ReceiverEndpoint) (net net' : Network A) : Prop :=
  disconnected net' = disconnected net ∧ ∀ ep, ep ∉ eps → sent_to net' ep = sent_to net ep.

Lemma nets_frame_refl eps net : nets_frame eps net net.
Proof. by split. Qed.
Lemma nets_frame_trans eps net net1 net2 : nets_frame eps net net1 → nets_frame eps net1 net2 → nets_frame eps net net2.
Proof. intros [E1 F1] [E2 F2]. split; [congruence|]. intros ep Hep. by rewrite F2, F1. Qed.
Lemma nets_frame_one ep eps net net' : net_frame ep net net' → ep ∈ eps → nets_frame eps net net'.
Proof. intros [E F] Hin. split; [done|]. intros ep' Hn. apply F. by intros ->. Qed.

Lemma outbox_ext ls ls' out net :
  (∀ i, ls i = ls' i) → outbox_at ls out net → outbox_at ls' out net.
Proof. intros E [H1 H2]. split; [done|]. intros i ep b. rewrite <-E. apply H2. Qed.

Lemma enqueue_to_at ls out net i e :
  i < length out → outbox_at ls out net →
  ∃ out' net', enqueue_to i e (out, net) = Done (out', net') ∧ out'.*1 = out.*1 ∧
    outbox_at (λ j, ls j ++ if decide (j = i) then [e] else []) out' net' ∧ nets_frame (out.*1) net net'.
Proof.
  intros Hi [H1 H2]. destruct (lookup_lt_is_Some_2 _ _ Hi) as [[ep b] Hb].
  destruct (Batcher_enqueue_at m c ep (base ep) e _ _ _ (H2 _ _ _ Hb))
    as (b' & net' & He & Hat & Hf).
  exists (<[i := (ep, b')]> out), net'. cbn. rewrite Hb. cbn. rewrite He. cbn.
  assert ((<[i := (ep, b')]> out).*1 = out.*1) as Ek.
  { rewrite list_fmap_insert. apply list_insert_id. by rewrite list_lookup_fmap, Hb. }
  split_and!; [done|done| |].
  2:{ eapply nets_frame_one; [done|]. apply list_elem_of_fmap. exists (ep, b). split; [done|]. by eapply list_elem_of_lookup_2. }
  split; [by rewrite Ek|]. intros j ep1 b1. rewrite list_lookup_insert. case_decide as Hj.
  - destruct Hj as [<- _]. rewrite decide_True by done. by intros [= <- <-].
  - intros Hb1. assert (j ≠ i) as Hne by (intros ->; apply Hj; done).
    rewrite decide_False, app_nil_r by done. apply (batcher_at_frame _ _ _ _ _ _ net _ ep); auto.
    intros ->. apply Hne. eapply NoDup_lookup; [exact H1|..]; rewrite list_lookup_fmap;
      [by rewrite Hb1|by rewrite Hb].
Qed.

Lemma broadcast_at fb e ids ls out net :
  NoDup ids → Forall (λ i, i < length out) ids → outbox_at ls out net →
  ∃ out' net', broadcast fb e ids (out, net) = Done (out', net') ∧ out'.*1 = out.*1 ∧
    outbox_at (λ j, ls j ++ if decide (j ∈ List.filter (λ i, negb (skips fb (out.*1) e i)) ids)
                            then [e] else []) out' net' ∧ nets_frame (out.*1) net net'.
Proof.
  intros Hnd. revert ls out net. induction Hnd as [|i ids Hi Hnd IH]; intros ls out net Hlt Hat.
  { exists out, net. split_and!; [done..| |apply nets_frame_refl]. eapply outbox_ext; [|done]. intros j.
    rewrite decide_False, app_nil_r; [done|]. cbn. apply not_elem_of_nil. }
  apply Forall_cons in Hlt as [Hlt Hlts]. cbn [broadcast List.filter].
  destruct (lookup_lt_is_Some_2 _ _ Hlt) as [[ep b] Hb]. cbn [fst]. rewrite Hb. cbn [unwrap mbind outcome_bind fst].
  assert (match e with
          | Terminate => bool_decide (Some (block_id (re_coord ep)) = fb)
          | _ => false end = skips fb (out.*1) e i) as ->.
  { unfold skips. rewrite list_lookup_fmap, Hb. by destruct e. }
  destruct (skips fb (out.*1) e i) eqn:Hs; cbn [negb].
  - destruct (IH ls out net Hlts Hat) as (out' & net' & -> & ? & ?). by exists out', net'.
  - destruct (enqueue_to_at ls out net i e Hlt Hat) as (out1 & net1 & -> & E1 & Hat1 & Hf1).
    cbn [mbind outcome_bind].
    assert (length out1 = length out) as El by (by rewrite <-(length_fmap fst out1), E1, length_fmap).
    assert (Forall (λ i, i < length out1) ids) as Hlt1 by (by rewrite El).
    destruct (IH _ out1 net1 Hlt1 Hat1) as (out' & net' & -> & E2 & Hat2 & Hf2). rewrite E1 in *.
    exists out', net'. split_and!; [done..| |by eapply nets_frame_trans]. eapply outbox_ext; [|exact Hat2].
    intros j. cbn. rewrite <-app_assoc. f_equal.
    destruct (decide (j = i)) as [->|Hj].
    + rewrite (decide_True (P := i ∈ i :: _)) by set_solver.
      rewrite decide_False; [done|]. rewrite list_elem_of_In, filter_In, <-list_elem_of_In. tauto.
    + cbn. apply decide_ext. set_solver.
Qed.

Lemma direct_at e idx groups ls out net :
  NoDup (concat groups) → Forall (λ i, i < length out) (concat groups) →
  Forall (λ g, g ≠ []) groups → outbox_at ls out net →
  ∃ out' net', direct e idx groups (out, net) = Done (out', net') ∧ out'.*1 = out.*1 ∧
    outbox_at (λ j, ls j ++ if decide (j ∈ omap (λ g, g !! (idx `mod` length g)) groups)
                            then [e] else []) out' net' ∧ nets_frame (out.*1) net net'.
Proof.
  revert ls out net. induction groups as [|g groups IH]; intros ls out net Hnd Hlt Hne Hat.
  { exists out, net. split_and!; [done..| |apply nets_frame_refl]. eapply outbox_ext; [|done]. intros j.
    rewrite decide_False, app_nil_r; [done|]. cbn. apply not_elem_of_nil. }
  cbn [concat] in *. apply NoDup_app in Hnd as (Hnd1 & Hdisj & Hnd2).
  apply Forall_app in Hlt as [Hlt1 Hlt2]. apply Forall_cons in Hne as [Hg Hne].
  assert (is_Some (g !! (idx `mod` length g))) as [i Hi].
  { apply lookup_lt_is_Some_2, Nat.mod_upper_bound. by destruct g. }
  assert (i ∈ g) as Hig by (by eapply list_elem_of_lookup_2).
  assert (i < length out) as Hio by (rewrite Forall_forall in Hlt1; auto).
  destruct (enqueue_to_at ls out net i e Hio Hat) as (out1 & net1 & He & E1 & Hat1 & Hf1).
  assert (length out1 = length out) as El by (by rewrite <-(length_fmap fst out1), E1, length_fmap).
  rewrite <-El in Hlt2.
  destruct (IH _ out1 net1 Hnd2 Hlt2 Hne Hat1) as (out' & net' & Hd & E2 & Hat2 & Hf2). rewrite E1 in Hf2.
  exists out', net'. split_and!; [|congruence| |by eapply nets_frame_trans].
  - cbn [direct]. destruct g as [|g0 g]; [done|]. rewrite Hi. cbn [unwrap mbind outcome_bind].
    by rewrite He; cbn [mbind outcome_bind].
  - eapply outbox_ext; [|exact Hat2]. intros j. cbn. rewrite <-app_assoc. f_equal. rewrite Hi.
    destruct (decide (j = i)) as [->|Hj].
    + rewrite (decide_True (P := i ∈ i :: _)) by set_solver. rewrite decide_False; [done|].
      intros (g' & Hg' & Hl)%list_elem_of_omap. apply (Hdisj i Hig).
      apply elem_of_concat. exists g'. split; [done|]. by eapply list_elem_of_lookup_2.
    + cbn. apply decide_ext. set_solver.
Qed.

Lemma batcher_at_frames ep b0 (l : list (StreamElement A)) b net net' eps :
  nets_frame eps net net' → ep ∉ eps → batcher_at m c ep b0 l b net →
  batcher_at m c ep b0 l b net'.
Proof.
  intros [H1 H2] Hne [I1 I2 I3 I4 I5 I6]. split; [done..| | |done].
  - by rewrite H1.
  - by rewrite (H2 ep Hne).
Qed.

Lemma nets_frame_cons ep eps net net1 net' :
  net_frame ep net net1 → nets_frame eps net1 net' → nets_frame (ep :: eps) net net'.
Proof.
  intros [F1 F2] [F3 F4]. split; [congruence|]. intros ep'. rewrite elem_of_cons.
  intros Hn. rewrite F4, F2; tauto.
Qed.

Lemma outbox_cons ls p out net :
  outbox_at ls (p :: out) net →
  batcher_at m c p.1 (base p.1) (ls 0) p.2 net ∧ p.1 ∉ out.*1 ∧
  outbox_at (λ i, ls (S i)) out net.
Proof.
  intros [H1 H2]. csimpl in H1. apply NoDup_cons in H1 as [H1 H3]. split_and!; [|done|].
  - apply H2. by destruct p.
  - split; [done|]. intros i ep b Hb. by apply H2.
Qed.

Lemma outbox_frame ls out net net' ep :
  net_frame ep net net' → ep ∉ out.*1 → outbox_at ls out net → outbox_at ls out net'.
Proof.
  intros Hf Hn [H1 H2]. split; [done|]. intros i ep1 b1 Hb1.
  eapply batcher_at_frame; [done| |by apply H2]. intros ->. apply Hn.
  apply list_elem_of_fmap. exists (ep, b1). split; [done|]. by eapply list_elem_of_lookup_2.
Qed.

Lemma flush_all_at ls out net :
  outbox_at ls out net →
  ∃ out' net', flush_all out net = Done (out', net') ∧ out'.*1 = out.*1 ∧
    outbox_at ls out' net' ∧ nets_frame (out.*1) net net' ∧
    Forall (λ p, buffer (inner_of p.2) = []) out'.
Proof.
  revert ls net. induction out as [|[ep b] out IH]; intros ls net Hat.
  { exists [], net. split_and!; [done..|by split|constructor]. }
  destruct (outbox_cons _ _ _ _ Hat) as (Hb & Hn & Ho). cbn in Hb, Hn.
  destruct (Batcher_flush_at m c ep (base ep) _ _ _ Hb) as (b' & net1 & Hf & Hat1 & Hbuf & Hfr).
  destruct (IH (λ i, ls (S i)) net1) as (out' & net' & Hf2 & E & Ho' & Hfr' & Hbufs).
  { by eapply outbox_frame. }
  exists ((ep, b') :: out'), net'. split_and!.
  - cbn. rewrite Hf. cbn. by rewrite Hf2.
  - csimpl. by rewrite E.
  - split; [csimpl; rewrite E; by destruct Hat|].
    intros [|i] ep1 b1; cbn.
    + intros [= <- <-]. by eapply batcher_at_frames.
    + by apply Ho'.
  - csimpl. by eapply nets_frame_cons.
  - by constructor.
Qed.

Lemma end_all_at ls out net :
  outbox_at ls out net →
  ∃ net', end_all out net = Done net' ∧ nets_frame (out.*1) net net' ∧
    ∀ i ep, out.*1 !! i = Some ep → ∃ ms, sent_to net' ep = base ep ++ ms ∧
      Forall (batch_ok c (max_size m)) ms ∧ unbatched ms = ls i.
Proof.
  revert ls net. induction out as [|[ep b] out IH]; intros ls net Hat.
  { exists net. split_and!; [done|by split|]. by intros i ep. }
  destruct (outbox_cons _ _ _ _ Hat) as (Hb & Hn & Ho). cbn in Hb, Hn.
  destruct (Batcher_end_at m c ep (base ep) _ _ _ Hb) as (net1 & He & Hfr & Hms).
  destruct (IH (λ i, ls (S i)) net1) as (net' & He2 & Hfr' & Hall).
  { by eapply outbox_frame. }
  exists net'. split_and!.
  - cbn. rewrite He. done.
  - csimpl. by eapply nets_frame_cons.
  - intros [|i] ep1; csimpl; [|by apply Hall]. intros [= <-].
    destruct Hms as (ms & ? & ?). exists ms. by rewrite (proj2 Hfr') by done.
Qed.

(** *** The operator *)
Context (rng : nat → nat) (groups : list (list nat)) (strat : NextStrategy A) (fb : option BlockId)
  (eps : list ReceiverEndpoint).
Context (Hnd : NoDup (concat groups)) (Hlt : Forall (λ i, i < length eps) (concat groups))
  (Hne : Forall (λ g, g ≠ []) groups).

Record end_at (k : nat) ls (q : End_state A * Network A) : Prop := {
  ea_coord : is_Some (end_coord q.1);
  ea_groups : block_senders q.1 = groups;
  ea_strat : next_strategy q.1 = strat;
  ea_fb : feedback_id q.1 = fb;
  ea_eps : (senders q.1).*1 = eps;
  ea_rng : rng_used q.1 = k;
  ea_box : outbox_at ls (senders q.1) q.2;
  ea_rest ep : ep ∉ eps → sent_to q.2 ep = base ep
}.

(** One message goes to exactly the senders [receivers] names. *)
Lemma End_dispatch_at k ls q e :
  end_at k ls q →
  ∃ q', End_dispatch rng q.1 e q.2 = Done q' ∧
    end_at (receivers rng groups strat fb eps k e).2
      (λ i, ls i ++ if decide (i ∈ (receivers rng groups strat fb eps k e).1) then [e] else []) q'.
Proof.
  intros [H1 H2 H3 H4 H5 H6 H7 H8]. destruct q as [self net]; cbn [fst snd] in *.
  assert (length (senders self) = length eps) as El by (by rewrite <-H5, length_fmap).
  assert (Forall (λ i, i < length (senders self)) (concat groups)) as Hlt' by (by rewrite El).
  assert (∀ e', ∃ out' net', broadcast fb e' (concat groups) (senders self, net) =
    Done (out', net') ∧ out'.*1 = eps ∧ outbox_at (λ j, ls j ++
      if decide (j ∈ List.filter (λ i, negb (skips fb eps e' i)) (concat groups))
      then [e'] else []) out' net' ∧ ∀ ep, ep ∉ eps → sent_to net' ep = base ep) as Hbc.
  { intros e'. destruct (broadcast_at fb e' (concat groups) ls (senders self) net Hnd Hlt' H7)
      as (out' & net' & ? & ? & Hat & [_ Hf]). rewrite H5 in *. exists out', net'. split_and!; try done.
    intros ep Hep. by rewrite Hf, H8. }
  assert (∀ e' idx, ∃ out' net', direct e' idx groups (senders self, net) =
    Done (out', net') ∧ out'.*1 = eps ∧ outbox_at (λ j, ls j ++
      if decide (j ∈ omap (λ g, g !! (idx `mod` length g)) groups) then [e'] else []) out' net' ∧
    ∀ ep, ep ∉ eps → sent_to net' ep = base ep) as Hdi.
  { intros e' idx. destruct (direct_at e' idx groups ls (senders self) net Hnd Hlt' Hne H7)
      as (out' & net' & ? & ? & Hat & [_ Hf]). rewrite H5 in *. exists out', net'. split_and!; try done.
    intros ep Hep. by rewrite Hf, H8. }
  unfold End_dispatch, receivers. rewrite H2, H3, H4, H6.
  destruct e as [x|x ts|ts| | |].
  - destruct (index rng strat x k) as [idx k']. destruct (Hdi (Item x) idx) as (out' & net' & -> & ? & ? & ?).
    eexists; split; [done|]. by split.
  - destruct (index rng strat x k) as [idx k'].
    destruct (Hdi (Timestamped x ts) idx) as (out' & net' & -> & ? & ? & ?).
    eexists; split; [done|]. by split.
  - destruct (Hbc (Watermark ts)) as (out' & net' & -> & ? & ? & ?). eexists; split; [done|]. by split.
  - eexists; split; [done|]. split; cbn; try done.
    eapply outbox_ext; [|done]. intros i. rewrite decide_False, app_nil_r; [done|].
    apply not_elem_of_nil.
  - destruct (Hbc Terminate) as (out' & net' & -> & ? & ? & ?). eexists; split; [done|]. by split.
  - destruct (Hbc FlushAndRestart) as (out' & net' & -> & ? & ? & ?). eexists; split; [done|]. by split.
Qed.

Lemma End_feed_at k ls q e :
  e ≠ Terminate → end_at k ls q →
  ∃ q', t_feed (ending rng) q e = Done (q', Some (variant e)) ∧
    end_at (receivers rng groups strat fb eps k e).2
      (λ i, ls i ++ if decide (i ∈ (receivers rng groups strat fb eps k e).1) then [e] else []) q'.
Proof.
  intros He Hat. destruct (End_dispatch_at k ls q e Hat) as ([self1 net1] & Hd & Hat1).
  destruct q as [self net]. cbn [fst snd] in Hd. cbn. rewrite Hd. cbn.
  destruct Hat1 as [H1 H2 H3 H4 H5 H6 H7 H8]; cbn [fst snd] in *.
  destruct (flush_all_at _ _ _ H7) as (out' & net' & Hf & E & Ho & [_ Hfr] & _). rewrite H5 in Hfr.
  assert (∀ ep, ep ∉ eps → sent_to net' ep = base ep) as H8' by (intros ep Hep; by rewrite Hfr, H8).
  destruct e; cbn [variant End_flush]; try done; rewrite ?Hf; cbn;
    eexists; (split; [done|]); split; cbn; congruence || done.
Qed.

Lemma End_runs l k ls q :
  Forall (λ e, e ≠ Terminate) l → end_at k ls q →
  ∃ q', runs (ending rng) q (l ++ [Terminate]) (variant <$> (l ++ [Terminate])) q' ∧
    (∀ i ep, eps !! i = Some ep → ∃ ms, sent_to q'.2 ep = base ep ++ ms ∧
      Forall (batch_ok c (max_size m)) ms ∧
      unbatched ms = ls i ++ delivered_to rng groups strat fb eps i k (l ++ [Terminate])) ∧
    ∀ ep, ep ∉ eps → sent_to q'.2 ep = base ep.
Proof.
  intros Hl; revert k ls q. induction Hl as [|e l He Hl IH]; intros k ls q Hat.
  - destruct (End_dispatch_at k ls q Terminate Hat) as ([self1 net1] & Hd & Hat1).
    destruct Hat1 as [[co H1] H2 H3 H4 H5 H6 H7 H8]; cbn [fst snd] in *.
    destruct (end_all_at _ _ _ H7) as (net' & He & [_ Hfr] & Hall). rewrite H5 in Hfr.
    exists (set_senders self1 [], net'). split_and!; [| |intros ep Hep; cbn; by rewrite Hfr, H8].
    + csimpl. eapply runs_return; [done| |constructor]. destruct q as [self net]. cbn in *.
      rewrite Hd. cbn. rewrite H1. cbn. by rewrite He.
    + intros i ep Hep. rewrite H5 in Hall. destruct (Hall i ep Hep) as (ms & ? & ? & Hu).
      exists ms. split_and!; [done..|]. rewrite Hu. cbn. f_equal. by rewrite app_nil_r.
  - destruct (End_feed_at k ls q e He Hat) as (q1 & Hf & Hat1).
    destruct (IH _ _ _ Hat1) as (q' & Hr & Hall & Hrest). exists q'. split_and!; [| |done].
    + csimpl. by eapply runs_return.
    + intros i ep Hep. destruct (Hall i ep Hep) as (ms & ? & ? & Hu). exists ms.
      split_and!; [done..|]. rewrite Hu. csimpl.
      destruct (receivers rng groups strat fb eps k e) as [ids k']. cbn. by rewrite app_assoc.
Qed.
End delivery.

(** ** Setting up the senders *)
Lemma zip_seq_snoc {X} (l : list X) x n :
  zip (seq n (length (l ++ [x]))) (l ++ [x]) = zip (seq n (length l)) l ++ [(n + length l, x)].
Proof.
  rewrite length_app, seq_app. cbn. rewrite zip_with_app by (by rewrite length_seq). done.
Qed.

(** A group holds the positions of the senders of one block, each once. *)
Lemma group_senders_spec blocks b :
  match group_senders blocks !! b with
  | Some g => g ≠ [] ∧ NoDup g ∧ ∀ i, i ∈ g ↔ blocks !! i = Some b
  | None => b ∉ blocks
  end.
Proof.
  unfold group_senders. induction blocks as [|b' blocks IH] using rev_ind.
  { cbn. rewrite lookup_empty. apply not_elem_of_nil. }
  rewrite zip_seq_snoc, foldl_app. cbn.
  set (f := foldl _ _ _) in *. rewrite lookup_insert. case_decide as Hb; [subst b'|].
  - assert (∀ i, i ∈ default [] (f !! b) ↔ blocks !! i = Some b) as Hin.
    { destruct (f !! b) as [g|] eqn:E; cbn; [apply IH|]. intros i. split.
      - by intros ?%elem_of_nil.
      - intros Hi. exfalso. apply IH. by eapply list_elem_of_lookup_2. }
    split_and!; [by destruct (default [] (f !! b))| |].
    + apply NoDup_app. split_and!; [|intros i Hi|apply NoDup_singleton].
      * destruct (f !! b); [apply IH|apply NoDup_nil_2].
      * apply Hin, lookup_lt_Some in Hi. rewrite list_elem_of_singleton. lia.
    + intros i. rewrite elem_of_app, Hin, list_elem_of_singleton, lookup_snoc_Some.
      split; [intros [Hi| ->]|intros [[? ?]|[-> _]]]; [left|right|by left|by right]; [|done].
      split; [by eapply lookup_lt_Some|done].
  - destruct (f !! b) as [g|].
    + destruct IH as (H1 & H2 & H3). split_and!; [done..|]. intros i.
      rewrite H3, lookup_snoc_Some. split; [intros Hi; left|intros [[? ?]|[_ ?]]; [done|congruence]].
      split; [by eapply lookup_lt_Some|done].
    + rewrite elem_of_app, list_elem_of_singleton. naive_solver.
Qed.

Lemma NoDup_concat_keyed (l : list (BlockId * list nat)) (blocks : list BlockId) :
  NoDup (l.*1) → (∀ b g, (b, g) ∈ l → NoDup g ∧ ∀ i, i ∈ g → blocks !! i = Some b) →
  NoDup (concat (l.*2)).
Proof.
  induction l as [|[b g] l IH]; csimpl; intros Hk Hg; [constructor|].
  apply NoDup_cons in Hk as [Hb Hk]. apply NoDup_app. split_and!.
  - apply (Hg b g). left.
  - intros i Hi Hin. apply elem_of_concat in Hin as (g' & Hg' & Hi').
    apply list_elem_of_fmap in Hg' as ([b' g''] & -> & Hin'). cbn in Hi'.
    assert (blocks !! i = Some b) as E1 by (eapply Hg; [left|done]).
    assert (blocks !! i = Some b') as E2 by (eapply (Hg b' g''); [by right|done]).
    apply Hb, list_elem_of_fmap. exists (b', g''). split; [cbn; congruence|done].
  - apply IH; [done|]. intros; apply Hg. by right.
Qed.

(** What [setup_senders] guarantees, for every order of the hash map: the groups
    are disjoint, non-empty and made of positions of senders. *)
Record groups_ok (groups : list (list nat)) (n : nat) : Prop := {
  go_NoDup : NoDup (concat groups);
  go_lt : Forall (λ i, i < n) (concat groups);
  go_ne : Forall (λ g, g ≠ []) groups
}.

Lemma hash_groups_in `{!HashOrder} blocks b g :
  (b, g) ∈ hash_iter (group_senders blocks) ↔ group_senders blocks !! b = Some g.
Proof. by rewrite hash_iter_perm, elem_of_map_to_list. Qed.

Lemma hash_groups_ok `{!HashOrder} blocks :
  groups_ok (snd <$> hash_iter (group_senders blocks)) (length blocks).
Proof.
  assert (∀ b g, (b, g) ∈ hash_iter (group_senders blocks) →
    g ≠ [] ∧ NoDup g ∧ ∀ i, i ∈ g ↔ blocks !! i = Some b) as Hg.
  { intros b g Hin%hash_groups_in. pose proof (group_senders_spec blocks b) as Hgs.
    by rewrite Hin in Hgs. }
  split.
  - apply (NoDup_concat_keyed _ blocks).
    + rewrite hash_iter_perm. apply NoDup_fst_map_to_list.
    + intros b g Hin. destruct (Hg _ _ Hin) as (_ & ? & Hi). split; [done|]. intros i. apply Hi.
  - apply Forall_forall. intros i Hi.
    apply elem_of_concat in Hi as (g & Hin & Hi).
    apply list_elem_of_fmap in Hin as ([b g'] & -> & Hin). destruct (Hg _ _ Hin) as (_ & _ & Hgi).
    apply Hgi in Hi. by eapply lookup_lt_Some.
  - apply Forall_forall. intros g Hin. apply list_elem_of_fmap in Hin as ([b g'] & -> & Hin).
    by destruct (Hg _ _ Hin).
Qed.

Lemma all_groups_ok n : groups_ok ((λ i, [i]) <$> seq 0 n) n.
Proof.
  assert (concat ((λ i, [i]) <$> seq 0 n) = seq 0 n) as E.
  { induction (seq 0 n); csimpl; congruence. }
  split; rewrite ?E.
  - apply NoDup_seq.
  - apply Forall_forall. intros i Hi%elem_of_seq. lia.
  - apply Forall_fmap, Forall_forall. done.
Qed.

(** The state [setup] leaves. *)
Lemma End_setup_at {A} `{!HashOrder, !Glidesort} env coord get_senders (self0 self : End_state A) net :
  End_setup env coord get_senders self0 = Done self →
  NoDup get_senders → wf_mode (batch_mode self0) → rng_used self0 = 0 →
  (∀ ep, ep ∈ get_senders → ep ∉ disconnected net) →
  let eps := (senders self).*1 in
  groups_ok (block_senders self) (length eps) ∧
  eps ≡ₚ base.filter (λ ep, block_id (re_coord ep) ∉ ignore_block_ids self0) get_senders ∧
  end_at (batch_mode self0) coord (sent_to net) (block_senders self) (next_strategy self0)
    (feedback_id self0) eps 0 (λ _, []) (self, net).
Proof.
  intros Hs Hnd Hm Hk Hal. unfold End_setup, setup_senders in Hs.
  cbn -[glidesort group_senders rassert] in Hs.
  set (kept := base.filter _ get_senders) in *.
  set (fresh := (λ ep, (ep, Batcher_new (env ep) ep (batch_mode self0) coord)) <$> kept) in *.
  set (ss := glidesort _ fresh) in *.
  assert (ss ≡ₚ fresh) as Hp by apply glidesort_perm.
  assert (fresh.*1 = kept) as Ek.
  { unfold fresh. rewrite <-list_fmap_compose. apply list_fmap_id. }
  assert (ss.*1 ≡ₚ kept) as Hp1 by (by rewrite <-Ek, Hp).
  apply bind_done in Hs as (self1 & Hs1 & [= <-]).
  apply bind_done in Hs1 as ([] & _ & [= <-]). cbn [senders block_senders].
  assert (outbox_at (batch_mode self0) coord (sent_to net) (λ _, []) ss net) as Hbox.
  { split; [rewrite Hp1; by apply NoDup_filter|]. intros i ep b Hi.
    apply list_elem_of_lookup_2 in Hi. rewrite Hp in Hi.
    apply list_elem_of_fmap in Hi as (ep' & [= -> ->] & Hin).
    apply list_elem_of_filter in Hin as [_ Hin].
    apply Batcher_new_at; auto. }
  split_and!; [|done|by split].
  rewrite length_fmap. destruct (next_strategy self0);
    [| | |apply all_groups_ok];
    (rewrite <-(length_fmap (λ s, block_id (re_coord s.1)) ss); apply hash_groups_ok).
Qed.

(** What a block has sent when its stream ends. *)
Lemma End_emits {A} `{!HashOrder, !Glidesort} rng env coord get_senders (self0 self : End_state A)
    net (prev : Operator A) `{!OperatorLaws prev} p l p' :
  End_setup env coord get_senders self0 = Done self →
  NoDup get_senders → wf_mode (batch_mode self0) → rng_used self0 = 0 →
  (∀ ep, ep ∈ get_senders → ep ∉ disconnected net) →
  Forall (λ e, e ≠ Terminate) l → emits prev p (l ++ [Terminate]) p' →
  ∃ self' net',
    emits (End rng prev) ((self, net), p) (variant <$> (l ++ [Terminate])) ((self', net'), p') ∧
    (∀ i ep, (senders self).*1 !! i = Some ep →
      ∃ ms, sent_to net' ep = sent_to net ep ++ ms ∧
        Forall (batch_ok coord (max_size (batch_mode self0))) ms ∧
        unbatched ms = delivered_to rng (block_senders self) (next_strategy self0)
          (feedback_id self0) ((senders self).*1) i 0 (l ++ [Terminate])) ∧
    ∀ ep, ep ∉ (senders self).*1 → sent_to net' ep = sent_to net ep.
Proof.
  intros Hs Hnd Hm Hk Hal Hl Hp.
  destruct (End_setup_at env coord get_senders self0 self net Hs Hnd Hm Hk Hal)
    as ([G1 G2 G3] & _ & Hat).
  destruct (End_runs _ _ _ rng _ _ _ _ G1 G2 G3 l 0 _ _ Hl Hat) as ([self' net'] & Hr & Hall).
  exists self', net'. split; [|exact Hall].
  by eapply (refines_emits prev (ending rng)); [apply follows_refines; apply _| |].
Qed.

Definition dest_block (ep : ReceiverEndpoint) : BlockId := block_id (re_coord ep).

Lemma End_setup_groups {A} `{!HashOrder, !Glidesort} env coord get_senders (self0 self : End_state A) :
  End_setup env coord get_senders self0 = Done self →
  (match next_strategy self0 with All => False | _ => True end) →
  block_senders self = snd <$> hash_iter (group_senders (dest_block <$> (senders self).*1)).
Proof.
  intros Hs Hna. unfold End_setup, setup_senders in Hs.
  cbn -[glidesort group_senders rassert] in Hs.
  apply bind_done in Hs as (self1 & Hs1 & [= <-]).
  apply bind_done in Hs1 as ([] & _ & [= <-]). cbn [senders block_senders].
  rewrite <-list_fmap_compose. by destruct (next_strategy self0).
Qed.

(** For every strategy but [All], an item reaches exactly one replica of every next
    block, with or without a timestamp, and with [GroupBy] that replica depends on the
    hash of the key only: all the items of a key meet in the same replica. *)
Theorem End_routes_once {A} `{!HashOrder, !Glidesort} rng env coord get_senders (self0 self : End_state A)
    x ts k b :
  End_setup env coord get_senders self0 = Done self →
  (match next_strategy self0 with All => False | _ => True end) →
  b ∈ dest_block <$> (senders self).*1 →
  let recv e k := (receivers rng (block_senders self) (next_strategy self0)
                     (feedback_id self0) ((senders self).*1) k e).1 in
  ∃ i, i ∈ recv (Item x) k ∧ dest_block <$> (senders self).*1 !! i = Some b ∧
    (∀ j, j ∈ recv (Item x) k → dest_block <$> (senders self).*1 !! j = Some b → j = i) ∧
    recv (Timestamped x ts) k = recv (Item x) k ∧
    (∀ keyer y k', next_strategy self0 = GroupBy keyer → keyer y = keyer x →
       recv (Item y) k' = recv (Item x) k).
Proof.
  intros Hs Hna Hb recv. pose proof (End_setup_groups _ _ _ _ _ Hs Hna) as Eg.
  set (blocks := dest_block <$> (senders self).*1) in *.
  destruct (index rng (next_strategy self0) x k) as [idx k1] eqn:Ei.
  assert (recv (Item x) k = omap (λ g, g !! (idx `mod` length g)) (block_senders self)) as Er.
  { unfold recv. cbn. by rewrite Ei. }
  pose proof (group_senders_spec blocks b) as Hg.
  destruct (group_senders blocks !! b) as [g|] eqn:E; [|done]. destruct Hg as (G1 & G2 & G3).
  assert (is_Some (g !! (idx `mod` length g))) as [i Hi].
  { apply lookup_lt_is_Some_2, Nat.mod_upper_bound. by destruct g. }
  exists i. rewrite Er, Eg. split_and!.
  - apply list_elem_of_omap. exists g. split; [|done]. apply list_elem_of_fmap.
    exists (b, g). split; [done|]. by apply hash_groups_in.
  - rewrite <-list_lookup_fmap. apply G3. by eapply list_elem_of_lookup_2.
  - intros j Hj Hbj. rewrite <-list_lookup_fmap in Hbj. fold blocks in Hbj.
    apply list_elem_of_omap in Hj as (g' & Hg' & Hj).
    apply list_elem_of_fmap in Hg' as ([b' g''] & -> & Hin%hash_groups_in). cbn in Hj.
    pose proof (group_senders_spec blocks b') as Hgs. rewrite Hin in Hgs.
    destruct Hgs as (_ & _ & G3'). assert (blocks !! j = Some b') as Hbj'.
    { apply G3'. by eapply list_elem_of_lookup_2. }
    simplify_eq. done.
  - rewrite <-Eg. unfold recv. cbn. by rewrite Ei.
  - intros keyer y k' Es Ey. rewrite <-Eg, <-Er. unfold recv. cbn. rewrite Es in *. cbn.
    by rewrite Ey.
Qed.

(** ** An instance: three replicas of one block and one of another, grouped by key *)
Module EndExample.
Definition eps : list ReceiverEndpoint :=
  [mkReceiverEndpoint (mkCoord 2 0 0) 0; mkReceiverEndpoint (mkCoord 1 0 1) 0;
   mkReceiverEndpoint (mkCoord 1 0 0) 0].
Definition env (_ : ReceiverEndpoint) : BatcherEnv :=
  mkBatcherEnv (λ n, Z.of_nat n) (λ n, [Nat.even n]).
Definition net : Network nat := mkNetwork ∅ ∅.
Definition self0 : End_state nat := End_new (GroupBy N.of_nat) (Timed 2 10).
Definition self : End_state nat :=
  match End_setup (H := key_order) (H0 := insertion_glidesort) env (mkCoord 0 0 0) eps self0 with
  | Done self => self
  | _ => self0
  end.

Lemma setup : End_setup (H := key_order) (H0 := insertion_glidesort) env (mkCoord 0 0 0) eps self0 = Done self.
Proof. reflexivity. Qed.
Lemma eps_NoDup : NoDup eps.
Proof. apply (bool_decide_unpack _). vm_compute. exact I. Qed.
End EndExample.

Lemma End_routes_once_witness :
  let recv (e : StreamElement nat) k := (receivers id (block_senders EndExample.self)
    (GroupBy N.of_nat) None ((senders EndExample.self).*1) k e).1 in
  ∃ i, i ∈ recv (Item 7) 0 ∧ dest_block <$> (senders EndExample.self).*1 !! i = Some 1%N ∧
    (∀ j, j ∈ recv (Item 7) 0 →
       dest_block <$> (senders EndExample.self).*1 !! j = Some 1%N → j = i) ∧
    recv (Timestamped 7 3%Z) 0 = recv (Item 7) 0 ∧
    (∀ keyer y k', GroupBy N.of_nat = GroupBy keyer → keyer y = keyer 7 →
       recv (Item y) k' = recv (Item 7) 0).
Proof.
  refine (@End_routes_once nat key_order insertion_glidesort id EndExample.env (mkCoord 0 0 0) EndExample.eps
    EndExample.self0 EndExample.self 7 3%Z 0 1%N EndExample.setup I _).
  apply (bool_decide_unpack _). vm_compute. exact I.
Defined.
