(* ===== verification/Shuffle.v ===== *)
(** * Shuffles: the senders of a block agree

    [End::setup_senders] ([src/src/operator/end.rs]) sorts the senders before grouping
    them.  This file shows what the sort is for: replicas of one block, or of the two
    blocks of a join, that see the destinations in different orders still send equal
    keys to the same replica. *)
From S2P Require Import Prelude StreamElement Operator Frontier Batcher End.
From stdpp Require Import sorting.

(** ** The order of the coordinates *)
Lemma lex_leb_refl l : lex_leb l l = true.
Proof. induction l as [|x l IH]; [done|]. cbn. by rewrite N.eqb_refl. Qed.

Lemma lex_leb_total a b : lex_leb a b = true ∨ lex_leb b a = true.
Proof.
  revert b. induction a as [|x a IH]; intros [|y b]; cbn; [by left..|by right|].
  destruct (N.eqb_spec x y) as [->|Hne]; [by rewrite N.eqb_refl|].
  destruct (N.eqb_spec y x); [congruence|]. rewrite !N.ltb_lt. lia.
Qed.

Lemma lex_leb_trans a b c : lex_leb a b = true → lex_leb b c = true → lex_leb a c = true.
Proof.
  revert b c. induction a as [|x a IH]; intros [|y b] [|z c]; cbn; try done.
  destruct (N.eqb_spec x y) as [->|], (N.eqb_spec y z) as [->|]; rewrite ?N.eqb_refl;
    rewrite ?N.ltb_lt.
  - apply IH.
  - by destruct (N.eqb_spec y z); rewrite ?N.ltb_lt.
  - by destruct (N.eqb_spec x z); rewrite ?N.ltb_lt.
  - destruct (N.eqb_spec x z) as [->|]; rewrite ?N.ltb_lt; lia.
Qed.

Lemma lex_leb_antisym a b : lex_leb a b = true → lex_leb b a = true → a = b.
Proof.
  revert b. induction a as [|x a IH]; intros [|y b]; cbn; try done.
  destruct (N.eqb_spec x y) as [->|]; [rewrite N.eqb_refl|]; [intros; f_equal; auto|].
  destruct (N.eqb_spec y x); [congruence|]. rewrite !N.ltb_lt. lia.
Qed.

Lemma lex_leb_app a1 a2 b1 b2 :
  length a1 = length b1 → lex_leb (a1 ++ a2) (b1 ++ b2) = true → lex_leb a1 b1 = true.
Proof.
  revert b1. induction a1 as [|x a1 IH]; intros [|y b1] Hl; cbn in *; try done.
  destruct (N.eqb_spec x y); [|done]. apply IH. lia.
Qed.

Lemma sender_leb_preorder {X} : total_preorder (@sender_leb X).
Proof.
  split; unfold sender_leb; intros; [apply lex_leb_total|by eapply lex_leb_trans].
Qed.

Definition coord_le (c1 c2 : Coord) : Prop := lex_leb (coord_key c1) (coord_key c2) = true.
Global Instance coord_le_antisym : AntiSymm (=) coord_le.
Proof.
  intros [b1 h1 r1] [b2 h2 r2] H1 H2. pose proof (lex_leb_antisym _ _ H1 H2) as E.
  by injection E as -> -> ->.
Qed.

Lemma StronglySorted_filter {X} (R : relation X) (P : X → Prop) `{!∀ x, Decision (P x)} l :
  StronglySorted R l → StronglySorted R (base.filter P l).
Proof.
  induction 1 as [|x l Hs IH Hx]; [constructor|]. rewrite filter_cons. case_decide; [|done].
  constructor; [done|]. apply Forall_forall. intros y [_ Hy]%list_elem_of_filter.
  rewrite Forall_forall in Hx. auto.
Qed.

(** ** Groups in the order of the senders *)
Lemma group_positions {X} (f : X → BlockId) (l : list X) b :
  (λ i, l !! i) <$> default [] (group_senders (f <$> l) !! b) =
  Some <$> base.filter (λ x, f x = b) l.
Proof.
  induction l as [|x l IH] using rev_ind; [done|].
  rewrite fmap_app. cbn [fmap list_fmap]. unfold group_senders at 1.
  rewrite zip_seq_snoc, foldl_app. fold (group_senders (f <$> l)). cbn [foldl].
  rewrite filter_app, filter_cons, filter_nil, fmap_app, <-IH, lookup_insert.
  pose proof (group_senders_spec (f <$> l) b) as Hg.
  assert ((λ i, (l ++ [x]) !! i) <$> default [] (group_senders (f <$> l) !! b) =
    (λ i, l !! i) <$> default [] (group_senders (f <$> l) !! b)) as E.
  { apply list_fmap_ext. intros j i Hi. destruct (group_senders (f <$> l) !! b) as [g|]; [|done].
    apply lookup_app_l. destruct Hg as (_ & _ & Hg). apply list_elem_of_lookup_2, Hg in Hi.
    apply lookup_lt_Some in Hi. by rewrite length_fmap in Hi. }
  case_decide as Hb; [subst b|rewrite app_nil_r; exact E].
  cbn [from_option]. unfold id at 1. rewrite fmap_app, E. f_equal. cbn. f_equal.
  rewrite length_fmap, lookup_app_r, Nat.sub_diag by lia. done.
Qed.

Section consistency.
Context {A : Type} (order : HashOrder) (sort : Glidesort) (rng : nat → nat).
Context (env : ReceiverEndpoint → BatcherEnv) (coord : Coord) (gs : list ReceiverEndpoint).
Context (self0 self : End_state A) (Hset : End_setup env coord gs self0 = Done self).

Abbreviation eps := ((senders self).*1).
Abbreviation in_block b := (λ ep, dest_block ep = b).

(** The destinations that are not ignored, sorted. *)
Lemma setup_eps :
  eps ≡ₚ base.filter (λ ep, block_id (re_coord ep) ∉ ignore_block_ids self0) gs ∧
  StronglySorted coord_le (re_coord <$> eps).
Proof.
  pose proof Hset as Hs. unfold End_setup, setup_senders in Hs.
  cbn -[glidesort group_senders rassert] in Hs.
  apply bind_done in Hs as (self1 & Hs1 & [= <-]).
  apply bind_done in Hs1 as ([] & _ & [= <-]). cbn [senders].
  set (kept := base.filter _ gs). split.
  - rewrite glidesort_perm, <-list_fmap_compose. by rewrite list_fmap_id.
  - rewrite <-list_fmap_compose.
    eapply (StronglySorted_fmap _ (λ x y, sender_leb x y = true)), glidesort_sorted,
      sender_leb_preorder.
    intros [e1 b1] [e2 b2]. by apply (lex_leb_app (coord_key _) _ (coord_key _)).
Qed.

(** An item sent to block [b] goes to the destination of [b] at the position given by
    the hash of its key. *)
Lemma receiver_position keyer x k i ep :
  next_strategy self0 = GroupBy keyer →
  i ∈ (receivers rng (block_senders self) (next_strategy self0) (feedback_id self0) eps k (Item x)).1 →
  eps !! i = Some ep →
  let group := base.filter (in_block (dest_block ep)) eps in
  group !! (N.to_nat (keyer x) `mod` length group) = Some ep.
Proof.
  intros Hst Hi Hep group.
  pose proof (End_setup_groups env coord gs self0 self Hset ltac:(by rewrite Hst)) as Hg.
  rewrite Hst, Hg in Hi. cbn in Hi.
  apply list_elem_of_omap in Hi as (g & Hin & Hi).
  apply list_elem_of_fmap in Hin as ([b g'] & -> & Hin%hash_groups_in). cbn in Hi.
  pose proof (group_senders_spec (dest_block <$> eps) b) as Hgs. rewrite Hin in Hgs.
  assert (b = dest_block ep) as ->.
  { destruct Hgs as (_ & _ & Hgs). apply list_elem_of_lookup_2, Hgs in Hi.
    rewrite list_lookup_fmap, Hep in Hi. by injection Hi. }
  pose proof (group_positions dest_block eps (dest_block ep)) as Hpos.
  rewrite Hin in Hpos. cbn [from_option] in Hpos. unfold id in Hpos. fold group in Hpos.
  assert (length g' = length group) as Hl.
  { apply (f_equal length) in Hpos. by rewrite !length_fmap in Hpos. }
  apply (f_equal (λ l, l !! (N.to_nat (keyer x) `mod` length group))) in Hpos.
  rewrite !list_lookup_fmap in Hpos. rewrite Hl in Hi. rewrite Hi in Hpos. cbn in Hpos.
  rewrite Hep in Hpos. destruct (group !! _); [|done]. by injection Hpos as ->.
Qed.
End consistency.

(** ** What each destination is sent *)

Definition endpoint_leb (a b : ReceiverEndpoint) : bool := lex_leb (endpoint_key a) (endpoint_key b).
Definition endpoint_le (a b : ReceiverEndpoint) : Prop := endpoint_leb a b = true.
Global Instance endpoint_le_antisym : AntiSymm (=) endpoint_le.
Proof.
  intros [[b1 h1 r1] p1] [[b2 h2 r2] p2] H1 H2. pose proof (lex_leb_antisym _ _ H1 H2) as E.
  by injection E as -> -> -> ->.
Qed.
Lemma endpoint_leb_preorder : total_preorder endpoint_leb.
Proof. split; unfold endpoint_leb; intros; [apply lex_leb_total|by eapply lex_leb_trans]. Qed.

(** The replicas of the block of a destination, in the order of their coordinates. *)
Definition siblings (dests : list ReceiverEndpoint) (ep : ReceiverEndpoint) : list ReceiverEndpoint :=
  insertion_sort endpoint_leb (base.filter (λ e, dest_block e = dest_block ep) dests).
(** The replica that a number picks. *)
Definition picked (n : nat) (dests : list ReceiverEndpoint) (ep : ReceiverEndpoint) : bool :=
  bool_decide (siblings dests ep !! (n `mod` length (siblings dests ep)) = Some ep).

(** Whether a destination is to get an element, when [k] random numbers have been drawn: watermarks and the
    ends of rounds and of the stream go everywhere, except that the end of the stream does not go
    back along a feedback; an item goes to all the replicas, to the only one, to a random one or to
    the one of its hash. *)
Definition assigned {A} (rng : nat → nat) (strat : NextStrategy A) (fb : option BlockId)
    (dests : list ReceiverEndpoint) (ep : ReceiverEndpoint) (k : nat) (e : StreamElement A) : bool :=
  match e with
  | FlushBatch => false
  | Watermark _ | FlushAndRestart => true
  | Terminate => negb (bool_decide (fb = Some (dest_block ep)))
  | Item x | Timestamped x _ =>
      match strat with
      | All | OnlyOne => true
      | Random => picked (rng k) dests ep
      | GroupBy keyer => picked (N.to_nat (keyer x)) dests ep
      end
  end.
(** One random number per item of a stream that is spread at random. *)
Definition draws {A} (strat : NextStrategy A) (e : StreamElement A) : nat :=
  match strat, value e with Random, Some _ => 1 | _, _ => 0 end.
Fixpoint assigned_to {A} (rng : nat → nat) (strat : NextStrategy A) fb dests ep (k : nat)
    (l : list (StreamElement A)) : list (StreamElement A) :=
  match l with
  | [] => []
  | e :: l =>
      (if assigned rng strat fb dests ep k e then [e] else []) ++
      assigned_to rng strat fb dests ep (draws strat e + k) l
  end.

Section assignment.
Context {A : Type} (order : HashOrder) (sort : Glidesort) (rng : nat → nat).
Context (env : ReceiverEndpoint → BatcherEnv) (coord : Coord) (gs : list ReceiverEndpoint) (Hnd : NoDup gs).
Context (self0 self : End_state A) (Hset : End_setup env coord gs self0 = Done self).

Abbreviation eps := ((senders self).*1).
Definition destinations : list ReceiverEndpoint :=
  base.filter (λ ep, dest_block ep ∉ ignore_block_ids self0) gs.

Lemma setup_sorted : eps ≡ₚ destinations ∧ StronglySorted endpoint_le eps.
Proof.
  split; [exact (proj1 (setup_eps order sort env coord gs self0 self Hset))|].
  pose proof Hset as Hs. unfold End_setup, setup_senders in Hs.
  cbn -[glidesort group_senders rassert] in Hs.
  apply bind_done in Hs as (self1 & Hs1 & [= <-]).
  apply bind_done in Hs1 as ([] & _ & [= <-]). cbn [senders].
  eapply (StronglySorted_fmap _ (λ x y, sender_leb x y = true)), glidesort_sorted, sender_leb_preorder. done.
Qed.
Lemma eps_nodup : NoDup eps.
Proof. rewrite (proj1 setup_sorted). by apply NoDup_filter. Qed.
Lemma siblings_eps ep : siblings destinations ep = base.filter (λ e, dest_block e = dest_block ep) eps.
Proof.
  destruct setup_sorted as [Hp Hs]. apply (StronglySorted_unique endpoint_le).
  - apply insertion_sort_sorted, endpoint_leb_preorder.
  - by apply StronglySorted_filter.
  - unfold siblings. rewrite insertion_sort_perm. by rewrite Hp.
Qed.

(** The positions of a block, and the destinations there. *)
Lemma group_of ep :
  ep ∈ eps → ∃ g, group_senders (dest_block <$> eps) !! dest_block ep = Some g ∧
    (λ i, eps !! i) <$> g = Some <$> siblings destinations ep ∧ length g = length (siblings destinations ep).
Proof.
  intros Hep. pose proof (group_senders_spec (dest_block <$> eps) (dest_block ep)) as Hg.
  pose proof (group_positions dest_block eps (dest_block ep)) as Hpos. rewrite <-siblings_eps in Hpos.
  destruct (group_senders _ !! _) as [g|]; [|by destruct Hg; apply list_elem_of_fmap_2].
  exists g. split_and!; [done|done|]. apply (f_equal length) in Hpos. by rewrite !length_fmap in Hpos.
Qed.

(** A number picks a position exactly when it picks the destination there. *)
Lemma picked_position n i ep :
  eps !! i = Some ep →
  i ∈ omap (λ g, g !! (n `mod` length g)) (snd <$> hash_iter (group_senders (dest_block <$> eps))) ↔
  picked n destinations ep = true.
Proof.
  intros Hep. unfold picked. rewrite bool_decide_eq_true.
  destruct (group_of ep) as (g & Hg & Hpos & Hlen); [by eapply list_elem_of_lookup_2|].
  apply (f_equal (λ l, l !! (n `mod` length g))) in Hpos. rewrite !list_lookup_fmap in Hpos. rewrite <-Hlen.
  rewrite list_elem_of_omap. split.
  - intros (g' & Hin & Hi). apply list_elem_of_fmap in Hin as ([b g''] & -> & Hin%hash_groups_in). cbn in Hi.
    pose proof (group_senders_spec (dest_block <$> eps) b) as Hgs. rewrite Hin in Hgs. destruct Hgs as (_ & _ & Hgs).
    assert (b = dest_block ep) as ->.
    { apply list_elem_of_lookup_2, Hgs in Hi. rewrite list_lookup_fmap, Hep in Hi. by injection Hi. }
    rewrite Hg in Hin. injection Hin as <-. rewrite Hi in Hpos. cbn in Hpos. rewrite Hep in Hpos.
    destruct (siblings _ _ !! _); [|done]. by injection Hpos as ->.
  - intros Hs. rewrite Hs in Hpos. cbn in Hpos. destruct (g !! (n `mod` length g)) as [i'|] eqn:Hi; [|done].
    cbn in Hpos. injection Hpos as Hpos. assert (i' = i) as -> by (by eapply NoDup_lookup; [apply eps_nodup|..]).
    exists g. split; [|done]. apply list_elem_of_fmap. exists (dest_block ep, g). split; [done|].
    by apply hash_groups_in.
Qed.
(** Every position is in a group. *)
Lemma grouped i ep : eps !! i = Some ep → i ∈ concat (snd <$> hash_iter (group_senders (dest_block <$> eps))).
Proof.
  intros Hep. destruct (group_of ep) as (g & Hg & _ & _); [by eapply list_elem_of_lookup_2|].
  apply elem_of_concat. exists g. split.
  - apply list_elem_of_fmap. exists (dest_block ep, g). split; [done|]. by apply hash_groups_in.
  - pose proof (group_senders_spec (dest_block <$> eps) (dest_block ep)) as Hgs. rewrite Hg in Hgs.
    apply Hgs. by rewrite list_lookup_fmap, Hep.
Qed.
Lemma setup_all : next_strategy self0 = All → block_senders self = (λ i, [i]) <$> seq 0 (length eps).
Proof.
  intros Ha. pose proof Hset as Hs. unfold End_setup, setup_senders in Hs.
  cbn -[glidesort group_senders rassert] in Hs. rewrite Ha in Hs.
  apply bind_done in Hs as (self1 & [= <-] & [= <-]). cbn [senders block_senders]. by rewrite length_fmap.
Qed.
Lemma setup_only_one i ep :
  next_strategy self0 = OnlyOne → eps !! i = Some ep → picked 0 destinations ep = true.
Proof.
  intros Ho Hep. pose proof Hset as Hs. unfold End_setup, setup_senders in Hs.
  cbn -[glidesort group_senders rassert forallb] in Hs. rewrite Ho in Hs.
  pose proof (End_setup_groups env coord gs self0 self Hset ltac:(by rewrite Ho)) as Hg.
  destruct (group_of ep) as (g & Hgr & Hpos & Hlen); [by eapply list_elem_of_lookup_2|].
  apply bind_done in Hs as (self1 & Hs1 & Hs). apply bind_done in Hs1 as ([] & Hall & [= <-]). injection Hs as Hs.
  rewrite <-Hs in Hg. cbn [block_senders] in Hg. rewrite Hg in Hall. unfold rassert in Hall.
  destruct (forallb _ _) eqn:E in Hall; [|done]. rewrite forallb_forall in E.
  assert (length g = 1) as Hg1.
  { apply Nat.eqb_eq, E, list_elem_of_In, list_elem_of_fmap. exists (dest_block ep, g). split; [done|].
    rewrite <-Hs in Hgr. by apply hash_groups_in. }
  apply bool_decide_eq_true. rewrite <-Hlen, Hg1. cbn.
  assert (ep ∈ siblings destinations ep) as Hin.
  { rewrite siblings_eps. apply list_elem_of_filter. split; [done|]. by eapply list_elem_of_lookup_2. }
  rewrite Hg1 in Hlen. destruct (siblings destinations ep) as [|e [|]]; try done.
  by apply list_elem_of_singleton in Hin as ->.
Qed.

(** The code sends an element where it is assigned. *)
Lemma receivers_assigned i ep k e :
  eps !! i = Some ep →
  let r := receivers rng (block_senders self) (next_strategy self0) (feedback_id self0) eps k e in
  (i ∈ r.1 ↔ assigned rng (next_strategy self0) (feedback_id self0) destinations ep k e = true) ∧
  r.2 = draws (next_strategy self0) e + k.
Proof.
  intros Hep r.
  assert (i ∈ concat (block_senders self)) as Hin.
  { destruct (next_strategy self0) eqn:Es;
      try (rewrite (End_setup_groups env coord gs self0 self Hset ltac:(by rewrite Es)); by eapply grouped).
    rewrite (setup_all Es). apply elem_of_concat. exists [i]. split; [|by left].
    apply list_elem_of_fmap. exists i. split; [done|]. apply elem_of_seq. apply lookup_lt_Some in Hep. lia. }
  assert (∀ b : bool, i ∈ List.filter (λ j, negb (skips (feedback_id self0) eps e j)) (concat (block_senders self)) ↔
    skips (feedback_id self0) eps e i = false) as Hbc.
  { intros _. rewrite list_elem_of_In, filter_In, <-list_elem_of_In, negb_true_iff. tauto. }
  assert (∀ x, let '(idx, k') := index rng (next_strategy self0) x k in
    (i ∈ omap (λ g, g !! (idx `mod` length g)) (block_senders self) ↔
     assigned rng (next_strategy self0) (feedback_id self0) destinations ep k (Item x) = true) ∧
    k' = draws (next_strategy self0) (Item x) + k) as Hit.
  { intros x. unfold assigned, draws, index. destruct (next_strategy self0) as [| |keyer|] eqn:Es; (split; [|done]).
    - rewrite (End_setup_groups env coord gs self0 self Hset ltac:(by rewrite Es)), (picked_position 0 i ep Hep).
      by rewrite (setup_only_one i ep Es Hep).
    - by rewrite (End_setup_groups env coord gs self0 self Hset ltac:(by rewrite Es)), (picked_position _ i ep Hep).
    - by rewrite (End_setup_groups env coord gs self0 self Hset ltac:(by rewrite Es)), (picked_position _ i ep Hep).
    - rewrite (setup_all Es). split; [done|]. intros _. apply list_elem_of_omap. exists [i]. split; [|done].
      apply list_elem_of_fmap. exists i. split; [done|]. apply elem_of_seq. apply lookup_lt_Some in Hep. lia. }
  unfold r, receivers, draws. destruct e as [x|x ts|ts| | |]; cbn [fst snd value].
  - specialize (Hit x). by destruct (index rng (next_strategy self0) x k).
  - specialize (Hit x). by destruct (index rng (next_strategy self0) x k).
  - rewrite (Hbc true). cbn. by destruct (next_strategy self0).
  - split; [|by destruct (next_strategy self0)]. split; [by intros ?%elem_of_nil|done].
  - rewrite (Hbc true). unfold skips. rewrite Hep. cbn. split; [|by destruct (next_strategy self0)].
    rewrite negb_true_iff. unfold dest_block. by destruct (decide (feedback_id self0 = Some (block_id (re_coord ep))));
      rewrite ?bool_decide_true, ?bool_decide_false by congruence.
  - rewrite (Hbc true). cbn. by destruct (next_strategy self0).
Qed.
Lemma delivered_assigned i ep k l :
  eps !! i = Some ep →
  delivered_to rng (block_senders self) (next_strategy self0) (feedback_id self0) eps i k l =
    assigned_to rng (next_strategy self0) (feedback_id self0) destinations ep k l.
Proof.
  intros Hep. revert k. induction l as [|e l IH]; intros k; [done|]. cbn.
  destruct (receivers_assigned i ep k e Hep) as [Hr Hk]. destruct (receivers _ _ _ _ _ _ _) as [ids k']. cbn in Hr, Hk.
  rewrite IH, Hk. f_equal. destruct (assigned _ _ _ _ _ _ _); [rewrite decide_True|rewrite decide_False]; try done.
  - by apply Hr.
  - intros Hi. by apply Hr in Hi.
Qed.
End assignment.

(** C9. What a block sends: once the block has processed a stream to its [Terminate], the channel to
    each destination that is not ignored holds exactly the elements assigned to it, once each and in
    order, in batches tagged with the coordinate of the block, and no other channel has changed,
    whatever the batch mode, the clock, the timer threads, the order of the hash map and the order
    in which the network lists the destinations.  What is assigned is said by [assigned]. *)
Theorem End_delivers {A} `{!HashOrder, !Glidesort} rng env coord get_senders (self0 self : End_state A)
    net (prev : Operator A) `{!OperatorLaws prev} p l p' :
  End_setup env coord get_senders self0 = Done self →
  NoDup get_senders → wf_mode (batch_mode self0) → rng_used self0 = 0 →
  (∀ ep, ep ∈ get_senders → ep ∉ disconnected net) →
  Forall (λ e, e ≠ Terminate) l → emits prev p (l ++ [Terminate]) p' →
  let dests := base.filter (λ ep, dest_block ep ∉ ignore_block_ids self0) get_senders in
  ∃ self' net',
    emits (End rng prev) ((self, net), p) (variant <$> (l ++ [Terminate])) ((self', net'), p') ∧
    (∀ ep, ep ∈ dests →
      ∃ ms, sent_to net' ep = sent_to net ep ++ ms ∧
        Forall (batch_ok coord (max_size (batch_mode self0))) ms ∧
        unbatched ms = assigned_to rng (next_strategy self0) (feedback_id self0) dests ep 0 (l ++ [Terminate])) ∧
    (∀ ep, ep ∉ dests → sent_to net' ep = sent_to net ep).
Proof.
  intros Hs Hnd Hm Hk Hal Hl Hp dests.
  destruct (End_emits rng env coord get_senders self0 self net prev p l p' Hs Hnd Hm Hk Hal Hl Hp)
    as (self' & net' & He & Hall & Hrest).
  destruct (setup_sorted _ _ env coord get_senders self0 self Hs) as [Hperm _].
  exists self', net'. split_and!; [done| |].
  - intros ep Hep. change dests with (destinations get_senders self0) in Hep. rewrite <-Hperm in Hep.
    apply list_elem_of_lookup in Hep as [i Hi]. destruct (Hall i ep Hi) as (ms & H1 & H2 & H3).
    exists ms. split_and!; [done..|]. rewrite H3. by eapply delivered_assigned.
  - intros ep Hep. apply Hrest. by rewrite Hperm.
Qed.

(** C10. A shuffle is consistent: two senders, replicas of the same block or of the two
    blocks that feed a join, that see the replicas of the destination block [b] in any
    order, send items with equal key hashes to the same replica of [b], whatever the
    orders of their hash maps. *)
Theorem End_shuffle_consistent {A B} order order' sort sort' rng rng' env env' coord coord'
    gs gs' (self0 self : End_state A) (self0' self' : End_state B)
    keyer keyer' x y k k' i j ep ep' :
  @End_setup A order sort env coord gs self0 = Done self →
  @End_setup B order' sort' env' coord' gs' self0' = Done self' →
  next_strategy self0 = GroupBy keyer → next_strategy self0' = GroupBy keyer' →
  keyer x = keyer' y →
  ignore_block_ids self0 = [] → ignore_block_ids self0' = [] →
  re_coord <$> base.filter (λ e, dest_block e = dest_block ep) gs ≡ₚ
  re_coord <$> base.filter (λ e, dest_block e = dest_block ep) gs' →
  i ∈ (receivers rng (block_senders self) (next_strategy self0) (feedback_id self0)
         ((senders self).*1) k (Item x)).1 →
  j ∈ (receivers rng' (block_senders self') (next_strategy self0') (feedback_id self0')
         ((senders self').*1) k' (Item y)).1 →
  (senders self).*1 !! i = Some ep → (senders self').*1 !! j = Some ep' →
  dest_block ep = dest_block ep' → re_coord ep = re_coord ep'.
Proof.
  intros Hs Hs' Hst Hst' Hxy Hig Hig' Hgs Hi Hj Hep Hep' Hb.
  destruct (setup_eps order sort env coord gs self0 self Hs) as [Hp Hsort].
  destruct (setup_eps order' sort' env' coord' gs' self0' self' Hs') as [Hp' Hsort'].
  pose proof (receiver_position order sort rng env coord gs self0 self Hs keyer x k i ep Hst Hi Hep)
    as H1.
  pose proof (receiver_position order' sort' rng' env' coord' gs' self0' self' Hs' keyer' y k' j ep'
    Hst' Hj Hep') as H2. cbn in H1, H2. rewrite <-Hb in H2.
  rewrite Hig in Hp. rewrite Hig' in Hp'.
  assert (∀ (l : list ReceiverEndpoint), base.filter (λ ep, block_id (re_coord ep) ∉ []) l = l) as Hall.
  { induction l as [|e l IH]; [done|]. rewrite filter_cons, IH.
    by rewrite decide_True by apply not_elem_of_nil. }
  rewrite Hall in Hp, Hp'. clear Hall.
  assert (re_coord <$> base.filter (λ e, dest_block e = dest_block ep) (senders self).*1 =
    re_coord <$> base.filter (λ e, dest_block e = dest_block ep) (senders self').*1) as E.
  { assert (∀ l : list ReceiverEndpoint, re_coord <$> base.filter (λ e, dest_block e = dest_block ep) l =
      base.filter (λ c, block_id c = dest_block ep) (re_coord <$> l)) as Hf.
    { induction l as [|e l IH]; [done|]. rewrite fmap_cons, !filter_cons.
      change (block_id (re_coord e)) with (dest_block e).
      case_decide; [rewrite fmap_cons|]; by rewrite IH. }
    apply (StronglySorted_unique coord_le).
    - rewrite Hf. by apply StronglySorted_filter.
    - rewrite Hf. by apply StronglySorted_filter.
    - by rewrite Hp, Hgs, Hp'. }
  assert (length (base.filter (λ e, dest_block e = dest_block ep) (senders self).*1) =
    length (base.filter (λ e, dest_block e = dest_block ep) (senders self').*1)) as El.
  { apply (f_equal length) in E. by rewrite !length_fmap in E. }
  rewrite <-El, <-Hxy in H2. apply (f_equal (fmap re_coord)) in H1, H2.
  rewrite <-list_lookup_fmap in H1, H2. rewrite E in H1. rewrite H1 in H2. by injection H2.
Qed.

(** Two replicas of block 0 that see the three replicas of block 1 in different orders. *)
Lemma End_shuffle_consistent_witness :
  let eps := [mkReceiverEndpoint (mkCoord 1 0 2) 0; mkReceiverEndpoint (mkCoord 1 1 0) 0;
              mkReceiverEndpoint (mkCoord 1 0 0) 0] in
  let self0 := End_new (GroupBy N.of_nat) (Fixed 4) in
  let setup coord eps := @End_setup nat key_order insertion_glidesort EndExample.env coord eps self0 in
  let state r := match r with Done s => s | _ => self0 end in
  let self := state (setup (mkCoord 0 0 0) eps) in
  let self' := state (setup (mkCoord 0 0 1) (rev eps)) in
  let at1 (s : End_state nat) := default (mkReceiverEndpoint (mkCoord 0 0 0) 0) ((senders s).*1 !! 1) in
  re_coord (at1 self) = re_coord (at1 self').
Proof.
  intros eps self0 setup state self self' at1.
  refine (@End_shuffle_consistent nat nat key_order key_order insertion_glidesort
    insertion_glidesort id id EndExample.env EndExample.env (mkCoord 0 0 0) (mkCoord 0 0 1)
    eps (rev eps) self0 self self0 self' N.of_nat N.of_nat 7 7 0 0 1 1
    (at1 self) (at1 self')
    eq_refl eq_refl eq_refl eq_refl eq_refl eq_refl eq_refl _ _ _ eq_refl eq_refl eq_refl).
  - vm_compute. apply (Permutation_rev [_; _; _]).
  - apply (bool_decide_unpack _). vm_compute. exact I.
  - apply (bool_decide_unpack _). vm_compute. exact I.
Defined.

(** Items 1 and 3 go to the second replica of block 1, item 2 to the first, all of them to the only one of block 2. *)
Lemma End_delivers_witness :
  let l := [Item 1; Item 2; FlushBatch; Watermark 4%Z; Item 3] in
  let to_block1 := [Item 1; Watermark 4%Z; Item 3; Terminate] in
  let all := [Item 1; Item 2; Watermark 4%Z; Item 3; Terminate] in
  ∃ self' net',
    emits (End id (FakeOperator nat)) ((EndExample.self, EndExample.net), l ++ [Terminate])
      (variant <$> (l ++ [Terminate])) ((self', net'), []) ∧
    (∃ ms, sent_to net' (mkReceiverEndpoint (mkCoord 1 0 1) 0) = ms ∧ unbatched ms = to_block1) ∧
    (∃ ms, sent_to net' (mkReceiverEndpoint (mkCoord 2 0 0) 0) = ms ∧ unbatched ms = all) ∧
    sent_to net' (mkReceiverEndpoint (mkCoord 3 0 0) 0) = [].
Proof.
  intros l to_block1 all.
  destruct (@End_delivers nat key_order insertion_glidesort id EndExample.env (mkCoord 0 0 0) EndExample.eps
    EndExample.self0 EndExample.self EndExample.net (FakeOperator nat) _ (l ++ [Terminate]) l []
    EndExample.setup EndExample.eps_NoDup ltac:(unfold wf_mode; cbn; lia) eq_refl ltac:(intros ep _; set_solver)
    ltac:(by repeat constructor) ltac:(apply FakeOperator_emits_all)) as (self' & net' & He & Hin & Hout).
  exists self', net'. split; [exact He|]. split_and!.
  - destruct (Hin (mkReceiverEndpoint (mkCoord 1 0 1) 0)) as (ms & Hs & _ & Hu).
    { apply (bool_decide_unpack _). vm_compute. exact I. }
    exists ms. split; [exact Hs|]. rewrite Hu. vm_compute. reflexivity.
  - destruct (Hin (mkReceiverEndpoint (mkCoord 2 0 0) 0)) as (ms & Hs & _ & Hu).
    { apply (bool_decide_unpack _). vm_compute. exact I. }
    exists ms. split; [exact Hs|]. rewrite Hu. vm_compute. reflexivity.
  - rewrite Hout; [reflexivity|]. apply (bool_decide_unpack _). vm_compute. exact I.
Defined.
