(* ===== verification/Exchange.v ===== *)
(** * Shuffles

    What a block receives from the replicas of another that shuffles its items by the hash
    of a key: this file puts together [End] with the strategy [GroupBy], the channels of the
    network and [Start].  Every item reaches the one replica that owns its hash. *)
From stdpp Require Import sorting.
From S2P Require Import Prelude StreamElement Operator BasicOps Folds Frontier Batcher Start End Shuffle.

(** ** Lists of lists *)
Lemma fmap_concat {X Y} (f : X → Y) (ls : list (list X)) :
  (f <$> concat ls : list Y) = concat ((λ l : list X, (f <$> l : list Y)) <$> ls).
Proof. apply List.concat_map. Qed.
Lemma concat_fmap_perm {C X Y} (val : X → Y) (res : C → list Y) (ks : C → list X) (R : list C) :
  (∀ c, c ∈ R → res c ≡ₚ val <$> ks c) → concat (res <$> R) ≡ₚ val <$> concat (ks <$> R).
Proof.
  induction R as [|c R IH]; intros Hc; csimpl; [done|]. rewrite fmap_app, IH, Hc; [done|left|].
  intros c' Hc'. apply Hc. by right.
Qed.
Lemma concat_nodup {C X} (own : X → C) (ks : C → list X) (R : list C) :
  NoDup R → (∀ c, c ∈ R → NoDup (ks c)) → (∀ c k, c ∈ R → k ∈ ks c → own k = c) →
  NoDup (concat (ks <$> R)).
Proof.
  induction R as [|c R IH]; intros Hnd Hks Ho; csimpl; [constructor|].
  apply NoDup_cons in Hnd as [Hn Hnd]. apply NoDup_app. split_and!.
  - apply Hks. left.
  - intros k Hk (g & Hg & Hin)%elem_of_concat. apply list_elem_of_fmap in Hg as (c' & -> & Hc').
    apply Hn. rewrite <-(Ho c k) by (done || left). by rewrite (Ho c' k) by (done || by right).
  - apply IH; [done|..]; intros; [apply Hks|apply Ho]; try done; by right.
Qed.

Lemma finite_choice {C X} `{EqDecision C} (P : C → X → Prop) (x0 : X) (cs : list C) :
  (∀ c, c ∈ cs → ∃ x, P c x) → ∃ f, ∀ c, c ∈ cs → P c (f c).
Proof.
  induction cs as [|c cs IH]; intros Hc; [exists (λ _, x0); intros c Hc'; by apply elem_of_nil in Hc'|].
  destruct IH as [f Hf]; [intros; apply Hc; by right|]. destruct (Hc c) as [x Hx]; [left|].
  exists (λ c', if decide (c' = c) then x else f c'). intros c' Hc'.
  destruct (decide (c' = c)) as [->|Hn]; [done|]. apply Hf. by apply elem_of_cons in Hc' as [?|?].
Qed.
Lemma concat_fmap_ext {C X} (f g : C → list X) (cs : list C) :
  (∀ c, c ∈ cs → f c ≡ₚ g c) → concat (f <$> cs) ≡ₚ concat (g <$> cs).
Proof.
  induction cs as [|c cs IH]; intros Hc; csimpl; [done|]. rewrite IH, Hc; [done|left|].
  intros; apply Hc; by right.
Qed.
Lemma concat_filter {C X} (P : X → Prop) `{∀ x, Decision (P x)} (f : C → list X) cs :
  concat ((λ c, base.filter P (f c)) <$> cs) = base.filter P (concat (f <$> cs)).
Proof. induction cs as [|c cs IH]; csimpl; [done|]. by rewrite filter_app, IH. Qed.

(** ** Shuffles to one block *)
Definition endpoint_to (pb : BlockId) (c : Coord) : ReceiverEndpoint := mkReceiverEndpoint c pb.
Definition coord_leb (c1 c2 : Coord) : bool := lex_leb (coord_key c1) (coord_key c2).
Definition sorted_coords (R : list Coord) : list Coord := insertion_sort coord_leb R.

(** The replica that owns a hash. *)
Definition owner (R : list Coord) (h : N) : option Coord :=
  sorted_coords R !! (N.to_nat h `mod` length R).

Lemma group_senders_replicate n b :
  group_senders (replicate (S n) b) = {[b := seq 0 (S n)]}.
Proof.
  induction n as [|n IH]; [done|]. unfold group_senders in *. rewrite replicate_S_end, zip_seq_snoc, foldl_app.
  rewrite IH. cbn [foldl]. rewrite lookup_singleton_eq, insert_singleton_eq, length_replicate.
  cbn [default]. by rewrite (seq_S (S n)).
Qed.
Lemma hash_iter_singleton `{!HashOrder} {K V} `{Countable K} (k : K) (v : V) :
  hash_iter ({[k := v]} : gmap K V) = [(k, v)].
Proof.
  apply Permutation_singleton_r. by rewrite hash_iter_perm, map_to_list_singleton.
Qed.

Lemma coord_leb_total : total_preorder coord_leb.
Proof. split; intros; [apply lex_leb_total|by eapply lex_leb_trans]. Qed.
Lemma sorted_coords_unique R cs :
  cs ≡ₚ R → StronglySorted coord_le cs → cs = sorted_coords R.
Proof.
  intros Hp Hs. apply (StronglySorted_unique coord_le); [done| |].
  - apply (insertion_sort_sorted coord_leb R coord_leb_total).
  - unfold sorted_coords. by rewrite insertion_sort_perm.
Qed.
Lemma sorted_coords_perm R : sorted_coords R ≡ₚ R.
Proof. apply insertion_sort_perm. Qed.
Lemma owner_some R h : R ≠ [] → ∃ c, owner R h = Some c ∧ c ∈ R.
Proof.
  intros Hne. unfold owner.
  assert (length R ≠ 0) as Hl by (by destruct R).
  destruct (lookup_lt_is_Some_2 (sorted_coords R) (N.to_nat h `mod` length R)) as [c Hc].
  { rewrite (Permutation_length (sorted_coords_perm R)). by apply Nat.mod_upper_bound. }
  exists c. split; [done|]. rewrite <-(sorted_coords_perm R). by eapply list_elem_of_lookup_2.
Qed.

Section sender.
Context {B : Type} `{!HashOrder, !Glidesort} (rng : nat → nat) (env : ReceiverEndpoint → BatcherEnv)
  (coord : Coord) (keyer : B → N) (mode : BatchMode) (pb b : BlockId) (R : list Coord)
  (gs : list ReceiverEndpoint).
Context (HR : R ≠ []) (Hnd : NoDup R) (Hb : Forall (λ c, block_id c = b) R)
  (Hgs : gs ≡ₚ endpoint_to pb <$> R) (Hmode : wf_mode mode).

Lemma grouped_setup :
  ∃ self, End_setup env coord gs (End_new (GroupBy keyer) mode) = Done self ∧
    (senders self).*1 = endpoint_to pb <$> sorted_coords R ∧
    block_senders self = [seq 0 (length R)].
Proof.
  eexists. split; [reflexivity|]. set (self := mkEnd _ _ _ _ _ _ _ _).
  assert (End_setup env coord gs (End_new (GroupBy keyer) mode) = Done self) as Hset by done.
  destruct (setup_eps _ _ env coord gs _ self Hset) as [Hp Hs].
  assert (∀ l : list ReceiverEndpoint, base.filter (λ ep, block_id (re_coord ep) ∉ []) l = l) as Hall.
  { intros l. apply list_filter_all, Forall_forall. intros; apply not_elem_of_nil. }
  cbn [ignore_block_ids End_new] in Hp. rewrite Hall, Hgs in Hp.
  assert (re_coord <$> (senders self).*1 = sorted_coords R) as E.
  { apply sorted_coords_unique; [|done]. rewrite Hp, <-list_fmap_compose. by rewrite list_fmap_id. }
  assert ((senders self).*1 = endpoint_to pb <$> sorted_coords R) as Eeps.
  { rewrite <-E, <-list_fmap_compose. rewrite <-(list_fmap_id (senders self).*1) at 1.
    apply list_fmap_ext. intros i ep Hi. apply list_elem_of_lookup_2 in Hi. rewrite Hp in Hi.
    by apply list_elem_of_fmap in Hi as (c & -> & _). }
  split; [done|]. rewrite (End_setup_groups _ _ _ _ _ Hset I), Eeps.
  assert (dest_block <$> (endpoint_to pb <$> sorted_coords R) = replicate (length R) b) as ->.
  { rewrite <-list_fmap_compose. rewrite <-(Permutation_length (sorted_coords_perm R)).
    assert (Forall (λ c, block_id c = b) (sorted_coords R)) as Hb' by (by rewrite sorted_coords_perm).
    clear -Hb'. induction Hb' as [|c l Hc _ IH]; [done|]. csimpl. rewrite IH. f_equal. exact Hc. }
  destruct R as [|c R']; [done|]. cbn [length]. by rewrite group_senders_replicate, hash_iter_singleton.
Qed.

(** The share of each replica in a list of items. *)
Lemma grouped_delivery l eps j :
  j < length R → length eps = length R →
  delivered_to rng [seq 0 (length R)] (GroupBy keyer) None eps j 0
    ((Item <$> l) ++ [FlushAndRestart; Terminate]) =
  (Item <$> base.filter (λ x, N.to_nat (keyer x) `mod` length R = j) l) ++ [FlushAndRestart; Terminate].
Proof.
  intros Hj Hl. assert (length R ≠ 0) as Hn by lia. induction l as [|x l IH].
  - cbn -[seq].
    assert (∀ e : StreamElement B, List.filter (λ i, negb (skips None eps e i)) (seq 0 (length R) ++ []) =
      seq 0 (length R)) as Hf.
    { intros e. rewrite app_nil_r. rewrite <-Hl. apply forallb_filter_id, forallb_forall. intros i Hi.
      apply in_seq in Hi. unfold skips. destruct e; try done.
      destruct (lookup_lt_is_Some_2 eps i) as [ep ->]; [lia|]. done. }
    pose proof (Hf FlushAndRestart) as F1. pose proof (Hf Terminate) as F2. cbn -[seq] in F1, F2.
    rewrite F1, F2, !decide_True by (apply elem_of_seq; lia). done.
  - assert (receivers rng [seq 0 (length R)] (GroupBy keyer) None eps 0 (Item x) =
      ([N.to_nat (keyer x) `mod` length R], 0)) as Er.
    { cbn -[seq]. rewrite length_seq, lookup_seq_lt by (by apply Nat.mod_upper_bound). done. }
    rewrite fmap_cons, <-app_comm_cons. cbn [delivered_to]. rewrite Er, IH, filter_cons.
    destruct (decide (N.to_nat (keyer x) `mod` length R = j)) as [<-|Hne].
    + rewrite decide_True by (by apply list_elem_of_singleton). done.
    + rewrite decide_False; [done|]. rewrite list_elem_of_singleton. congruence.
Qed.
End sender.

(** What one sender puts on the network. *)
Lemma grouped_send {B} `{!HashOrder, !Glidesort} rng env coord (keyer : B → N) mode pb b R gs
    (prev : Operator B) `{!OperatorLaws prev} p l p' :
  R ≠ [] → NoDup R → Forall (λ c, block_id c = b) R → gs ≡ₚ endpoint_to pb <$> R → wf_mode mode →
  emits prev p ((Item <$> l) ++ [FlushAndRestart; Terminate]) p' →
  ∃ self self' net',
    End_setup env coord gs (End_new (GroupBy keyer) mode) = Done self ∧
    emits (End rng prev) ((self, mkNetwork ∅ ∅), p)
      (variant <$> ((Item <$> l) ++ [FlushAndRestart; Terminate])) ((self', net'), p') ∧
    ∀ c, c ∈ R →
      Forall (batch_ok coord (max_size mode)) (sent_to net' (endpoint_to pb c)) ∧
      unbatched (sent_to net' (endpoint_to pb c)) =
        (Item <$> base.filter (λ x, owner R (keyer x) = Some c) l) ++ [FlushAndRestart; Terminate].
Proof.
  intros HR Hnd Hb Hgs Hm He.
  destruct (grouped_setup env coord keyer mode pb b R gs HR Hnd Hb Hgs) as (self & Hset & Heps & Hbs).
  assert ((Item <$> l) ++ [FlushAndRestart; Terminate] =
    ((Item <$> l) ++ [FlushAndRestart]) ++ [Terminate]) as E by by rewrite <-(assoc_L (++)).
  rewrite E in *.
  destruct (End_emits rng env coord gs (End_new (GroupBy keyer) mode) self (mkNetwork ∅ ∅) prev p
    ((Item <$> l) ++ [FlushAndRestart]) p' Hset) as (self' & net' & Hend & Hsent & _); [|done|done|..].
  { rewrite Hgs. apply NoDup_fmap_2; [|done]. by intros ?? [= ->]. }
  { intros ep _. simpl. set_solver. }
  { apply Forall_app. split; [apply Forall_fmap, Forall_forall; done|by repeat constructor]. }
  { done. }
  exists self, self', net'. split; [done|]. split; [done|]. intros c Hc.
  rewrite <-(sorted_coords_perm R) in Hc. apply list_elem_of_lookup_1 in Hc as [j Hj].
  assert (length (sorted_coords R) = length R) as Hl by apply Permutation_length, sorted_coords_perm.
  pose proof (lookup_lt_Some _ _ _ Hj) as Hlt. rewrite Hl in Hlt.
  destruct (Hsent j (endpoint_to pb c)) as (ms & Hms & Hok & Hun).
  { by rewrite Heps, list_lookup_fmap, Hj. }
  assert (sent_to (mkNetwork (A := B) ∅ ∅) (endpoint_to pb c) = []) as E0 by done.
  rewrite E0 in Hms. simpl in Hms. rewrite Hms. split; [done|]. rewrite Hun, Hbs, <-E. simpl.
  rewrite grouped_delivery; [|done|by rewrite Heps, length_fmap]. do 2 f_equal.
  apply list_filter_iff. intros x. unfold owner. split.
  - by intros ->.
  - intros Ho. eapply NoDup_lookup; [|exact Ho|exact Hj]. by rewrite sorted_coords_perm.
Qed.

(** ** What a receiver makes of the messages *)
Definition arrived {B} (ch : channel B) : list (NetworkMessage B) :=
  omap (λ a, match a with Arrive m => Some m | Elapse => None end) ch.

Lemma elems_of_tag {B} c (m : NetworkMessage B) :
  elems_of c (tag m) = if decide (sender m = c) then List.filter (λ e, negb (is_flush e)) (data m) else [].
Proof.
  unfold elems_of, tag. induction (data m) as [|e l IH]; csimpl; [by case_decide|]. rewrite IH.
  destruct (is_flush e); case_decide; done.
Qed.
Lemma elems_of_script {B} `{!TypeId B} c delay timed_out (ch : channel B) :
  elems_of c (script_elems delay timed_out ch) =
  List.filter (λ e, negb (is_flush e)) (unbatched (base.filter (λ m, sender m = c) (arrived ch))).
Proof.
  revert timed_out. unfold unbatched, arrived.
  induction ch as [|[m|] ch IH]; intros timed_out; csimpl; [done| |].
  - rewrite elems_of_app, elems_of_tag, IH, filter_cons. case_decide; csimpl; [|done].
    by rewrite List.filter_app.
  - destruct timed_out, delay; csimpl; try apply IH.
Qed.

Lemma script_from {B} `{!TypeId B} cs delay timed_out (ch : channel B) :
  Forall (λ m, sender m ∈ cs) (arrived ch) → from_prevs cs (script_elems delay timed_out ch).
Proof.
  unfold arrived, from_prevs. revert timed_out. induction ch as [|[m|] ch IH]; intros timed_out Hf; csimpl in *.
  - constructor.
  - apply Forall_cons in Hf as [Hm Hf]. apply Forall_app. split; [|by apply IH].
    apply Forall_fmap, Forall_forall. intros e _. by left.
  - destruct timed_out, delay; try apply IH; try done. constructor; [by right|by apply IH].
Qed.
Lemma script_snoc {B} `{!TypeId B} delay timed_out (ch : channel B) m :
  ∃ r, script_elems delay timed_out (ch ++ [Arrive m]) = r ++ tag m.
Proof.
  revert timed_out. induction ch as [|[m'|] ch IH]; intros timed_out; csimpl.
  - exists []. by rewrite app_nil_r.
  - destruct (IH false) as [r ->]. exists (tag m' ++ r). by rewrite (assoc_L (++)).
  - destruct (IH timed_out) as [r E]. destruct timed_out, delay; try (by exists r).
    destruct (IH true) as [r' ->]. by exists ((coord_default, FlushBatch) :: r').
Qed.

(** The items that arrived are those of the senders. *)
Lemma concat_add {X C} `{EqDecision C} (f : C → list X) c x (cs : list C) :
  NoDup cs → c ∈ cs →
  concat ((λ c', (if decide (c = c') then [x] else []) ++ f c') <$> cs) ≡ₚ x :: concat (f <$> cs).
Proof.
  induction cs as [|c1 cs IH]; intros Hnd Hc; [by apply elem_of_nil in Hc|].
  apply NoDup_cons in Hnd as [Hn Hnd]. csimpl. destruct (decide (c = c1)) as [<-|Hne].
  - simpl. constructor. f_equiv.
    assert ((λ c', (if decide (c = c') then [x] else []) ++ f c') <$> cs = f <$> cs) as ->; [|done].
    apply list_fmap_ext. intros i c' Hi. rewrite decide_False; [done|]. intros <-. apply Hn.
    by eapply list_elem_of_lookup_2.
  - apply elem_of_cons in Hc as [?|Hc]; [done|]. rewrite IH by done. simpl. by rewrite Permutation_middle.
Qed.
Lemma partition_by {X C} `{EqDecision C} (by_ : X → C) (cs : list C) (l : list X) :
  NoDup cs → Forall (λ x, by_ x ∈ cs) l →
  l ≡ₚ concat ((λ c, base.filter (λ x, by_ x = c) l) <$> cs).
Proof.
  intros Hnd. induction 1 as [|x l Hx _ IH]; [by clear; induction cs|].
  rewrite IH at 1. rewrite <-(concat_add _ (by_ x)) by done. apply concat_fmap_ext.
  intros c _. rewrite filter_cons. by repeat case_decide.
Qed.
Lemma values_by_sender {B} cs (r : list (Coord * StreamElement B)) :
  NoDup cs → from_prevs cs r →
  values (r.*2) ≡ₚ concat ((λ c, values (elems_of c r)) <$> cs).
Proof.
  intros Hnd. unfold values. induction r as [|[c e] r IH]; intros Hf; csimpl.
  { clear. induction cs; done. }
  apply Forall_cons in Hf as [Hc Hf]. specialize (IH Hf). simpl in Hc.
  assert (∀ c', omap value (match (if is_flush e then None else if decide (c = c') then Some e else None) with
      Some y => y :: elems_of c' r | None => elems_of c' r end) =
    (match value e with Some x => if decide (c = c') then [x] else [] | None => [] end) ++
    omap value (elems_of c' r)) as E.
  { intros c'. destruct e; csimpl; repeat case_decide; csimpl; try done. }
  rewrite (list_fmap_ext _ _ _ (λ i c' _, E c')). clear E.
  destruct (value e) as [x|] eqn:Ex; [|exact IH]. rewrite concat_add; [by constructor|done|].
  destruct Hc as [?| ->]; [done|done].
Qed.

(** What a receiver needs to know of the messages that reach it: they come from the
    replicas [cs], in the order each sent its own, and the last thing is a message. *)
Record delivery {B} (cs : list Coord) (shares : Coord → list B) (ch : channel B) : Prop := {
  dl_from : Forall (λ m, sender m ∈ cs ∧ data m ≠ []) (arrived ch);
  dl_each c : c ∈ cs → unbatched (base.filter (λ m, sender m = c) (arrived ch)) =
    (Item <$> shares c) ++ [FlushAndRestart; Terminate];
  dl_last : ∃ ch0 m, ch = ch0 ++ [Arrive m]
}.

Lemma omap_nil_2 {X Y} (f : X → option Y) l : (∀ x, x ∈ l → f x = None) → omap f l = [].
Proof.
  induction l as [|x l IH]; intros Hl; [done|]. csimpl. rewrite Hl by left. apply IH.
  intros y Hy. apply Hl. by right.
Qed.
Lemma filter_flush_stream {B} (l : list B) :
  List.filter (λ e, negb (is_flush e)) ((Item <$> l) ++ [FlushAndRestart; Terminate]) =
  (Item <$> l) ++ [FlushAndRestart; Terminate].
Proof. induction l as [|x l IH]; csimpl; [done|]. by rewrite IH. Qed.

Lemma delivery_elems {B} `{!TypeId B} cs (shares : Coord → list B) ch delay timed_out c :
  delivery cs shares ch → c ∈ cs →
  elems_of c (script_elems delay timed_out ch) = (Item <$> shares c) ++ [FlushAndRestart; Terminate].
Proof.
  intros Hd Hc. by rewrite elems_of_script, (dl_each _ _ _ Hd c Hc), filter_flush_stream.
Qed.

Lemma delivery_final {B} `{!TypeId B} cs prevs (shares : Coord → list B) ch delay timed_out :
  prevs ≡ₚ cs → delivery cs shares ch → final_round prevs (script_elems delay timed_out ch).
Proof.
  intros Hp Hd. split.
  - apply script_from. eapply Forall_impl; [apply (dl_from _ _ _ Hd)|]. intros m [? _]. by rewrite Hp.
  - pose proof (dl_last _ _ _ Hd) as (ch0 & m & Ech). rewrite Ech.
    destruct (script_snoc delay timed_out ch0 m) as [r ->].
    assert (arrived ch = arrived ch0 ++ [m]) as Ea by (rewrite Ech; unfold arrived; by rewrite omap_app).
    pose proof (dl_from _ _ _ Hd) as Hf. rewrite Ea in Hf. apply Forall_app in Hf as [_ Hf].
    rewrite Forall_singleton in Hf. destruct Hf as [Hs Hne].
    pose proof (dl_each _ _ _ Hd (sender m) Hs) as He.
    rewrite Ea, filter_app, filter_cons_True in He by done. unfold unbatched in He.
    rewrite fmap_app, concat_app in He. simpl in He. rewrite app_nil_r in He.
    destruct (data m) as [|e d _] eqn:Ed using rev_ind; [done|].
    rewrite (assoc_L (++)) in He. rewrite (cons_middle FlushAndRestart) in He.
    change [Terminate] with ([] ++ [@Terminate B]) in He. rewrite !(assoc_L (++)), app_nil_r in He.
    apply app_inj_tail in He as [_ ->]. exists (r ++ ((λ e, (sender m, e)) <$> d)), (sender m).
    unfold tag. rewrite Ed, fmap_app. by rewrite (assoc_L (++)).
  - intros c Hc. rewrite Hp in Hc. exists (Item <$> shares c).
    split; [by apply (delivery_elems cs)|]. apply Forall_fmap, Forall_forall. done.
Qed.

Lemma receive_round {B} `{!TypeId B} cs prevs (shares : Coord → list B) ch delay id s :
  NoDup cs → prevs ≡ₚ cs → round_start prevs s → delivery cs shares ch →
  ∃ outs fl s' rx',
    emits (Start None) (s, simple_rx delay false ch None prevs id)
      (outs ++ FlushAndRestart :: fl ++ [Terminate]) (s', rx') ∧
    Forall (λ e, e = FlushBatch) fl ∧ Forall (λ e, is_data e = true) outs ∧
    omap watermark_ts outs = [] ∧ omap item_ts outs = [] ∧
    values outs ≡ₚ concat (shares <$> cs).
Proof.
  intros Hnd Hp Hs Hd. set (r := script_elems delay false ch).
  destruct (simple_emits delay prevs id ch false None coord_default (or_introl eq_refl)) as [rx' He].
  assert (NoDup prevs) as Hndp by by rewrite Hp.
  destruct (Start_final_runs None prevs s r I Hndp Hs) as (outs & fl & s' & Hruns & Hfl & Ho).
  { by eapply delivery_final. }
  exists outs, fl, s', rx'.
  assert (from_prevs cs r) as Hfrom.
  { apply script_from. eapply Forall_impl; [apply (dl_from _ _ _ Hd)|]. by intros m [? _]. }
  assert (∀ e, e ∈ r.*2 → e = FlushBatch ∨ (∃ x, e = Item x) ∨ e = FlushAndRestart ∨ e = Terminate) as Hkind.
  { intros e Hin. apply list_elem_of_fmap in Hin as ([c e'] & -> & Hin). simpl.
    unfold from_prevs in Hfrom. rewrite Forall_forall in Hfrom.
    destruct (Hfrom _ Hin) as [Hc|Hc]; simpl in Hc; [|by left].
    destruct (is_flush e') eqn:Efl; [left; by destruct e'|right].
    assert (e' ∈ elems_of c r) as Hel.
    { unfold elems_of. apply list_elem_of_omap. exists (c, e'). by rewrite Efl, decide_True. }
    unfold r in Hel. rewrite (delivery_elems cs shares) in Hel by done.
    apply elem_of_app in Hel as [(x & -> & _)%list_elem_of_fmap|Hel]; [eauto|set_solver]. }
  split_and!; [|done|apply Ho| | |].
  - by eapply (refines_emits incoming (starting None)); [apply Start_refines| |].
  - apply (ro_untimed _ _ _ Ho). apply omap_nil_2. intros e He'.
    destruct (Hkind e He') as [->|[[x ->]|[->| ->]]]; done.
  - rewrite <-(item_ts_filter outs), (ro_items _ _ _ Ho), item_ts_filter.
    apply omap_nil_2. intros e He'. destruct (Hkind e He') as [->|[[x ->]|[->| ->]]]; done.
  - assert (∀ l : list (StreamElement B), values l = values (List.filter is_item l)) as Hv.
    { intros l. unfold values. induction l as [|[] l IH]; csimpl; by rewrite ?IH. }
    rewrite (Hv outs), (ro_items _ _ _ Ho), <-Hv, (values_by_sender cs r Hnd Hfrom).
    assert ((λ c, values (elems_of c r)) <$> cs = shares <$> cs) as ->; [|done].
    apply list_fmap_ext. intros i c Hi. apply list_elem_of_lookup_2 in Hi. unfold r.
    rewrite (delivery_elems cs shares) by done. unfold values. clear.
    induction (shares c) as [|x l IH]; csimpl; [done|]. by rewrite IH.
Qed.

(** ** Channels *)
(** What the channel of the receiver [c] hands over: what each sender sent to it, in the
    order it was sent, interleaved in any way, with timeouts anywhere. *)
Record fifo {B} (pb : BlockId) (cs : list Coord) (nets : Coord → Network B) (c : Coord)
    (ch : channel B) : Prop := {
  ff_from : Forall (λ m, sender m ∈ cs) (arrived ch);
  ff_each d : d ∈ cs →
    base.filter (λ m, sender m = d) (arrived ch) = sent_to (nets d) (endpoint_to pb c);
  ff_last : ∃ ch0 m, ch = ch0 ++ [Arrive m]
}.

(** A replica of the block that sends: its items, the chain up to the job, the
    receivers the network gives it, and what of its process is not the job's business. *)
Record Sender (A : Type) := mkSender {
  sn_items : list A;
  sn_src : Operator A;
  sn_laws : OperatorLaws sn_src;
  sn_start : op_state sn_src;
  sn_stop : op_state sn_src;
  sn_receivers : list ReceiverEndpoint;
  sn_env : ReceiverEndpoint → BatcherEnv;
  sn_rng : nat → nat;
  sn_order : HashOrder;
  sn_sort : Glidesort
}.
Global Arguments mkSender {_} _ _ _ _ _ _ _ _ _ _.
Global Arguments sn_items {_} _.
Global Arguments sn_src {_} _.
Global Arguments sn_laws {_} _.
Global Arguments sn_start {_} _.
Global Arguments sn_stop {_} _.
Global Arguments sn_receivers {_} _.
Global Arguments sn_env {_} _.
Global Arguments sn_rng {_} _.
Global Arguments sn_order {_} _.
Global Arguments sn_sort {_} _.
(** Its input is one round, and it is connected to every replica of the next block. *)
Definition sender_ok {A} (pb : BlockId) (R : list Coord) (s : Sender A) : Prop :=
  emits (sn_src s) (sn_start s) ((Item <$> sn_items s) ++ [FlushAndRestart; Terminate]) (sn_stop s) ∧
  sn_receivers s ≡ₚ endpoint_to pb <$> R.
Section exchange.
Context {B : Type} `{!TypeId B} (keyer : B → N) (mode : BatchMode) (pb b : BlockId) (cs R : list Coord).
Context (Hcs : NoDup cs) (HR : NoDup R) (Hne : R ≠ []) (Hb : Forall (λ c, block_id c = b) R)
  (Hmode : wf_mode mode).

(** A replica of the block that sends is set up, runs to [Terminate] and leaves the
    messages [net] behind. *)
Definition sending (order : HashOrder) (sort : Glidesort) (env : ReceiverEndpoint → BatcherEnv)
    (rng : nat → nat) (gs : list ReceiverEndpoint) (c : Coord) (prev : Operator B) (p : op_state prev)
    (net : Network B) : Prop :=
  ∃ self self' out p',
    End_setup env c gs (End_new (GroupBy keyer) mode) = Done self ∧
    emits (End rng prev) ((self, mkNetwork ∅ ∅), p) (out ++ [Terminate]) ((self', net), p').
(** The messages carry the items [l], each to the replica that owns it. *)
Definition carries (c : Coord) (l : list B) (net : Network B) : Prop :=
  ∀ r, r ∈ R →
    Forall (batch_ok c (max_size mode)) (sent_to net (endpoint_to pb r)) ∧
    unbatched (sent_to net (endpoint_to pb r)) =
      (Item <$> base.filter (λ x, owner R (keyer x) = Some r) l) ++ [FlushAndRestart; Terminate].

Lemma sending_carries order sort env rng gs c (prev : Operator B) `{!OperatorLaws prev} p l p' :
  gs ≡ₚ endpoint_to pb <$> R →
  emits prev p ((Item <$> l) ++ [FlushAndRestart; Terminate]) p' →
  ∃ net, sending order sort env rng gs c prev p net ∧ carries c l net.
Proof.
  intros Hgs He.
  destruct (grouped_send rng env c keyer mode pb b R gs prev p l p' Hne HR Hb Hgs Hmode He)
    as (self & self' & net & Hset & Hem & Hsent).
  exists net. split; [|done]. exists self, self'. eexists _, _. split; [exact Hset|].
  rewrite (cons_middle FlushAndRestart), (assoc_L (++)), fmap_app in Hem. exact Hem.
Qed.

(** The replica that owns an item. *)
Definition item_owner (x : B) : Coord := default coord_default (owner R (keyer x)).
Lemma item_owner_spec x : owner R (keyer x) = Some (item_owner x) ∧ item_owner x ∈ R.
Proof. destruct (owner_some R (keyer x) Hne) as (c & E & Hc). unfold item_owner. by rewrite E. Qed.
Lemma item_owner_iff x r : owner R (keyer x) = Some r ↔ item_owner x = r.
Proof. rewrite (proj1 (item_owner_spec x)). naive_solver. Qed.

Lemma fifo_shares (nets : Coord → Network B) (shares : Coord → list B) r ch :
  (∀ c, c ∈ cs → Forall (batch_ok c (max_size mode)) (sent_to (nets c) (endpoint_to pb r)) ∧
     unbatched (sent_to (nets c) (endpoint_to pb r)) = (Item <$> shares c) ++ [FlushAndRestart; Terminate]) →
  fifo pb cs nets r ch → delivery cs shares ch.
Proof.
  intros Hs Hf. split; [|intros c Hc|apply Hf].
  - pose proof (ff_from _ _ _ _ _ Hf) as Hfrom. rewrite Forall_forall in Hfrom |- *. intros m Hm.
    split; [by apply Hfrom|]. destruct (Hs (sender m) (Hfrom m Hm)) as [Hb' _].
    rewrite Forall_forall in Hb'. rewrite <-(ff_each _ _ _ _ _ Hf _ (Hfrom m Hm)) in Hb'.
    destruct (Hb' m) as [_ Hl]; [by apply list_elem_of_filter|]. intros E. rewrite E in Hl. simpl in Hl. lia.
  - rewrite (ff_each _ _ _ _ _ Hf c Hc). by apply Hs.
Qed.
Lemma fifo_delivery (nets : Coord → Network B) (res : Coord → list B) r ch :
  (∀ c, c ∈ cs → Forall (batch_ok c (max_size mode)) (sent_to (nets c) (endpoint_to pb r)) ∧
     unbatched (sent_to (nets c) (endpoint_to pb r)) =
       (Item <$> base.filter (λ x, owner R (keyer x) = Some r) (res c)) ++
       [FlushAndRestart; Terminate]) →
  fifo pb cs nets r ch →
  delivery cs (λ c, base.filter (λ x, item_owner x = r) (res c)) ch.
Proof.
  intros Hs. apply fifo_shares. intros c Hc. destruct (Hs c Hc) as [Hb' ->]. split; [done|].
  do 2 f_equal. apply list_filter_iff. intros x. apply item_owner_iff.
Qed.

(** There are such channels: one sender after the other. *)
Lemma arrived_arrive (l : list (NetworkMessage B)) : arrived (Arrive <$> l) = l.
Proof. unfold arrived. induction l as [|m l IH]; csimpl; [done|]. by rewrite IH. Qed.
Lemma filter_by_sender (f : Coord → list (NetworkMessage B)) d ds :
  NoDup ds → d ∈ ds → (∀ c, c ∈ ds → Forall (λ m, sender m = c) (f c)) →
  base.filter (λ m, sender m = d) (concat (f <$> ds)) = f d.
Proof.
  intros Hnd Hd Hf.
  assert (∀ c l, Forall (λ m : NetworkMessage B, sender m = c) l → c ≠ d →
    base.filter (λ m, sender m = d) l = []) as Hnone.
  { intros c l Hl Hcd. induction Hl as [|m l Hm _ IH]; [done|]. by rewrite filter_cons_False by congruence. }
  induction ds as [|c ds IH]; [by apply elem_of_nil in Hd|]. apply NoDup_cons in Hnd as [Hn Hnd].
  csimpl. rewrite filter_app. destruct (decide (c = d)) as [->|Hcd].
  - rewrite (list_filter_all _ (f d)) by (by apply Hf; left).
    assert (base.filter (λ m, sender m = d) (concat (f <$> ds)) = []) as ->; [|by rewrite app_nil_r].
    clear IH Hd Hnd. induction ds as [|c ds IH]; [done|]. apply not_elem_of_cons in Hn as [Hdc Hn].
    csimpl. rewrite filter_app, (Hnone c), IH; [done|done| |by apply Hf; right; left|done].
    intros c' [->|Hc']%elem_of_cons; apply Hf; [left|by right; right].
  - rewrite (Hnone c) by (done || by apply Hf; left). apply IH; [done| |].
    + by apply elem_of_cons in Hd as [->|?].
    + intros; apply Hf; by right.
Qed.
Lemma fifo_sequential (nets : Coord → Network B) r :
  cs ≠ [] →
  (∀ c, c ∈ cs → Forall (batch_ok c (max_size mode)) (sent_to (nets c) (endpoint_to pb r)) ∧
    sent_to (nets c) (endpoint_to pb r) ≠ []) →
  fifo pb cs nets r (Arrive <$> concat ((λ c, sent_to (nets c) (endpoint_to pb r)) <$> cs)).
Proof.
  intros Hcne Hs.
  assert (∀ c, c ∈ cs → Forall (λ m, sender m = c) (sent_to (nets c) (endpoint_to pb r))) as Hby.
  { intros c Hc. eapply Forall_impl; [apply (Hs c Hc)|]. by intros m [? _]. }
  split.
  - rewrite arrived_arrive. apply Forall_concat, Forall_fmap, Forall_forall. intros c Hc. simpl.
    eapply Forall_impl; [by apply Hby|]. by intros m ->.
  - intros d Hd. rewrite arrived_arrive. by apply (filter_by_sender (λ c, sent_to (nets c) (endpoint_to pb r))).
  - destruct cs as [|c cs' _] using rev_ind; [done|]. destruct (Hs c) as [_ Hl]; [set_solver|].
    destruct (sent_to (nets c) (endpoint_to pb r)) as [|m l _] eqn:El using rev_ind; [done|].
    eexists _, m. rewrite fmap_app, concat_app. simpl. rewrite El, app_nil_r, (assoc_L (++)), fmap_app. done.
Qed.

(** What a receiver reads. *)
Lemma exchange_receive (nets : Coord → Network B) (l : Coord → list B) r ch md :
  (∀ c, c ∈ cs → carries c (l c) (nets c)) → r ∈ R → fifo pb cs nets r ch →
  matching (A := B) pb (em_prev md) ≡ₚ cs →
  ∃ q outs fl st',
    Start_setup md (λ _, Done ch) (Start_new (SimpleStartReceiver_new pb)) = Done q ∧
    emits (Start None) q (outs ++ FlushAndRestart :: fl ++ [Terminate]) st' ∧
    Forall (λ e, e = FlushBatch) fl ∧ Forall (λ e, is_data e = true) outs ∧
    omap watermark_ts outs = [] ∧ omap item_ts outs = [] ∧
    values outs ≡ₚ base.filter (λ x, item_owner x = r) (concat (l <$> cs)).
Proof.
  intros Hnets Hr Hf Hmd.
  destruct (Start_setup_spec md (λ _, Done ch) pb ch eq_refl) as (s & Hset & Hs).
  destruct (receive_round cs _ (λ c, base.filter (λ x, item_owner x = r) (l c)) ch
    (max_delay (em_batch_mode md)) pb s Hcs Hmd Hs) as (outs & fl & s' & rx' & He & Hrest).
  { apply (fifo_delivery nets l); [|done]. intros c Hc. by apply Hnets. }
  eexists _, outs, fl, (s', rx'). split; [exact Hset|]. split; [exact He|].
  destruct Hrest as (? & ? & ? & ? & Hv). split_and!; try done. by rewrite <-concat_filter.
Qed.
Lemma channels_exist (nets : Coord → Network B) (l : Coord → list B) :
  cs ≠ [] → (∀ c, c ∈ cs → carries c (l c) (nets c)) →
  ∃ chans, ∀ r, r ∈ R → fifo pb cs nets r (chans r).
Proof.
  intros Hcne Hnets. eexists. intros r Hr. apply fifo_sequential; [done|]. intros c Hc.
  destruct (Hnets c Hc r Hr) as [Hbo Hu]. split; [done|].
  intros E. rewrite E in Hu. by apply symmetry, app_nil in Hu as [_ ?].
Qed.
End exchange.

(** ** Other strategies *)
(** A replica is set up, runs to [Terminate] and leaves the messages [net] behind. *)
Definition shipping {B} (strategy : NextStrategy B) (mode : BatchMode) (c : Coord) (s : Sender B)
    (net : Network B) : Prop :=
  let _ := sn_order s in let _ := sn_sort s in
  ∃ self self' out p',
    End_setup (sn_env s) c (sn_receivers s) (End_new strategy mode) = Done self ∧
    emits (End (sn_rng s) (sn_src s)) ((self, mkNetwork ∅ ∅), sn_start s) (out ++ [Terminate]) ((self', net), p').
(** The messages carry the share of each of the receivers [to]. *)
Definition ships {B} (mode : BatchMode) (pb : BlockId) (to : list Coord) (c : Coord) (share : Coord → list B)
    (net : Network B) : Prop :=
  ∀ r, r ∈ to →
    Forall (batch_ok c (max_size mode)) (sent_to net (endpoint_to pb r)) ∧
    unbatched (sent_to net (endpoint_to pb r)) = (Item <$> share r) ++ [FlushAndRestart; Terminate].

(** [All], and [OnlyOne] with the one receiver it has, send every item to every receiver. *)
Section everywhere.
Context {B : Type} `{!HashOrder, !Glidesort} (strategy : NextStrategy B) (to : list Coord).
Context (Hst : strategy = All ∨ strategy = OnlyOne ∧ ∃ d, to = [d]).

Lemma everywhere_setup env coord mode pb gs :
  gs ≡ₚ endpoint_to pb <$> to →
  ∃ self, End_setup env coord gs (End_new strategy mode) = Done self ∧
    (senders self).*1 ≡ₚ endpoint_to pb <$> to ∧
    block_senders self = (λ i, [i]) <$> seq 0 (length to).
Proof.
  intros Hgs.
  assert (∃ self, End_setup env coord gs (End_new strategy mode) = Done self ∧
    block_senders self = (λ i, [i]) <$> seq 0 (length to)) as (self & Hset & Hbs).
  { unfold End_setup, setup_senders. cbn -[glidesort group_senders rassert].
    rewrite list_filter_all by (apply Forall_forall; intros; apply not_elem_of_nil).
    destruct Hst as [->|[-> [d ->]]].
    - eexists. split; [done|]. cbn [block_senders].
      by rewrite glidesort_perm, length_fmap, Hgs, length_fmap.
    - cbn in Hgs. apply Permutation_singleton_r in Hgs as ->.
      assert (∀ x : ReceiverEndpoint * Batcher B, glidesort sender_leb [x] = [x]) as E.
      { intros x. apply Permutation_singleton_r, glidesort_perm. }
      cbn -[glidesort group_senders rassert]. rewrite E. cbn -[group_senders rassert].
      pose proof (group_senders_replicate 0 (block_id d)) as Eg. cbn -[group_senders] in Eg.
      rewrite Eg, hash_iter_singleton. eexists. by split. }
  exists self. split_and!; [done| |done].
  destruct (setup_eps _ _ env coord gs _ self Hset) as [Hp _]. cbn [ignore_block_ids End_new] in Hp.
  rewrite list_filter_all in Hp; [by rewrite Hp|]. apply Forall_forall. intros; apply not_elem_of_nil.
Qed.

Lemma everywhere_delivery rng l eps j :
  j < length to → length eps = length to →
  delivered_to rng ((λ i, [i]) <$> seq 0 (length to)) strategy None eps j 0
    ((Item <$> l) ++ [FlushAndRestart; Terminate]) = (Item <$> l) ++ [FlushAndRestart; Terminate].
Proof.
  intros Hj Hl.
  assert (concat ((λ i, [i]) <$> seq 0 (length to)) = seq 0 (length to)) as Ec.
  { generalize (seq 0 (length to)). intros js. induction js as [|i js IH]; csimpl; [done|]. by rewrite IH. }
  assert (∀ e : StreamElement B, List.filter (λ i, negb (skips None eps e i)) (seq 0 (length to)) =
    seq 0 (length to)) as Hf.
  { intros e. rewrite <-Hl. apply forallb_filter_id, forallb_forall. intros i Hi.
    apply in_seq in Hi. unfold skips. destruct e; try done.
    destruct (lookup_lt_is_Some_2 eps i) as [ep ->]; [lia|]. done. }
  induction l as [|x l IH].
  - cbn -[seq]. rewrite Ec. pose proof (Hf FlushAndRestart) as F1. pose proof (Hf Terminate) as F2.
    cbn -[seq] in F1, F2. rewrite F1, F2, !decide_True by (apply elem_of_seq; lia). done.
  - assert (receivers rng ((λ i, [i]) <$> seq 0 (length to)) strategy None eps 0 (Item x) =
      (seq 0 (length to), 0)) as Er.
    { assert (index rng strategy x 0 = (0, 0)) as Ei by (by destruct Hst as [->|[-> _]]).
      cbn -[seq]. rewrite Ei. f_equal. clear. generalize (seq 0 (length to)). intros js.
      induction js as [|i js IH]; csimpl; [done|]. by rewrite IH. }
    rewrite fmap_cons, <-app_comm_cons. cbn [delivered_to]. rewrite Er, IH, decide_True; [done|].
    apply elem_of_seq. lia.
Qed.
End everywhere.

Lemma shipping_everywhere {B} (strategy : NextStrategy B) mode pb to c (s : Sender B) :
  strategy = All ∨ (strategy = OnlyOne ∧ ∃ d, to = [d]) → NoDup to → wf_mode mode → sender_ok pb to s →
  ∃ net, shipping strategy mode c s net ∧ ships mode pb to c (λ _, sn_items s) net.
Proof.
  intros Hst Hnd Hm [He Hgs]. pose proof (sn_laws s). pose (sn_order s) as Ho. pose (sn_sort s) as Hso.
  destruct (everywhere_setup strategy to Hst (sn_env s) c mode pb (sn_receivers s) Hgs) as (self & Hset & Hp & Hbs).
  assert ((Item <$> sn_items s) ++ [FlushAndRestart; Terminate] =
    ((Item <$> sn_items s) ++ [FlushAndRestart]) ++ [Terminate]) as E by by rewrite <-(assoc_L (++)).
  rewrite E in He.
  destruct (End_emits (sn_rng s) (sn_env s) c (sn_receivers s) (End_new strategy mode) self (mkNetwork ∅ ∅)
    (sn_src s) (sn_start s) ((Item <$> sn_items s) ++ [FlushAndRestart]) (sn_stop s) Hset)
    as (self' & net & Hend & Hsent & _); [|done|done|..].
  { rewrite Hgs. apply NoDup_fmap_2; [|done]. by intros ?? [= ->]. }
  { intros ep _. simpl. set_solver. }
  { apply Forall_app. split; [apply Forall_fmap, Forall_forall; done|by repeat constructor]. }
  { done. }
  exists net. split.
  { exists self, self'. eexists _, _. split; [exact Hset|]. rewrite fmap_app in Hend. exact Hend. }
  intros r Hr. assert (endpoint_to pb r ∈ (senders self).*1) as [j Hj]%list_elem_of_lookup_1.
  { rewrite Hp. by apply list_elem_of_fmap_2. }
  destruct (Hsent j _ Hj) as (ms & Hms & Hok & Hun).
  assert (sent_to net (endpoint_to pb r) = ms) as -> by exact Hms.
  assert (length (senders self).*1 = length to) as Hl by by rewrite Hp, length_fmap.
  split; [exact Hok|]. rewrite Hun, Hbs, <-E. cbn [next_strategy feedback_id End_new].
  apply everywhere_delivery; [done| |done]. apply lookup_lt_Some in Hj. lia.
Qed.
