(* ===== verification/GroupByFold.v ===== *)
(** * A distributed aggregation

    [Stream::group_by_fold] ([src/src/operator/mod.rs]): every replica folds its own items
    by key, sends the partial results to the replica that owns the key, and there they are
    folded again.  This file composes the models of the operators of such a job (sources,
    [KeyBy], [KeyedFold], [End], the network, [Start]) and shows that the distributed
    computation is the sequential one. *)
From stdpp Require Import sorting.
From S2P Require Import Prelude StreamElement Operator BasicOps Folds Frontier Batcher Start End Shuffle Exchange.

(** ** Folds by key *)
Section group_fold.
Context {K A O : Type} `{Countable K}.

Definition vals_of (k : K) (kvs : list (K * A)) : list A :=
  omap (λ kv, if decide (kv.1 = k) then Some kv.2 else None) kvs.
(** The sequential specification: one result per key. *)
Definition group_fold (init : O) (f : O → A → O) (kvs : list (K * A)) : list (K * O) :=
  (λ k, (k, foldl f init (vals_of k kvs))) <$> remove_dups (kvs.*1).

Lemma vals_of_app k l1 l2 : vals_of k (l1 ++ l2) = vals_of k l1 ++ vals_of k l2.
Proof. apply omap_app. Qed.
Lemma vals_of_concat k (ls : list (list (K * A))) : vals_of k (concat ls) = concat (vals_of k <$> ls).
Proof. induction ls as [|l ls IH]; csimpl; [done|]. by rewrite vals_of_app, IH. Qed.
Global Instance vals_of_perm k : Proper ((≡ₚ) ==> (≡ₚ)) (vals_of k).
Proof. intros l1 l2 Hp. unfold vals_of. by rewrite Hp. Qed.
Lemma vals_of_nil k kvs : vals_of k kvs = [] ↔ k ∉ kvs.*1.
Proof.
  unfold vals_of. induction kvs as [|[k' v] kvs IH]; csimpl.
  - split; [intros _; apply not_elem_of_nil|done].
  - rewrite not_elem_of_cons, <-IH. destruct (decide (k' = k)); naive_solver.
Qed.

(** A round without timestamps is folded into items. *)
Lemma KeyedFold_items `{!HashOrder} (prev : Operator (K * A)) `{!OperatorLaws prev} (init : O) f p round p' :
  Forall (λ e, is_data e = true) round → omap watermark_ts round = [] → omap item_ts round = [] →
  emits prev p (round ++ [FlushAndRestart]) p' →
  ∃ res,
    emits (KeyedFold prev init f) (KeyedFold_new K O, p) ((Item <$> res) ++ [FlushAndRestart])
      (KeyedFold_new K O, p') ∧
    res ≡ₚ group_fold init f (values round).
Proof.
  intros Hd Hw Ht He. destruct (KeyedFold_emits prev init f p round p' Hd He) as (outs & Hem & Hp).
  assert (outs ≡ₚ Item <$> group_fold init f (values round)) as Hp'.
  { rewrite Hp. unfold group_fold. rewrite <-list_fmap_compose. fold (keys round).
    assert (∀ ks, (∀ k, k ∈ ks → k ∈ keys round) →
      omap (keyed_elem init f round) ks =
      Item ∘ (λ k, (k, foldl f init (vals_of k (values round)))) <$> ks) as ->; [|done|].
    - induction ks as [|k ks IH]; intros Hk; [done|]. csimpl.
      assert (keyed_elem init f round k = Some (Item (k, foldl f init (vals_of k (values round))))) as ->.
      + unfold keyed_elem, keyed_ts, keyed_acc.
        assert (ts_of k round = []) as ->.
        { clear -Ht. unfold ts_of. induction round as [|[[]|[]| | | |] round IH]; csimpl in *; try done; auto. }
        assert (values_of k round ≠ []) as Hne by (apply elem_of_keys, Hk; left).
        change (vals_of k (values round)) with (values_of k round).
        by destruct (values_of k round).
      + f_equal. apply IH. intros k' Hk'. apply Hk. by right.
    - intros k. by rewrite elem_of_remove_dups. }
  apply Permutation_map_inv in Hp' as (res & -> & Hres). exists res. split; [|by rewrite Hres].
  rewrite Hw in Hem. exact Hem.
Qed.
Lemma KeyedFold_terminate `{!HashOrder} (prev : Operator (K * A)) `{!OperatorLaws prev} (init : O) f
    p fl p' :
  Forall (λ e, e = FlushBatch) fl → emits prev p (fl ++ [Terminate]) p' →
  ∃ s, emits (KeyedFold prev init f) (KeyedFold_new K O, p) [Terminate] (s, p').
Proof.
  intros Hfl He. eexists. eapply (refines_emits prev (keyed_folding init f));
    [apply follows_refines; apply _| |exact He].
  clear He. induction Hfl as [|e fl -> _ IH]; simpl.
  - eapply runs_skip; [done|done|]. eapply runs_ready; [done|constructor].
  - eapply runs_skip; [done|done|exact IH].
Qed.
End group_fold.

(** The image of a fold by key under homomorphisms. *)
Lemma fmap_prod_id {X Y} (l : list (X * Y)) : prod_map id id <$> l = l.
Proof. induction l as [|[] l IH]; csimpl; [done|]. by rewrite IH. Qed.
Lemma group_fold_hom {K A O A' O'} `{Countable K} (g : A → A') (obs : O → O') (init : O) f
    (f' : O' → A' → O') (kvs : list (K * A)) :
  (∀ o a, obs (f o a) = f' (obs o) (g a)) →
  prod_map id obs <$> group_fold init f kvs = group_fold (obs init) f' (prod_map id g <$> kvs).
Proof.
  intros Hf. unfold group_fold. rewrite <-!list_fmap_compose.
  assert (fst ∘ prod_map id g <$> kvs = kvs.*1) as -> by (apply list_fmap_ext; by intros ? []).
  apply list_fmap_ext. intros i k _. simpl. f_equal.
  assert (vals_of k (prod_map id g <$> kvs) = g <$> vals_of k kvs) as ->.
  { unfold vals_of. clear. induction kvs as [|[k' a] kvs IH]; csimpl; [done|]. rewrite IH. by case_decide. }
  generalize (vals_of k kvs), init. intros l. induction l as [|a l IH]; intros o; csimpl; [done|].
  by rewrite IH, Hf.
Qed.

(** ** Two phases are one *)
Section two_phase.
Context {K A O : Type} `{Countable K} (init : O) (local : O → A → O) (global : O → O → O).
Context (Hmerge : ∀ l l', global (foldl local init l) (foldl local init l') = foldl local init (l ++ l'))
  (Hcomm : ∀ l l', l ≡ₚ l' → foldl local init l = foldl local init l').

Lemma foldl_global l0 (ls : list (list A)) :
  foldl global (foldl local init l0) (foldl local init <$> ls) = foldl local init (l0 ++ concat ls).
Proof.
  revert l0. induction ls as [|l ls IH]; intros l0; csimpl; [by rewrite app_nil_r|].
  by rewrite Hmerge, IH, (assoc_L (++)).
Qed.

Lemma vals_of_fmap {X} (g : K → X) k ks :
  NoDup ks → vals_of k ((λ k, (k, g k)) <$> ks) = if decide (k ∈ ks) then [g k] else [].
Proof.
  induction ks as [|k' ks IH]; intros Hnd; [done|]. apply NoDup_cons in Hnd as [Hn Hnd].
  unfold vals_of in *. csimpl. rewrite (IH Hnd). destruct (decide (k' = k)) as [->|Hne].
  - rewrite (decide_False (P := k ∈ ks)) by done. rewrite decide_True by left. done.
  - destruct (decide (k ∈ ks)); [rewrite decide_True by (by right)|rewrite decide_False by set_solver]; done.
Qed.
(** The partial results of the senders, put together by the owner of a key. *)
Lemma vals_of_group_fold k (kvs : list (K * A)) :
  vals_of k (group_fold init local kvs) =
  if decide (vals_of k kvs = []) then [] else [foldl local init (vals_of k kvs)].
Proof.
  unfold group_fold. rewrite vals_of_fmap by apply NoDup_remove_dups.
  destruct (decide (vals_of k kvs = [])) as [E|E]; rewrite vals_of_nil in E.
  - by rewrite decide_False by (by rewrite elem_of_remove_dups).
  - rewrite decide_True; [done|]. rewrite elem_of_remove_dups. by apply dec_stable.
Qed.
Lemma vals_of_partials k (inputs : list (list (K * A))) :
  vals_of k (concat (group_fold init local <$> inputs)) =
  foldl local init <$> base.filter (λ l, l ≠ []) (vals_of k <$> inputs).
Proof.
  rewrite vals_of_concat. induction inputs as [|l ls IH]; csimpl; [done|].
  rewrite IH, vals_of_group_fold, filter_cons. destruct (decide (vals_of k l = [])) as [E|E].
  - by rewrite decide_False by tauto.
  - by rewrite decide_True.
Qed.
Lemma concat_filter_ne {X} (ls : list (list X)) : concat (base.filter (λ l, l ≠ []) ls) = concat ls.
Proof.
  induction ls as [|l ls IH]; [done|]. rewrite filter_cons. case_decide as E; simpl; rewrite IH; [done|].
  by destruct l.
Qed.
Lemma filter_ne_nil {X} (ls : list (list X)) : base.filter (λ l, l ≠ []) ls = [] ↔ concat ls = [].
Proof.
  split; [by rewrite <-concat_filter_ne; intros ->|].
  induction ls as [|l ls IH]; [done|]. simpl. intros [-> ?]%app_nil. rewrite filter_cons_False by tauto.
  auto.
Qed.
Lemma partials_keys k (inputs : list (list (K * A))) :
  k ∈ (concat (group_fold init local <$> inputs)).*1 ↔ k ∈ (concat inputs).*1.
Proof.
  assert (k ∉ (concat (group_fold init local <$> inputs)).*1 ↔ k ∉ (concat inputs).*1) as Hn.
  { rewrite <-!vals_of_nil, vals_of_partials, vals_of_concat, <-filter_ne_nil.
    split; [apply fmap_nil_inv|by intros ->]. }
  destruct (decide (k ∈ (concat inputs).*1)), (decide (k ∈ (concat (group_fold init local <$> inputs)).*1));
    tauto.
Qed.

Lemma two_phase_value k (inputs : list (list (K * A))) G :
  vals_of k G ≡ₚ vals_of k (concat (group_fold init local <$> inputs)) →
  foldl global init (vals_of k G) = foldl local init (vals_of k (concat inputs)).
Proof.
  rewrite vals_of_partials. intros Hp. apply Permutation_map_inv in Hp as (ls & -> & Hls).
  rewrite (foldl_global []), vals_of_concat, <-(concat_filter_ne (vals_of k <$> inputs)).
  apply Hcomm. by rewrite Hls.
Qed.

(** The results of the owners of the keys are those of one fold over everything. *)
Context {C : Type} `{EqDecision C} (own : K → C) (R : list C).
Context (Hown : ∀ k, own k ∈ R) (HR : NoDup R).

Lemma two_phase (inputs : list (list (K * A))) (G : C → list (K * O)) (res : C → list (K * O)) :
  (∀ c, c ∈ R → G c ≡ₚ base.filter (λ kv, own kv.1 = c) (concat (group_fold init local <$> inputs))) →
  (∀ c, c ∈ R → res c ≡ₚ group_fold init global (G c)) →
  concat (res <$> R) ≡ₚ group_fold init local (concat inputs).
Proof.
  intros HG Hres. set (P := concat (group_fold init local <$> inputs)) in *.
  set (val := λ k, (k, foldl local init (vals_of k (concat inputs)))).
  assert (∀ c k, c ∈ R → k ∈ (G c).*1 ↔ own k = c ∧ k ∈ (concat inputs).*1) as Hkeys.
  { intros c k Hc. rewrite (HG c Hc), <-partials_keys. fold P. rewrite !list_elem_of_fmap. split.
    - intros ([k' o] & -> & [Ho Hin]%list_elem_of_filter). split; [done|]. by exists (k', o).
    - intros (Ho & [k' o] & -> & Hin). exists (k', o). by rewrite list_elem_of_filter. }
  assert (∀ c k, c ∈ R → own k = c → vals_of k (G c) ≡ₚ vals_of k P) as Hvals.
  { intros c k Hc Ho. rewrite (HG c Hc). unfold vals_of. clear -Ho. induction P as [|[k' o] l IH]; [done|].
    rewrite filter_cons. csimpl. destruct (decide (k' = k)) as [->|Hne].
    - rewrite decide_True by done. csimpl. rewrite decide_True by done. by constructor.
    - destruct (decide (own k' = c)); csimpl; [rewrite decide_False by done|]; exact IH. }
  rewrite (concat_fmap_perm val res (λ c, remove_dups (G c).*1)).
  2: { intros c Hc. rewrite (Hres c Hc). unfold group_fold. erewrite list_fmap_ext; [reflexivity|].
       intros i k Hi. apply list_elem_of_lookup_2 in Hi. rewrite elem_of_remove_dups in Hi.
       apply Hkeys in Hi as [Ho _]; [|done]. unfold val. f_equal. by apply two_phase_value, Hvals. }
  unfold group_fold. fold val. f_equiv. apply NoDup_Permutation.
  - apply (concat_nodup own); [done|intros; apply NoDup_remove_dups|].
    intros c k Hc. rewrite elem_of_remove_dups. intros Hk. by apply Hkeys in Hk as [? _].
  - apply NoDup_remove_dups.
  - intros k. rewrite elem_of_remove_dups, elem_of_concat. split.
    + intros (g & Hg & Hk). apply list_elem_of_fmap in Hg as (c & -> & Hc).
      rewrite elem_of_remove_dups in Hk. by apply Hkeys in Hk as [_ ?].
    + intros Hk. exists (remove_dups (G (own k)).*1). split; [apply list_elem_of_fmap; by exists (own k)|].
      rewrite elem_of_remove_dups. by apply Hkeys.
Qed.
End two_phase.

(** ** [Stream::group_by_fold] *)
Section group_by_fold.
Context {K A O : Type} `{Countable K, !TypeId (K * O)}.
Context (group_by_hash : K → N) (keyer : A → K) (init : O) (local : O → A → O) (global : O → O → O).

(** The chain before the shuffle, the hash the items are shuffled by and the chain after it. *)
Definition local_fold `{!HashOrder} (src : Operator A) : Operator (K * O) :=
  KeyedFold (KeyBy src keyer) init local.
Definition fold_hash (kv : K * O) : N := group_by_hash kv.1.
Definition global_fold `{!HashOrder} (start : Operator (K * O)) : Operator (K * O) :=
  KeyedFold start init global.

Definition keyed (items : list A) : list (K * A) := (λ a, (keyer a, a)) <$> items.

Lemma local_fold_emits `{!HashOrder} (src : Operator A) `{!OperatorLaws src} p items p' :
  emits src p ((Item <$> items) ++ [FlushAndRestart; Terminate]) p' →
  ∃ res st',
    emits (local_fold src) (KeyedFold_new K O, (tt, p)) ((Item <$> res) ++ [FlushAndRestart; Terminate]) st' ∧
    res ≡ₚ group_fold init local (keyed items).
Proof.
  intros He. rewrite (cons_middle FlushAndRestart), (assoc_L (++)) in He.
  apply emits_app_inv in He as (p1 & H1 & H2).
  pose proof (pointwise_emits _ _ _ _ _ FlushAndRestart FlushAndRestart _ eq_refl H1 :
    emits (KeyBy src keyer) (tt, p) _ (tt, p1)) as K1.
  pose proof (pointwise_emits _ _ _ _ [] Terminate Terminate _ eq_refl H2 :
    emits (KeyBy src keyer) (tt, p1) _ (tt, p')) as K2.
  assert (omap (map_elem (λ t, (keyer t, t))) (Item <$> items) = Item <$> keyed items) as E.
  { clear. induction items as [|x l IH]; csimpl; [done|]. by rewrite IH. }
  rewrite E in K1.
  edestruct (λ H1 H2 H3, KeyedFold_items (KeyBy src keyer) init local _ _ _ H1 H2 H3 K1)
    as (res & R1 & Hres).
  { apply Forall_fmap, Forall_forall. done. }
  { clear. by induction (keyed items). }
  { clear. by induction (keyed items). }
  destruct (KeyedFold_terminate (KeyBy src keyer) init local _ [] _ ltac:(constructor) K2) as (st & R2).
  exists res. eexists. split.
  - rewrite (cons_middle FlushAndRestart), (assoc_L (++)). eapply emits_app; [exact R1|exact R2].
  - rewrite Hres. replace (values (Item <$> keyed items)) with (keyed items); [done|].
    clear. unfold values. induction (keyed items) as [|x l IH]; csimpl; [done|]. by rewrite <-IH.
Qed.

Lemma global_fold_emits `{!HashOrder} (start : Operator (K * O)) `{!OperatorLaws start} q outs fl st' :
  Forall (λ e, e = FlushBatch) fl → Forall (λ e, is_data e = true) outs →
  omap watermark_ts outs = [] → omap item_ts outs = [] →
  emits start q (outs ++ FlushAndRestart :: fl ++ [Terminate]) st' →
  ∃ res st',
    emits (global_fold start) (KeyedFold_new K O, q) ((Item <$> res) ++ [FlushAndRestart; Terminate]) st' ∧
    res ≡ₚ group_fold init global (values outs).
Proof.
  intros Hfl Hdat Hw Ht He. rewrite (cons_middle FlushAndRestart), (assoc_L (++)) in He.
  apply emits_app_inv in He as (p1 & H1 & H2).
  destruct (KeyedFold_items start init global _ _ _ Hdat Hw Ht H1) as (res & R1 & Hres).
  destruct (KeyedFold_terminate start init global _ fl _ Hfl H2) as (st & R2).
  exists res. eexists. split; [|exact Hres].
  rewrite (cons_middle FlushAndRestart), (assoc_L (++)). eapply emits_app; [exact R1|exact R2].
Qed.

(** It is set up, runs to [Terminate], and leaves the messages [net] behind. *)
Definition sender_run (mode : BatchMode) (c : Coord) (s : Sender A) (net : Network (K * O)) : Prop :=
  let _ := sn_order s in
  sending fold_hash mode (sn_order s) (sn_sort s) (sn_env s) (sn_rng s) (sn_receivers s) c
    (local_fold (sn_src s)) (KeyedFold_new K O, (tt, sn_start s)) net.

(** A replica of the block that receives is set up with that channel and runs to
    [Terminate], giving the results [res]. *)
Definition receiver_run (pb : BlockId) (order : HashOrder) (md : ExecutionMetadata)
    (ch : channel (K * O)) (res : list (K * O)) : Prop :=
  ∃ q st', Start_setup md (λ _, Done ch) (Start_new (SimpleStartReceiver_new pb)) = Done q ∧
    emits (global_fold (Start None)) (KeyedFold_new K O, q)
      ((Item <$> res) ++ [FlushAndRestart; Terminate]) st'.

Context (pb b : BlockId) (cs R : list Coord) (mode : BatchMode) (senders : Coord → Sender A).
Context (Hcs : NoDup cs) (HR : NoDup R) (Hne : R ≠ []) (Hb : Forall (λ c, block_id c = b) R)
  (Hmode : wf_mode mode) (Hok : ∀ c, c ∈ cs → sender_ok pb R (senders c)).

Definition key_owner (k : K) : Coord := item_owner group_by_hash R k.
(** A sender sends to each receiver the partial results of the keys it owns. *)
Lemma sender_runs c : c ∈ cs →
  ∃ net_res, sender_run mode c (senders c) net_res.1 ∧
    net_res.2 ≡ₚ group_fold init local (keyed (sn_items (senders c))) ∧
    carries fold_hash mode pb R c net_res.2 net_res.1.
Proof.
  intros Hc. destruct (Hok c Hc) as [He Hgs]. set (s := senders c) in *.
  pose proof (sn_laws s) as Hlaws. pose (sn_order s) as Ho.
  destruct (local_fold_emits (sn_src s) _ _ _ He) as (res & st' & Hloc & Hres).
  destruct (sending_carries fold_hash mode pb b R HR Hne Hb Hmode (sn_order s) (sn_sort s)
    (sn_env s) (sn_rng s) (sn_receivers s) c _ _ _ _ Hgs Hloc) as (net & Hrun & Hcar).
  by exists (net, res).
Qed.

(** The whole job: every sender and, whatever the channels do, every receiver runs to
    termination, and the results of the receivers, put together, are as [post] says. *)
Definition aggregation (orders : Coord → HashOrder) (mds : Coord → ExecutionMetadata)
    (post : list (K * O) → Prop) : Prop :=
  ∃ nets : Coord → Network (K * O),
    (∀ c, c ∈ cs → sender_run mode c (senders c) (nets c)) ∧
    (∃ chans, ∀ r, r ∈ R → fifo pb cs nets r (chans r)) ∧
    ∀ chans : Coord → channel (K * O), (∀ r, r ∈ R → fifo pb cs nets r (chans r)) →
    ∃ outs : Coord → list (K * O),
      (∀ r, r ∈ R → receiver_run pb (orders r) (mds r) (chans r) (outs r)) ∧
      post (concat (outs <$> R)).

(** Everything that was read, by key. *)
Definition all_items : list (K * A) := keyed (concat ((λ c, sn_items (senders c)) <$> cs)).

(** What the job computes, seen through [obs]: only the images of the accumulators need
    to be merged properly. *)
Lemma group_by_fold_run {X} (obs : O → X) (local' : X → A → X) (global' : X → X → X)
    (orders : Coord → HashOrder) (mds : Coord → ExecutionMetadata) :
  (∀ o a, obs (local o a) = local' (obs o) a) →
  (∀ o o', obs (global o o') = global' (obs o) (obs o')) →
  (∀ l l', global' (foldl local' (obs init) l) (foldl local' (obs init) l') =
    foldl local' (obs init) (l ++ l')) →
  (∀ l l', l ≡ₚ l' → foldl local' (obs init) l = foldl local' (obs init) l') →
  cs ≠ [] → (∀ r, r ∈ R → matching (A := K * O) pb (em_prev (mds r)) ≡ₚ cs) →
  aggregation orders mds (λ out, prod_map id obs <$> out ≡ₚ group_fold (obs init) local' all_items).
Proof.
  intros Hl Hg Hmerge Hcomm Hcne Hmds.
  destruct (finite_choice _ (mkNetwork ∅ ∅, []) cs sender_runs) as [nr Hnr].
  assert (∀ c, c ∈ cs → carries fold_hash mode pb R c (nr c).2 (nr c).1) as Hcar.
  { intros c Hc. by apply Hnr. }
  exists (λ c, (nr c).1). split_and!; [by intros; apply Hnr|by apply (channels_exist fold_hash
    mode pb b cs R Hcs HR Hne Hb Hmode (λ c, (nr c).1) (λ c, (nr c).2))|].
  intros chans Hch.
  destruct (finite_choice (λ r (oG : list (K * O) * list (K * O)),
      receiver_run pb (orders r) (mds r) (chans r) oG.1 ∧
      oG.1 ≡ₚ group_fold init global oG.2 ∧
      oG.2 ≡ₚ base.filter (λ x, key_owner x.1 = r) (concat ((λ c, (nr c).2) <$> cs))) ([], []) R)
    as [oG HoG].
  { intros r Hr.
    destruct (exchange_receive fold_hash mode pb cs R Hcs Hne (λ c, (nr c).1) (λ c, (nr c).2) r
      (chans r) (mds r) Hcar Hr (Hch r Hr) (Hmds r Hr))
      as (q & outs & fl & st & Hset & He & Hfl & Hdat & Hw & Ht & Hv).
    destruct (global_fold_emits (H0 := orders r) (Start None) q outs fl st Hfl Hdat Hw Ht He)
      as (res & st' & He' & Hres).
    exists (res, values outs). split_and!; [|done|done]. by exists q, st'. }
  exists (λ r, (oG r).1). split; [by intros; apply HoG|].
  assert (all_items = concat ((λ c, keyed (sn_items (senders c))) <$> cs)) as ->.
  { unfold all_items, keyed. by rewrite fmap_concat, <-list_fmap_compose. }
  etransitivity; [|apply (two_phase (obs init) local' global' Hmerge Hcomm (item_owner group_by_hash R) R
    (λ k, proj2 (item_owner_spec _ R Hne k)) HR ((λ c, keyed (sn_items (senders c))) <$> cs)
    (λ r, prod_map id obs <$> (oG r).2) (λ r, prod_map id obs <$> (oG r).1))].
  - by rewrite fmap_concat, <-list_fmap_compose.
  - intros r Hr. destruct (HoG r Hr) as (_ & _ & ->). rewrite <-list_fmap_compose.
    trans (base.filter (λ kv, key_owner kv.1 = r) (prod_map id obs <$> concat ((λ c, (nr c).2) <$> cs))).
    { generalize (concat ((λ c, (nr c).2) <$> cs)). intros l. induction l as [|[k o] l IH]; [done|].
      csimpl. rewrite !filter_cons. simpl. case_decide; csimpl; by rewrite IH. }
    apply filter_Permutation. rewrite fmap_concat, <-list_fmap_compose. apply concat_fmap_ext.
    intros c Hc. simpl. destruct (Hnr c Hc) as (_ & Hres & _).
    apply (fmap_Permutation (prod_map id obs)) in Hres.
    rewrite (group_fold_hom id obs init local local'), fmap_prod_id in Hres by done. exact Hres.
  - intros r Hr. destruct (HoG r Hr) as (_ & -> & _). by rewrite (group_fold_hom obs obs init global global').
Qed.

(** C1. The distributed aggregation is the sequential one.  When [global] merges the results
    of [local] and the order of the items does not matter to the fold, the replicas before
    the shuffle and those after it run to termination, and whatever the interleaving and
    the timeouts of the channels between them, the results of the replicas, put
    together, are one per key of the whole input: the fold with [local] of the key's items. *)
Theorem group_by_fold_distributed (orders : Coord → HashOrder) (mds : Coord → ExecutionMetadata) :
  (∀ l l', global (foldl local init l) (foldl local init l') = foldl local init (l ++ l')) →
  (∀ l l', l ≡ₚ l' → foldl local init l = foldl local init l') →
  cs ≠ [] → (∀ r, r ∈ R → matching (A := K * O) pb (em_prev (mds r)) ≡ₚ cs) →
  aggregation orders mds (λ out, out ≡ₚ group_fold init local all_items).
Proof.
  intros Hmerge Hcomm Hcne Hmds.
  destruct (group_by_fold_run id local global orders mds) as (nets & H1 & H2 & H3); try done.
  exists nets. split_and!; [done..|]. intros chans Hch. destruct (H3 chans Hch) as (outs & Ho & Hp).
  exists outs. split; [done|]. by rewrite <-Hp, fmap_prod_id.
Qed.
End group_by_fold.

(** ** An instance: sums by parity on two replicas before and three after the shuffle *)
Module Example.
Definition cs : list Coord := [mkCoord 0 0 0; mkCoord 0 1 0].
Definition R : list Coord := [mkCoord 1 1 0; mkCoord 1 0 0; mkCoord 1 0 1].
#[local] Instance typ : TypeId (N * N) := 7%N.
Definition items (c : Coord) : list N := if decide (c = mkCoord 0 0 0) then [1; 2; 3]%N else [4; 5]%N.
Definition sender (c : Coord) : Sender N :=
  mkSender (items c) (FakeOperator N) _ ((Item <$> items c) ++ [FlushAndRestart; Terminate]) []
    (endpoint_to 0 <$> R) (λ _, mkBatcherEnv (λ n, Z.of_nat n) (λ _, [])) (λ n, n) key_order
    insertion_glidesort.
Definition md (r : Coord) : ExecutionMetadata :=
  mkExecutionMetadata r R 0 ((λ c, (c, 7%N)) <$> cs) (Fixed 2).

Lemma foldl_add_shift l o : foldl N.add o l = (o + foldl N.add 0 l)%N.
Proof.
  revert o. induction l as [|x l IH]; intros o; cbn [foldl]; [lia|].
  rewrite IH, (IH (0 + x)%N). lia.
Qed.
Lemma group_by_fold_distributed_witness :
  group_fold 0%N N.add (all_items (λ x, x `mod` 2)%N cs sender) = [(0, 6); (1, 9)]%N ∧
  aggregation id (λ x, x `mod` 2)%N 0%N N.add N.add 0%N cs R (Fixed 2) sender (λ _, key_order) md
    (λ out, out ≡ₚ group_fold 0%N N.add (all_items (λ x, x `mod` 2)%N cs sender)).
Proof.
  split; [vm_compute; reflexivity|].
  apply (group_by_fold_distributed id (λ x, x `mod` 2)%N 0%N N.add N.add 0 1 cs R (Fixed 2) sender).
  - apply (bool_decide_unpack _). vm_compute. done.
  - apply (bool_decide_unpack _). vm_compute. done.
  - done.
  - apply (bool_decide_unpack _). vm_compute. done.
  - unfold wf_mode. simpl. lia.
  - intros c _. split; [apply FakeOperator_emits_all|done].
  - intros l l'. by rewrite foldl_app, (foldl_add_shift l' (foldl _ _ l)).
  - induction 1 as [|x l1 l2 _ IH|x y l|l1 l2 l3 _ IH1 _ IH2]; cbn [foldl]; [done| | |by rewrite IH1].
    + by rewrite (foldl_add_shift l1 (0 + x)), (foldl_add_shift l2 (0 + x)), IH.
    + f_equal. lia.
  - done.
  - intros r _. vm_compute. done.
Defined.
End Example.
