(* ===== verification/Aggregations.v ===== *)
(** * The aggregations built on [group_by_fold]

    [Stream::group_by_reduce], [group_by_sum], [group_by_avg], [group_by_count],
    [group_by_max_element] and [group_by_min_element] ([src/src/operator/mod.rs]): each is
    [group_by_fold] with its own accumulator and closures, and all but the count take the
    result out of an [Option] at the end.  Each is shown to compute the aggregate of all the
    items of the key, wherever they were read, and never to unwrap a [None]. *)
From S2P Require Import Prelude StreamElement Operator BasicOps Folds Frontier Batcher Start End Exchange GroupByFold.

(** ** The closures *)
Section closures.
Context {I V : Type}.

(** [group_by_reduce]; [f] is the user's closure, that updates its first argument. *)
Definition reduce_local (f : I → I → I) (acc : option I) (value : I) : option I :=
  match acc with
  | None => Some value
  | Some acc => Some (f acc value)
  end.
Definition reduce_global (f : I → I → I) (acc1 acc2 : option I) : option I :=
  match acc1 with
  | None => acc2
  | Some acc1 => match acc2 with Some acc2 => Some (f acc1 acc2) | None => Some acc1 end
  end.

(** [group_by_sum]; [add] is the [AddAssign] of the values. *)
Definition sum_local (add : V → V → V) (get_value : I → V) (acc : option V) (value : I) : option V :=
  match acc with
  | Some acc => Some (add acc (get_value value))
  | None => Some (get_value value)
  end.
Definition sum_global (add : V → V → V) (acc value : option V) : option V :=
  match acc with
  | None => value
  | Some acc => match value with Some value => Some (add acc value) | None => Some acc end
  end.

(** [usize] addition, that wraps in a build without overflow checks. *)
Definition usize_wrapping_add (a b : N) : N := ((a + b) mod 2 ^ 64)%N.

(** [group_by_avg]: the sum and the number of the items. *)
Definition avg_local (add : V → V → V) (get_value : I → V) (acc : option V * N) (value : I)
    : option V * N :=
  let '(sum, count) := acc in
  let count := usize_wrapping_add count 1 in
  match sum with
  | Some sum => (Some (add sum (get_value value)), count)
  | None => (Some (get_value value), count)
  end.
Definition avg_global (add : V → V → V) (acc local : option V * N) : option V * N :=
  let '(sum, count) := acc in
  let '(local_sum, local_count) := local in
  let count := usize_wrapping_add count local_count in
  match sum with
  | None => (local_sum, count)
  | Some sum => match local_sum with
                | Some local_sum => (Some (add sum local_sum), count)
                | None => (Some sum, count)
                end
  end.
(** The last step of [group_by_avg]; [div] is the user's division by an [f64]. *)
Definition avg_finish {F} (div : V → F → V) (f64_of_usize : N → F) (acc : option V * N) : outcome V :=
  let '(sum, count) := acc in
  sum ← unwrap sum;
  Done (div sum (f64_of_usize count)).

(** [group_by_count]. *)
Definition count_local (count : N) (_ : I) : N := usize_wrapping_add count 1.
Definition count_global (count local_count : N) : N := usize_wrapping_add count local_count.

(** [group_by_max_element] and [group_by_min_element]: the closures given to
    [group_by_reduce]; [gtb v w] is [v > w] and [ltb v w] is [v < w]. *)
Definition max_element (gtb : V → V → bool) (get_value : I → V) (out value : I) : I :=
  if gtb (get_value value) (get_value out) then value else out.
Definition min_element (ltb : V → V → bool) (get_value : I → V) (out value : I) : I :=
  if ltb (get_value value) (get_value out) then value else out.
End closures.

(** [KeyedStream::map] over the results, with a closure that may panic. *)
Definition map_values {K O X} (f : O → outcome X) : list (K * O) → outcome (list (K * X)) :=
  fix go out := match out with
  | [] => Done []
  | (k, v) :: out => x ← f v; res ← go out; Done ((k, x) :: res)
  end.

(** ** The specification: the aggregate of a non-empty list, key by key *)
Definition reduce1 {I} (f : I → I → I) (l : list I) : option I := foldl (reduce_local f) None l.
Definition group_agg {K A X} `{Countable K} (agg : list A → option X) (kvs : list (K * A)) : list (K * X) :=
  omap (λ k, pair k <$> agg (vals_of k kvs)) (remove_dups (kvs.*1)).

Section reduce_laws.
Context {V : Type} (f : V → V → V) (Hassoc : ∀ x y z, f x (f y z) = f (f x y) z) (Hc : ∀ x y, f x y = f y x).

Lemma foldl_reduce {A} (h : A → V) o l :
  foldl (λ x a, reduce_local f x (h a)) o l = reduce_global f o (reduce1 f (h <$> l)).
Proof.
  unfold reduce1. revert o. induction l as [|a l IH] using rev_ind; intros o.
  - by destruct o.
  - rewrite foldl_app, fmap_app, foldl_app, IH. csimpl.
    destruct o as [x|], (foldl (reduce_local f) None (h <$> l)) as [y|]; simpl; try done. by rewrite Hassoc.
Qed.
Lemma reduce1_app l l' : reduce1 f (l ++ l') = reduce_global f (reduce1 f l) (reduce1 f l').
Proof.
  unfold reduce1 at 1. rewrite foldl_app. fold (reduce1 f l).
  rewrite <-(list_fmap_id l') at 2. apply (foldl_reduce id).
Qed.
Lemma reduce1_perm l l' : l ≡ₚ l' → reduce1 f l = reduce1 f l'.
Proof.
  induction 1 as [|x l1 l2 _ IH|x y l|l1 l2 l3 _ IH1 _ IH2]; [done| | |by rewrite IH1].
  - rewrite (reduce1_app [x] l1 : reduce1 f (x :: l1) = _), (reduce1_app [x] l2 : reduce1 f (x :: l2) = _).
    by rewrite IH.
  - rewrite (reduce1_app [y; x] l : reduce1 f (y :: x :: l) = _),
      (reduce1_app [x; y] l : reduce1 f (x :: y :: l) = _).
    f_equal. unfold reduce1; simpl. by rewrite Hc.
Qed.
End reduce_laws.

Lemma reduce1_cons {V} (f : V → V → V) x l : reduce1 f (x :: l) = Some (foldl f x l).
Proof.
  unfold reduce1. simpl. revert x. induction l as [|y l IH]; intros x; simpl; [done|]. apply IH.
Qed.
Lemma map_values_some {K O X} (fin : O → outcome X) (val : O → option X) (out : list (K * O)) :
  (∀ o x, val o = Some x → fin o = Done x) → Forall (λ kv, is_Some (val kv.2)) out →
  map_values fin out = Done (omap (λ kv, pair kv.1 <$> val kv.2) out).
Proof.
  intros Hfin. induction 1 as [|[k o] out [x Hx] _ IH]; [done|]. csimpl in *.
  rewrite (Hfin _ _ Hx). csimpl. rewrite IH. csimpl. by rewrite Hx.
Qed.

Lemma eq_perm {X} (l1 l2 : list X) : l1 = l2 → l1 ≡ₚ l2.
Proof. by intros ->. Qed.
(** The end of a job whose accumulators, seen through [obs], are folds by key. *)
Lemma finish_group {K A O O' X Y} `{Countable K} (fin : O → outcome X) (val : O → option X)
    (view : X → Y) (obs : O → O') (val' : O' → option Y) init (f : O' → A → O') kvs (out : list (K * O)) :
  (∀ o x, val o = Some x → fin o = Done x) →
  (∀ o, view <$> val o = val' (obs o)) →
  (∀ a l, is_Some (val' (foldl f init (a :: l)))) →
  prod_map id obs <$> out ≡ₚ group_fold init f kvs →
  ∃ res, map_values fin out = Done res ∧
    prod_map id view <$> res ≡ₚ group_agg (λ l, val' (foldl f init l)) kvs.
Proof.
  intros Hfin Hval Hsome Hp. eexists. split; [apply (map_values_some fin val)|].
  - done.
  - apply Forall_forall. intros [k o] Hin. simpl.
    assert ((k, obs o) ∈ group_fold init f kvs) as Hk.
    { rewrite <-Hp. apply list_elem_of_fmap. by exists (k, o). }
    apply list_elem_of_fmap in Hk as (k' & [= <- E] & Hk). rewrite elem_of_remove_dups in Hk.
    destruct (vals_of k kvs) as [|a l] eqn:Ev; [by apply vals_of_nil in Ev|].
    specialize (Hsome a l). rewrite <-E, <-Hval in Hsome. by apply fmap_is_Some in Hsome.
  - trans (omap (λ kv : K * O', pair kv.1 <$> val' kv.2) (prod_map id obs <$> out)).
    { apply eq_perm. clear Hp. induction out as [|[k o] out IH]; [done|]. csimpl.
      rewrite <-Hval. destruct (val o); csimpl; by rewrite IH. }
    rewrite Hp. unfold group_fold, group_agg. apply eq_perm.
    induction (remove_dups kvs.*1) as [|k ks IH]; csimpl; [done|]. by rewrite IH.
Qed.

(** ** Counts wrap, and so do their sums *)
Definition usize_of_nat (n : nat) : N := (N.of_nat n mod 2 ^ 64)%N.
Lemma usize_of_nat_add a b : usize_wrapping_add (usize_of_nat a) (usize_of_nat b) = usize_of_nat (a + b).
Proof. unfold usize_wrapping_add, usize_of_nat. by rewrite <-N.Div0.add_mod, Nnat.Nat2N.inj_add. Qed.
Lemma usize_of_nat_S a : usize_wrapping_add (usize_of_nat a) 1 = usize_of_nat (S a).
Proof. rewrite <-Nat.add_1_r. apply (usize_of_nat_add a 1). Qed.
Lemma foldl_count {I} (l : list I) : foldl count_local 0%N l = usize_of_nat (length l).
Proof.
  induction l as [|a l IH] using rev_ind; [done|].
  rewrite foldl_app, length_app, IH. simpl. unfold count_local. by rewrite usize_of_nat_S, Nat.add_1_r.
Qed.
Lemma foldl_avg {I V} (add : V → V → V) (h : I → V) l :
  foldl (avg_local add h) (None, 0%N) l = (reduce1 add (h <$> l), usize_of_nat (length l)).
Proof.
  induction l as [|a l IH] using rev_ind; [done|].
  rewrite foldl_app, fmap_app, length_app, IH, Nat.add_1_r, <-usize_of_nat_S. unfold reduce1.
  rewrite foldl_app. csimpl. by destruct (foldl (reduce_local add) None (h <$> l)).
Qed.

(** ** Greatest elements *)
Section greatest.
Context {V : Type} (gtb : V → V → bool) (Hirr : ∀ v, gtb v v = false)
  (Htrans : ∀ u v w, gtb u v = true → gtb v w = true → gtb u w = true)
  (Htotal : ∀ v w, gtb v w = false → gtb w v = false → v = w).

Definition greater (v w : V) : V := if gtb w v then w else v.
Lemma greater_comm v w : greater v w = greater w v.
Proof.
  unfold greater. destruct (gtb w v) eqn:E1, (gtb v w) eqn:E2; try done; [|by apply Htotal].
  pose proof (Htrans _ _ _ E1 E2) as E. by rewrite Hirr in E.
Qed.
Lemma gtb_false_trans u v w : gtb u v = false → gtb v w = false → gtb u w = false.
Proof.
  intros H1 H2. destruct (gtb u w) eqn:E; [|done]. destruct (gtb v u) eqn:E1.
  - by rewrite (Htrans _ _ _ E1 E) in H2.
  - assert (u = v) as -> by by apply Htotal. congruence.
Qed.
Lemma greater_assoc u v w : greater u (greater v w) = greater (greater u v) w.
Proof.
  unfold greater. destruct (gtb w v) eqn:E1, (gtb v u) eqn:E2; rewrite ?E1, ?E2; try done.
  - by rewrite (Htrans _ _ _ E1 E2).
  - by rewrite (gtb_false_trans w v u).
Qed.
Lemma reduce1_greatest l m : reduce1 greater l = Some m → m ∈ l ∧ Forall (λ v, gtb v m = false) l.
Proof.
  revert m. unfold reduce1. induction l as [|v l IH] using rev_ind; intros m; [done|].
  rewrite foldl_app. simpl. destruct (foldl (reduce_local greater) None l) as [m'|] eqn:E; simpl; intros [= <-].
  - destruct (IH m' eq_refl) as [Hin Hall]. rewrite elem_of_app, Forall_app, Forall_singleton.
    unfold greater. destruct (gtb v m') eqn:Ev.
    + split_and!; [by right; left|eapply Forall_impl; [done|]|apply Hirr]. intros u Hu.
      apply (gtb_false_trans u m'); [done|]. destruct (gtb m' v) eqn:E'; [|done].
      pose proof (Htrans _ _ _ Ev E') as X. by rewrite Hirr in X.
    + by split_and!; [left| |].
  - destruct l as [|x l]; [|by rewrite (reduce1_cons greater x l : foldl _ None (x :: l) = _) in E].
    split; [left|]. apply Forall_singleton, Hirr.
Qed.
End greatest.

(** ** The jobs *)
Section jobs.
Context {K I : Type} `{Countable K} (group_by_hash : K → N) (keyer : I → K).
Context (pb b : BlockId) (cs R : list Coord) (mode : BatchMode) (senders : Coord → Sender I)
  (orders : Coord → HashOrder) (mds : Coord → ExecutionMetadata).
Context (Hcs : NoDup cs) (HR : NoDup R) (Hcne : cs ≠ []) (Hne : R ≠ [])
  (Hb : Forall (λ c, block_id c = b) R) (Hmode : wf_mode mode)
  (Hok : ∀ c, c ∈ cs → sender_ok pb R (senders c)).

Definition job {O} `{!TypeId (K * O)} (init : O) (local : O → I → O) (global : O → O → O)
    (post : list (K * O) → Prop) : Prop :=
  aggregation group_by_hash keyer init local global pb cs R mode senders orders mds post.
Notation items := (all_items keyer cs senders).

Lemma job_run {O O' X Y} `{!TypeId (K * O)} (init : O) local global
    (fin : O → outcome X) (val : O → option X) (view : X → Y)
    (obs : O → O') (local' : O' → I → O') (global' : O' → O' → O') (val' : O' → option Y) :
  (∀ r, r ∈ R → matching (A := K * O) pb (em_prev (mds r)) ≡ₚ cs) →
  (∀ o a, obs (local o a) = local' (obs o) a) →
  (∀ o o', obs (global o o') = global' (obs o) (obs o')) →
  (∀ l l', global' (foldl local' (obs init) l) (foldl local' (obs init) l') =
    foldl local' (obs init) (l ++ l')) →
  (∀ l l', l ≡ₚ l' → foldl local' (obs init) l = foldl local' (obs init) l') →
  (∀ o x, val o = Some x → fin o = Done x) →
  (∀ o, view <$> val o = val' (obs o)) →
  (∀ a l, is_Some (val' (foldl local' (obs init) (a :: l)))) →
  job init local global (λ out, ∃ res, map_values fin out = Done res ∧
    prod_map id view <$> res ≡ₚ group_agg (λ l, val' (foldl local' (obs init) l)) items).
Proof.
  intros Hmds Hl Hg Hmerge Hcomm Hfin Hval Hsome.
  destruct (group_by_fold_run group_by_hash keyer init local global pb b cs R mode senders Hcs HR Hne Hb
    Hmode Hok obs local' global' orders mds Hl Hg Hmerge Hcomm Hcne Hmds) as (nets & H1 & H2 & H3).
  exists nets. split_and!; [done..|]. intros chans Hch. destruct (H3 chans Hch) as (outs & Ho & Hp).
  exists outs. split; [done|].
  by apply (finish_group fin val view obs val' (obs init) local').
Qed.

Lemma job_mono {O} `{!TypeId (K * O)} (init : O) local global (post post' : list (K * O) → Prop) :
  job init local global post → (∀ out, post out → post' out) → job init local global post'.
Proof.
  intros (nets & H1 & H2 & H3) Hpost. exists nets. split_and!; [done..|]. intros chans Hch.
  destruct (H3 chans Hch) as (outs & Ho & Hp). exists outs. split; [done|]. by apply Hpost.
Qed.
Lemma group_agg_ext {A X} (agg agg' : list A → option X) (kvs : list (K * A)) :
  (∀ l, agg l = agg' l) → group_agg agg kvs = group_agg agg' kvs.
Proof.
  intros Ha. unfold group_agg. induction (remove_dups kvs.*1) as [|k ks IH]; csimpl; [done|].
  by rewrite IH, Ha.
Qed.
Lemma group_agg_keys {A X} (agg : list A → option X) (kvs : list (K * A)) :
  (∀ a l, is_Some (agg (a :: l))) → (group_agg agg kvs).*1 = remove_dups (kvs.*1).
Proof.
  intros Hs. unfold group_agg.
  assert (∀ k, k ∈ remove_dups kvs.*1 → is_Some (agg (vals_of k kvs))) as Hk.
  { intros k. rewrite elem_of_remove_dups. intros Hin.
    destruct (vals_of k kvs) eqn:E; [by apply vals_of_nil in E|done]. }
  induction (remove_dups kvs.*1) as [|k ks IH]; [done|]. csimpl. destruct (Hk k) as [x ->]; [left|].
  csimpl. f_equal. apply IH. intros; apply Hk; by right.
Qed.
Lemma unwrap_some {X} (o : option X) x : o = Some x → unwrap o = Done x.
Proof. by intros ->. Qed.

(** Accumulators that are seen as a reduction of the values [h a] of the items. *)
Lemma reduction_run {O V} `{!TypeId (K * O)} (init : O) local global (obs : O → option V)
    (f : V → V → V) (h : I → V) {X} (fin : O → outcome X) (val : O → option X) (view : X → V) :
  (∀ x y z, f x (f y z) = f (f x y) z) → (∀ x y, f x y = f y x) →
  (∀ r, r ∈ R → matching (A := K * O) pb (em_prev (mds r)) ≡ₚ cs) →
  obs init = None →
  (∀ o a, obs (local o a) = reduce_local f (obs o) (h a)) →
  (∀ o o', obs (global o o') = reduce_global f (obs o) (obs o')) →
  (∀ o x, val o = Some x → fin o = Done x) →
  (∀ o, view <$> val o = obs o) →
  job init local global (λ out, ∃ res, map_values fin out = Done res ∧
    prod_map id view <$> res ≡ₚ group_agg (λ l, reduce1 f (h <$> l)) items).
Proof.
  intros Ha Hc Hmds Hi Hl Hg Hfin Hval.
  assert (∀ l, foldl (λ x a, reduce_local f x (h a)) None l = reduce1 f (h <$> l)) as Hr.
  { intros l. by rewrite foldl_reduce. }
  eapply job_mono; [eapply (job_run init local global fin val view obs
    (λ x a, reduce_local f x (h a)) (reduce_global f) id)|]; try done.
  - intros l l'. rewrite Hi, !Hr, fmap_app. by rewrite reduce1_app.
  - intros l l' Hp. rewrite Hi, !Hr. apply reduce1_perm; [done..|]. by rewrite Hp.
  - intros a l. unfold id. rewrite Hi, Hr. csimpl. by rewrite reduce1_cons.
  - intros out (res & Hres & Hp). exists res. split; [done|]. rewrite Hp. apply eq_perm, group_agg_ext.
    intros l. by rewrite Hi, Hr.
Qed.

(** [group_by_reduce] with a closure that is associative and commutative. *)
Theorem group_by_reduce_distributed `{!TypeId (K * option I)} (f : I → I → I) :
  (∀ x y z, f x (f y z) = f (f x y) z) → (∀ x y, f x y = f y x) →
  (∀ r, r ∈ R → matching (A := K * option I) pb (em_prev (mds r)) ≡ₚ cs) →
  job None (reduce_local f) (reduce_global f)
    (λ out, ∃ res, map_values unwrap out = Done res ∧ res ≡ₚ group_agg (reduce1 f) items).
Proof.
  intros Ha Hc Hmds. eapply job_mono;
    [apply (reduction_run None _ _ id f id unwrap id id Ha Hc Hmds); try done|].
  - apply unwrap_some.
  - by intros [].
  - intros out (res & Hres & Hp). exists res. split; [done|]. rewrite fmap_prod_id in Hp. rewrite Hp.
    apply eq_perm, group_agg_ext. intros l. by rewrite list_fmap_id.
Qed.

(** [group_by_sum] with an addition that is associative and commutative. *)
Theorem group_by_sum_distributed {V} `{!TypeId (K * option V)} (add : V → V → V) (get_value : I → V) :
  (∀ x y z, add x (add y z) = add (add x y) z) → (∀ x y, add x y = add y x) →
  (∀ r, r ∈ R → matching (A := K * option V) pb (em_prev (mds r)) ≡ₚ cs) →
  job None (sum_local add get_value) (sum_global add)
    (λ out, ∃ res, map_values unwrap out = Done res ∧
       res ≡ₚ group_agg (λ l, reduce1 add (get_value <$> l)) items).
Proof.
  intros Ha Hc Hmds. eapply job_mono;
    [apply (reduction_run None _ _ id add get_value unwrap id id Ha Hc Hmds); try done|].
  - apply unwrap_some.
  - by intros [].
  - intros out (res & Hres & Hp). exists res. split; [done|]. by rewrite fmap_prod_id in Hp.
Qed.

(** [group_by_count]: the number of the items of the key, at the width of [usize]. *)
Theorem group_by_count_distributed `{!TypeId (K * N)} :
  (∀ r, r ∈ R → matching (A := K * N) pb (em_prev (mds r)) ≡ₚ cs) →
  job 0%N count_local count_global
    (λ out, out ≡ₚ (λ k, (k, usize_of_nat (length (vals_of k items)))) <$> remove_dups (items.*1)).
Proof.
  intros Hmds. eapply job_mono; [apply (group_by_fold_run group_by_hash keyer 0%N count_local count_global pb
    b cs R mode senders Hcs HR Hne Hb Hmode Hok id count_local count_global); try done|].
  - intros l l'. unfold id. rewrite !foldl_count, length_app. apply usize_of_nat_add.
  - intros l l' Hp. unfold id. by rewrite !foldl_count, Hp.
  - cbn beta. intros out Hp. rewrite fmap_prod_id in Hp. rewrite Hp. apply eq_perm. unfold group_fold.
    apply list_fmap_ext. intros i k _. unfold id. by rewrite foldl_count.
Qed.

(** [group_by_avg] over any number of replicas gives one result per key: the sum of the
    values of all the items of the key divided by their number (at the width of [usize]),
    for an addition that is associative and commutative; the [unwrap] of the sum never
    panics. *)
Theorem group_by_avg_distributed {V F} `{!TypeId (K * (option V * N))} (add : V → V → V) (get_value : I → V)
    (div : V → F → V) (f64_of_usize : N → F) :
  (∀ x y z, add x (add y z) = add (add x y) z) → (∀ x y, add x y = add y x) →
  (∀ r, r ∈ R → matching (A := K * (option V * N)) pb (em_prev (mds r)) ≡ₚ cs) →
  job (None, 0%N) (avg_local add get_value) (avg_global add)
    (λ out, ∃ res, map_values (avg_finish div f64_of_usize) out = Done res ∧
       res ≡ₚ group_agg (λ l, (λ sum, div sum (f64_of_usize (usize_of_nat (length l)))) <$>
                              reduce1 add (get_value <$> l)) items).
Proof.
  intros Ha Hc Hmds. set (val := λ acc : option V * N, (λ sum, div sum (f64_of_usize acc.2)) <$> acc.1).
  eapply job_mono; [apply (job_run (None, 0%N) (avg_local add get_value) (avg_global add)
    (avg_finish div f64_of_usize) val id id (avg_local add get_value) (avg_global add) val); try done|].
  - intros l l'. unfold id. rewrite !foldl_avg, fmap_app, reduce1_app, length_app, <-usize_of_nat_add by done.
    simpl. by destruct (reduce1 add (get_value <$> l)), (reduce1 add (get_value <$> l')).
  - intros l l' Hp. unfold id. rewrite !foldl_avg. f_equal; [|by rewrite Hp].
    apply reduce1_perm; [done..|]. by rewrite Hp.
  - intros [[sum|] count] x; simpl; [|done]. by intros [= <-].
  - by intros [[] ?].
  - intros a l. unfold id. rewrite foldl_avg. csimpl. unfold val. simpl. by rewrite reduce1_cons.
  - intros out (res & Hres & Hp). exists res. split; [done|]. rewrite fmap_prod_id in Hp. rewrite Hp.
    apply eq_perm, group_agg_ext. intros l. unfold id. by rewrite foldl_avg.
Qed.

(** [group_by_max_element]: one item per key, whose value is that of an item of the key and
    is exceeded by none.  [gtb] is the [>] of a total order. *)
Lemma max_element_run {V} `{!TypeId (K * option I)} (gtb : V → V → bool) (get_value : I → V) :
  (∀ v, gtb v v = false) →
  (∀ u v w, gtb u v = true → gtb v w = true → gtb u w = true) →
  (∀ v w, gtb v w = false → gtb w v = false → v = w) →
  (∀ r, r ∈ R → matching (A := K * option I) pb (em_prev (mds r)) ≡ₚ cs) →
  job None (reduce_local (max_element gtb get_value)) (reduce_global (max_element gtb get_value))
    (λ out, ∃ res, map_values unwrap out = Done res ∧ res.*1 ≡ₚ remove_dups (items.*1) ∧
       Forall (λ kx, get_value kx.2 ∈ get_value <$> vals_of kx.1 items ∧
         Forall (λ a, gtb (get_value a) (get_value kx.2) = false) (vals_of kx.1 items)) res).
Proof.
  intros Hirr Htrans Htotal Hmds.
  assert (∀ x y, get_value (max_element gtb get_value x y) = greater gtb (get_value x) (get_value y)) as Hmax.
  { intros x y. unfold max_element, greater. by case_match. }
  eapply job_mono; [apply (reduction_run None _ _ (fmap get_value) (greater gtb) get_value unwrap id get_value);
    try done|].
  - intros. by apply greater_assoc.
  - intros. by apply greater_comm.
  - intros [o|] a; simpl; [|done]. by rewrite Hmax.
  - intros [o|] [o'|]; simpl; try done. by rewrite Hmax.
  - apply unwrap_some.
  - cbn beta. intros out (res & Hres & Hp). exists res. split; [done|].
    assert (∀ k v, (k, v) ∈ prod_map id get_value <$> res →
      reduce1 (greater gtb) (get_value <$> vals_of k items) = Some v) as Hin.
    { intros k v. rewrite Hp. intros Hkv. apply list_elem_of_omap in Hkv as (k' & _ & Hk').
      destruct (reduce1 _ _) eqn:E in Hk'; [|done]. by injection Hk' as <- <-. }
    split.
    + rewrite <-(group_agg_keys (λ l, reduce1 (greater gtb) (get_value <$> l))).
      * rewrite <-Hp, <-list_fmap_compose. apply eq_perm, list_fmap_ext. by intros ? [].
      * intros a l. csimpl. by rewrite reduce1_cons.
    + apply Forall_forall. intros [k x] Hkx. simpl.
      destruct (reduce1_greatest gtb Hirr Htrans Htotal (get_value <$> vals_of k items) (get_value x)) as [H1 H2].
      { apply Hin. apply list_elem_of_fmap. by exists (k, x). }
      split; [done|]. by apply Forall_fmap in H2.
Qed.

(** [group_by_max_element] and [group_by_min_element] over any number of replicas give
    exactly one item per key: its value is that of an item of the key, and no item of the
    key, wherever it was read, has a greater (a smaller) one.  [gtb] is the [>] of a total
    order. *)
Theorem group_by_extremes_distributed {V} `{!TypeId (K * option I)} (gtb : V → V → bool) (get_value : I → V) :
  let ltb v w := gtb w v in
  let extreme (better : V → V → bool) out := ∃ res, map_values unwrap out = Done res ∧
    res.*1 ≡ₚ remove_dups (items.*1) ∧
    Forall (λ kx : K * I, get_value kx.2 ∈ get_value <$> vals_of kx.1 items ∧
      Forall (λ a, better (get_value a) (get_value kx.2) = false) (vals_of kx.1 items)) res in
  (∀ v, gtb v v = false) →
  (∀ u v w, gtb u v = true → gtb v w = true → gtb u w = true) →
  (∀ v w, gtb v w = false → gtb w v = false → v = w) →
  (∀ r, r ∈ R → matching (A := K * option I) pb (em_prev (mds r)) ≡ₚ cs) →
  job None (reduce_local (max_element gtb get_value)) (reduce_global (max_element gtb get_value)) (extreme gtb) ∧
  job None (reduce_local (min_element ltb get_value)) (reduce_global (min_element ltb get_value)) (extreme ltb).
Proof.
  intros ltb extreme Hirr Htrans Htotal Hmds. split; [by apply max_element_run|].
  apply (max_element_run ltb); unfold ltb; eauto.
Qed.
End jobs.

(** ** Instances of the hypotheses: two replicas before and three after the shuffle *)
Module Example.
Import GroupByFold.Example.
#[local] Instance typ_avg : TypeId (N * (option N * N)) := 7%N.
#[local] Instance typ_opt : TypeId (N * option N) := 7%N.
Definition parity (x : N) : N := (x mod 2)%N.

Lemma group_by_avg_distributed_witness :
  group_agg (λ l, (λ sum, (sum / usize_of_nat (length l))%N) <$> reduce1 N.add (id <$> l))
    (all_items parity cs sender) = [(0, 3); (1, 3)]%N ∧
  job id parity 0%N cs R (Fixed 2) sender (λ _, key_order) md (None, 0%N)
    (avg_local N.add id) (avg_global N.add)
    (λ out, ∃ res, map_values (avg_finish N.div id) out = Done res ∧
       res ≡ₚ group_agg (λ l, (λ sum, (sum / id (usize_of_nat (length l)))%N) <$> reduce1 N.add (id <$> l))
         (all_items parity cs sender)).
Proof.
  split; [vm_compute; reflexivity|].
  apply (group_by_avg_distributed id parity 0 1 cs R (Fixed 2) sender).
  - apply (bool_decide_unpack _). vm_compute. done.
  - apply (bool_decide_unpack _). vm_compute. done.
  - done.
  - done.
  - apply (bool_decide_unpack _). vm_compute. done.
  - unfold wf_mode. simpl. lia.
  - intros c _. split; [apply FakeOperator_emits_all|done].
  - intros. lia.
  - intros. lia.
  - intros r _. vm_compute. done.
Defined.

Lemma group_by_extremes_distributed_witness :
  job id parity 0%N cs R (Fixed 2) sender (λ _, key_order) md None
    (reduce_local (max_element (λ v w, (w <? v)%N) id)) (reduce_global (max_element (λ v w, (w <? v)%N) id))
    (λ out, ∃ res, map_values unwrap out = Done res ∧
       res.*1 ≡ₚ remove_dups ((all_items parity cs sender).*1) ∧
       Forall (λ kx, kx.2 ∈ id <$> vals_of kx.1 (all_items parity cs sender) ∧
         Forall (λ a, (kx.2 <? a)%N = false) (vals_of kx.1 (all_items parity cs sender))) res).
Proof.
  apply (group_by_extremes_distributed id parity 0 1 cs R (Fixed 2) sender (λ _, key_order) md)
    with (gtb := λ v w, (w <? v)%N) (get_value := id).
  - apply (bool_decide_unpack _). vm_compute. done.
  - apply (bool_decide_unpack _). vm_compute. done.
  - done.
  - done.
  - apply (bool_decide_unpack _). vm_compute. done.
  - unfold wf_mode. simpl. lia.
  - intros c _. split; [apply FakeOperator_emits_all|done].
  - intros v. apply N.ltb_irrefl.
  - intros u v w. rewrite !N.ltb_lt. lia.
  - intros v w. rewrite !N.ltb_ge. lia.
  - intros r _. vm_compute. done.
Defined.
End Example.
