(* ===== verification/Distinct.v ===== *)
(** * Removing duplicates

    [Stream::unique_assoc] and [Stream::unique_assoc_by_key]
    ([src/src/operator/mod.rs]): the replicas of a host drop what the host has already seen,
    with a set they share, the rest is shuffled by its hash, and each receiver drops what it has already
    seen itself.  The first is shown to give every distinct item exactly once, under every
    interleaving of the replicas that share a set.  The second has its tests the wrong way
    round. *)
From S2P Require Import Prelude StreamElement Operator BasicOps Folds Frontier Batcher Start End Exchange.

(** ** [Stream::rich_map] and [Stream::rich_flat_map] with a closure that returns an [Option]

    A closure has a state [C] and is called with it. *)
Section rich_flat_map.
Context {A O C : Type} (src : Operator A) (call : C → A → option O * C) (init : C).

Definition rich_map : Operator (option O) :=
  Map (RichMap (KeyBy src (λ _, ())) (λ c (_ : ()) v, call c v) init) snd.
Definition rich_flat_map : Operator O := mkOperator _ (Flatten_next rich_map id).
Definition rich_flat_map_new (p : op_state src) : op_state rich_flat_map :=
  (mkFlatten None None, (tt, (∅, (tt, p)))).

(** What comes out: at most one item for each that goes in. *)
Fixpoint rich_out (c : C) (l : list (StreamElement A)) : list (StreamElement O) :=
  match l with
  | [] => []
  | Item v :: l => (Item <$> option_list (call c v).1) ++ rich_out (call c v).2 l
  | Timestamped v ts :: l => ((λ y, Timestamped y ts) <$> option_list (call c v).1) ++ rich_out (call c v).2 l
  | Watermark ts :: l => Watermark ts :: rich_out c l
  | FlushBatch :: l => FlushBatch :: rich_out c l
  | Terminate :: l => Terminate :: rich_out c l
  | FlushAndRestart :: l => FlushAndRestart :: rich_out c l
  end.
(** The answers of the closure to a list of items. *)
Fixpoint call_all (c : C) (vs : list A) : list O :=
  match vs with
  | [] => []
  | v :: vs => option_list (call c v).1 ++ call_all (call c v).2 vs
  end.

Lemma rich_out_values c l : values (rich_out c l) = call_all c (values l).
Proof.
  unfold values. revert c. induction l as [|[v|v ts|ts| | |] l IH]; intros c; csimpl; try done;
    rewrite omap_app, IH; f_equal; by destruct (call c v).1.
Qed.
Lemma rich_out_items c vs l :
  (∀ c, rich_out c l = l ≫= λ e, match e with FlushAndRestart => [FlushAndRestart] | _ => [Terminate] end) →
  rich_out c ((Item <$> vs) ++ l) =
  (Item <$> call_all c vs) ++ (l ≫= λ e, match e with FlushAndRestart => [FlushAndRestart] | _ => [Terminate] end).
Proof.
  intros Hl. revert c. induction vs as [|v vs IH]; intros c; csimpl; [apply Hl|].
  by rewrite fmap_app, IH, (assoc_L (++)).
Qed.

Lemma rich_stages c l :
  ∀ m : gmap () C, default init (m !! tt) = c →
  (omap (map_elem snd) (mealy_out (rich_map_step (λ c (_ : ()) v, call c v) init) m
     (omap (map_elem (λ t, ((), t))) l)).1) ≫= flatten_elem id = rich_out c l.
Proof.
  revert c. induction l as [|e l IH]; intros c m Hm; [done|].
  destruct e as [v|v ts|ts| | |]; csimpl.
  1,2: rewrite Hm; destruct (mealy_out _ _ _) as [o m'] eqn:E; csimpl;
    rewrite <-(IH (call c v).2 (<[tt := (call c v).2]> m)) by (by rewrite lookup_insert_eq);
    by rewrite E.
  all: destruct (mealy_out _ _ _) as [o m'] eqn:E; csimpl; f_equal;
    by rewrite <-(IH c m Hm), E.
Qed.

Lemma mealy_out_app {X Y S} (step : S → StreamElement X → StreamElement Y * S) s l1 l2 :
  (mealy_out step s (l1 ++ l2)).1 =
  (mealy_out step s l1).1 ++ (mealy_out step (mealy_out step s l1).2 l2).1.
Proof.
  revert s. induction l1 as [|x l1 IH]; intros s; simpl; [done|]. destruct (step s x) as [y s1].
  specialize (IH s1). destruct (mealy_out step s1 (l1 ++ l2)), (mealy_out step s1 l1). simpl in *. by rewrite IH.
Qed.

Lemma rich_flat_map_emits `{!OperatorLaws src} p l p' :
  emits src p (l ++ [Terminate]) p' →
  ∃ st', emits rich_flat_map (rich_flat_map_new p) (rich_out init l ++ [Terminate]) st'.
Proof.
  intros He.
  pose proof (pointwise_emits src _ _ _ l Terminate Terminate _ eq_refl He :
    emits (KeyBy src (λ _, ())) (tt, p) _ (tt, p')) as E1.
  pose proof (mealy_emits (KeyBy src (λ _, ())) (rich_map_step (λ c (_ : ()) v, call c v) init) _ ∅ _ _ _ E1 :
    emits (RichMap (KeyBy src (λ _, ())) (λ c (_ : ()) v, call c v) init) (∅, (tt, p)) _ (_, (tt, p'))) as E2.
  rewrite mealy_out_app in E2.
  pose proof (pointwise_emits _ _ _ _ _ Terminate Terminate _ eq_refl E2 :
    emits rich_map (tt, (∅, (tt, p))) _ (tt, (_, (tt, p')))) as E3.
  destruct (flatten_runs_upto (id : option O → option O) Terminate Terminate
    (omap (map_elem snd) (mealy_out (rich_map_step (λ c (_ : ()) v, call c v) init) ∅
      (omap (map_elem (λ t, ((), t))) l)).1) (mkFlatten None None) (λ s, eq_refl)) as [ts Hr].
  rewrite (rich_stages init) in Hr by done. eexists.
  eapply (refines_emits rich_map (flattening id)); [apply follows_refines; apply _|exact Hr|exact E3].
Qed.
Global Instance rich_flat_map_laws `{!OperatorLaws src} : OperatorLaws rich_flat_map.
Proof. unfold rich_flat_map. apply (follows_laws rich_map (flattening id) _). Qed.
End rich_flat_map.

(** ** [unique_assoc] *)
Section closures.
Context {B : Type} `{Countable B}.

(** The closure before the shuffle; [seen n] is what [local_set.contains] answers in its
    [n]-th call, which depends on the other replicas of the host. *)
Definition unique_local (seen : nat → bool) (n : nat) (el : B) : option B * nat :=
  if seen n then (None, S n) else (Some el, S n).
(** The closure after the shuffle, with a set of its own. *)
Definition unique_final (final_set : gset B) (el : B) : option B * gset B :=
  if decide (el ∈ final_set) then (None, final_set) else (Some el, {[el]} ∪ final_set).

(** The set shared by the replicas of a host: each operation on it is atomic, but a call
    of the closure makes two. *)
Inductive set_op :=
| Contains (c : Coord) (el : B) (found : bool)
| Insert (c : Coord) (el : B).
Definition op_by (o : set_op) : Coord :=
  match o with Contains c _ _ => c | Insert c _ => c end.
(** What the set answers to operations in this order. *)
Fixpoint set_run (s : gset B) (t : list set_op) : Prop :=
  match t with
  | [] => True
  | Contains _ el found :: t => found = bool_decide (el ∈ s) ∧ set_run s t
  | Insert _ el :: t => set_run ({[el]} ∪ s) t
  end.
(** The operations of one replica, from its [n]-th call on. *)
Fixpoint replica_ops (c : Coord) (seen : nat → bool) (n : nat) (items : list B) : list set_op :=
  match items with
  | [] => []
  | el :: items =>
      (if seen n then [Contains c el true] else [Contains c el false; Insert c el]) ++
      replica_ops c seen (S n) items
  end.
(** The replicas [cs] of a host ran with one set: there is an order of all their operations
    in which each replica makes its own, and the set answers what they saw. *)
Definition share_set (cs : list Coord) (items : Coord → list B) (seen : Coord → nat → bool) : Prop :=
  ∃ t, set_run ∅ t ∧ Forall (λ o, op_by o ∈ cs) t ∧
    ∀ c, c ∈ cs → base.filter (λ o, op_by o = c) t = replica_ops c (seen c) 0 (items c).

Lemma set_run_found s t c el found :
  set_run s t → Contains c el found ∈ t → found = true → el ∈ s ∨ ∃ c', Insert c' el ∈ t.
Proof.
  revert s. induction t as [|o t IH]; intros s Hr Hin Hf; [by apply elem_of_nil in Hin|].
  apply elem_of_cons in Hin as [<-|Hin].
  - destruct Hr as [-> _]. apply bool_decide_eq_true in Hf. by left.
  - destruct o as [c' el' f'|c' el']; simpl in Hr.
    + destruct (IH s) as [?|(c2 & ?)]; [apply Hr|done..|by left|]. right. exists c2. by right.
    + destruct (IH _ Hr Hin Hf) as [Hel|(c2 & ?)].
      * apply elem_of_union in Hel as [->%elem_of_singleton|?]; [|by left]. right. exists c'. left.
      * right. exists c2. by right.
Qed.

Lemma call_local_cons seen n el items :
  call_all (unique_local seen) n (el :: items) =
  (if seen n then [] else [el]) ++ call_all (unique_local seen) (S n) items.
Proof. simpl. unfold unique_local at 1 3. by destruct (seen n). Qed.
Lemma call_final_cons s v vs :
  call_all unique_final s (v :: vs) =
  if decide (v ∈ s) then call_all unique_final s vs else v :: call_all unique_final ({[v]} ∪ s) vs.
Proof. simpl. unfold unique_final at 1 3. by case_decide. Qed.
Lemma replica_ops_asked c seen n items el :
  el ∈ items → ∃ found, Contains c el found ∈ replica_ops c seen n items.
Proof.
  revert n. induction items as [|el' items IH]; intros n Hel; [by apply elem_of_nil in Hel|].
  apply elem_of_cons in Hel as [<-|Hel]; simpl.
  - exists (seen n). destruct (seen n); left.
  - destruct (IH (S n) Hel) as [found Hf]. exists found. apply elem_of_app. by right.
Qed.
Lemma replica_ops_emits c seen n items el :
  Contains c el false ∈ replica_ops c seen n items ∨ Insert c el ∈ replica_ops c seen n items →
  el ∈ call_all (unique_local seen) n items.
Proof.
  revert n. induction items as [|el' items IH]; intros n; [simpl; rewrite !elem_of_nil; tauto|].
  rewrite call_local_cons. cbn [replica_ops]. destruct (seen n); simpl.
  - rewrite !elem_of_cons. intros [[?|?]|[?|?]]; try done; apply IH; auto.
  - rewrite !elem_of_cons. intros Hin.
    destruct (decide (el = el')) as [->|Hne]; [by left|right]. apply IH. naive_solver.
Qed.
Lemma call_local_items seen n items el : el ∈ call_all (unique_local seen) n items → el ∈ items.
Proof.
  revert n. induction items as [|el' items IH]; intros n; [done|].
  rewrite call_local_cons. destruct (seen n); simpl; rewrite ?elem_of_cons; naive_solver.
Qed.

(** The replicas of a host pass on what they read, and every distinct item at least once. *)
Lemma share_set_emits cs items seen el :
  share_set cs items seen →
  (∃ c, c ∈ cs ∧ el ∈ call_all (unique_local (seen c)) 0 (items c)) ↔ (∃ c, c ∈ cs ∧ el ∈ items c).
Proof.
  intros (t & Hrun & Hfrom & Heach). split.
  - intros (c & Hc & Hel). exists c. split; [done|]. by eapply call_local_items.
  - intros (c & Hc & Hel). destruct (replica_ops_asked c (seen c) 0 (items c) el Hel) as [found Hf].
    destruct found.
    + rewrite <-Heach in Hf by done. apply list_elem_of_filter in Hf as [_ Hf].
      destruct (set_run_found ∅ t c el true Hrun Hf eq_refl) as [?|(c' & Hi)]; [by apply not_elem_of_empty in H0|].
      rewrite Forall_forall in Hfrom. pose proof (Hfrom _ Hi) as Hc'. simpl in Hc'. exists c'. split; [done|].
      apply (replica_ops_emits c'). right. rewrite <-Heach by done. by apply list_elem_of_filter.
    + exists c. split; [done|]. apply (replica_ops_emits c). by left.
Qed.

(** The closure after the shuffle keeps the first of each. *)
Lemma call_final_spec s vs :
  NoDup (call_all unique_final s vs) ∧
  ∀ el, el ∈ call_all unique_final s vs ↔ el ∈ vs ∧ el ∉ s.
Proof.
  revert s. induction vs as [|v vs IH]; intros s; [split; [constructor|set_solver]|].
  rewrite call_final_cons. destruct (decide (v ∈ s)).
  - destruct (IH s) as [Hnd Hel]. split; [done|]. intros el. rewrite Hel. set_solver.
  - destruct (IH ({[v]} ∪ s)) as [Hnd Hel]. split.
    + constructor; [|done]. rewrite Hel. set_solver.
    + intros el. rewrite elem_of_cons, Hel. destruct (decide (el = v)) as [->|]; set_solver.
Qed.
End closures.

(** ** The job *)
Section unique_assoc.
Context {B : Type} `{Countable B, !TypeId B} (item_hash : B → N).
Context (pb b : BlockId) (cs R : list Coord) (mode : BatchMode) (senders : Coord → Sender B)
  (seen : Coord → nat → bool) (mds : Coord → ExecutionMetadata).

(** A replica before the shuffle, and one after it that gives the items [res]. *)
Definition unique_sender_run (c : Coord) (net : Network B) : Prop :=
  let s := senders c in
  sending item_hash mode (sn_order s) (sn_sort s) (sn_env s) (sn_rng s) (sn_receivers s) c
    (rich_flat_map (sn_src s) (unique_local (seen c)) 0) (rich_flat_map_new (sn_src s) (unique_local (seen c)) 0 (sn_start s)) net.
Definition unique_receiver_run (md : ExecutionMetadata) (ch : channel B) (res : list B) : Prop :=
  ∃ q out st', Start_setup md (λ _, Done ch) (Start_new (SimpleStartReceiver_new pb)) = Done q ∧
    emits (rich_flat_map (Start None) unique_final ∅) (rich_flat_map_new (Start None) unique_final ∅ q) (out ++ [Terminate]) st' ∧
    values out = res.

Context (Hcs : NoDup cs) (HR : NoDup R) (Hcne : cs ≠ []) (Hne : R ≠ [])
  (Hb : Forall (λ c, block_id c = b) R) (Hmode : wf_mode mode)
  (Hok : ∀ c, c ∈ cs → sender_ok pb R (senders c))
  (Hmds : ∀ r, r ∈ R → matching (A := B) pb (em_prev (mds r)) ≡ₚ cs).

Notation items := (λ c, sn_items (senders c)).
Notation passed := (λ c, call_all (unique_local (seen c)) 0 (items c)).

Lemma unique_sender_runs c : c ∈ cs →
  ∃ net, unique_sender_run c net ∧ carries item_hash mode pb R c (passed c) net.
Proof.
  intros Hc. destruct (Hok c Hc) as [He Hgs]. pose proof (sn_laws (senders c)) as Hlaws.
  rewrite (cons_middle FlushAndRestart), (assoc_L (++)) in He.
  destruct (rich_flat_map_emits (sn_src (senders c)) (unique_local (seen c)) 0 _ _ _ He) as (st' & He').
  rewrite rich_out_items in He' by done.
  rewrite <-(assoc_L (++)) in He'.
  apply (sending_carries item_hash mode pb b R HR Hne Hb Hmode (sn_order (senders c)) (sn_sort (senders c))
    (sn_env (senders c)) (sn_rng (senders c)) (sn_receivers (senders c)) c
    (rich_flat_map (sn_src (senders c)) (unique_local (seen c)) 0) _ (passed c) st' Hgs He').
Qed.

Lemma unique_receiver_runs (nets : Coord → Network B) chans r :
  (∀ c, c ∈ cs → carries item_hash mode pb R c (passed c) (nets c)) →
  r ∈ R → fifo pb cs nets r (chans r) →
  ∃ res, unique_receiver_run (mds r) (chans r) res ∧ NoDup res ∧
    ∀ el, el ∈ res ↔ item_owner item_hash R el = r ∧ el ∈ concat (passed <$> cs).
Proof.
  intros Hcar Hr Hf.
  destruct (exchange_receive item_hash mode pb cs R Hcs Hne nets passed r (chans r) (mds r) Hcar Hr Hf (Hmds r Hr))
    as (q & outs & fl & st & Hset & He & Hfl & _ & _ & _ & Hv).
  rewrite app_comm_cons, (assoc_L (++)) in He.
  destruct (rich_flat_map_emits (Start None) unique_final ∅ _ _ _ He) as (st' & He').
  eexists. split; [by eexists q, _, st'|]. rewrite rich_out_values.
  assert (values (outs ++ FlushAndRestart :: fl) = values outs) as ->.
  { unfold values. rewrite omap_app. csimpl. rewrite (omap_nil_2 _ fl), app_nil_r; [done|].
    rewrite Forall_forall in Hfl. by intros e ->%Hfl. }
  destruct (call_final_spec ∅ (values outs)) as [Hnd Hel]. split; [done|]. intros el.
  rewrite Hel, Hv, list_elem_of_filter. set_solver.
Qed.

(** C28. [unique_assoc] gives every distinct item of the whole input exactly once, whatever
    the interleaving of the replicas that share a set, the order in which the messages
    arrive and the timeouts: the replicas before and after the shuffle run to termination
    and the items of the latter, put together, are the distinct items of the former. *)
Theorem unique_assoc_distributed :
  (∀ h, share_set (base.filter (λ c, host_id c = h) cs) items seen) →
  ∃ nets : Coord → Network B,
    (∀ c, c ∈ cs → unique_sender_run c (nets c)) ∧
    (∃ chans, ∀ r, r ∈ R → fifo pb cs nets r (chans r)) ∧
    ∀ chans, (∀ r, r ∈ R → fifo pb cs nets r (chans r)) →
    ∃ outs : Coord → list B,
      (∀ r, r ∈ R → unique_receiver_run (mds r) (chans r) (outs r)) ∧
      concat (outs <$> R) ≡ₚ remove_dups (concat (items <$> cs)).
Proof.
  intros Hshare. destruct (finite_choice _ (mkNetwork ∅ ∅) cs unique_sender_runs) as [nets Hnets].
  assert (∀ c, c ∈ cs → carries item_hash mode pb R c (passed c) (nets c)) as Hcar by (intros; by apply Hnets).
  exists nets. split_and!; [by intros; apply Hnets|by apply (channels_exist item_hash mode pb b cs R Hcs HR Hne Hb
    Hmode nets passed)|].
  intros chans Hch.
  destruct (finite_choice _ [] R (λ r Hr, unique_receiver_runs nets chans r Hcar Hr (Hch r Hr))) as [outs Houts].
  exists outs. split; [by intros; apply Houts|]. apply NoDup_Permutation.
  - apply (concat_nodup (item_owner item_hash R)); [done|by intros; apply Houts|].
    intros r el Hr Hel. by apply (Houts r Hr) in Hel as [? _].
  - apply NoDup_remove_dups.
  - intros el. rewrite elem_of_remove_dups. trans (el ∈ concat (passed <$> cs)).
    + rewrite elem_of_concat. split.
      * intros (g & Hg & Hel). apply list_elem_of_fmap in Hg as (r & -> & Hr). by apply (Houts r Hr) in Hel as [_ ?].
      * intros Hel. destruct (item_owner_spec item_hash R Hne el) as [_ Hr].
        eexists. split; [apply list_elem_of_fmap; by eexists|]. by apply (Houts _ Hr).
    + rewrite !elem_of_concat. split; intros (g & Hg & Hel); apply list_elem_of_fmap in Hg as (c & -> & Hc);
        destruct (share_set_emits _ items seen el (Hshare (host_id c))) as [H1 H2];
        [destruct H1 as (c' & Hc' & Hel')|destruct H2 as (c' & Hc' & Hel')];
        try (exists c; by rewrite list_elem_of_filter);
        apply list_elem_of_filter in Hc' as [_ Hc']; eexists; (split; [apply list_elem_of_fmap; by eexists|]); done.
Qed.
End unique_assoc.

(** ** [unique_assoc_by_key] *)
Section by_key.
Context {A K : Type} `{Countable K} (f : A → K).

(** The closures: [inserted n] is what [local_set.insert] answers in the [n]-th call of the
    first; [insert] answers whether the key was new. *)
Definition by_key_local (inserted : nat → bool) (n : nat) (el : A) : option A * nat :=
  if negb (inserted n) then (Some el, S n) else (None, S n).
Definition by_key_final (final_set : gset K) (el : A) : option A * gset K :=
  let k := f el in
  let inserted := bool_decide (k ∉ final_set) in
  (if negb inserted then Some el else None, {[k]} ∪ final_set).

(** The set of the replicas of a host: who inserts which key, and the answer. *)
Fixpoint inserts_run (s : gset K) (t : list (Coord * (K * bool))) : Prop :=
  match t with
  | [] => True
  | (_, (k, inserted)) :: t => inserted = bool_decide (k ∉ s) ∧ inserts_run ({[k]} ∪ s) t
  end.
Fixpoint replica_inserts (c : Coord) (inserted : nat → bool) (n : nat) (items : list A) : list (Coord * (K * bool)) :=
  match items with
  | [] => []
  | el :: items => (c, (f el, inserted n)) :: replica_inserts c inserted (S n) items
  end.
Definition share_keys (cs : list Coord) (items : Coord → list A) (inserted : Coord → nat → bool) : Prop :=
  ∃ t, inserts_run ∅ t ∧ Forall (λ o, o.1 ∈ cs) t ∧
    ∀ c, c ∈ cs → base.filter (λ o, o.1 = c) t = replica_inserts c (inserted c) 0 (items c).

Lemma inserts_run_new s t :
  inserts_run s t → NoDup (t.*2.*1) → (∀ k, k ∈ t.*2.*1 → k ∉ s) → Forall (λ o, o.2.2 = true) t.
Proof.
  revert s. induction t as [|[c [k b]] t IH]; intros s Hr Hnd Hs; [constructor|]. csimpl in *.
  destruct Hr as [-> Hr]. apply NoDup_cons in Hnd as [Hk Hnd]. constructor.
  - simpl. apply bool_decide_eq_true, Hs. left.
  - apply (IH _ Hr Hnd). intros k' Hk'. pose proof (Hs k' ltac:(by right)). set_solver.
Qed.
Lemma replica_inserts_keys c inserted n items : (replica_inserts c inserted n items).*2.*1 = f <$> items.
Proof. revert n. induction items as [|el items IH]; intros n; csimpl; [done|]. by rewrite IH. Qed.
Lemma by_key_local_none c inserted n items :
  Forall (λ o, o.2.2 = true) (replica_inserts c inserted n items) → call_all (by_key_local inserted) n items = [].
Proof.
  revert n. induction items as [|el items IH]; intros n; [done|]. cbn [replica_inserts].
  intros [Hn Hi]%Forall_cons. simpl in Hn. cbn [call_all]. unfold by_key_local at 1 3. rewrite Hn. simpl. by apply IH.
Qed.

(** C38. [unique_assoc_by_key] tests the result of [insert] the wrong way round: when no two
    items of a host have the same key, every replica before the shuffle drops all its
    items, so that nothing reaches the output. *)
Theorem unique_by_key_drops cs items inserted c (src : Operator A) `{!OperatorLaws src} p p' :
  NoDup cs → share_keys cs items inserted → NoDup (f <$> concat (items <$> cs)) → c ∈ cs →
  emits src p ((Item <$> items c) ++ [FlushAndRestart; Terminate]) p' →
  ∃ st', emits (rich_flat_map src (by_key_local (inserted c)) 0)
    (rich_flat_map_new src (by_key_local (inserted c)) 0 p) [FlushAndRestart; Terminate] st'.
Proof.
  intros Hcs (t & Hrun & Hfrom & Heach) Hnd Hc He.
  assert (t ≡ₚ concat ((λ c, replica_inserts c (inserted c) 0 (items c)) <$> cs)) as Ht.
  { rewrite (partition_by fst cs t) by done. apply concat_fmap_ext. intros c' Hc'. by rewrite Heach. }
  assert (Forall (λ o, o.2.2 = true) t) as Hnew.
  { apply (inserts_run_new ∅); [done| |set_solver]. rewrite Ht, !fmap_concat.
    rewrite <-!list_fmap_compose. rewrite fmap_concat, <-list_fmap_compose in Hnd.
    rewrite (list_fmap_ext _ (λ c, f <$> items c)); [exact Hnd|]. intros i c' _. simpl.
    apply replica_inserts_keys. }
  rewrite (cons_middle FlushAndRestart), (assoc_L (++)) in He.
  destruct (rich_flat_map_emits src (by_key_local (inserted c)) 0 _ _ _ He) as (st' & He').
  rewrite rich_out_items, (by_key_local_none c) in He'; [by exists st'| |done].
  rewrite <-Heach by done. rewrite Forall_forall in Hnew |- *.
  intros o [_ Ho]%list_elem_of_filter. by apply Hnew.
Qed.
End by_key.

(** ** Instances of the hypotheses *)
Module Example.
Definition cs : list Coord := [mkCoord 0 0 0; mkCoord 0 0 1].
Definition R : list Coord := [mkCoord 1 0 1; mkCoord 1 0 0].
#[local] Instance typ : TypeId N := 7%N.
Definition items (c : Coord) : list N := if decide (c = mkCoord 0 0 0) then [1; 2; 1]%N else [2; 3]%N.
Definition sender (c : Coord) : Sender N :=
  mkSender (items c) (FakeOperator N) _ ((Item <$> items c) ++ [FlushAndRestart; Terminate]) []
    (endpoint_to 0 <$> R) (λ _, mkBatcherEnv (λ n, Z.of_nat n) (λ _, [])) (λ n, n) key_order
    insertion_glidesort.
Definition md (r : Coord) : ExecutionMetadata :=
  mkExecutionMetadata r R 0 ((λ c, (c, 7%N)) <$> cs) (Fixed 2).
(** Both replicas ask for 2 before either has inserted it. *)
Definition seen (c : Coord) (n : nat) : bool := if decide (c = mkCoord 0 0 0) then (n =? 2)%nat else false.
Definition trace : list (@set_op N) :=
  let c0 := mkCoord 0 0 0 in let c1 := mkCoord 0 0 1 in
  [Contains c0 1 false; Insert c0 1; Contains c0 2 false; Contains c1 2 false; Insert c1 2; Insert c0 2;
   Contains c0 1 true; Contains c1 3 false; Insert c1 3]%N.

Lemma unique_assoc_distributed_witness :
  remove_dups (concat (items <$> cs)) = [1; 2; 3]%N ∧
  ∃ nets : Coord → Network N,
    (∀ c, c ∈ cs → unique_sender_run id (Fixed 2) sender seen c (nets c)) ∧
    (∃ chans, ∀ r, r ∈ R → fifo 0%N cs nets r (chans r)) ∧
    ∀ chans, (∀ r, r ∈ R → fifo 0%N cs nets r (chans r)) →
    ∃ outs : Coord → list N,
      (∀ r, r ∈ R → unique_receiver_run 0%N (md r) (chans r) (outs r)) ∧
      concat (outs <$> R) ≡ₚ remove_dups (concat (items <$> cs)).
Proof.
  split; [vm_compute; reflexivity|].
  apply (unique_assoc_distributed id 0 1 cs R (Fixed 2) sender seen md).
  - apply (bool_decide_unpack _). vm_compute. done.
  - apply (bool_decide_unpack _). vm_compute. done.
  - done.
  - done.
  - apply (bool_decide_unpack _). vm_compute. done.
  - unfold wf_mode. simpl. lia.
  - intros c _. split; [apply FakeOperator_emits_all|done].
  - intros r _. vm_compute. done.
  - intros h. destruct (decide (h = 0%N)) as [->|Hh].
    + exists trace. split; [cbn; set_solver|]. split.
      * apply (bool_decide_unpack _). vm_compute. done.
      * intros c [->|[->|[]%elem_of_nil]%elem_of_cons]%elem_of_cons; vm_compute; reflexivity.
    + exists []. split; [done|]. split; [constructor|]. intros c Hc. exfalso.
      apply list_elem_of_filter in Hc as [<- [->|[->|[]%elem_of_nil]%elem_of_cons]%elem_of_cons]; by apply Hh.
Defined.

Lemma unique_by_key_drops_witness :
  let c := mkCoord 0 0 0 in
  ∃ st', emits (rich_flat_map (FakeOperator N) (by_key_local (λ _, true)) 0)
    (rich_flat_map_new (FakeOperator N) (by_key_local (λ _, true)) 0
       ((Item <$> [10; 21; 32]%N) ++ [FlushAndRestart; Terminate])) [FlushAndRestart; Terminate] st'.
Proof.
  apply (unique_by_key_drops (λ x, x `mod` 10)%N [mkCoord 0 0 0] (λ _, [10; 21; 32]%N) (λ _ _, true)
    (mkCoord 0 0 0) (FakeOperator N)) with (p' := []).
  - apply NoDup_singleton.
  - exists [(mkCoord 0 0 0, (0%N, true)); (mkCoord 0 0 0, (1%N, true)); (mkCoord 0 0 0, (2%N, true))].
    split; [cbn; set_solver|]. split; [apply (bool_decide_unpack _); vm_compute; done|].
    intros c ->%list_elem_of_singleton. vm_compute. reflexivity.
  - apply (bool_decide_unpack _). vm_compute. done.
  - left.
  - apply FakeOperator_emits_all.
Defined.
End Example.
