(* ===== verification/Route.v ===== *)
(** * Routing

    [src/src/operator/route.rs]: the end of a block whose items go to the first
    route that accepts them. *)
From S2P Require Import Prelude StreamElement Operator Batcher End.

(** [struct Endpoint]. *)
Record Endpoint (A : Type) := mkEndpoint {
  ep_block_id : BlockId;
  ep_filter : A → bool;
  ep_block_senders : list nat
}.
Global Arguments mkEndpoint {_} _ _ _.
Global Arguments ep_block_id {_} _.
Global Arguments ep_filter {_} _.
Global Arguments ep_block_senders {_} _.

Record RoutingEnd_state (A : Type) := mkRoutingEnd {
  re_coord_opt : option Coord;
  re_next_strategy : NextStrategy A;
  re_batch_mode : BatchMode;
  re_senders : list (ReceiverEndpoint * Batcher A);
  endpoints : list (Endpoint A);
  routes : list (BlockId * (A → bool));
  re_rng_used : nat
}.
Global Arguments mkRoutingEnd {_} _ _ _ _ _ _ _.
Global Arguments re_coord_opt {_} _.
Global Arguments re_next_strategy {_} _.
Global Arguments re_batch_mode {_} _.
Global Arguments re_senders {_} _.
Global Arguments endpoints {_} _.
Global Arguments routes {_} _.
Global Arguments re_rng_used {_} _.

Section code.
Context {A : Type} (rng : nat → nat).
Implicit Types self : RoutingEnd_state A.

(** [RoutingEnd::new]. *)
Definition RoutingEnd_new (routes : list (BlockId * (A → bool)))
    (next_strategy : NextStrategy A) (batch_mode : BatchMode) : RoutingEnd_state A :=
  mkRoutingEnd None next_strategy batch_mode [] [] routes 0.

(** The loop of [setup_endpoints] over the drained routes. *)
Fixpoint take_routes (rs : list (BlockId * (A → bool))) (block_map : gmap BlockId (list nat))
    : outcome (list (Endpoint A) * gmap BlockId (list nat)) :=
  match rs with
  | [] => Done ([], block_map)
  | (block_id, filter) :: rs =>
      indexes ← unwrap (block_map !! block_id);
      '(eps, block_map) ← take_routes rs (delete block_id block_map);
      Done (mkEndpoint block_id filter indexes :: eps, block_map)
  end.

(** [RoutingEnd::setup_endpoints]. *)
Definition setup_endpoints self : outcome (RoutingEnd_state A) :=
  let senders := insertion_sort sender_leb (re_senders self) in
  let block_map := group_senders ((λ s, dest_block s.1) <$> senders) in
  '(eps, block_map) ← take_routes (routes self) block_map;
  rassert (bool_decide (block_map = ∅));;
  Done (mkRoutingEnd (re_coord_opt self) (re_next_strategy self) (re_batch_mode self) senders
          (endpoints self ++ eps) [] (re_rng_used self)).

(** [RoutingEnd::setup]. *)
Definition RoutingEnd_setup (env : ReceiverEndpoint → BatcherEnv) (coord : Coord)
    (get_senders : list ReceiverEndpoint) self : outcome (RoutingEnd_state A) :=
  self ← setup_endpoints
    (mkRoutingEnd (re_coord_opt self) (re_next_strategy self) (re_batch_mode self)
       ((λ ep, (ep, Batcher_new (env ep) ep (re_batch_mode self) coord)) <$> get_senders)
       (endpoints self) (routes self) (re_rng_used self));
  Done (mkRoutingEnd (Some coord) (re_next_strategy self) (re_batch_mode self)
          (re_senders self) (endpoints self) (routes self) (re_rng_used self)).

(** The loop over the endpoints for one item: the first that matches gets it. *)
Fixpoint first_match (item : A) (message : StreamElement A) (index : nat)
    (eps : list (Endpoint A)) (out : list (ReceiverEndpoint * Batcher A) * Network A)
    : outcome (list (ReceiverEndpoint * Batcher A) * Network A) :=
  match eps with
  | [] => Done out
  | e :: eps =>
      if ep_filter e item then
        sender_idx ← unwrap (ep_block_senders e !! index);
        enqueue_to sender_idx message out
      else first_match item message index eps out
  end.

Definition set_outbox self (s : list (ReceiverEndpoint * Batcher A)) (k : nat)
    : RoutingEnd_state A :=
  mkRoutingEnd (re_coord_opt self) (re_next_strategy self) (re_batch_mode self) s
    (endpoints self) (routes self) k.

(** The first [match] of [RoutingEnd::next]. *)
Definition RoutingEnd_dispatch self (message : StreamElement A) (net : Network A)
    : outcome (RoutingEnd_state A * Network A) :=
  '(out, k) ← match message with
              | Watermark _ | Terminate | FlushAndRestart =>
                  out ← broadcast None message (concat (ep_block_senders <$> endpoints self))
                          (re_senders self, net);
                  Done (out, re_rng_used self)
              | Item item | Timestamped item _ =>
                  let '(idx, k) := index rng (re_next_strategy self) item (re_rng_used self) in
                  out ← first_match item message idx (endpoints self) (re_senders self, net);
                  Done (out, k)
              | FlushBatch => Done ((re_senders self, net), re_rng_used self)
              end;
  Done (set_outbox self out.1 k, out.2).

(** "Flushing messages". *)
Definition RoutingEnd_flush self (to_return : StreamElement unit) (net : Network A)
    : outcome (RoutingEnd_state A * Network A) :=
  match to_return with
  | FlushAndRestart | FlushBatch =>
      '(s, net) ← flush_all (re_senders self) net;
      Done (set_outbox self s (re_rng_used self), net)
  | Terminate =>
      _ ← unwrap (re_coord_opt self);
      net ← end_all (re_senders self) net;
      Done (set_outbox self [] (re_rng_used self), net)
  | _ => Done (self, net)
  end.

(** [RoutingEnd::next]. *)
Definition RoutingEnd_next (prev : Operator A) (fuel : nat)
    (q : (RoutingEnd_state A * Network A) * op_state prev)
    : outcome (StreamElement unit * ((RoutingEnd_state A * Network A) * op_state prev)) :=
  match fuel with
  | 0 => OutOfFuel
  | S fuel =>
      let '((self, net), p) := q in
      _ ← rassert (bool_decide (length (routes self) = 0));
      '(message, p) ← op_next prev fuel p;
      let to_return := variant message in
      '(self, net) ← RoutingEnd_dispatch self message net;
      '(self, net) ← RoutingEnd_flush self to_return net;
      Done (to_return, ((self, net), p))
  end.
End code.

Definition RoutingEnd {A} (rng : nat → nat) (prev : Operator A) : Operator unit :=
  mkOperator _ (RoutingEnd_next rng prev).

(** ** Specification *)

(** The sender an item goes to: that of the first route accepting it. *)
Definition route_of {A} (eps : list (Endpoint A)) (x : A) : option nat :=
  e ← list_find (λ e, Is_true (ep_filter e x)) eps;
  head (ep_block_senders e.2).

(** What a trace sends to the [i]-th sender. *)
Definition routed_to {A} (eps : list (Endpoint A)) (i : nat) (e : StreamElement A)
    : option (StreamElement A) :=
  match e with
  | Item x | Timestamped x _ => if decide (route_of eps x = Some i) then Some e else None
  | FlushBatch => None
  | _ => if decide (i ∈ concat (ep_block_senders <$> eps)) then Some e else None
  end.

Section spec.
Context {A : Type} (rng : nat → nat).
Context (m : BatchMode) (c : Coord) (base : ReceiverEndpoint → list (NetworkMessage A)).

Lemma first_match_at x e ls out net (eps : list (Endpoint A)) :
  Forall (λ i, i < length out) (concat (ep_block_senders <$> eps)) →
  Forall (λ e, ep_block_senders e ≠ []) eps → outbox_at m c base ls out net →
  ∃ out' net', first_match x e 0 eps (out, net) = Done (out', net') ∧ out'.*1 = out.*1 ∧
    outbox_at m c base (λ j, ls j ++ if decide (route_of eps x = Some j) then [e] else [])
      out' net'.
Proof.
  intros Hlt Hne Hat. induction eps as [|ep eps IH].
  { exists out, net. split_and!; [done..|]. eapply outbox_ext; [|done]. intros j.
    by rewrite decide_False, app_nil_r. }
  rewrite fmap_cons in Hlt. cbn [concat] in Hlt.
  apply Forall_app in Hlt as [Hlt1 Hlt2]. apply Forall_cons in Hne as [Hne1 Hne2].
  cbn [first_match]. unfold route_of. cbn [list_find].
  destruct (ep_filter ep x) eqn:Hx.
  - rewrite decide_True by done. destruct (ep_block_senders ep) as [|i g] eqn:Hg; [done|].
    cbn [lookup list_lookup]. cbn -[enqueue_to].
    apply Forall_cons in Hlt1 as [Hi _].
    destruct (enqueue_to_at m c base ls out net i e Hi Hat) as (out' & net' & -> & E & Hat' & _).
    exists out', net'. split_and!; [done..|]. rewrite Hg. cbn.
    eapply outbox_ext; [|exact Hat']. intros j. cbn. f_equal. apply decide_ext. naive_solver.
  - rewrite decide_False by (by intros []).
    destruct (IH Hlt2 Hne2) as (out' & net' & Hf & E & Hat').
    exists out', net'. split_and!; [done..|]. eapply outbox_ext; [|exact Hat'].
    intros j. cbn. f_equal. apply decide_ext. unfold route_of.
    by destruct (list_find _ eps) as [[? ?]|].
Qed.

Context (eps : list (Endpoint A)) (dests : list ReceiverEndpoint).
Context (Hnd : NoDup (concat (ep_block_senders <$> eps))).
Context (Hlt : Forall (λ i, i < length dests) (concat (ep_block_senders <$> eps))).
Context (Hne : Forall (λ e, ep_block_senders e ≠ []) eps).

Record routing_at (k : nat) ls (q : RoutingEnd_state A * Network A) : Prop := {
  ra_coord : is_Some (re_coord_opt q.1);
  ra_strat : re_next_strategy q.1 = OnlyOne;
  ra_eps : endpoints q.1 = eps;
  ra_dests : (re_senders q.1).*1 = dests;
  ra_routes : routes q.1 = [];
  ra_rng : re_rng_used q.1 = k;
  ra_box : outbox_at m c base ls (re_senders q.1) q.2
}.

Definition route_push (ls : nat → list (StreamElement A)) (e : StreamElement A) (j : nat)
    : list (StreamElement A) :=
  ls j ++ option_list (routed_to eps j e).

Lemma filter_skips (e : StreamElement A) ids :
  Forall (λ i, i < length dests) ids →
  List.filter (λ i, negb (skips None dests e i)) ids = ids.
Proof.
  induction 1 as [|i ids Hi _ IH]; [done|]. cbn. rewrite IH.
  assert (skips (A:=A) None dests e i = false) as ->; [|done].
  unfold skips. destruct e; try done. apply bool_decide_eq_false.
  by destruct (lookup_lt_is_Some_2 _ _ Hi) as [ep ->].
Qed.

Lemma broadcast_routes e ls out net :
  out.*1 = dests → outbox_at m c base ls out net →
  (∀ j, routed_to eps j e = if decide (j ∈ concat (ep_block_senders <$> eps))
                            then Some e else None) →
  ∃ out' net', broadcast None e (concat (ep_block_senders <$> eps)) (out, net) =
    Done (out', net') ∧ out'.*1 = dests ∧ outbox_at m c base (route_push ls e) out' net'.
Proof.
  intros Hd Hat Hr.
  assert (Forall (λ i, i < length out) (concat (ep_block_senders <$> eps))) as Hlt'.
  { by rewrite <-(length_fmap fst), Hd. }
  destruct (broadcast_at m c base None e _ ls out net Hnd Hlt' Hat)
    as (out' & net' & ? & ? & Hat' & _). exists out', net'. split_and!; [done|congruence|].
  rewrite Hd, filter_skips in Hat' by done.
  eapply outbox_ext; [|exact Hat']. intros j. unfold route_push. cbn. rewrite Hr.
  by destruct (decide _).
Qed.

Lemma RoutingEnd_dispatch_at k ls q e :
  routing_at k ls q →
  ∃ q', RoutingEnd_dispatch rng q.1 e q.2 = Done q' ∧ routing_at k (route_push ls e) q'.
Proof.
  intros [H1 H2 H3 H4 H5 H6 H7]. destruct q as [self net]; cbn [fst snd] in *.
  assert (Forall (λ i, i < length (re_senders self)) (concat (ep_block_senders <$> eps))) as Hlt'.
  { by rewrite <-(length_fmap fst), H4. }
  assert (∀ x e', value e' = Some x → ∃ out' net',
    first_match x e' 0 eps (re_senders self, net) = Done (out', net') ∧ out'.*1 = dests ∧
    outbox_at m c base (route_push ls e') out' net') as Hfm.
  { intros x e' Hv. destruct (first_match_at x e' ls (re_senders self) net eps Hlt' Hne H7)
      as (out' & net' & ? & ? & Hat). exists out', net'. split_and!; [done|congruence|].
    eapply outbox_ext; [|exact Hat]. intros j. unfold route_push. cbn.
    destruct e'; try done; cbn in Hv; injection Hv as ->; cbn; by destruct (decide _). }
  unfold RoutingEnd_dispatch. rewrite H2, H3, H6.
  destruct e as [x|x ts|ts| | |]; cbn [index].
  - destruct (Hfm x (Item x) eq_refl) as (out' & net' & -> & ? & ?). eexists; split; [done|]. by split.
  - destruct (Hfm x (Timestamped x ts) eq_refl) as (out' & net' & -> & ? & ?).
    eexists; split; [done|]. by split.
  - destruct (broadcast_routes (Watermark ts) ls _ _ H4 H7) as (out' & net' & -> & ? & ?); [done|].
    eexists; split; [done|]. by split.
  - eexists; split; [done|]. split; cbn; try done.
    eapply outbox_ext; [|done]. intros i. unfold route_push. cbn. by rewrite app_nil_r.
  - destruct (broadcast_routes Terminate ls _ _ H4 H7) as (out' & net' & -> & ? & ?); [done|].
    eexists; split; [done|]. by split.
  - destruct (broadcast_routes FlushAndRestart ls _ _ H4 H7) as (out' & net' & -> & ? & ?); [done|].
    eexists; split; [done|]. by split.
Qed.

(** One call of [next]. *)
Lemma RoutingEnd_step (prev : Operator A) k ls self net p e p1 :
  e ≠ Terminate → routing_at k ls (self, net) → Step prev p e p1 →
  ∃ self' net', Step (RoutingEnd rng prev) ((self, net), p) (variant e) ((self', net'), p1) ∧
    routing_at k (route_push ls e) (self', net').
Proof.
  intros He Hat [f Hf]. pose proof (ra_routes _ _ _ Hat) as Hrt. cbn in Hrt.
  destruct (RoutingEnd_dispatch_at k ls _ e Hat) as ([self1 net1] & Hd & Hat1). cbn [fst snd] in Hd.
  destruct Hat1 as [H1 H2 H3 H4 H5 H6 H7]; cbn [fst snd] in *.
  destruct (flush_all_at _ _ _ _ _ _ H7) as (out' & net' & Hfl & E & Ho & _ & _).
  assert (∃ self' net', RoutingEnd_flush self1 (variant e) net1 = Done (self', net') ∧
    routing_at k (route_push ls e) (self', net')) as (self' & net2 & Hfls & Hat2).
  { unfold RoutingEnd_flush. destruct e; cbn [variant]; try done; rewrite ?Hfl; cbn;
      eexists _, _; (split; [done|]); split; cbn; congruence || done. }
  exists self', net2. split; [|done]. exists (S f). cbn -[RoutingEnd_dispatch].
  rewrite Hrt. cbn -[RoutingEnd_dispatch]. rewrite Hf. cbn -[RoutingEnd_dispatch].
  rewrite Hd. cbn. by rewrite Hfls.
Qed.

Lemma RoutingEnd_last (prev : Operator A) k ls self net p p1 :
  routing_at k ls (self, net) → Step prev p Terminate p1 →
  ∃ self' net', Step (RoutingEnd rng prev) ((self, net), p) Terminate ((self', net'), p1) ∧
    ∀ i ep, dests !! i = Some ep → ∃ ms, sent_to net' ep = base ep ++ ms ∧
      Forall (batch_ok c (max_size m)) ms ∧ unbatched ms = route_push ls Terminate i.
Proof.
  intros Hat [f Hf]. pose proof (ra_routes _ _ _ Hat) as Hrt. cbn in Hrt.
  destruct (RoutingEnd_dispatch_at k ls _ Terminate Hat) as ([self1 net1] & Hd & Hat1).
  cbn [fst snd] in Hd. destruct Hat1 as [[co H1] H2 H3 H4 H5 H6 H7]; cbn [fst snd] in *.
  destruct (end_all_at _ _ _ _ _ _ H7) as (net' & He & _ & Hall). rewrite H4 in Hall.
  exists (set_outbox self1 [] (re_rng_used self1)), net'. split; [|done].
  exists (S f). cbn -[RoutingEnd_dispatch].
  rewrite Hrt. cbn -[RoutingEnd_dispatch]. rewrite Hf. cbn -[RoutingEnd_dispatch].
  rewrite Hd. cbn. rewrite H1. cbn. by rewrite He.
Qed.

Lemma RoutingEnd_emits (prev : Operator A) k ls self net l p p' :
  Forall (λ e, e ≠ Terminate) l → routing_at k ls (self, net) →
  emits prev p (l ++ [Terminate]) p' →
  ∃ self' net', emits (RoutingEnd rng prev) ((self, net), p) (variant <$> (l ++ [Terminate]))
      ((self', net'), p') ∧
    ∀ i ep, dests !! i = Some ep → ∃ ms, sent_to net' ep = base ep ++ ms ∧
      Forall (batch_ok c (max_size m)) ms ∧
      unbatched ms = ls i ++ omap (routed_to eps i) (l ++ [Terminate]).
Proof.
  intros Hl; revert ls self net p. induction Hl as [|e l He Hl IH]; intros ls self net p Hat Hp.
  - apply emits_one in Hp. destruct (RoutingEnd_last prev k ls self net p p' Hat Hp)
      as (self' & net' & HS & Hall). exists self', net'. split; [by apply emits_one|].
    intros i ep Hep. destruct (Hall i ep Hep) as (ms & ? & ? & Hu). exists ms.
    split_and!; [done..|]. rewrite Hu. unfold route_push. cbn. by destruct (decide _).
  - inversion Hp as [|? ? p1 ? ? HS HE]; subst.
    destruct (RoutingEnd_step prev k ls self net p e p1 He Hat HS) as (self1 & net1 & HS1 & Hat1).
    destruct (IH _ _ _ _ Hat1 HE) as (self' & net' & HE' & Hall).
    exists self', net'. split; [csimpl; by econstructor|].
    intros i ep Hep. destruct (Hall i ep Hep) as (ms & ? & ? & Hu). exists ms.
    split_and!; [done..|]. rewrite Hu. unfold route_push. csimpl.
    by destruct (routed_to eps i e); csimpl; rewrite <-app_assoc.
Qed.
End spec.

(** *** Setting up the routes *)
Lemma take_routes_spec {A} (rs : list (BlockId * (A → bool))) bm eps bm' :
  take_routes rs bm = Done (eps, bm') →
  NoDup (rs.*1) ∧ Forall2 (λ '(b, f) e, ep_block_id e = b ∧ ep_filter e = f ∧
     bm !! b = Some (ep_block_senders e)) rs eps.
Proof.
  revert bm eps. induction rs as [|[b f] rs IH]; intros bm eps H; cbn in H.
  { injection H as <- <-. split; constructor. }
  destruct (bm !! b) as [g|] eqn:E; [|done]. cbn in H.
  apply bind_done in H as ([eps1 bm1] & Ht & [= <- <-]).
  destruct (IH _ _ Ht) as [Hn Hf]. 
  assert (b ∉ rs.*1) as Hb.
  { intros Hin. apply list_elem_of_fmap in Hin as ([b' f'] & -> & Hin). cbn in Hf.
    apply list_elem_of_lookup_1 in Hin as [i Hi].
    destruct (Forall2_lookup_l _ _ _ _ _ Hf Hi) as (e & _ & (_ & _ & Hl)). cbn in Hl.
    by rewrite lookup_delete_eq in Hl. }
  split; [csimpl; by apply NoDup_cons|]. constructor; [done|].
  eapply Forall2_impl; [exact Hf|]. intros [b' f'] e (? & ? & Hl). split_and!; [done..|].
  by apply lookup_delete_Some in Hl as [_ ?].
Qed.

Lemma routes_groups_ok {A} (rs : list (BlockId * (A → bool))) blocks eps bm' :
  take_routes rs (group_senders blocks) = Done (eps, bm') →
  groups_ok (ep_block_senders <$> eps) (length blocks).
Proof.
  intros [Hnd Hf]%take_routes_spec.
  assert (∀ b g, (b, g) ∈ (λ e, (ep_block_id e, ep_block_senders e)) <$> eps →
    g ≠ [] ∧ NoDup g ∧ ∀ i, i ∈ g ↔ blocks !! i = Some b) as Hg.
  { intros b g Hin. apply list_elem_of_fmap in Hin as (e & [= -> ->] & Hin).
    apply list_elem_of_lookup_1 in Hin as [i Hi].
    destruct (Forall2_lookup_r _ _ _ _ _ Hf Hi) as ([b' f'] & _ & (Eb & _ & Hl)).
    pose proof (group_senders_spec blocks b') as Hgs. rewrite Hl in Hgs.
    cbn in Eb. by subst b'. }
  assert (((λ e, (ep_block_id e, ep_block_senders e)) <$> eps).*1 = rs.*1) as Ek.
  { clear -Hf. induction Hf as [|[b f] e rs eps (E & _) _ IH]; csimpl; [done|].
    by f_equal. }
  assert (((λ e, (ep_block_id e, ep_block_senders e)) <$> eps).*2 = ep_block_senders <$> eps) as Es.
  { rewrite <-list_fmap_compose. done. }
  split; rewrite <-Es.
  - apply (NoDup_concat_keyed _ blocks); [by rewrite Ek|]. intros b g Hin.
    destruct (Hg _ _ Hin) as (_ & ? & Hi). split; [done|]. intros i. apply Hi.
  - apply Forall_forall. intros i Hi. apply elem_of_concat in Hi as (g & Hin & Hi).
    apply list_elem_of_fmap in Hin as ([b g'] & -> & Hin). destruct (Hg _ _ Hin) as (_ & _ & Hgi).
    apply Hgi in Hi. by eapply lookup_lt_Some.
  - apply Forall_forall. intros g Hin. apply list_elem_of_fmap in Hin as ([b g'] & -> & Hin).
    by destruct (Hg _ _ Hin).
Qed.

(** A routing block sends each item to one replica of the first route that accepts
    it and drops the items no route accepts; watermarks and the end of rounds and of
    the stream reach every destination; every destination gets its share once, in
    order, whatever the batch mode and the timers. *)
Theorem RoutingEnd_delivers {A} rng env coord get_senders rs mode (self : RoutingEnd_state A)
    net (prev : Operator A) p l p' :
  RoutingEnd_setup env coord get_senders (RoutingEnd_new rs OnlyOne mode) = Done self →
  NoDup get_senders → wf_mode mode →
  (∀ ep, ep ∈ get_senders → ep ∉ disconnected net) →
  Forall (λ e, e ≠ Terminate) l → emits prev p (l ++ [Terminate]) p' →
  ∃ self' net',
    emits (RoutingEnd rng prev) ((self, net), p) (variant <$> (l ++ [Terminate]))
      ((self', net'), p') ∧
    (re_senders self).*1 ≡ₚ get_senders ∧
    ∀ i ep, (re_senders self).*1 !! i = Some ep →
      ∃ ms, sent_to net' ep = sent_to net ep ++ ms ∧
        Forall (batch_ok coord (max_size mode)) ms ∧
        unbatched ms = omap (routed_to (endpoints self) i) (l ++ [Terminate]).
Proof.
  intros Hs Hnd Hm Hal Hl Hp. unfold RoutingEnd_setup, setup_endpoints, RoutingEnd_new in Hs.
  cbn -[insertion_sort group_senders rassert] in Hs.
  apply bind_done in Hs as (self1 & Hs & [= <-]).
  apply bind_done in Hs as ([eps bm] & Ht & Hs).
  apply bind_done in Hs as ([] & _ & [= <-]). cbn [re_senders endpoints].
  set (fresh := (λ ep, (ep, Batcher_new (env ep) ep mode coord)) <$> get_senders) in *.
  set (ss := insertion_sort _ fresh) in *.
  assert (ss ≡ₚ fresh) as Hpm by apply insertion_sort_perm.
  assert (ss.*1 ≡ₚ get_senders) as Hp1.
  { rewrite Hpm. unfold fresh. rewrite <-list_fmap_compose. by rewrite list_fmap_id. }
  destruct (routes_groups_ok _ _ _ _ Ht) as [G1 G2 G3]. rewrite length_fmap in G2.
  assert (outbox_at mode coord (sent_to net) (λ _, []) ss net) as Hbox.
  { split; [by rewrite Hp1|]. intros i ep b Hi.
    apply list_elem_of_lookup_2 in Hi. rewrite Hpm in Hi.
    apply list_elem_of_fmap in Hi as (ep' & [= -> ->] & Hin). apply Batcher_new_at; auto. }
  destruct (RoutingEnd_emits rng mode coord (sent_to net) eps (ss.*1) G1) with
    (prev := prev) (k := 0) (ls := λ _ : nat, @nil (StreamElement A)) (self := mkRoutingEnd (Some coord) OnlyOne mode ss ([] ++ eps) [] 0)
    (net := net) (l := l) (p := p) (p' := p') as (self' & net' & He & Hall).
  - by rewrite length_fmap.
  - clear -G3. induction eps; csimpl in *; inversion G3; constructor; auto.
  - done.
  - by split.
  - done.
  - exists self', net'. split_and!; done.
Qed.

Lemma RoutingEnd_delivers_witness :
  let eps := [mkReceiverEndpoint (mkCoord 1 0 0) 0; mkReceiverEndpoint (mkCoord 2 0 0) 0] in
  let env := λ _ : ReceiverEndpoint, mkBatcherEnv (λ n, Z.of_nat n) (λ n, [Nat.even n]) in
  let new := RoutingEnd_new [(1%N, λ x, x <? 5); (2%N, Nat.even)] OnlyOne (Fixed 2) in
  let self := match RoutingEnd_setup env (mkCoord 0 0 0) eps new with Done s => s | _ => new end in
  let net := mkNetwork (A:=nat) ∅ ∅ in
  let l := [Item 1; Item 8; Item 7; FlushAndRestart] in
  ∃ self' net',
    emits (RoutingEnd id (FakeOperator nat)) ((self, net), l ++ [Terminate])
      (variant <$> (l ++ [Terminate])) ((self', net'), []) ∧
    (re_senders self).*1 ≡ₚ eps ∧
    ∀ i ep, (re_senders self).*1 !! i = Some ep →
      ∃ ms, sent_to net' ep = sent_to net ep ++ ms ∧
        Forall (batch_ok (mkCoord 0 0 0) 2) ms ∧
        unbatched ms = omap (routed_to (endpoints self) i) (l ++ [Terminate]).
Proof.
  intros eps env new self net l.
  refine (RoutingEnd_delivers id env (mkCoord 0 0 0) eps
    [(1%N, λ x, x <? 5); (2%N, Nat.even)] (Fixed 2) self net (FakeOperator nat) _ l _
    _ _ _ _ _ _).
  - reflexivity.
  - apply (bool_decide_unpack _). vm_compute. exact I.
  - unfold wf_mode; cbn; lia.
  - intros ep _. set_solver.
  - by repeat constructor.
  - apply FakeOperator_emits_all.
Defined.
