(* ===== verification/Window.v ===== *)
(** * Windows: the keyed window operator

    [src/src/operator/window/mod.rs].  [WindowOperator] keeps one window manager per
    key; the managers ([WindowManagers.v]) and the accumulators they feed are
    interfaces here.

    [clock n k] is the instant the manager of key [k] reads from [Instant::now()]
    while it processes the [n]-th element. *)
From S2P Require Import Prelude StreamElement Operator Batcher.

(** ** Interfaces *)

(** [trait WindowAccumulator]: [output] may panic. *)
Class WindowAccumulator (A In Out : Type) := {
  acc_process : A → In → A;
  acc_output : A → outcome Out
}.

(** [enum WindowResult]. *)
Inductive WindowResult (T : Type) :=
| WItem (x : T)
| WTimestamped (x : T) (ts : Timestamp).
Global Arguments WItem {_} _.
Global Arguments WTimestamped {_} _ _.

(** [WindowResult::new]. *)
Definition WindowResult_new {T} (item : T) (timestamp : option Timestamp) : WindowResult T :=
  match timestamp with
  | Some ts => WTimestamped item ts
  | None => WItem item
  end.

(** [WindowResult::item]. *)
Definition result_item {T} (r : WindowResult T) : T :=
  match r with WItem item => item | WTimestamped item _ => item end.

(** [From<WindowResult<T>> for StreamElement<T>]. *)
Definition element_of_result {T} (r : WindowResult T) : StreamElement T :=
  match r with
  | WItem item => Item item
  | WTimestamped item ts => Timestamped item ts
  end.

(** [trait WindowManager]. *)
Class WindowManager (M In Out : Type) := {
  wm_process : Instant → M → StreamElement In → outcome (list (WindowResult Out) * M);
  wm_recycle : M → bool
}.

(** ** [WindowOperator] *)
Record WindowOperator_state (K M Out : Type) `{Countable K} := mkWindowOperator {
  windows : gmap K M;
  output_buffer : list (StreamElement (K * Out));
  elements_seen : nat
}.
Global Arguments mkWindowOperator {_ _ _ _ _} _ _ _.
Global Arguments windows {_ _ _ _ _} _.
Global Arguments output_buffer {_ _ _ _ _} _.
Global Arguments elements_seen {_ _ _ _ _} _.

Section window_operator.
Context {K M In Out : Type} `{Countable K} `{!HashOrder} `{!WindowManager M In Out}.
Context (clock : nat → K → Instant) (init : M).
Implicit Types self : WindowOperator_state K M Out.

(** [StreamElement::from(e).add_key(key.clone())] over the results of a manager. *)
Definition with_key (key : K) (ret : list (WindowResult Out)) : list (StreamElement (K * Out)) :=
  (λ e, add_key key (element_of_result e)) <$> ret.

(** [WindowOperator::new]. *)
Definition WindowOperator_new : WindowOperator_state K M Out := mkWindowOperator ∅ [] 0.

(** The arm for items: the manager of the key is created on first use. *)
Definition window_item self (key : K) (el : StreamElement In)
    : outcome (WindowOperator_state K M Out) :=
  let mgr := default init (windows self !! key) in
  '(ret, mgr) ← wm_process (clock (elements_seen self) key) mgr el;
  Done (mkWindowOperator (<[key := mgr]> (windows self))
          (output_buffer self ++ with_key key ret) (S (elements_seen self))).

(** [self.manager.windows.retain(..)]. *)
Fixpoint retain_loop (n : nat) (el : StreamElement In) (entries : list (K * M))
    : outcome (list (StreamElement (K * Out)) * gmap K M) :=
  match entries with
  | [] => Done ([], ∅)
  | (key, mgr) :: entries =>
      '(ret, mgr) ← wm_process (clock n key) mgr el;
      '(out, ws) ← retain_loop n el entries;
      Done (with_key key ret ++ out, if wm_recycle mgr then ws else <[key := mgr]> ws)
  end.

(** The last arm: the element reaches every manager and is then forwarded. *)
Definition window_control self (el : StreamElement In) (msg : StreamElement (K * Out))
    : outcome (WindowOperator_state K M Out) :=
  '(out, ws) ← retain_loop (elements_seen self) el (hash_iter (windows self));
  Done (mkWindowOperator ws (output_buffer self ++ out ++ [msg]) (S (elements_seen self))).

Definition pop_front self : option (StreamElement (K * Out) * WindowOperator_state K M Out) :=
  match output_buffer self with
  | [] => None
  | item :: rest => Some (item, mkWindowOperator (windows self) rest (elements_seen self))
  end.

(** The [match el] of [next]. *)
Definition window_handle self (el : StreamElement (K * In))
    : outcome (WindowOperator_state K M Out * option (StreamElement (K * Out))) :=
  match el with
  | Item (key, x) => self ← window_item self key (Item x); Done (self, None)
  | Timestamped (key, x) ts => self ← window_item self key (Timestamped x ts); Done (self, None)
  | FlushBatch =>
      Done (mkWindowOperator (windows self) (output_buffer self) (S (elements_seen self)),
            Some FlushBatch)
  | Watermark w => self ← window_control self (Watermark w) (Watermark w); Done (self, None)
  | Terminate => self ← window_control self Terminate Terminate; Done (self, None)
  | FlushAndRestart =>
      self ← window_control self FlushAndRestart FlushAndRestart; Done (self, None)
  end.

(** [WindowOperator::next]. *)
Fixpoint WindowOperator_next (prev : Operator (K * In)) (fuel : nat)
    (q : WindowOperator_state K M Out * op_state prev)
    : outcome (StreamElement (K * Out) * (WindowOperator_state K M Out * op_state prev)) :=
  match fuel with
  | 0 => OutOfFuel
  | S fuel =>
      let '(self, p) := q in
      match pop_front self with
      | Some (item, self) => Done (item, (self, p))
      | None =>
          '(el, p) ← op_next prev fuel p;
          '(self, o) ← window_handle self el;
          match o with
          | Some e => Done (e, (self, p))
          | None => WindowOperator_next prev fuel (self, p)
          end
      end
  end.

Definition windowing : transducer (K * In) (K * Out) :=
  mkTransducer (WindowOperator_state K M Out) pop_front window_handle.

Global Instance WindowOperator_follows (prev : Operator (K * In)) :
  Follows prev windowing (WindowOperator_next prev).
Proof. constructor; [by intros []|]. intros f s p. reflexivity. Qed.

(** ** One key at a time *)

(** What the elements of a stream do to the manager of one key: those of other keys
    nothing, its own items reach it (creating it if needed), the rest reaches it if
    it exists; a manager that can be recycled is dropped. *)
Definition key_step (k : K) (n : nat) (w : option M) (el : StreamElement (K * In))
    : outcome (list (WindowResult Out) * option M) :=
  let control (e : StreamElement In) :=
    match w with
    | None => Done ([], None)
    | Some mgr =>
        '(ret, mgr) ← wm_process (clock n k) mgr e;
        Done (ret, if wm_recycle mgr then None else Some mgr)
    end in
  let own (key : K) (e : StreamElement In) :=
    if decide (key = k) then
      '(ret, mgr) ← wm_process (clock n k) (default init w) e;
      Done (ret, Some mgr)
    else Done ([], w) in
  match el with
  | Item (key, x) => own key (Item x)
  | Timestamped (key, x) ts => own key (Timestamped x ts)
  | FlushBatch => Done ([], w)
  | Watermark t => control (Watermark t)
  | Terminate => control Terminate
  | FlushAndRestart => control FlushAndRestart
  end.

Fixpoint key_run (k : K) (n : nat) (w : option M) (l : list (StreamElement (K * In)))
    : outcome (list (WindowResult Out) * option M) :=
  match l with
  | [] => Done ([], w)
  | el :: l =>
      '(r1, w) ← key_step k n w el;
      '(r2, w) ← key_run k (S n) w l;
      Done (r1 ++ r2, w)
  end.

(** The results of a key in the output, and what is forwarded. *)
Definition result_of (k : K) (e : StreamElement (K * Out)) : option (WindowResult Out) :=
  match e with
  | Item (k', x) => if decide (k' = k) then Some (WItem x) else None
  | Timestamped (k', x) ts => if decide (k' = k) then Some (WTimestamped x ts) else None
  | _ => None
  end.
Definition forwarded {T} (e : StreamElement T) : option (StreamElement unit) :=
  match e with
  | Item _ | Timestamped _ _ => None
  | Watermark t => Some (Watermark t)
  | FlushBatch => Some FlushBatch
  | Terminate => Some Terminate
  | FlushAndRestart => Some FlushAndRestart
  end.

Lemma results_with_key k key rs :
  omap (result_of k) (with_key key rs) = if decide (key = k) then rs else [].
Proof.
  induction rs as [|r rs IH]; csimpl; [by case_decide|].
  destruct r; csimpl; rewrite IH; by case_decide.
Qed.

Lemma forwarded_with_key key rs : omap forwarded (with_key key rs) = [].
Proof. induction rs as [|[] rs IH]; csimpl; auto. Qed.

(** The loop over the managers treats every key by itself. *)
Lemma retain_loop_spec n el entries :
  NoDup (entries.*1) →
  (∀ k m, (k, m) ∈ entries → is_Some (match wm_process (clock n k) m el with
                                      | Done x => Some x | _ => None end)) →
  ∃ out ws, retain_loop n el entries = Done (out, ws) ∧ omap forwarded out = [] ∧
    ∀ k, match list_find (λ p, p.1 = k) entries with
         | Some (_, (_, m)) => ∃ ret m', wm_process (clock n k) m el = Done (ret, m') ∧
             omap (result_of k) out = ret ∧
             ws !! k = if wm_recycle m' then None else Some m'
         | None => omap (result_of k) out = [] ∧ ws !! k = None
         end.
Proof.
  induction entries as [|[key m] entries IH]; csimpl; intros Hnd Hok.
  { exists [], ∅. split_and!; [done..|]. intros k. by rewrite lookup_empty. }
  apply NoDup_cons in Hnd as [Hk Hnd].
  destruct IH as (out & ws & Hr & Hfw & Hall); [done|intros; apply Hok; by right|].
  assert (∃ ret m', wm_process (clock n key) m el = Done (ret, m')) as (ret & m' & Hp).
  { destruct (Hok key m) as [[ret m'] Hx]; [left|].
    destruct (wm_process (clock n key) m el) as [[]| | |]; try done. eauto. }
  rewrite Hp. cbn. rewrite Hr. cbn. eexists _, _. split_and!; [done| |].
  { by rewrite omap_app, forwarded_with_key, Hfw. }
  assert (list_find (λ p, p.1 = key) entries = None ∧ omap (result_of key) out = [] ∧
    ws !! key = None) as (Hf & Ho & Hw).
  { specialize (Hall key). destruct (list_find (λ p, p.1 = key) entries) as [[i [k' m'']]|] eqn:E.
    - exfalso. apply list_find_Some in E as (E & <- & _). apply Hk.
      apply list_elem_of_fmap. exists (k', m''). split; [done|]. by eapply list_elem_of_lookup_2.
    - done. }
  intros k. rewrite omap_app, results_with_key. case_decide as Hkey; csimpl.
  - subst k. cbn. exists ret, m'. rewrite Ho, app_nil_r. split_and!; [done..|].
    destruct (wm_recycle m'); [done|]. by rewrite lookup_insert_eq.
  - specialize (Hall k).
    assert ((if wm_recycle m' then ws else <[key:=m']> ws) !! k = ws !! k) as ->.
    { destruct (wm_recycle m'); [done|]. by rewrite lookup_insert_ne. }
    destruct (list_find (λ p, p.1 = k) entries) as [[i [k' m'']]|]; cbn; [|done]. done.
Qed.

Lemma find_hash_iter (ws : gmap K M) k :
  match list_find (λ p, p.1 = k) (hash_iter ws) with
  | Some (_, (_, m)) => ws !! k = Some m
  | None => ws !! k = None
  end.
Proof.
  destruct (list_find (λ p, p.1 = k) (hash_iter ws)) as [[i [k' m]]|] eqn:E.
  - apply list_find_Some in E as (E & <- & _). apply elem_of_map_to_list.
    rewrite <-hash_iter_perm. by eapply list_elem_of_lookup_2.
  - apply list_find_None in E. apply eq_None_not_Some. intros [m Hm].
    apply elem_of_map_to_list in Hm. rewrite <-hash_iter_perm in Hm.
    rewrite Forall_forall in E. by apply (E _ Hm).
Qed.

Lemma hash_iter_keys (ws : gmap K M) : NoDup ((hash_iter ws).*1).
Proof. rewrite hash_iter_perm. apply NoDup_fst_map_to_list. Qed.

Lemma hash_iter_elem (ws : gmap K M) k m : (k, m) ∈ hash_iter ws ↔ ws !! k = Some m.
Proof. by rewrite hash_iter_perm, elem_of_map_to_list. Qed.

(** A control element, for all keys at once. *)
Lemma window_control_spec ws n el msg (r : K → list (WindowResult Out)) (w : K → option M) :
  (∀ k, match ws !! k with
        | None => r k = [] ∧ w k = None
        | Some m => ∃ m', wm_process (clock n k) m el = Done (r k, m') ∧
            w k = if wm_recycle m' then None else Some m'
        end) →
  value msg = None →
  ∃ out ws', window_control (mkWindowOperator ws [] n) el msg =
      Done (mkWindowOperator ws' (out ++ [msg]) (S n)) ∧ omap forwarded out = [] ∧
    ∀ k, omap (result_of k) (out ++ [msg]) = r k ∧ ws' !! k = w k.
Proof.
  intros Hk Hmsg. destruct (retain_loop_spec n el (hash_iter ws) (hash_iter_keys ws))
    as (out & ws' & Hr & Hfw & Hall).
  { intros k m Hin%hash_iter_elem. specialize (Hk k). rewrite Hin in Hk.
    destruct Hk as (m' & -> & _). done. }
  exists out, ws'. unfold window_control. cbn. rewrite Hr. cbn. split_and!; [done..|].
  intros k. specialize (Hall k). specialize (Hk k). pose proof (find_hash_iter ws k) as Hf.
  assert (omap (result_of k) [msg] = []) as Em by (by destruct msg).
  rewrite omap_app, Em, app_nil_r.
  destruct (list_find (λ p, p.1 = k) (hash_iter ws)) as [[i [k' m]]|]; rewrite Hf in Hk.
  - destruct Hall as (ret & m' & Hp & Ho & Hw), Hk as (m'' & Hp' & Hw').
    rewrite Hp in Hp'. injection Hp' as <- <-. by rewrite Ho, Hw, Hw'.
  - destruct Hall as [-> ->], Hk as [-> ->]. done.
Qed.

(** An item, for all keys at once. *)
Lemma window_item_spec ws n key el (r : K → list (WindowResult Out)) (w : K → option M) :
  (∀ k, if decide (key = k) then
          ∃ m', wm_process (clock n k) (default init (ws !! k)) el = Done (r k, m') ∧
            w k = Some m'
        else r k = [] ∧ w k = ws !! k) →
  ∃ out ws', window_item (mkWindowOperator ws [] n) key el =
      Done (mkWindowOperator ws' out (S n)) ∧ omap forwarded out = [] ∧
    ∀ k, omap (result_of k) out = r k ∧ ws' !! k = w k.
Proof.
  intros Hk. pose proof (Hk key) as Hkey. rewrite decide_True in Hkey by done.
  destruct Hkey as (m' & Hp & Hw). unfold window_item. cbn. rewrite Hp. cbn.
  eexists _, _. split_and!; [done|apply forwarded_with_key|]. intros k.
  rewrite results_with_key, lookup_insert. specialize (Hk k). case_decide; subst; [done|].
  by destruct Hk as [-> ->].
Qed.

(** One element that is read, for all keys at once. *)
Lemma window_handle_spec ws n el (r : K → list (WindowResult Out)) (w : K → option M) :
  (∀ k, key_step k n (ws !! k) el = Done (r k, w k)) →
  ∃ out ws' o, window_handle (mkWindowOperator ws [] n) el =
      Done (mkWindowOperator ws' out (S n), o) ∧
    omap forwarded (option_list o ++ out) = option_list (forwarded el) ∧
    (forwarded el ≠ None → option_list o ++ out ≠ []) ∧
    (is_Some o → out = []) ∧
    ∀ k, omap (result_of k) (option_list o ++ out) = r k ∧ ws' !! k = w k.
Proof.
  intros Hk.
  assert (∀ e msg, value msg = None → forwarded msg ≠ None →
    (∀ k, match ws !! k with
          | None => Done ([], None)
          | Some mgr =>
              '(ret, mgr) ← wm_process (clock n k) mgr e;
              Done (ret, if wm_recycle mgr then None else Some mgr)
          end = Done (r k, w k)) →
    ∃ out ws', window_control (mkWindowOperator ws [] n) e msg =
      Done (mkWindowOperator ws' out (S n)) ∧ omap forwarded out = option_list (forwarded msg) ∧
      out ≠ [] ∧ ∀ k, omap (result_of k) out = r k ∧ ws' !! k = w k) as Hctl.
  { intros e msg Hmsg Hfm He. destruct (window_control_spec ws n e msg r w)
      as (out & ws' & Hc & Hf & Hall); [|done|].
    - intros k. specialize (He k). destruct (ws !! k) as [m|].
      + apply bind_done in He as ([ret m'] & Hp & [= <- <-]). eauto.
      + by injection He as <- <-.
    - exists (out ++ [msg]), ws'. split_and!; [done| |by destruct out|done].
      rewrite omap_app, Hf. by destruct msg. }
  assert (∀ key e, (∀ k, (if decide (key = k) then
        '(ret, mgr) ← wm_process (clock n k) (default init (ws !! k)) e;
        Done (ret, Some mgr)
      else Done ([], ws !! k)) = Done (r k, w k)) →
    ∃ out ws', window_item (mkWindowOperator ws [] n) key e =
      Done (mkWindowOperator ws' out (S n)) ∧ omap forwarded out = [] ∧
      ∀ k, omap (result_of k) out = r k ∧ ws' !! k = w k) as Hitem.
  { intros key e He. apply window_item_spec. intros k. specialize (He k). case_decide.
    - apply bind_done in He as ([ret m'] & Hp & [= <- <-]). eauto.
    - by injection He as <- <-. }
  destruct el as [[key x]|[key x] ts|t| | |]; cbn in Hk |- *.
  - destruct (Hitem key (Item x) Hk) as (out & ws' & -> & ? & ?).
    by exists out, ws', None.
  - destruct (Hitem key (Timestamped x ts) Hk) as (out & ws' & -> & ? & ?).
    by exists out, ws', None.
  - destruct (Hctl (Watermark t) (Watermark t)) as (out & ws' & -> & ? & ? & ?); [done..|].
    by exists out, ws', None.
  - exists [], ws, (Some FlushBatch). split_and!; [done..|]. intros k.
    specialize (Hk k). by injection Hk as <- <-.
  - destruct (Hctl Terminate Terminate) as (out & ws' & -> & ? & ? & ?); [done..|].
    by exists out, ws', None.
  - destruct (Hctl FlushAndRestart FlushAndRestart) as (out & ws' & -> & ? & ? & ?); [done..|].
    by exists out, ws', None.
Qed.

Lemma window_drain ws buf n :
  runs windowing (mkWindowOperator ws buf n) [] buf (mkWindowOperator ws [] n).
Proof. induction buf as [|e buf IH]; [constructor|]. by eapply runs_ready. Qed.

(** A whole trace, for all keys at once. *)
Lemma window_runs l ws n (r : K → list (WindowResult Out)) (w : K → option M) :
  (∀ k, key_run k n (ws !! k) l = Done (r k, w k)) →
  (∃ l0 e, l = l0 ++ [e] ∧ forwarded e ≠ None) →
  ∃ outs ws', runs windowing (mkWindowOperator ws [] n) l outs
      (mkWindowOperator ws' [] (n + length l)) ∧ outs ≠ [] ∧
    omap forwarded outs = omap forwarded l ∧
    ∀ k, omap (result_of k) outs = r k ∧ ws' !! k = w k.
Proof.
  revert ws n r. induction l as [|el l IH]; intros ws n r Hk (l0 & e & El & He).
  { by destruct l0. }
  set (st k := match key_step k n (ws !! k) el with Done x => x | _ => ([], None) end).
  assert (∀ k, key_step k n (ws !! k) el = Done (st k)) as Hst.
  { intros k. specialize (Hk k). cbn in Hk. unfold st.
    destruct (key_step k n (ws !! k) el) as [[]| | |]; done. }
  destruct (window_handle_spec ws n el (λ k, (st k).1) (λ k, (st k).2))
    as (out & ws1 & o & Hh & Hfw & Hne & Ho & Hall).
  { intros k. rewrite Hst. by destruct (st k). }
  assert (∀ outs s', runs windowing (mkWindowOperator ws1 [] (S n)) l outs s' →
    option_list o ++ out ++ outs ≠ [] →
    runs windowing (mkWindowOperator ws [] n) (el :: l) ((option_list o ++ out) ++ outs) s') as Hgo.
  { intros outs s' Hr Hnil. destruct o as [e'|].
    - rewrite (Ho (mk_is_Some _ _ eq_refl)) in *. by eapply runs_return.
    - cbn in *. eapply runs_skip_ne; [done|exact Hh|done|].
      eapply (runs_app _ _ [] out); [apply window_drain|done]. }
  destruct (decide (l = [])) as [->|Hl].
  - exists (option_list o ++ out), ws1. destruct l0 as [|? l0]; [|by destruct l0].
    injection El as <-. split_and!.
    + rewrite <-(app_nil_r (_ ++ out)). cbn. rewrite Nat.add_1_r. apply Hgo; [constructor|].
      rewrite app_nil_r. by apply Hne.
    + by apply Hne.
    + rewrite Hfw. cbn. by destruct (forwarded el).
    + intros k. destruct (Hall k) as [-> ->]. specialize (Hk k). cbn in Hk.
      rewrite Hst in Hk. destruct (st k) as [a b]; cbn in *. injection Hk as <- <-.
      by rewrite app_nil_r.
  - set (st2 k := match key_run k (S n) (ws1 !! k) l with Done x => x | _ => ([], None) end).
    assert (∀ k, r k = (st k).1 ++ (st2 k).1 ∧ w k = (st2 k).2 ∧
      key_run k (S n) (ws1 !! k) l = Done (st2 k)) as Hst2.
    { intros k. specialize (Hk k). cbn in Hk. rewrite Hst in Hk. unfold st2.
      rewrite (proj2 (Hall k)). destruct (st k) as [a b]; cbn in *.
      destruct (key_run k (S n) b l) as [[]| | |]; cbn in *; try done. by injection Hk as <- <-. }
    destruct (IH ws1 (S n) (λ k, (st2 k).1)) as (outs & ws' & Hr & Hnil & Hf2 & Hall2).
    { intros k. destruct (Hst2 k) as (_ & -> & ->). by destruct (st2 k). }
    { destruct l0 as [|? l0]; [by injection El as <- ->|]. injection El as -> El. eauto. }
    exists ((option_list o ++ out) ++ outs), ws'. split_and!.
    + cbn. rewrite Nat.add_succ_r. apply Hgo; [done|]. by destruct (option_list o), out.
    + by destruct (option_list o), out.
    + rewrite omap_app, Hfw, Hf2. cbn. by destruct (forwarded el).
    + intros k. rewrite omap_app. destruct (Hall k) as [-> _], (Hall2 k) as [-> ->].
      by destruct (Hst2 k) as (-> & _).
Qed.
End window_operator.

Definition WindowOperator {K M In Out} `{Countable K} `{!HashOrder} `{!WindowManager M In Out}
    (clock : nat → K → Instant) (init : M) (prev : Operator (K * In)) : Operator (K * Out) :=
  mkOperator _ (WindowOperator_next clock init prev).

(** Windowing is per key: for any window manager and any order of the hash map, the
    results emitted for a key are exactly those its own manager gives on its own items
    and on the watermarks and ends of rounds that follow its first item, in order;
    everything that is not an item is forwarded, in order. *)
Theorem WindowOperator_isolates_keys {K M In Out} `{Countable K} `{!HashOrder}
    `{!WindowManager M In Out} (clock : nat → K → Instant) (init : M)
    (prev : Operator (K * In)) `{!OperatorLaws prev} p l e p'
    (r : K → list (WindowResult Out)) (w : K → option M) :
  (∀ k, key_run clock init k 0 None (l ++ [e]) = Done (r k, w k)) →
  forwarded e ≠ None → emits prev p (l ++ [e]) p' →
  ∃ outs ws, emits (WindowOperator clock init prev) (WindowOperator_new, p) outs
      (mkWindowOperator ws [] (length (l ++ [e])), p') ∧
    omap forwarded outs = omap forwarded (l ++ [e]) ∧
    ∀ k, omap (result_of k) outs = r k ∧ ws !! k = w k.
Proof.
  intros Hk He Hp. destruct (window_runs clock init (l ++ [e]) ∅ 0 r w)
    as (outs & ws & Hr & _ & Hf & Hall).
  - intros k. by rewrite lookup_empty.
  - eauto.
  - exists outs, ws. split_and!; [|done..].
    by eapply (refines_emits prev (windowing clock init));
      [apply follows_refines; apply _| |].
Qed.
