(* ===== verification/WindowManagers.v ===== *)
(** * Window managers and accumulators

    [src/src/operator/window/descr/{count,last_k,all,transaction,session,event_time,
    processing_time}.rs]: one manager per kind of window, each an instance of
    [WindowManager]; and [src/src/operator/window/aggr/*.rs]: the accumulators they
    feed.  [VecDeque] is a list. *)
From S2P Require Import Prelude StreamElement Operator Batcher Window.

(** ** Accumulators *)
Record FoldAcc (I S : Type) := mkFoldAcc { fa_state : S; fa_f : S → I → S }.
Global Arguments mkFoldAcc {_ _} _ _.
Global Arguments fa_state {_ _} _.
Global Arguments fa_f {_ _} _ _ _.

Definition FoldAcc_process {I S} (self : FoldAcc I S) (el : I) : FoldAcc I S :=
  mkFoldAcc (fa_f self (fa_state self) el) (fa_f self).
Global Instance FoldAcc_accumulator I S : WindowAccumulator (FoldAcc I S) I S := {|
  acc_process := FoldAcc_process;
  acc_output self := Done (fa_state self)
|}.

Record FoldFirst (I : Type) := mkFoldFirst { ff_state : option I; ff_f : I → I → I }.
Global Arguments mkFoldFirst {_} _ _.
Global Arguments ff_state {_} _.
Global Arguments ff_f {_} _ _ _.

Definition FoldFirst_new {I} (f : I → I → I) : FoldFirst I := mkFoldFirst None f.
Definition FoldFirst_process {I} (self : FoldFirst I) (el : I) : FoldFirst I :=
  match ff_state self with
  | None => mkFoldFirst (Some el) (ff_f self)
  | Some s => mkFoldFirst (Some (ff_f self s el)) (ff_f self)
  end.
Definition FoldFirst_output {I} (self : FoldFirst I) : outcome I := unwrap (ff_state self).
Global Instance FoldFirst_accumulator I : WindowAccumulator (FoldFirst I) I I := {|
  acc_process := FoldFirst_process;
  acc_output := FoldFirst_output
|}.

(** [WindowedStream::max_by] and [min_by]: the first of the greatest, or least. *)
Definition max_by {I} (compare : I → I → comparison) : FoldFirst I :=
  FoldFirst_new (λ mx x, match compare x mx with Gt => x | _ => mx end).
Definition min_by {I} (compare : I → I → comparison) : FoldFirst I :=
  FoldFirst_new (λ mn x, match compare x mn with Lt => x | _ => mn end).
Definition max_by_key {I K} (cmp : K → K → comparison) (get_key : I → K) : FoldFirst I :=
  FoldFirst_new (λ mx x, match cmp (get_key x) (get_key mx) with Gt => x | _ => mx end).
Definition min_by_key {I K} (cmp : K → K → comparison) (get_key : I → K) : FoldFirst I :=
  FoldFirst_new (λ mn x, match cmp (get_key x) (get_key mn) with Lt => x | _ => mn end).

Record CountAcc (T : Type) := mkCountAcc { ca_count : nat }.
Global Arguments mkCountAcc {_} _.
Global Arguments ca_count {_} _.
Global Instance CountAcc_accumulator T : WindowAccumulator (CountAcc T) T nat := {|
  acc_process self _ := mkCountAcc (ca_count self + 1);
  acc_output self := Done (ca_count self)
|}.

Record CollectVec (I O : Type) := mkCollectVec { cv_vec : list I; cv_f : list I → O }.
Global Arguments mkCollectVec {_ _} _ _.
Global Arguments cv_vec {_ _} _.
Global Arguments cv_f {_ _} _ _.
Global Instance CollectVec_accumulator I O : WindowAccumulator (CollectVec I O) I O := {|
  acc_process self el := mkCollectVec (cv_vec self ++ [el]) (cv_f self);
  acc_output self := Done (cv_f self (cv_vec self))
|}.

Record FirstAcc (T : Type) := mkFirstAcc { fi_first : option T }.
Global Arguments mkFirstAcc {_} _.
Global Arguments fi_first {_} _.
Global Instance FirstAcc_accumulator T : WindowAccumulator (FirstAcc T) T T := {|
  acc_process self el := if decide (fi_first self = None) then mkFirstAcc (Some el) else self;
  acc_output self := unwrap (fi_first self)
|}.
Record LastAcc (T : Type) := mkLastAcc { la_last : option T }.
Global Arguments mkLastAcc {_} _.
Global Arguments la_last {_} _.
Global Instance LastAcc_accumulator T : WindowAccumulator (LastAcc T) T T := {|
  acc_process self el := mkLastAcc (Some el);
  acc_output self := unwrap (la_last self)
|}.

(** [WindowedStream::join]: the cross product of the two sides of a window. *)
Record ProductIterator (L R : Type) := mkProductIterator {
  pi_left : list L; pi_right : list R; pi_i : nat; pi_j : nat
}.
Global Arguments mkProductIterator {_ _} _ _ _ _.
Global Arguments pi_left {_ _} _.
Global Arguments pi_right {_ _} _.
Global Arguments pi_i {_ _} _.
Global Arguments pi_j {_ _} _.

(** [ProductIterator::next]; an index out of bounds panics. *)
Definition ProductIterator_next {L R} (self : ProductIterator L R)
    : outcome (option (L * R) * ProductIterator L R) :=
  if (length (pi_left self) <=? pi_i self) || (length (pi_right self) <=? pi_j self)
  then Done (None, self)
  else
    l ← unwrap (pi_left self !! pi_i self);
    r ← unwrap (pi_right self !! pi_j self);
    let j := pi_j self + 1 in
    Done (Some (l, r),
      if length (pi_right self) <=? j
      then mkProductIterator (pi_left self) (pi_right self) (pi_i self + 1) 0
      else mkProductIterator (pi_left self) (pi_right self) (pi_i self) j).

Record JoinAcc (L R : Type) := mkJoinAcc { ja_left : list L; ja_right : list R }.
Global Arguments mkJoinAcc {_ _} _ _.
Global Arguments ja_left {_ _} _.
Global Arguments ja_right {_ _} _.
Global Instance JoinAcc_accumulator L R :
    WindowAccumulator (JoinAcc L R) (MergeElement L R) (ProductIterator L R) := {|
  acc_process self el :=
    match el with
    | MLeft l => mkJoinAcc (ja_left self ++ [l]) (ja_right self)
    | MRight r => mkJoinAcc (ja_left self) (ja_right self ++ [r])
    end;
  acc_output self := Done (mkProductIterator (ja_left self) (ja_right self) 0 0)
|}.

(** ** Count windows and last-[k] windows *)

(** [struct Slot] of [count.rs] and [last_k.rs]. *)
Record Slot (A : Type) := mkSlot { sl_count : nat; sl_acc : A; sl_ts : option Timestamp }.
Global Arguments mkSlot {_} _ _ _.
Global Arguments sl_count {_} _.
Global Arguments sl_acc {_} _.
Global Arguments sl_ts {_} _.

Section slots.
Context {A In Out : Type} `{!WindowAccumulator A In Out}.

Definition Slot_new (acc : A) : Slot A := mkSlot 0 acc None.

(** The timestamp of a window is the greatest of its items. *)
Definition join_ts (a b : option Timestamp) : option Timestamp :=
  match a, b with
  | Some a, Some b => Some (Z.max a b)
  | Some t, None | None, Some t => Some t
  | None, None => None
  end.

Definition slot_push (s : Slot A) (el : In) (ts : option Timestamp) : Slot A :=
  mkSlot (sl_count s + 1) (acc_process (sl_acc s) el) (join_ts (sl_ts s) ts).

(** [update_slot]: [self.ws[idx]] panics out of range. *)
Definition update_slot (ws : list (Slot A)) (idx : nat) (el : In) (ts : option Timestamp)
    : outcome (list (Slot A)) :=
  s ← unwrap (ws !! idx);
  Done (<[idx := slot_push s el ts]> ws).

(** [for i in i..i+n { self.update_slot(i, &item, ts) }]. *)
Fixpoint update_slots (n i : nat) (ws : list (Slot A)) (el : In) (ts : option Timestamp)
    : outcome (list (Slot A)) :=
  match n with
  | 0 => Done ws
  | S n => ws ← update_slot ws i el ts; update_slots n (S i) ws el ts
  end.

(** [while self.ws.len() < n { self.ws.push_back(Slot::new(..)) }]. *)
Definition fill_slots (init : A) (n : nat) (ws : list (Slot A)) : list (Slot A) :=
  ws ++ replicate (n - length ws) (Slot_new init).

(** [WindowResult::new(r.acc.output(), r.ts)]. *)
Definition slot_result (r : Slot A) : outcome (WindowResult Out) :=
  out ← acc_output (sl_acc r);
  Done (WindowResult_new out (sl_ts r)).
End slots.

Record CountWindowManager (A : Type) := mkCountWindow {
  cw_init : A; cw_size : nat; cw_slide : nat; cw_exact : bool; cw_ws : list (Slot A)
}.
Global Arguments mkCountWindow {_} _ _ _ _ _.
Global Arguments cw_init {_} _.
Global Arguments cw_size {_} _.
Global Arguments cw_slide {_} _.
Global Arguments cw_exact {_} _.
Global Arguments cw_ws {_} _.

Record LastKWindowManager (A : Type) := mkLastK {
  lk_init : A; lk_idx : nat; lk_size : nat; lk_ws : list (Slot A)
}.
Global Arguments mkLastK {_} _ _ _ _.
Global Arguments lk_init {_} _.
Global Arguments lk_idx {_} _.
Global Arguments lk_size {_} _.
Global Arguments lk_ws {_} _.

(** [usize::div_ceil], which panics on a zero divisor. *)
Definition div_ceil (a b : nat) : outcome nat :=
  match b with 0 => Panicked | _ => Done ((a + b - 1) / b) end.

Section count.
Context {A In Out : Type} `{!WindowAccumulator A In Out}.

Definition set_cw (self : CountWindowManager A) ws : CountWindowManager A :=
  mkCountWindow (cw_init self) (cw_size self) (cw_slide self) (cw_exact self) ws.

(** The arm of [CountWindowManager::process] for items. *)
Definition count_item (self : CountWindowManager A) (item : In) (ts : option Timestamp)
    : outcome (list (WindowResult Out) * CountWindowManager A) :=
  n ← div_ceil (cw_size self) (cw_slide self);
  let ws := fill_slots (cw_init self) n (cw_ws self) in
  front ← unwrap (head ws);
  let k := sl_count front / cw_slide self + 1 in
  ws ← update_slots k 0 ws item ts;
  first ← unwrap (ws !! 0);
  if sl_count first =? cw_size self then
    r ← slot_result first;
    Done ([r], set_cw self (tail ws))
  else Done ([], set_cw self ws).

(** The arm of [CountWindowManager::process] for the end of a round. *)
Definition count_end (self : CountWindowManager A)
    : outcome (list (WindowResult Out) * CountWindowManager A) :=
  ret ← (if cw_exact self then Done []
         else match head (cw_ws self) with
              | Some r => if 0 <? sl_count r then r ← slot_result r; Done [r] else Done []
              | None => Done []
              end);
  Done (ret, set_cw self []).

(** [CountWindowManager::process]. *)
Definition CountWindow_process (self : CountWindowManager A) (el : StreamElement In)
    : outcome (list (WindowResult Out) * CountWindowManager A) :=
  match el with
  | Item item => count_item self item None
  | Timestamped item ts => count_item self item (Some ts)
  | FlushAndRestart | Terminate => count_end self
  | _ => Done ([], self)
  end.

Global Instance CountWindow_manager : WindowManager (CountWindowManager A) In Out := {|
  wm_process _ := CountWindow_process;
  wm_recycle _ := false
|}.

Definition set_lk (self : LastKWindowManager A) idx ws : LastKWindowManager A :=
  mkLastK (lk_init self) idx (lk_size self) ws.

(** The arm of [LastKWindowManager::process] for items. *)
Definition last_k_item (self : LastKWindowManager A) (item : In) (ts : option Timestamp)
    : outcome (list (WindowResult Out) * LastKWindowManager A) :=
  let ws := fill_slots (lk_init self) (lk_size self) (lk_ws self) in
  front ← unwrap (head ws);
  let k := sl_count front + 1 in
  ws ← update_slots k 0 ws item ts;
  first ← unwrap (ws !! 0);
  r ← slot_result first;
  if sl_count first =? lk_size self then Done ([r], set_lk self (lk_idx self + 1) (tail ws))
  else Done ([r], set_lk self (lk_idx self + 1) ws).

(** [LastKWindowManager::process]. *)
Definition LastKWindow_process (self : LastKWindowManager A) (el : StreamElement In)
    : outcome (list (WindowResult Out) * LastKWindowManager A) :=
  match el with
  | Item item => last_k_item self item None
  | Timestamped item ts => last_k_item self item (Some ts)
  | FlushAndRestart | Terminate => Done ([], set_lk self (lk_idx self) [])
  | _ => Done ([], self)
  end.

Global Instance LastKWindow_manager : WindowManager (LastKWindowManager A) In Out := {|
  wm_process _ := LastKWindow_process;
  wm_recycle _ := false
|}.

(** [CountWindow::build], [LastKWindow::build]. *)
Definition CountWindow_build (size slide : nat) (exact : bool) (acc : A) : CountWindowManager A :=
  mkCountWindow acc size slide exact [].
Definition LastKWindow_build (size : nat) (acc : A) : LastKWindowManager A :=
  mkLastK acc 0 size [].
End count.

(** [CountWindow::sliding], [CountWindow::tumbling]: size, slide, exact. *)
Definition count_sliding (size slide : nat) : outcome (nat * nat * bool) :=
  rassert (0 <? size);; rassert (0 <? slide);; Done (size, slide, true).
Definition count_tumbling (size : nat) : outcome (nat * nat * bool) :=
  rassert (0 <? size);; Done (size, size, true).

(** ** Windows of a whole round *)
Record AllWindowManager (A : Type) := mkAllWindow {
  aw_init : A; aw_accumulator : option A; tsmin : option Timestamp
}.
Global Arguments mkAllWindow {_} _ _ _.
Global Arguments aw_init {_} _.
Global Arguments aw_accumulator {_} _.
Global Arguments tsmin {_} _.

Section all.
Context {A In Out : Type} `{!WindowAccumulator A In Out}.

(** [AllWindowManager::process]; [FlushAndRestart] unwraps the accumulator. *)
Definition AllWindow_process (self : AllWindowManager A) (el : StreamElement In)
    : outcome (list (WindowResult Out) * AllWindowManager A) :=
  let tsm := match timestamp el, tsmin self with
             | Some a, Some b => Some (Z.min a b)
             | Some a, None | None, Some a => Some a
             | None, None => None
             end in
  match el with
  | Item item | Timestamped item _ =>
      Done ([], mkAllWindow (aw_init self)
        (Some (acc_process (default (aw_init self) (aw_accumulator self)) item)) tsm)
  | FlushAndRestart =>
      a ← unwrap (aw_accumulator self);
      out ← acc_output a;
      Done ([WindowResult_new out tsm], mkAllWindow (aw_init self) None None)
  | Terminate =>
      match aw_accumulator self with
      | Some a =>
          out ← acc_output a;
          Done ([WindowResult_new out tsm], mkAllWindow (aw_init self) None None)
      | None => Done ([], mkAllWindow (aw_init self) None tsm)
      end
  | _ => Done ([], mkAllWindow (aw_init self) (aw_accumulator self) tsm)
  end.

Global Instance AllWindow_manager : WindowManager (AllWindowManager A) In Out := {|
  wm_process _ := AllWindow_process;
  wm_recycle _ := false
|}.
Definition AllWindow_build (acc : A) : AllWindowManager A := mkAllWindow acc None None.
End all.

(** ** Transaction windows *)
Inductive TransactionOp := TContinue | TCommit | TCommitAfter (ts : Timestamp) | TDiscard.

Record TSlot (A : Type) := mkTSlot { ts_acc : A; ts_close : option Timestamp }.
Global Arguments mkTSlot {_} _ _.
Global Arguments ts_acc {_} _.
Global Arguments ts_close {_} _.

Record TransactionWindowManager (A In : Type) := mkTransaction {
  tw_init : A; tw_f : In → TransactionOp; tw_w : option (TSlot A)
}.
Global Arguments mkTransaction {_ _} _ _ _.
Global Arguments tw_init {_ _} _.
Global Arguments tw_f {_ _} _ _.
Global Arguments tw_w {_ _} _.

Section transaction.
Context {A In Out : Type} `{!WindowAccumulator A In Out}.
Implicit Types self : TransactionWindowManager A In.

Definition set_tw self w : TransactionWindowManager A In :=
  mkTransaction (tw_init self) (tw_f self) w.

(** [return_current!]. *)
Definition return_current self (slot : TSlot A)
    : outcome (list (WindowResult Out) * TransactionWindowManager A In) :=
  out ← acc_output (ts_acc slot);
  Done ([WItem out], set_tw self None).

(** [TransactionWindowManager::process]. *)
Definition TransactionWindow_process self (el : StreamElement In)
    : outcome (list (WindowResult Out) * TransactionWindowManager A In) :=
  match el with
  | Timestamped item _ =>
      let slot := default (mkTSlot (tw_init self) None) (tw_w self) in
      let command := tw_f self item in
      let slot := mkTSlot (acc_process (ts_acc slot) item) (ts_close slot) in
      match command with
      | TCommit => return_current self slot
      | TCommitAfter t => Done ([], set_tw self (Some (mkTSlot (ts_acc slot) (Some t))))
      | TDiscard => Done ([], set_tw self None)
      | TContinue => Done ([], set_tw self (Some slot))
      end
  | Watermark ts =>
      match tw_w self with
      | Some (mkTSlot a (Some close) as slot) =>
          if (close <? ts)%Z then return_current self slot else Done ([], self)
      | _ => Done ([], self)
      end
  | Terminate | FlushAndRestart =>
      match tw_w self with
      | Some (mkTSlot a (Some close) as slot) => return_current self slot
      | _ => Done ([], self)
      end
  | Item _ => Panicked
  | FlushBatch => Done ([], self)
  end.

Global Instance TransactionWindow_manager :
    WindowManager (TransactionWindowManager A In) In Out := {|
  wm_process _ := TransactionWindow_process;
  wm_recycle self := if decide (is_Some (tw_w self)) then false else true
|}.
End transaction.

(** ** Session windows *)
Record SSlot (A : Type) := mkSSlot { ss_acc : A; ss_last : Instant }.
Global Arguments mkSSlot {_} _ _.
Global Arguments ss_acc {_} _.
Global Arguments ss_last {_} _.
Record SessionWindowManager (A : Type) := mkSession {
  sw_init : A; sw_gap : Duration; sw_w : option (SSlot A)
}.
Global Arguments mkSession {_} _ _ _.
Global Arguments sw_init {_} _.
Global Arguments sw_gap {_} _.
Global Arguments sw_w {_} _.

Section session.
Context {A In Out : Type} `{!WindowAccumulator A In Out}.
Implicit Types self : SessionWindowManager A.

Definition set_sw self w : SessionWindowManager A := mkSession (sw_init self) (sw_gap self) w.

(** The window is closed when the gap has elapsed, whatever arrives. *)
Definition session_expire (now : Instant) self
    : outcome (option (WindowResult Out) * SessionWindowManager A) :=
  match sw_w self with
  | Some slot =>
      if (sw_gap self <? now - ss_last slot)%Z then
        output ← acc_output (ss_acc slot);
        Done (Some (WItem output), set_sw self None)
      else Done (None, self)
  | None => Done (None, self)
  end.

(** [SessionWindowManager::process]. *)
Definition SessionWindow_process (now : Instant) self (el : StreamElement In)
    : outcome (list (WindowResult Out) * SessionWindowManager A) :=
  '(ret, self) ← session_expire now self;
  match el with
  | Item item | Timestamped item _ =>
      let acc := match sw_w self with Some slot => ss_acc slot | None => sw_init self end in
      Done (option_list ret, set_sw self (Some (mkSSlot (acc_process acc item) now)))
  | Terminate | FlushAndRestart =>
      match ret, sw_w self with
      | Some r, _ => Done ([r], self)
      | None, Some s =>
          output ← acc_output (ss_acc s);
          Done ([WItem output], set_sw self None)
      | None, None => Done ([], self)
      end
  | _ => Done (option_list ret, self)
  end.

Global Instance SessionWindow_manager : WindowManager (SessionWindowManager A) In Out := {|
  wm_process := SessionWindow_process;
  wm_recycle _ := false
|}.
End session.

(** ** Event-time and processing-time windows *)
Record RSlot (A : Type) := mkRSlot {
  rs_acc : A; rs_start : Z; rs_end : Z; rs_active : bool
}.
Global Arguments mkRSlot {_} _ _ _ _.
Global Arguments rs_acc {_} _.
Global Arguments rs_start {_} _.
Global Arguments rs_end {_} _.
Global Arguments rs_active {_} _.

Section ranges.
Context {A In Out : Type} `{!WindowAccumulator A In Out}.

(** [skip_while(|w| w.end <= ts).take_while(|w| w.start <= ts).for_each(..)]. *)
Fixpoint take_range (ts : Z) (item : In) (ws : list (RSlot A)) : list (RSlot A) :=
  match ws with
  | [] => []
  | w :: ws' =>
      if (rs_start w <=? ts)%Z then
        mkRSlot (acc_process (rs_acc w) item) (rs_start w) (rs_end w) true
          :: take_range ts item ws'
      else ws
  end.
Fixpoint feed_range (ts : Z) (item : In) (ws : list (RSlot A)) : list (RSlot A) :=
  match ws with
  | [] => []
  | w :: ws' =>
      if (rs_end w <=? ts)%Z then w :: feed_range ts item ws' else take_range ts item ws
  end.

(** [drain(..).filter(|w| w.active).map(..).collect()]. *)
Fixpoint close_range (result : Out → RSlot A → WindowResult Out) (ws : list (RSlot A))
    : outcome (list (WindowResult Out)) :=
  match ws with
  | [] => Done []
  | w :: ws =>
      if rs_active w then
        out ← acc_output (rs_acc w);
        rest ← close_range result ws;
        Done (result out w :: rest)
      else close_range result ws
  end.

(** [partition_point(|w| w.end < ts)] on slots ordered by their end. *)
Fixpoint partition_point (ts : Z) (ws : list (RSlot A)) : nat :=
  match ws with
  | [] => 0
  | w :: ws => if (rs_end w <? ts)%Z then S (partition_point ts ws) else 0
  end.
End ranges.

Record EventTimeWindowManager (A : Type) := mkEventTime {
  et_init : A; et_size : Z; et_slide : Z; last_watermark : option Timestamp;
  et_ws : list (RSlot A)
}.
Global Arguments mkEventTime {_} _ _ _ _ _.
Global Arguments et_init {_} _.
Global Arguments et_size {_} _.
Global Arguments et_slide {_} _.
Global Arguments last_watermark {_} _.
Global Arguments et_ws {_} _.

Record ProcessingTimeWindowManager (A : Type) := mkProcessingTime {
  pt_init : A; pt_size : Z; pt_slide : Z; pt_ws : list (RSlot A)
}.
Global Arguments mkProcessingTime {_} _ _ _ _.
Global Arguments pt_init {_} _.
Global Arguments pt_size {_} _.
Global Arguments pt_slide {_} _.
Global Arguments pt_ws {_} _.

Section event_time.
Context {A In Out : Type} `{!WindowAccumulator A In Out}.
Implicit Types self : EventTimeWindowManager A.

Definition set_et self ws : EventTimeWindowManager A :=
  mkEventTime (et_init self) (et_size self) (et_slide self) (last_watermark self) ws.

(** [next_start += (w - next_start).max(0) / self.slide * self.slide], on [i64]; a zero
    divisor panics. *)
Definition skip_empty (w next_start slide : Z) : outcome Z :=
  d ← i64_arith (w - next_start);
  rassert (negb (slide =? 0)%Z);;
  q ← i64_arith (Z.quot (Z.max d 0) slide);
  p ← i64_arith (q * slide);
  i64_arith (next_start + p).

(** The start of the window after the last one, past the empty ones. *)
Definition next_window self (ts : Timestamp) : outcome Z :=
  next_start ← match last (et_ws self) with
               | Some b => i64_arith (rs_start b + et_slide self)
               | None => Done ts
               end;
  match last_watermark self with
  | Some w => skip_empty w next_start (et_slide self)
  | None => Done next_start
  end.

(** The loop of [alloc_windows]; the [fuel] bounds its turns. *)
Fixpoint alloc_loop (fuel : nat) self (ts : Timestamp) : outcome (EventTimeWindowManager A) :=
  match fuel with
  | 0 => OutOfFuel
  | S fuel =>
      if match last (et_ws self) with Some b => (rs_start b <? ts)%Z | None => true end then
        next_start ← next_window self ts;
        end_ ← i64_arith (next_start + et_size self);
        alloc_loop fuel
          (set_et self (et_ws self ++ [mkRSlot (et_init self) next_start end_ false])) ts
      else Done self
  end.

(** Turns enough for [alloc_windows]: one per [slide] up to [ts], and two more. *)
Definition alloc_fuel self (ts : Timestamp) : nat :=
  match last (et_ws self) with
  | Some b => Z.to_nat (ts - rs_start b) + 2
  | None => 2
  end.

(** [EventTimeWindowManager::alloc_windows]. *)
Definition alloc_windows self (ts : Timestamp) : outcome (EventTimeWindowManager A) :=
  rassert (match last_watermark self with Some w => (w <=? ts)%Z | None => true end);;
  alloc_loop (alloc_fuel self ts) self ts.

(** [EventTimeWindowManager::process]. *)
Definition EventTimeWindow_process self (el : StreamElement In)
    : outcome (list (WindowResult Out) * EventTimeWindowManager A) :=
  match el with
  | Timestamped item ts =>
      self ← alloc_windows self ts;
      Done ([], set_et self (feed_range ts item (et_ws self)))
  | Watermark ts =>
      let self := mkEventTime (et_init self) (et_size self) (et_slide self) (Some ts)
                    (et_ws self) in
      let split := partition_point ts (et_ws self) in
      out ← close_range (λ o w, WTimestamped o (rs_end w)) (take split (et_ws self));
      Done (out, set_et self (drop split (et_ws self)))
  | FlushAndRestart | Terminate =>
      out ← close_range (λ o w, WTimestamped o (rs_end w)) (et_ws self);
      Done (out, set_et self [])
  | Item _ => Panicked
  | FlushBatch => Done ([], self)
  end.

Global Instance EventTimeWindow_manager : WindowManager (EventTimeWindowManager A) In Out := {|
  wm_process _ := EventTimeWindow_process;
  wm_recycle self := match et_ws self with [] => true | _ => false end
|}.

Definition EventTimeWindow_build (size slide : Z) (acc : A) : EventTimeWindowManager A :=
  mkEventTime acc size slide None [].

(** [EventTimeWindow::sliding], [EventTimeWindow::tumbling]: size and slide. *)
Definition event_sliding (size slide : Z) : outcome (Z * Z) :=
  rassert (0 <? size)%Z;; rassert (0 <? slide)%Z;; Done (size, slide).
Definition event_tumbling (size : Z) : outcome (Z * Z) :=
  rassert (0 <? size)%Z;; Done (size, size).

(** *** Processing time: points in time are integers without bounds, the standard
    library fixes no range for [Instant]. *)
Implicit Types pt : ProcessingTimeWindowManager A.

Definition set_pt pt ws : ProcessingTimeWindowManager A :=
  mkProcessingTime (pt_init pt) (pt_size pt) (pt_slide pt) ws.

Fixpoint pt_alloc_loop (fuel : nat) pt (now : Instant)
    : outcome (ProcessingTimeWindowManager A) :=
  match fuel with
  | 0 => OutOfFuel
  | S fuel =>
      if match last (pt_ws pt) with Some b => (rs_start b <? now)%Z | None => true end then
        let next_start := match last (pt_ws pt) with
                          | Some b => (rs_start b + pt_slide pt)%Z
                          | None => now
                          end in
        pt_alloc_loop fuel
          (set_pt pt (pt_ws pt ++
             [mkRSlot (pt_init pt) next_start (next_start + pt_size pt)%Z false])) now
      else Done pt
  end.

Definition pt_alloc_fuel pt (now : Instant) : nat :=
  match last (pt_ws pt) with
  | Some b => Z.to_nat (now - rs_start b) + 2
  | None => 2
  end.

(** [ProcessingTimeWindowManager::process]. *)
Definition ProcessingTimeWindow_process (now : Instant) pt (el : StreamElement In)
    : outcome (list (WindowResult Out) * ProcessingTimeWindowManager A) :=
  let expire pt :=
    let split := partition_point now (pt_ws pt) in
    out ← close_range (λ o _, WItem o) (take split (pt_ws pt));
    Done (out, set_pt pt (drop split (pt_ws pt))) in
  match el with
  | Item item | Timestamped item _ =>
      pt ← pt_alloc_loop (pt_alloc_fuel pt now) pt now;
      expire (set_pt pt (feed_range now item (pt_ws pt)))
  | Terminate | FlushAndRestart =>
      out ← close_range (λ o _, WItem o) (pt_ws pt);
      Done (out, set_pt pt [])
  | _ => expire pt
  end.

Global Instance ProcessingTimeWindow_manager :
    WindowManager (ProcessingTimeWindowManager A) In Out := {|
  wm_process := ProcessingTimeWindow_process;
  wm_recycle _ := false
|}.
End event_time.
