(* ===== verification/WindowSpec.v ===== *)
(** * What the window managers compute

    The windows of [CountWindow] and [LastKWindow], the cross product of a window
    join, and the behaviours of the managers that the documentation does
    not announce. *)
From S2P Require Import Prelude StreamElement Operator Batcher Window WindowManagers.

(** A manager fed with a list of elements. *)
Fixpoint run_manager {M In Out} `{!WindowManager M In Out} (m : M) (l : list (StreamElement In))
    : outcome (list (WindowResult Out) * M) :=
  match l with
  | [] => Done ([], m)
  | el :: l =>
      '(r1, m) ← wm_process 0%Z m el;
      '(r2, m) ← run_manager m l;
      Done (r1 ++ r2, m)
  end.

Lemma run_manager_snoc {M In Out} `{!WindowManager M In Out} (m : M) (l : list (StreamElement In))
    el r1 m1 r2 m2 :
  run_manager m l = Done (r1, m1) → wm_process 0%Z m1 el = Done (r2, m2) →
  run_manager m (l ++ [el]) = Done (r1 ++ r2, m2).
Proof.
  revert m r1. induction l as [|e l IH]; cbn; intros m r1 H1 H2.
  - injection H1 as <- <-. rewrite H2. cbn. by rewrite app_nil_r.
  - apply bind_done in H1 as ([ra ma] & -> & H1). cbn.
    apply bind_done in H1 as ([rb mb] & Hb & [= <- <-]). rewrite (IH _ _ Hb H2). cbn.
    by rewrite app_assoc.
Qed.

(** ** Accumulators as functions of the window *)

(** [fin] says what an accumulator outputs after a non-empty list of elements. *)
Class AccumulatorSpec {A In Out} `{!WindowAccumulator A In Out} (init : A)
    (fin : list In → Out) : Prop := {
  acc_spec l : l ≠ [] → acc_output (foldl acc_process init l) = Done (fin l)
}.

Lemma FoldAcc_foldl {I S} (f : S → I → S) s l :
  foldl acc_process (mkFoldAcc s f) l = mkFoldAcc (foldl f s l) f.
Proof. revert s. induction l as [|x l IH]; intros s; [done|]. cbn [foldl]. apply (IH (f s x)). Qed.

Global Instance FoldAcc_spec {I S} (f : S → I → S) s :
  AccumulatorSpec (mkFoldAcc s f) (foldl f s).
Proof. constructor. intros l _. by rewrite FoldAcc_foldl. Qed.

(** [FoldFirst] never panics on a window that has an element. *)
Global Instance FoldFirst_spec {I} (f : I → I → I) (dummy : I) :
  AccumulatorSpec (FoldFirst_new f)
    (λ l, match l with [] => dummy | x :: l => foldl f x l end).
Proof.
  constructor. intros [|x l] Hne; [done|]. cbn.
  assert (∀ s, foldl FoldFirst_process (mkFoldFirst (Some s) f) l =
    mkFoldFirst (Some (foldl f s l)) f) as H; [|by rewrite H].
  clear Hne. induction l as [|y l IH]; intros s; cbn; [done|]. apply IH.
Qed.

Global Instance CollectVec_spec {I O} (f : list I → O) :
  AccumulatorSpec (mkCollectVec [] f) f.
Proof.
  constructor. intros l _.
  assert (∀ v, foldl acc_process (mkCollectVec v f) l = mkCollectVec (v ++ l) f) as H.
  { clear. induction l as [|x l IH]; intros v; cbn [foldl]; [by rewrite app_nil_r|].
    etransitivity; [apply (IH (v ++ [x]))|]. by rewrite <-app_assoc. }
  by rewrite H.
Qed.

(** ** Slots *)
Section slots.
Context {A In Out : Type} `{!WindowAccumulator A In Out} (init : A).
(** The items of a round with their timestamps. *)
Abbreviation item := (In * option Timestamp)%type.
Implicit Types xs l : list item.

Definition to_element (x : item) : StreamElement In :=
  match x.2 with Some ts => Timestamped x.1 ts | None => Item x.1 end.

Definition list_ts l : option Timestamp := foldl join_ts None (l.*2).

(** The slot that has been given exactly the items [l]. *)
Definition slot_of l : Slot A :=
  mkSlot (length l) (foldl acc_process init (l.*1)) (list_ts l).

Lemma slot_of_snoc l x ts : slot_push (slot_of l) x ts = slot_of (l ++ [(x, ts)]).
Proof.
  unfold slot_push, slot_of, list_ts. cbn.
  by rewrite length_app, !fmap_app, !foldl_app.
Qed.

Lemma update_slots_spec n i (ws : list (Slot A)) (el : In) ts :
  i + n ≤ length ws →
  ∃ ws', update_slots n i ws el ts = Done ws' ∧ length ws' = length ws ∧
    ∀ j, ws' !! j = if decide (i ≤ j < i + n) then (λ s, slot_push s el ts) <$> ws !! j
                    else ws !! j.
Proof.
  revert i ws. induction n as [|n IH]; intros i ws Hle; cbn.
  - exists ws. split_and!; [done..|]. intros j. by rewrite decide_False by lia.
  - destruct (lookup_lt_is_Some_2 ws i) as [s Hs]; [lia|]. unfold update_slot. rewrite Hs. cbn.
    destruct (IH (S i) (<[i := slot_push s el ts]> ws)) as (ws' & -> & Hl & Hw).
    { rewrite length_insert. lia. }
    exists ws'. rewrite length_insert in Hl. split_and!; [done..|]. intros j. rewrite Hw.
    rewrite list_lookup_insert. destruct (decide (i = j)) as [<-|Hne].
    + rewrite (decide_False (P := S i ≤ i < S i + n)) by lia.
      rewrite (decide_True (P := i = i ∧ _)) by lia.
      rewrite decide_True by lia. by rewrite Hs.
    + rewrite (decide_False (P := i = j ∧ _)) by naive_solver.
      destruct (decide (S i ≤ j < S i + n)), (decide (i ≤ j < i + S n)); try done; lia.
Qed.

(** The slots of a sliding count window after the items [xs], of which [p] windows
    are complete and gone: slot [j] holds the items from position [(p + j) * slide]. *)
Record slots_at (slide p : nat) xs (ws : list (Slot A)) : Prop := {
  sa_slot j s : ws !! j = Some s → s = slot_of (drop ((p + j) * slide) xs);
  sa_rest : length xs ≤ (p + length ws) * slide
}.

Lemma fill_slots_at slide p xs ws n :
  slots_at slide p xs ws → slots_at slide p xs (fill_slots init n ws).
Proof.
  intros [H1 H2]. unfold fill_slots. split.
  - intros j s. rewrite lookup_app_Some. intros [Hj|[Hj Hs]]; [by apply H1|].
    apply lookup_replicate in Hs as [-> _]. rewrite drop_ge; [done|].
    etransitivity; [exact H2|]. apply Nat.mul_le_mono_r. lia.
  - rewrite length_app. etransitivity; [exact H2|]. apply Nat.mul_le_mono_r. lia.
Qed.

(** Giving one more item to the slots that have started. *)
Lemma push_slots_at slide p xs ws x ts k :
  0 < slide → slots_at slide p xs ws → p * slide ≤ length xs →
  k = (length xs - p * slide) / slide + 1 → k ≤ length ws →
  S (length xs) ≤ (p + length ws) * slide →
  ∃ ws', update_slots k 0 ws x ts = Done ws' ∧ length ws' = length ws ∧
    slots_at slide p (xs ++ [(x, ts)]) ws'.
Proof.
  intros Hsl [H1 H2] Hp -> Hk Hroom. set (c := length xs - p * slide) in *.
  destruct (update_slots_spec (c / slide + 1) 0 ws x ts) as (ws' & Hu & Hl & Hw); [lia|].
  exists ws'. split_and!; [done..|]. split.
  - intros j s. rewrite Hw.
    pose proof (Nat.div_mod_eq c slide) as Hd. pose proof (Nat.mod_upper_bound c slide) as Hm.
    case_decide as Hj.
    + intros Hs. destruct (ws !! j) as [s0|] eqn:E; [|done]. injection Hs as <-.
      rewrite (H1 _ _ E), slot_of_snoc, drop_app_le; [done|].
      assert (j * slide ≤ c / slide * slide) by (apply Nat.mul_le_mono_r; lia). lia.
    + intros Hs. rewrite (H1 _ _ Hs).
      assert ((c / slide + 1) * slide ≤ j * slide) by (apply Nat.mul_le_mono_r; lia).
      rewrite !drop_ge; [done|rewrite length_app; cbn; lia|lia].
  - rewrite length_app, Hl. cbn. lia.
Qed.
End slots.

(** ** Count windows *)
Section count.
Context {A In Out : Type} `{!WindowAccumulator A In Out} (init : A) (fin : list In → Out)
  `{!AccumulatorSpec init fin}.
Context (size slide : nat) (Hsize : 0 < size) (Hslide : 0 < slide).
(** How far apart the windows start: a [slide] beyond [size] acts as [size]. *)
Abbreviation step := (Nat.min slide size).
Abbreviation item := (In * option Timestamp)%type.

(** The result of a window made of the items [l]. *)
Definition window_result (l : list item) : WindowResult Out :=
  WindowResult_new (fin (l.*1)) (list_ts l).

Lemma slot_result_of (l : list item) :
  l ≠ [] → slot_result (slot_of init l) = Done (window_result l).
Proof.
  intros Hl. unfold slot_result, slot_of, window_result. cbn.
  rewrite acc_spec by (by destruct l). done.
Qed.

Lemma ceil_bounds n :
  div_ceil size slide = Done n → n * step ≥ size ∧ ∀ c, c < size → c / slide + 1 ≤ n.
Proof.
  unfold div_ceil. destruct slide as [|s] eqn:Es; [lia|]. rewrite <-Es in *. intros [= <-].
  replace (size + slide - 1) with (size - 1 + 1 * slide) by lia.
  rewrite Nat.div_add by lia.
  pose proof (Nat.div_mod_eq (size - 1) slide). pose proof (Nat.mod_upper_bound (size - 1) slide).
  split.
  - destruct (decide (slide ≤ size)) as [Hle|Hgt]; [rewrite Nat.min_l by done; lia|].
    rewrite Nat.min_r by lia. rewrite (Nat.div_small (size - 1)) by lia. lia.
  - intros c Hc. assert (c / slide ≤ (size - 1) / slide); [|lia].
    apply Nat.Div0.div_le_mono. lia.
Qed.

(** The number of windows that an item goes to, as the code computes it. *)
Lemma started_windows c : c < size → c / slide = c / step.
Proof.
  intros Hc. destruct (decide (slide ≤ size)) as [Hle|Hgt]; [by rewrite Nat.min_l|].
  rewrite Nat.min_r by lia. by rewrite !Nat.div_small by lia.
Qed.

(** Item [j] of the window list, for the [p] windows that are complete. *)
Definition full_windows (p : nat) (xs : list item) : list (WindowResult Out) :=
  (λ j, window_result (take size (drop (j * step) xs))) <$> seq 0 p.

Lemma full_windows_snoc p xs x :
  (∀ j, j < p → j * step + size ≤ length xs) → full_windows p (xs ++ [x]) = full_windows p xs.
Proof.
  intros Hp. apply list_fmap_ext. intros i j Hj. apply lookup_seq in Hj as [-> Hj].
  specialize (Hp i Hj). cbn.
  rewrite drop_app_le by lia. rewrite take_app_le; [done|]. rewrite length_drop. lia.
Qed.

Record count_at (exact : bool) (xs : list item) (p : nat) (m : CountWindowManager A) : Prop := {
  co_init : m = mkCountWindow init size slide exact (cw_ws m);
  co_slots : slots_at init step p xs (cw_ws m);
  co_len n : div_ceil size slide = Done n → length (cw_ws m) ≤ n;
  co_low : p * step ≤ length xs;
  co_high : length xs < p * step + size;
  co_full j : j < p → j * step + size ≤ length xs
}.

Lemma count_step exact xs p m x ts :
  count_at exact xs p m →
  ∃ res p' m', count_item m x ts = Done (res, m') ∧ count_at exact (xs ++ [(x, ts)]) p' m' ∧
    full_windows p xs ++ res = full_windows p' (xs ++ [(x, ts)]).
Proof.
  intros [Hm Hs Hlen Hlow Hhigh Hfull]. rewrite Hm. unfold count_item. cbn [cw_size cw_slide cw_init cw_ws].
  destruct (div_ceil size slide) as [n| | |] eqn:En;
    try (unfold div_ceil in En; destruct slide; [lia|done]).
  destruct (ceil_bounds n En) as [Hn1 Hn2]. specialize (Hlen n eq_refl). cbn [mbind outcome_bind].
  set (ws := fill_slots init n (cw_ws m)).
  assert (length ws = n) as Hlw.
  { unfold ws, fill_slots. rewrite length_app, length_replicate. lia. }
  assert (slots_at init step p xs ws) as Hws by (by apply fill_slots_at).
  destruct ws as [|front rest] eqn:Ews.
  { exfalso. cbn in Hlw. lia. }
  rewrite <-Ews in *. clearbody ws.
  assert (front = slot_of init (drop (p * step) xs)) as Ef.
  { pose proof (sa_slot _ _ _ _ _ Hws 0 front) as H0. rewrite Nat.add_0_r in H0. apply H0.
    by rewrite Ews. }
  assert (sl_count front = length xs - p * step) as Ec.
  { rewrite Ef. cbn. by rewrite length_drop. }
  assert (head ws = Some front) as -> by (by rewrite Ews).
  cbn [unwrap mbind outcome_bind]. rewrite Ec. rewrite started_windows by lia.
  destruct (push_slots_at init step p xs ws x ts ((length xs - p * step) / step + 1))
    as (ws' & Hu & Hl' & Hws'); [lia|done..| | |].
  { rewrite Hlw, <-started_windows by lia. apply Hn2. lia. }
  { rewrite Hlw. lia. }
  rewrite Hu. cbn [mbind outcome_bind].
  destruct ws' as [|first rest'].
  { exfalso. cbn in Hl'. rewrite Ews in Hl'. done. }
  cbn [lookup list_lookup unwrap mbind outcome_bind].
  assert (first = slot_of init (drop (p * step) (xs ++ [(x, ts)]))) as Ef'.
  { pose proof (sa_slot _ _ _ _ _ Hws' 0 first eq_refl) as H0. by rewrite Nat.add_0_r in H0. }
  assert (sl_count first = S (length xs - p * step)) as Ec'.
  { rewrite Ef'. cbn. rewrite length_drop, length_app. cbn. lia. }
  rewrite Ec'. destruct (Nat.eqb_spec (S (length xs - p * step)) size) as [Heq|Hne].
  - rewrite Ef', slot_result_of.
    2: { intros E%(f_equal length). rewrite length_drop, length_app in E. cbn in E. lia. }
    cbn [mbind outcome_bind]. eexists _, (S p), _. split_and!; [done| |].
    + destruct Hws' as [W1 W2]. rewrite length_app in *. cbn in *. split; cbn; [done| | |rewrite length_app; cbn; lia| |].
      * split; [|rewrite length_app; cbn in *; lia]. intros j s Hj.
        rewrite (W1 (S j) s Hj). f_equal. f_equal. lia.
      * intros n' En'. rewrite En in En'. injection En' as <-. lia.
      * rewrite length_app. cbn. lia.
      * intros j Hj. rewrite length_app. cbn.
        destruct (decide (j = p)) as [->|]; [lia|]. specialize (Hfull j ltac:(lia)). lia.
    + unfold full_windows at 2. rewrite seq_S, fmap_app. fold (full_windows p (xs ++ [(x, ts)])).
      rewrite full_windows_snoc by done. f_equal. cbn. do 2 f_equal.
      rewrite take_ge; [done|]. rewrite length_drop, length_app. cbn. lia.
  - eexists _, p, _. split_and!; [done| |].
    + split; cbn; [done|done| |rewrite length_app; cbn; lia|rewrite length_app; cbn; lia|].
      * intros n' En'. rewrite En in En'. injection En' as <-. cbn in Hl'. lia.
      * intros j Hj. rewrite length_app. specialize (Hfull j Hj). lia.
    + by rewrite app_nil_r, full_windows_snoc.
Qed.

Lemma count_at_new exact : count_at exact [] 0 (CountWindow_build size slide exact init).
Proof.
  split; cbn; try done; lia.
Qed.

Lemma count_process_element m x :
  CountWindow_process m (to_element x) = count_item m x.1 x.2.
Proof. destruct x as [x [ts|]]; done. Qed.

Lemma count_run exact xs :
  ∃ p m, run_manager (CountWindow_build size slide exact init) (to_element <$> xs) =
      Done (full_windows p xs, m) ∧ count_at exact xs p m.
Proof.
  induction xs as [|[x ts] xs IH] using rev_ind.
  { exists 0, (CountWindow_build size slide exact init). split; [done|apply count_at_new]. }
  destruct IH as (p & m & Hr & Hat).
  destruct (count_step exact xs p m x ts Hat) as (res & p' & m' & Hc & Hat' & Hw).
  exists p', m'. split; [|done]. rewrite fmap_app, <-Hw.
  eapply run_manager_snoc; [done|]. cbn -[CountWindow_process].
  by rewrite count_process_element.
Qed.

(** The end of the round: the first incomplete window, unless only exact ones count. *)
Lemma count_end_spec exact xs p m :
  count_at exact xs p m →
  count_end m = Done (if exact then []
                      else match drop (p * step) xs with
                           | [] => [] | l => [window_result l] end,
                      CountWindow_build size slide exact init).
Proof.
  intros [Hm [Hs Hrest] Hlen Hlow Hhigh Hfull]. rewrite Hm. unfold count_end. cbn.
  destruct exact; [done|].
  destruct (cw_ws m) as [|r ws] eqn:Ews; cbn.
  - cbn in Hrest. rewrite drop_ge by lia. done.
  - assert (r = slot_of init (drop (p * step) xs)) as ->.
    { pose proof (Hs 0 r eq_refl) as H0. by rewrite Nat.add_0_r in H0. }
    destruct (drop (p * step) xs) as [|y l] eqn:Ed; [done|].
    rewrite slot_result_of by done. done.
Qed.
End count.

(** C33. A count window emits, for the items of a round, exactly the windows of [size]
    consecutive items that start at the multiples of [min slide size], in order: every
    [slide] items when [slide <= size], and back to back, whatever the [slide], when it is
    greater than [size].  Each comes with the greatest timestamp of its items; at the end
    of the round it emits the first incomplete window, if it has an item and the windows
    need not be exact, and returns to its initial state. *)
Theorem CountWindow_round {A In Out} `{!WindowAccumulator A In Out} (init : A)
    (fin : list In → Out) `{!AccumulatorSpec init fin} (size slide : nat) (exact : bool)
    (xs : list (In * option Timestamp)) :
  0 < size → 0 < slide → let step := Nat.min slide size in
  ∃ p, (∀ j, j < p ↔ j * step + size ≤ length xs) ∧
    run_manager (CountWindow_build size slide exact init)
      ((to_element <$> xs) ++ [FlushAndRestart]) =
    Done (((λ j, window_result fin (take size (drop (j * step) xs))) <$> seq 0 p) ++
          (if exact then []
           else match drop (p * step) xs with
                | [] => [] | l => [window_result fin l] end),
          CountWindow_build size slide exact init).
Proof.
  intros Hn Hs step. destruct (count_run init fin size slide Hn Hs exact xs) as (p & m & Hr & Hat).
  exists p. split.
  - intros j. split; [apply (co_full _ _ _ _ _ _ _ Hat)|]. intros Hj.
    pose proof (co_high _ _ _ _ _ _ _ Hat). destruct (decide (j < p)) as [|Hnj]; [done|].
    assert (p * step ≤ j * step) by (apply Nat.mul_le_mono_r; lia). lia.
  - eapply run_manager_snoc; [exact Hr|].
    eapply (count_end_spec init fin size slide); [lia..|exact Hat].
Qed.

Lemma CountWindow_round_witness :
  ∃ p, (∀ j, j < p ↔ j * 2 + 3 ≤ 6) ∧
    run_manager (CountWindow_build 3 2 false (mkFoldAcc 0 Nat.add))
      ((to_element <$> ((λ x, (x, None)) <$> [1; 2; 3; 4; 5; 6])) ++ [FlushAndRestart]) =
    Done (((λ j, window_result (foldl Nat.add 0)
                   (take 3 (drop (j * 2) ((λ x, (x, None)) <$> [1; 2; 3; 4; 5; 6])))) <$> seq 0 p) ++
          match drop (p * 2) ((λ x, (x, None)) <$> [1; 2; 3; 4; 5; 6]) with
          | [] => [] | l => [window_result (foldl Nat.add 0) l] end,
          CountWindow_build 3 2 false (mkFoldAcc 0 Nat.add)).
Proof.
  refine (CountWindow_round (mkFoldAcc 0 Nat.add) (foldl Nat.add 0) 3 2 false
    ((λ x, (x, None)) <$> [1; 2; 3; 4; 5; 6]) _ _); lia.
Defined.

(** ** Last-[k] windows *)
Section last_k.
Context {A In Out : Type} `{!WindowAccumulator A In Out} (init : A) (fin : list In → Out)
  `{!AccumulatorSpec init fin} (size : nat) (Hsize : 0 < size).
Abbreviation item := (In * option Timestamp)%type.

Record last_k_at (xs : list item) (m : LastKWindowManager A) : Prop := {
  la_init : m = mkLastK init (length xs) size (lk_ws m);
  la_slots : slots_at init 1 (S (length xs) - size) xs (lk_ws m);
  la_len : length (lk_ws m) ≤ size
}.

(** The [size] most recent items. *)
Definition last_items (xs : list item) : list item := drop (length xs - size) xs.

Lemma last_k_step xs m x ts :
  last_k_at xs m →
  ∃ m', last_k_item m x ts =
      Done ([window_result fin (last_items (xs ++ [(x, ts)]))], m') ∧
    last_k_at (xs ++ [(x, ts)]) m'.
Proof.
  intros [Hm Hs Hlen]. rewrite Hm. unfold last_k_item. cbn [lk_size lk_init lk_ws lk_idx].
  set (p := S (length xs) - size) in *. set (ws := fill_slots init size (lk_ws m)).
  assert (length ws = size) as Hlw.
  { unfold ws, fill_slots. rewrite length_app, length_replicate. lia. }
  assert (slots_at init 1 p xs ws) as Hws by (by apply fill_slots_at).
  destruct ws as [|front rest] eqn:Ews; [exfalso; cbn in Hlw; lia|].
  rewrite <-Ews in *. clearbody ws.
  assert (front = slot_of init (drop p xs)) as Ef.
  { pose proof (sa_slot _ _ _ _ _ Hws 0 front) as H0.
    rewrite Nat.add_0_r, Nat.mul_1_r in H0. apply H0. by rewrite Ews. }
  assert (sl_count front = length xs - p) as Ec by (rewrite Ef; cbn; by rewrite length_drop).
  assert (head ws = Some front) as -> by (by rewrite Ews).
  cbn [unwrap mbind outcome_bind]. rewrite Ec.
  destruct (push_slots_at init 1 p xs ws x ts (length xs - p + 1))
    as (ws' & Hu & Hl' & Hws'); [lia|done|lia|rewrite Nat.div_1_r; lia|lia|lia|].
  rewrite Hu. cbn [mbind outcome_bind].
  destruct ws' as [|first rest'].
  { exfalso. cbn in Hl'. rewrite Ews in Hl'. done. }
  cbn [lookup list_lookup unwrap mbind outcome_bind].
  assert (first = slot_of init (drop p (xs ++ [(x, ts)]))) as Ef'.
  { pose proof (sa_slot _ _ _ _ _ Hws' 0 first eq_refl) as H0.
    by rewrite Nat.add_0_r, Nat.mul_1_r in H0. }
  assert (sl_count first = S (length xs - p)) as Ec'.
  { rewrite Ef'. cbn. rewrite length_drop, length_app. cbn. lia. }
  assert (slot_result first = Done (window_result fin (last_items (xs ++ [(x, ts)])))) as ->.
  { rewrite Ef', (slot_result_of init fin).
    - unfold last_items. do 3 f_equal. rewrite length_app. cbn. lia.
    - intros E%(f_equal length). rewrite length_drop, length_app in E. cbn in E. lia. }
  cbn [mbind outcome_bind]. rewrite Ec'.
  destruct (Nat.eqb_spec (S (length xs - p)) size) as [Heq|Hne].
  - eexists. split; [done|]. destruct Hws' as [W1 W2]. cbn in Hl'. split; cbn;
      [by rewrite length_app| |lia].
    assert (S (length (xs ++ [(x, ts)])) - size = S p) as ->.
    { rewrite length_app. cbn. lia. }
    split; [|rewrite length_app in *; cbn in *; lia]. intros j s Hj.
    rewrite (W1 (S j) s Hj). do 2 f_equal. lia.
  - eexists. split; [done|]. cbn in Hl'. split; cbn;
      [by rewrite length_app| |lia].
    assert (S (length (xs ++ [(x, ts)])) - size = p) as ->; [|done].
    rewrite length_app. cbn. lia.
Qed.

Lemma last_k_run xs m0 xs0 :
  last_k_at xs0 m0 →
  ∃ m, run_manager m0 (to_element <$> xs) =
      Done ((λ n, window_result fin (last_items (xs0 ++ take (S n) xs))) <$> seq 0 (length xs), m) ∧
    last_k_at (xs0 ++ xs) m.
Proof.
  intros H0. induction xs as [|[x ts] xs IH] using rev_ind.
  { exists m0. rewrite app_nil_r. done. }
  destruct IH as (m & Hr & Hat). destruct (last_k_step _ _ x ts Hat) as (m' & Hs & Hat').
  exists m'. rewrite app_assoc. split; [|done]. rewrite fmap_app.
  assert ((λ n, window_result fin (last_items (xs0 ++ take (S n) (xs ++ [(x, ts)])))) <$>
      seq 0 (length (xs ++ [(x, ts)])) =
    ((λ n, window_result fin (last_items (xs0 ++ take (S n) xs))) <$> seq 0 (length xs)) ++
      [window_result fin (last_items ((xs0 ++ xs) ++ [(x, ts)]))]) as ->.
  { rewrite length_app, Nat.add_1_r, seq_S, fmap_app. f_equal.
    - apply list_fmap_ext. intros i n Hi. apply lookup_seq in Hi as [-> Hi]. cbn.
      by rewrite take_app_le by lia.
    - cbn. rewrite take_ge by (rewrite length_app; cbn; lia). by rewrite app_assoc. }
  eapply run_manager_snoc; [exact Hr|]. cbn -[LastKWindow_process].
  destruct ts as [ts|]; exact Hs.
Qed.
End last_k.

(** A last-[k] window emits one result per item, the aggregate of the [k] most recent
    items of the round (all of them while there are fewer than [k]), and a new round
    starts from nothing. *)
Theorem LastKWindow_round {A In Out} `{!WindowAccumulator A In Out} (init : A)
    (fin : list In → Out) `{!AccumulatorSpec init fin} (size : nat)
    (xs : list (In * option Timestamp)) :
  0 < size →
  run_manager (LastKWindow_build size init) ((to_element <$> xs) ++ [FlushAndRestart]) =
  Done ((λ n, window_result fin (last_items size (take (S n) xs))) <$> seq 0 (length xs),
        mkLastK init (length xs) size []).
Proof.
  intros Hs. destruct (last_k_run init fin size Hs xs (LastKWindow_build size init) [])
    as (m & Hr & Hat).
  { split; cbn; [done| |lia]. split; cbn; [done|lia]. }
  rewrite <-(app_nil_r (_ <$> seq 0 _)). eapply run_manager_snoc; [exact Hr|].
  cbn. by rewrite (la_init _ _ _ _ Hat).
Qed.

Lemma LastKWindow_round_witness :
  run_manager (LastKWindow_build 2 (mkFoldAcc 0 Nat.add))
    ((to_element <$> [(1, None); (2, Some 5%Z); (3, None)]) ++ [FlushAndRestart]) =
  Done ([WItem 1; WTimestamped 3 5%Z; WTimestamped 5 5%Z], mkLastK (mkFoldAcc 0 Nat.add) 3 2 []).
Proof.
  refine (LastKWindow_round (mkFoldAcc 0 Nat.add) (foldl Nat.add 0) 2
    [(1, None); (2, Some 5%Z); (3, None)] _). lia.
Defined.

(** ** The cross product of a window join *)

(** Draining a [ProductIterator]. *)
Fixpoint product_collect {L R} (fuel : nat) (it : ProductIterator L R) : outcome (list (L * R)) :=
  match fuel with
  | 0 => OutOfFuel
  | S fuel =>
      '(o, it) ← ProductIterator_next it;
      match o with
      | None => Done []
      | Some x => l ← product_collect fuel it; Done (x :: l)
      end
  end.

Lemma product_step {L R} (ls : list L) (rs : list R) i j l r f :
  ls !! i = Some l → rs !! j = Some r →
  product_collect (S f) (mkProductIterator ls rs i j) =
  '(x) ← product_collect f (if length rs <=? j + 1 then mkProductIterator ls rs (i + 1) 0
                            else mkProductIterator ls rs i (j + 1));
  Done ((l, r) :: x).
Proof.
  intros Hl Hr. cbn [product_collect]. unfold ProductIterator_next. cbn.
  pose proof (lookup_lt_Some _ _ _ Hl). pose proof (lookup_lt_Some _ _ _ Hr).
  destruct (Nat.leb_spec (length ls) i); [lia|]. destruct (Nat.leb_spec (length rs) j); [lia|].
  cbn. rewrite Hl, Hr. done.
Qed.

Lemma product_row {L R} (ls : list L) (rs : list R) i l j n f out :
  ls !! i = Some l → j + n = length rs → 0 < n →
  product_collect f (mkProductIterator ls rs (i + 1) 0) = Done out →
  product_collect (n + f) (mkProductIterator ls rs i j) = Done ((pair l <$> drop j rs) ++ out).
Proof.
  intros Hl. revert j. induction n as [|n IH]; intros j Hj Hn Hout; [lia|].
  destruct (lookup_lt_is_Some_2 rs j) as [r Hr]; [lia|]. cbn [Nat.add].
  rewrite (product_step ls rs i j l r _ Hl Hr), (drop_S _ _ _ Hr).
  destruct (Nat.leb_spec (length rs) (j + 1)).
  - assert (n = 0) as -> by lia. cbn [Nat.add]. rewrite Hout. cbn.
    rewrite drop_ge by lia. done.
  - rewrite (IH (j + 1)); [|lia|lia|done]. cbn. by rewrite Nat.add_1_r.
Qed.

Lemma product_rows {L R} (ls : list L) (rs : list R) i f :
  rs ≠ [] → (length ls - i) * length rs < f →
  product_collect f (mkProductIterator ls rs i 0) = Done (l ← drop i ls; pair l <$> rs).
Proof.
  intros Hrs. remember (length ls - i) as n eqn:En. revert i f En.
  assert (0 < length rs) as Hpos by (destruct rs; cbn; [done|lia]).
  induction n as [|n IH]; intros i f En Hf.
  - destruct f as [|f]; [lia|]. cbn. unfold ProductIterator_next. cbn.
    destruct (Nat.leb_spec (length ls) i); [|lia]. cbn. by rewrite drop_ge.
  - destruct (lookup_lt_is_Some_2 ls i) as [l Hl]; [lia|]. rewrite (drop_S _ _ _ Hl).
    replace f with (length rs + (f - length rs)) by (cbn in Hf; lia).
    rewrite (product_row ls rs i l 0 (length rs) (f - length rs) (l ← drop (S i) ls; pair l <$> rs));
      [done|done|lia|done|].
    rewrite Nat.add_1_r. apply IH; [lia|]. cbn in Hf. lia.
Qed.

(** The join of a window is the full cross product of its left and right items, in
    order: draining the iterator that the accumulator outputs yields each pair exactly
    once, never indexes out of bounds, and stops after [left * right] steps. *)
Theorem window_join_product {L R} (xs : list (MergeElement L R)) :
  let lefts := omap (λ x, match x with MLeft l => Some l | MRight _ => None end) xs in
  let rights := omap (λ x, match x with MRight r => Some r | MLeft _ => None end) xs in
  ∃ it, acc_output (foldl acc_process (mkJoinAcc [] []) xs) = Done it ∧
    product_collect (S (length lefts * length rights)) it =
    Done (l ← lefts; pair l <$> rights).
Proof.
  intros lefts rights.
  assert (∀ ls rs, foldl acc_process (mkJoinAcc ls rs) xs =
    mkJoinAcc (ls ++ lefts) (rs ++ rights)) as Hf.
  { unfold lefts, rights. induction xs as [|[l|r] xs' IH]; intros ls rs; csimpl.
    - by rewrite !app_nil_r.
    - etransitivity; [apply (IH (ls ++ [l]) rs)|]. by rewrite <-app_assoc.
    - etransitivity; [apply (IH ls (rs ++ [r]))|]. by rewrite <-app_assoc. }
  rewrite Hf. eexists. split; [done|]. cbn [app ja_left ja_right].
  destruct (decide (rights = [])) as [->|Hne].
  - cbn. unfold ProductIterator_next. cbn. rewrite orb_true_r. cbn. f_equal.
    clear Hf. clearbody lefts. induction lefts as [|l ls IHl]; [done|]. exact IHl.
  - rewrite product_rows; [by rewrite drop_0|done|lia].
Qed.

(** ** Event-time windows *)
Section event_time.
Context {A In Out : Type} `{!WindowAccumulator A In Out} (init : A).
Implicit Types self : EventTimeWindowManager A.

(** What skipping the empty windows gives, within the bounds of [i64]: the start moves
    forward by whole slides, to less than a slide before the watermark or where it was. *)
Lemma skip_empty_spec w start slide :
  (0 < slide)%Z → in_i64 start → in_i64 w → in_i64 (w - start) →
  ∃ s, skip_empty w start slide = Done s ∧
    (start ≤ s ≤ Z.max start w)%Z ∧ (w - slide < s)%Z ∧ in_i64 s.
Proof.
  intros Hs Hst Hw Hd. unfold skip_empty. rewrite i64_arith_in by done. cbn.
  destruct (Z.eqb_spec slide 0); [lia|]. cbn.
  set (d := Z.max (w - start) 0).
  assert (0 ≤ d)%Z as Hd0 by lia.
  assert (0 ≤ Z.quot d slide)%Z by (apply Z.quot_pos; lia).
  pose proof (Z.quot_rem' d slide) as Hq. pose proof (Z.rem_bound_pos d slide Hd0 Hs) as Hr.
  assert (in_i64 d) as Hid by (unfold in_i64, i64_min, i64_max in *; lia).
  assert (Z.quot d slide ≤ d)%Z by nia.
  rewrite i64_arith_in by (unfold in_i64, i64_min in *; lia). cbn.
  rewrite i64_arith_in by (unfold in_i64, i64_min in *; nia). cbn.
  assert (in_i64 (start + Z.quot d slide * slide)) by (unfold in_i64 in *; nia).
  rewrite i64_arith_in by done. eexists. split; [done|]. split_and!; [nia|nia|nia|done].
Qed.

(** The loop of [alloc_windows] ends within its fuel when the next start is past the
    last one and no sum overflows; it keeps every invariant [Q] that its body keeps, and
    leaves a last window that starts at the timestamp or later. *)
Lemma alloc_loop_spec (Q : list (RSlot A) → Prop) (lw : option Timestamp) size slide ts ws :
  Q ws →
  (∀ ws, Q ws →
     match last ws with Some b => (rs_start b < ts)%Z | None => True end →
     ∃ s, next_window (mkEventTime init size slide lw ws) ts = Done s ∧
       match last ws with Some b => (rs_start b < s)%Z | None => (ts ≤ s)%Z end ∧
       in_i64 (s + size) ∧ Q (ws ++ [mkRSlot init s (s + size)%Z false])) →
  ∃ ws' b, alloc_loop (alloc_fuel (mkEventTime init size slide lw ws) ts)
      (mkEventTime init size slide lw ws) ts = Done (mkEventTime init size slide lw ws') ∧
    Q ws' ∧ last ws' = Some b ∧ (ts ≤ rs_start b)%Z.
Proof.
  intros Hq Hstep.
  assert (∀ f ws, Q ws →
    match last ws with Some b => Z.to_nat (ts - rs_start b) < f | None => 1 < f end →
    ∃ ws' b, alloc_loop f (mkEventTime init size slide lw ws) ts =
      Done (mkEventTime init size slide lw ws') ∧ Q ws' ∧ last ws' = Some b ∧
      (ts ≤ rs_start b)%Z) as Hgo.
  { clear ws Hq. induction f as [|f IH]; intros ws Hq Hf; [destruct (last ws) in Hf; lia|].
    cbn [alloc_loop et_ws et_size et_init].
    pose proof (Hstep ws Hq) as Hst. destruct (last ws) as [b|] eqn:El.
    - destruct (Z.ltb_spec (rs_start b) ts) as [Hlt|Hge]; [|by exists ws, b].
      destruct (Hst Hlt) as (s & -> & Hs & Hin & Hq'). cbn. rewrite i64_arith_in by done. cbn.
      apply IH; [done|]. rewrite last_snoc. cbn. lia.
    - destruct (Hst I) as (s & -> & Hs & Hin & Hq'). cbn. rewrite i64_arith_in by done. cbn.
      apply IH; [done|]. rewrite last_snoc. cbn. lia. }
  apply Hgo; [done|]. unfold alloc_fuel. cbn. destruct (last ws); lia.
Qed.

(** The items of the window [j] of a round whose first timestamp is [t0]. *)
Definition in_window (size slide t0 : Z) (j : nat) (x : In * Timestamp) : Prop :=
  (t0 + Z.of_nat j * slide ≤ x.2 < t0 + Z.of_nat j * slide + size)%Z.
Global Instance in_window_dec size slide t0 j x : Decision (in_window size slide t0 j x).
Proof. unfold in_window. apply _. Defined.
Definition window_items size slide t0 j (xs : list (In * Timestamp)) : list In :=
  (filter (in_window size slide t0 j) xs).*1.

(** The slot of window [j] after the items [xs]. *)
Definition event_slot size slide t0 xs (j : nat) : RSlot A :=
  mkRSlot (foldl acc_process init (window_items size slide t0 j xs)) (t0 + Z.of_nat j * slide)%Z
    (t0 + Z.of_nat j * slide + size)%Z
    (bool_decide (window_items size slide t0 j xs ≠ [])).

Lemma window_items_snoc size slide t0 j xs x :
  window_items size slide t0 j (xs ++ [x]) =
  window_items size slide t0 j xs ++ (if decide (in_window size slide t0 j x) then [x.1] else []).
Proof.
  unfold window_items. rewrite filter_app, fmap_app. f_equal.
  rewrite filter_cons, filter_nil. by case_decide.
Qed.

Lemma event_slot_in size slide t0 xs x j :
  in_window size slide t0 j x →
  event_slot size slide t0 (xs ++ [x]) j =
  let w := event_slot size slide t0 xs j in
  mkRSlot (acc_process (rs_acc w) x.1) (rs_start w) (rs_end w) true.
Proof.
  intros Hin. unfold event_slot. rewrite window_items_snoc, decide_True by done. cbn.
  rewrite foldl_app. f_equal. apply bool_decide_true. by destruct (window_items _ _ _ _ xs).
Qed.

Lemma event_slot_out size slide t0 xs x j :
  ¬ in_window size slide t0 j x →
  event_slot size slide t0 (xs ++ [x]) j = event_slot size slide t0 xs j.
Proof.
  intros Hin. unfold event_slot. by rewrite window_items_snoc, decide_False, app_nil_r by done.
Qed.

(** Past the last window that contains an item, slots do not change. *)
Lemma event_slots_later size slide t0 xs x m n :
  (0 < slide)%Z → (x.2 < t0 + Z.of_nat m * slide)%Z →
  event_slot size slide t0 (xs ++ [x]) <$> seq m n = event_slot size slide t0 xs <$> seq m n.
Proof.
  intros Hs Hm. apply list_fmap_ext. intros i j [-> Hi]%lookup_seq.
  apply event_slot_out. unfold in_window. nia.
Qed.

(** Feeding an item updates exactly the windows that contain its timestamp. *)
Lemma feed_range_spec size slide t0 xs x m n :
  (0 < slide)%Z →
  feed_range x.2 x.1 (event_slot size slide t0 xs <$> seq m n) =
  event_slot size slide t0 (xs ++ [x]) <$> seq m n.
Proof.
  intros Hs. revert m. induction n as [|n IH]; intros m; [done|]. cbn [seq fmap list_fmap feed_range].
  cbn [rs_end event_slot]. destruct (Z.leb_spec (t0 + Z.of_nat m * slide + size) x.2).
  - rewrite event_slot_out by (unfold in_window; lia). f_equal. apply (IH (S m)).
  - clear IH. change (take_range x.2 x.1 (event_slot size slide t0 xs <$> seq m (S n)) =
      event_slot size slide t0 (xs ++ [x]) <$> seq m (S n)).
    assert (∀ k n, (m ≤ k) → take_range x.2 x.1 (event_slot size slide t0 xs <$> seq k n) =
      event_slot size slide t0 (xs ++ [x]) <$> seq k n) as Hgo; [|by apply Hgo].
    clear n. intros k n Hk. revert k Hk. induction n as [|n IH]; intros k Hk; [done|].
    cbn [seq fmap list_fmap take_range]. cbn [rs_start event_slot].
    destruct (Z.leb_spec (t0 + Z.of_nat k * slide) x.2).
    + rewrite event_slot_in by (unfold in_window; nia). f_equal. apply (IH (S k)). lia.
    + symmetry. apply (event_slots_later size slide t0 xs x k (S n)); [done|lia].
Qed.

(** A manager that has seen no watermark, after the items [xs] of a round: the windows
    [0 .. n-1] are open, the last of which starts at the greatest timestamp or later. *)
Definition event_at size slide t0 xs n : EventTimeWindowManager A :=
  mkEventTime init size slide None (event_slot size slide t0 xs <$> seq 0 n).

Lemma event_slot_fresh size slide t0 xs n :
  (0 < slide)%Z → Forall (λ y, (y.2 < t0 + Z.of_nat n * slide)%Z) xs →
  event_slot size slide t0 xs n = mkRSlot init (t0 + Z.of_nat n * slide)%Z (t0 + Z.of_nat n * slide + size)%Z false.
Proof.
  intros Hs Hxs. unfold event_slot, window_items.
  assert (filter (in_window size slide t0 n) xs = []) as ->; [|done].
  induction Hxs as [|y xs Hy _ IH]; [done|]. rewrite filter_cons, decide_False; [done|].
  unfold in_window. lia.
Qed.

(** No window that an item of timestamp [ts] opens overflows. *)
Definition ts_fits (size slide ts : Z) : Prop :=
  (i64_min ≤ ts ∧ ts + slide + size ≤ i64_max + 1)%Z.

(** The last of the [n] windows starts less than a slide past some item. *)
Lemma event_step size slide t0 xs x n :
  (0 < slide)%Z → (0 < size)%Z → in_i64 t0 → ts_fits size slide x.2 →
  (n = 0 → xs = [] ∧ x.2 = t0) →
  Forall (λ y, (y.2 ≤ t0 + (Z.of_nat n - 1) * slide)%Z) xs →
  ∃ n', EventTimeWindow_process (event_at size slide t0 xs n) (Timestamped x.1 x.2) =
      Done ([], event_at size slide t0 (xs ++ [x]) n') ∧ n ≤ n' ∧ 0 < n' ∧
    (x.2 ≤ t0 + (Z.of_nat n' - 1) * slide)%Z ∧
    (n' = n ∨ t0 + (Z.of_nat n' - 1) * slide < x.2 + slide)%Z.
Proof.
  intros Hs Hsz Ht0 [Hf1 Hf2] H0 Hxs. cbn. unfold alloc_windows. cbn.
  destruct (alloc_loop_spec
    (λ ws, ∃ k, n ≤ k ∧ (k = n ∨ t0 + (Z.of_nat k - 1) * slide < x.2 + slide)%Z ∧
       ws = event_slot size slide t0 xs <$> seq 0 k) None size slide x.2
    (event_slot size slide t0 xs <$> seq 0 n)) as (ws' & b & Ha & (k & Hk & Hlast & ->) & Hl & Hb).
  - exists n. auto.
  - intros ws (k & Hk & Hlast & ->) Hlt. exists (t0 + Z.of_nat k * slide)%Z.
    assert (t0 + Z.of_nat k * slide < x.2 + slide)%Z as Hlt'.
    { destruct k as [|k]; [destruct n; [|lia]; destruct (H0 eq_refl); lia|].
      rewrite seq_S, fmap_app in Hlt. cbn [fmap list_fmap] in Hlt. rewrite last_snoc in Hlt.
      cbn in Hlt. lia. }
    assert (in_i64 (t0 + Z.of_nat k * slide + size)) by (unfold in_i64 in *; nia).
    split; [|split; [|split; [done|]]].
    + destruct k as [|k].
      * cbn. destruct n; [|lia]. destruct (H0 eq_refl). f_equal. lia.
      * unfold next_window. cbn [et_ws et_slide last_watermark]. rewrite seq_S, fmap_app.
        cbn [fmap list_fmap]. rewrite last_snoc. cbn -[Z.of_nat].
        rewrite i64_arith_in by (unfold in_i64 in *; nia). cbn -[Z.of_nat]. f_equal. lia.
    + destruct k as [|k].
      * cbn. destruct n; [|lia]. destruct (H0 eq_refl). lia.
      * rewrite seq_S, fmap_app. cbn [fmap list_fmap]. rewrite last_snoc. cbn -[Z.of_nat]. lia.
    + exists (S k). split; [lia|]. split; [right; lia|].
      rewrite seq_S, fmap_app. cbn -[Z.of_nat]. f_equal. f_equal.
      symmetry. apply event_slot_fresh; [done|]. eapply Forall_impl; [exact Hxs|].
      intros y Hy. cbn in Hy. nia.
  - unfold event_at. rewrite Ha. cbn [mbind outcome_bind et_ws]. exists k.
    unfold set_et. cbn [et_init et_size et_slide last_watermark].
    rewrite feed_range_spec by done.
    destruct k as [|k]; [done|]. rewrite seq_S, fmap_app in Hl. cbn [fmap list_fmap] in Hl.
    rewrite last_snoc in Hl.
    injection Hl as <-. cbn -[Z.of_nat] in Hb. split_and!; [done|lia|lia|lia|done].
Qed.

Lemma event_run size slide t0 x0 xs :
  (0 < slide)%Z → (0 < size)%Z → x0.2 = t0 → Forall (λ x, ts_fits size slide x.2) (x0 :: xs) →
  ∃ n, run_manager (EventTimeWindow_build size slide init)
      ((λ x, Timestamped x.1 x.2) <$> x0 :: xs) =
      Done ([], event_at size slide t0 (x0 :: xs) n) ∧
    Forall (λ y, (y.2 ≤ t0 + (Z.of_nat n - 1) * slide)%Z) (x0 :: xs) ∧
    ∃ y, y ∈ x0 :: xs ∧ (t0 + (Z.of_nat n - 1) * slide < y.2 + slide)%Z.
Proof.
  intros Hs Hsz Ht Hfit.
  assert (in_i64 t0) as Ht0.
  { apply Forall_cons in Hfit as [[? ?] _]. unfold in_i64. lia. }
  induction xs as [|x xs IH] using rev_ind.
  - apply Forall_cons in Hfit as [Hfit _].
    destruct (event_step size slide t0 [] x0 0) as (n & Hp & _ & Hn & Hb & Hl); [done..|].
    exists n. split_and!; [|by constructor|].
    + cbn [fmap list_fmap]. by apply (run_manager_snoc _ [] _ [] (event_at size slide t0 [] 0)).
    + exists x0. split; [by left|]. destruct Hl; lia.
  - rewrite app_comm_cons, Forall_app, Forall_singleton in Hfit. destruct Hfit as [Hfit Hx].
    destruct (IH Hfit) as (n & Hr & Hb & y & Hy & Hlast).
    destruct (event_step size slide t0 (x0 :: xs) x n) as (n' & Hp & Hn & _ & Hb' & Hl); [done..| |done|].
    { intros ->. apply Forall_cons in Hb as [Hb _]. lia. }
    exists n'. rewrite app_comm_cons. split_and!.
    + rewrite fmap_app. by eapply (run_manager_snoc _ _ _ []).
    + apply Forall_app. split; [|by constructor]. eapply Forall_impl; [exact Hb|]. intros z Hz.
      cbn in Hz. nia.
    + destruct Hl as [->|Hl]; [exists y; set_solver|exists x; set_solver].
Qed.

(** What is emitted for the windows [l]: the non-empty ones, with their end. *)
Definition event_results (fin : list In → Out) size slide t0 xs (l : list nat)
    : list (WindowResult Out) :=
  omap (λ j, match window_items size slide t0 j xs with
             | [] => None
             | items => Some (WTimestamped (fin items) (t0 + Z.of_nat j * slide + size)%Z)
             end) l.

(** Items earlier than [t0] are in no window. *)
Lemma event_results_late fin size slide t0 xs l :
  (0 < slide)%Z →
  event_results fin size slide t0 xs l =
  event_results fin size slide t0 (filter (λ x, t0 ≤ x.2)%Z xs) l.
Proof.
  intros Hs. unfold event_results, window_items.
  assert (∀ j, filter (in_window size slide t0 j) (filter (λ x, t0 ≤ x.2)%Z xs) =
    filter (in_window size slide t0 j) xs) as Hf.
  { intros j. rewrite list_filter_filter. apply list_filter_iff. intros x. unfold in_window.
    split; [by intros [? _]|]. intros Hx. split; [done|]. nia. }
  induction l as [|j l IH]; [done|]. cbn. by rewrite Hf, IH.
Qed.

Lemma close_event_slots fin `{!AccumulatorSpec init fin} size slide t0 xs l :
  close_range (λ o w, WTimestamped o (rs_end w)) (event_slot size slide t0 xs <$> l) =
  Done (event_results fin size slide t0 xs l).
Proof.
  induction l as [|j l IH]; [done|]. cbn [fmap list_fmap close_range].
  unfold event_results. cbn [omap list_omap].
  replace (rs_active (event_slot size slide t0 xs j))
    with (bool_decide (window_items size slide t0 j xs ≠ [])) by done.
  replace (rs_acc (event_slot size slide t0 xs j))
    with (foldl acc_process init (window_items size slide t0 j xs)) by done.
  pose proof (acc_spec (init := init) (window_items size slide t0 j xs)) as Hacc.
  destruct (window_items size slide t0 j xs) as [|i items].
  - rewrite bool_decide_false by naive_solver. exact IH.
  - rewrite bool_decide_true by done. rewrite Hacc by done. cbn [mbind outcome_bind].
    rewrite IH. done.
Qed.
End event_time.

(** C34. Event-time windows over a round without watermarks whose timestamps fit in [i64]
    together with the windows they open ([ts_fits]): the windows start at the timestamp
    [t0] of the first item that arrives, and the manager yields exactly the non-empty
    windows [[t0 + j * slide, t0 + j * slide + size)], in order, each with the accumulation
    of precisely the items whose timestamp it contains and stamped with its end, however
    out of order the items are.  Every item that a window of the grid contains is counted
    in it; the items earlier than the first to arrive are in no window of the grid and the
    results are those of the round without them.  The manager is left empty.  Allocating windows
    terminates. *)
Theorem EventTimeWindow_round {A In Out} `{!WindowAccumulator A In Out} (init : A)
    (fin : list In → Out) `{!AccumulatorSpec init fin} (size slide : Z)
    (x0 : In * Timestamp) (xs : list (In * Timestamp)) :
  (0 < slide)%Z → (0 < size)%Z → Forall (λ x, ts_fits size slide x.2) (x0 :: xs) →
  ∃ n, run_manager (EventTimeWindow_build size slide init)
      (((λ x, Timestamped x.1 x.2) <$> x0 :: xs) ++ [FlushAndRestart]) =
    Done (event_results fin size slide x0.2 (x0 :: xs) (seq 0 n),
          EventTimeWindow_build size slide init) ∧
    (∀ j x, x ∈ x0 :: xs → in_window size slide x0.2 j x → j < n) ∧
    event_results fin size slide x0.2 (x0 :: xs) (seq 0 n) =
    event_results fin size slide x0.2 (filter (λ x, x0.2 ≤ x.2)%Z (x0 :: xs)) (seq 0 n).
Proof.
  intros Hs Hsz Hfit.
  destruct (event_run init size slide x0.2 x0 xs) as (n & Hr & Hb & _); [done..|].
  exists n. split_and!.
  - eapply (run_manager_snoc _ _ _ []); [exact Hr|]. cbn. unfold event_at. cbn [et_ws].
    rewrite (close_event_slots init fin). done.
  - intros j x Hx Hin. rewrite Forall_forall in Hb. specialize (Hb _ Hx). cbn in Hb.
    unfold in_window in Hin. nia.
  - by rewrite event_results_late.
Qed.

Lemma EventTimeWindow_round_witness :
  ∃ n, run_manager (EventTimeWindow_build 5 4 (mkFoldAcc 0 Nat.add))
      (((λ x, Timestamped x.1 x.2) <$> [(1, 10%Z); (2, 15%Z); (4, 14%Z)]) ++ [FlushAndRestart]) =
    Done (event_results (foldl Nat.add 0) 5 4 10 [(1, 10%Z); (2, 15%Z); (4, 14%Z)] (seq 0 n),
          EventTimeWindow_build 5 4 (mkFoldAcc 0 Nat.add)) ∧
    (∀ j x, x ∈ [(1, 10%Z); (2, 15%Z); (4, 14%Z)] → in_window 5 4 10 j x → j < n) ∧
    event_results (foldl Nat.add 0) 5 4 10 [(1, 10%Z); (2, 15%Z); (4, 14%Z)] (seq 0 n) =
    event_results (foldl Nat.add 0) 5 4 10
      (filter (λ x, 10 ≤ x.2)%Z [(1, 10%Z); (2, 15%Z); (4, 14%Z)]) (seq 0 n).
Proof.
  refine (EventTimeWindow_round (mkFoldAcc 0 Nat.add) (foldl Nat.add 0) 5 4 (1, 10%Z)
    [(2, 15%Z); (4, 14%Z)] _ _ _); [lia|lia|]. by repeat constructor.
Defined.

(** ** Behaviours the documentation does not announce *)

(** A manager fed with two lists in turn. *)
Lemma run_manager_app {M In Out} `{!WindowManager M In Out} (m : M)
    (l1 l2 : list (StreamElement In)) :
  run_manager m (l1 ++ l2) =
  '(r1, m) ← run_manager m l1; '(r2, m) ← run_manager m l2; Done (r1 ++ r2, m).
Proof.
  revert m. induction l1 as [|e l1 IH]; intros m; cbn.
  - by destruct (run_manager m l2) as [[]| | |].
  - destruct (wm_process 0%Z m e) as [[r m1]| | |]; cbn; [|done..]. rewrite IH.
    destruct (run_manager m1 l1) as [[r1 m2]| | |]; cbn; [|done..].
    destruct (run_manager m2 l2) as [[r2 m3]| | |]; cbn; [|done..]. by rewrite app_assoc.
Qed.

(** The window that holds a whole round: its items and its least timestamp. *)
Lemma AllWindow_items {A In Out} `{!WindowAccumulator A In Out} (init : A) (xs : list (In * option Timestamp)) :
  xs ≠ [] →
  ∃ ts, run_manager (AllWindow_build init) (to_element <$> xs) =
    Done ([], mkAllWindow init (Some (foldl acc_process init (xs.*1))) ts).
Proof.
  induction xs as [|x xs IH] using rev_ind; [done|]. intros _. rewrite !fmap_app, foldl_app.
  destruct (decide (xs = [])) as [->|Hne].
  - cbn. destruct x as [x [ts|]]; cbn; eauto.
  - destruct (IH Hne) as (ts & Hr). destruct x as [x [t|]].
    + eexists. eapply (run_manager_snoc _ _ _ []); [exact Hr|]. done.
    + eexists. eapply (run_manager_snoc _ _ _ []); [exact Hr|]. done.
Qed.

(** The window over a whole round accumulates all its items and is emitted at the end
    of the round; but the manager panics when the next round has no item for its key:
    every stream with two ends of round in a row after an item brings the worker down. *)
Theorem AllWindow_round_then_panic {A In Out} `{!WindowAccumulator A In Out} (init : A)
    (fin : list In → Out) `{!AccumulatorSpec init fin} (xs : list (In * option Timestamp)) :
  xs ≠ [] →
  (∃ r, run_manager (AllWindow_build init) ((to_element <$> xs) ++ [FlushAndRestart]) =
    Done ([r], AllWindow_build init) ∧ result_item r = fin (xs.*1)) ∧
  run_manager (AllWindow_build init) ((to_element <$> xs) ++ [FlushAndRestart; FlushAndRestart]) =
    Panicked.
Proof.
  intros Hne. destruct (AllWindow_items init xs Hne) as (ts & Hr).
  assert (acc_output (foldl acc_process init xs.*1) = Done (fin xs.*1)) as Ho.
  { apply acc_spec. by destruct xs. }
  rewrite !run_manager_app, Hr. cbn. rewrite Ho. cbn. split; [|done].
  eexists. split; [done|]. by destruct ts.
Qed.

Lemma AllWindow_round_then_panic_witness :
  (∃ r, run_manager (AllWindow_build (mkFoldAcc 0 Nat.add))
      ((to_element <$> [(1, None); (2, Some 5%Z)]) ++ [FlushAndRestart]) =
    Done ([r], AllWindow_build (mkFoldAcc 0 Nat.add)) ∧ result_item r = 3) ∧
  run_manager (AllWindow_build (mkFoldAcc 0 Nat.add))
    ((to_element <$> [(1, None); (2, Some 5%Z)]) ++ [FlushAndRestart; FlushAndRestart]) = Panicked.
Proof.
  refine (AllWindow_round_then_panic (mkFoldAcc 0 Nat.add) (foldl Nat.add 0)
    [(1, None); (2, Some 5%Z)] _). done.
Defined.

(** ** Event-time windows after a watermark *)
Section skipped.
Context {A In Out : Type} `{!WindowAccumulator A In Out} (init : A) (fin : list In → Out)
  `{!AccumulatorSpec init fin} (size slide s w : Z).
Context (Hslide : (0 < slide)%Z) (Hsize : (0 < size)%Z) (Hs : (0 ≤ s)%Z) (Hw : (s + slide ≤ w)%Z).
Abbreviation stamped := (λ x : In * Timestamp, Timestamped x.1 x.2).

(** A slot that is not the window that starts at [s]. *)
Record other_slot (b : RSlot A) : Prop := {
  os_end : rs_end b = (rs_start b + size)%Z;
  os_start : rs_start b ≠ s;
  os_pos : (0 ≤ rs_start b)%Z;
  os_acc : ∃ l, rs_acc b = foldl acc_process init l ∧ (rs_active b = true → l ≠ [])
}.

Lemma other_slot_push b item :
  other_slot b → other_slot (mkRSlot (acc_process (rs_acc b) item) (rs_start b) (rs_end b) true).
Proof.
  intros [? ? ? (l & -> & _)]. split; cbn; [done..|]. exists (l ++ [item]).
  rewrite foldl_app. split; [done|]. by destruct l.
Qed.
Lemma take_range_other ts item ws :
  Forall other_slot ws → Forall other_slot (take_range ts item ws).
Proof.
  induction 1 as [|b ws Hb Hws IH]; cbn; [done|]. destruct (rs_start b <=? ts)%Z.
  - constructor; [by apply other_slot_push|done].
  - by constructor.
Qed.
Lemma feed_range_other ts item ws :
  Forall other_slot ws → Forall other_slot (feed_range ts item ws).
Proof.
  induction 1 as [|b ws Hb Hws IH]; cbn; [done|]. destruct (rs_end b <=? ts)%Z.
  - by constructor.
  - apply (take_range_other ts item (b :: ws)). by constructor.
Qed.

Lemma close_other ws :
  Forall other_slot ws →
  ∃ rs, close_range (λ o b, WTimestamped o (rs_end b)) ws = Done rs ∧
    ∀ o, WTimestamped o (s + size)%Z ∉ rs.
Proof.
  induction 1 as [|b ws [He Hn _ (l & Ha & Hl)] Hws (rs & E & Hrs)]; cbn.
  { exists []. split; [done|]. intros o. apply not_elem_of_nil. }
  destruct (rs_active b); [|by exists rs].
  rewrite Ha, (acc_spec (init := init)) by auto. cbn. rewrite E. cbn. eexists. split; [done|].
  intros o. rewrite not_elem_of_cons. split; [|done]. rewrite He. intros [= _ ?]. lia.
Qed.

(** After the watermark [w], an item allocates no window that starts at [s]. *)
Lemma item_other ws x :
  Forall other_slot ws → ts_fits size slide x.2 → (w ≤ x.2)%Z →
  ∃ ws', EventTimeWindow_process (mkEventTime init size slide (Some w) ws) (stamped x) =
      Done ([], mkEventTime init size slide (Some w) ws') ∧ Forall other_slot ws'.
Proof.
  intros Hws [Hf1 Hf2] Hx. cbn. unfold alloc_windows. cbn. destruct (Z.leb_spec w x.2); [|lia].
  destruct (alloc_loop_spec init (Forall other_slot) (Some w) size slide x.2 ws)
    as (ws' & b & Ha & Hws' & _); [done| |].
  - intros ws1 Hws1 Hlast.
    assert (∀ start, (0 ≤ start)%Z → (start < x.2 + slide)%Z →
      ∃ s', skip_empty w start slide = Done s' ∧ (start ≤ s')%Z ∧ in_i64 (s' + size) ∧
        other_slot (mkRSlot init s' (s' + size)%Z false)) as Hskip.
    { intros start H0 H1.
      destruct (skip_empty_spec w start slide) as (s' & E & Hs1 & Hs2 & Hs3);
        [done|unfold in_i64, i64_min, i64_max in *; lia..|].
      exists s'. split_and!; [done|lia|unfold in_i64, i64_min in *; lia|].
      split; cbn; [done|lia|lia|by exists []]. }
    unfold next_window. cbn [et_ws et_slide last_watermark].
    destruct (last ws1) as [b|] eqn:El.
    + assert (other_slot b) as [_ _ Hb _].
      { apply last_Some in El as [l ->]. apply Forall_app in Hws1 as [_ Hb]. by rewrite Forall_singleton in Hb. }
      rewrite i64_arith_in by (unfold in_i64, i64_min in *; lia). cbn [mbind outcome_bind].
      destruct (Hskip (rs_start b + slide)%Z) as (s' & -> & ? & ? & ?); [lia..|].
      exists s'. split_and!; [done|lia|done|]. apply Forall_app. by split; [|constructor].
    + cbn [mbind outcome_bind]. destruct (Hskip x.2) as (s' & -> & ? & ? & ?); [lia..|].
      exists s'. split_and!; [done|lia|done|]. apply Forall_app. by split; [|constructor].
  - cbn in *. rewrite Ha. cbn. eexists. split; [done|]. by apply feed_range_other.
Qed.

Lemma items_other ys : ∀ ws,
  Forall other_slot ws → Forall (λ y, ts_fits size slide y.2 ∧ (w ≤ y.2)%Z) ys →
  ∃ rs m, run_manager (mkEventTime init size slide (Some w) ws)
      ((stamped <$> ys) ++ [FlushAndRestart]) = Done (rs, m) ∧
    ∀ o, WTimestamped o (s + size)%Z ∉ rs.
Proof.
  induction ys as [|y ys IH]; intros ws Hws Hys.
  - destruct (close_other ws Hws) as (rs & E & Hrs). cbn. rewrite E. cbn. eexists _, _.
    split; [done|]. by rewrite app_nil_r.
  - apply Forall_cons in Hys as [[Hf Hy] Hys]. destruct (item_other ws y Hws Hf Hy) as (ws' & E & Hws').
    destruct (IH ws' Hws' Hys) as (rs & m & Hr & Hrs). exists rs, m. split; [|done].
    rewrite fmap_cons. cbn [app run_manager wm_process EventTimeWindow_manager]. rewrite E.
    cbn [mbind outcome_bind]. by rewrite Hr.
Qed.
End skipped.

(** C39. Event-time windows and watermarks: a window that the items contain is lost when a
    watermark jumps over its start.  Let the items before the watermark [w] be at least a
    slide earlier than the start of window [j], and [w] at least a slide later than that
    start.  Then the round never emits window [j], whatever items not late with respect
    to [w] follow; without the watermark the same items give a result for window [j] as
    soon as one of them is in it.  Timestamps are not negative and fit with their windows
    in [i64]. *)
Theorem EventTimeWindow_skips_window {A In Out} `{!WindowAccumulator A In Out} (init : A)
    (fin : list In → Out) `{!AccumulatorSpec init fin} (size slide w : Z)
    (x0 : In * Timestamp) (xs ys : list (In * Timestamp)) (j : nat) (y : In * Timestamp) :
  let stamped := fmap (M := list) (λ x, Timestamped x.1 x.2) in
  let start := (x0.2 + Z.of_nat j * slide)%Z in
  (0 < slide)%Z → (0 < size)%Z → (0 ≤ x0.2)%Z →
  Forall (λ x, ts_fits size slide x.2) (x0 :: xs ++ ys) →
  Forall (λ x, x.2 + slide ≤ start)%Z (x0 :: xs) →
  (start + slide ≤ w)%Z → Forall (λ x, w ≤ x.2)%Z ys →
  y ∈ ys → in_window size slide x0.2 j y →
  (∃ rs m, run_manager (EventTimeWindow_build size slide init)
      (stamped (x0 :: xs) ++ Watermark w :: stamped ys ++ [FlushAndRestart]) = Done (rs, m) ∧
    ∀ o, WTimestamped o (start + size)%Z ∉ rs) ∧
  (∃ rs m, run_manager (EventTimeWindow_build size slide init)
      (stamped (x0 :: xs ++ ys) ++ [FlushAndRestart]) = Done (rs, m) ∧
    WTimestamped (fin (window_items size slide x0.2 j (x0 :: xs ++ ys))) (start + size)%Z ∈ rs).
Proof.
  intros stamped start Hs Hsz H0 Hfit Hbefore Hw Hafter Hy Hin. split.
  - pose proof Hfit as Hfit'. rewrite app_comm_cons, Forall_app in Hfit'.
    destruct Hfit' as [Hf1 Hf2].
    destruct (event_run init size slide x0.2 x0 xs Hs Hsz eq_refl Hf1) as (n & Hr & _ & z & Hz & Hn).
    rewrite Forall_forall in Hbefore. specialize (Hbefore z Hz). cbn in Hbefore.
    assert (Forall (other_slot init size start) (event_slot init size slide x0.2 (x0 :: xs) <$> seq 0 n))
      as Hws.
    { apply Forall_fmap, Forall_forall. intros i Hi%elem_of_seq. split; cbn; [done|nia|nia|].
      eexists. split; [done|]. by intros ?%bool_decide_eq_true. }
    unfold stamped. rewrite run_manager_app.
    erewrite (Hr : run_manager _ _ = Done _). cbn [mbind outcome_bind run_manager wm_process EventTimeWindow_manager].
    cbn [EventTimeWindow_process event_at et_ws et_init et_size et_slide].
    set (ws := event_slot init size slide x0.2 (x0 :: xs) <$> seq 0 n) in *.
    set (k := partition_point w ws).
    destruct (close_other init fin size start (take k ws)) as (r1 & -> & Hr1); [by apply Forall_take|].
    cbn [mbind outcome_bind].
    destruct (items_other init fin size slide start w Hs Hsz ltac:(nia) Hw ys (drop k ws))
      as (r2 & m & E & Hr2); [by apply Forall_drop|by apply Forall_and|].
    unfold set_et. cbn [et_init et_size et_slide last_watermark]. rewrite E.
    cbn. eexists _, _. split; [done|]. intros o. rewrite elem_of_app. naive_solver.
  - destruct (event_run init size slide x0.2 x0 (xs ++ ys) Hs Hsz eq_refl Hfit) as (n & Hr & Hb & _).
    unfold stamped. rewrite run_manager_app.
    erewrite (Hr : run_manager _ _ = Done _). cbn -[window_items]. unfold event_at. cbn [et_ws].
    rewrite (close_event_slots init fin). cbn -[window_items]. eexists _, _. split; [done|]. rewrite app_nil_r.
    unfold event_results. apply list_elem_of_omap. exists j.
    assert (y ∈ x0 :: xs ++ ys) as Hy' by set_solver. split.
    + apply elem_of_seq. rewrite Forall_forall in Hb. specialize (Hb _ Hy'). cbn in Hb.
      unfold in_window in Hin. nia.
    + assert (y.1 ∈ window_items size slide x0.2 j (x0 :: xs ++ ys)) as Hyj.
      { unfold window_items. apply list_elem_of_fmap. exists y. split; [done|].
        by apply list_elem_of_filter. }
      destruct (window_items _ _ _ _ _); [by apply elem_of_nil in Hyj|done].
Qed.

(** Windows of 10 that slide by 2 and start at 0: the item of timestamp 6 after the
    watermark 5 belongs to the window [[2, 12)], which is never opened. *)
Lemma EventTimeWindow_skips_window_witness :
  (∃ rs m, run_manager (EventTimeWindow_build 10 2 (mkFoldAcc [] (λ l (x : Z), l ++ [x])))
      [Timestamped 1%Z 0%Z; Watermark 5%Z; Timestamped 2%Z 6%Z; FlushAndRestart] = Done (rs, m) ∧
    ∀ o, WTimestamped o 12%Z ∉ rs) ∧
  (∃ rs m, run_manager (EventTimeWindow_build 10 2 (mkFoldAcc [] (λ l (x : Z), l ++ [x])))
      [Timestamped 1%Z 0%Z; Timestamped 2%Z 6%Z; FlushAndRestart] = Done (rs, m) ∧
    WTimestamped [2%Z] 12%Z ∈ rs).
Proof.
  refine (EventTimeWindow_skips_window (mkFoldAcc [] (λ l (x : Z), l ++ [x]))
    (foldl (λ l (x : Z), l ++ [x]) []) 10 2 5 (1%Z, 0%Z) [] [(2%Z, 6%Z)] 1 (2%Z, 6%Z)
    _ _ _ _ _ _ _ _ _); [lia|lia|done|by repeat constructor|by repeat constructor|cbn; lia|
    by repeat constructor|by left|unfold in_window; cbn; lia].
Defined.

(** The sums of [alloc_windows] are on [i64]: the first window of a round that would end
    past the greatest timestamp brings the worker down. *)
Lemma EventTimeWindow_overflow {A In Out} `{!WindowAccumulator A In Out} (init : A) size slide lw
    (x : In) ts :
  (∀ w, lw = Some w → w = ts) → in_i64 ts → (0 < slide)%Z → (i64_max < ts + size)%Z →
  EventTimeWindow_process (Out := Out) (mkEventTime init size slide lw []) (Timestamped x ts) = Panicked.
Proof.
  intros Hlw Hts Hs Hov. cbn [EventTimeWindow_process]. unfold alloc_windows, alloc_fuel.
  cbn [et_ws last alloc_loop].
  assert (next_window (mkEventTime init size slide lw []) ts = Done ts) as ->.
  { unfold next_window. cbn. destruct lw as [w|]; [|done]. rewrite (Hlw w eq_refl).
    unfold skip_empty. rewrite Z.sub_diag, i64_arith_in by done. cbn.
    destruct (Z.eqb_spec slide 0); [lia|]. cbn. rewrite Z.quot_0_l by done.
    rewrite i64_arith_in by done. cbn. rewrite i64_arith_in by done. cbn.
    by rewrite Z.add_0_r, i64_arith_in. }
  cbn [last_watermark mbind outcome_bind].
  destruct lw as [w|]; [rewrite (Hlw w eq_refl), Z.leb_refl|]; cbn -[i64_arith];
    by rewrite (i64_arith_out (ts + size)) by (unfold in_i64; lia).
Qed.

(** ** The windows of the operator, evaluated *)
Lemma WindowOperator_isolates_keys_witness :
  let init := CountWindow_build 2 2 false (mkFoldAcc 0 Nat.add) in
  let l := [Item (true, 1); Item (false, 5); Item (true, 2); Item (true, 3)] in
  ∃ outs ws, emits (@WindowOperator bool _ nat nat _ _ key_order _ (λ _ _, 0%Z) init
        (FakeOperator (bool * nat))) (WindowOperator_new, l ++ [FlushAndRestart])
      outs (mkWindowOperator ws [] 5, []) ∧
    omap forwarded outs = [FlushAndRestart] ∧
    ∀ k : bool, omap (result_of k) outs = (if k then [WItem 3; WItem 3] else [WItem 5]) ∧
      ws !! k = Some init.
Proof.
  intros init l.
  refine (@WindowOperator_isolates_keys bool (CountWindowManager (FoldAcc nat nat)) nat nat _ _
    key_order _ (λ _ _, 0%Z) init (FakeOperator (bool * nat)) _ _ l FlushAndRestart []
    (λ k, if k then [WItem 3; WItem 3] else [WItem 5]) (λ _, Some init) _ _ _).
  - intros []; reflexivity.
  - done.
  - apply FakeOperator_emits_all.
Defined.
