(* ===== verification/Reorder.v ===== *)
(** * Reordering and sorting

    [Reorder] ([src/src/operator/reorder.rs]) gives the timestamped items of a stream in the order of
    their timestamps, as far as the watermarks allow, and [LimitSorted]
    ([src/src/operator/limit_sorted.rs]) gives a part of the sorted items of a round. *)
From stdpp Require Import sorting.
From S2P Require Import Prelude StreamElement Operator BasicOps Folds Frontier Batcher Start.

(** ** [Reorder] *)
(** [struct Reorder]; the scratch memory of the sort holds nothing between calls. *)
Record Reorder_state (A : Type) := mkReorder {
  ro_buffer : list (A * Timestamp);
  ro_last_watermark : option Timestamp;
  ro_received_end : bool
}.
Global Arguments mkReorder {_} _ _ _.
Global Arguments ro_buffer {_} _.
Global Arguments ro_last_watermark {_} _.
Global Arguments ro_received_end {_} _.

(** [Reorder::new]. *)
Definition Reorder_new {A} : Reorder_state A := mkReorder [] None false.

(** [TimestampedItem::cmp]. *)
Definition ts_leb {A} (x y : A * Timestamp) : bool := (x.2 <=? y.2)%Z.

Section reorder.
Context {A : Type} `{!Glidesort} (prev : Operator A).

(** [Reorder::next]. *)
Fixpoint Reorder_next (fuel : nat) (q : Reorder_state A * op_state prev)
    : outcome (StreamElement A * (Reorder_state A * op_state prev)) :=
  match fuel with
  | O => OutOfFuel
  | S fuel =>
      let '(self, p) := q in
      if negb (ro_received_end self) && bool_decide (ro_last_watermark self = None) then
        '(e, p) ← op_next prev fuel p;
        match e with
        | Item x => Done (Item x, (self, p))
        | Timestamped item timestamp =>
            Reorder_next fuel
              (mkReorder (ro_buffer self ++ [(item, timestamp)]) (ro_last_watermark self) (ro_received_end self), p)
        | Watermark ts =>
            Reorder_next fuel (mkReorder (glidesort ts_leb (ro_buffer self)) (Some ts) (ro_received_end self), p)
        | FlushBatch => Done (FlushBatch, (self, p))
        | FlushAndRestart =>
            Reorder_next fuel (mkReorder (glidesort ts_leb (ro_buffer self)) (ro_last_watermark self) true, p)
        | Terminate => Done (Terminate, (self, p))
        end
      else
        match ro_last_watermark self with
        | Some w =>
            match ro_buffer self with
            | (item, ts) :: buffer =>
                if (ts <=? w)%Z then
                  Done (Timestamped item ts, (mkReorder buffer (Some w) (ro_received_end self), p))
                else Done (Watermark w, (mkReorder (ro_buffer self) None (ro_received_end self), p))
            | [] => Done (Watermark w, (mkReorder (ro_buffer self) None (ro_received_end self), p))
            end
        | None =>
            match ro_buffer self with
            | (item, ts) :: buffer =>
                Done (Timestamped item ts, (mkReorder buffer None (ro_received_end self), p))
            | [] => Done (FlushAndRestart, (mkReorder [] None false, p))
            end
        end
  end.
Definition Reorder : Operator A := mkOperator _ Reorder_next.
End reorder.

(** ** The abstract behaviour of [Reorder] *)
Definition ro_drain {A} (self : Reorder_state A) : StreamElement A * Reorder_state A :=
  match ro_last_watermark self with
  | Some w =>
      match ro_buffer self with
      | (item, ts) :: buffer =>
          if (ts <=? w)%Z then (Timestamped item ts, mkReorder buffer (Some w) (ro_received_end self))
          else (Watermark w, mkReorder (ro_buffer self) None (ro_received_end self))
      | [] => (Watermark w, mkReorder (ro_buffer self) None (ro_received_end self))
      end
  | None =>
      match ro_buffer self with
      | (item, ts) :: buffer => (Timestamped item ts, mkReorder buffer None (ro_received_end self))
      | [] => (FlushAndRestart, mkReorder [] None false)
      end
  end.
Definition reordering {A} `{!Glidesort} : transducer A A :=
  mkTransducer (Reorder_state A)
    (λ s, if negb (ro_received_end s) && bool_decide (ro_last_watermark s = None) then None else Some (ro_drain s))
    (λ s e, match e with
            | Item x => Done (s, Some (Item x))
            | Timestamped item ts =>
                Done (mkReorder (ro_buffer s ++ [(item, ts)]) (ro_last_watermark s) (ro_received_end s), None)
            | Watermark ts => Done (mkReorder (glidesort ts_leb (ro_buffer s)) (Some ts) (ro_received_end s), None)
            | FlushBatch => Done (s, Some FlushBatch)
            | FlushAndRestart => Done (mkReorder (glidesort ts_leb (ro_buffer s)) (ro_last_watermark s) true, None)
            | Terminate => Done (s, Some Terminate)
            end).
Global Instance Reorder_follows {A} `{!Glidesort} (prev : Operator A) : Follows prev reordering (Reorder_next prev).
Proof.
  constructor; [by intros []|]. intros f s p. unfold drive. cbn.
  destruct (negb _ && _) eqn:E; cbn.
  - by destruct (op_next prev f p) as [[[] p1]| | |].
  - unfold ro_drain. destruct (ro_last_watermark s), (ro_buffer s) as [|[]]; cbn; try done. by case_match.
Qed.
Global Instance Reorder_laws {A} `{!Glidesort} (prev : Operator A) `{!OperatorLaws prev} :
  OperatorLaws (Reorder prev).
Proof. apply (follows_laws prev reordering _). Qed.

(** What a round becomes, from a buffer of items not yet given out. *)
Definition timed {A} (x : A * Timestamp) : StreamElement A := Timestamped x.1 x.2.
Fixpoint reordered {A} `{!Glidesort} (buffer : list (A * Timestamp)) (l : list (StreamElement A))
    : list (StreamElement A) :=
  match l with
  | [] => timed <$> glidesort ts_leb buffer
  | Timestamped x ts :: l => reordered (buffer ++ [(x, ts)]) l
  | Watermark w :: l =>
      let sorted := glidesort ts_leb buffer in
      (timed <$> take_while (λ x, x.2 <=? w)%Z sorted) ++
      Watermark w :: reordered (drop_while (λ x, x.2 <=? w)%Z sorted) l
  | e :: l => e :: reordered buffer l
  end.

Section reorder_spec.
Context {A : Type} `{!Glidesort}.
Implicit Types (buffer : list (A * Timestamp)) (l : list (StreamElement A)).

Lemma reorder_drain_end buffer :
  runs reordering (mkReorder buffer None true) [] ((timed <$> buffer) ++ [FlushAndRestart]) Reorder_new.
Proof.
  induction buffer as [|[x ts] buffer IH]; csimpl.
  - eapply runs_ready; [done|constructor].
  - by eapply runs_ready.
Qed.
Lemma reorder_drain_watermark buffer w :
  runs reordering (mkReorder buffer (Some w) false) []
    ((timed <$> take_while (λ x, x.2 <=? w)%Z buffer) ++ [Watermark w])
    (mkReorder (drop_while (λ x, x.2 <=? w)%Z buffer) None false).
Proof.
  induction buffer as [|[x ts] buffer IH]; csimpl.
  - eapply runs_ready; [done|constructor].
  - destruct (ts <=? w)%Z eqn:E; csimpl.
    + eapply runs_ready; [|exact IH]. cbn. unfold ro_drain. cbn. by rewrite E.
    + eapply runs_ready; [|constructor]. cbn. unfold ro_drain. cbn. by rewrite E.
Qed.

Lemma reorder_runs buffer l :
  Forall (λ e, is_data e = true) l →
  runs reordering (mkReorder buffer None false) (l ++ [FlushAndRestart])
    (reordered buffer l ++ [FlushAndRestart]) Reorder_new.
Proof.
  intros Hl. revert buffer. induction Hl as [|e l He _ IH]; intros buffer.
  - simpl. eapply runs_skip_ne; [done|done|by destruct (timed <$> _)|]. apply reorder_drain_end.
  - destruct e as [x|x ts|w| | |]; try done; csimpl.
    + by eapply runs_return.
    + eapply runs_skip_ne; [done|done|by destruct (reordered _ _)|]. apply IH.
    + rewrite <-(assoc_L (++)), <-app_comm_cons. eapply runs_skip_ne; [done|done|by destruct (timed <$> _)|].
      rewrite (cons_middle (Watermark w)), (assoc_L (++)). cbn [ro_buffer ro_received_end].
      by eapply (runs_app _ _ []); [apply reorder_drain_watermark|].
    + by eapply runs_return.
Qed.

(** The items with their timestamps, and everything else. *)
Definition timed_of (e : StreamElement A) : option (A * Timestamp) :=
  match e with Timestamped x ts => Some (x, ts) | _ => None end.
Definition is_timed (e : StreamElement A) : bool := if timed_of e then true else false.

Lemma ts_leb_total : total_preorder (@ts_leb A).
Proof. split; unfold ts_leb; intros; lia. Qed.
Lemma timed_of_timed buffer : omap timed_of (timed <$> buffer) = buffer.
Proof. induction buffer as [|[x ts] buffer IH]; csimpl; [done|]. by rewrite IH. Qed.
Lemma item_ts_timed l : omap item_ts l = (omap timed_of l).*2.
Proof. induction l as [|[] l IH]; csimpl; by rewrite ?IH. Qed.
Lemma sort_same_ts buffer t :
  List.filter (λ x, x.2 =? t)%Z (glidesort ts_leb buffer) = List.filter (λ x, x.2 =? t)%Z buffer.
Proof.
  destruct (decide (buffer = [])) as [->|Hne].
  { by rewrite (Permutation_nil (symmetry (glidesort_perm ts_leb (@nil (A * Timestamp))))). }
  assert (∃ a : A, True) as [a _] by (destruct buffer as [|[a ts]]; [done|by exists a]).
  assert (∀ l : list (A * Timestamp), List.filter (λ y, ts_leb (a, t) y && ts_leb y (a, t)) l =
    List.filter (λ x, x.2 =? t)%Z l) as Hf.
  { intros l. apply filter_ext. intros [y ty]. unfold ts_leb. simpl. lia. }
  rewrite <-!Hf. apply glidesort_stable, ts_leb_total.
Qed.

Lemma reordered_items buffer l :
  Forall (λ e, is_data e = true) l → omap timed_of (reordered buffer l) ≡ₚ buffer ++ omap timed_of l.
Proof.
  intros Hl. revert buffer. induction Hl as [|e l He _ IH]; intros buffer; csimpl.
  - by rewrite timed_of_timed, app_nil_r, glidesort_perm.
  - destruct e as [x|x ts|w| | |]; try done; csimpl; try apply IH.
    + by rewrite IH, <-(assoc_L (++)).
    + rewrite omap_app, timed_of_timed. csimpl. by rewrite IH, (assoc_L (++)), take_drop_while, glidesort_perm.
Qed.
Lemma reordered_stable buffer l t :
  Forall (λ e, is_data e = true) l →
  List.filter (λ x, x.2 =? t)%Z (omap timed_of (reordered buffer l)) =
  List.filter (λ x, x.2 =? t)%Z (buffer ++ omap timed_of l).
Proof.
  intros Hl. revert buffer. induction Hl as [|e l He _ IH]; intros buffer; csimpl.
  - by rewrite timed_of_timed, app_nil_r, sort_same_ts.
  - destruct e as [x|x ts|w| | |]; try done; csimpl; try apply IH.
    + by rewrite IH, <-(assoc_L (++)).
    + rewrite omap_app, timed_of_timed. csimpl. rewrite List.filter_app, IH, !List.filter_app, (assoc_L (++)).
      by rewrite <-List.filter_app, take_drop_while, sort_same_ts.
Qed.
Lemma reordered_others buffer l :
  List.filter (λ e, negb (is_timed e)) (reordered buffer l) = List.filter (λ e, negb (is_timed e)) l.
Proof.
  assert (∀ b : list (A * Timestamp), List.filter (λ e, negb (is_timed e)) (timed <$> b) = []) as Hb.
  { by induction b. }
  revert buffer. induction l as [|e l IH]; intros buffer; csimpl; [apply Hb|].
  destruct e as [x|x ts|w| | |]; csimpl; rewrite ?IH; try done.
  by rewrite List.filter_app, Hb; csimpl; rewrite IH.
Qed.

Lemma buffer_drop_sorted buffer w :
  StronglySorted (λ x y, ts_leb x y = true) buffer →
  Forall (λ x : A * Timestamp, (w < x.2)%Z) (drop_while (λ x, x.2 <=? w)%Z buffer).
Proof.
  induction 1 as [|x buffer Hs IH Hx]; csimpl; [constructor|]. destruct (x.2 <=? w)%Z eqn:E; [done|].
  constructor; [lia|]. eapply Forall_impl; [exact Hx|]. unfold ts_leb. intros y Hy. lia.
Qed.
(** What comes after a watermark is later than it. *)
Lemma reordered_later buffer l w :
  Forall (λ e, is_data e = true) l → Forall (λ ts, (w < ts)%Z) (omap item_ts l) →
  Forall (λ ts, (w < ts)%Z)
    (omap item_ts (reordered (drop_while (λ x, x.2 <=? w)%Z (glidesort ts_leb buffer)) l)).
Proof.
  intros Hl Hts. rewrite item_ts_timed in Hts |- *. rewrite reordered_items by done.
  rewrite fmap_app. apply Forall_app. split; [|done]. apply Forall_fmap, buffer_drop_sorted.
  apply glidesort_sorted, ts_leb_total.
Qed.
Lemma StronglySorted_app_split {X} (R : relation X) (l1 l2 : list X) (P : X → Prop) :
  StronglySorted R l1 → StronglySorted R l2 → Forall P l1 → Forall (λ y, ∀ x, P x → R x y) l2 →
  StronglySorted R (l1 ++ l2).
Proof.
  intros Hs1 Hs2 H1 H2. induction Hs1 as [|x l1 Hs IH Hx]; [done|]. simpl.
  apply Forall_cons in H1 as [Hp H1]. constructor; [by apply IH|]. apply Forall_app. split; [done|].
  eapply Forall_impl; [exact H2|]. auto.
Qed.
Lemma reordered_sorted buffer l :
  Forall (λ e, is_data e = true) l → watermark_ok l →
  StronglySorted Z.le (omap item_ts (reordered buffer l)) ∧ watermark_ok (reordered buffer l).
Proof.
  assert (∀ b : list (A * Timestamp), StronglySorted (λ x y, ts_leb x y = true) b → StronglySorted Z.le (omap item_ts (timed <$> b)))
    as Hsort.
  { intros b Hb. rewrite item_ts_timed, timed_of_timed. induction Hb as [|x b Hb IH Hx]; csimpl; constructor; [done|].
    apply Forall_fmap. eapply Forall_impl; [exact Hx|]. unfold ts_leb. simpl. intros; lia. }
  assert (∀ b (r : list (StreamElement A)), watermark_ok r → watermark_ok ((timed <$> b) ++ r)) as Hwm.
  { induction b; csimpl; [done|]. intros. by apply watermark_ok_cons, IHb. }
  intros Hl. revert buffer. induction Hl as [|e l He Hl IH]; intros buffer Hok; csimpl.
  - split; [apply Hsort, glidesort_sorted, ts_leb_total|]. rewrite <-(app_nil_r (timed <$> _)).
    apply Hwm, watermark_ok_nil.
  - assert (watermark_ok l) as Hok' by (intros l1 w l2 ->; by apply (Hok (e :: l1) w l2)).
    destruct e as [x|x ts|w| | |]; try done; csimpl; [by destruct (IH buffer Hok'); split; [|apply watermark_ok_cons]| |
      |by destruct (IH buffer Hok'); split; [|apply watermark_ok_cons]].
    + by apply IH.
    + destruct (IH (drop_while (λ x, x.2 <=? w)%Z (glidesort ts_leb buffer)) Hok') as [IH1 IH2].
      pose proof (reordered_later buffer l w Hl (Hok [] w l eq_refl)) as Hlater. split.
      * rewrite omap_app. csimpl. apply (StronglySorted_app_split _ _ _ (λ ts, ts ≤ w)%Z).
        -- apply Hsort. pose proof (glidesort_sorted ts_leb buffer ts_leb_total) as Hs.
           rewrite <-(take_drop_while (λ x, x.2 <=? w)%Z (glidesort ts_leb buffer)) in Hs.
           by apply StronglySorted_app_1_l in Hs.
        -- done.
        -- rewrite item_ts_timed, timed_of_timed. apply Forall_fmap.
           eapply Forall_impl; [apply take_while_all|]. simpl. lia.
        -- eapply Forall_impl; [exact Hlater|]. simpl. lia.
      * by apply Hwm, watermark_ok_cons.
Qed.

Context (prev : Operator A) `{!OperatorLaws prev}.
(** C30. [Reorder] on a round: the timestamped items come out as a permutation of those that
    came in, those with the same timestamp in the order in which they arrived, and
    everything else stays in its order.  If the watermarks that come in are sound, the
    items come out sorted by timestamp and the watermarks are sound for the output; the
    operator is ready for the next round. *)
Theorem Reorder_round p round p' :
  Forall (λ e, is_data e = true) round → emits prev p (round ++ [FlushAndRestart]) p' →
  ∃ out, emits (Reorder prev) (Reorder_new, p) (out ++ [FlushAndRestart]) (Reorder_new, p') ∧
    omap timed_of out ≡ₚ omap timed_of round ∧
    (∀ t, List.filter (λ x, x.2 =? t)%Z (omap timed_of out) =
          List.filter (λ x, x.2 =? t)%Z (omap timed_of round)) ∧
    List.filter (λ e, negb (is_timed e)) out = List.filter (λ e, negb (is_timed e)) round ∧
    (watermark_ok round → StronglySorted Z.le (omap item_ts out) ∧ watermark_ok out).
Proof.
  intros Hd He. exists (reordered [] round). split_and!.
  - eapply (refines_emits prev reordering); [apply follows_refines; apply _|by apply reorder_runs|done].
  - by apply (reordered_items []).
  - intros t. by apply (reordered_stable []).
  - apply reordered_others.
  - by apply reordered_sorted.
Qed.
End reorder_spec.

Module ReorderExample.
Definition round : list (StreamElement N) :=
  [Timestamped 1%N 1; Timestamped 3%N 3; Timestamped 2%N 2; Watermark 3; Timestamped 6%N 6; FlushBatch;
   Timestamped 4%N 4; Timestamped 5%N 5].
Lemma Reorder_round_witness :
  ∃ out, @emits _ (@Reorder N insertion_glidesort (FakeOperator N)) (Reorder_new, round ++ [FlushAndRestart])
      (out ++ [FlushAndRestart]) (Reorder_new, []) ∧
    omap timed_of out ≡ₚ omap timed_of round ∧
    (∀ t, List.filter (λ x, x.2 =? t)%Z (omap timed_of out) =
          List.filter (λ x, x.2 =? t)%Z (omap timed_of round)) ∧
    List.filter (λ e, negb (is_timed e)) out = List.filter (λ e, negb (is_timed e)) round ∧
    (watermark_ok round → StronglySorted Z.le (omap item_ts out) ∧ watermark_ok out).
Proof.
  apply (@Reorder_round N insertion_glidesort (FakeOperator N) _).
  - repeat constructor.
  - apply FakeOperator_emits_all.
Defined.
End ReorderExample.

(** ** [LimitSorted] *)
(** [enum State]; an iterator over a vector is the list of what it still has to give. *)
Inductive LS_phase (A : Type) :=
| Accumulating (buf : list A)
| Sorting (items : list A)
| Flushing (iter : list A) (count : nat)
| Restarting
| Terminating.
Global Arguments Accumulating {_} _.
Global Arguments Sorting {_} _.
Global Arguments Flushing {_} _ _.
Global Arguments Restarting {_}.
Global Arguments Terminating {_}.

(** [struct LimitSorted]: what changes of it. *)
Record LimitSorted_state (A : Type) := mkLimitSorted {
  ls_state : LS_phase A;
  ls_timestamp : option Timestamp;
  ls_max_watermark : option Timestamp;
  ls_received_end : bool
}.
Global Arguments mkLimitSorted {_} _ _ _ _.
Global Arguments ls_state {_} _.
Global Arguments ls_timestamp {_} _.
Global Arguments ls_max_watermark {_} _.
Global Arguments ls_received_end {_} _.

(** [LimitSorted::new]. *)
Definition LimitSorted_new {A} : LimitSorted_state A := mkLimitSorted (Accumulating []) None None false.
Definition ls_goto {A} (self : LimitSorted_state A) (st : LS_phase A) : LimitSorted_state A :=
  mkLimitSorted st (ls_timestamp self) (ls_max_watermark self) (ls_received_end self).

Section limit_sorted.
Context {A : Type} (sort_by : A → A → comparison) (limit offset : option nat) (sorted : bool).

(** [slice::sort_by], a stable sort. *)
Definition cmp_leb (x y : A) : bool := match sort_by x y with Gt => false | _ => true end.
Definition sort_slice (items : list A) : list A := insertion_sort cmp_leb items.

(** The branch of [State::Sorting]. *)
Definition ls_prepare (items : list A) : LS_phase A :=
  let items := if sorted then sort_slice items else items in
  let iter := match offset with Some offset => drop offset items | None => items end in
  Flushing iter (default (length iter) limit `min` length iter).

Context (prev : Operator A).

(** [LimitSorted::next]. *)
Fixpoint LimitSorted_next (fuel : nat) (q : LimitSorted_state A * op_state prev)
    : outcome (StreamElement A * (LimitSorted_state A * op_state prev)) :=
  match fuel with
  | O => OutOfFuel
  | S fuel =>
      let '(self, p) := q in
      match ls_state self with
      | Accumulating buf =>
          '(e, p) ← op_next prev fuel p;
          match e with
          | Terminate =>
              LimitSorted_next fuel
                (mkLimitSorted (Sorting buf) (ls_timestamp self) (ls_max_watermark self) true, p)
          | FlushAndRestart => LimitSorted_next fuel (ls_goto self (Sorting buf), p)
          | Watermark ts =>
              LimitSorted_next fuel
                (mkLimitSorted (ls_state self) (ls_timestamp self) (max_ts (ls_max_watermark self) ts)
                   (ls_received_end self), p)
          | Item item => LimitSorted_next fuel (ls_goto self (Accumulating (buf ++ [item])), p)
          | Timestamped item ts =>
              LimitSorted_next fuel
                (mkLimitSorted (Accumulating (buf ++ [item])) (max_ts (ls_timestamp self) ts)
                   (ls_max_watermark self) (ls_received_end self), p)
          | FlushBatch => LimitSorted_next fuel (self, p)
          end
      | Sorting items => LimitSorted_next fuel (ls_goto self (ls_prepare items), p)
      | Flushing iter count =>
          if decide (0 < count) then
            match iter with
            | [] => Panicked
            | item :: iter =>
                let self := ls_goto self (Flushing iter (count - 1)) in
                match ls_timestamp self with
                | Some ts => Done (Timestamped item ts, (self, p))
                | None => Done (Item item, (self, p))
                end
            end
          else if ls_received_end self then Done (FlushAndRestart, (ls_goto self Terminating, p))
          else
            let self := ls_goto self Restarting in
            match ls_max_watermark self with
            | Some w => Done (Watermark w, (self, p))
            | None => LimitSorted_next fuel (self, p)
            end
      | Restarting => Done (FlushAndRestart, (ls_goto self (Accumulating []), p))
      | Terminating => Done (Terminate, (self, p))
      end
  end.
Definition LimitSorted : Operator A := mkOperator _ LimitSorted_next.

Lemma LimitSorted_mono `{!OperatorLaws prev} f f' q :
  f ≤ f' → fuel_le (LimitSorted_next f q) (LimitSorted_next f' q).
Proof.
  revert f' q; induction f as [|f IH]; intros f' [s p] Hle; [eauto with renoir|].
  destruct f' as [|f']; [lia|]. cbn.
  destruct (ls_state s) as [buf|items|iter count| |]; try eauto with renoir.
  - apply fuel_le_bind; [apply op_next_mono; lia|]. intros [[] p1]; apply IH; lia.
  - apply IH; lia.
  - destruct (decide (0 < count)); [eauto with renoir|].
    destruct (ls_received_end s); [eauto with renoir|].
    destruct (ls_max_watermark s); [eauto with renoir|]. apply IH; lia.
Qed.
Global Instance LimitSorted_laws `{!OperatorLaws prev} : OperatorLaws LimitSorted.
Proof. constructor. intros. by apply LimitSorted_mono. Qed.

(** The abstract behaviour. *)
Definition ls_flush (s : LimitSorted_state A) (iter : list A) (count : nat)
    : option (StreamElement A * LimitSorted_state A) :=
  if decide (0 < count) then
    match iter with
    | [] => None
    | item :: iter =>
        Some (match ls_timestamp s with Some ts => Timestamped item ts | None => Item item end,
              ls_goto s (Flushing iter (count - 1)))
    end
  else if ls_received_end s then Some (FlushAndRestart, ls_goto s Terminating)
  else match ls_max_watermark s with
       | Some w => Some (Watermark w, ls_goto s Restarting)
       | None => Some (FlushAndRestart, ls_goto s (Accumulating []))
       end.
Definition limit_sorting : transducer A A :=
  mkTransducer (LimitSorted_state A)
    (λ s, match ls_state s with
          | Accumulating _ => None
          | Sorting items =>
              match ls_prepare items with Flushing iter count => ls_flush s iter count | _ => None end
          | Flushing iter count => ls_flush s iter count
          | Restarting => Some (FlushAndRestart, ls_goto s (Accumulating []))
          | Terminating => Some (Terminate, s)
          end)
    (λ s e, match ls_state s with
            | Accumulating buf =>
                match e with
                | Terminate => Done (mkLimitSorted (Sorting buf) (ls_timestamp s) (ls_max_watermark s) true, None)
                | FlushAndRestart => Done (ls_goto s (Sorting buf), None)
                | Watermark ts =>
                    Done (mkLimitSorted (ls_state s) (ls_timestamp s) (max_ts (ls_max_watermark s) ts)
                            (ls_received_end s), None)
                | Item item => Done (ls_goto s (Accumulating (buf ++ [item])), None)
                | Timestamped item ts =>
                    Done (mkLimitSorted (Accumulating (buf ++ [item])) (max_ts (ls_timestamp s) ts)
                            (ls_max_watermark s) (ls_received_end s), None)
                | FlushBatch => Done (s, None)
                end
            | _ => Panicked
            end).

Lemma ls_flush_next s iter count e s' p :
  ls_flush s iter count = Some (e, s') →
  ∃ f, LimitSorted_next f (ls_goto s (Flushing iter count), p) = Done (e, (s', p)).
Proof.
  intros E. exists 2. unfold ls_flush in E. cbn. destruct (decide (0 < count)).
  - destruct iter as [|item iter]; [done|]. injection E as <- <-. by destruct (ls_timestamp s).
  - destruct (ls_received_end s) eqn:Er; cbn; [by injection E as <- <-|].
    destruct (ls_max_watermark s) eqn:Em; cbn; by injection E as <- <-.
Qed.
Lemma ls_flush_none s iter count p :
  ls_flush s iter count = None → LimitSorted_next 1 (ls_goto s (Flushing iter count), p) = Panicked.
Proof.
  unfold ls_flush. cbn. destruct (decide (0 < count)); [by destruct iter|].
  destruct (ls_received_end s); [done|]. by destruct (ls_max_watermark s).
Qed.
Lemma ls_goto_id (s : LimitSorted_state A) st : ls_state s = st → s = ls_goto s st.
Proof. destruct s; cbn. by intros ->. Qed.

Lemma LimitSorted_refines `{!OperatorLaws prev} : refines prev limit_sorting LimitSorted_next.
Proof.
  split; cbn -[LimitSorted_next].
  - intros s e s1 p Hr. split; [done|].
    destruct (ls_state s) as [buf|items|iter count| |] eqn:Es; [done|..].
    + destruct (ls_flush_next s _ _ e s1 p Hr) as [f Hf]. exists (S f). cbn. rewrite Es. exact Hf.
    + destruct (ls_flush_next s _ _ e s1 p Hr) as [f Hf]. rewrite <-(ls_goto_id s _ Es) in Hf. by exists f.
    + exists 1. cbn. rewrite Es. by injection Hr as <- <-.
    + exists 1. cbn. rewrite Es. by injection Hr as <- <-.
  - intros s x s1 e p p1 Hr [f Hf] Hx. destruct (ls_state s); try done. by destruct x.
  - intros s x s1 p p1 r Hr [f Hf] Hx [Hne [f2 H2]].
    destruct (ls_state s) as [buf|items|iter count| |] eqn:Es; try done.
    split; [done|]. exists (S (f `max` f2)). cbn. rewrite Es.
    rewrite (Step_fuel prev _ _ _ _ Hf) by lia. cbn.
    assert (LimitSorted_next (f `max` f2) (s1, p1) = r) as Hm.
    { destruct (LimitSorted_mono f2 (f `max` f2) (s1, p1)) as [Ho|Ho]; [lia| |].
      - by rewrite Ho in H2.
      - by rewrite <-Ho. }
    destruct x; injection Hx as <-; by rewrite <-Hm, ?Es.
  - intros s x p p1 Hr [f Hf] Hx. split; [done|].
    destruct (ls_state s) as [buf|items|iter count| |] eqn:Es; [by destruct x|..]; try done.
    + exists 2. rewrite <-(ls_flush_none s _ _ p Hr). cbn. by rewrite Es.
    + exists 1. pose proof (ls_flush_none s _ _ p Hr) as Hn. by rewrite <-(ls_goto_id s _ Es) in Hn.
Qed.

(** The items that come out of a round, and how they are stamped. *)
Definition ls_output (items : list A) : list A :=
  let items := if sorted then sort_slice items else items in
  let items := match offset with Some offset => drop offset items | None => items end in
  match limit with Some limit => take limit items | None => items end.
Definition ls_stamp (ts : option Timestamp) (item : A) : StreamElement A :=
  match ts with Some ts => Timestamped item ts | None => Item item end.

Lemma ls_flush_runs s iter count :
  count ≤ length iter →
  ∃ s', runs limit_sorting (ls_goto s (Flushing iter count)) [] (ls_stamp (ls_timestamp s) <$> take count iter) s' ∧
    ∃ iter', s' = ls_goto s (Flushing iter' 0).
Proof.
  revert count. induction iter as [|item iter IH]; intros count Hc; simpl in Hc.
  - assert (count = 0) as -> by lia. eexists. split; [constructor|]. by exists [].
  - destruct count as [|count]; [eexists; split; [constructor|]; by eexists|].
    destruct (IH count) as (s' & Hr & iter' & ->); [lia|]. eexists. split; [|by exists iter'].
    csimpl. eapply runs_ready; [|exact Hr]. cbn. unfold ls_flush. rewrite decide_True by lia.
    by replace (S count - 1) with count by lia.
Qed.

Lemma ls_absorbs buf ts wm re l :
  Forall (λ e, is_data e = true) l →
  absorbs limit_sorting (mkLimitSorted (Accumulating buf) ts wm re) l
    (mkLimitSorted (Accumulating (buf ++ values l)) (foldl max_ts ts (omap item_ts l))
       (foldl max_ts wm (omap watermark_ts l)) re).
Proof.
  intros Hl. revert buf ts wm. induction Hl as [|e l He _ IH]; intros buf ts wm.
  - rewrite app_nil_r. constructor.
  - destruct e as [x|x t|w| | |]; try done; (econstructor; [done|done|]); try apply IH.
    + specialize (IH (buf ++ [x]) ts wm). rewrite <-(assoc_L (++)) in IH. exact IH.
    + specialize (IH (buf ++ [x]) (max_ts ts t) wm). rewrite <-(assoc_L (++)) in IH. exact IH.
Qed.
Lemma ls_take_output items :
  ∃ iter count, ls_prepare items = Flushing iter count ∧ count ≤ length iter ∧ take count iter = ls_output items.
Proof.
  unfold ls_prepare, ls_output. eexists _, _. split; [done|]. split; [lia|].
  set (l := match offset with Some _ => _ | None => _ end). destruct limit as [n|]; simpl.
  - destruct (decide (n ≤ length l)); [by rewrite Nat.min_l by lia|].
    by rewrite Nat.min_r, firstn_all, take_ge by lia.
  - by rewrite Nat.min_id, firstn_all.
Qed.
(** After the last element of a round, the items and then whatever [ls_flush] says. *)
Lemma ls_flushes s items e s' inp out s'' :
  ls_state s = Sorting items →
  (∀ iter, ls_flush s iter 0 = Some (e, s')) →
  runs limit_sorting s' inp out s'' →
  runs limit_sorting s inp ((ls_stamp (ls_timestamp s) <$> ls_output items) ++ e :: out) s''.
Proof.
  intros Es He Hr. destruct (ls_take_output items) as (iter & count & Ep & Hc & Ho).
  destruct (ls_flush_runs s iter count Hc) as (s1 & Hr1 & iter' & ->). rewrite Ho in Hr1.
  assert (runs limit_sorting (ls_goto s (Flushing iter count)) inp
    ((ls_stamp (ls_timestamp s) <$> ls_output items) ++ e :: out) s'') as Hall.
  { eapply (runs_app _ _ [] _ _ inp); [exact Hr1|]. eapply runs_ready; [apply (He iter')|done]. }
  inversion Hall as [|? ? s2 ? ? ? Hready Hrest|? ? ? ? ? ? ? Hn|? ? ? ? ? ? ? Hn]; subst.
  - by destruct (ls_output items).
  - eapply runs_ready; [|exact Hrest]. cbn [limit_sorting t_ready]. rewrite Es, Ep. exact Hready.
  - change (ls_flush s iter count = None) in Hn. destruct count; [by rewrite He in Hn|]. destruct iter as [|a iter]; [simpl in Hc; lia|].
    unfold ls_flush in Hn. by rewrite decide_True in Hn by lia.
  - change (ls_flush s iter count = None) in Hn. destruct count; [by rewrite He in Hn|]. destruct iter as [|a iter]; [simpl in Hc; lia|].
    unfold ls_flush in Hn. by rewrite decide_True in Hn by lia.
Qed.

Lemma LimitSorted_round_runs ts wm round :
  Forall (λ e, is_data e = true) round →
  let ts' := foldl max_ts ts (omap item_ts round) in
  let wm' := foldl max_ts wm (omap watermark_ts round) in
  runs limit_sorting (mkLimitSorted (Accumulating []) ts wm false) (round ++ [FlushAndRestart])
    ((ls_stamp ts' <$> ls_output (values round)) ++ (Watermark <$> option_list wm') ++ [FlushAndRestart])
    (mkLimitSorted (Accumulating []) ts' wm' false).
Proof.
  intros Hd ts' wm'. pose proof (ls_absorbs [] ts wm false round Hd) as Ha.
  assert (runs limit_sorting (mkLimitSorted (Accumulating (values round)) ts' wm' false) [FlushAndRestart]
    ((ls_stamp ts' <$> ls_output (values round)) ++ (Watermark <$> option_list wm') ++ [FlushAndRestart])
    (mkLimitSorted (Accumulating []) ts' wm' false)) as Hr.
  { eapply runs_skip_ne; [done|done|by destruct (ls_stamp _ <$> _), wm'|].
    destruct wm' as [w|] eqn:Ew; csimpl.
    - apply (ls_flushes (mkLimitSorted (Sorting (values round)) ts' (Some w) false) (values round) (Watermark w)
        (mkLimitSorted Restarting ts' (Some w) false)); [done|done|]. eapply runs_ready; [done|constructor].
    - apply (ls_flushes (mkLimitSorted (Sorting (values round)) ts' None false) (values round) FlushAndRestart
        (mkLimitSorted (Accumulating []) ts' None false)); [done|done|]. constructor. }
  destruct (_ ++ _ ++ [FlushAndRestart]) as [|e out] eqn:E in Hr |- *.
  - by destruct (ls_stamp ts' <$> _), wm'.
  - by eapply absorbs_runs.
Qed.
Lemma LimitSorted_last_runs ts wm :
  runs limit_sorting (mkLimitSorted (Accumulating []) ts wm false) [Terminate] [FlushAndRestart; Terminate]
    (mkLimitSorted Terminating ts wm true).
Proof.
  eapply runs_skip; [done|done|].
  assert (ls_output [] = []) as E.
  { unfold ls_output. destruct sorted, offset, limit; simpl; by rewrite ?drop_nil, ?take_nil. }
  pose proof (ls_flushes (mkLimitSorted (Sorting []) ts wm true) [] FlushAndRestart
    (mkLimitSorted Terminating ts wm true) [] [Terminate] (mkLimitSorted Terminating ts wm true) eq_refl) as Hr.
  rewrite E in Hr. apply Hr; [done|]. eapply runs_ready; [done|constructor].
Qed.

(** What a whole stream becomes, from the timestamp and the watermark of the rounds before. *)
Fixpoint ls_stream (ts wm : option Timestamp) (rounds : list (list (StreamElement A))) : list (StreamElement A) :=
  match rounds with
  | [] => [FlushAndRestart; Terminate]
  | round :: rounds =>
      let ts' := foldl max_ts ts (omap item_ts round) in
      let wm' := foldl max_ts wm (omap watermark_ts round) in
      (ls_stamp ts' <$> ls_output (values round)) ++ (Watermark <$> option_list wm') ++ [FlushAndRestart] ++
      ls_stream ts' wm' rounds
  end.
Lemma ls_stream_runs ts wm rounds :
  Forall (Forall (λ e, is_data e = true)) rounds →
  ∃ s', runs limit_sorting (mkLimitSorted (Accumulating []) ts wm false) (stream_of rounds) (ls_stream ts wm rounds) s'.
Proof.
  intros Hr. revert ts wm. induction Hr as [|round rounds Hd _ IH]; intros ts wm.
  - eexists. apply LimitSorted_last_runs.
  - destruct (IH (foldl max_ts ts (omap item_ts round)) (foldl max_ts wm (omap watermark_ts round))) as [s' H'].
    exists s'. unfold stream_of in *. csimpl. rewrite <-!(assoc_L (++)).
    pose proof (runs_app _ _ _ _ _ _ _ _ (LimitSorted_round_runs ts wm round Hd) H') as H.
    rewrite <-!(assoc_L (++)) in H. exact H.
Qed.

(** C31. [LimitSorted] on a whole stream: each round gives the part of its items that the
    offset and the limit select, of the sorted items if sorting is asked for, then one
    watermark and the end of the round.  All items of a round carry the greatest timestamp
    of this and the earlier rounds, and the watermark too is the greatest so far, for
    neither is reset; before [Terminate] there is one more, empty, round. *)
Theorem LimitSorted_stream `{!OperatorLaws prev} p rounds p' :
  Forall (Forall (λ e, is_data e = true)) rounds → emits prev p (stream_of rounds) p' →
  (∃ s', emits LimitSorted (LimitSorted_new, p) (ls_stream None None rounds) (s', p')) ∧
  ∀ round, round ∈ rounds →
    ∃ l, l ≡ₚ values round ∧
      (if sorted then total_preorder cmp_leb → StronglySorted (λ x y, cmp_leb x y = true) l
       else l = values round) ∧
      ls_output (values round) = take (default (length l) limit) (drop (default 0 offset) l).
Proof.
  intros Hd He. split.
  - destruct (ls_stream_runs None None rounds Hd) as [s' Hr]. exists s'.
    by eapply (refines_emits prev limit_sorting); [apply LimitSorted_refines| |].
  - intros round _. exists (if sorted then sort_slice (values round) else values round). split_and!.
    + destruct sorted; [apply insertion_sort_perm|done].
    + destruct sorted; [apply insertion_sort_sorted|done].
    + unfold ls_output. destruct limit, offset; simpl; try done.
      * by rewrite take_ge by (rewrite length_drop; lia).
      * by rewrite firstn_all.
Qed.
End limit_sorted.

Module LimitExample.
Definition rounds : list (list (StreamElement N)) :=
  [[Item 3%N; FlushBatch; Item 1%N; Item 2%N]; [Timestamped 5%N 7; Watermark 7; Item 4%N]; []].
Lemma LimitSorted_stream_witness :
  ls_stream N.compare (Some 2) (Some 1) true None None rounds =
    [Item 2; Item 3; FlushAndRestart; Timestamped 5 7; Watermark 7; FlushAndRestart;
     Watermark 7; FlushAndRestart; FlushAndRestart; Terminate]%N ∧
  ∃ s', emits (LimitSorted N.compare (Some 2) (Some 1) true (FakeOperator N)) (LimitSorted_new, stream_of rounds)
    (ls_stream N.compare (Some 2) (Some 1) true None None rounds) (s', []).
Proof.
  split; [reflexivity|].
  apply (LimitSorted_stream N.compare (Some 2) (Some 1) true (FakeOperator N) (stream_of rounds) rounds []).
  - repeat constructor.
  - apply FakeOperator_emits_all.
Defined.
End LimitExample.
