(* ===== verification/BinaryStart.v ===== *)
(** * Blocks with two inputs

    [src/src/operator/start/binary.rs]: the elements of a stream that merges two
    others. *)
From S2P Require Import Prelude StreamElement Operator Frontier Batcher Start.

(** [enum BinaryElement]. *)
Inductive BinaryElement (L R : Type) :=
| BLeft (x : L)
| BRight (x : R)
| LeftEnd
| RightEnd.
Global Arguments BLeft {_ _} _.
Global Arguments BRight {_ _} _.
Global Arguments LeftEnd {_ _}.
Global Arguments RightEnd {_ _}.

(** ** One side of the receiver *)
Record SideReceiver (A I : Type) := mkSideReceiver {
  sd_receiver : SimpleStartReceiver A;
  instances : nat;
  sd_missing_flush_and_restart : nat;
  sd_missing_terminate : nat;
  cached : bool;
  cache : list (NetworkMessage I);
  cache_full : bool;
  cache_pointer : nat
}.
Global Arguments mkSideReceiver {_ _} _ _ _ _ _ _ _ _.
Global Arguments sd_receiver {_ _} _.
Global Arguments instances {_ _} _.
Global Arguments sd_missing_flush_and_restart {_ _} _.
Global Arguments sd_missing_terminate {_ _} _.
Global Arguments cached {_ _} _.
Global Arguments cache {_ _} _.
Global Arguments cache_full {_ _} _.
Global Arguments cache_pointer {_ _} _.

Section side.
Context {A I : Type} `{!TypeId A}.
Implicit Types self : SideReceiver A I.

(** [SideReceiver::new]. *)
Definition SideReceiver_new (previous_block_id : BlockId) (cached : bool) : SideReceiver A I :=
  mkSideReceiver (SimpleStartReceiver_new previous_block_id) 0 0 0 cached [] false 0.

Definition set_receiver self (rx : SimpleStartReceiver A) : SideReceiver A I :=
  mkSideReceiver rx (instances self) (sd_missing_flush_and_restart self)
    (sd_missing_terminate self) (cached self) (cache self) (cache_full self) (cache_pointer self).

(** [SideReceiver::setup]. *)
Definition SideReceiver_setup (metadata : ExecutionMetadata)
    (get_receiver : ReceiverEndpoint → outcome (channel A)) self : outcome (SideReceiver A I) :=
  receiver ← SimpleStartReceiver_setup metadata get_receiver (sd_receiver self);
  let n := length (previous_replicas receiver) in
  Done (mkSideReceiver receiver n n n (cached self) (cache self) (cache_full self)
          (cache_pointer self)).

(** [SideReceiver::recv]. *)
Definition SideReceiver_recv (timeout : option Duration) self
    : outcome ((NetworkMessage A + RecvTimeoutError) * SideReceiver A I) :=
  match timeout with
  | Some timeout =>
      '(res, rx) ← SimpleStartReceiver_recv_timeout timeout (sd_receiver self);
      Done (res, set_receiver self rx)
  | None =>
      '(m, rx) ← SimpleStartReceiver_recv (sd_receiver self);
      Done (inl m, set_receiver self rx)
  end.

(** [SideReceiver::reset]. *)
Definition SideReceiver_reset self : SideReceiver A I :=
  if cached self then
    mkSideReceiver (sd_receiver self) (instances self) (instances self)
      (sd_missing_terminate self) true (cache self) true 0
  else
    mkSideReceiver (sd_receiver self) (instances self) (instances self)
      (sd_missing_terminate self) false (cache self) (cache_full self) (cache_pointer self).

(** [is_terminated], [is_ended], [cache_finished]. *)
Definition is_terminated self : bool := sd_missing_terminate self =? 0.
Definition is_ended self : bool :=
  if cached self then is_terminated self else sd_missing_flush_and_restart self =? 0.
Definition cache_finished self : bool := length (cache self) <=? cache_pointer self.

(** [SideReceiver::next_cached_item]; an index out of bounds panics. *)
Definition next_cached_item self : outcome (NetworkMessage I * SideReceiver A I) :=
  let p := cache_pointer self + 1 in
  let fnr := if length (cache self) <=? p then 0 else sd_missing_flush_and_restart self in
  m ← unwrap (cache self !! (p - 1));
  Done (m, mkSideReceiver (sd_receiver self) (instances self) fnr (sd_missing_terminate self)
             (cached self) (cache self) (cache_full self) p).

(** The closure mapped over a batch in [process_side]: the counters of the side that it
    decrements, and the elements it yields. *)
Definition process_element (is_cached : bool) (wrap : A → I) (end_ : I) (fnr term : nat)
    (item : StreamElement A) : outcome (nat * nat * list (StreamElement I)) :=
  '(fnr, res) ← match item with
                | FlushAndRestart =>
                    fnr ← usize_sub fnr 1;
                    Done (fnr, if fnr =? 0 then [Item end_] else [])
                | _ => Done (fnr, [])
                end;
  term ← match item with Terminate => usize_sub term 1 | _ => Done term end;
  let keep := match item with Terminate => negb is_cached | _ => true end in
  Done (fnr, term, if keep then res ++ [se_map wrap item] else res).

(** [flat_map(..).collect()]. *)
Fixpoint process_batch (is_cached : bool) (wrap : A → I) (end_ : I) (fnr term : nat)
    (l : list (StreamElement A)) : outcome (nat * nat * list (StreamElement I)) :=
  match l with
  | [] => Done (fnr, term, [])
  | item :: l =>
      '(fnr, term, res) ← process_element is_cached wrap end_ fnr term item;
      '(fnr, term, rest) ← process_batch is_cached wrap end_ fnr term l;
      Done (fnr, term, res ++ rest)
  end.

(** [BinaryStartReceiver::process_side]. *)
Definition process_side self (message : NetworkMessage A) (wrap : A → I) (end_ : I)
    : outcome (NetworkMessage I * SideReceiver A I) :=
  '(fnr, term, l) ← process_batch (cached self) wrap end_ (sd_missing_flush_and_restart self)
                      (sd_missing_terminate self) (data message);
  let message := new_batch l (sender message) in
  if cached self then
    let cache := cache self ++ [message] in
    Done (message, mkSideReceiver (sd_receiver self) (instances self) fnr term true cache
                     (cache_full self) (length cache))
  else
    Done (message, mkSideReceiver (sd_receiver self) (instances self) fnr term false (cache self)
                     (cache_full self) (cache_pointer self)).
End side.

(** ** [BinaryStartReceiver]

    When both channels may be read, [select] takes whichever is ready: [picks] is the
    sequence of its answers, [true] for the left one. *)
Record BinaryStartReceiver (L R : Type) := mkBinaryReceiver {
  bs_left : SideReceiver L (BinaryElement L R);
  bs_right : SideReceiver R (BinaryElement L R);
  first_message : bool;
  picks : list bool
}.
Global Arguments mkBinaryReceiver {_ _} _ _ _ _.
Global Arguments bs_left {_ _} _.
Global Arguments bs_right {_ _} _.
Global Arguments first_message {_ _} _.
Global Arguments picks {_ _} _.

(** Which side the data comes from ([enum Side] of [select]). *)
Inductive Side (X Y : Type) := FromLeft (x : X) | FromRight (y : Y).
Global Arguments FromLeft {_ _} _.
Global Arguments FromRight {_ _} _.

Section binary.
Context {L R : Type} `{!TypeId L, !TypeId R}.
Implicit Types self : BinaryStartReceiver L R.

(** [BinaryStartReceiver::new]. *)
Definition BinaryStartReceiver_new (left_block_id right_block_id : BlockId)
    (left_cache right_cache : bool) (picks : list bool) : outcome (BinaryStartReceiver L R) :=
  rassert (negb (left_cache && right_cache));;
  Done (mkBinaryReceiver (SideReceiver_new left_block_id left_cache)
          (SideReceiver_new right_block_id right_cache) false picks).

(** The number of [Terminate]s that the cached side has swallowed. *)
Definition num_terminates self : nat :=
  if cached (bs_left self) then instances (bs_left self)
  else if cached (bs_right self) then instances (bs_right self)
  else 0.

(** The receive of the last branch of [select], where both channels may be read. *)
Definition select_both (timeout : option Duration) self
    : outcome (Side (NetworkMessage L + RecvTimeoutError) (NetworkMessage R + RecvTimeoutError) *
               BinaryStartReceiver L R) :=
  let 'mkBinaryReceiver l r fm ps := self in
  let recv_left ps :=
    match timeout with
    | Some timeout =>
        '(res, rx) ← SimpleStartReceiver_recv_timeout timeout (sd_receiver l);
        Done (FromLeft res, mkBinaryReceiver (set_receiver l rx) r fm ps)
    | None =>
        ch ← unwrap (ss_receiver (sd_receiver l));
        let '(res, ch) := chan_recv ch in
        Done (FromLeft (match res with Some m => inl m | None => inr RecvDisconnected end),
              mkBinaryReceiver (set_receiver l (mkSimpleReceiver (Some ch)
                (previous_replicas (sd_receiver l)) (previous_block_id (sd_receiver l)))) r fm ps)
    end in
  let recv_right ps :=
    match timeout with
    | Some timeout =>
        '(res, rx) ← SimpleStartReceiver_recv_timeout timeout (sd_receiver r);
        Done (match res with
              | inr RecvTimeout => FromLeft (inr RecvTimeout)
              | _ => FromRight res
              end, mkBinaryReceiver l (set_receiver r rx) fm ps)
    | None =>
        ch ← unwrap (ss_receiver (sd_receiver r));
        let '(res, ch) := chan_recv ch in
        Done (FromRight (match res with Some m => inl m | None => inr RecvDisconnected end),
              mkBinaryReceiver l (set_receiver r (mkSimpleReceiver (Some ch)
                (previous_replicas (sd_receiver r)) (previous_block_id (sd_receiver r)))) fm ps)
    end in
  _ ← unwrap (ss_receiver (sd_receiver l));
  _ ← unwrap (ss_receiver (sd_receiver r));
  match is_terminated l, is_terminated r with
  | false, false =>
      match ps with
      | true :: ps => recv_left ps
      | false :: ps => recv_right ps
      | [] => recv_left []
      end
  | true, false => recv_right ps
  | false, true => recv_left ps
  | true, true => Done (FromLeft (inr RecvDisconnected), self)
  end.

(** The side that is read when there is nothing to take from a cache. *)
Definition select_side (timeout : option Duration) self
    : outcome (Side (NetworkMessage L + RecvTimeoutError) (NetworkMessage R + RecvTimeoutError) *
               BinaryStartReceiver L R) :=
  let 'mkBinaryReceiver l r fm ps := self in
  let from_left fm :=
    '(res, l) ← SideReceiver_recv timeout l; Done (FromLeft res, mkBinaryReceiver l r fm ps) in
  let from_right fm :=
    '(res, r) ← SideReceiver_recv timeout r; Done (FromRight res, mkBinaryReceiver l r fm ps) in
  if fm && (cached l || cached r) then
    rassert (negb (cached l) || cache_full l);; rassert (negb (cached r) || cache_full r);;
    if cached l then from_right false else from_left false
  else if is_ended l then from_right fm
  else if is_ended r then from_left fm
  else select_both timeout self.

(** [BinaryStartReceiver::select]. *)
Definition select (timeout : option Duration) self
    : outcome ((NetworkMessage (BinaryElement L R) + RecvTimeoutError) * BinaryStartReceiver L R) :=
  if is_terminated (bs_left self) && is_terminated (bs_right self) && (0 <? num_terminates self) then
    Done (inl (new_batch (replicate (num_terminates self) Terminate) coord_default), self)
  else
    let self :=
      if is_ended (bs_left self) && is_ended (bs_right self) &&
         cache_finished (bs_left self) && cache_finished (bs_right self)
      then mkBinaryReceiver (SideReceiver_reset (bs_left self)) (SideReceiver_reset (bs_right self))
             true (picks self)
      else self in
    let 'mkBinaryReceiver l r fm ps := self in
    let use_cache := negb (fm && (cached l || cached r)) in
    if use_cache && cached l && cache_full l && negb (cache_finished l) then
      '(m, l) ← next_cached_item l; Done (inl m, mkBinaryReceiver l r fm ps)
    else if use_cache && cached r && cache_full r && negb (cache_finished r) then
      '(m, r) ← next_cached_item r; Done (inl m, mkBinaryReceiver l r fm ps)
    else
      '(data, self) ← select_side timeout self;
      let 'mkBinaryReceiver l r fm ps := self in
      match data with
      | FromLeft (inl m) =>
          '(m, l) ← process_side l m BLeft LeftEnd; Done (inl m, mkBinaryReceiver l r fm ps)
      | FromRight (inl m) =>
          '(m, r) ← process_side r m BRight RightEnd; Done (inl m, mkBinaryReceiver l r fm ps)
      | FromLeft (inr e) | FromRight (inr e) => Done (inr e, self)
      end.

(** [BinaryStartReceiver::setup]. *)
Definition BinaryStartReceiver_setup (metadata : ExecutionMetadata)
    (net : (ReceiverEndpoint → outcome (channel L)) * (ReceiverEndpoint → outcome (channel R))) self
    : outcome (BinaryStartReceiver L R) :=
  l ← SideReceiver_setup metadata net.1 (bs_left self);
  r ← SideReceiver_setup metadata net.2 (bs_right self);
  Done (mkBinaryReceiver l r (first_message self) (picks self)).

(** [impl StartReceiver for BinaryStartReceiver]. *)
Global Instance BinaryStartReceiver_receiver :
    StartReceiver (BinaryStartReceiver L R) (BinaryElement L R) := {|
  sr_network := (ReceiverEndpoint → outcome (channel L)) * (ReceiverEndpoint → outcome (channel R));
  sr_setup := BinaryStartReceiver_setup;
  prev_replicas self :=
    previous_replicas (sd_receiver (bs_left self)) ++ previous_replicas (sd_receiver (bs_right self));
  recv_timeout timeout := select (Some timeout);
  recv self :=
    '(res, self) ← select None self;
    match res with inl m => Done (m, self) | inr _ => Panicked end
|}.
End binary.

(** ** Rounds of two sides without caches *)

(** The batches that arrive on a channel. *)
Definition arrivals {A} (ch : channel A) : list (NetworkMessage A) :=
  omap (λ e, match e with Arrive m => Some m | Elapse => None end) ch.

Definition is_elem {A} (e : StreamElement A) : bool :=
  match e with Terminate | FlushAndRestart => false | _ => true end.

Section rounds.
Context {A I : Type} `{!TypeId A} (wrap : A → I) (end_ : I).

Definition tagged (c : Coord) (l : list (StreamElement I)) : list (Coord * StreamElement I) :=
  (λ e, (c, e)) <$> l.

(** [side_round n ms out]: the batches [ms] complete a round of which [n] replicas have
    not sent their [FlushAndRestart], and are delivered as [out].  A batch ends with
    [FlushAndRestart] or has none, since [End] flushes after it. *)
Inductive side_round : nat → list (NetworkMessage A) → list (Coord * StreamElement I) → Prop :=
| sr_done : side_round 0 [] []
| sr_data n m ms out :
    Forall (λ e, is_elem e = true) (data m) → side_round (S n) ms out →
    side_round (S n) (m :: ms) (tagged (sender m) (se_map wrap <$> data m) ++ out)
| sr_end n m d ms out :
    data m = d ++ [FlushAndRestart] → Forall (λ e, is_elem e = true) d → side_round n ms out →
    side_round (S n) (m :: ms)
      (tagged (sender m) ((se_map wrap <$> d) ++
         (if n =? 0 then [Item end_] else []) ++ [FlushAndRestart]) ++ out).

(** A side without a cache. *)
Definition plain_side (ch : channel A) (prevs : list Coord) (id : BlockId) (k n t : nat)
    : SideReceiver A I :=
  mkSideReceiver (mkSimpleReceiver (Some ch) prevs id) k n t false [] false 0.

Lemma process_batch_data n t l :
  Forall (λ e, is_elem e = true) l →
  process_batch false wrap end_ n t l = Done (n, t, se_map wrap <$> l).
Proof. induction 1 as [|e l He _ IH]; [done|]. destruct e; cbn in *; try done; by rewrite IH. Qed.

Lemma process_batch_app c n t l1 l2 n1 t1 o1 :
  process_batch (A := A) c wrap end_ n t l1 = Done (n1, t1, o1) →
  process_batch c wrap end_ n t (l1 ++ l2) =
  '(n, t, o2) ← process_batch c wrap end_ n1 t1 l2; Done (n, t, o1 ++ o2).
Proof.
  revert n t o1. induction l1 as [|e l1 IH]; cbn; intros n t o1 He.
  - injection He as <- <- <-. by destruct (process_batch c wrap end_ n t l2) as [[[]]| | |].
  - apply bind_done in He as ([[n2 t2] r2] & -> & He). cbn.
    apply bind_done in He as ([[n3 t3] r3] & He & [= -> -> <-]). rewrite (IH _ _ _ He).
    destruct (process_batch c wrap end_ n1 t1 l2) as [[[]]| | |]; cbn; try done.
    by rewrite app_assoc.
Qed.

Lemma process_side_data ch prevs id k n t m :
  Forall (λ e, is_elem e = true) (data m) →
  process_side (plain_side ch prevs id k n t) m wrap end_ =
  Done (new_batch (se_map wrap <$> data m) (sender m), plain_side ch prevs id k n t).
Proof. intros Hd. unfold process_side. cbn. by rewrite process_batch_data. Qed.

Lemma process_side_end ch prevs id k n t m d :
  data m = d ++ [FlushAndRestart] → Forall (λ e, is_elem e = true) d →
  process_side (plain_side ch prevs id k (S n) t) m wrap end_ =
  Done (new_batch ((se_map wrap <$> d) ++ (if n =? 0 then [Item end_] else []) ++ [FlushAndRestart])
          (sender m), plain_side ch prevs id k n t).
Proof.
  intros Hm Hd. unfold process_side. cbn. rewrite Hm.
  rewrite (process_batch_app _ _ _ _ _ _ _ _ (process_batch_data _ _ _ Hd)). cbn.
  unfold usize_sub. rewrite decide_True by lia. cbn. by rewrite Nat.sub_0_r, app_nil_r.
Qed.

(** Reading from a channel with or without a timeout. *)
Definition chan_read (timeout : option Duration) (ch : channel A)
    : (NetworkMessage A + RecvTimeoutError) * channel A :=
  match timeout with
  | Some _ => chan_recv_timeout ch
  | None => match chan_recv ch with
            | (Some m, ch) => (inl m, ch)
            | (None, ch) => (inr RecvDisconnected, ch)
            end
  end.

Lemma chan_read_arrivals timeout ch m ms rest :
  arrivals ch = m :: ms →
  ∃ ch', length ch' < length ch ∧
    ((chan_read timeout (ch ++ rest) = (inl m, ch' ++ rest) ∧ arrivals ch' = ms) ∨
     (is_Some timeout ∧ chan_read timeout (ch ++ rest) = (inr RecvTimeout, ch' ++ rest) ∧
      arrivals ch' = m :: ms)).
Proof.
  intros Hch. destruct timeout as [d|].
  - destruct ch as [|[m'|] ch]; cbn in Hch; [done| |].
    + injection Hch as -> <-. exists ch. split; [cbn; lia|]. by left.
    + exists ch. split; [cbn; lia|]. right. split_and!; [by eexists|done|done].
  - induction ch as [|[m'|] ch IH]; cbn in Hch; [done| |].
    + injection Hch as -> <-. exists ch. split; [cbn; lia|]. by left.
    + destruct (IH Hch) as (ch' & Hl & [[Hc Ha]|[[? ?] _]]); [|done].
      exists ch'. split; [cbn; lia|]. left. split; [|done]. exact Hc.
Qed.

Lemma side_recv timeout ch prevs id k n t res ch' :
  chan_read timeout ch = (res, ch') → res ≠ inr RecvDisconnected →
  SideReceiver_recv timeout (plain_side ch prevs id k n t) =
  Done (res, plain_side ch' prevs id k n t).
Proof.
  intros Hr Hne. destruct timeout as [d|]; cbn in *.
  - unfold SimpleStartReceiver_recv_timeout. cbn. by rewrite Hr.
  - unfold SimpleStartReceiver_recv. cbn. destruct (chan_recv ch) as [[m|] ch1]; [|congruence].
    by injection Hr as <- <-.
Qed.
End rounds.

(** ** Both sides *)

(** The deliveries of the two sides in any order, with a [FlushBatch] before the
    delivery whose receive has timed out. *)
Inductive interleaved {X} (flush : X) : list X → list X → list X → Prop :=
| il_nil : interleaved flush [] [] []
| il_left x l1 l2 l : interleaved flush l1 l2 l → interleaved flush (x :: l1) l2 (x :: l)
| il_right x l1 l2 l : interleaved flush l1 l2 l → interleaved flush l1 (x :: l2) (x :: l)
| il_flush l1 l2 l :
    interleaved flush l1 l2 l → l ≠ [] → interleaved flush l1 l2 (flush :: l).

Lemma interleaved_left {X} (flush : X) l l1 l2 l' :
  interleaved flush l1 l2 l' → interleaved flush (l ++ l1) l2 (l ++ l').
Proof. induction l; cbn; [done|]. intros. by constructor; auto. Qed.
Lemma interleaved_right {X} (flush : X) l l1 l2 l' :
  interleaved flush l1 l2 l' → interleaved flush l1 (l ++ l2) (l ++ l').
Proof. induction l; cbn; [done|]. intros. by apply il_right; auto. Qed.

Section both.
Context {L R : Type} `{!TypeId L, !TypeId R}.
Context (lp rp : list Coord) (lid rid : BlockId) (kl kr tl tr : nat) (restl : channel L)
  (restr : channel R).
Context (Htl : 0 < tl) (Htr : 0 < tr).

Abbreviation lside cl nl := (plain_side (I := BinaryElement L R) (cl ++ restl) lp lid kl nl tl).
Abbreviation rside cr nr := (plain_side (I := BinaryElement L R) (cr ++ restr) rp rid kr nr tr).
Abbreviation both cl nl cr nr fm ps := (mkBinaryReceiver (lside cl nl) (rside cr nr) fm ps).

(** Without caches [select] only chooses a side and processes its batch. *)
Lemma select_plain timeout cl nl cr nr fm ps :
  is_terminated (lside cl nl) && is_terminated (rside cr nr) = false →
  is_ended (lside cl nl) && is_ended (rside cr nr) = false →
  select timeout (both cl nl cr nr fm ps) =
  '(data, self) ← select_side timeout (both cl nl cr nr fm ps);
  match data with
  | FromLeft (inl m) =>
      '(m, l) ← process_side (bs_left self) m BLeft LeftEnd;
      Done (inl m, mkBinaryReceiver l (bs_right self) (first_message self) (picks self))
  | FromRight (inl m) =>
      '(m, r) ← process_side (bs_right self) m BRight RightEnd;
      Done (inl m, mkBinaryReceiver (bs_left self) r (first_message self) (picks self))
  | FromLeft (inr e) | FromRight (inr e) => Done (inr e, self)
  end.
Proof.
  intros Ht He. unfold select. cbn [bs_left bs_right]. rewrite Ht, He. cbn [andb].
  cbn [cached plain_side orb]. rewrite andb_false_r. cbn [negb andb].
  destruct fm; destruct (select_side timeout _) as [[[[m|e]|[m|e]] []]| | |]; reflexivity.
Qed.

(** The choice of the left side. *)
Lemma select_left timeout cl nl cr nr fm ps ps' res cl' :
  0 < nl → nr = 0 ∧ ps' = ps ∨ ps = true :: ps' ∧ 0 < nr ∨ ps = [] ∧ ps' = [] →
  chan_read timeout (cl ++ restl) = (res, cl' ++ restl) → res ≠ inr RecvDisconnected →
  select timeout (both cl nl cr nr fm ps) =
  match res with
  | inl m => '(m, l) ← process_side (lside cl' nl) m BLeft LeftEnd;
             Done (inl m, mkBinaryReceiver l (rside cr nr) fm ps')
  | inr e => Done (inr e, both cl' nl cr nr fm ps')
  end.
Proof.
  intros Hnl Hch Hr Hne.
  assert (is_ended (lside cl nl) = false) as El by (unfold is_ended; cbn; apply Nat.eqb_neq; lia).
  assert (is_terminated (lside cl nl) = false) as Tl by (unfold is_terminated; cbn; apply Nat.eqb_neq; lia).
  rewrite select_plain by (by rewrite ?Tl, ?El).
  assert (select_side timeout (both cl nl cr nr fm ps) = Done (FromLeft res, both cl' nl cr nr fm ps'))
    as ->; [|by destruct res].
  unfold select_side. cbn [cached plain_side orb]. rewrite andb_false_r, El.
  destruct (is_ended (rside cr nr)) eqn:Er.
  - assert (ps' = ps) as ->.
    { unfold is_ended in Er. cbn in Er. apply Nat.eqb_eq in Er. destruct Hch as [[_ ?]|[[-> ?]|[-> ->]]]; [done|lia|done]. }
    by rewrite (side_recv timeout _ _ _ _ _ _ _ _ Hr Hne).
  - unfold select_both. cbn [unwrap mbind outcome_bind ss_receiver sd_receiver plain_side].
    assert (is_terminated (rside cr nr) = false) as Tr by (unfold is_terminated; cbn; apply Nat.eqb_neq; lia).
    rewrite Tl, Tr. unfold is_ended in Er. cbn in Er. apply Nat.eqb_neq in Er.
    assert (ps = true :: ps' ∨ ps = [] ∧ ps' = []) as Hps by (destruct Hch as [[? _]|[[? _]|?]]; [lia|by left|by right]).
    destruct timeout as [d|].
    + unfold SimpleStartReceiver_recv_timeout. cbn in Hr |- *. rewrite Hr.
      by destruct Hps as [->|[-> ->]].
    + cbn in Hr |- *. destruct (chan_recv (cl ++ restl)) as [[m|] c1]; [|congruence].
      injection Hr as <- <-. by destruct Hps as [->|[-> ->]].
Qed.

(** The choice of the right side. *)
Lemma select_right timeout cl nl cr nr fm ps ps' res cr' :
  0 < nr → nl = 0 ∧ ps' = ps ∨ ps = false :: ps' ∧ 0 < nl →
  chan_read timeout (cr ++ restr) = (res, cr' ++ restr) → res ≠ inr RecvDisconnected →
  select timeout (both cl nl cr nr fm ps) =
  match res with
  | inl m => '(m, r) ← process_side (rside cr' nr) m BRight RightEnd;
             Done (inl m, mkBinaryReceiver (lside cl nl) r fm ps')
  | inr e => Done (inr e, both cl nl cr' nr fm ps')
  end.
Proof.
  intros Hnr Hch Hr Hne.
  assert (is_ended (rside cr nr) = false) as Er by (unfold is_ended; cbn; apply Nat.eqb_neq; lia).
  assert (is_terminated (rside cr nr) = false) as Tr by (unfold is_terminated; cbn; apply Nat.eqb_neq; lia).
  rewrite select_plain by (by rewrite ?Tr, ?Er, andb_false_r).
  assert (∃ sd, select_side timeout (both cl nl cr nr fm ps) = Done (sd, both cl nl cr' nr fm ps') ∧
    match res with inl m => sd = FromRight (inl m)
                 | inr e => sd = FromRight (inr e) ∨ sd = FromLeft (inr e) end) as (sd & Hsd & Hsdr).
  { unfold select_side. cbn [cached plain_side orb]. rewrite andb_false_r.
    destruct (is_ended (lside cl nl)) eqn:El.
    - assert (ps' = ps) as ->.
      { unfold is_ended in El. cbn in El. apply Nat.eqb_eq in El. destruct Hch as [[_ ?]|[-> ?]]; [done|lia]. }
      rewrite (side_recv timeout _ _ _ _ _ _ _ _ Hr Hne). eexists. split; [done|].
      destruct res; auto.
    - rewrite Er. unfold select_both. cbn [unwrap mbind outcome_bind ss_receiver sd_receiver plain_side].
      assert (is_terminated (lside cl nl) = false) as Tl by (unfold is_terminated; cbn; apply Nat.eqb_neq; lia).
      rewrite Tl, Tr. unfold is_ended in El. cbn in El. apply Nat.eqb_neq in El.
      assert (ps = false :: ps') as -> by (destruct Hch as [[? _]|[? _]]; [lia|done]).
      destruct timeout as [d|].
      + unfold SimpleStartReceiver_recv_timeout. cbn in Hr |- *. rewrite Hr. eexists. split; [done|].
        destruct res as [|[]]; auto.
      + cbn in Hr |- *. destruct (chan_recv (cr ++ restr)) as [[m|] c1]; [|congruence].
        injection Hr as <- <-. eexists. by split. }
  rewrite Hsd. destruct res as [m|e]; [by rewrite Hsdr|]. by destruct Hsdr as [->| ->].
Qed.
End both.

(** What a read from the channel of a side leaves of its round. *)
Lemma side_progress {A I} `{!TypeId A} (wrap : A → I) end_ timeout ch n out rest prevs id k t :
  side_round wrap end_ n (arrivals ch) out → 0 < n →
  ∃ res ch', chan_read timeout (ch ++ rest) = (res, ch' ++ rest) ∧ length ch' < length ch ∧
    res ≠ inr RecvDisconnected ∧
    match res with
    | inl m => ∃ m' n' out',
        process_side (plain_side (ch' ++ rest) prevs id k n t) m wrap end_ =
        Done (m', plain_side (ch' ++ rest) prevs id k n' t) ∧
        side_round wrap end_ n' (arrivals ch') out' ∧ out = tagged (sender m') (data m') ++ out'
    | inr _ => is_Some timeout ∧ side_round wrap end_ n (arrivals ch') out
    end.
Proof.
  intros Hr Hn. inversion Hr as [|n0 m ms out0 Hd Hr0 En Em Eo|n0 m d ms out0 Hm Hd Hr0 En Em Eo]; subst.
  - lia.
  - destruct (chan_read_arrivals timeout ch m ms rest (eq_sym Em)) as (ch' & Hl & [[Hc Ha]|(Ht & Hc & Ha)]).
    + exists (inl m), ch'. split_and!; [done..|]. eexists _, _, _.
      rewrite process_side_data by done. split_and!; [done|by rewrite Ha|done].
    + exists (inr RecvTimeout), ch'. split_and!; [done..|]. by rewrite Ha, Em.
  - destruct (chan_read_arrivals timeout ch m ms rest (eq_sym Em)) as (ch' & Hl & [[Hc Ha]|(Ht & Hc & Ha)]).
    + exists (inl m), ch'. split_and!; [done..|]. eexists _, _, _.
      rewrite (process_side_end _ _ _ _ _ _ _ _ _ d) by done. split_and!; [done|by rewrite Ha|done].
    + exists (inr RecvTimeout), ch'. split_and!; [done..|]. by rewrite Ha, Em.
Qed.

Lemma side_round_nil {A I} (wrap : A → I) end_ n ms out :
  side_round wrap end_ n ms out → n = 0 → out = [].
Proof. by inversion 1. Qed.
Lemma side_round_ne {A I} (wrap : A → I) end_ n ms out :
  side_round wrap end_ n ms out → 0 < n → out ≠ [].
Proof.
  induction 1 as [|n m ms out Hd Hr IH|n m d ms out Hm Hd Hr IH]; [lia| |]; intros _.
  - intros [_ ->]%app_eq_nil. by apply IH; [lia|].
  - unfold tagged. rewrite !fmap_app. by destruct (_ <$> _), (_ <$> _).
Qed.

Section incoming.
Context {L R : Type} `{!TypeId L, !TypeId R}.
Context (delay : option Duration) (lp rp : list Coord) (lid rid : BlockId) (kl kr tl tr : nat)
  (restl : channel L) (restr : channel R).
Context (Htl : 0 < tl) (Htr : 0 < tr).

Abbreviation both cl nl cr nr fm ps :=
  (mkBinaryReceiver (plain_side (I := BinaryElement L R) (cl ++ restl) lp lid kl nl tl)
     (plain_side (I := BinaryElement L R) (cr ++ restr) rp rid kr nr tr) fm ps).

(** One receive of [Start] from two sides that are in the middle of a round. *)
Lemma binary_receive cl nl ol cr nr or fm ps b timed_out :
  side_round BLeft LeftEnd nl (arrivals cl) ol → side_round BRight RightEnd nr (arrivals cr) or →
  0 < nl ∨ 0 < nr →
  ∃ cl' nl' ol' cr' nr' or' ps' c l timed_out',
    Start_receive (mkStartRx delay (both cl nl cr nr fm ps) b timed_out) =
      Done (mkStartRx delay (both cl' nl' cr' nr' fm ps') (Some (c, l)) timed_out') ∧
    side_round BLeft LeftEnd nl' (arrivals cl') ol' ∧
    side_round BRight RightEnd nr' (arrivals cr') or' ∧
    length cl' + length cr' < length cl + length cr ∧
    (ol = tagged c l ++ ol' ∧ or = or' ∨ ol = ol' ∧ or = tagged c l ++ or' ∨
     ol = ol' ∧ or = or' ∧ c = coord_default ∧ l = [FlushBatch]).
Proof.
  intros Hl Hr Hne.
  set (timeout := match timed_out, delay with false, Some d => Some d | _, _ => None end).
  assert (∀ res self', select timeout (both cl nl cr nr fm ps) = Done (res, self') →
    match res with
    | inl m => Start_receive (mkStartRx delay (both cl nl cr nr fm ps) b timed_out) =
                 Done (mkStartRx delay self' (Some (sender m, data m)) false)
    | inr _ => is_Some timeout →
               Start_receive (mkStartRx delay (both cl nl cr nr fm ps) b timed_out) =
                 Done (mkStartRx delay self' (Some (coord_default, [FlushBatch])) true)
    end) as Hrec.
  { intros res self' Hs. unfold Start_receive, timeout in *. cbn [already_timed_out max_delay_rx rx_receiver].
    destruct timed_out, delay as [d|]; cbn [recv_timeout recv BinaryStartReceiver_receiver];
      rewrite Hs; destruct res; try done; by intros [? ?]. }
  assert (0 < nl ∧ (∃ ps', nr = 0 ∧ ps' = ps ∨ ps = true :: ps' ∧ 0 < nr ∨ ps = [] ∧ ps' = []) ∨
          0 < nr ∧ (∃ ps', nl = 0 ∧ ps' = ps ∨ ps = false :: ps' ∧ 0 < nl)) as Hpick.
  { destruct (decide (nl = 0)); [right; split; [lia|eauto]|].
    destruct (decide (nr = 0)); [left; split; [lia|eauto]|].
    destruct ps as [|[] ps']; [left; split; [lia|by exists []; auto]|left|right];
      (split; [lia|exists ps'; right; (left; split; [done|lia]) || (split; [done|lia])]). }
  destruct Hpick as [[Hn (ps' & Hps)]|[Hn (ps' & Hps)]].
  - destruct (side_progress BLeft LeftEnd timeout cl nl ol restl lp lid kl tl Hl Hn)
      as (res & cl' & Hc & Hlen & Hnd & Hres).
    pose proof (select_left lp rp lid rid kl kr tl tr restl restr Htl Htr timeout cl nl cr nr fm ps ps'
      res cl' Hn Hps Hc Hnd) as Hs.
    destruct res as [m|e].
    + destruct Hres as (m' & n' & out' & Hp & Hl' & ->). rewrite Hp in Hs. cbn in Hs.
      pose proof (Hrec _ _ Hs) as Hrec'. cbn in Hrec'.
      eexists cl', n', out', cr, nr, or, ps', _, _, _. split_and!; [exact Hrec'|done..|lia|by left].
    + destruct Hres as [Ht Hl']. pose proof (Hrec _ _ Hs Ht) as Hrec'.
      eexists cl', nl, ol, cr, nr, or, ps', _, _, _. split_and!; [exact Hrec'|done..|lia|by right; right].
  - destruct (side_progress BRight RightEnd timeout cr nr or restr rp rid kr tr Hr Hn)
      as (res & cr' & Hc & Hlen & Hnd & Hres).
    pose proof (select_right lp rp lid rid kl kr tl tr restl restr Htl Htr timeout cl nl cr nr fm ps ps'
      res cr' Hn Hps Hc Hnd) as Hs.
    destruct res as [m|e].
    + destruct Hres as (m' & n' & out' & Hp & Hr' & ->). rewrite Hp in Hs. cbn in Hs.
      pose proof (Hrec _ _ Hs) as Hrec'. cbn in Hrec'.
      eexists cl, nl, ol, cr', n', out', ps', _, _, _. split_and!; [exact Hrec'|done..|lia|by right; left].
    + destruct Hres as [Ht Hr']. pose proof (Hrec _ _ Hs Ht) as Hrec'.
      eexists cl, nl, ol, cr', nr, or, ps', _, _, _. split_and!; [exact Hrec'|done..|lia|by right; right].
Qed.

(** The rest of a round is delivered as an interleaving of the two sides, and nothing
    beyond the round is read from either channel. *)
Lemma binary_emits cl nl ol cr nr or fm ps b timed_out :
  side_round BLeft LeftEnd nl (arrivals cl) ol → side_round BRight RightEnd nr (arrivals cr) or →
  b = None ∨ (∃ c, b = Some (c, [])) →
  ∃ r cl' cr' ps' b' timed_out',
    emits incoming (mkStartRx delay (both cl nl cr nr fm ps) b timed_out) r
      (mkStartRx delay (both cl' 0 cr' 0 fm ps') b' timed_out') ∧
    interleaved (coord_default, FlushBatch) ol or r ∧ arrivals cl' = [] ∧ arrivals cr' = [] ∧
    (b' = None ∨ ∃ c, b' = Some (c, [])).
Proof.
  remember (length cl + length cr) as n eqn:En.
  revert cl nl ol cr nr or ps b timed_out En. induction (lt_wf n) as [n _ IH].
  intros cl nl ol cr nr or ps b timed_out -> Hl Hr Hb.
  destruct (decide (nl = 0 ∧ nr = 0)) as [[-> ->]|Hne].
  { inversion Hl; inversion Hr; subst. exists [], cl, cr, ps, b, timed_out.
    split_and!; [constructor|constructor|done..]. }
  assert (0 < nl ∨ 0 < nr) as Hpos by lia.
  destruct (binary_receive cl nl ol cr nr or fm ps None timed_out Hl Hr Hpos)
    as (cl1 & nl1 & ol1 & cr1 & nr1 & or1 & ps1 & c & l & to1 & Hrec & Hl1 & Hr1 & Hlen & Hout).
  destruct (IH _ Hlen cl1 nl1 ol1 cr1 nr1 or1 ps1 (Some (c, [])) to1 eq_refl Hl1 Hr1)
    as (r & cl' & cr' & ps' & b' & to' & He & Hi & ? & ? & ?); [by eauto|].
  exists (tagged c l ++ r), cl', cr', ps', b', to'.
  assert (interleaved (coord_default, FlushBatch) ol or (tagged c l ++ r)) as Hint.
  { destruct Hout as [[-> ->]|[[-> ->]|(-> & -> & -> & ->)]].
    - by apply interleaved_left.
    - by apply interleaved_right.
    - apply il_flush; [done|]. intros ->. assert (ol1 = [] ∧ or1 = []) as [E1 E2] by (by inversion Hi).
      destruct Hpos as [Hp|Hp];
        [by apply (side_round_ne _ _ _ _ _ Hl Hp)|by apply (side_round_ne _ _ _ _ _ Hr Hp)]. }
  split_and!; [|done..].
  eapply (rx_receive_emits _ (match b with Some (c, _) => c | None => c end)); [|exact Hrec| |].
  - destruct Hb as [->|(c' & ->)]; auto.
  - intros E. rewrite E in Hint. assert (ol = [] ∧ or = []) as [E1 E2] by (by inversion Hint).
    destruct Hpos as [Hp|Hp];
      [by apply (side_round_ne _ _ _ _ _ Hl Hp)|by apply (side_round_ne _ _ _ _ _ Hr Hp)].
  - eapply emits_app; [|exact He]. unfold tagged.
    eapply (rx_batch_emits (mkStartRx delay (both cl1 nl1 cr1 nr1 fm ps1) (Some (c, l)) to1) c l []).
    cbn. by rewrite app_nil_r.
Qed.
End incoming.

(** ** A round of the two sides is a round of the block *)
Definition raw {A} (ms : list (NetworkMessage A)) : list (Coord * StreamElement A) :=
  concat (tag <$> ms).

Lemma raw_cons {A} (m : NetworkMessage A) ms : raw (m :: ms) = tag m ++ raw ms.
Proof. done. Qed.

Section side_facts.
Context {A I : Type} (wrap : A → I) (end_ : I).

Lemma elems_of_tagged {X} c c' (l : list (StreamElement X)) :
  elems_of c ((λ e, (c', e)) <$> l) =
  if decide (c' = c) then List.filter (λ e, negb (is_flush e)) l else [].
Proof.
  induction l as [|e l IH]; [by case_decide|]. cbn. unfold elems_of in IH. rewrite IH.
  destruct (is_flush e); case_decide; done.
Qed.

Lemma filter_se_map (P : ∀ X, StreamElement X → bool) l :
  (∀ e, P I (se_map wrap e) = P A e) →
  List.filter (P I) (se_map wrap <$> l) = se_map wrap <$> List.filter (P A) l.
Proof. intros HP. induction l as [|e l IH]; [done|]. cbn. rewrite HP, IH. by destruct (P A e). Qed.

Lemma filter_flush_map l :
  List.filter (λ e, negb (is_flush e)) (se_map wrap <$> l) =
  se_map wrap <$> List.filter (λ e, negb (is_flush e)) l.
Proof. apply (filter_se_map (λ X e, negb (is_flush e))). by intros []. Qed.
Lemma filter_item_map l :
  List.filter is_item (se_map wrap <$> l) = se_map wrap <$> List.filter is_item l.
Proof. apply (filter_se_map (@is_item)). by intros []. Qed.

Lemma data_se_map l :
  Forall (λ e, is_data e = true) l → Forall (λ e, is_data e = true) (se_map wrap <$> l).
Proof. intros Hl. apply Forall_fmap. eapply Forall_impl; [exact Hl|]. by intros []. Qed.

Lemma side_round_silent n ms out c :
  side_round wrap end_ n ms out → elems_of c (raw ms) = [] → elems_of c out = [].
Proof.
  induction 1 as [|n m ms out Hd Hr IH|n m d ms out Hm Hd Hr IH]; intros Hc; [done| |];
    rewrite raw_cons, elems_of_app in Hc; apply app_eq_nil in Hc as [H1 H2];
    rewrite elems_of_app, (IH H2), app_nil_r; unfold tag in H1; unfold tagged;
    rewrite elems_of_tagged in H1; rewrite elems_of_tagged; case_decide; try done.
  - rewrite filter_flush_map. by rewrite H1.
  - rewrite Hm, List.filter_app in H1. by apply app_eq_nil in H1 as [_ ?].
Qed.

(** Each replica still sends data and then one [FlushAndRestart]. *)
Lemma side_round_each n ms out c d :
  side_round wrap end_ n ms out → elems_of c (raw ms) = d ++ [FlushAndRestart] →
  Forall (λ e, is_data e = true) d →
  ∃ d', elems_of c out = d' ++ [FlushAndRestart] ∧ Forall (λ e, is_data e = true) d'.
Proof.
  intros Hr. revert d. induction Hr as [|n m ms out Hd Hr IH|n m dm ms out Hm Hdm Hr IH];
    intros d Hc Hdata.
  - by destruct d.
  - rewrite raw_cons, elems_of_app in Hc. unfold tag in Hc at 1.
    rewrite elems_of_tagged in Hc. rewrite elems_of_app. unfold tagged. rewrite elems_of_tagged.
    case_decide; [|by apply (IH d)]. subst c. rewrite filter_flush_map.
    set (f := List.filter _ (data m)) in *.
    assert (Forall (λ e, is_elem e = true) f) as Hf.
    { apply Forall_forall. intros e. rewrite list_elem_of_In. unfold f. rewrite filter_In.
      intros [Hin _]. rewrite Forall_forall in Hd. apply Hd. by rewrite list_elem_of_In. }
    clearbody f. clear Hd.
    assert (∃ d2, d = f ++ d2 ∧ elems_of (sender m) (raw ms) = d2 ++ [FlushAndRestart])
      as (d2 & -> & Hc2).
    { clear IH. revert d Hc Hdata. induction Hf as [|e f He _ IHf]; intros d Hc Hdata; [by exists d|].
      destruct d as [|e' d]; cbn in Hc; injection Hc as -> Hc; [done|].
      apply Forall_cons in Hdata as [_ Hdata]. destruct (IHf d Hc Hdata) as (d2 & -> & ?). by exists d2. }
    apply Forall_app in Hdata as [Hdf Hd2].
    destruct (IH d2 Hc2 Hd2) as (d' & -> & Hd'). exists ((se_map wrap <$> f) ++ d').
    rewrite app_assoc. split; [done|]. apply Forall_app. split; [by apply data_se_map|done].
  - rewrite raw_cons, elems_of_app in Hc. unfold tag in Hc at 1.
    rewrite elems_of_tagged in Hc. rewrite elems_of_app. unfold tagged. rewrite elems_of_tagged.
    case_decide; [|by apply (IH d)]. subst c. rewrite Hm, List.filter_app in Hc.
    rewrite !List.filter_app, filter_flush_map. set (f := List.filter _ dm) in *.
    assert (Forall (λ e, is_elem e = true) f) as Hf.
    { apply Forall_forall. intros e. rewrite list_elem_of_In. unfold f. rewrite filter_In.
      intros [Hin _]. rewrite Forall_forall in Hdm. apply Hdm. by rewrite list_elem_of_In. }
    clearbody f. cbn in Hc. rewrite <-app_assoc in Hc. cbn in Hc.
    assert (elems_of (sender m) (raw ms) = [] ∧ d = f) as [Hnil ->].
    { clear IH. revert d Hc Hdata. induction Hf as [|e f He _ IHf]; intros d Hc Hdata.
      - destruct d as [|e' d]; cbn in Hc; injection Hc as Hc; [done|].
        subst. by apply Forall_cons in Hdata as [? _].
      - destruct d as [|e' d]; cbn in Hc; injection Hc as -> Hc; [done|].
        apply Forall_cons in Hdata as [_ Hdata]. by destruct (IHf d Hc Hdata) as (? & ->). }
    rewrite (side_round_silent _ _ _ _ Hr Hnil), app_nil_r.
    exists ((se_map wrap <$> f) ++ (if n =? 0 then [Item end_] else [])). split.
    + rewrite <-app_assoc. f_equal. by destruct (n =? 0).
    + apply Forall_app. split; [by apply data_se_map|]. destruct (n =? 0); by repeat constructor.
Qed.

Lemma side_round_from prevs n ms out :
  side_round wrap end_ n ms out → Forall (λ m, sender m ∈ prevs) ms → from_prevs prevs out.
Proof.
  induction 1 as [|n m ms out Hd Hr IH|n m d ms out Hm Hd Hr IH]; intros Hms; [constructor| |];
    apply Forall_cons in Hms as [Hs Hms]; (apply Forall_app; split; [|by apply IH]);
    apply Forall_fmap, Forall_true; intros e; by left.
Qed.

(** The items of a side come first, and then its end. *)
Lemma side_round_items n ms out :
  side_round wrap end_ n ms out → 0 < n →
  List.filter is_item (out.*2) =
  (se_map wrap <$> List.filter is_item ((raw ms).*2)) ++ [Item end_].
Proof.
  assert (∀ X (c : Coord) (l : list (StreamElement X)), ((λ e, (c, e)) <$> l).*2 = l) as Hsnd.
  { intros. rewrite <-list_fmap_compose. apply list_fmap_id. }
  assert (∀ n ms out, side_round wrap end_ n ms out → n = 0 → ms = [] ∧ out = []) as Hz
    by (by inversion 1).
  induction 1 as [|n m ms out Hd Hr IH|n m d ms out Hm Hd Hr IH]; intros Hn; [lia| |];
    rewrite raw_cons, !fmap_app; unfold tagged, tag; rewrite !Hsnd, !List.filter_app.
  - rewrite filter_item_map, IH by lia. by rewrite fmap_app, app_assoc.
  - rewrite filter_item_map, Hm, List.filter_app.
    assert (∀ X, List.filter is_item [FlushAndRestart] = @nil (StreamElement X)) as Hf by done.
    rewrite !Hf.
    rewrite !app_nil_r, !fmap_app, <-!app_assoc. f_equal.
    destruct (Nat.eqb_spec n 0) as [E|E]; cbn; [|apply IH; lia].
    by destruct (Hz _ _ _ Hr E) as [-> ->].
Qed.

Lemma side_round_last n ms out x :
  side_round wrap end_ n ms out → last out = Some x → x.2 = FlushAndRestart.
Proof.
  induction 1 as [|n m ms out Hd Hr IH|n m d ms out Hm Hd Hr IH]; intros Hx; [done| |].
  - rewrite last_app in Hx. pose proof (side_round_ne _ _ _ _ _ Hr ltac:(lia)) as Hne.
    destruct (last out) as [y|] eqn:E; [|by apply last_None in E]. auto.
  - rewrite last_app in Hx. destruct (last out) as [y|] eqn:E; [auto|].
    unfold tagged in Hx. rewrite !fmap_app, app_assoc in Hx. cbn in Hx. rewrite last_snoc in Hx.
    by injection Hx as <-.
Qed.
End side_facts.
