(* ===== verification/Zip.v ===== *)
(** * Zip

    [Zip] ([src/src/operator/zip.rs]) pairs the items of the two inputs of a block in the
    order in which they arrive. *)
From S2P Require Import Prelude StreamElement Operator BasicOps Frontier Batcher Start BinaryStart.

(** [struct Zip]: the items of one side that wait for the other. *)
Record Zip_state (A B : Type) := mkZip {
  stash1 : list (StreamElement A);
  stash2 : list (StreamElement B)
}.
Global Arguments mkZip {_ _} _ _.
Global Arguments stash1 {_ _} _.
Global Arguments stash2 {_ _} _.
(** [Zip::new]. *)
Definition Zip_new {A B} : Zip_state A B := mkZip [] [].

(** The last [match] of [Zip::next]. *)
Definition zip_pair {A B} (item1 : StreamElement A) (item2 : StreamElement B) : outcome (StreamElement (A * B)) :=
  match item1, item2 with
  | Item item1, Item item2 => Done (Item (item1, item2))
  | Timestamped item1 ts1, Timestamped item2 ts2 => Done (Timestamped (item1, item2) (Z.max ts1 ts2))
  | _, _ => Panicked
  end.

Section zip.
Context {A B : Type} (prev : Operator (BinaryElement A B)).

(** [Zip::next]. *)
Fixpoint Zip_next (fuel : nat) (q : Zip_state A B * op_state prev)
    : outcome (StreamElement (A * B) * (Zip_state A B * op_state prev)) :=
  match fuel with
  | O => OutOfFuel
  | S fuel =>
      let '(self, p) := q in
      match stash1 self, stash2 self with
      | item1 :: stash1, item2 :: stash2 =>
          e ← zip_pair item1 item2;
          Done (e, (mkZip stash1 stash2, p))
      | _, _ =>
          '(item, p) ← op_next prev fuel p;
          match item with
          | Item (BLeft l) => Zip_next fuel (mkZip (stash1 self ++ [Item l]) (stash2 self), p)
          | Timestamped (BLeft l) ts =>
              Zip_next fuel (mkZip (stash1 self ++ [Timestamped l ts]) (stash2 self), p)
          | Item (BRight r) => Zip_next fuel (mkZip (stash1 self) (stash2 self ++ [Item r]), p)
          | Timestamped (BRight r) ts =>
              Zip_next fuel (mkZip (stash1 self) (stash2 self ++ [Timestamped r ts]), p)
          | Item _ | Timestamped _ _ => Zip_next fuel (self, p)
          | Watermark ts => Done (Watermark ts, (self, p))
          | FlushAndRestart => Done (FlushAndRestart, (mkZip [] [], p))
          | FlushBatch => Done (FlushBatch, (self, p))
          | Terminate => Done (Terminate, (self, p))
          end
      end
  end.
Definition Zip : Operator (A * B) := mkOperator _ Zip_next.

(** ** The abstract behaviour *)
Definition zip_feed (s : Zip_state A B) (e : StreamElement (BinaryElement A B))
    : Zip_state A B * option (StreamElement (A * B)) :=
  match e with
  | Item (BLeft l) => (mkZip (stash1 s ++ [Item l]) (stash2 s), None)
  | Timestamped (BLeft l) ts => (mkZip (stash1 s ++ [Timestamped l ts]) (stash2 s), None)
  | Item (BRight r) => (mkZip (stash1 s) (stash2 s ++ [Item r]), None)
  | Timestamped (BRight r) ts => (mkZip (stash1 s) (stash2 s ++ [Timestamped r ts]), None)
  | Item _ | Timestamped _ _ => (s, None)
  | Watermark ts => (s, Some (Watermark ts))
  | FlushAndRestart => (mkZip [] [], Some FlushAndRestart)
  | FlushBatch => (s, Some FlushBatch)
  | Terminate => (s, Some Terminate)
  end.
Definition zipping : transducer (BinaryElement A B) (A * B) :=
  mkTransducer (Zip_state A B)
    (λ s, match stash1 s, stash2 s with
          | e1 :: l1, e2 :: l2 =>
              match zip_pair e1 e2 with Done e => Some (e, mkZip l1 l2) | _ => None end
          | _, _ => None
          end)
    (λ s e, match stash1 s, stash2 s with
            | _ :: _, _ :: _ => Panicked
            | _, _ => Done (zip_feed s e)
            end).

(** Items that cannot be paired: the code panics. *)
Definition zip_stuck (s : Zip_state A B) : bool :=
  match stash1 s, stash2 s with
  | e1 :: _, e2 :: _ => match zip_pair e1 e2 with Done _ => false | _ => true end
  | _, _ => false
  end.
Global Instance Zip_follows : FollowsBut prev zipping zip_stuck Zip_next.
Proof.
  constructor.
  - by intros [].
  - intros f s p. unfold zip_stuck, drive. cbn.
    destruct (stash1 s) as [|e1 l1] eqn:E1, (stash2 s) as [|e2 l2] eqn:E2;
      [..|by destruct e1, e2]; destruct (op_next prev f p) as [[[[]|[] ts| | | |] p1]| | |]; cbn; by rewrite ?E1, ?E2.
  - intros s. unfold zip_stuck. cbn. destruct (stash1 s), (stash2 s); try done. by destruct (zip_pair _ _).
  - intros s x. unfold zip_stuck. cbn. by destruct (stash1 s), (stash2 s).
Qed.
Global Instance Zip_laws `{!OperatorLaws prev} : OperatorLaws Zip.
Proof. apply (follows_but_laws prev zipping _ zip_stuck). Qed.

(** ** What happens to a round *)
Definition left_of (e : StreamElement (BinaryElement A B)) : option (StreamElement A) :=
  match e with
  | Item (BLeft x) => Some (Item x)
  | Timestamped (BLeft x) ts => Some (Timestamped x ts)
  | _ => None
  end.
Definition right_of (e : StreamElement (BinaryElement A B)) : option (StreamElement B) :=
  match e with
  | Item (BRight x) => Some (Item x)
  | Timestamped (BRight x) ts => Some (Timestamped x ts)
  | _ => None
  end.
Definition has_value {X} (e : StreamElement X) : bool := if value e then true else false.

(** The elements that are not items, which both sides share. *)
Definition control {X} (l : list (StreamElement X)) : list (StreamElement ()) :=
  variant <$> List.filter (λ e, negb (has_value e)) l.

Record zipped (s : Zip_state A B) (round : list (StreamElement (BinaryElement A B)))
    (out : list (StreamElement (A * B))) : Prop := {
  zd_pairs : Done <$> List.filter has_value out =
    uncurry zip_pair <$> zip (stash1 s ++ omap left_of round) (stash2 s ++ omap right_of round);
  zd_control : control out = control round;
  zd_later w : Forall (λ ts, (w < ts)%Z) (omap item_ts round) → Forall (λ ts, (w < ts)%Z) (omap item_ts out);
  zd_watermarks : watermark_ok round → watermark_ok out
}.
Definition pairs_ok (l1 : list (StreamElement A)) (l2 : list (StreamElement B)) : Prop :=
  Forall (λ e, is_Some (match e with Done x => Some x | _ => None end)) (uncurry zip_pair <$> zip l1 l2).

Lemma pairs_ok_cons e1 l1 e2 l2 :
  pairs_ok (e1 :: l1) (e2 :: l2) → (∃ e, zip_pair e1 e2 = Done e) ∧ pairs_ok l1 l2.
Proof.
  intros [He Hl]%Forall_cons. split; [|done]. simpl in He. destruct (zip_pair e1 e2); destruct He; eauto; done.
Qed.
Lemma zip_pair_value e1 e2 (e : StreamElement (A * B)) :
  zip_pair e1 e2 = Done e → has_value e = true ∧ is_data e = true ∧
    (∀ ts, item_ts e = Some ts → ∃ t1 t2, item_ts e1 = Some t1 ∧ item_ts e2 = Some t2 ∧ ts = Z.max t1 t2).
Proof.
  destruct e1, e2; simpl; intros [= <-]; simpl; split_and!; try done. intros t [= <-]. eauto.
Qed.
Lemma watermark_ok_tail {X} (e : StreamElement X) l : watermark_ok (e :: l) → watermark_ok l.
Proof. intros Hok l1 w l2 ->. by apply (Hok (e :: l1) w l2). Qed.

(** A control element is passed on. *)
Lemma zipped_control s (x : StreamElement (BinaryElement A B)) y round out :
  has_value x = false → has_value y = false → variant x = variant y →
  zipped s round out → zipped s (x :: round) (y :: out).
Proof.
  intros Hx Hy Hv Hz.
  assert (left_of x = None) as El by (by destruct x as [[]|[]| | | |]).
  assert (right_of x = None) as Er by (by destruct x as [[]|[]| | | |]).
  assert (item_ts x = None) as Ex by (by destruct x). assert (item_ts y = None) as Ey by (by destruct y).
  split.
  - csimpl. rewrite El, Er, Hy. apply Hz.
  - unfold control. csimpl. rewrite Hx, Hy. csimpl. f_equal; [done|apply (zd_control _ _ _ Hz)].
  - intros w. csimpl. rewrite Ex, Ey. apply Hz.
  - intros Hok. pose proof (zd_watermarks _ _ _ Hz (watermark_ok_tail _ _ Hok)) as Hok'.
    apply watermark_ok_cons; [|done]. destruct y; try done. destruct x; try done. injection Hv as ->.
    apply (zd_later _ _ _ Hz). by apply (Hok [] _ round).
Qed.
(** An item that has to wait. *)
Lemma zipped_stash s s' (x : StreamElement (BinaryElement A B)) round out :
  has_value x = true → stash1 s' = stash1 s ++ option_list (left_of x) →
  stash2 s' = stash2 s ++ option_list (right_of x) → zipped s' round out → zipped s (x :: round) out.
Proof.
  intros Hx E1 E2 Hz. split.
  - rewrite (zd_pairs _ _ _ Hz), E1, E2, <-!(assoc_L (++)). csimpl. by destruct (left_of x), (right_of x).
  - rewrite (zd_control _ _ _ Hz). unfold control. csimpl. by rewrite Hx.
  - intros w Hw. apply (zd_later _ _ _ Hz). csimpl in Hw. destruct (item_ts x); [by apply Forall_cons in Hw as [_ ?]|done].
  - intros Hok. by apply Hz, (watermark_ok_tail x).
Qed.
(** A pair. *)
Lemma zipped_pair s e1 l1 e2 l2 e (x : StreamElement (BinaryElement A B)) round out :
  zip_pair e1 e2 = Done e → stash1 s ++ option_list (left_of x) = e1 :: l1 →
  stash2 s ++ option_list (right_of x) = e2 :: l2 →
  has_value x = true → (item_ts x = item_ts e1 ∨ item_ts x = item_ts e2) →
  zipped (mkZip l1 l2) round out → zipped s (x :: round) (e :: out).
Proof.
  intros He E1 E2 Hx Hts Hz. destruct (zip_pair_value e1 e2 e He) as (Hv & Hd & Hmax). split.
  - csimpl. rewrite Hv. csimpl. rewrite (zd_pairs _ _ _ Hz).
    assert (∀ X (o : option X) l, match o with Some y => y :: l | None => l end = option_list o ++ l) as Ho.
    { by intros X [] l. }
    rewrite !Ho, !(assoc_L (++)), E1, E2. csimpl. by rewrite He.
  - unfold control. csimpl. rewrite Hv, Hx. simpl. apply (zd_control _ _ _ Hz).
  - intros w Hw. csimpl in *. destruct (item_ts e) as [ts|] eqn:Ee.
    + destruct (Hmax ts eq_refl) as (t1 & t2 & H1 & H2 & ->).
      destruct Hts as [Hts|Hts]; rewrite Hts, ?H1, ?H2 in Hw; apply Forall_cons in Hw as [Hlt Hw];
        (constructor; [lia|by apply (zd_later _ _ _ Hz)]).
    + apply (zd_later _ _ _ Hz). destruct (item_ts x); [by apply Forall_cons in Hw as [_ ?]|done].
  - intros Hok. apply watermark_ok_cons; [by destruct e|]. by apply Hz, (watermark_ok_tail x).
Qed.

(** One side waits for the other. *)
Definition one_side (s : Zip_state A B) : Prop := stash1 s = [] ∨ stash2 s = [].
Lemma one_side_ready s : one_side s → t_ready zipping s = None ∧ ∀ x, t_feed zipping s x = Done (zip_feed s x).
Proof. cbn. by intros [->| ->]; destruct (stash1 s). Qed.

(** The item [x] of one side is read in state [s]. *)
Lemma zip_item_runs s (x : StreamElement (BinaryElement A B)) s1 round :
  one_side s → has_value x = true → zip_feed s x = (s1, None) →
  stash1 s1 = stash1 s ++ option_list (left_of x) → stash2 s1 = stash2 s ++ option_list (right_of x) →
  pairs_ok (stash1 s1 ++ omap left_of round) (stash2 s1 ++ omap right_of round) →
  (∀ e1 l1 e2 l2, stash1 s1 = e1 :: l1 → stash2 s1 = e2 :: l2 →
     (l1 = [] ∨ l2 = []) ∧ (item_ts x = item_ts e1 ∨ item_ts x = item_ts e2)) →
  (∀ s, one_side s → pairs_ok (stash1 s ++ omap left_of round) (stash2 s ++ omap right_of round) →
     ∃ out, runs zipping s (round ++ [FlushAndRestart]) (out ++ [FlushAndRestart]) Zip_new ∧ zipped s round out) →
  ∃ out, runs zipping s (x :: round ++ [FlushAndRestart]) (out ++ [FlushAndRestart]) Zip_new ∧
    zipped s (x :: round) out.
Proof.
  intros Hs Hx Hfeed E1 E2 Hok Hts IH. destruct (one_side_ready s Hs) as [Hr Hf].
  destruct (stash1 s1) as [|e1 l1] eqn:S1; [|destruct (stash2 s1) as [|e2 l2] eqn:S2].
  - destruct (IH s1) as (out & Hrun & Hz); [by left|by rewrite S1|]. exists out. split.
    + eapply runs_skip_ne; [done|by rewrite Hf, Hfeed|by destruct out|done].
    + eapply zipped_stash; [done| | |done]; congruence.
  - destruct (IH s1) as (out & Hrun & Hz); [by right|by rewrite S1, S2|]. exists out. split.
    + eapply runs_skip_ne; [done|by rewrite Hf, Hfeed|by destruct out|done].
    + eapply zipped_stash; [done| | |done]; congruence.
  - simpl in Hok. apply pairs_ok_cons in Hok as [[e He] Hok].
    destruct (Hts e1 l1 e2 l2 eq_refl eq_refl) as [Hone Hts'].
    destruct (IH (mkZip l1 l2) Hone Hok) as (out & Hrun & Hz). exists (e :: out). split.
    + eapply runs_skip_ne; [done|by rewrite Hf, Hfeed|done|].
      eapply runs_ready; [|exact Hrun]. cbn. by rewrite S1, S2, He.
    + by eapply zipped_pair.
Qed.

Lemma zip_runs round s :
  Forall (λ e, is_data e = true) round → one_side s →
  pairs_ok (stash1 s ++ omap left_of round) (stash2 s ++ omap right_of round) →
  ∃ out, runs zipping s (round ++ [FlushAndRestart]) (out ++ [FlushAndRestart]) Zip_new ∧ zipped s round out.
Proof.
  intros Hd. revert s. induction Hd as [|x round Hx _ IH]; intros s Hs Hok.
  - destruct (one_side_ready s Hs) as [Hr Hf]. exists []. split.
    + eapply runs_return; [done|by rewrite Hf|constructor].
    + split; csimpl; rewrite ?app_nil_r; try done.
      * by destruct Hs as [->| ->]; [|destruct (stash1 s)].
      * intros _. apply watermark_ok_nil.
  - assert (∀ y s1, has_value x = false → has_value y = false → variant x = variant y →
      zip_feed s x = (s1, Some y) → s1 = s → ∃ out, runs zipping s ((x :: round) ++ [FlushAndRestart])
        (out ++ [FlushAndRestart]) Zip_new ∧ zipped s (x :: round) out) as Hctl.
    { intros y s1 Hxv Hyv Hv Hfeed ->. destruct (one_side_ready s Hs) as [Hr Hf].
      destruct (IH s Hs) as (out & Hrun & Hz).
      { revert Hok. csimpl. by destruct x as [[]|[]| | | |]. }
      exists (y :: out). split; [|by apply zipped_control].
      eapply runs_return; [exact Hr|by rewrite Hf, Hfeed|exact Hrun]. }
    destruct x as [[a|b| |]|[a|b| |] ts|w| | |]; try done;
      [..|by apply (Hctl (Watermark w) s)|by apply (Hctl FlushBatch s)];
      (eapply zip_item_runs; [done|done|reflexivity|cbn; by rewrite ?app_nil_r|cbn; by rewrite ?app_nil_r|..|exact IH]);
      try (csimpl in *; rewrite <-?(assoc_L (++)); exact Hok); cbn; intros e1 l1 e2 l2 S1 S2;
      destruct Hs as [Hs|Hs]; try rewrite Hs in S1; try rewrite Hs in S2; simplify_eq/=; auto.
Qed.

(** [Zip] on a round pairs the first item of the left side with the first of the
    right, the second with the second and so on, a pair of timestamped items with the
    greater timestamp; watermarks and batch flushes keep their order, and if the watermarks
    that come in are sound those that go out are, although items wait in the operator.
    What is left of the longer side is dropped and the operator is ready for the next
    round. *)
Theorem Zip_round `{!OperatorLaws prev} p round p' :
  Forall (λ e, is_data e = true) round → pairs_ok (omap left_of round) (omap right_of round) →
  emits prev p (round ++ [FlushAndRestart]) p' →
  ∃ out, emits Zip (Zip_new, p) (out ++ [FlushAndRestart]) (Zip_new, p') ∧
    Done <$> List.filter has_value out = uncurry zip_pair <$> zip (omap left_of round) (omap right_of round) ∧
    control out = control round ∧ (watermark_ok round → watermark_ok out).
Proof.
  intros Hd Hok He. destruct (zip_runs round Zip_new Hd (or_introl eq_refl) Hok) as (out & Hr & Hz).
  exists out. split.
  { eapply (refines_emits prev zipping); [|exact Hr|exact He]. apply (follows_but_refines prev zipping zip_stuck); apply _. }
  split_and!; [apply (zd_pairs _ _ _ Hz)|apply Hz..].
Qed.
End zip.

Module Example.
Definition round : list (StreamElement (BinaryElement N N)) :=
  [Timestamped (BLeft 1) 1; Timestamped (BLeft 2) 2; Watermark 2; Timestamped (BRight 10) 3;
   Item LeftEnd; Timestamped (BRight 20) 4; FlushBatch; Timestamped (BRight 30) 5]%N%Z.
Lemma Zip_round_witness :
  uncurry zip_pair <$> zip (omap left_of round) (omap right_of round) =
    [Done (Timestamped (1%N, 10%N) 3); Done (Timestamped (2%N, 20%N) 4)] ∧
  ∃ out, emits (Zip (FakeOperator _)) (Zip_new, round ++ [FlushAndRestart]) (out ++ [FlushAndRestart]) (Zip_new, []) ∧
    Done <$> List.filter has_value out = uncurry zip_pair <$> zip (omap left_of round) (omap right_of round) ∧
    control out = control round ∧ (watermark_ok round → watermark_ok out).
Proof.
  split; [reflexivity|]. apply (Zip_round (FakeOperator (BinaryElement N N))).
  - repeat constructor.
  - repeat constructor; by eexists.
  - apply FakeOperator_emits_all.
Defined.
End Example.
