(* ===== verification/Join.v ===== *)
(** * Joins

    [src/src/operator/join/{mod,local_hash,keyed_join}.rs]: the hash joins, and what a
    join is: the relational join of the two sides of a round. *)
From S2P Require Import Prelude StreamElement Operator Frontier Batcher Start BinaryStart.

(** [enum JoinVariant]. *)
Inductive JoinVariant := Inner | LeftJoin | Outer.

Definition left_outer (self : JoinVariant) : bool :=
  match self with LeftJoin | Outer => true | Inner => false end.
Definition right_outer (self : JoinVariant) : bool :=
  match self with Outer => true | _ => false end.

(** ** What a join computes *)
Section relational.
Context {K : Type} `{Countable K}.
Implicit Types k : K.

(** The values of a key, in order. *)
Definition side_values {V} k (xs : list (K * V)) : list V := (filter (λ x, x.1 = k) xs).*2.

(** The pairs with equal keys. *)
Definition matched {L R} (ls : list (K * L)) (rs : list (K * R))
    : list (K * (option L * option R)) :=
  l ← ls; (λ v, (l.1, (Some l.2, Some v))) <$> side_values l.1 rs.

(** The items of [xs] whose key does not appear in [ys]. *)
Definition alone {V W} (xs : list (K * V)) (ys : list (K * W)) : list (K * V) :=
  filter (λ x, x.1 ∉ ys.*1) xs.

Definition left_only {L R} (x : K * L) : K * (option L * option R) := (x.1, (Some x.2, None)).
Definition right_only {L R} (x : K * R) : K * (option L * option R) := (x.1, (None, Some x.2)).

(** The tuples due when the left side has sent [ls] and the right side [rs], and [le]
    and [re] say whether they have ended. *)
Definition join_so_far {L R} (v : JoinVariant) (le re : bool)
    (ls : list (K * L)) (rs : list (K * R)) : list (K * (option L * option R)) :=
  matched ls rs ++
  (if left_outer v && re then left_only <$> alone ls rs else []) ++
  (if right_outer v && le then right_only <$> alone rs ls else []).

(** The join of two lists: SQL's [JOIN], [LEFT JOIN] and [FULL OUTER JOIN]. *)
Definition relational_join {L R} (v : JoinVariant) (ls : list (K * L)) (rs : list (K * R)) :=
  join_so_far v true true ls rs.

(** A hash map that holds the items of a side. *)
Definition side_data {V} (m : gmap K (list V)) (xs : list (K * V)) : Prop :=
  ∀ k, m !! k = match side_values k xs with [] => None | vs => Some vs end.

(** [entry(key).or_default().push(item)]. *)
Definition push_entry {V} k (v : V) (m : gmap K (list V)) : gmap K (list V) :=
  <[k := default [] (m !! k) ++ [v]]> m.

Lemma values_snoc {V} k (xs : list (K * V)) x :
  side_values k (xs ++ [x]) = side_values k xs ++ (if decide (x.1 = k) then [x.2] else []).
Proof.
  unfold side_values. rewrite filter_app, fmap_app. f_equal. rewrite filter_cons, filter_nil.
  by case_decide.
Qed.

Lemma values_nil {V} k (xs : list (K * V)) : side_values k xs = [] ↔ k ∉ xs.*1.
Proof.
  unfold side_values. induction xs as [|x xs IH]; [split; [intros _; apply not_elem_of_nil|done]|].
  rewrite filter_cons, fmap_cons, not_elem_of_cons. case_decide; cbn; [naive_solver|]. rewrite IH. naive_solver.
Qed.

Lemma side_data_empty {V} : side_data (V := V) ∅ [].
Proof. intros k. apply lookup_empty. Qed.

Lemma side_data_push {V} (m : gmap K (list V)) xs k v :
  side_data m xs → side_data (push_entry k v m) (xs ++ [(k, v)]).
Proof.
  intros Hm k'. unfold push_entry. rewrite lookup_insert, values_snoc, (Hm k). cbn.
  case_decide; subst.
  - destruct (side_values k' xs); done.
  - rewrite app_nil_r. apply Hm.
Qed.

Lemma side_data_lookup {V} (m : gmap K (list V)) xs k :
  side_data m xs → default [] (m !! k) = side_values k xs.
Proof. intros ->. by destruct (side_values k xs). Qed.

Lemma side_data_inj {V} (m1 m2 : gmap K (list V)) xs : side_data m1 xs → side_data m2 xs → m1 = m2.
Proof. intros H1 H2. apply map_eq. intros k. by rewrite H1, H2. Qed.

Lemma values_cons {V} k (xs : list (K * V)) x :
  side_values k (x :: xs) = (if decide (x.1 = k) then [x.2] else []) ++ side_values k xs.
Proof. unfold side_values. rewrite filter_cons. by case_decide. Qed.

Lemma matched_cons {L R} (ls : list (K * L)) (rs : list (K * R)) l :
  matched (l :: ls) rs = ((λ v, (l.1, (Some l.2, Some v))) <$> side_values l.1 rs) ++ matched ls rs.
Proof. done. Qed.

Lemma matched_snoc_left {L R} (ls : list (K * L)) (rs : list (K * R)) k l :
  matched (ls ++ [(k, l)]) rs =
  matched ls rs ++ ((λ v, (k, (Some l, Some v))) <$> side_values k rs).
Proof. unfold matched. rewrite bind_app. cbn. by rewrite app_nil_r. Qed.

Lemma matched_snoc_right {L R} (ls : list (K * L)) (rs : list (K * R)) k r :
  matched ls (rs ++ [(k, r)]) ≡ₚ
  matched ls rs ++ ((λ v, (k, (Some v, Some r))) <$> side_values k ls).
Proof.
  induction ls as [|[k' l] ls IH]; [done|]. rewrite !matched_cons, IH, values_snoc, values_cons.
  cbn [fst snd]. rewrite !fmap_app, <-!app_assoc. f_equiv.
  destruct (decide (k = k')) as [->|Hne].
  - rewrite decide_True by done. cbn. by rewrite Permutation_middle.
  - by rewrite decide_False by done.
Qed.

Lemma alone_snoc {V W} (xs : list (K * V)) (ys : list (K * W)) x :
  alone (xs ++ [x]) ys = alone xs ys ++ (if decide (side_values x.1 ys = []) then [x] else []).
Proof.
  unfold alone. rewrite filter_app, filter_cons, filter_nil.
  destruct (decide (side_values x.1 ys = [])) as [E|E]; rewrite values_nil in E; by case_decide.
Qed.

Lemma alone_nil_r {V W} (xs : list (K * V)) : alone (W := W) xs [] = xs.
Proof.
  unfold alone. induction xs as [|x xs IH]; [done|]. rewrite filter_cons. cbn.
  rewrite decide_True by apply not_elem_of_nil. by f_equal.
Qed.

(** Draining a side yields its items grouped by key; [P] selects the keys to keep. *)
Lemma drain_side `{!HashOrder} {V} (P : K → Prop) `{!∀ k, Decision (P k)}
    (m : gmap K (list V)) xs :
  side_data m xs →
  (kv ← hash_iter m; if decide (P kv.1) then pair kv.1 <$> kv.2 else []) ≡ₚ
  filter (λ x, P x.1) xs.
Proof.
  set (f := λ kv : K * list V, if decide (P kv.1) then pair kv.1 <$> kv.2 else []).
  intros Hm. change ((kv ← hash_iter m; f kv) ≡ₚ filter (λ x, P x.1) xs).
  rewrite (hash_iter_perm m). revert m Hm.
  induction xs as [|[k v] xs IH] using rev_ind; intros m Hm.
  - by rewrite (side_data_inj m ∅ [] Hm side_data_empty), map_to_list_empty.
  - set (m1 := match side_values k xs with [] => delete k m | vs => <[k := vs]> m end).
    assert (side_data m1 xs) as Hm1.
    { intros k'. specialize (Hm k'). rewrite values_snoc in Hm. cbn in Hm. unfold m1.
      destruct (decide (k = k')) as [<-|Hne].
      - destruct (side_values k xs); [apply lookup_delete_eq|apply lookup_insert_eq].
      - rewrite app_nil_r in Hm. rewrite <-Hm.
        destruct (side_values k xs); [by apply lookup_delete_ne|by apply lookup_insert_ne]. }
    rewrite (side_data_inj _ _ _ Hm (side_data_push m1 xs k v Hm1)). clearbody m1.
    clear Hm. specialize (IH m1 Hm1). rewrite filter_app, <-IH. unfold push_entry.
    rewrite filter_cons, filter_nil. cbn [fst].
    destruct (m1 !! k) as [vs|] eqn:E; cbn [default].
    + rewrite <-(insert_id m1 k vs E) at 2. rewrite <-!(insert_delete_eq m1).
      rewrite !map_to_list_insert by apply lookup_delete_eq. cbn. unfold f at 1 3. cbn.
      case_decide; [|by rewrite app_nil_r].
      rewrite fmap_app. cbn. rewrite <-!app_assoc. f_equiv. apply Permutation_app_comm.
    + rewrite map_to_list_insert by done. cbn. unfold f at 1. cbn.
      case_decide; cbn; [|by rewrite app_nil_r]. by rewrite Permutation_app_comm.
Qed.
End relational.

(** ** The two sides of a hash join *)
Record SideHashMap (K V : Type) `{Countable K} := mkSide {
  sh_data : gmap K (list V); sh_keys : gset K; sh_ended : bool; sh_count : nat
}.
Global Arguments mkSide {_ _ _ _} _ _ _ _.
Global Arguments sh_data {_ _ _ _} _.
Global Arguments sh_keys {_ _ _ _} _.
Global Arguments sh_ended {_ _ _ _} _.
Global Arguments sh_count {_ _ _ _} _.

Section sides.
Context {K : Type} `{Countable K} `{!HashOrder}.

(** [SideHashMap::default]. *)
Definition SideHashMap_default {V} : SideHashMap K V := mkSide ∅ ∅ false 0.

(** [JoinLocalHash::add_item]: the new left side and buffer. *)
Definition add_item {L R O} (ki : K * L) (left : SideHashMap K L) (right : SideHashMap K R)
    (left_outer right_outer : bool) (buffer : list (K * O)) (make_pair : option L → option R → O)
    : SideHashMap K L * list (K * O) :=
  let '(key, item) := ki in
  let buffer :=
    match sh_data right !! key with
    | Some rhss => buffer ++ ((λ rhs, (key, make_pair (Some item) (Some rhs))) <$> rhss)
    | None =>
        if sh_ended right && left_outer then buffer ++ [(key, make_pair (Some item) None)]
        else buffer
    end in
  let keys := if right_outer then {[key]} ∪ sh_keys left else sh_keys left in
  let data := if sh_ended right then sh_data left else push_entry key item (sh_data left) in
  (mkSide data keys (sh_ended left) (sh_count left + 1), buffer).

(** [JoinLocalHash::side_ended]: both sides and the buffer. *)
Definition side_ended {L R O} (right_outer : bool) (left : SideHashMap K L)
    (right : SideHashMap K R) (buffer : list (K * O)) (make_pair : option L → option R → O)
    : SideHashMap K L * SideHashMap K R * list (K * O) :=
  let buffer :=
    if right_outer then
      buffer ++ (kv ← hash_iter (sh_data right);
                 if decide (kv.1 ∉ sh_keys left)
                 then (λ rhs, (kv.1, make_pair None (Some rhs))) <$> kv.2 else [])
    else buffer in
  (mkSide (sh_data left) ∅ true (sh_count left),
   mkSide ∅ (sh_keys right) (sh_ended right) (sh_count right), buffer).

(** What a side must hold when it has sent [xs], is ended or not, the other side is
    ended or not, and its keys are tracked or not. *)
Record side_at {V} (s : SideHashMap K V) (xs : list (K * V)) (ended other_ended tracked : bool)
    : Prop := {
  sat_data : if other_ended then sh_data s = ∅ else side_data (sh_data s) xs;
  sat_keys : if tracked && negb ended then ∀ k, k ∈ sh_keys s ↔ k ∈ xs.*1 else sh_keys s = ∅;
  sat_ended : sh_ended s = ended;
  sat_count : sh_count s = length xs
}.

Lemma side_at_default {V} tracked : side_at (V := V) SideHashMap_default [] false false tracked.
Proof.
  split; [apply side_data_empty| |done..]. cbn. destruct tracked; [|done]. cbn. set_solver.
Qed.

(** Adding an item yields its pairs with the other side, or the item alone. *)
Lemma add_item_spec {L R O} k (v : L) (left : SideHashMap K L) (right : SideHashMap K R)
    lo ro (buf : list (K * O)) mk ls rs re :
  side_at left ls false re ro → side_at right rs re false lo →
  ∃ left', add_item (k, v) left right lo ro buf mk =
    (left', buf ++ ((λ r, (k, mk (Some v) (Some r))) <$> side_values k rs) ++
            (if lo && re && bool_decide (side_values k rs = []) then [(k, mk (Some v) None)] else [])) ∧
    side_at left' (ls ++ [(k, v)]) false re ro.
Proof.
  intros [D1 K1 E1 C1] [D2 K2 E2 C2]. unfold add_item. rewrite D2, E2.
  eexists. split.
  - f_equal. destruct (side_values k rs) as [|r l] eqn:E; cbn.
    + rewrite andb_true_r, andb_comm. destruct (lo && re); [done|by rewrite app_nil_r].
    + rewrite andb_false_r, app_nil_r. done.
  - split; cbn.
    + destruct re; [done|]. by apply side_data_push.
    + destruct ro; cbn in *; [|done]. intros k'. rewrite fmap_app, elem_of_app, elem_of_union, K1.
      cbn. rewrite list_elem_of_singleton, elem_of_singleton. naive_solver.
    + done.
    + rewrite length_app, C1. done.
Qed.

(** Ending a side yields the items of the other side that it has not matched. *)
Lemma side_ended_spec {L R O} ro (left : SideHashMap K L) (right : SideHashMap K R)
    (buf : list (K * O)) mk ls rs re lo :
  side_at left ls false re ro → side_at right rs re false lo →
  ∃ left' right' out, side_ended ro left right buf mk = (left', right', buf ++ out) ∧
    out ≡ₚ (if ro then (λ x, (x.1, mk None (Some x.2))) <$> alone rs ls else []) ∧
    side_at left' ls true re ro ∧ side_at right' rs re true lo.
Proof.
  intros [D1 K1 E1 C1] [D2 K2 E2 C2]. unfold side_ended.
  exists (mkSide (sh_data left) ∅ true (sh_count left)),
    (mkSide ∅ (sh_keys right) (sh_ended right) (sh_count right)),
    (if ro then kv ← hash_iter (sh_data right);
       if decide (kv.1 ∉ sh_keys left)
       then (λ rhs, (kv.1, mk None (Some rhs))) <$> kv.2 else []
     else []).
  split_and!.
  - destruct ro; [done|]. by rewrite app_nil_r.
  - destruct ro; [|done]. cbn in K1.
    pose proof (drain_side (λ k, k ∉ ls.*1) (sh_data right) rs D2) as Hd.
    change (filter _ rs) with (alone rs ls) in Hd. rewrite <-Hd. clear Hd.
    induction (hash_iter (sh_data right)) as [|[k vs] l IH]; [done|].
    rewrite !bind_cons, fmap_app, IH. f_equiv. cbn [fst snd].
    destruct (decide (k ∉ sh_keys left)), (decide (k ∉ ls.*1)); rewrite ?K1 in *; try done.
    by rewrite <-list_fmap_compose.
  - split; cbn; [done| |done..]. destruct (ro && false) eqn:E; [by destruct ro|done].
  - split; cbn; done.
Qed.
End sides.

(** ** The stream of a binary block *)

(** What has been seen of the two sides of a round. *)
Record seen (A B : Type) := mkSeen {
  se_le : bool; se_re : bool; se_ls : list A; se_rs : list B
}.
Global Arguments mkSeen {_ _} _ _ _ _.
Global Arguments se_le {_ _} _.
Global Arguments se_re {_ _} _.
Global Arguments se_ls {_ _} _.
Global Arguments se_rs {_ _} _.

(** One more element; [None] when its side has already ended. *)
Definition see {A B} (s : seen A B) (e : BinaryElement A B) : option (seen A B) :=
  let 'mkSeen le re ls rs := s in
  match e with
  | BLeft x => if le then None else Some (mkSeen le re (ls ++ [x]) rs)
  | BRight x => if re then None else Some (mkSeen le re ls (rs ++ [x]))
  | LeftEnd => if le then None else Some (mkSeen true re ls rs)
  | RightEnd => if re then None else Some (mkSeen le true ls rs)
  end.
Fixpoint see_all {A B} (s : seen A B) (l : list (StreamElement (BinaryElement A B)))
    : option (seen A B) :=
  match l with
  | [] => Some s
  | Item e :: l => match see s e with Some s => see_all s l | None => None end
  | FlushBatch :: l => see_all s l
  | _ => None
  end.

(** A round of two untimed streams, in any interleaving: the left side sends [ls], the
    right side [rs], and each announces its end after its last item. *)
Definition binary_round {A B} (l : list (StreamElement (BinaryElement A B))) ls rs : Prop :=
  see_all (mkSeen false false [] []) l = Some (mkSeen true true ls rs).

Definition bmap {A B A' B'} (f : A → A') (g : B → B') (e : BinaryElement A B)
    : BinaryElement A' B' :=
  match e with
  | BLeft x => BLeft (f x) | BRight x => BRight (g x)
  | LeftEnd => LeftEnd | RightEnd => RightEnd
  end.

(** ** [JoinLocalHash] and [JoinKeyedOuter] *)
Record JoinHash_state (K L R : Type) `{Countable K} := mkJoinHash {
  jh_left : SideHashMap K L; jh_right : SideHashMap K R;
  jh_buffer : list (K * (option L * option R))
}.
Global Arguments mkJoinHash {_ _ _ _ _} _ _ _.
Global Arguments jh_left {_ _ _ _ _} _.
Global Arguments jh_right {_ _ _ _ _} _.
Global Arguments jh_buffer {_ _ _ _ _} _.

Section hash_join.
Context {K L R : Type} `{Countable K} `{!HashOrder}.
Implicit Types self : JoinHash_state K L R.

(** [JoinLocalHash::new], [JoinKeyedOuter::new]. *)
Definition JoinHash_new : JoinHash_state K L R :=
  mkJoinHash SideHashMap_default SideHashMap_default [].

(** The arm of both operators for [FlushAndRestart]. *)
Definition join_restart self : outcome (JoinHash_state K L R) :=
  let 'mkJoinHash l r buf := self in
  rassert (sh_ended l);; rassert (sh_ended r);;
  rassert (bool_decide (sh_data l = ∅));; rassert (bool_decide (sh_data r = ∅));;
  rassert (bool_decide (sh_keys l = ∅));; rassert (bool_decide (sh_keys r = ∅));;
  Done (mkJoinHash (mkSide (sh_data l) (sh_keys l) false 0)
          (mkSide (sh_data r) (sh_keys r) false 0) buf).

(** The calls that [JoinLocalHash::next] makes for an item of the binary stream. *)
Definition local_hash_item (variant : JoinVariant) (keyer1 : L → K) (keyer2 : R → K) self
    (e : BinaryElement L R) : JoinHash_state K L R :=
  let 'mkJoinHash l r buf := self in
  match e with
  | BLeft item =>
      let '(l, buf) := add_item (keyer1 item, item) l r (left_outer variant)
                         (right_outer variant) buf (λ x y, (x, y)) in
      mkJoinHash l r buf
  | BRight item =>
      let '(r, buf) := add_item (keyer2 item, item) r l (right_outer variant)
                         (left_outer variant) buf (λ x y, (y, x)) in
      mkJoinHash l r buf
  | LeftEnd =>
      let '(l, r, buf) := side_ended (right_outer variant) l r buf (λ x y, (x, y)) in
      mkJoinHash l r buf
  | RightEnd =>
      let '(r, l, buf) := side_ended (left_outer variant) r l buf (λ x y, (y, x)) in
      mkJoinHash l r buf
  end.

(** [JoinKeyedOuter::process_item]. *)
Definition keyed_outer_item (variant : JoinVariant) self (item : BinaryElement (K * L) (K * R))
    : JoinHash_state K L R :=
  let left_outer := left_outer variant in
  let right_outer := right_outer variant in
  let 'mkJoinHash l r buf := self in
  match item with
  | BLeft (key, v1) =>
      mkJoinHash
        (mkSide (if sh_ended r then sh_data l else push_entry key v1 (sh_data l))
           (if right_outer then {[key]} ∪ sh_keys l else sh_keys l) (sh_ended l) (sh_count l + 1))
        r
        (match sh_data r !! key with
         | Some rs => buf ++ ((λ v2, (key, (Some v1, Some v2))) <$> rs)
         | None => if sh_ended r && left_outer then buf ++ [(key, (Some v1, None))] else buf
         end)
  | BRight (key, v2) =>
      mkJoinHash l
        (mkSide (if sh_ended l then sh_data r else push_entry key v2 (sh_data r))
           (if left_outer then {[key]} ∪ sh_keys r else sh_keys r) (sh_ended r) (sh_count r + 1))
        (match sh_data l !! key with
         | Some ls => buf ++ ((λ v1, (key, (Some v1, Some v2))) <$> ls)
         | None => if sh_ended l && right_outer then buf ++ [(key, (None, Some v2))] else buf
         end)
  | LeftEnd =>
      mkJoinHash (mkSide (sh_data l) ∅ true (sh_count l))
        (mkSide ∅ (sh_keys r) (sh_ended r) (sh_count r))
        (if right_outer then
           buf ++ (kv ← hash_iter (sh_data r);
                   if decide (kv.1 ∉ sh_keys l)
                   then (λ v2, (kv.1, (None, Some v2))) <$> kv.2 else [])
         else buf)
  | RightEnd =>
      mkJoinHash (mkSide ∅ (sh_keys l) (sh_ended l) (sh_count l))
        (mkSide (sh_data r) ∅ true (sh_count r))
        (if left_outer then
           buf ++ (kv ← hash_iter (sh_data l);
                   if decide (kv.1 ∉ sh_keys r)
                   then (λ v1, (kv.1, (Some v1, None))) <$> kv.2 else [])
         else buf)
  end.

(** Both operators do the same work on keyed items. *)
Lemma local_hash_keyed variant keyer1 keyer2 self e :
  local_hash_item variant keyer1 keyer2 self e =
  keyed_outer_item variant self (bmap (λ x, (keyer1 x, x)) (λ x, (keyer2 x, x)) e).
Proof. destruct self, e; reflexivity. Qed.

(** Both loops: [while self.buffer.is_empty() { .. }] and then [pop_front]. *)
Definition join_pop self : option (StreamElement (K * (option L * option R)) * JoinHash_state K L R) :=
  match jh_buffer self with
  | [] => None
  | item :: rest => Some (Item item, mkJoinHash (jh_left self) (jh_right self) rest)
  end.
Definition join_control {A B} (process : BinaryElement A B → JoinHash_state K L R) self
    (e : StreamElement (BinaryElement A B))
    : outcome (JoinHash_state K L R * option (StreamElement (K * (option L * option R)))) :=
  match e with
  | Item e => Done (process e, None)
  | FlushAndRestart => self ← join_restart self; Done (self, Some FlushAndRestart)
  | Terminate => Done (self, Some Terminate)
  | FlushBatch => Done (self, Some FlushBatch)
  | Watermark _ | Timestamped _ _ => Panicked
  end.

(** [JoinLocalHash::next]. *)
Fixpoint JoinLocalHash_next (variant : JoinVariant) (keyer1 : L → K) (keyer2 : R → K)
    (prev : Operator (BinaryElement L R)) (fuel : nat)
    (q : JoinHash_state K L R * op_state prev)
    : outcome (StreamElement (K * (option L * option R)) * (JoinHash_state K L R * op_state prev)) :=
  match fuel with
  | 0 => OutOfFuel
  | S fuel =>
      let '(self, p) := q in
      match join_pop self with
      | Some (item, self) => Done (item, (self, p))
      | None =>
          '(e, p) ← op_next prev fuel p;
          '(self, o) ← join_control (local_hash_item variant keyer1 keyer2 self) self e;
          match o with
          | Some e => Done (e, (self, p))
          | None => JoinLocalHash_next variant keyer1 keyer2 prev fuel (self, p)
          end
      end
  end.

(** [JoinKeyedOuter::next]. *)
Fixpoint JoinKeyedOuter_next (variant : JoinVariant) (prev : Operator (BinaryElement (K * L) (K * R)))
    (fuel : nat) (q : JoinHash_state K L R * op_state prev)
    : outcome (StreamElement (K * (option L * option R)) * (JoinHash_state K L R * op_state prev)) :=
  match fuel with
  | 0 => OutOfFuel
  | S fuel =>
      let '(self, p) := q in
      match join_pop self with
      | Some (item, self) => Done (item, (self, p))
      | None =>
          '(e, p) ← op_next prev fuel p;
          '(self, o) ← join_control (keyed_outer_item variant self) self e;
          match o with
          | Some e => Done (e, (self, p))
          | None => JoinKeyedOuter_next variant prev fuel (self, p)
          end
      end
  end.

Definition local_hash_join variant keyer1 keyer2
    : transducer (BinaryElement L R) (K * (option L * option R)) :=
  mkTransducer (JoinHash_state K L R) join_pop
    (λ self, join_control (local_hash_item variant keyer1 keyer2 self) self).
Definition keyed_outer_join variant
    : transducer (BinaryElement (K * L) (K * R)) (K * (option L * option R)) :=
  mkTransducer (JoinHash_state K L R) join_pop
    (λ self, join_control (keyed_outer_item variant self) self).

Global Instance JoinLocalHash_follows variant keyer1 keyer2 prev :
  Follows prev (local_hash_join variant keyer1 keyer2)
    (JoinLocalHash_next variant keyer1 keyer2 prev).
Proof. constructor; [by intros []|]. reflexivity. Qed.
Global Instance JoinKeyedOuter_follows variant prev :
  Follows prev (keyed_outer_join variant) (JoinKeyedOuter_next variant prev).
Proof. constructor; [by intros []|]. reflexivity. Qed.

(** ** The tuples of a round *)
Record hash_at (v : JoinVariant) (s : seen (K * L) (K * R)) self : Prop := {
  ha_left : side_at (jh_left self) (se_ls s) (se_le s) (se_re s) (right_outer v);
  ha_right : side_at (jh_right self) (se_rs s) (se_re s) (se_le s) (left_outer v)
}.
Definition due (v : JoinVariant) (s : seen (K * L) (K * R)) :=
  join_so_far v (se_le s) (se_re s) (se_ls s) (se_rs s).

Lemma keyed_outer_item_spec v s l r e s' :
  hash_at v s (mkJoinHash l r []) → see s e = Some s' →
  ∃ l' r' out, keyed_outer_item v (mkJoinHash l r []) e = mkJoinHash l' r' out ∧
    hash_at v s' (mkJoinHash l' r' []) ∧ due v s ++ out ≡ₚ due v s'.
Proof.
  intros [Hl Hr] Hsee. destruct s as [le re ls rs]. cbn in Hl, Hr.
  destruct e as [[k x]|[k x]| |]; cbn in Hsee; unfold due.
  - destruct le; [done|]. injection Hsee as <-. cbn [se_le se_re se_ls se_rs].
    destruct (add_item_spec k x l r (left_outer v) (right_outer v) [] pair ls rs re Hl Hr)
      as (l' & He & Hl').
    exists l', r. eexists. split.
    { change (keyed_outer_item v (mkJoinHash l r []) (BLeft (k, x))) with
        (let '(l, buf) := add_item (k, x) l r (left_outer v) (right_outer v) [] pair in
         mkJoinHash l r buf). by rewrite He. }
    split; [by split|].
    unfold join_so_far. rewrite matched_snoc_left, alone_snoc, andb_false_r. cbn [fst].
    destruct (left_outer v && re); cbn; [|by rewrite !app_nil_r].
    rewrite fmap_app. case_decide as E; [rewrite bool_decide_true by done|rewrite bool_decide_false by done];
      cbn; solve_Permutation.
  - destruct re; [done|]. injection Hsee as <-. cbn [se_le se_re se_ls se_rs].
    destruct (add_item_spec k x r l (right_outer v) (left_outer v) [] (λ x y, (y, x)) rs ls le Hr Hl)
      as (r' & He & Hr').
    exists l, r'. eexists. split.
    { change (keyed_outer_item v (mkJoinHash l r []) (BRight (k, x))) with
        (let '(r, buf) := add_item (k, x) r l (right_outer v) (left_outer v) [] (λ x y, (y, x)) in
         mkJoinHash l r buf). by rewrite He. }
    split; [by split|].
    unfold join_so_far. rewrite matched_snoc_right, alone_snoc, andb_false_r. cbn [fst].
    destruct (right_outer v && le); cbn; [|by rewrite !app_nil_r].
    rewrite fmap_app. case_decide as E; [rewrite bool_decide_true by done|rewrite bool_decide_false by done];
      cbn; solve_Permutation.
  - destruct le; [done|]. injection Hsee as <-. cbn [se_le se_re se_ls se_rs].
    destruct (side_ended_spec (right_outer v) l r [] pair ls rs re (left_outer v) Hl Hr)
      as (l' & r' & out & He & Ho & Hl' & Hr').
    exists l', r', out. split; [by injection He as <- <- <-|]. split; [by split|].
    unfold join_so_far. rewrite andb_true_r, andb_false_r, app_nil_r, Ho, <-app_assoc. done.
  - destruct re; [done|]. injection Hsee as <-. cbn [se_le se_re se_ls se_rs].
    destruct (side_ended_spec (left_outer v) r l [] (λ x y, (y, x)) rs ls le (right_outer v) Hr Hl)
      as (r' & l' & out & He & Ho & Hr' & Hl').
    exists l', r', out. split; [by injection He as <- <- <-|]. split; [by split|].
    unfold join_so_far. rewrite andb_true_r, andb_false_r, Ho. cbn. solve_Permutation.
Qed.

(** Data without timestamps, as a join takes and returns it. *)
Definition untimed {T} (e : StreamElement T) : Prop :=
  match e with Item _ | FlushBatch => True | _ => False end.

Lemma join_drain {A B} (process : JoinHash_state K L R → BinaryElement A B → JoinHash_state K L R)
    l r buf :
  runs (mkTransducer (JoinHash_state K L R) join_pop
          (λ self, join_control (process self) self) : transducer _ _)
    (mkJoinHash l r buf) [] (Item <$> buf) (mkJoinHash l r []).
Proof. induction buf as [|e buf IH]; [constructor|]. by eapply runs_ready. Qed.

(** The loop of either operator over the elements of a round. *)
Lemma join_consumes {A B} v (f : BinaryElement A B → BinaryElement (K * L) (K * R))
    (process : JoinHash_state K L R → BinaryElement A B → JoinHash_state K L R)
    s l r inp s' :
  (∀ self e, process self e = keyed_outer_item v self (f e)) →
  hash_at v s (mkJoinHash l r []) → see_all s (se_map f <$> inp) = Some s' →
  ∃ l' r' outs, consumes (mkTransducer (JoinHash_state K L R) join_pop
          (λ self, join_control (process self) self) : transducer _ _)
      (mkJoinHash l r []) inp outs (mkJoinHash l' r' []) ∧
    hash_at v s' (mkJoinHash l' r' []) ∧ Forall untimed outs ∧
    due v s ++ omap value outs ≡ₚ due v s'.
Proof.
  intros Hproc. revert s l r. induction inp as [|e inp IH]; intros s l r Hat Hsee.
  - injection Hsee as <-. exists l, r, []. split_and!; [apply consumes_nil|done|done|].
    by rewrite app_nil_r.
  - destruct e as [e| | | | |]; cbn in Hsee; try done.
    + destruct (see s (f e)) as [s1|] eqn:E; [|done].
      destruct (keyed_outer_item_spec v s l r (f e) s1 Hat E) as (l1 & r1 & out & Hp & Hat1 & Hd).
      destruct (IH s1 l1 r1 Hat1 Hsee) as (l' & r' & outs & Hc & Hat' & Hu & Hd').
      exists l', r', ((Item <$> out) ++ outs). split_and!; [|done| |].
      * eapply consumes_cons; [|exact Hc].
        eapply consumes_buffer; [done|cbn; by rewrite Hproc, Hp|apply join_drain].
      * apply Forall_app. split; [|done]. apply Forall_fmap. by apply Forall_true.
      * rewrite omap_app, <-Hd', <-Hd, <-app_assoc. f_equiv. f_equiv.
        clear. induction out as [|x out IH]; [done|]. cbn. by f_equiv.
    + destruct (IH s l r Hat Hsee) as (l' & r' & outs & Hc & Hat' & Hu & Hd').
      exists l', r', (FlushBatch :: outs). split_and!; [|done|by constructor|done].
      eapply (consumes_cons _ _ _ [FlushBatch]); [|exact Hc]. by apply consumes_return.
Qed.

Lemma join_restart_at v ls rs l r :
  hash_at v (mkSeen true true ls rs) (mkJoinHash l r []) →
  join_restart (mkJoinHash l r []) = Done JoinHash_new.
Proof.
  intros [[D1 K1 E1 C1] [D2 K2 E2 C2]]. cbn in *. rewrite andb_false_r in *.
  by rewrite D1, D2, K1, K2, E1, E2.
Qed.

Lemma hash_at_new v : hash_at v (mkSeen false false [] []) JoinHash_new.
Proof. split; apply side_at_default. Qed.

Lemma join_round_runs {A B} v (f : BinaryElement A B → BinaryElement (K * L) (K * R))
    (process : JoinHash_state K L R → BinaryElement A B → JoinHash_state K L R) inp ls rs :
  (∀ self e, process self e = keyed_outer_item v self (f e)) →
  binary_round (se_map f <$> inp) ls rs →
  ∃ outs, runs (mkTransducer (JoinHash_state K L R) join_pop
          (λ self, join_control (process self) self) : transducer _ _)
      JoinHash_new (inp ++ [FlushAndRestart]) (outs ++ [FlushAndRestart]) JoinHash_new ∧
    Forall untimed outs ∧ omap value outs ≡ₚ relational_join v ls rs.
Proof.
  intros Hproc Hr. destruct (join_consumes v f process _ _ _ inp _ Hproc (hash_at_new v) Hr)
    as (l' & r' & outs & Hc & Hat & Hu & Hd).
  exists outs. split_and!; [|done|].
  - apply Hc. eapply runs_return; [done| |constructor]. cbn [t_feed join_control].
    by rewrite (join_restart_at _ _ _ _ _ Hat).
  - rewrite <-Hd. cbn. destruct (left_outer v && false), (right_outer v && false); done.
Qed.

Lemma see_all_bmap {A B A' B'} (f : A → A') (g : B → B') l s s' :
  see_all s l = Some s' →
  see_all (mkSeen (se_le s) (se_re s) (f <$> se_ls s) (g <$> se_rs s)) (se_map (bmap f g) <$> l) =
  Some (mkSeen (se_le s') (se_re s') (f <$> se_ls s') (g <$> se_rs s')).
Proof.
  revert s. induction l as [|e l IH]; intros [le re ls rs] Hs; cbn in *.
  - by injection Hs as <-.
  - destruct e as [[x|x| |]| | | | |]; cbn in *; try done;
      try (destruct le; [done|]); try (destruct re; [done|]);
      apply IH in Hs; cbn in Hs; rewrite ?fmap_app in Hs; exact Hs.
Qed.
End hash_join.

Definition JoinLocalHash {K L R} `{Countable K} `{!HashOrder} (variant : JoinVariant)
    (keyer1 : L → K) (keyer2 : R → K) (prev : Operator (BinaryElement L R))
    : Operator (K * (option L * option R)) :=
  mkOperator _ (JoinLocalHash_next variant keyer1 keyer2 prev).
Definition JoinKeyedOuter {K L R} `{Countable K} `{!HashOrder} (variant : JoinVariant)
    (prev : Operator (BinaryElement (K * L) (K * R))) : Operator (K * (option L * option R)) :=
  mkOperator _ (JoinKeyedOuter_next variant prev).

(** The local hash join computes the relational join of the round: for every
    interleaving of the two sides, every order of the hash maps and every variant, it
    emits each matching pair once, with the unmatched items of the outer sides, none of
    its assertions fails, and it is back in its initial state at the end of the round. *)
Theorem JoinLocalHash_round {K L R} `{Countable K} `{!HashOrder} v (keyer1 : L → K)
    (keyer2 : R → K) (prev : Operator (BinaryElement L R)) `{!OperatorLaws prev} p l ls rs p' :
  binary_round l ls rs → emits prev p (l ++ [FlushAndRestart]) p' →
  ∃ outs, emits (JoinLocalHash v keyer1 keyer2 prev) (JoinHash_new, p)
      (outs ++ [FlushAndRestart]) (JoinHash_new, p') ∧
    Forall untimed outs ∧
    omap value outs ≡ₚ relational_join v ((λ x, (keyer1 x, x)) <$> ls) ((λ x, (keyer2 x, x)) <$> rs).
Proof.
  intros Hr Hp. destruct (join_round_runs v _ (local_hash_item v keyer1 keyer2) l
    ((λ x, (keyer1 x, x)) <$> ls) ((λ x, (keyer2 x, x)) <$> rs) (local_hash_keyed v keyer1 keyer2)
    (see_all_bmap _ _ _ _ _ Hr)) as (outs & Hruns & Hu & Hd).
  exists outs. split_and!; [|done..].
  by eapply (refines_emits prev (local_hash_join v keyer1 keyer2));
    [apply follows_refines; apply _| |].
Qed.

Lemma JoinLocalHash_round_witness :
  let l := [Item (BLeft 11); Item (BRight 25); FlushBatch; Item (BRight 21); Item RightEnd;
            Item (BLeft 14); Item LeftEnd] in
  ∃ outs, emits (@JoinLocalHash nat nat nat _ _ key_order Outer (λ x, x mod 10) (λ x, x mod 10)
        (FakeOperator _)) (JoinHash_new, l ++ [FlushAndRestart])
      (outs ++ [FlushAndRestart]) (JoinHash_new, []) ∧
    Forall untimed outs ∧
    omap value outs ≡ₚ [(1, (Some 11, Some 21)); (4, (Some 14, None)); (5, (None, Some 25))].
Proof.
  intros l. refine (@JoinLocalHash_round nat nat nat _ _ key_order Outer (λ x, x mod 10)
    (λ x, x mod 10) (FakeOperator _) _ _ l [11; 14] [25; 21] [] _ _).
  - reflexivity.
  - apply FakeOperator_emits_all.
Defined.

(** The keyed outer join, which inlines the same work, computes the same join. *)
Lemma JoinKeyedOuter_round {K L R} `{Countable K} `{!HashOrder} v
    (prev : Operator (BinaryElement (K * L) (K * R))) `{!OperatorLaws prev} p l ls rs p' :
  binary_round l ls rs → emits prev p (l ++ [FlushAndRestart]) p' →
  ∃ outs, emits (JoinKeyedOuter v prev) (JoinHash_new, p)
      (outs ++ [FlushAndRestart]) (JoinHash_new, p') ∧
    Forall untimed outs ∧ omap value outs ≡ₚ relational_join v ls rs.
Proof.
  intros Hr Hp. destruct (join_round_runs v id (keyed_outer_item v) l ls rs)
    as (outs & Hruns & Hu & Hd).
  - done.
  - assert (se_map id <$> l = l) as ->; [|done]. clear.
    induction l as [|[] l IH]; cbn; f_equal; done.
  - exists outs. split_and!; [|done..].
    by eapply (refines_emits prev (keyed_outer_join v)); [apply follows_refines; apply _| |].
Qed.

(** ** [JoinKeyedInner] *)
Record JoinInner_state (K L R : Type) `{Countable K} := mkJoinInner {
  ji_left : gmap K (list L); ji_right : gmap K (list R);
  ji_left_ended : bool; ji_right_ended : bool; ji_buffer : list (K * (L * R))
}.
Global Arguments mkJoinInner {_ _ _ _ _} _ _ _ _ _.
Global Arguments ji_left {_ _ _ _ _} _.
Global Arguments ji_right {_ _ _ _ _} _.
Global Arguments ji_left_ended {_ _ _ _ _} _.
Global Arguments ji_right_ended {_ _ _ _ _} _.
Global Arguments ji_buffer {_ _ _ _ _} _.

Section keyed_inner.
Context {K L R : Type} `{Countable K}.
Implicit Types self : JoinInner_state K L R.

(** [JoinKeyedInner::new]. *)
Definition JoinInner_new : JoinInner_state K L R := mkJoinInner ∅ ∅ false false [].

(** [JoinKeyedInner::process_item]. *)
Definition keyed_inner_item self (item : BinaryElement (K * L) (K * R)) : JoinInner_state K L R :=
  let 'mkJoinInner l r le re buf := self in
  match item with
  | BLeft (key, v1) =>
      let buf := match r !! key with
                 | Some rs => buf ++ ((λ v2, (key, (v1, v2))) <$> rs)
                 | None => buf
                 end in
      mkJoinInner (push_entry key v1 l) r le re buf
  | BRight (key, v2) =>
      let buf := match l !! key with
                 | Some ls => buf ++ ((λ v1, (key, (v1, v2))) <$> ls)
                 | None => buf
                 end in
      mkJoinInner l (push_entry key v2 r) le re buf
  | LeftEnd => if re then mkJoinInner ∅ ∅ true re buf else mkJoinInner l ∅ true re buf
  | RightEnd => if le then mkJoinInner ∅ ∅ le true buf else mkJoinInner ∅ r le true buf
  end.

(** The arms of [JoinKeyedInner::next]. *)
Definition inner_pop self : option (StreamElement (K * (L * R)) * JoinInner_state K L R) :=
  match ji_buffer self with
  | [] => None
  | item :: rest =>
      Some (Item item, mkJoinInner (ji_left self) (ji_right self) (ji_left_ended self)
                         (ji_right_ended self) rest)
  end.
Definition inner_control self (e : StreamElement (BinaryElement (K * L) (K * R)))
    : outcome (JoinInner_state K L R * option (StreamElement (K * (L * R)))) :=
  match e with
  | Item e => Done (keyed_inner_item self e, None)
  | FlushAndRestart =>
      rassert (bool_decide (ji_left self = ∅));; rassert (bool_decide (ji_right self = ∅));;
      Done (mkJoinInner (ji_left self) (ji_right self) false false (ji_buffer self),
            Some FlushAndRestart)
  | Terminate => Done (self, Some Terminate)
  | FlushBatch => Done (self, Some FlushBatch)
  | Watermark _ | Timestamped _ _ => Panicked
  end.

(** [JoinKeyedInner::next]. *)
Fixpoint JoinKeyedInner_next (prev : Operator (BinaryElement (K * L) (K * R)))
    (fuel : nat) (q : JoinInner_state K L R * op_state prev)
    : outcome (StreamElement (K * (L * R)) * (JoinInner_state K L R * op_state prev)) :=
  match fuel with
  | 0 => OutOfFuel
  | S fuel =>
      let '(self, p) := q in
      match inner_pop self with
      | Some (item, self) => Done (item, (self, p))
      | None =>
          '(e, p) ← op_next prev fuel p;
          '(self, o) ← inner_control self e;
          match o with
          | Some e => Done (e, (self, p))
          | None => JoinKeyedInner_next prev fuel (self, p)
          end
      end
  end.

Definition keyed_inner_join : transducer (BinaryElement (K * L) (K * R)) (K * (L * R)) :=
  mkTransducer (JoinInner_state K L R) inner_pop inner_control.
Global Instance JoinKeyedInner_follows prev :
  Follows prev keyed_inner_join (JoinKeyedInner_next prev).
Proof. constructor; [by intros []|]. reflexivity. Qed.

(** A side is complete as long as the other can still match it, and both are empty when
    both have ended. *)
Record inner_at (s : seen (K * L) (K * R)) self : Prop := {
  ia_left : se_re s = false → side_data (ji_left self) (se_ls s);
  ia_right : se_le s = false → side_data (ji_right self) (se_rs s);
  ia_empty : se_le s && se_re s = true → ji_left self = ∅ ∧ ji_right self = ∅;
  ia_le : ji_left_ended self = se_le s;
  ia_re : ji_right_ended self = se_re s;
  ia_buffer : ji_buffer self = []
}.
Definition some_pair (x : K * (L * R)) : K * (option L * option R) :=
  (x.1, (Some x.2.1, Some x.2.2)).

Lemma keyed_inner_item_spec s self e s' :
  inner_at s self → see s e = Some s' →
  ∃ self' out, keyed_inner_item self e =
      mkJoinInner (ji_left self') (ji_right self') (se_le s') (se_re s') out ∧
    inner_at s' self' ∧
    matched (se_ls s) (se_rs s) ++ (some_pair <$> out) ≡ₚ matched (se_ls s') (se_rs s').
Proof.
  destruct s as [le re ls rs], self as [l r le' re' buf].
  intros [D1 D2 De H1 H2 H3] Hsee. cbn in *. subst.
  destruct e as [[k x]|[k x]| |]; cbn in Hsee.
  - destruct le; [done|]. injection Hsee as <-. specialize (D2 eq_refl).
    exists (mkJoinInner (push_entry k x l) r false re []), ((λ v, (k, (x, v))) <$> side_values k rs).
    split_and!.
    + cbn. rewrite D2. by destruct (side_values k rs).
    + split; try done. intros Hre. by apply side_data_push, D1.
    + cbn [se_ls se_rs]. by rewrite matched_snoc_left, <-list_fmap_compose.
  - destruct re; [done|]. injection Hsee as <-. specialize (D1 eq_refl).
    exists (mkJoinInner l (push_entry k x r) le false []), ((λ v, (k, (v, x))) <$> side_values k ls).
    split_and!.
    + cbn. rewrite D1. by destruct (side_values k ls).
    + split; try done; cbn; [intros Hle; by apply side_data_push, D2|by rewrite andb_false_r].
    + cbn [se_ls se_rs]. by rewrite matched_snoc_right, <-list_fmap_compose.
  - destruct le; [done|]. injection Hsee as <-.
    exists (mkJoinInner (if re then ∅ else l) ∅ true re []), []. split_and!.
    + cbn. by destruct re.
    + split; try done; cbn; intros ->; auto.
    + cbn. by rewrite app_nil_r.
  - destruct re; [done|]. injection Hsee as <-.
    exists (mkJoinInner ∅ (if le then ∅ else r) le true []), []. split_and!.
    + cbn. by destruct le.
    + split; try done; cbn; [intros ->; auto|]. rewrite andb_true_r. by intros ->.
    + cbn. by rewrite app_nil_r.
Qed.

Lemma keyed_inner_consumes s self inp s' :
  inner_at s self → see_all s inp = Some s' →
  ∃ self' outs, consumes keyed_inner_join self inp outs self' ∧ inner_at s' self' ∧
    Forall untimed outs ∧
    matched (se_ls s) (se_rs s) ++ (some_pair <$> omap value outs) ≡ₚ
    matched (se_ls s') (se_rs s').
Proof.
  revert s self. induction inp as [|e inp IH]; intros s self Hat Hsee.
  - injection Hsee as <-. exists self, []. split_and!; [apply consumes_nil|done|done|].
    by rewrite app_nil_r.
  - assert (inner_pop self = None) as Hpop by (unfold inner_pop; by rewrite (ia_buffer _ _ Hat)).
    destruct e as [e| | | | |]; cbn in Hsee; try done.
    + destruct (see s e) as [s1|] eqn:E; [|done].
      destruct (keyed_inner_item_spec s self e s1 Hat E) as (self1 & out & Hp & Hat1 & Hd).
      destruct (IH s1 self1 Hat1 Hsee) as (self' & outs & Hc & Hat' & Hu & Hd').
      exists self', ((Item <$> out) ++ outs). split_and!; [|done| |].
      * eapply consumes_cons; [|exact Hc].
        eapply consumes_buffer; [done|cbn; by rewrite Hp|].
        destruct Hat1 as [_ _ _ Hle Hre Hbuf]. destruct self1 as [l1 r1 le1 re1 buf1]. cbn in *. subst.
        clear. induction out as [|x out IH]; [constructor|]. by eapply runs_ready.
      * apply Forall_app. split; [|done]. apply Forall_fmap. by apply Forall_true.
      * rewrite omap_app, fmap_app, <-Hd', <-Hd, <-app_assoc. f_equiv. f_equiv. f_equiv.
        clear. induction out as [|x out IH]; [done|]. cbn. by f_equiv.
    + destruct (IH s self Hat Hsee) as (self' & outs & Hc & Hat' & Hu & Hd').
      exists self', (FlushBatch :: outs). split_and!; [|done|by constructor|done].
      eapply (consumes_cons _ _ _ [FlushBatch]); [|exact Hc]. by apply consumes_return.
Qed.

(** A whole round, from the initial state to the initial state. *)
Lemma keyed_inner_round_runs l ls rs :
  binary_round l ls rs →
  ∃ outs, runs keyed_inner_join JoinInner_new (l ++ [FlushAndRestart]) (outs ++ [FlushAndRestart]) JoinInner_new ∧
    Forall untimed outs ∧ some_pair <$> omap value outs ≡ₚ relational_join Inner ls rs.
Proof.
  intros Hr. destruct (keyed_inner_consumes (mkSeen false false [] []) JoinInner_new l
    (mkSeen true true ls rs)) as (self' & outs & Hc & Hat & Hu & Hd).
  { split; try done; intros _; apply side_data_empty. }
  { exact Hr. }
  exists outs. split_and!; [|done|].
  - apply Hc. destruct Hat as [_ _ He H1 H2 H3], self' as [sl sr le re buf]. cbn in *. subst.
    destruct (He eq_refl) as [-> ->]. eapply runs_return; [done|done|constructor].
  - unfold relational_join, join_so_far. cbn in Hd |- *. by rewrite Hd, app_nil_r.
Qed.
End keyed_inner.

Definition JoinKeyedInner {K L R} `{Countable K} (prev : Operator (BinaryElement (K * L) (K * R)))
    : Operator (K * (L * R)) :=
  mkOperator _ (JoinKeyedInner_next prev).

(** The keyed inner join, which keeps no record of unmatched items, emits the relational
    inner join of the round, for every interleaving of the two sides, and is back in its
    initial state at the end of the round. *)
Theorem JoinKeyedInner_round {K L R} `{Countable K}
    (prev : Operator (BinaryElement (K * L) (K * R))) `{!OperatorLaws prev} p l ls rs p' :
  binary_round l ls rs → emits prev p (l ++ [FlushAndRestart]) p' →
  ∃ outs, emits (JoinKeyedInner prev) (JoinInner_new, p)
      (outs ++ [FlushAndRestart]) (JoinInner_new, p') ∧
    Forall untimed outs ∧
    some_pair <$> omap value outs ≡ₚ relational_join Inner ls rs.
Proof.
  intros Hr Hp. destruct (keyed_inner_round_runs l ls rs Hr) as (outs & Hruns & Hu & Hd).
  exists outs. split_and!; [|done..].
  by eapply (refines_emits prev keyed_inner_join); [apply follows_refines; apply _| |].
Qed.

Lemma JoinKeyedInner_round_witness :
  let l := [Item (BLeft (1, 11)); Item (BRight (5, 25)); Item (BRight (1, 21)); Item LeftEnd;
            FlushBatch; Item (BRight (1, 22)); Item RightEnd] in
  ∃ outs, emits (JoinKeyedInner (FakeOperator (BinaryElement (nat * nat) (nat * nat))))
      (JoinInner_new, l ++ [FlushAndRestart]) (outs ++ [FlushAndRestart]) (JoinInner_new, []) ∧
    Forall untimed outs ∧
    some_pair <$> omap value outs ≡ₚ
      [(1, (Some 11, Some 21)); (1, (Some 11, Some 22))].
Proof.
  intros l. refine (JoinKeyedInner_round (FakeOperator _) _ l [(1, 11)] [(5, 25); (1, 21); (1, 22)]
    [] _ _).
  - reflexivity.
  - apply FakeOperator_emits_all.
Defined.
