(* ===== verification/BinaryJoin.v ===== *)
(** * From two previous blocks to a join

    [BinaryStartReceiver], [Start] and the joins composed: whatever the interleaving of
    the two sides and of their replicas, the block joins what its two previous blocks
    have sent in the round. *)
From S2P Require Import Prelude StreamElement Operator Frontier Batcher Start BinaryStart Join.

(** ** Interleavings *)
Section interleaved.
Context {T : Type}.
Implicit Types l r : list (Coord * StreamElement T).
Abbreviation interleaving := (interleaved ((coord_default, FlushBatch) : Coord * StreamElement T)).

Lemma interleaved_from ps1 ps2 l1 l2 l :
  interleaving l1 l2 l → from_prevs ps1 l1 → from_prevs ps2 l2 → from_prevs (ps1 ++ ps2) l.
Proof.
  unfold from_prevs.
  induction 1 as [|x l1 l2 l _ IH|x l1 l2 l _ IH|l1 l2 l _ IH]; intros H1 H2; [constructor|..].
  - apply Forall_cons in H1 as [Hx H1]. constructor; [|by apply IH]. set_solver.
  - apply Forall_cons in H2 as [Hx H2]. constructor; [|by apply IH]. set_solver.
  - constructor; [by right|by apply IH].
Qed.

Lemma interleaved_elems_left c l1 l2 l :
  interleaving l1 l2 l → elems_of c l2 = [] → elems_of c l = elems_of c l1.
Proof.
  assert (∀ x l, elems_of c (x :: l) = elems_of c [x] ++ elems_of c l) as Hc
    by (intros x l'; apply (elems_of_app c [x] l')).
  induction 1 as [|x l1 l2 l _ IH|x l1 l2 l _ IH|l1 l2 l _ IH]; intros H2; [done|..].
  - by rewrite (Hc x l), (Hc x l1), IH.
  - rewrite Hc in H2. apply app_eq_nil in H2 as [Hx H2]. by rewrite Hc, Hx, IH.
  - rewrite Hc, IH by done. done.
Qed.

Lemma interleaved_sym (f : Coord * StreamElement T) l1 l2 l :
  interleaved f l1 l2 l → interleaved f l2 l1 l.
Proof. by induction 1; constructor. Qed.

Lemma interleaved_last (f : Coord * StreamElement T) (Q : Coord * StreamElement T → Prop) l1 l2 l x :
  interleaved f l1 l2 l → (∀ x, last l1 = Some x → Q x) → (∀ x, last l2 = Some x → Q x) →
  last l = Some x → Q x.
Proof.
  assert (∀ (a y : Coord * StreamElement T) l', last l' = Some y → last (a :: l') = Some y) as Hcons
    by (by intros a y [|? ?]).
  induction 1 as [|y l1 l2 l Hi IH|y l1 l2 l Hi IH|l1 l2 l Hi IH Hne]; intros H1 H2 Hx; [done|..].
  - destruct (last l) as [z|] eqn:E.
    + rewrite (Hcons _ _ _ E) in Hx. apply IH; [intros; apply H1; by apply Hcons|done|done].
    + apply last_None in E as ->. inversion Hi; subst. by apply H1.
  - destruct (last l) as [z|] eqn:E.
    + rewrite (Hcons _ _ _ E) in Hx. apply IH; [done|intros; apply H2; by apply Hcons|done].
    + apply last_None in E as ->. inversion Hi; subst. by apply H2.
  - destruct (last l) as [z|] eqn:E; [|by apply last_None in E].
    rewrite (Hcons _ _ _ E) in Hx. by apply IH.
Qed.
End interleaved.

(** ** Complete rounds of the two sides *)

(** The batches [ms] of a round of a block with replicas [prevs], delivered as [out]. *)
Record side_complete {A I} (wrap : A → I) (end_ : I) (prevs : list Coord)
    (ms : list (NetworkMessage A)) (out : list (Coord * StreamElement I)) : Prop := {
  sc_round : side_round wrap end_ (length prevs) ms out;
  sc_from : Forall (λ m, sender m ∈ prevs) ms;
  sc_each c : c ∈ prevs → ∃ d, elems_of c (raw ms) = d ++ [FlushAndRestart] ∧
    Forall (λ e, is_data e = true) d;
  sc_some : 0 < length prevs
}.

Lemma raw_silent {A} (prevs : list Coord) (ms : list (NetworkMessage A)) c :
  Forall (λ m, sender m ∈ prevs) ms → c ∉ prevs → elems_of c (raw ms) = [].
Proof.
  intros Hms Hc. induction Hms as [|m ms Hm _ IH]; [done|].
  rewrite raw_cons, elems_of_app, IH, app_nil_r. unfold tag. rewrite elems_of_tagged.
  case_decide; [by subst|done].
Qed.

Lemma binary_complete_round {L R} lp rp ml (ol : list (Coord * StreamElement (BinaryElement L R))) mr or r :
  NoDup (lp ++ rp) → side_complete BLeft LeftEnd lp ml ol → side_complete BRight RightEnd rp mr or →
  interleaved (coord_default, FlushBatch) ol or r → complete_round (lp ++ rp) r.
Proof.
  intros Hnd [Rl Fl El Nl] [Rr Fr Er Nr] Hi. apply NoDup_app in Hnd as (_ & Hdisj & _). split.
  - eapply interleaved_from; [done|by eapply side_round_from..].
  - destruct r as [|x r _] using rev_ind.
    { exfalso. inversion Hi; subst. by apply (side_round_ne _ _ _ _ _ Rl Nl). }
    exists r, x.1. assert (x.2 = FlushAndRestart) as Hx.
    { eapply (interleaved_last _ (λ x, x.2 = FlushAndRestart)); [exact Hi| | |apply last_snoc].
      - intros y. by apply (side_round_last _ _ _ _ _ _ Rl).
      - intros y. by apply (side_round_last _ _ _ _ _ _ Rr). }
    destruct x as [c e]. cbn in *. by subst.
  - intros c [Hc|Hc]%elem_of_app.
    + rewrite (interleaved_elems_left c ol or r Hi).
      * destruct (El c Hc) as (d & Ed & Hd). by eapply side_round_each.
      * eapply side_round_silent; [exact Rr|]. eapply raw_silent; [exact Fr|]. by apply Hdisj.
    + rewrite (interleaved_elems_left c or ol r (interleaved_sym _ _ _ _ Hi)).
      * destruct (Er c Hc) as (d & Ed & Hd). by eapply side_round_each.
      * eapply side_round_silent; [exact Rl|]. eapply raw_silent; [exact Fl|].
        intros ?. by eapply Hdisj.
Qed.

(** ** What the block downstream sees *)

(** The items of a side, as a suffix of its round. *)
Definition side_items {X I} (wrap : X → I) (end_ : I) (ended : bool) (xs : list X)
    (l : list (Coord * StreamElement I)) : Prop :=
  List.filter is_item (l.*2) =
  if ended then [] else ((λ x, Item (wrap x)) <$> xs) ++ [Item end_].

Lemma interleaved_seen {L R} l1 l2 l le re (xs : list L) (ys : list R) ls rs :
  interleaved (coord_default, FlushBatch) l1 l2 l →
  side_items BLeft LeftEnd le xs l1 → side_items BRight RightEnd re ys l2 →
  see_all (mkSeen le re ls rs) (List.filter is_item (l.*2)) =
  Some (mkSeen true true (if le then ls else ls ++ xs) (if re then rs else rs ++ ys)).
Proof.
  intros Hi. revert le re xs ys ls rs.
  induction Hi as [|[c e] l1 l2 l _ IH|[c e] l1 l2 l _ IH|l1 l2 l _ IH]; intros le re xs ys ls rs H1 H2.
  - unfold side_items in *. cbn in *. destruct le; [|by destruct xs]. by destruct re; [|destruct ys].
  - unfold side_items in H1. cbn in H1 |- *. destruct (is_item e) eqn:E; [|by eapply IH].
    destruct le; [done|]. destruct xs as [|x xs]; cbn in H1; injection H1 as -> H1; cbn.
    + rewrite app_nil_r. exact (IH true re [] ys ls rs H1 H2).
    + rewrite (IH false re xs ys (ls ++ [x]) rs H1 H2). by rewrite <-app_assoc.
  - unfold side_items in H2. cbn in H2 |- *. destruct (is_item e) eqn:E; [|by eapply IH].
    destruct re; [done|]. destruct ys as [|y ys]; cbn in H2; injection H2 as -> H2; cbn.
    + rewrite app_nil_r. exact (IH le true xs [] ls rs H1 H2).
    + rewrite (IH le false xs ys ls (rs ++ [y]) H1 H2). by rewrite <-app_assoc.
  - by eapply IH.
Qed.

(** What [see_all] finds does not depend on the [FlushBatch]es. *)
Lemma see_all_items {A B} (outs : list (StreamElement (BinaryElement A B))) s s' :
  Forall (λ e, is_data e = true) outs → omap watermark_ts outs = [] →
  see_all s (List.filter is_item outs) = Some s' → see_all s outs = Some s'.
Proof.
  intros Hd. revert s. induction Hd as [|e outs He _ IH]; intros s Hw Hs; [done|].
  destruct e as [e| | | | |]; cbn in *; try done; [|by apply IH].
  destruct (see s e); [by apply IH|done].
Qed.

(** Streams without timestamps. *)
Definition untimed_batches {A} (ms : list (NetworkMessage A)) : Prop :=
  Forall (λ m, Forall (λ e, match e with Item _ | FlushBatch | FlushAndRestart => True
                            | _ => False end) (data m)) ms.

Lemma untimed_items {A I} (wrap : A → I) end_ n ms out :
  side_round wrap end_ n ms out → 0 < n → untimed_batches ms →
  side_items wrap end_ false (omap value ((raw ms).*2)) out ∧ omap watermark_ts (out.*2) = [].
Proof.
  intros Hr Hn Hu.
  assert (Forall (λ e, match e with Item _ | FlushBatch | FlushAndRestart => True | _ => False end)
    ((raw ms).*2)) as Hraw.
  { clear Hr. induction Hu as [|m ms Hm _ IH]; [constructor|]. rewrite raw_cons, fmap_app.
    apply Forall_app. split; [|done]. unfold tag. rewrite <-list_fmap_compose. by rewrite list_fmap_id. }
  split.
  - unfold side_items. rewrite (side_round_items _ _ _ _ _ Hr Hn). f_equal. clear Hr Hu.
    induction Hraw as [|e l He _ IH]; [done|]. destruct e; cbn; try done. cbn. by f_equal.
  - clear Hn Hraw. induction Hr as [|n m ms out Hd Hr IH|n m d ms out Hm Hd Hr IH]; [done| |];
      apply Forall_cons in Hu as [Hum Hu]; rewrite fmap_app, omap_app, IH, app_nil_r by done;
      unfold tagged; rewrite <-list_fmap_compose; rewrite list_fmap_id.
    + clear Hd Hr IH. induction Hum as [|e l He _ IHl]; [done|]. by destruct e.
    + rewrite Hm in Hum. apply Forall_app in Hum as [Hum _]. rewrite !omap_app.
      assert (omap watermark_ts (se_map wrap <$> d) = []) as ->.
      { clear Hm Hd. induction Hum as [|e l He _ IHl]; [done|]. by destruct e. }
      by destruct (n =? 0).
Qed.

(** ** The round of the block *)
Section block.
Context {L R : Type} `{!TypeId L, !TypeId R}.
Context (delay : option Duration) (lp rp : list Coord) (lid rid : BlockId) (tl tr : nat).
Context (Htl : 0 < tl) (Htr : 0 < tr).

(** The receiving side of the block before a round: [fresh] before the first, and with
    both sides ended before the others; [cl] and [cr] are still to be received. *)
Definition binary_rx (fresh : bool) cl cr fm ps b timed_out
    : Start_rx (BinaryStartReceiver L R) (BinaryElement L R) :=
  mkStartRx delay
    (mkBinaryReceiver
       (plain_side cl lp lid (length lp) (if fresh then length lp else 0) tl)
       (plain_side cr rp rid (length rp) (if fresh then length rp else 0) tr) fm ps) b timed_out.

(** The first [select] of a round resets the sides that ended the last one. *)
Lemma select_reset timeout cl cr fm ps b timed_out :
  0 < length lp → 0 < length rp →
  select timeout (rx_receiver (binary_rx false cl cr fm ps b timed_out)) =
  select timeout (rx_receiver (binary_rx true cl cr true ps b timed_out)).
Proof.
  intros Hl Hr. unfold binary_rx. cbn [rx_receiver].
  assert (length lp =? 0 = false) as El by (apply Nat.eqb_neq; lia).
  assert (length rp =? 0 = false) as Er by (apply Nat.eqb_neq; lia).
  assert (tl =? 0 = false) as Etl by (apply Nat.eqb_neq; lia).
  unfold select, is_terminated, is_ended.
  cbn [bs_left bs_right cached plain_side sd_missing_flush_and_restart sd_missing_terminate].
  rewrite El, Er, Etl. done.
Qed.

Lemma binary_rx_reset cl cr fm ps b c timed_out l rx' :
  0 < length lp → 0 < length rp → b = None ∨ b = Some (c, []) → l ≠ [] →
  emits incoming (binary_rx true cl cr true ps b timed_out) l rx' →
  emits incoming (binary_rx false cl cr fm ps b timed_out) l rx'.
Proof.
  intros Hl Hr Hb Hne He. eapply (rx_same_emits _ _ c); [|exact Hb| |done|exact He]; [done|].
  pose proof (λ t, select_reset t cl cr fm ps b timed_out Hl Hr) as Hs.
  unfold Start_receive, set_batch. cbn [already_timed_out max_delay_rx rx_receiver binary_rx].
  unfold binary_rx in Hs. cbn [rx_receiver] in Hs.
  destruct timed_out, delay; cbn [recv_timeout recv BinaryStartReceiver_receiver]; by rewrite Hs.
Qed.

Lemma binary_round_emits fresh cl cr restl restr ol or fm ps b timed_out :
  side_complete BLeft LeftEnd lp (arrivals cl) ol →
  side_complete BRight RightEnd rp (arrivals cr) or →
  b = None ∨ (∃ c, b = Some (c, [])) →
  ∃ r cl' cr' fm' ps' b' timed_out',
    emits incoming (binary_rx fresh (cl ++ restl) (cr ++ restr) fm ps b timed_out) r
      (binary_rx false (cl' ++ restl) (cr' ++ restr) fm' ps' b' timed_out') ∧
    interleaved (coord_default, FlushBatch) ol or r ∧ arrivals cl' = [] ∧ arrivals cr' = [] ∧
    (b' = None ∨ ∃ c, b' = Some (c, [])).
Proof.
  intros Hl Hr Hb.
  destruct (binary_emits delay lp rp lid rid (length lp) (length rp) tl tr restl restr Htl Htr
    cl (length lp) ol cr (length rp) or (if fresh then fm else true) ps b timed_out)
    as (r & cl' & cr' & ps' & b' & to' & He & Hi & Ha1 & Ha2 & Hb'); [apply Hl|apply Hr|done|].
  exists r, cl', cr', (if fresh then fm else true), ps', b', to'. split_and!; [|done..].
  destruct fresh; [exact He|].
  eapply (binary_rx_reset _ _ _ _ _ (match b with Some (c, _) => c | None => coord_default end));
    [apply Hl|apply Hr| | |exact He].
  - destruct Hb as [->|(c & ->)]; auto.
  - intros ->. assert (ol = []) as E by (by inversion Hi).
    by apply (side_round_ne _ _ _ _ _ (sc_round _ _ _ _ _ Hl) (sc_some _ _ _ _ _ Hl)).
Qed.
End block.

(** A block with two inputs and no cache, from its two channels to its operators: for
    any choices of [select], any timeouts and any interleaving of the replicas, the first
    or a later round delivers all the items of the left block and of the right block, in
    the order of their channels, announces the end of each side exactly once and after its
    last item, emits one [FlushAndRestart], takes nothing beyond the round from either
    channel, and leaves the block ready for the next round. *)
Lemma binary_block_round {L R} `{!TypeId L, !TypeId R} state_lock delay lp rp lid rid tl tr
    fresh cl cr restl restr ol or fm ps b timed_out s :
  lock_live state_lock → NoDup (lp ++ rp) → round_start (lp ++ rp) s → 0 < tl → 0 < tr →
  side_complete (I := BinaryElement L R) BLeft LeftEnd lp (arrivals cl) ol →
  side_complete (I := BinaryElement L R) BRight RightEnd rp (arrivals cr) or →
  untimed_batches (arrivals cl) → untimed_batches (arrivals cr) →
  b = None ∨ (∃ c, b = Some (c, [])) →
  ∃ outs s' cl' cr' fm' ps' b' timed_out',
    emits (Start state_lock)
      (s, binary_rx delay lp rp lid rid tl tr fresh (cl ++ restl) (cr ++ restr) fm ps b timed_out)
      (outs ++ [FlushAndRestart])
      (s', binary_rx delay lp rp lid rid tl tr false (cl' ++ restl) (cr' ++ restr) fm' ps' b' timed_out') ∧
    arrivals cl' = [] ∧ arrivals cr' = [] ∧ (b' = None ∨ ∃ c, b' = Some (c, [])) ∧
    round_start (lp ++ rp) s' ∧
    binary_round outs (omap value ((raw (arrivals cl)).*2)) (omap value ((raw (arrivals cr)).*2)).
Proof.
  intros Hlock Hnd Hs Htl Htr Hl Hr Hul Hur Hb.
  destruct (binary_round_emits delay lp rp lid rid tl tr Htl Htr fresh cl cr restl restr ol or fm ps b
    timed_out Hl Hr Hb) as (r & cl' & cr' & fm' & ps' & b' & to' & He & Hi & Ha1 & Ha2 & Hb').
  destruct (Start_round_runs state_lock (lp ++ rp) s r Hlock Hnd Hs) as (outs & s' & Hruns & Hs' & Hout).
  { by eapply binary_complete_round. }
  exists outs, s', cl', cr', fm', ps', b', to'. split_and!; [|done..|].
  - by eapply (refines_emits incoming (starting state_lock)); [apply Start_refines| |].
  - destruct (untimed_items _ _ _ _ _ (sc_round _ _ _ _ _ Hl) (sc_some _ _ _ _ _ Hl) Hul) as [Il Wl].
    destruct (untimed_items _ _ _ _ _ (sc_round _ _ _ _ _ Hr) (sc_some _ _ _ _ _ Hr) Hur) as [Ir Wr].
    apply see_all_items; [apply Hout| |].
    + apply (ro_untimed _ _ _ Hout). clear -Hi Wl Wr.
      induction Hi as [|[c e] l1 l2 l _ IH|[c e] l1 l2 l _ IH|l1 l2 l _ IH]; [done|..]; cbn in *;
        [destruct (watermark_ts e)..|]; naive_solver.
    + rewrite (ro_items _ _ _ Hout).
      exact (interleaved_seen ol or r false false _ _ [] [] Hi Il Ir).
Qed.

(** A distributed join, from the channels of its two previous blocks to its output: for
    any choices of [select], any timeouts, any interleaving of the replicas of the two
    blocks and any order of the hash maps, a round of the block emits exactly the
    relational join (inner, left or full outer) of the items the two blocks sent in the
    round and one [FlushAndRestart], and leaves the block ready for the next round with
    nothing beyond the round taken from either channel. *)
Theorem binary_hash_join {K L R} `{Countable K, !HashOrder, !TypeId L, !TypeId R} v
    (keyer1 : L → K) (keyer2 : R → K) state_lock delay lp rp lid rid tl tr
    fresh cl cr restl restr ol or fm ps b timed_out s :
  lock_live state_lock → NoDup (lp ++ rp) → round_start (lp ++ rp) s → 0 < tl → 0 < tr →
  side_complete (I := BinaryElement L R) BLeft LeftEnd lp (arrivals cl) ol →
  side_complete (I := BinaryElement L R) BRight RightEnd rp (arrivals cr) or →
  untimed_batches (arrivals cl) → untimed_batches (arrivals cr) →
  b = None ∨ (∃ c, b = Some (c, [])) →
  ∃ outs s' cl' cr' fm' ps' b' timed_out',
    emits (JoinLocalHash v keyer1 keyer2 (Start state_lock))
      (JoinHash_new,
       (s, binary_rx delay lp rp lid rid tl tr fresh (cl ++ restl) (cr ++ restr) fm ps b timed_out))
      (outs ++ [FlushAndRestart])
      (JoinHash_new,
       (s', binary_rx delay lp rp lid rid tl tr false (cl' ++ restl) (cr' ++ restr) fm' ps' b' timed_out')) ∧
    arrivals cl' = [] ∧ arrivals cr' = [] ∧ (b' = None ∨ ∃ c, b' = Some (c, [])) ∧
    round_start (lp ++ rp) s' ∧
    omap value outs ≡ₚ relational_join v
      ((λ x, (keyer1 x, x)) <$> omap value ((raw (arrivals cl)).*2))
      ((λ x, (keyer2 x, x)) <$> omap value ((raw (arrivals cr)).*2)).
Proof.
  intros Hlock Hnd Hs Htl Htr Hl Hr Hul Hur Hb.
  destruct (binary_block_round state_lock delay lp rp lid rid tl tr fresh cl cr restl restr ol or fm
    ps b timed_out s Hlock Hnd Hs Htl Htr Hl Hr Hul Hur Hb)
    as (mid & s' & cl' & cr' & fm' & ps' & b' & to' & He & Ha1 & Ha2 & Hb' & Hs' & Hround).
  destruct (join_round_runs v _ (local_hash_item v keyer1 keyer2) mid _ _
    (local_hash_keyed v keyer1 keyer2) (see_all_bmap _ _ _ _ _ Hround)) as (outs & Hruns & _ & Hd).
  exists outs, s', cl', cr', fm', ps', b', to'. split_and!; [|done..].
  by eapply (refines_emits (Start state_lock) (local_hash_join v keyer1 keyer2));
    [apply follows_refines; apply _| |].
Qed.

(** One left replica and two right replicas, a timeout, and a first round. *)
Module JoinExample.
Definition a : Coord := mkCoord 0 0 0.
Definition b : Coord := mkCoord 1 0 0.
Definition c : Coord := mkCoord 1 0 1.
Global Instance nat_type : TypeId nat := 0%N.
Definition cl : channel nat :=
  [Arrive (new_batch [Item 11] a); Elapse; Arrive (new_batch [Item 14; FlushAndRestart] a)].
Definition cr : channel nat :=
  [Arrive (new_batch [Item 25] b); Arrive (new_batch [Item 21; FlushAndRestart] c);
   Arrive (new_batch [FlushAndRestart] b)].
Definition core : Start_core :=
  mkStartCore (Some (mkCoord 2 0 0)) 3 3 3 false (WatermarkFrontier_new [a; b; c]) false 0.
End JoinExample.

Lemma binary_hash_join_witness :
  ∃ outs s' cl' cr' fm' ps' b' timed_out',
    emits (@JoinLocalHash nat nat nat _ _ key_order Outer (λ x, x mod 10) (λ x, x mod 10) (Start None))
      (JoinHash_new, (JoinExample.core,
         binary_rx (Some 5%Z) [JoinExample.a] [JoinExample.b; JoinExample.c] 0%N 1%N 1 2 true
           (JoinExample.cl ++ []) (JoinExample.cr ++ []) false [false; true; false] None false))
      (outs ++ [FlushAndRestart])
      (JoinHash_new, (s',
         binary_rx (Some 5%Z) [JoinExample.a] [JoinExample.b; JoinExample.c] 0%N 1%N 1 2 false
           (cl' ++ []) (cr' ++ []) fm' ps' b' timed_out')) ∧
    arrivals cl' = [] ∧ arrivals cr' = [] ∧ (b' = None ∨ ∃ c, b' = Some (c, [])) ∧
    round_start ([JoinExample.a] ++ [JoinExample.b; JoinExample.c]) s' ∧
    omap value outs ≡ₚ [(1, (Some 11, Some 21)); (4, (Some 14, None)); (5, (None, Some 25))].
Proof.
  refine (@binary_hash_join nat nat nat _ _ key_order _ _ Outer (λ x, x mod 10) (λ x, x mod 10) None
    (Some 5%Z) [JoinExample.a] [JoinExample.b; JoinExample.c] 0%N 1%N 1 2 true
    JoinExample.cl JoinExample.cr [] [] _ _ false [false; true; false] None false JoinExample.core
    _ _ _ _ _ _ _ _ _ _).
  - done.
  - apply (bool_decide_unpack _). vm_compute. exact I.
  - split; [by eexists|done..|apply frontier_at_new].
  - lia.
  - lia.
  - split; [|by repeat constructor| |cbn; lia].
    + apply sr_data; [by repeat constructor|]. eapply (sr_end _ _ _ _ [Item 14]); [done| |constructor].
      by repeat constructor.
    + intros c ->%list_elem_of_singleton. exists [Item 11; Item 14]. split; [done|by repeat constructor].
  - split; [|repeat constructor; apply (bool_decide_unpack _); vm_compute; exact I| |cbn; lia].
    + apply sr_data; [by repeat constructor|].
      eapply (sr_end _ _ _ _ [Item 21]); [done|by repeat constructor|].
      eapply (sr_end _ _ _ _ []); [done|constructor|constructor].
    + intros c Hc. apply elem_of_cons in Hc as [Hc|Hc%list_elem_of_singleton]; subst c.
      * exists [Item 25]. split; [done|by repeat constructor].
      * exists [Item 21]. split; [done|by repeat constructor].
  - by repeat constructor.
  - by repeat constructor.
  - by left.
Defined.
