(* ===== verification/BinaryFinal.v ===== *)
(** * The last round of a block with two inputs

    [BinaryStart.v] follows a round of [BinaryStartReceiver] up to its [FlushAndRestart]s.
    Here is the last one: every replica of the two sides sends its items, [FlushAndRestart]
    and [Terminate], and a [Terminate] may arrive before the [FlushAndRestart] of another
    replica.  The receiver stops reading a side that has ended, resets when both have, and
    then reads what is left. *)
From S2P Require Import Prelude StreamElement Operator Folds Frontier Batcher Start End Shuffle Exchange.
From S2P Require Import BinaryStart Join BinaryJoin.

Definition is_far {A} (e : StreamElement A) : bool := match e with FlushAndRestart => true | _ => false end.
Definition is_term {A} (e : StreamElement A) : bool := match e with Terminate => true | _ => false end.

(** ** What is left of a side *)
Section side.
Context {A : Type}.
Implicit Types r : list (Coord * StreamElement A).

Definition fars r : nat := length (base.filter (λ x, is_far x.2 = true) r).
Definition terms r : nat := length (base.filter (λ x, is_term x.2 = true) r).
Definition of_sender c r : list (StreamElement A) := (base.filter (λ x, x.1 = c) r).*2.

(** What is left of the stream of a replica. *)
Definition ending (l : list (StreamElement A)) : Prop :=
  (∃ d, l = (Item <$> d) ++ [FlushAndRestart; Terminate]) ∨ l = [Terminate] ∨ l = [].
Lemma ending_tail e l : ending (e :: l) → ending l.
Proof.
  intros [[[|x d] E]|[E|E]]; cbn in E; [injection E as -> ->|injection E as -> ->|injection E as -> ->|done].
  - right. by left.
  - left. by exists d.
  - by right; right.
Qed.

Record side_left (cs : list Coord) r : Prop := {
  sl_from : Forall (λ x, x.1 ∈ cs) r;
  sl_each c : c ∈ cs → ending (of_sender c r)
}.
Lemma side_left_tail cs x r : side_left cs (x :: r) → side_left cs r.
Proof.
  intros [Hf He]. apply Forall_cons in Hf as [_ Hf]. split; [done|]. intros c Hc. specialize (He c Hc).
  unfold of_sender in He |- *. rewrite filter_cons in He. case_decide; [|done]. by eapply ending_tail.
Qed.
Lemma side_left_head cs c e r :
  side_left cs ((c, e) :: r) → (∃ x, e = Item x) ∨ e = FlushAndRestart ∨ e = Terminate.
Proof.
  intros [Hf He]. apply Forall_cons in Hf as [Hc _]. specialize (He c Hc). unfold of_sender in He.
  rewrite filter_cons_True in He by done. cbn in He.
  destruct He as [[[|x d] E]|[E|E]]; cbn in E; try done; injection E as -> _; eauto.
Qed.
Lemma side_left_app cs r1 r2 : side_left cs (r1 ++ r2) → side_left cs r2.
Proof. induction r1 as [|x r1 IH]; [done|]. intros H. by apply IH, (side_left_tail _ x). Qed.

(** A replica that has not sent its [FlushAndRestart] has not sent its [Terminate] either. *)
Lemma side_left_counts cs r : NoDup cs → side_left cs r → fars r ≤ terms r.
Proof.
  intros Hnd [Hf He]. unfold fars, terms.
  assert (∀ P : Coord * StreamElement A → Prop, ∀ `{∀ x, Decision (P x)},
    length (base.filter P r) = length (base.filter P (concat ((λ c, base.filter (λ x, x.1 = c) r) <$> cs)))) as Hp.
  { intros P ?. apply Permutation_length, filter_Permutation. by apply partition_by. }
  rewrite (Hp (λ x, is_far x.2 = true)), (Hp (λ x, is_term x.2 = true)). clear Hp Hf Hnd.
  induction cs as [|c cs IH]; [done|]. cbn [fmap list_fmap concat]. rewrite !filter_app, !length_app.
  apply Nat.add_le_mono; [|apply IH; intros; apply He; by right].
  assert (∀ l : list (Coord * StreamElement A), ending l.*2 →
    length (base.filter (λ x, is_far x.2 = true) l) ≤ length (base.filter (λ x, is_term x.2 = true) l)) as Hl.
  { intros l [[d E]|[E|E]].
    - revert d E. induction l as [|[c' e] l IHl]; intros [|x d] E; cbn in E; [done..|injection E as -> E|injection E as -> E].
      + destruct l as [|[c1 e1] [|? ?]]; cbn in E; try done. injection E as ->. done.
      + rewrite !filter_cons_False by done. by eapply IHl.
    - destruct l as [|[c1 e1] [|? ?]]; cbn in E; try done. injection E as ->. rewrite filter_cons_False by done. rewrite filter_nil. cbn. lia.
    - by destruct l. }
  apply Hl, He. by left.
Qed.
Lemma side_left_done cs r : side_left cs r → terms r = 0 → r = [].
Proof.
  intros [Hf He] Ht. destruct r as [|[c e] r]; [done|]. exfalso. apply Forall_cons in Hf as [Hc _]. specialize (He c Hc).
  assert (Terminate ∈ of_sender c ((c, e) :: r)) as Hin.
  { unfold of_sender in He |- *. rewrite filter_cons_True in He |- * by done. cbn in He |- *.
    destruct He as [[d E]|[E|E]]; [| |done]; rewrite E; set_solver. }
  unfold of_sender in Hin. apply list_elem_of_fmap in Hin as ([c' e'] & Ee & [_ Hin]%list_elem_of_filter).
  cbn in Ee. subst e'.
  unfold terms in Ht. apply length_zero_iff_nil in Ht.
  assert ((c', Terminate) ∈ base.filter (λ x, is_term x.2 = true) ((c, e) :: r)) as Hx by (by apply list_elem_of_filter).
  rewrite Ht in Hx. by apply elem_of_nil in Hx.
Qed.
(** When all have sent [FlushAndRestart], only [Terminate]s are left. *)
Lemma side_left_terms cs r : side_left cs r → fars r = 0 → Forall (λ x, x.2 = Terminate) r.
Proof.
  induction r as [|[c e] r IH]; intros H Hn; [constructor|]. constructor.
  - cbn. destruct H as [Hf He]. apply Forall_cons in Hf as [Hc _]. specialize (He c Hc). unfold of_sender in He.
    rewrite filter_cons_True in He by done. cbn in He. destruct He as [[d E]|[E|E]]; [|by injection E as ->|done].
    exfalso. unfold fars in Hn. apply length_zero_iff_nil in Hn.
    assert (FlushAndRestart ∈ e :: (base.filter (λ x, x.1 = c) r).*2) as Hin by (rewrite E; set_solver).
    assert (∃ c', (c', FlushAndRestart) ∈ (c, e) :: r) as [c' Hc'].
    { apply elem_of_cons in Hin as [<-|Hin]; [exists c; by left|].
      apply list_elem_of_fmap in Hin as ([c' e'] & Ee & [_ ?]%list_elem_of_filter). cbn in Ee. subst e'. exists c'. by right. }
    assert ((c', FlushAndRestart) ∈ base.filter (λ x, is_far x.2 = true) ((c, e) :: r)) as Hx by (by apply list_elem_of_filter).
    rewrite Hn in Hx. by apply elem_of_nil in Hx.
  - apply IH; [by eapply side_left_tail|]. unfold fars in Hn |- *. rewrite filter_cons in Hn. by case_decide.
Qed.
Lemma fars_cons x r : fars (x :: r) = (if is_far x.2 then 1 else 0) + fars r.
Proof. unfold fars. rewrite filter_cons. case_decide as Hf; [by rewrite Hf|]. apply not_true_is_false in Hf. by rewrite Hf. Qed.
Lemma terms_cons x r : terms (x :: r) = (if is_term x.2 then 1 else 0) + terms r.
Proof. unfold terms. rewrite filter_cons. case_decide as Hf; [by rewrite Hf|]. apply not_true_is_false in Hf. by rewrite Hf. Qed.
Lemma fars_app r1 r2 : fars (r1 ++ r2) = fars r1 + fars r2.
Proof. unfold fars. by rewrite filter_app, length_app. Qed.
Lemma terms_app r1 r2 : terms (r1 ++ r2) = terms r1 + terms r2.
Proof. unfold terms. by rewrite filter_app, length_app. Qed.
End side.

(** ** What a side delivers *)
Section out.
Context {A I : Type} `{!TypeId A} (wrap : A → I) (end_ : I).

(** [n]: the replicas that have not sent [FlushAndRestart] yet. *)
Definition elem_out (n : nat) (e : StreamElement A) : list (StreamElement I) :=
  (if is_far e && (n =? 1) then [Item end_] else []) ++ [se_map wrap e].
Definition after (n : nat) (e : StreamElement A) : nat := if is_far e then n - 1 else n.
Fixpoint side_out (n : nat) (r : list (Coord * StreamElement A)) : list (Coord * StreamElement I) :=
  match r with
  | [] => []
  | (c, e) :: r => tagged c (elem_out n e) ++ side_out (after n e) r
  end.

Lemma side_out_app n r1 r2 :
  side_out n (r1 ++ r2) = side_out n r1 ++ side_out (n - fars r1) r2.
Proof.
  revert n. induction r1 as [|[c e] r1 IH]; intros n; cbn [app side_out]; [by rewrite Nat.sub_0_r|].
  rewrite IH, app_assoc, fars_cons. f_equal. f_equal. unfold after. cbn [snd]. destruct (is_far e); lia.
Qed.
Lemma side_out_ne n r : r ≠ [] → side_out n r ≠ [].
Proof. destruct r as [|[c e] r]; [done|]. intros _. cbn. unfold tagged, elem_out. by destruct (is_far e && _). Qed.
Lemma side_out_terms n n' r : Forall (λ x, x.2 = Terminate) r → side_out n r = side_out n' r.
Proof. induction 1 as [|[c e] r He _ IH]; [done|]. cbn in He. subst e. cbn. by f_equal. Qed.

Lemma process_element_out n t e :
  (is_far e = true → 0 < n) → (is_term e = true → 0 < t) →
  process_element false wrap end_ n t e =
  Done (after n e, if is_term e then t - 1 else t, elem_out n e).
Proof.
  intros Hn Ht. unfold process_element, elem_out, after. destruct e; cbn in *; try done.
  - unfold usize_sub. rewrite decide_True by (by apply Ht). done.
  - unfold usize_sub. rewrite decide_True by (by apply Hn). cbn.
    destruct n as [|[|n]]; [by specialize (Hn eq_refl); lia|done|done].
Qed.
Lemma process_batch_out c n t l :
  fars (tagged (I := A) c l) ≤ n → terms (tagged (I := A) c l) ≤ t →
  ∃ o, process_batch false wrap end_ n t l =
      Done (n - fars (tagged (I := A) c l), t - terms (tagged (I := A) c l), o) ∧
    tagged c o = side_out n (tagged (I := A) c l).
Proof.
  revert n t. induction l as [|e l IH]; intros n t Hn Ht.
  - exists []. cbn. by rewrite !Nat.sub_0_r.
  - unfold tagged in *. cbn [fmap list_fmap] in *. rewrite fars_cons, terms_cons in *. cbn [snd] in *.
    cbn [process_batch]. rewrite process_element_out; [|intros E; rewrite E in Hn; lia|intros E; rewrite E in Ht; lia].
    cbn [mbind outcome_bind].
    destruct (IH (after n e) (if is_term e then t - 1 else t)) as (o & E & Eo).
    { unfold after. destruct (is_far e); lia. }
    { destruct (is_term e); lia. }
    exists (elem_out n e ++ o). rewrite E. cbn [mbind outcome_bind]. split.
    + do 3 f_equal; [unfold after; destruct (is_far e); lia|destruct (is_term e); lia].
    + rewrite fmap_app, Eo. done.
Qed.

Lemma process_side_out ch prevs id k n t m :
  fars (tag m) ≤ n → terms (tag m) ≤ t →
  ∃ m', process_side (plain_side ch prevs id k n t) m wrap end_ =
      Done (m', plain_side ch prevs id k (n - fars (tag m)) (t - terms (tag m))) ∧
    tagged (sender m') (data m') = side_out n (tag m).
Proof.
  intros Hn Ht. destruct (process_batch_out (sender m) n t (data m) Hn Ht) as (o & E & Eo).
  exists (new_batch o (sender m)). unfold process_side. cbn [plain_side cached sd_missing_flush_and_restart sd_missing_terminate].
  rewrite E. done.
Qed.
End out.

(** ** What [select] does *)
Section select.
Context {L R : Type} `{!TypeId L, !TypeId R}.
Context (lp rp : list Coord) (lid rid : BlockId) (kl kr : nat).
Abbreviation lside cl nl tl := (plain_side (I := BinaryElement L R) cl lp lid kl nl tl).
Abbreviation rside cr nr tr := (plain_side (I := BinaryElement L R) cr rp rid kr nr tr).
Abbreviation both cl nl tl cr nr tr fm ps := (mkBinaryReceiver (lside cl nl tl) (rside cr nr tr) fm ps).

Lemma select_uncached timeout cl nl tl cr nr tr fm ps :
  0 < nl ∨ 0 < nr →
  select timeout (both cl nl tl cr nr tr fm ps) =
  '(data, self) ← select_side timeout (both cl nl tl cr nr tr fm ps);
  match data with
  | FromLeft (inl m) =>
      '(m, l) ← process_side (bs_left self) m BLeft LeftEnd;
      Done (inl m, mkBinaryReceiver l (bs_right self) (first_message self) (picks self))
  | FromRight (inl m) =>
      '(m, r) ← process_side (bs_right self) m BRight RightEnd;
      Done (inl m, mkBinaryReceiver (bs_left self) r (first_message self) (picks self))
  | FromLeft (inr e) | FromRight (inr e) => Done (inr e, self)
  end.
Proof.
  intros Hn. unfold select. cbn [bs_left bs_right].
  assert (is_ended (lside cl nl tl) && is_ended (rside cr nr tr) = false) as ->.
  { unfold is_ended. cbn. apply andb_false_iff. rewrite !Nat.eqb_neq. lia. }
  unfold num_terminates. cbn [cached plain_side bs_left bs_right orb andb Nat.ltb Nat.leb]. rewrite !andb_false_r. cbn [negb andb].
  destruct fm; destruct (select_side timeout _) as [[[[m|e]|[m|e]] []]| | |]; reflexivity.
Qed.

(** When both sides have ended, the round starts again. *)
Lemma select_restart timeout cl tl cr tr fm ps :
  0 < kl ∨ 0 < kr →
  select timeout (both cl 0 tl cr 0 tr fm ps) = select timeout (both cl kl tl cr kr tr true ps).
Proof.
  intros Hk. rewrite (select_uncached timeout cl kl tl cr kr tr true ps) by done. unfold select.
  cbn [bs_left bs_right plain_side]. unfold is_ended, num_terminates, cache_finished.
  cbn [cached bs_left bs_right sd_missing_flush_and_restart cache cache_pointer length Nat.eqb Nat.leb andb Nat.ltb].
  rewrite !andb_false_r. unfold SideReceiver_reset. cbn [cached sd_receiver instances sd_missing_terminate cache cache_full cache_pointer orb andb negb].
  destruct (select_side timeout _) as [[[[m|e]|[m|e]] []]| | |]; reflexivity.
Qed.

Lemma select_reads_left timeout cl nl tl cr nr tr fm ps ps' res cl' :
  0 < nl →
  (nr = 0 ∧ ps' = ps ∨
   0 < nr ∧ 0 < tl ∧ (tr = 0 ∧ ps' = ps ∨ 0 < tr ∧ (ps = true :: ps' ∨ ps = [] ∧ ps' = []))) →
  chan_read timeout cl = (res, cl') → res ≠ inr RecvDisconnected →
  select timeout (both cl nl tl cr nr tr fm ps) =
  match res with
  | inl m => '(m, l) ← process_side (lside cl' nl tl) m BLeft LeftEnd;
             Done (inl m, mkBinaryReceiver l (rside cr nr tr) fm ps')
  | inr e => Done (inr e, both cl' nl tl cr nr tr fm ps')
  end.
Proof.
  intros Hnl Hch Hr Hne. rewrite select_uncached by auto.
  assert (select_side timeout (both cl nl tl cr nr tr fm ps) = Done (FromLeft res, both cl' nl tl cr nr tr fm ps'))
    as ->; [|by destruct res].
  assert (is_ended (lside cl nl tl) = false) as El by (unfold is_ended; cbn; apply Nat.eqb_neq; lia).
  unfold select_side. cbn [cached plain_side orb]. rewrite andb_false_r, El.
  destruct Hch as [[-> ->]|(Hnr & Htl & Hch)].
  - cbn [is_ended cached plain_side sd_missing_flush_and_restart Nat.eqb].
    by rewrite (side_recv timeout _ _ _ _ _ _ _ _ Hr Hne).
  - assert (is_ended (rside cr nr tr) = false) as -> by (unfold is_ended; cbn; apply Nat.eqb_neq; lia).
    unfold select_both. cbn [unwrap mbind outcome_bind ss_receiver sd_receiver plain_side].
    assert (is_terminated (lside cl nl tl) = false) as -> by (unfold is_terminated; cbn; apply Nat.eqb_neq; lia).
    assert (∀ d, timeout = Some d → SimpleStartReceiver_recv_timeout d (mkSimpleReceiver (Some cl) lp lid) =
      Done (res, mkSimpleReceiver (Some cl') lp lid)) as Hto.
    { intros d ->. unfold SimpleStartReceiver_recv_timeout. cbn in Hr |- *. by rewrite Hr. }
    destruct Hch as [[-> ->]|[Htr Hps]].
    + cbn [is_terminated plain_side sd_missing_terminate Nat.eqb]. destruct timeout as [d|]; [by rewrite (Hto d eq_refl)|].
      cbn in Hr |- *. destruct (chan_recv cl) as [[m|] c1]; [|congruence]. by injection Hr as <- <-.
    + assert (is_terminated (rside cr nr tr) = false) as -> by (unfold is_terminated; cbn; apply Nat.eqb_neq; lia).
      destruct timeout as [d|].
      * destruct Hps as [->|[-> ->]]; by rewrite (Hto d eq_refl).
      * cbn in Hr |- *. destruct (chan_recv cl) as [[m|] c1]; [|congruence].
        injection Hr as <- <-. by destruct Hps as [->|[-> ->]].
Qed.

Lemma select_reads_right timeout cl nl tl cr nr tr fm ps ps' res cr' :
  0 < nr →
  (nl = 0 ∧ ps' = ps ∨ 0 < nl ∧ 0 < tr ∧ (tl = 0 ∧ ps' = ps ∨ 0 < tl ∧ ps = false :: ps')) →
  chan_read timeout cr = (res, cr') → res ≠ inr RecvDisconnected →
  select timeout (both cl nl tl cr nr tr fm ps) =
  match res with
  | inl m => '(m, r) ← process_side (rside cr' nr tr) m BRight RightEnd;
             Done (inl m, mkBinaryReceiver (lside cl nl tl) r fm ps')
  | inr e => Done (inr e, both cl nl tl cr' nr tr fm ps')
  end.
Proof.
  intros Hnr Hch Hr Hne. rewrite select_uncached by auto.
  assert (∃ sd, select_side timeout (both cl nl tl cr nr tr fm ps) = Done (sd, both cl nl tl cr' nr tr fm ps') ∧
    match res with inl m => sd = FromRight (inl m)
                 | inr e => sd = FromRight (inr e) ∨ sd = FromLeft (inr e) end) as (sd & Hsd & Hsdr).
  { assert (is_ended (rside cr nr tr) = false) as Er by (unfold is_ended; cbn; apply Nat.eqb_neq; lia).
    unfold select_side. cbn [cached plain_side orb]. rewrite andb_false_r.
    destruct Hch as [[-> ->]|(Hnl & Htr & Hch)].
    - cbn [is_ended cached plain_side sd_missing_flush_and_restart Nat.eqb].
      rewrite (side_recv timeout _ _ _ _ _ _ _ _ Hr Hne). eexists. split; [done|]. destruct res; auto.
    - assert (is_ended (lside cl nl tl) = false) as -> by (unfold is_ended; cbn; apply Nat.eqb_neq; lia). rewrite Er.
      unfold select_both. cbn [unwrap mbind outcome_bind ss_receiver sd_receiver plain_side].
      assert (is_terminated (rside cr nr tr) = false) as -> by (unfold is_terminated; cbn; apply Nat.eqb_neq; lia).
      assert (∀ d, timeout = Some d → SimpleStartReceiver_recv_timeout d (mkSimpleReceiver (Some cr) rp rid) =
        Done (res, mkSimpleReceiver (Some cr') rp rid)) as Hto.
      { intros d ->. unfold SimpleStartReceiver_recv_timeout. cbn in Hr |- *. by rewrite Hr. }
      destruct Hch as [[-> ->]|[Htl ->]].
      + cbn [is_terminated plain_side sd_missing_terminate Nat.eqb]. destruct timeout as [d|].
        * rewrite (Hto d eq_refl). eexists. split; [done|]. destruct res as [|[]]; auto.
        * cbn in Hr |- *. destruct (chan_recv cr) as [[m|] c1]; [|congruence]. injection Hr as <- <-. eexists. by split.
      + assert (is_terminated (lside cl nl tl) = false) as -> by (unfold is_terminated; cbn; apply Nat.eqb_neq; lia).
        destruct timeout as [d|].
        * rewrite (Hto d eq_refl). eexists. split; [done|]. destruct res as [|[]]; auto.
        * cbn in Hr |- *. destruct (chan_recv cr) as [[m|] c1]; [|congruence]. injection Hr as <- <-. eexists. by split. }
  rewrite Hsd. destruct res as [m|e]; [by rewrite Hsdr|]. by destruct Hsdr as [->| ->].
Qed.
End select.

(** ** The receiver runs to the end *)

(** Which side is read, and what is left of the answers of [select]. *)
Lemma final_pick nl nr tl tr (ps : list bool) :
  0 < nl ∨ 0 < nr →
  ((nr = 0 → 0 < tl) ∧ (nl = 0 → 0 < tr) ∧ (0 < tl ∨ 0 < tr)) →
  (0 < nl ∧ 0 < tl ∧ ∃ ps',
    nr = 0 ∧ ps' = ps ∨
    0 < nr ∧ 0 < tl ∧ (tr = 0 ∧ ps' = ps ∨ 0 < tr ∧ (ps = true :: ps' ∨ ps = [] ∧ ps' = []))) ∨
  (0 < nr ∧ 0 < tr ∧ ∃ ps',
    nl = 0 ∧ ps' = ps ∨ 0 < nl ∧ 0 < tr ∧ (tl = 0 ∧ ps' = ps ∨ 0 < tl ∧ ps = false :: ps')).
Proof.
  intros Hn (H1 & H2 & H3).
  destruct (decide (nr = 0)); [left; split_and!; [lia|lia|]; exists ps; by left|].
  destruct (decide (nl = 0)); [right; split_and!; [lia|lia|]; exists ps; by left|].
  destruct (decide (tr = 0)); [left; split_and!; [lia|lia|]; exists ps; right; split_and!; [lia|lia|by left]|].
  destruct (decide (tl = 0)); [right; split_and!; [lia|lia|]; exists ps; right; split_and!; [lia|lia|by left]|].
  destruct ps as [|[] ps].
  - left. split_and!; [lia|lia|]. exists []. right. split_and!; [lia|lia|]. right. split; [lia|by right].
  - left. split_and!; [lia|lia|]. exists ps. right. split_and!; [lia|lia|]. right. split; [lia|by left].
  - right. split_and!; [lia|lia|]. exists ps. right. split_and!; [lia|lia|]. right. split; [lia|done].
Qed.

(** Processing a batch does not look at the channel. *)
Lemma process_side_channel {A I} (wrap : A → I) end_ (ch ch' : channel A) prevs id k n t n' t' m m' :
  process_side (plain_side ch prevs id k n t) m wrap end_ = Done (m', plain_side ch prevs id k n' t') ↔
  process_side (plain_side ch' prevs id k n t) m wrap end_ = Done (m', plain_side ch' prevs id k n' t').
Proof.
  unfold process_side. cbn [plain_side cached sd_missing_flush_and_restart sd_missing_terminate sd_receiver instances cache cache_full cache_pointer].
  destruct (process_batch false wrap end_ n t (data m)) as [[[a b] l]| | |]; cbn; try done.
  split; intros [= -> -> ->]; done.
Qed.
Section final.
Context {L R : Type} `{!TypeId L, !TypeId R}.
Context (delay : option Duration) (lp rp : list Coord) (lid rid : BlockId) (kl kr : nat).
Context (Hlp : NoDup lp) (Hrp : NoDup rp) (Hkl : 0 < kl) (Hkr : 0 < kr).
Abbreviation both cl nl tl cr nr tr fm ps :=
  (mkBinaryReceiver (plain_side (I := BinaryElement L R) cl lp lid kl nl tl)
     (plain_side (I := BinaryElement L R) cr rp rid kr nr tr) fm ps).

(** The messages of a channel that are still to come. *)
Definition side_messages {A} (cs : list Coord) (ch : channel A) : Prop :=
  side_left cs (raw (arrivals ch)) ∧ Forall (λ m, data m ≠ []) (arrivals ch).

Lemma side_messages_cons {A} cs (ch ch' : channel A) m ms :
  side_messages cs ch → arrivals ch = m :: ms → arrivals ch' = ms → side_messages cs ch'.
Proof.
  intros [H1 H2] E <-. rewrite E in H1, H2. apply Forall_cons in H2 as [_ H2]. split; [|done].
  rewrite raw_cons in H1. by eapply side_left_app.
Qed.
Lemma side_messages_same {A} cs (ch ch' : channel A) :
  side_messages cs ch → arrivals ch' = arrivals ch → side_messages cs ch'.
Proof. unfold side_messages. by intros H ->. Qed.
Lemma arrivals_ne {A} (ch : channel A) : raw (arrivals ch) ≠ [] → ∃ m ms, arrivals ch = m :: ms.
Proof. destruct (arrivals ch) as [|m ms]; [done|]. eauto. Qed.

(** One read of a side. *)
Lemma side_reads {A I} `{!TypeId A} (wrap : A → I) end_ timeout cs ch prevs id k n t :
  side_messages cs ch → raw (arrivals ch) ≠ [] → (fars (raw (arrivals ch)) ≤ n) → t = terms (raw (arrivals ch)) →
  ∃ res ch', chan_read timeout ch = (res, ch') ∧ length ch' < length ch ∧ res ≠ inr RecvDisconnected ∧
    side_messages cs ch' ∧
    match res with
    | inl m => ∃ m' n',
        process_side (plain_side ch prevs id k n t) m wrap end_ =
          Done (m', plain_side ch prevs id k n' (terms (raw (arrivals ch')))) ∧
        n' = n - (fars (raw (arrivals ch)) - fars (raw (arrivals ch'))) ∧
        fars (raw (arrivals ch')) ≤ fars (raw (arrivals ch)) ∧
        side_out wrap end_ n (raw (arrivals ch)) =
          tagged (sender m') (data m') ++ side_out wrap end_ n' (raw (arrivals ch'))
    | inr _ => is_Some timeout ∧ arrivals ch' = arrivals ch
    end.
Proof.
  intros Hs Hne Hn ->. destruct (arrivals_ne _ Hne) as (m & ms & E).
  destruct (chan_read_arrivals timeout ch m ms [] E) as (ch' & Hl & [[Hc Ha]|(Ht & Hc & Ha)]); rewrite !app_nil_r in Hc.
  - exists (inl m), ch'. split_and!; [done..|by eapply side_messages_cons|].
    rewrite E, raw_cons, fars_app, terms_app, Ha in *.
    destruct (process_side_out wrap end_ ch prevs id k n (terms (tag m) + terms (raw ms)) m) as (m' & Ep & Eo); [lia|lia|].
    exists m', (n - fars (tag m)). rewrite Ep, side_out_app, Eo. split_and!; [|lia|lia|done].
    do 3 f_equal. lia.
  - exists (inr RecvTimeout), ch'. split_and!; [done|done|done| |done|by rewrite Ha, E].
    eapply side_messages_same; [done|by rewrite Ha, E].
Qed.

(** The counters of the two sides: those of the round, or, when all [FlushAndRestart]s are
    there, those of the round that will not come. *)
Definition counters (cl : channel L) (nl : nat) (cr : channel R) (nr : nat) : Prop :=
  nl = fars (raw (arrivals cl)) ∧ nr = fars (raw (arrivals cr)) ∨
  fars (raw (arrivals cl)) = 0 ∧ fars (raw (arrivals cr)) = 0 ∧ 0 < nl ∧ 0 < nr.
Definition to_come (cl : channel L) (nl : nat) (cr : channel R) (nr : nat) r : Prop :=
  interleaved (coord_default, FlushBatch) (side_out BLeft LeftEnd nl (raw (arrivals cl)))
    (side_out BRight RightEnd nr (raw (arrivals cr))) r.

Lemma to_come_ne cl nl cr nr r :
  to_come cl nl cr nr r → raw (arrivals cl) ≠ [] ∨ raw (arrivals cr) ≠ [] → r ≠ [].
Proof.
  intros Hi Hne ->. unfold to_come in Hi. inversion Hi as [E1 E2| | |].
  destruct Hne as [Hne|Hne]; [apply (side_out_ne (I := BinaryElement L R) BLeft LeftEnd nl _ Hne)|apply (side_out_ne (I := BinaryElement L R) BRight RightEnd nr _ Hne)]; congruence.
Qed.

(** One receive, when there is something to come. *)
Lemma final_receive cl nl cr nr fm ps timed_out :
  side_messages lp cl → side_messages rp cr → counters cl nl cr nr → 0 < nl ∨ 0 < nr →
  raw (arrivals cl) ≠ [] ∨ raw (arrivals cr) ≠ [] →
  ∃ cl' nl' cr' nr' ps' c l timed_out',
    Start_receive (mkStartRx delay (both cl nl (terms (raw (arrivals cl))) cr nr (terms (raw (arrivals cr))) fm ps) None timed_out) =
      Done (mkStartRx delay (both cl' nl' (terms (raw (arrivals cl'))) cr' nr' (terms (raw (arrivals cr'))) fm ps')
              (Some (c, l)) timed_out') ∧
    side_messages lp cl' ∧ side_messages rp cr' ∧ counters cl' nl' cr' nr' ∧
    length cl' + length cr' < length cl + length cr ∧
    ∀ r, to_come cl' nl' cr' nr' r → to_come cl nl cr nr (tagged c l ++ r).
Proof.
  intros Hl Hr Hc Hn Hne.
  set (timeout := match timed_out, delay with false, Some d => Some d | _, _ => None end).
  set (self := both cl nl _ cr nr _ fm ps).
  assert (∀ res self', select timeout self = Done (res, self') →
    match res with
    | inl m => Start_receive (mkStartRx delay self None timed_out) =
                 Done (mkStartRx delay self' (Some (sender m, data m)) false)
    | inr _ => is_Some timeout →
               Start_receive (mkStartRx delay self None timed_out) =
                 Done (mkStartRx delay self' (Some (coord_default, [FlushBatch])) true)
    end) as Hrec.
  { intros res self' Hs. unfold Start_receive, timeout in *. cbn [already_timed_out max_delay_rx rx_receiver].
    destruct timed_out, delay as [d|]; cbn [recv_timeout recv BinaryStartReceiver_receiver];
      rewrite Hs; destruct res; try done; by intros [? ?]. }
  set (tl := terms (raw (arrivals cl))) in *. set (tr := terms (raw (arrivals cr))) in *.
  assert (fars (raw (arrivals cl)) ≤ tl ∧ fars (raw (arrivals cr)) ≤ tr) as [Hfl Hfr]
    by (split; [apply (side_left_counts lp); [done|apply Hl]|apply (side_left_counts rp); [done|apply Hr]]).
  assert (tl = 0 → raw (arrivals cl) = []) as Hdl by (intros; eapply side_left_done; [apply Hl|done]).
  assert (tr = 0 → raw (arrivals cr) = []) as Hdr by (intros; eapply side_left_done; [apply Hr|done]).
  assert (0 < tl → raw (arrivals cl) ≠ []) as Hxl by (intros Ht E; unfold tl in Ht; rewrite E in Ht; cbn in Ht; lia).
  assert (0 < tr → raw (arrivals cr) ≠ []) as Hxr by (intros Ht E; unfold tr in Ht; rewrite E in Ht; cbn in Ht; lia).
  assert (fars (raw (arrivals cl)) ≤ nl ∧ fars (raw (arrivals cr)) ≤ nr) as [Hnl Hnr] by (unfold counters in Hc; lia).
  destruct (final_pick nl nr tl tr ps Hn) as [(Hn' & Ht' & ps' & Hps)|(Hn' & Ht' & ps' & Hps)].
  { unfold counters in Hc. destruct Hc as [[-> ->]|(F1 & F2 & P1 & P2)]; [lia|]. split; [intros|split; [intros|]]; try lia.
    destruct (decide (tl = 0 ∧ tr = 0)) as [[E1 E2]|]; [|lia]. rewrite (Hdl E1), (Hdr E2) in Hne. tauto. }
  - destruct (side_reads (I := BinaryElement L R) BLeft LeftEnd timeout lp cl lp lid kl nl tl Hl (Hxl Ht') Hnl eq_refl)
      as (res & cl' & Hch & Hlen & Hnd & Hl' & Hres).
    pose proof (select_reads_left lp rp lid rid kl kr timeout cl nl tl cr nr tr fm ps ps' res cl' Hn' Hps Hch Hnd) as Hs.
    destruct res as [m|e].
    + destruct Hres as (m' & n' & Hp & En & Hle & Eo).
      rewrite (process_side_channel (I := BinaryElement L R) BLeft LeftEnd cl cl') in Hp. rewrite Hp in Hs. cbn [mbind outcome_bind] in Hs.
      pose proof (Hrec _ _ Hs) as Hrec'. cbn in Hrec'.
      eexists cl', n', cr, nr, ps', _, _, _. split_and!; [exact Hrec'|done|done| |lia|].
      * unfold counters in *. lia.
      * intros r Hi. unfold to_come in *. rewrite Eo. by apply interleaved_left.
    + destruct Hres as [Ht Ha]. pose proof (Hrec _ _ Hs Ht) as Hrec'.
      eexists cl', nl, cr, nr, ps', _, _, _.
      split_and!; [rewrite Ha; exact Hrec'|done|done|unfold counters in *; by rewrite Ha|lia|].
      intros r Hi. apply il_flush; [unfold to_come in *; by rewrite <-Ha|].
      eapply to_come_ne; [exact Hi|]. by rewrite Ha.
  - destruct (side_reads (I := BinaryElement L R) BRight RightEnd timeout rp cr rp rid kr nr tr Hr (Hxr Ht') Hnr eq_refl)
      as (res & cr' & Hch & Hlen & Hnd & Hr' & Hres).
    pose proof (select_reads_right lp rp lid rid kl kr timeout cl nl tl cr nr tr fm ps ps' res cr' Hn' Hps Hch Hnd) as Hs.
    destruct res as [m|e].
    + destruct Hres as (m' & n' & Hp & En & Hle & Eo).
      rewrite (process_side_channel (I := BinaryElement L R) BRight RightEnd cr cr') in Hp. rewrite Hp in Hs. cbn [mbind outcome_bind] in Hs.
      pose proof (Hrec _ _ Hs) as Hrec'. cbn in Hrec'.
      eexists cl, nl, cr', n', ps', _, _, _. split_and!; [exact Hrec'|done|done| |lia|].
      * unfold counters in *. lia.
      * intros r Hi. unfold to_come in *. rewrite Eo. by apply interleaved_right.
    + destruct Hres as [Ht Ha]. pose proof (Hrec _ _ Hs Ht) as Hrec'.
      eexists cl, nl, cr', nr, ps', _, _, _.
      split_and!; [rewrite Ha; exact Hrec'|done|done|unfold counters in *; by rewrite Ha|lia|].
      intros r Hi. apply il_flush; [unfold to_come in *; by rewrite <-Ha|].
      eapply to_come_ne; [exact Hi|]. by rewrite Ha.
Qed.

(** Everything that is on its way is delivered, the two sides interleaved in some way. *)
Lemma final_emits cl nl cr nr fm ps b timed_out :
  side_messages lp cl → side_messages rp cr → counters cl nl cr nr →
  b = None ∨ (∃ c, b = Some (c, [])) →
  ∃ r rx', emits incoming
      (mkStartRx delay (both cl nl (terms (raw (arrivals cl))) cr nr (terms (raw (arrivals cr))) fm ps) b timed_out) r rx' ∧
    to_come cl nl cr nr r.
Proof.
  remember (length cl + length cr) as n eqn:En.
  revert cl nl cr nr fm ps b timed_out En. induction (lt_wf n) as [n _ IH].
  intros cl nl cr nr fm ps b timed_out -> Hl Hr Hc Hb.
  destruct (decide (length (raw (arrivals cl)) = 0 ∧ length (raw (arrivals cr)) = 0)) as [[El Er]|Hne].
  { apply length_zero_iff_nil in El, Er. unfold to_come. rewrite El, Er. exists [], (mkStartRx delay (both cl nl 0 cr nr 0 fm ps) b timed_out).
    split; constructor. }
  assert (raw (arrivals cl) ≠ [] ∨ raw (arrivals cr) ≠ []) as Hne'.
  { destruct (raw (arrivals cl)), (raw (arrivals cr)); cbn in Hne; [lia|by right|by left..]. }
  assert (∃ nl' nr' fm', counters cl nl' cr nr' ∧ (0 < nl' ∨ 0 < nr') ∧
    (∀ r, to_come cl nl' cr nr' r → to_come cl nl cr nr r) ∧
    ∀ timed_out, Start_receive (mkStartRx delay (both cl nl (terms (raw (arrivals cl))) cr nr (terms (raw (arrivals cr))) fm ps) None timed_out) =
      Start_receive (mkStartRx delay (both cl nl' (terms (raw (arrivals cl))) cr nr' (terms (raw (arrivals cr))) fm' ps) None timed_out))
    as (nl' & nr' & fm' & Hc' & Hpos & Hto & Hsame).
  { destruct (decide (nl = 0 ∧ nr = 0)) as [[-> ->]|Hn]; [|exists nl, nr, fm; split_and!; [done|lia|done|done]].
    exists kl, kr, true.
    assert (fars (raw (arrivals cl)) = 0 ∧ fars (raw (arrivals cr)) = 0) as [Fl Fr] by (unfold counters in Hc; lia).
    split_and!; [right; lia|lia| |].
    - intros r Hi. unfold to_come in *.
      rewrite (side_out_terms BLeft LeftEnd 0 kl), (side_out_terms BRight RightEnd 0 kr); [done|..].
      + apply (side_left_terms rp); [apply Hr|done].
      + apply (side_left_terms lp); [apply Hl|done].
    - intros to. unfold Start_receive. cbn [already_timed_out max_delay_rx rx_receiver].
      destruct to, delay; cbn [recv_timeout recv BinaryStartReceiver_receiver]; by rewrite select_restart by auto. }
  destruct (final_receive cl nl' cr nr' fm' ps timed_out Hl Hr Hc' Hpos Hne')
    as (cl1 & nl1 & cr1 & nr1 & ps1 & c & l & to1 & Hrec & Hl1 & Hr1 & Hc1 & Hlen & Hout).
  destruct (IH _ Hlen cl1 nl1 cr1 nr1 fm' ps1 (Some (c, [])) to1 eq_refl Hl1 Hr1 Hc1) as (r & rx' & He & Hi); [by eauto|].
  exists (tagged c l ++ r), rx'. assert (to_come cl nl cr nr (tagged c l ++ r)) as Hall by by apply Hto, Hout.
  split; [|done].
  eapply (rx_receive_emits _ (match b with Some (c, _) => c | None => c end)); [| | |].
  - destruct Hb as [->|(c' & ->)]; auto.
  - unfold set_batch. cbn. rewrite Hsame. exact Hrec.
  - by eapply to_come_ne.
  - eapply emits_app; [|exact He]. unfold tagged.
    eapply (rx_batch_emits (mkStartRx delay (both cl1 nl1 _ cr1 nr1 _ fm' ps1) (Some (c, l)) to1) c l []).
    cbn. by rewrite app_nil_r.
Qed.
End final.

(** ** The deliveries of a side make a final round *)
Section side_facts.
Context {A I : Type} (wrap : A → I) (end_ : I).
Implicit Types r : list (Coord * StreamElement A).

Lemma side_out_from cs n r : Forall (λ x, x.1 ∈ cs) r → from_prevs cs (side_out wrap end_ n r).
Proof.
  intros Hf. revert n. induction Hf as [|[c e] r Hc _ IH]; intros n; [constructor|]. cbn. apply Forall_app. split; [|apply IH].
  unfold tagged. apply Forall_fmap, Forall_forall. intros e' _. by left.
Qed.

Lemma elems_of_tagged_ne {X} c c' (l : list (StreamElement X)) : c ≠ c' → elems_of c (tagged c' l) = [].
Proof. intros Hne. unfold tagged. rewrite elems_of_tagged. by rewrite decide_False by congruence. Qed.

(** Each replica's elements, with perhaps the end of the side before its [FlushAndRestart]. *)
Lemma side_out_each n r c :
  ending (of_sender c r) →
  match of_sender c r with
  | [] => elems_of c (side_out wrap end_ n r) = []
  | [Terminate] => elems_of c (side_out wrap end_ n r) = [Terminate]
  | _ => ∃ d, elems_of c (side_out wrap end_ n r) = d ++ [FlushAndRestart; Terminate] ∧
              Forall (λ e, is_data e = true) d
  end.
Proof.
  revert n. induction r as [|[c' e] r IH]; intros n Hend; [done|]. cbn [side_out]. rewrite elems_of_app.
  unfold of_sender in *. rewrite filter_cons in *. cbn [fst] in *. destruct (decide (c' = c)) as [->|Hne].
  2: { rewrite elems_of_tagged_ne by congruence. by apply IH. }
  unfold tagged. rewrite elems_of_tagged, decide_True by done. cbn [fmap list_fmap snd] in *.
  set (l := (filter (λ x, x.1 = c) r).*2) in *.
  destruct Hend as [[[|x d] E]|[E|E]]; cbn in E; [| | |done].
  - injection E as -> E. specialize (IH (after n (@FlushAndRestart A))). rewrite E in IH.
    rewrite IH by (right; by left). unfold elem_out. cbn. exists (if n =? 1 then [Item end_] else []).
    destruct (n =? 1); cbn; (split; [done|by repeat constructor]).
  - injection E as -> E. specialize (IH (after n (@Item A x))). destruct l as [|e1 l1]; [by destruct d|].
    assert (∃ d', elems_of c (side_out wrap end_ (after n (@Item A x)) r) = d' ++ [FlushAndRestart; Terminate] ∧
      Forall (λ e, is_data e = true) d') as (d' & -> & Hd').
    { assert (ending (e1 :: l1)) as Hen by (left; by exists d). specialize (IH Hen).
      destruct d as [|y d]; cbn in E; injection E as -> ->; [exact IH|].
      destruct ((Item <$> d) ++ [FlushAndRestart; Terminate]) eqn:Ed; exact IH. }
    exists (Item (wrap x) :: d'). split; [done|by constructor].
  - injection E as -> E. specialize (IH (after n (@Terminate A))). rewrite E in IH |- *. rewrite IH by (by right; right). done.
Qed.

Lemma side_out_items cs n r :
  side_left cs r → fars r = n →
  List.filter is_item ((side_out wrap end_ n r).*2) =
  ((λ x, Item (wrap x)) <$> omap value (r.*2)) ++ (if n =? 0 then [] else [Item end_]).
Proof.
  revert n. induction r as [|[c e] r IH]; intros n Hs Hn; [by rewrite <-Hn|].
  pose proof (side_left_tail _ _ _ Hs) as Hs'. cbn [side_out fmap list_fmap omap list_omap snd]. rewrite fmap_app, List.filter_app.
  rewrite fars_cons in Hn. cbn [snd] in Hn.
  unfold tagged. rewrite <-list_fmap_compose. replace (snd ∘ (λ e0 : StreamElement I, (c, e0)) <$> elem_out wrap end_ n e) with (elem_out wrap end_ n e)
    by (clear; induction (elem_out wrap end_ n e) as [|y l IHl]; [done|]; cbn; by f_equal).
  destruct (is_far e) eqn:Ef.
  - destruct e; try done. unfold elem_out, after. cbn [is_far andb value se_map]. rewrite (IH (n - 1) Hs') by lia.
    destruct n as [|[|n]]; [lia| |cbn; done].
    assert (omap value (r.*2) = []) as ->.
    { assert (fars r = 0) as F by lia. clear -F Hs'. pose proof (side_left_terms _ _ Hs' F) as Ht. clear F Hs'.
      induction Ht as [|[c' e'] r He _ IHr]; [done|]. cbn in He. subst e'. exact IHr. }
    done.
  - unfold elem_out, after. rewrite Ef. cbn [andb app]. rewrite (IH n Hs') by lia.
    destruct (side_left_head _ _ _ _ Hs) as [[x ->]|[->| ->]]; done.
Qed.
Lemma side_out_last n r x :
  (∀ y, last r = Some y → y.2 = Terminate) → last (side_out wrap end_ n r) = Some x → x.2 = Terminate.
Proof.
  revert n. induction r as [|[c e] r IH]; intros n Hl Hx; [done|]. cbn [side_out] in Hx.
  destruct r as [|y r].
  - specialize (Hl (c, e) eq_refl). cbn in Hl. subst e. cbn in Hx. by injection Hx as <-.
  - rewrite last_app in Hx.
    destruct (last (side_out wrap end_ (after n e) (y :: r))) as [z|] eqn:Ez.
    + injection Hx as <-. eapply IH; [|exact Ez]. intros w Hw. apply Hl. rewrite last_cons, Hw. done.
    + apply last_None in Ez. by apply side_out_ne in Ez.
Qed.
Lemma side_left_last cs r : side_left cs r → ∀ y, last r = Some y → y.2 = Terminate.
Proof.
  induction r as [|[c e] r IH]; intros Hs y Hy; [done|]. pose proof (side_left_tail _ _ _ Hs) as Hs'.
  destruct r as [|z r]; [|by apply IH]. injection Hy as <-. cbn.
  destruct Hs as [Hf He]. apply Forall_cons in Hf as [Hc _]. specialize (He c Hc). unfold of_sender in He.
  rewrite filter_cons_True in He by done. cbn in He.
  destruct He as [[[|x d] E]|[E|E]]; cbn in E; try done; [|by injection E]. injection E as _ E. by destruct d.
Qed.
Lemma side_out_untimed cs n r : side_left cs r → omap watermark_ts ((side_out wrap end_ n r).*2) = [].
Proof.
  revert n. induction r as [|[c e] r IH]; intros n Hs; [done|]. pose proof (side_left_tail _ _ _ Hs) as Hs'.
  cbn [side_out]. rewrite fmap_app, omap_app, IH, app_nil_r by done.
  assert (watermark_ts (se_map wrap e) = None) as He
    by (destruct (side_left_head _ _ _ _ Hs) as [[x ->]|[->| ->]]; done).
  unfold elem_out. destruct (is_far e && (n =? 1)); cbn; by rewrite He.
Qed.
End side_facts.

(** ** From two channels to the operators of the block *)
Section counts.
Context {A : Type}.
Implicit Types r : list (Coord * StreamElement A).

Lemma of_sender_raw c (ms : list (NetworkMessage A)) :
  of_sender c (raw ms) = unbatched (base.filter (λ m, sender m = c) ms).
Proof.
  unfold of_sender, unbatched. induction ms as [|m ms IH]; [done|]. rewrite raw_cons, filter_app, fmap_app, IH, filter_cons.
  assert ((base.filter (λ x, x.1 = c) (tag m)).*2 = if decide (sender m = c) then data m else []) as ->.
  { unfold tag. induction (data m) as [|e l IHl]; cbn [fmap list_fmap]; [by case_decide|].
    rewrite filter_cons. cbn [fst]. case_decide; [|done]. cbn [fmap list_fmap snd]. by rewrite IHl. }
  case_decide; [|done]. by cbn.
Qed.

(** Counting by sender. *)
Lemma side_count_by_sender (P : StreamElement A → bool) cs r :
  NoDup cs → Forall (λ x, x.1 ∈ cs) r → (∀ c, c ∈ cs → length (List.filter P (of_sender c r)) = 1) →
  length (base.filter (λ x, P x.2 = true) r) = length cs.
Proof.
  intros Hnd Hf Hone.
  rewrite (Permutation_length (filter_Permutation (λ x, P x.2 = true) _ _ (partition_by fst cs r Hnd Hf))).
  clear Hnd Hf. revert Hone. induction cs as [|c cs IH]; intros Hone; [done|]. cbn [fmap list_fmap concat].
  rewrite filter_app, length_app, IH by (intros; apply Hone; by right). cbn [length].
  enough (length (base.filter (λ x, P x.2 = true) (base.filter (λ x, x.1 = c) r)) = 1) as -> by done.
  rewrite <-(Hone c) by (by left). unfold of_sender. generalize (base.filter (λ x : Coord * StreamElement A, x.1 = c) r).
  intros l. induction l as [|x l IHl]; [done|]. rewrite filter_cons. cbn [fmap list_fmap List.filter].
  destruct (P x.2) eqn:Ep; [rewrite decide_True by done; cbn [length]; by rewrite IHl|by rewrite decide_False].
Qed.
Lemma values_of_sender cs r (shares : Coord → list A) :
  NoDup cs → Forall (λ x, x.1 ∈ cs) r →
  (∀ c, c ∈ cs → of_sender c r = (Item <$> shares c) ++ [FlushAndRestart; Terminate]) →
  omap value (r.*2) ≡ₚ concat (shares <$> cs).
Proof.
  intros Hnd Hf Hs.
  trans (omap value ((concat ((λ c, base.filter (λ x, x.1 = c) r) <$> cs)).*2)).
  { apply omap_Permutation, fmap_Permutation. by apply partition_by. }
  clear Hnd Hf. revert Hs. induction cs as [|c cs IH]; intros Hs; [done|]. cbn [fmap list_fmap concat].
  rewrite fmap_app, omap_app, IH by (intros; apply Hs; by right). f_equiv.
  fold (of_sender c r). rewrite Hs by (by left). clear. induction (shares c) as [|x l IHl]; [done|]. cbn. by rewrite IHl.
Qed.
End counts.

Lemma delivery_perm {B} cs cs' (shares : Coord → list B) ch :
  cs' ≡ₚ cs → delivery cs shares ch → delivery cs' shares ch.
Proof.
  intros Hp [H1 H2 H3]. split; [|intros c Hc; apply H2; by rewrite <-Hp|done].
  eapply Forall_impl; [exact H1|]. intros m [? ?]. by rewrite Hp.
Qed.

Section delivered.
Context {A : Type} (cs : list Coord) (shares : Coord → list A) (ch : channel A).
Context (Hnd : NoDup cs) (Hd : delivery cs shares ch).

Lemma delivery_of_sender c :
  c ∈ cs → of_sender c (raw (arrivals ch)) = (Item <$> shares c) ++ [FlushAndRestart; Terminate].
Proof. intros Hc. rewrite of_sender_raw. by apply (dl_each _ _ _ Hd). Qed.
Lemma delivery_messages : side_messages cs ch.
Proof.
  pose proof (dl_from _ _ _ Hd) as Hf. split.
  - split; [|intros c Hc; left; exists (shares c); by apply delivery_of_sender].
    unfold raw. apply Forall_concat, Forall_fmap. eapply Forall_impl; [exact Hf|]. intros m [Hm _]. cbn.
    unfold tag. apply Forall_fmap, Forall_forall. done.
  - eapply Forall_impl; [exact Hf|]. by intros m [_ ?].
Qed.
Lemma delivery_counts : fars (raw (arrivals ch)) = length cs ∧ terms (raw (arrivals ch)) = length cs.
Proof.
  pose proof delivery_messages as [[Hf _] _].
  split; apply side_count_by_sender; try done; intros c Hc; rewrite delivery_of_sender by done; clear;
    (induction (shares c) as [|x l IH]; [done|exact IH]).
Qed.
Lemma delivery_values : omap value ((raw (arrivals ch)).*2) ≡ₚ concat (shares <$> cs).
Proof. pose proof delivery_messages as [[Hf _] _]. apply values_of_sender; [done|done|apply delivery_of_sender]. Qed.
Lemma delivery_final_side {I} (wrap : A → I) end_ c :
  c ∈ cs → ∃ d, elems_of c (side_out wrap end_ (length cs) (raw (arrivals ch))) = d ++ [FlushAndRestart; Terminate] ∧
    Forall (λ e, is_data e = true) d.
Proof.
  intros Hc. pose proof (side_out_each wrap end_ (length cs) (raw (arrivals ch)) c) as H.
  rewrite (delivery_of_sender c Hc) in H. specialize (H ltac:(left; by eexists)).
  destruct (shares c) as [|x [|y l]]; cbn in H; [exact H|exact H|exact H].
Qed.
End delivered.

(** A side that sends nothing under a name. *)
Lemma side_out_silent {A I} (wrap : A → I) end_ n (cs : list Coord) (r : list (Coord * StreamElement A)) c :
  Forall (λ x, x.1 ∈ cs) r → c ∉ cs → elems_of c (side_out wrap end_ n r) = [].
Proof.
  intros Hf Hc. revert n. induction Hf as [|[c' e] r Hc' _ IH]; intros n; [done|]. cbn [side_out].
  rewrite elems_of_app, IH, elems_of_tagged_ne; [done|]. intros ->. done.
Qed.

(** The only round of a block with two inputs: for any choices of [select], any timeouts and
    any interleaving of the messages, the operators of the block see the items of both
    sides, the end of each side after its last item, one [FlushAndRestart] and [Terminate]. *)
Lemma binary_block_final {L R} `{!TypeId L, !TypeId R} delay lp rp lid rid ps s
    (sharesl : Coord → list L) (sharesr : Coord → list R) cl cr :
  NoDup (lp ++ rp) → lp ≠ [] → rp ≠ [] → round_start (lp ++ rp) s →
  delivery lp sharesl cl → delivery rp sharesr cr →
  ∃ outs fl s' rx' xs ys,
    emits (Start None)
      (s, mkStartRx delay
         (mkBinaryReceiver (plain_side (I := BinaryElement L R) cl lp lid (length lp) (length lp) (length lp))
            (plain_side cr rp rid (length rp) (length rp) (length rp)) false ps) None false)
      (outs ++ FlushAndRestart :: fl ++ [Terminate]) (s', rx') ∧
    Forall (λ e, e = FlushBatch) fl ∧ binary_round outs xs ys ∧
    xs ≡ₚ concat (sharesl <$> lp) ∧ ys ≡ₚ concat (sharesr <$> rp).
Proof.
  intros Hnd Hlne Hrne Hs Hl Hr. pose proof Hnd as (Hndl & Hdisj & Hndr)%NoDup_app.
  assert (0 < length lp) as Hkl by (destruct lp; [done|cbn; lia]).
  assert (0 < length rp) as Hkr by (destruct rp; [done|cbn; lia]).
  destruct (delivery_counts lp sharesl cl Hndl Hl) as [Fl Tl], (delivery_counts rp sharesr cr Hndr Hr) as [Fr Tr].
  pose proof (delivery_messages lp sharesl cl Hl) as Ml. pose proof (delivery_messages rp sharesr cr Hr) as Mr.
  destruct (final_emits delay lp rp lid rid (length lp) (length rp) Hndl Hndr Hkl Hkr cl (length lp) cr (length rp) false ps None false
    Ml Mr) as (r & rx' & He & Hi); [left; lia|by left|]. rewrite Tl, Tr in He.
  set (ol := side_out (I := BinaryElement L R) BLeft LeftEnd (length lp) (raw (arrivals cl))) in *.
  set (or := side_out (I := BinaryElement L R) BRight RightEnd (length rp) (raw (arrivals cr))) in *.
  destruct Ml as [Ml _], Mr as [Mr _].
  assert (final_round (lp ++ rp) r) as Hfin.
  { split.
    - eapply interleaved_from; [exact Hi|apply side_out_from, Ml|apply side_out_from, Mr].
    - destruct r as [|x r _] using rev_ind.
      { exfalso. assert (ol = []) as E by (by inversion Hi). revert E. apply side_out_ne. intros E. rewrite E in Fl. cbn in Fl. lia. }
      exists r, x.1. assert (x.2 = Terminate) as Hx.
      { eapply (interleaved_last _ (λ x, x.2 = Terminate)); [exact Hi| | |apply last_snoc]; intros y Hy;
          (eapply side_out_last; [|exact Hy]); eapply side_left_last; [exact Ml|exact Mr]. }
      destruct x as [c e]. cbn in *. by subst.
    - intros c [Hc|Hc]%elem_of_app.
      + rewrite (interleaved_elems_left c ol or r Hi); [by apply (delivery_final_side lp sharesl cl)|].
        apply (side_out_silent _ _ _ rp); [apply Mr|by apply Hdisj].
      + rewrite (interleaved_elems_left c or ol r (interleaved_sym _ _ _ _ Hi)); [by apply (delivery_final_side rp sharesr cr)|].
        apply (side_out_silent _ _ _ lp); [apply Ml|]. intros ?. by eapply Hdisj. }
  destruct (Start_final_runs None (lp ++ rp) s r I Hnd Hs Hfin) as (outs & fl & s' & Hruns & Hfl & Hout).
  exists outs, fl, s', rx', (omap value ((raw (arrivals cl)).*2)), (omap value ((raw (arrivals cr)).*2)).
  split_and!; [|done| |by apply delivery_values|by apply delivery_values].
  - by eapply (refines_emits incoming (starting None)); [apply Start_refines| |].
  - apply see_all_items; [apply Hout| |].
    + apply (ro_untimed _ _ _ Hout).
      pose proof (side_out_untimed (I := BinaryElement L R) BLeft LeftEnd lp (length lp) _ Ml) as Wl.
      pose proof (side_out_untimed (I := BinaryElement L R) BRight RightEnd rp (length rp) _ Mr) as Wr.
      fold ol in Wl. fold or in Wr. clear -Hi Wl Wr. unfold to_come in Hi.
      induction Hi as [|[c e] l1 l2 l _ IH|[c e] l1 l2 l _ IH|l1 l2 l _ IH]; [done|..]; cbn in *;
        [destruct (watermark_ts e)..|]; naive_solver.
    + rewrite (ro_items _ _ _ Hout).
      refine (interleaved_seen ol or r false false _ _ [] [] Hi _ _); unfold side_items.
      * unfold ol. rewrite (side_out_items (I := BinaryElement L R) BLeft LeftEnd lp (length lp) _ Ml Fl). by destruct (length lp); [lia|].
      * unfold or. rewrite (side_out_items (I := BinaryElement L R) BRight RightEnd rp (length rp) _ Mr Fr). by destruct (length rp); [lia|].
Qed.

(** [Start::multiple], set up with its two channels. *)
Lemma binary_setup_spec {L R} `{!TypeId L, !TypeId R} md lid rid ps (cl : channel L) (cr : channel R) :
  ∃ rx0 s, BinaryStartReceiver_new (L := L) (R := R) lid rid false false ps = Done rx0 ∧
    Start_setup (R := BinaryStartReceiver L R) (A := BinaryElement L R) md
      ((λ _, Done cl), (λ _, Done cr)) (Start_new rx0) =
      Done (s, mkStartRx (max_delay (em_batch_mode md))
        (mkBinaryReceiver
           (plain_side (I := BinaryElement L R) cl (matching (A := L) lid (em_prev md)) lid
              (length (matching (A := L) lid (em_prev md))) (length (matching (A := L) lid (em_prev md)))
              (length (matching (A := L) lid (em_prev md))))
           (plain_side cr (matching (A := R) rid (em_prev md)) rid
              (length (matching (A := R) rid (em_prev md))) (length (matching (A := R) rid (em_prev md)))
              (length (matching (A := R) rid (em_prev md)))) false ps) None false) ∧
    round_start (matching (A := L) lid (em_prev md) ++ matching (A := R) rid (em_prev md)) s.
Proof.
  eexists _, _. split; [reflexivity|]. split.
  - unfold Start_setup, Start_new. cbn -[SimpleStartReceiver_setup]. unfold BinaryStartReceiver_setup, SideReceiver_setup.
    cbn -[SimpleStartReceiver_setup].
    rewrite (SimpleStartReceiver_setup_spec md (λ _, Done cl) lid cl eq_refl).
    cbn -[SimpleStartReceiver_setup]. rewrite (SimpleStartReceiver_setup_spec md (λ _, Done cr) rid cr eq_refl). reflexivity.
  - split; cbn; [by eexists|done|done|done|apply frontier_at_new].
Qed.
