(* ===== verification/SortMerge.v ===== *)
(** * The sort-merge join

    [src/src/operator/join/local_sort_merge.rs].  The two sides are collected, sorted by
    key and merged from their greatest keys down.  [Vec]s are lists whose last element
    is the top. *)
From S2P Require Import Prelude StreamElement Operator Frontier Batcher Start BinaryStart Join.
From stdpp Require Import sorting.

(** [trait Ord] of the keys: a total order, for which [==] is equality. *)
Class OrdKey (K : Type) `{EqDecision K} := {
  key_leb : K → K → bool;
  key_leb_total a b : key_leb a b = true ∨ key_leb b a = true;
  key_leb_trans a b c : key_leb a b = true → key_leb b c = true → key_leb a c = true;
  key_leb_antisym a b : key_leb a b = true → key_leb b a = true → a = b
}.

(** [Vec::pop]. *)
Definition pop {X} (l : list X) : option (X * list X) :=
  match last l with Some x => Some (x, removelast l) | None => None end.

Record SortMerge_state (K L R : Type) := mkSortMerge {
  left_ended : bool; right_ended : bool;
  sm_left : list (K * L); sm_right : list (K * R);
  sm_buffer : list (K * (option L * option R));
  last_left_key : option K
}.
Global Arguments mkSortMerge {_ _ _} _ _ _ _ _ _.
Global Arguments left_ended {_ _ _} _.
Global Arguments right_ended {_ _ _} _.
Global Arguments sm_left {_ _ _} _.
Global Arguments sm_right {_ _ _} _.
Global Arguments sm_buffer {_ _ _} _.
Global Arguments last_left_key {_ _ _} _.

Section code.
Context {K L R : Type} `{EqDecision K, !OrdKey K} `{!Glidesort}.
Context (variant : JoinVariant) (keyer1 : L → K) (keyer2 : R → K).
Implicit Types self : SortMerge_state K L R.

(** [JoinLocalSortMerge::new]. *)
Definition SortMerge_new : SortMerge_state K L R := mkSortMerge false false [] [] [] None.

(** [JoinLocalSortMerge::discard_right]. *)
Definition discard_right self : outcome (SortMerge_state K L R) :=
  '((rkey, rvalue), r) ← unwrap (pop (sm_right self));
  let is_matched := bool_decide (last_left_key self = Some rkey) in
  let buffer := if negb is_matched && right_outer variant
                then sm_buffer self ++ [(rkey, (None, Some rvalue))] else sm_buffer self in
  Done (mkSortMerge (left_ended self) (right_ended self) (sm_left self) r buffer
          (last_left_key self)).

Fixpoint discard_n (n : nat) self : outcome (SortMerge_state K L R) :=
  match n with
  | 0 => Done self
  | S n => self ← discard_right self; discard_n n self
  end.

(** The body of the loop of [advance] for an element of the left side. *)
Definition advance_left (lkey : K) (lvalue : L) (rest : list (K * L)) self
    : outcome (SortMerge_state K L R) :=
  let self := mkSortMerge (left_ended self) (right_ended self) rest (sm_right self)
                (sm_buffer self) (last_left_key self) in
  let discarded := length (take_while (λ r, negb (key_leb r.1 lkey)) (rev (sm_right self))) in
  self ← discard_n discarded self;
  let has_matches := match last (sm_right self) with
                     | Some (rkey, _) => bool_decide (rkey = lkey)
                     | None => false
                     end in
  let buffer :=
    if has_matches then
      sm_buffer self ++
      ((λ r, (lkey, (Some lvalue, Some r.2))) <$>
       take_while (λ r, bool_decide (lkey = r.1)) (rev (sm_right self)))
    else if left_outer variant then sm_buffer self ++ [(lkey, (Some lvalue, None))]
    else sm_buffer self in
  Done (mkSortMerge (left_ended self) (right_ended self) (sm_left self) (sm_right self)
          buffer (Some lkey)).

(** [JoinLocalSortMerge::advance]. *)
Fixpoint advance_loop (fuel : nat) self : outcome (SortMerge_state K L R) :=
  match fuel with
  | 0 => OutOfFuel
  | S fuel =>
      if bool_decide (length (sm_buffer self) = 0) &&
         (negb (bool_decide (length (sm_left self) = 0)) ||
          negb (bool_decide (length (sm_right self) = 0)))
      then
        self ← match pop (sm_left self) with
               | Some ((lkey, lvalue), rest) => advance_left lkey lvalue rest self
               | None => discard_n (length (sm_right self)) self
               end;
        advance_loop fuel self
      else Done self
  end.
Definition advance self : outcome (SortMerge_state K L R) :=
  advance_loop (length (sm_left self) + 2) self.

(** [glidesort::sort_by(.., |(k1, _), (k2, _)| k1.cmp(k2))]. *)
Definition by_key {V} (a b : K * V) : bool := key_leb a.1 b.1.

(** The [match] of [next]. *)
Definition sort_merge_handle self (e : StreamElement (BinaryElement L R))
    : outcome (SortMerge_state K L R * option (StreamElement (K * (option L * option R)))) :=
  let 'mkSortMerge le re l r buf lk := self in
  match e with
  | Item (BLeft item) => Done (mkSortMerge le re (l ++ [(keyer1 item, item)]) r buf lk, None)
  | Item (BRight item) => Done (mkSortMerge le re l (r ++ [(keyer2 item, item)]) buf lk, None)
  | Item LeftEnd => Done (mkSortMerge true re (glidesort by_key l) r buf lk, None)
  | Item RightEnd => Done (mkSortMerge le true l (glidesort by_key r) buf lk, None)
  | Timestamped _ _ | Watermark _ => Panicked
  | FlushAndRestart =>
      rassert le;; rassert re;;
      rassert (bool_decide (length l = 0));; rassert (bool_decide (length r = 0));;
      Done (mkSortMerge false false l r buf None, Some FlushAndRestart)
  | FlushBatch => Done (self, Some FlushBatch)
  | Terminate => Done (self, Some Terminate)
  end.

Definition sort_merge_advance self : outcome (SortMerge_state K L R) :=
  if bool_decide (length (sm_buffer self) = 0) && left_ended self && right_ended self
  then advance self else Done self.
Definition sort_merge_pop self
    : option (StreamElement (K * (option L * option R)) * SortMerge_state K L R) :=
  match sm_buffer self with
  | [] => None
  | item :: rest =>
      Some (Item item, mkSortMerge (left_ended self) (right_ended self) (sm_left self)
                         (sm_right self) rest (last_left_key self))
  end.

(** [JoinLocalSortMerge::next]. *)
Fixpoint JoinLocalSortMerge_next (prev : Operator (BinaryElement L R)) (fuel : nat)
    (q : SortMerge_state K L R * op_state prev)
    : outcome (StreamElement (K * (option L * option R)) * (SortMerge_state K L R * op_state prev)) :=
  match fuel with
  | 0 => OutOfFuel
  | S fuel =>
      let '(self, p) := q in
      self ← sort_merge_advance self;
      match sort_merge_pop self with
      | Some (item, self) => Done (item, (self, p))
      | None =>
          '(e, p) ← op_next prev fuel p;
          '(self, o) ← sort_merge_handle self e;
          match o with
          | Some e => Done (e, (self, p))
          | None => JoinLocalSortMerge_next prev fuel (self, p)
          end
      end
  end.
End code.

(** ** Popping from the reversed lists *)
Lemma pop_rev {X} (l : list X) :
  pop (rev l) = match l with [] => None | x :: l => Some (x, rev l) end.
Proof.
  destruct l as [|x l]; [done|]. unfold pop. cbn. by rewrite last_snoc, removelast_last.
Qed.

(** ** What one turn of [advance] does *)
Section merge.
Context {K L R : Type} `{Countable K, !OrdKey K} `{!Glidesort}.
Context (v : JoinVariant) (keyer1 : L → K) (keyer2 : R → K).
Implicit Types (ls lr Ld : list (K * L)) (rs rr Rd : list (K * R)) (lk : option K).

(** The right elements discarded in a row, for a given last left key. *)
Definition discards lk rs : list (K * (option L * option R)) :=
  omap (λ r, if negb (bool_decide (lk = Some r.1)) && right_outer v
             then Some (right_only r) else None) rs.

(** The tuples of one left element. *)
Definition row (l : K * L) rs : list (K * (option L * option R)) :=
  match take_while (λ r, bool_decide (l.1 = r.1)) rs with
  | [] => if left_outer v then [left_only l] else []
  | ms => (λ r, (l.1, (Some l.2, Some r.2))) <$> ms
  end.

Lemma discard_n_spec n le re l rr buf lk :
  n ≤ length rr →
  discard_n v n (mkSortMerge le re l (rev rr) buf lk) =
  Done (mkSortMerge le re l (rev (drop n rr)) (buf ++ discards lk (take n rr)) lk).
Proof.
  revert rr buf. induction n as [|n IH]; intros rr buf Hn.
  - cbn. by rewrite drop_0, app_nil_r.
  - destruct rr as [|[k r] rr]; cbn in Hn; [lia|]. cbn [discard_n]. unfold discard_right.
    cbn [sm_right]. rewrite pop_rev. cbn [unwrap mbind outcome_bind]. rewrite IH by lia.
    cbn. f_equal. f_equal. destruct (negb _ && _); [|done]. by rewrite <-app_assoc.
Qed.

Lemma last_rev_head {X} (l : list X) : last (rev l) = head l.
Proof. destruct l; [done|]. cbn. apply last_snoc. Qed.

Lemma advance_left_spec l le re any lr rr lk :
  let n := length (take_while (λ r, negb (key_leb r.1 l.1)) rr) in
  advance_left v l.1 l.2 (rev lr) (mkSortMerge le re any (rev rr) [] lk) =
  Done (mkSortMerge le re (rev lr) (rev (drop n rr))
          (discards lk (take n rr) ++ row l (drop n rr)) (Some l.1)).
Proof.
  intros n. unfold advance_left. cbn [sm_right left_ended right_ended sm_buffer last_left_key].
  rewrite rev_involutive. fold n. rewrite discard_n_spec by apply take_while_le.
  cbn [mbind outcome_bind sm_right left_ended right_ended sm_buffer sm_left].
  rewrite rev_involutive, last_rev_head. f_equal. f_equal. unfold row. cbn [app].
  destruct (drop n rr) as [|[k r] rr']; cbn.
  - destruct (left_outer v); [done|by rewrite app_nil_r].
  - destruct (decide (k = l.1)) as [->|Hne].
    + by rewrite !bool_decide_true.
    + rewrite !bool_decide_false by congruence. destruct (left_outer v); [done|by rewrite app_nil_r].
Qed.

(** One turn, from any state: [advance] is total. *)
Definition advance_turn (self : SortMerge_state K L R) : SortMerge_state K L R :=
  let lr := rev (sm_left self) in
  let rr := rev (sm_right self) in
  match lr with
  | l :: lr =>
      let n := length (take_while (λ r, negb (key_leb r.1 l.1)) rr) in
      mkSortMerge (left_ended self) (right_ended self) (rev lr) (rev (drop n rr))
        (discards (last_left_key self) (take n rr) ++ row l (drop n rr)) (Some l.1)
  | [] =>
      mkSortMerge (left_ended self) (right_ended self) [] []
        (discards (last_left_key self) rr) (last_left_key self)
  end.

Lemma advance_loop_S f self :
  sm_buffer self = [] → (sm_left self ≠ [] ∨ sm_right self ≠ []) →
  advance_loop v (S f) self = advance_loop v f (advance_turn self).
Proof.
  destruct self as [le re l r buf lk]. cbn [sm_buffer sm_left sm_right]. intros -> Hne.
  cbn [advance_loop]. cbn [sm_buffer sm_left sm_right].
  destruct (bool_decide_reflect (length ([] : list (K * (option L * option R))) = 0)); [|done].
  assert (negb (bool_decide (length l = 0)) || negb (bool_decide (length r = 0)) = true) as ->.
  { apply orb_true_iff. rewrite !negb_true_iff, !bool_decide_eq_false, !length_zero_iff_nil. done. }
  cbn [andb]. unfold advance_turn. cbn [sm_left sm_right left_ended right_ended last_left_key].
  clear Hne. rewrite <-(rev_involutive l), <-(rev_involutive r).
  generalize (rev l) as lr, (rev r) as rr. clear l r. intros lr rr.
  rewrite !rev_involutive, pop_rev. destruct lr as [|[k x] lr].
  - rewrite length_rev, discard_n_spec by done. by rewrite firstn_all, skipn_all.
  - by rewrite (advance_left_spec (k, x)).
Qed.

(** A bound on the turns left. *)
Definition turns_left (self : SortMerge_state K L R) : nat :=
  length (sm_left self) + match sm_right self with [] => 0 | _ => 1 end.

Lemma advance_turn_left self :
  sm_left self ≠ [] ∨ sm_right self ≠ [] → turns_left (advance_turn self) < turns_left self.
Proof.
  intros Hne. unfold advance_turn, turns_left. rewrite <-(length_rev (sm_left self)).
  destruct (rev (sm_left self)) as [|l lr] eqn:E; cbn.
  - destruct (sm_right self); [|lia]. destruct Hne as [Hne|]; [|done].
    apply (f_equal (@rev _)) in E. rewrite rev_involutive in E. by rewrite E in Hne.
  - rewrite length_rev. set (n := length (take_while _ _)).
    destruct (sm_right self) as [|r rs] eqn:Er.
    + replace (drop n (rev [])) with ([] : list (K * R)) by (by destruct n). cbn. lia.
    + destruct (rev (drop n (rev (r :: rs)))); lia.
Qed.

(** [advance] takes turns until it has tuples or both sides are exhausted. *)
Lemma advance_spec (P : SortMerge_state K L R → Prop) self :
  P self →
  (∀ s, P s → sm_buffer s = [] → sm_left s ≠ [] ∨ sm_right s ≠ [] → P (advance_turn s)) →
  ∃ self', advance v self = Done self' ∧ P self' ∧
    (self' = self ∨ turns_left self' < turns_left self) ∧
    (sm_buffer self' = [] → sm_left self' = [] ∧ sm_right self' = []).
Proof.
  intros Hinit HP. unfold advance.
  assert (∀ f s, turns_left s < f → P s → (s = self ∨ turns_left s < turns_left self) →
    ∃ self', advance_loop v f s = Done self' ∧ P self' ∧
      (self' = self ∨ turns_left self' < turns_left self) ∧
      (sm_buffer self' = [] → sm_left self' = [] ∧ sm_right self' = [])) as Hgo.
  { induction f as [|f IH]; intros s Hf Hs Hle; [lia|].
    destruct (decide (sm_buffer s = [] ∧ (length (sm_left s) ≠ 0 ∨ length (sm_right s) ≠ 0)))
      as [[Hb Hne]|Hno].
    - rewrite !length_zero_iff_nil in Hne. rewrite advance_loop_S by done.
      pose proof (advance_turn_left s Hne). apply IH; [lia|by apply HP|].
      right. destruct Hle as [->|]; lia.
    - exists s. split; [|split_and!; [done..|]].
      + cbn. destruct (bool_decide_reflect (length (sm_buffer s) = 0)) as [Hb|]; [|done].
        destruct (bool_decide_reflect (length (sm_left s) = 0)) as [Hl|Hl]; cbn;
          [destruct (bool_decide_reflect (length (sm_right s) = 0)) as [Hr|Hr]; [done|]|];
          apply length_zero_iff_nil in Hb; exfalso; apply Hno; auto.
      + intros Hb. rewrite <-!length_zero_iff_nil.
        destruct (decide (length (sm_left s) = 0)), (decide (length (sm_right s) = 0));
          try done; exfalso; apply Hno; auto. }
  apply Hgo; [|done|by left]. unfold turns_left. destruct (sm_right self); lia.
Qed.

(** ** The merge computes the join *)
Definition descends {V} (a b : K * V) : Prop := key_leb b.1 a.1 = true.

Lemma key_leb_refl (k : K) : key_leb k k = true.
Proof. by destruct (key_leb_total k k). Qed.

(** The last left key tells whether a discarded element had a match. *)
Lemma last_key_spec Ld (k : K) :
  StronglySorted descends Ld → (∀ l, l ∈ Ld → key_leb k l.1 = true) →
  last (Ld.*1) = Some k ↔ k ∈ Ld.*1.
Proof.
  intros Hs Hk. split.
  - intros Hl. apply last_Some in Hl as (l' & ->). set_solver.
  - intros Hin. destruct Ld as [|x Ld _] using rev_ind; [by apply elem_of_nil in Hin|].
    rewrite fmap_app. cbn. rewrite last_snoc. f_equal.
    apply list_elem_of_fmap in Hin as (y & -> & Hy).
    apply key_leb_antisym; [|apply Hk; set_solver].
    rewrite elem_of_app, list_elem_of_singleton in Hy. destruct Hy as [Hy| ->]; [|apply key_leb_refl].
    eapply (StronglySorted_app_1_elem_of descends); [exact Hs|done|set_solver].
Qed.

Lemma discards_spec Ld lr rs :
  StronglySorted descends Ld → (∀ r l, r ∈ rs → l ∈ Ld → key_leb r.1 l.1 = true) →
  (∀ r l, r ∈ rs → l ∈ lr → key_leb r.1 l.1 = false) →
  discards (last (Ld.*1)) rs = if right_outer v then right_only <$> alone rs (Ld ++ lr) else [].
Proof.
  intros Hs Hlow Hhigh. unfold discards, alone. induction rs as [|r rs IH]; [by destruct (right_outer v)|].
  cbn [omap list_omap]. rewrite IH by set_solver. clear IH. rewrite filter_cons.
  assert (last (Ld.*1) = Some r.1 ↔ r.1 ∈ (Ld ++ lr).*1) as Hr.
  { rewrite last_key_spec by set_solver. rewrite fmap_app, elem_of_app. split; [by left|].
    intros [?|Hin]; [done|]. apply list_elem_of_fmap in Hin as (l & E & Hl).
    pose proof (Hhigh r l ltac:(set_solver) Hl) as Hf. rewrite E, key_leb_refl in Hf. done. }
  destruct (decide (r.1 ∉ (Ld ++ lr).*1)) as [Hn|Hn].
  - rewrite bool_decide_false by tauto. by destruct (right_outer v).
  - rewrite bool_decide_true by (apply Hr; by destruct (decide (r.1 ∈ (Ld ++ lr).*1))).
    by destruct (right_outer v).
Qed.

Lemma side_values_app {V} (k : K) (xs ys : list (K * V)) :
  side_values k (xs ++ ys) = side_values k xs ++ side_values k ys.
Proof. unfold side_values. by rewrite filter_app, fmap_app. Qed.

Lemma side_values_none {V} (k : K) (xs : list (K * V)) :
  (∀ x, x ∈ xs → key_leb x.1 k = false) → side_values k xs = [].
Proof.
  intros Hx. apply values_nil. intros (x & -> & Hin)%list_elem_of_fmap.
  specialize (Hx x Hin). by rewrite key_leb_refl in Hx.
Qed.

Lemma row_spec (l : K * L) rs :
  StronglySorted descends rs → (∀ r, r ∈ rs → key_leb r.1 l.1 = true) →
  row l rs = ((λ r, (l.1, (Some l.2, Some r))) <$> side_values l.1 rs) ++
    (if left_outer v && bool_decide (side_values l.1 rs = []) then [left_only l] else []).
Proof.
  intros Hs Hle.
  assert ((take_while (λ r, bool_decide (l.1 = r.1)) rs).*2 = side_values l.1 rs) as E.
  { induction Hs as [|r rs Hs IH Hr]; [done|]. cbn [take_while]. rewrite values_cons.
    destruct (decide (r.1 = l.1)) as [Er|Hne].
    - rewrite bool_decide_true by done. cbn. f_equal. apply IH. set_solver.
    - rewrite bool_decide_false by congruence. cbn. symmetry. apply values_nil.
      intros (x & Ex & Hx)%list_elem_of_fmap. apply Hne. apply key_leb_antisym; [apply Hle; set_solver|].
      rewrite Forall_forall in Hr. rewrite Ex. exact (Hr x Hx). }
  rewrite <-E. unfold row. destruct (take_while _ rs) as [|m ms] eqn:Et; cbn.
  - by rewrite andb_true_r.
  - rewrite andb_false_r, app_nil_r. by rewrite <-list_fmap_compose.
Qed.

(** The merge of [ls] and [rs], sorted from the greatest key down, when it has emitted
    or buffered [out]: the left elements [Ld] are done and the right elements [Rd] are
    discarded. *)
Record merge_at ls rs (out : list (K * (option L * option R))) (self : SortMerge_state K L R)
    Ld lr Rd rr : Prop := {
  ma_left : sm_left self = rev lr;
  ma_right : sm_right self = rev rr;
  ma_ended : left_ended self = true ∧ right_ended self = true;
  ma_ls : ls = Ld ++ lr;
  ma_rs : rs = Rd ++ rr;
  ma_key : last_left_key self = last (Ld.*1);
  ma_low r l : r ∈ rr → l ∈ Ld → key_leb r.1 l.1 = true;
  ma_high r l : r ∈ Rd → l ∈ lr → key_leb r.1 l.1 = false;
  ma_out : out ≡ₚ matched Ld rs ++ (if left_outer v then left_only <$> alone Ld rs else []) ++
             (if right_outer v then right_only <$> alone Rd ls else [])
}.

Lemma alone_app {V W} (xs ys : list (K * V)) (zs : list (K * W)) :
  alone (xs ++ ys) zs = alone xs zs ++ alone ys zs.
Proof. apply filter_app. Qed.

Lemma advance_turn_at ls rs out self Ld lr Rd rr :
  StronglySorted descends ls → StronglySorted descends rs →
  merge_at ls rs (out ++ sm_buffer self) self Ld lr Rd rr → sm_buffer self = [] →
  ∃ Ld' lr' Rd' rr',
    merge_at ls rs (out ++ sm_buffer (advance_turn self)) (advance_turn self) Ld' lr' Rd' rr'.
Proof.
  intros Sl Sr [Hl Hr He Els Ers Hk Hlow Hhigh Ho] Hb. rewrite Hb, app_nil_r in Ho.
  assert (StronglySorted descends Ld) as SLd.
  { rewrite Els in Sl. by apply StronglySorted_app_1_l in Sl. }
  unfold advance_turn. rewrite Hl, Hr, Hk, !rev_involutive.
  destruct lr as [|l lr].
  - exists Ld, [], (Rd ++ rr), []. split; cbn; try done.
    + by rewrite app_nil_r.
    + by intros r l ?%elem_of_nil.
    + by intros r l _ ?%elem_of_nil.
    + rewrite (discards_spec Ld []); [|done|done|intros ? ? ? []%elem_of_nil].
      rewrite Ho, alone_app, Els, <-app_assoc. f_equiv. rewrite <-app_assoc. f_equiv.
      destruct (right_outer v); [|done]. by rewrite fmap_app.
  - set (n := length (take_while (λ r, negb (key_leb r.1 l.1)) rr)).
    assert (∀ r, r ∈ take n rr → key_leb r.1 l.1 = false) as HD.
    { intros r Hin. unfold n in Hin. rewrite take_while_take in Hin.
      pose proof (take_while_all (λ r, negb (key_leb r.1 l.1)) rr) as Ha.
      rewrite Forall_forall in Ha. specialize (Ha r Hin). cbn in Ha. by apply negb_true_iff in Ha. }
    assert (StronglySorted descends (drop n rr)) as Srr.
    { rewrite Ers, <-(take_drop n rr), app_assoc in Sr. by apply StronglySorted_app_1_r in Sr. }
    assert (∀ r, r ∈ drop n rr → key_leb r.1 l.1 = true) as Hrest.
    { intros r Hin. pose proof (drop_take_while (λ r, negb (key_leb r.1 l.1)) rr) as Hd.
      fold n in Hd. destruct (drop n rr) as [|r0 rr']; [by apply elem_of_nil in Hin|].
      apply negb_false_iff in Hd. apply elem_of_cons in Hin as [->|Hin]; [done|].
      apply StronglySorted_cons in Srr as [Hall _]. rewrite Forall_forall in Hall.
      by eapply key_leb_trans; [exact (Hall r Hin)|]. }
    assert (∀ l', l' ∈ lr → key_leb l'.1 l.1 = true) as Hlr.
    { intros l' Hl'. rewrite Els in Sl. apply StronglySorted_app_1_r, StronglySorted_cons in Sl as [Hall _].
      rewrite Forall_forall in Hall. exact (Hall l' Hl'). }
    assert (∀ r l', r ∈ take n rr → l' ∈ l :: lr → key_leb r.1 l'.1 = false) as HDl.
    { intros r l' Hin Hl'. destruct (key_leb r.1 l'.1) eqn:E; [|done].
      rewrite <-(HD r Hin). apply elem_of_cons in Hl' as [->|Hl']; [done|].
      symmetry. eapply key_leb_trans; [exact E|by apply Hlr]. }
    assert (side_values l.1 rs = side_values l.1 (drop n rr)) as Hv.
    { rewrite Ers. rewrite <-(take_drop n rr) at 1. rewrite !side_values_app.
      rewrite (side_values_none _ Rd) by (intros; apply Hhigh; set_solver).
      by rewrite (side_values_none _ (take n rr)). }
    exists (Ld ++ [l]), lr, (Rd ++ take n rr), (drop n rr).
    split; cbn [sm_left sm_right left_ended right_ended last_left_key sm_buffer]; try done.
    + by rewrite <-app_assoc.
    + by rewrite <-app_assoc, take_drop.
    + rewrite fmap_app. cbn. by rewrite last_snoc.
    + intros r l' Hin Hl'. rewrite elem_of_app, list_elem_of_singleton in Hl'.
      destruct Hl' as [Hl'| ->]; [|by apply Hrest]. apply Hlow; [|done].
      rewrite <-(take_drop n rr). set_solver.
    + intros r l' Hin Hl'. apply elem_of_app in Hin as [Hin|Hin]; [apply Hhigh|apply HDl]; set_solver.
    + rewrite (discards_spec Ld (l :: lr)); [|done| |done].
      2:{ intros r l' Hin Hl'. apply Hlow; [|done]. rewrite <-(take_drop n rr). set_solver. }
      rewrite row_spec by done. rewrite <-Hv, <-Els, Ho. destruct l as [k x]. cbn [fst snd].
      rewrite matched_snoc_left, (alone_app Rd), alone_snoc, !fmap_app. cbn [fst].
      assert (∀ (b : bool) (l1 l2 : list (K * (option L * option R))),
        (if b then l1 ++ l2 else []) = (if b then l1 else []) ++ (if b then l2 else [])) as Hif
        by (by intros []).
      rewrite !Hif. destruct (left_outer v); cbn; [|solve_Permutation].
      case_decide as E; [rewrite bool_decide_true by done|rewrite bool_decide_false by done];
        cbn; solve_Permutation.
Qed.

(** *** The join depends on the two sides as multisets *)
Global Instance side_values_perm {V} (k : K) :
  Proper (Permutation ==> Permutation) (side_values (V := V) k).
Proof. intros xs ys E. unfold side_values. by rewrite E. Qed.

Lemma matched_perm ls ls' rs rs' : ls ≡ₚ ls' → rs ≡ₚ rs' → matched ls rs ≡ₚ matched ls' rs'.
Proof.
  intros El Er. transitivity (matched ls' rs).
  - unfold matched. by rewrite El.
  - clear El. induction ls' as [|l ls' IH]; [done|]. rewrite !matched_cons, IH.
    f_equiv. by rewrite Er.
Qed.

Lemma alone_perm {V W} (xs xs' : list (K * V)) (ys ys' : list (K * W)) :
  xs ≡ₚ xs' → ys ≡ₚ ys' → alone xs ys ≡ₚ alone xs' ys'.
Proof.
  intros Ex Ey. unfold alone. rewrite Ex.
  rewrite (list_filter_iff (λ x, x.1 ∉ ys.*1) (λ x, x.1 ∉ ys'.*1)); [done|].
  intros x. by rewrite Ey.
Qed.

Lemma relational_join_perm ls ls' rs rs' :
  ls ≡ₚ ls' → rs ≡ₚ rs' → relational_join v ls rs ≡ₚ relational_join v ls' rs'.
Proof.
  intros El Er. unfold relational_join, join_so_far. rewrite (matched_perm _ _ _ _ El Er).
  cbn. rewrite !andb_true_r. f_equiv. apply Permutation_app.
  - destruct (left_outer v); [|done]. by rewrite (alone_perm _ _ _ _ El Er).
  - destruct (right_outer v); [|done]. by rewrite (alone_perm _ _ _ _ Er El).
Qed.

(** ** The operator *)
Definition sort_merge_join : transducer (BinaryElement L R) (K * (option L * option R)) :=
  mkTransducer (SortMerge_state K L R)
    (λ self, match sort_merge_advance v self with Done self => sort_merge_pop self | _ => None end)
    (λ self e, self ← sort_merge_advance v self; sort_merge_handle keyer1 keyer2 self e).

Lemma sort_merge_advance_total (self : SortMerge_state K L R) : ∃ self', sort_merge_advance v self = Done self'.
Proof.
  unfold sort_merge_advance. destruct (_ && _ && _); [|eauto].
  destruct (advance_spec (λ _, True) self) as (self' & -> & _); eauto.
Qed.

Global Instance JoinLocalSortMerge_follows prev :
  Follows prev sort_merge_join (JoinLocalSortMerge_next v keyer1 keyer2 prev).
Proof.
  constructor; [by intros []|]. intros f s p. cbn. unfold drive. cbn.
  destruct (sort_merge_advance_total s) as (s' & Hs). rewrite Hs. cbn.
  destruct (sort_merge_pop s') as [[]|]; [done|].
  destruct (op_next prev f p) as [[e p1]| | |]; cbn; [|done..].
  by destruct (sort_merge_handle keyer1 keyer2 s' e) as [[s1 [o|]]| | |].
Qed.

(** Nothing is left to emit. *)
Definition exhausted (self : SortMerge_state K L R) : Prop :=
  sm_buffer self = [] ∧
  ∃ lk, sort_merge_advance v self = Done (mkSortMerge true true [] [] [] lk).

Lemma drain_buffer le re l r buf lk :
  runs sort_merge_join (mkSortMerge le re l r buf lk) [] (Item <$> buf)
    (mkSortMerge le re l r [] lk).
Proof. induction buf as [|e buf IH]; [constructor|]. by eapply runs_ready. Qed.

(** Once both sides have ended, the join of the two sides is emitted, without reading. *)
Lemma drain_merge ls rs out self Ld lr Rd rr :
  StronglySorted descends ls → StronglySorted descends rs →
  merge_at ls rs out self Ld lr Rd rr → sm_buffer self = [] →
  ∃ outs self', runs sort_merge_join self [] (Item <$> outs) self' ∧ exhausted self' ∧
    out ++ outs ≡ₚ relational_join v ls rs.
Proof.
  intros Sl Sr. remember (turns_left self) as n eqn:En. revert out self Ld lr Rd rr En.
  induction (lt_wf n) as [n _ IH]. intros out self Ld lr Rd rr -> Hat Hb.
  destruct (advance_spec (λ s, ∃ Ld lr Rd rr, merge_at ls rs (out ++ sm_buffer s) s Ld lr Rd rr) self)
    as (self1 & Hadv & (Ld1 & lr1 & Rd1 & rr1 & Hat1) & Hturn & Hend).
  { exists Ld, lr, Rd, rr. by rewrite Hb, app_nil_r. }
  { intros s (Ld2 & lr2 & Rd2 & rr2 & Hs) Hbs _. by eapply advance_turn_at. }
  assert (sort_merge_advance v self = Done self1) as Hadv'.
  { unfold sort_merge_advance. destruct (ma_ended _ _ _ _ _ _ _ _ Hat) as [-> ->]. by rewrite Hb. }
  destruct Hat1 as [Hl1 Hr1 [He1 He2] Els1 Ers1 Hk1 Hlow1 Hhigh1 Ho1].
  destruct self1 as [le1 re1 l1 r1 buf1 lk1]. cbn in *. subst le1 re1 l1 r1.
  destruct buf1 as [|b buf1].
  - destruct (Hend eq_refl) as [El Er]. exists [], self. split_and!; [constructor| |].
    + split; [done|]. exists lk1. by rewrite Hadv', El, Er.
    + rewrite Ho1. apply (f_equal (@rev _)) in El, Er. rewrite rev_involutive in El, Er. cbn in El, Er.
      subst lr1 rr1. rewrite app_nil_r in Els1, Ers1. subst Ld1 Rd1. unfold relational_join, join_so_far.
      by rewrite !andb_true_r.
  - destruct Hturn as [Heq|Hturn]; [by rewrite <-Heq in Hb|].
    destruct (IH _ Hturn (out ++ b :: buf1) (mkSortMerge true true (rev lr1) (rev rr1) [] lk1)
      Ld1 lr1 Rd1 rr1) as (outs & self' & Hr & Hx & Hp); [done|by split|done|].
    exists ((b :: buf1) ++ outs), self'. split_and!; [|done|by rewrite app_assoc].
    rewrite fmap_app. eapply (runs_app _ _ [] _ _ []); [|exact Hr].
    cbn. eapply runs_ready; [cbn; by rewrite Hadv'|]. apply drain_buffer.
Qed.

(** A side while it is collected: its items, sorted once it has ended. *)
Definition collected {V} (ended : bool) (l xs : list (K * V)) : Prop :=
  l ≡ₚ xs ∧ (ended = true → StronglySorted (λ a b, key_leb a.1 b.1 = true) l).

Definition sort_merge_at (s : seen (K * L) (K * R)) (self : SortMerge_state K L R) : Prop :=
  if se_le s && se_re s then exhausted self
  else ∃ l r, self = mkSortMerge (se_le s) (se_re s) l r [] None ∧
         collected (se_le s) l (se_ls s) ∧ collected (se_re s) r (se_rs s).

(** What has been emitted: everything, once both sides have ended. *)
Definition emitted (s : seen (K * L) (K * R)) : list (K * (option L * option R)) :=
  if se_le s && se_re s then relational_join v (se_ls s) (se_rs s) else [].

Lemma by_key_preorder {V} : total_preorder (by_key (K := K) (V := V)).
Proof.
  split; unfold by_key; intros; [apply key_leb_total|by eapply key_leb_trans].
Qed.

Lemma collected_sorted {V} (l xs : list (K * V)) : l ≡ₚ xs → collected true (glidesort by_key l) xs.
Proof.
  intros E. split; [by rewrite glidesort_perm|]. intros _. apply glidesort_sorted, by_key_preorder.
Qed.

Lemma StronglySorted_rev {X} (P : X → X → Prop) l :
  StronglySorted P l → StronglySorted (λ a b, P b a) (rev l).
Proof.
  induction 1 as [|x l Hs IH Hx]; cbn; [constructor|]. apply StronglySorted_app_2; [|done|].
  - intros y z Hy Hz%list_elem_of_singleton. subst z. rewrite Forall_forall in Hx. apply Hx.
    by rewrite <-(Permutation_rev l) in Hy.
  - by repeat constructor.
Qed.

(** Both sides sorted: the merge starts, and runs to its end. *)
Lemma start_merge l r ls rs :
  collected true l ls → collected true r rs →
  ∃ outs self', runs sort_merge_join (mkSortMerge true true l r [] None) [] (Item <$> outs) self' ∧
    exhausted self' ∧ outs ≡ₚ relational_join v ls rs.
Proof.
  intros [Pl Sl] [Pr Sr].
  destruct (drain_merge (rev l) (rev r) [] (mkSortMerge true true l r [] None) [] (rev l) [] (rev r))
    as (outs & self' & Hr & Hx & Hp).
  - apply (StronglySorted_rev _ l), Sl. done.
  - apply (StronglySorted_rev _ r), Sr. done.
  - split; cbn; try done; try (by rewrite rev_involutive); try (by intros ? ? ? ?%elem_of_nil);
      try (by intros ? ? ?%elem_of_nil).
    by destruct (left_outer v), (right_outer v).
  - done.
  - exists outs, self'. split_and!; [done..|]. rewrite <-(app_nil_l outs), Hp.
    apply relational_join_perm; by rewrite <-Permutation_rev.
Qed.

(** One item of the binary stream. *)
Lemma sort_merge_item s self e s' :
  sort_merge_at s self → see s (bmap (λ x, (keyer1 x, x)) (λ x, (keyer2 x, x)) e) = Some s' →
  ∃ outs self', consumes sort_merge_join self [Item e] (Item <$> outs) self' ∧
    sort_merge_at s' self' ∧ emitted s ++ outs ≡ₚ emitted s'.
Proof.
  destruct s as [le re ls rs]. unfold sort_merge_at, emitted. cbn [se_le se_re se_ls se_rs].
  intros Hat Hsee. destruct (le && re) eqn:Elr.
  { destruct le, re; try done. by destruct e. }
  destruct Hat as (l & r & -> & Hl & Hr).
  assert (sort_merge_advance v (mkSortMerge le re l r [] None) =
    Done (mkSortMerge le re l r [] None)) as Hadv.
  { unfold sort_merge_advance. by destruct le, re. }
  assert (∀ le' re' l' r', sort_merge_handle keyer1 keyer2 (mkSortMerge le re l r [] None) (Item e) =
      Done (mkSortMerge le' re' l' r' [] None, None) →
    collected le' l' (se_ls s') → collected re' r' (se_rs s') →
    se_le s' = le' → se_re s' = re' →
    ∃ outs self', consumes sort_merge_join (mkSortMerge le re l r [] None) [Item e] (Item <$> outs) self' ∧
      (if se_le s' && se_re s' then exhausted self'
       else ∃ l r, self' = mkSortMerge (se_le s') (se_re s') l r [] None ∧
              collected (se_le s') l (se_ls s') ∧ collected (se_re s') r (se_rs s')) ∧
      [] ++ outs ≡ₚ (if se_le s' && se_re s' then relational_join v (se_ls s') (se_rs s') else [])) as Hgo.
  { intros le' re' l' r' Hh Hl' Hr' E1 E2. rewrite E1, E2.
    destruct (le' && re') eqn:E.
    - apply andb_prop in E as [-> ->].
      destruct (start_merge l' r' _ _ Hl' Hr') as (outs & self' & Hruns & Hx & Hp).
      exists outs, self'. split_and!; [|done..].
      eapply consumes_buffer; [cbn; by rewrite Hadv|cbn [t_feed sort_merge_join]; by rewrite Hadv|done].
    - exists [], (mkSortMerge le' re' l' r' [] None). split_and!; [|by eauto|done].
      eapply consumes_buffer; [cbn; by rewrite Hadv|cbn [t_feed sort_merge_join]; by rewrite Hadv|].
      constructor. }
  destruct Hl as [Pl Sl], Hr as [Pr Sr].
  destruct e as [x|x| |]; cbn in Hsee.
  - destruct le; [done|]. injection Hsee as <-. eapply Hgo; [done|split; [by rewrite Pl|done]|by split|done..].
  - destruct re; [done|]. injection Hsee as <-. eapply Hgo; [done|by split|split; [by rewrite Pr|done]|done..].
  - destruct le; [done|]. injection Hsee as <-. eapply Hgo; [done|by apply collected_sorted|by split|done..].
  - destruct re; [done|]. injection Hsee as <-. eapply Hgo; [done|by split|by apply collected_sorted|done..].
Qed.

Lemma sort_merge_consumes s self inp s' :
  sort_merge_at s self →
  see_all s (se_map (bmap (λ x, (keyer1 x, x)) (λ x, (keyer2 x, x))) <$> inp) = Some s' →
  ∃ outs self', consumes sort_merge_join self inp outs self' ∧ sort_merge_at s' self' ∧
    Forall untimed outs ∧ emitted s ++ omap value outs ≡ₚ emitted s'.
Proof.
  revert s self. induction inp as [|e inp IH]; intros s self Hat Hsee.
  - injection Hsee as <-. exists [], self. split_and!; [apply consumes_nil|done|done|].
    by rewrite app_nil_r.
  - destruct e as [e| | | | |]; cbn in Hsee; try done.
    + destruct (see s _) as [s1|] eqn:E; [|done].
      destruct (sort_merge_item s self e s1 Hat E) as (out & self1 & Hc1 & Hat1 & Hd).
      destruct (IH s1 self1 Hat1 Hsee) as (outs & self' & Hc & Hat' & Hu & Hd').
      exists ((Item <$> out) ++ outs), self'. split_and!; [by eapply consumes_cons|done| |].
      * apply Forall_app. split; [|done]. apply Forall_fmap. by apply Forall_true.
      * rewrite omap_app, <-Hd', <-Hd, <-app_assoc. f_equiv. f_equiv.
        clear. induction out as [|x out IH]; [done|]. cbn. by f_equiv.
    + assert (∃ self1, sort_merge_advance v self = Done self1 ∧ sm_buffer self1 = [] ∧
        sort_merge_at s self1) as (self1 & Hadv & Hb & Hat1).
      { unfold sort_merge_at in *. destruct s as [[] [] ls rs]; cbn in *.
        - destruct Hat as [Hb (lk & Hadv)]. eexists. split_and!; [done..|]. split; [done|].
          by exists lk.
        - destruct Hat as (l & r & -> & ?). eexists. by split_and!; eauto.
        - destruct Hat as (l & r & -> & ?). eexists. by split_and!; eauto.
        - destruct Hat as (l & r & -> & ?). eexists. by split_and!; eauto. }
      destruct (IH s self1 Hat1 Hsee) as (outs & self' & Hc & Hat' & Hu & Hd').
      exists (FlushBatch :: outs), self'. split_and!; [|done|by constructor|done].
      eapply (consumes_cons _ _ _ [FlushBatch]); [|exact Hc].
      eapply consumes_return; cbn; rewrite Hadv; [unfold sort_merge_pop; by rewrite Hb|].
      by destruct self1.
Qed.

(** A whole round, from the initial state to the initial state. *)
Lemma sort_merge_round_runs (l : list (StreamElement (BinaryElement L R))) (ls : list L) (rs : list R) :
  binary_round l ls rs →
  ∃ outs, runs sort_merge_join SortMerge_new (l ++ [FlushAndRestart]) (outs ++ [FlushAndRestart]) SortMerge_new ∧
    Forall untimed outs ∧
    omap value outs ≡ₚ relational_join v ((λ x, (keyer1 x, x)) <$> ls) ((λ x, (keyer2 x, x)) <$> rs).
Proof.
  intros Hr.
  destruct (sort_merge_consumes (mkSeen false false [] []) SortMerge_new l
    (mkSeen true true ((λ x, (keyer1 x, x)) <$> ls) ((λ x, (keyer2 x, x)) <$> rs)))
    as (outs & self' & Hc & [Hb (lk & Hadv)] & Hu & Hd).
  { exists [], []. split_and!; [done|by split..]. }
  { exact (see_all_bmap _ _ _ _ _ Hr). }
  exists outs. split_and!; [|done..]. apply Hc. eapply runs_return; [| |constructor]; cbn; by rewrite Hadv.
Qed.
End merge.

Definition JoinLocalSortMerge {K L R} `{EqDecision K, !OrdKey K, !Glidesort} (v : JoinVariant)
    (keyer1 : L → K) (keyer2 : R → K) (prev : Operator (BinaryElement L R))
    : Operator (K * (option L * option R)) :=
  mkOperator _ (JoinLocalSortMerge_next v keyer1 keyer2 prev).

(** The sort-merge join computes the same relational join as the hash joins: for every
    interleaving of the two sides and every variant, merging the sorted sides emits each
    matching pair once, with the unmatched items of the outer sides; no [unwrap] on an
    empty vector and no assertion fails, and the operator is ready for the next round. *)
Theorem JoinLocalSortMerge_round {K L R} `{Countable K, !OrdKey K, !Glidesort} v (keyer1 : L → K)
    (keyer2 : R → K) (prev : Operator (BinaryElement L R)) `{!OperatorLaws prev} p l ls rs p' :
  binary_round l ls rs → emits prev p (l ++ [FlushAndRestart]) p' →
  ∃ outs, emits (JoinLocalSortMerge v keyer1 keyer2 prev) (SortMerge_new, p)
      (outs ++ [FlushAndRestart]) (SortMerge_new, p') ∧
    Forall untimed outs ∧
    omap value outs ≡ₚ relational_join v ((λ x, (keyer1 x, x)) <$> ls) ((λ x, (keyer2 x, x)) <$> rs).
Proof.
  intros Hr Hp. destruct (sort_merge_round_runs v keyer1 keyer2 l ls rs Hr) as (outs & Hruns & Hu & Hd).
  exists outs. split_and!; [|done..].
  by eapply (refines_emits prev (sort_merge_join v keyer1 keyer2)); [apply follows_refines; apply _| |].
Qed.

(** Natural numbers in their usual order. *)
Definition nat_ord : OrdKey nat.
Proof.
  refine {| key_leb := Nat.leb |}; intros *; rewrite ?Nat.leb_le; lia.
Defined.

Lemma JoinLocalSortMerge_round_witness :
  let l := [Item (BLeft 11); Item (BRight 25); FlushBatch; Item (BRight 21); Item RightEnd;
            Item (BLeft 14); Item LeftEnd] in
  ∃ outs, emits (@JoinLocalSortMerge nat nat nat _ nat_ord insertion_glidesort Outer (λ x, x mod 10)
        (λ x, x mod 10) (FakeOperator _)) (SortMerge_new, l ++ [FlushAndRestart])
      (outs ++ [FlushAndRestart]) (SortMerge_new, []) ∧
    Forall untimed outs ∧
    omap value outs ≡ₚ [(1, (Some 11, Some 21)); (4, (Some 14, None)); (5, (None, Some 25))].
Proof.
  intros l. refine (@JoinLocalSortMerge_round nat nat nat _ _ nat_ord insertion_glidesort Outer
    (λ x, x mod 10) (λ x, x mod 10) (FakeOperator _) _ _ l [11; 14] [25; 21] [] _ _).
  - reflexivity.
  - apply FakeOperator_emits_all.
Defined.
