(* ===== verification/DistributedJoin.v ===== *)
(** * Joins across the network

    [Stream::join], [left_join], [outer_join] and [join_with] of
    [src/src/operator/join/mod.rs]: the ship strategies of [ship.rs] on the blocks of the two
    sides, [Start::multiple] and the local joins of [local_hash.rs] and
    [local_sort_merge.rs] on the block that joins.  The local joins are used through the class
    [LocalJoin]; the theorems put the whole job together. *)
From S2P Require Import Prelude StreamElement Operator BasicOps Folds Frontier Batcher Start End Shuffle Exchange GroupByFold.
From S2P Require Import BinaryStart Join BinaryJoin BinaryFinal SortMerge.

(** ** Joins of shares *)
Section shares.
Context {K L R : Type} `{Countable K} (P : K → Prop) `{!∀ k, Decision (P k)}.

Lemma side_values_filter {V} k (xs : list (K * V)) :
  P k → side_values k (base.filter (λ x, P x.1) xs) = side_values k xs.
Proof.
  intros Hk. unfold side_values. f_equal. rewrite list_filter_filter. apply list_filter_iff. naive_solver.
Qed.
Lemma keys_filter {V} k (xs : list (K * V)) : P k → k ∈ (base.filter (λ x, P x.1) xs).*1 ↔ k ∈ xs.*1.
Proof. intros Hk. rewrite !list_elem_of_fmap. setoid_rewrite list_elem_of_filter. naive_solver. Qed.

Lemma filter_keyed {V W} (f : K * V → K * W) (xs : list (K * V)) :
  (∀ x, (f x).1 = x.1) →
  base.filter (λ x, P x.1) (f <$> xs) = f <$> base.filter (λ x, P x.1) xs.
Proof.
  intros Hf. induction xs as [|x xs IH]; [done|]. rewrite fmap_cons, !filter_cons, IH, Hf. by case_decide.
Qed.
Lemma matched_filter (ls : list (K * L)) (rs : list (K * R)) :
  matched (base.filter (λ x, P x.1) ls) (base.filter (λ x, P x.1) rs) = base.filter (λ x, P x.1) (matched ls rs).
Proof.
  induction ls as [|l ls IH]; [done|]. unfold matched in *. rewrite bind_cons, filter_app, filter_cons, <-IH.
  case_decide as Hl; cbn [mbind list_bind].
  - rewrite side_values_filter by done. f_equal. symmetry. apply list_filter_all, Forall_fmap, Forall_true. done.
  - rewrite (list_filter_none _ (_ <$> _)); [done|]. by apply Forall_fmap, Forall_true.
Qed.
Lemma alone_filter {V W} (xs : list (K * V)) (ys : list (K * W)) :
  alone (base.filter (λ x, P x.1) xs) (base.filter (λ x, P x.1) ys) = base.filter (λ x, P x.1) (alone xs ys).
Proof.
  unfold alone. rewrite !list_filter_filter. apply list_filter_iff. intros x.
  split; intros [? ?]; split_and?; try done; by rewrite keys_filter in * by done.
Qed.
(** Joining the items of some keys is keeping these keys of the join. *)
Lemma relational_join_filter v (ls : list (K * L)) (rs : list (K * R)) :
  relational_join v (base.filter (λ x, P x.1) ls) (base.filter (λ x, P x.1) rs) =
  base.filter (λ x, P x.1) (relational_join v ls rs).
Proof.
  unfold relational_join, join_so_far. rewrite matched_filter, !alone_filter, !filter_app.
  do 2 f_equal; case_match; by rewrite ?filter_keyed.
Qed.
End shares.

(** ** What the job needs of a local join *)
(** Set up after the operators of the block, it emits the join of the round and is ready for
    the end of the stream. *)
Class LocalJoin {K L R} `{Countable K} (v : JoinVariant) (keyer1 : L → K) (keyer2 : R → K)
    (join : Operator (BinaryElement L R) → Operator (K * (option L * option R))) := {
  lj_new prev : op_state prev → op_state (join prev);
  lj_laws prev `{!OperatorLaws prev} : OperatorLaws (join prev);
  lj_round prev `{!OperatorLaws prev} p l n ls rs p' :
    binary_round l ls rs →
    emits prev p (l ++ FlushAndRestart :: replicate n FlushBatch ++ [Terminate]) p' →
    ∃ outs st',
      emits (join prev) (lj_new prev p) (outs ++ FlushAndRestart :: replicate n FlushBatch ++ [Terminate]) st' ∧
      Forall untimed outs ∧
      omap value outs ≡ₚ relational_join v ((λ x, (keyer1 x, x)) <$> ls) ((λ x, (keyer2 x, x)) <$> rs)
}.
Global Arguments lj_new {_ _ _ _ _ _ _ _ _ _} _ _.

(** The end of the stream goes through. *)
Lemma runs_tail {A B} (t : transducer A B) s n :
  t_ready t s = None → t_feed t s FlushBatch = Done (s, Some FlushBatch) →
  t_feed t s Terminate = Done (s, Some Terminate) →
  runs t s (replicate n FlushBatch ++ [Terminate]) (replicate n FlushBatch ++ [Terminate]) s.
Proof.
  intros H0 Hf Ht. induction n as [|n IH]; cbn; (eapply runs_return; [done|eassumption|]); [constructor|done].
Qed.
Lemma runs_round_tail {A B} (t : transducer A B) s l outs n :
  runs t s (l ++ [FlushAndRestart]) (outs ++ [FlushAndRestart]) s →
  t_ready t s = None → t_feed t s FlushBatch = Done (s, Some FlushBatch) →
  t_feed t s Terminate = Done (s, Some Terminate) →
  runs t s (l ++ FlushAndRestart :: replicate n FlushBatch ++ [Terminate])
    (outs ++ FlushAndRestart :: replicate n FlushBatch ++ [Terminate]) s.
Proof.
  intros Hr H0 Hf Ht. rewrite !(cons_middle FlushAndRestart), !(assoc_L (++)).
  rewrite <-!(assoc_L (++) _ (replicate _ _)). eapply runs_app; [done|]. by apply runs_tail.
Qed.

Section local_joins.
Context {K L R : Type} `{Countable K} (v : JoinVariant) (keyer1 : L → K) (keyer2 : R → K).

Global Instance JoinLocalHash_local `{!HashOrder} : LocalJoin v keyer1 keyer2 (JoinLocalHash v keyer1 keyer2).
Proof.
  refine {| lj_new prev p := (JoinHash_new, p) : op_state (JoinLocalHash v keyer1 keyer2 prev) |}.
  - intros prev ?. apply (follows_laws prev (local_hash_join v keyer1 keyer2) _).
  - intros prev ? p l n ls rs p' Hl He.
    destruct (join_round_runs v _ (local_hash_item v keyer1 keyer2) l _ _
      (local_hash_keyed v keyer1 keyer2) (see_all_bmap _ _ _ _ _ Hl)) as (outs & Hr & Hu & Hd).
    exists outs, (JoinHash_new, p'). split_and!; [|done..].
    eapply (refines_emits prev (local_hash_join v keyer1 keyer2)); [apply follows_refines; apply _| |exact He].
    by apply runs_round_tail.
Defined.

Global Instance JoinLocalSortMerge_local `{!OrdKey K, !Glidesort} :
  LocalJoin v keyer1 keyer2 (JoinLocalSortMerge v keyer1 keyer2).
Proof.
  refine {| lj_new prev p := (SortMerge_new, p) : op_state (JoinLocalSortMerge v keyer1 keyer2 prev) |}.
  - intros prev ?. apply (follows_laws prev (sort_merge_join v keyer1 keyer2) _).
  - intros prev ? p l n ls rs p' Hl He.
    destruct (sort_merge_round_runs v keyer1 keyer2 l ls rs Hl) as (outs & Hr & Hu & Hd).
    exists outs, (SortMerge_new, p'). split_and!; [|done..].
    eapply (refines_emits prev (sort_merge_join v keyer1 keyer2)); [apply follows_refines; apply _| |exact He].
    by apply runs_round_tail.
Defined.
End local_joins.

(** ** The tuples of the result *)
(** [InnerJoinTuple], [LeftJoinTuple] and [OuterJoinTuple]. *)
Definition JoinTuple (v : JoinVariant) (L R : Type) : Type :=
  match v with Inner => L * R | LeftJoin => L * option R | Outer => option L * option R end.
(** The closures [inner] and [left] map the pairs with, which may panic; [outer] has none. *)
Definition unwrap_pair {L R} (v : JoinVariant) : option L * option R → outcome (JoinTuple v L R) :=
  match v with
  | Inner => λ '(lhs, rhs), l ← unwrap lhs; r ← unwrap rhs; Done (l, r)
  | LeftJoin => λ '(lhs, rhs), l ← unwrap lhs; Done (l, rhs)
  | Outer => Done
  end.
(** A tuple as a pair of optional items. *)
Definition tuple_pair {L R} (v : JoinVariant) : JoinTuple v L R → option L * option R :=
  match v with
  | Inner => λ '(l, r), (Some l, Some r)
  | LeftJoin => λ '(l, r), (Some l, r)
  | Outer => id
  end.

(** No panic on items in the image of [g], which [f] inverts. *)
Lemma map_closure_items {A O} (f : A → outcome O) (g : O → A) l :
  Forall untimed l → (∀ x, x ∈ omap value l → ∃ y, f x = Done y ∧ g y = x) →
  ∃ l', Forall2 (λ e e', map_closure_elem f e = Done e') l l' ∧ Forall untimed l' ∧
    g <$> omap value l' = omap value l.
Proof.
  induction 1 as [|e l Hu _ IH]; intros Hf; [by exists []|].
  destruct IH as (l' & He & Hu' & Hv).
  { intros x Hx. apply Hf. csimpl. destruct (value e); [by right|done]. }
  destruct e as [x| | | | |]; try done.
  - destruct (Hf x) as (y & Hy & Hg); [csimpl; left|]. exists (Item y :: l').
    split_and!; [constructor; [cbn; by rewrite Hy|done]|by constructor|csimpl; by rewrite Hg, Hv].
  - exists (FlushBatch :: l'). split_and!; [by constructor|by constructor|done].
Qed.

(** [.inner()], [.left()] and [.outer()]: the local join, and the [map] of the first two. *)
Definition join_output {K L R} (v : JoinVariant) (join : Operator (K * (option L * option R)))
    : Operator (K * JoinTuple v L R) :=
  match v with
  | Inner => Map_closure join (λ '(k, t), x ← unwrap_pair Inner t; Done (k, x))
  | LeftJoin => Map_closure join (λ '(k, t), x ← unwrap_pair LeftJoin t; Done (k, x))
  | Outer => join
  end.
Definition join_output_new {K L R} (v : JoinVariant) (join : Operator (K * (option L * option R)))
    : op_state join → op_state (join_output v join) :=
  match v with Inner | LeftJoin => λ s, (tt, s) | Outer => λ s, s end.

(** The closures do not panic on the tuples of a join. *)
Lemma relational_join_unwrap {K L R} `{Countable K} v (ls : list (K * L)) (rs : list (K * R)) x :
  x ∈ relational_join v ls rs →
  ∃ y, (x' ← unwrap_pair v x.2; Done (x.1, x')) = Done y ∧ prod_map id (tuple_pair v) y = x.
Proof.
  unfold relational_join, join_so_far, matched, left_only, right_only.
  rewrite !elem_of_app. intros [(l & (r & -> & _)%list_elem_of_fmap & _)%list_elem_of_bind|[Hx|Hx]].
  - destruct v; cbn; by eexists.
  - destruct v; cbn in Hx; [by apply elem_of_nil in Hx|..];
      apply list_elem_of_fmap in Hx as (l & -> & _); cbn; by eexists.
  - destruct v; cbn in Hx; [by apply elem_of_nil in Hx..|].
    apply list_elem_of_fmap in Hx as (l & -> & _); cbn; by eexists.
Qed.

Lemma join_output_emits {K L R} `{Countable K} v (join : Operator (K * (option L * option R))) p p' outs n
    (ls : list (K * L)) (rs : list (K * R)) :
  emits join p (outs ++ FlushAndRestart :: replicate n FlushBatch ++ [Terminate]) p' →
  Forall untimed outs → omap value outs ≡ₚ relational_join v ls rs →
  ∃ outs' st',
    emits (join_output v join) (join_output_new v join p)
      (outs' ++ FlushAndRestart :: replicate n FlushBatch ++ [Terminate]) st' ∧
    Forall untimed outs' ∧ prod_map id (tuple_pair v) <$> omap value outs' ≡ₚ relational_join v ls rs.
Proof.
  intros He Hu Hv.
  destruct (map_closure_items (λ x, x' ← unwrap_pair v x.2; Done (x.1, x')) (prod_map id (tuple_pair v)) outs Hu)
    as (outs' & Hm & Hu' & Hv').
  { intros x. rewrite Hv. apply relational_join_unwrap. }
  assert (Forall2 (λ e e', map_closure_elem (λ x, x' ← unwrap_pair v x.2; Done (x.1, x')) e = Done e')
    (outs ++ FlushAndRestart :: replicate n FlushBatch ++ [Terminate])
    (outs' ++ FlushAndRestart :: replicate n FlushBatch ++ [Terminate])) as Hall.
  { apply Forall2_app; [done|]. constructor; [done|]. apply Forall2_app; [|by repeat constructor].
    clear. by induction n; constructor. }
  rewrite <-Hv' in Hv. destruct v; cbn [join_output join_output_new].
  - exists outs', (tt, p'). split_and!; [|done..]. eapply Map_closure_emits; [exact He|].
    eapply Forall2_impl; [exact Hall|]. intros [[? []]|[? []]| | | |] e'; done.
  - exists outs', (tt, p'). split_and!; [|done..]. eapply Map_closure_emits; [exact He|].
    eapply Forall2_impl; [exact Hall|]. intros [[? []]|[? []]| | | |] e'; done.
  - exists outs, p'. split_and!; [done..|]. rewrite Hv' in Hv. by rewrite (fmap_prod_id (omap value outs)).
Qed.

(** ** The block that joins *)
(** [local_hash] and [local_sort_merge], which needs the keys to be ordered. *)
Inductive LocalStrategy (K : Type) `{EqDecision K} :=
| LocalHash
| LocalSortMerge (ord : OrdKey K).
Global Arguments LocalHash {_ _}.
Global Arguments LocalSortMerge {_ _} _.
(** What the standard library of a replica does: the order of its hash maps, its sort. *)
Record Library := mkLibrary { lib_order : HashOrder; lib_sort : Glidesort }.

(** The chain after [Start::multiple], seen from the job: the items of the two sides carry the keys
    [kv1] and [kv2] give them, and the tuples, seen through [view], are the join of the round. *)
Class JoinChain {K A B L R T} `{Countable K} (v : JoinVariant) (kv1 : A → K * L) (kv2 : B → K * R)
    (view : T → option L * option R) (chain : Operator (BinaryElement A B) → Operator (K * T)) := {
  jc_new prev : op_state prev → op_state (chain prev);
  jc_round prev `{!OperatorLaws prev} p l n ls rs p' :
    binary_round l ls rs →
    emits prev p (l ++ FlushAndRestart :: replicate n FlushBatch ++ [Terminate]) p' →
    ∃ outs st',
      emits (chain prev) (jc_new prev p) (outs ++ FlushAndRestart :: replicate n FlushBatch ++ [Terminate]) st' ∧
      Forall untimed outs ∧ prod_map id view <$> omap value outs ≡ₚ relational_join v (kv1 <$> ls) (kv2 <$> rs)
}.

Section local_chains.
Context {K L R : Type} `{Countable K}.
Context (local : LocalStrategy K) (v : JoinVariant) (keyer1 : L → K) (keyer2 : R → K).

Definition local_join (lib : Library) : Operator (BinaryElement L R) → Operator (K * (option L * option R)) :=
  match local with
  | LocalHash => let _ := lib_order lib in JoinLocalHash v keyer1 keyer2
  | LocalSortMerge ord => let _ := lib_sort lib in JoinLocalSortMerge v keyer1 keyer2
  end.
Global Instance local_join_local lib : LocalJoin v keyer1 keyer2 (local_join lib).
Proof. unfold local_join. destruct local; apply _. Defined.

(** The chain of [join_with]: the local join and its output. *)
Definition join_with_chain (lib : Library) (prev : Operator (BinaryElement L R)) : Operator (K * JoinTuple v L R) :=
  join_output v (local_join lib prev).
Global Instance join_with_chain_ok lib :
  JoinChain v (λ x, (keyer1 x, x)) (λ x, (keyer2 x, x)) (tuple_pair v) (join_with_chain lib).
Proof.
  refine {| jc_new prev p := join_output_new v (local_join lib prev) (lj_new prev p) |}.
  intros prev ? p l n ls rs p' Hl He.
  destruct (lj_round (LocalJoin := local_join_local lib) prev _ _ _ _ _ _ Hl He) as (outs & st & Hj & Hu & Hv).
  by apply (join_output_emits v _ _ _ _ _ _ _ Hj Hu Hv).
Defined.
End local_chains.

(** The keyed joins ([KeyedStream::join_outer] and [KeyedStream::join]) have keyed items. *)
Section keyed_chains.
Context {K L R : Type} `{Countable K}.
Definition keyed_outer_chain (lib : Library) : Operator (BinaryElement (K * L) (K * R)) → Operator (K * (option L * option R)) :=
  let _ := lib_order lib in JoinKeyedOuter Outer.
Global Instance keyed_outer_chain_ok lib :
  JoinChain (K := K) (A := K * L) (B := K * R) (L := L) (R := R) Outer id id id (keyed_outer_chain lib).
Proof.
  refine {| jc_new prev p := (JoinHash_new, p) : op_state (keyed_outer_chain lib prev) |}.
  intros prev ? p l n ls rs p' Hl He. pose (lib_order lib) as order.
  destruct (join_round_runs Outer id (keyed_outer_item Outer) l ls rs ltac:(done)) as (outs & Hr & Hu & Hd).
  { rewrite (list_fmap_ext _ id) by (by intros ? [] ?). by rewrite list_fmap_id. }
  exists outs, (JoinHash_new, p'). split_and!; [|done|rewrite fmap_prod_id, !list_fmap_id; exact Hd].
  eapply (refines_emits prev (keyed_outer_join Outer)); [apply follows_refines; apply _| |exact He].
  by apply runs_round_tail.
Defined.
Definition both {L R} (t : L * R) : option L * option R := (Some t.1, Some t.2).
Global Instance keyed_inner_chain_ok :
  JoinChain (K := K) (A := K * L) (B := K * R) (T := L * R) Inner id id both JoinKeyedInner.
Proof.
  refine {| jc_new prev p := (JoinInner_new, p) : op_state (JoinKeyedInner prev) |}.
  intros prev ? p l n ls rs p' Hl He.
  destruct (keyed_inner_round_runs l ls rs Hl) as (outs & Hr & Hu & Hd).
  exists outs, (JoinInner_new, p'). split_and!; [|done|].
  - eapply (refines_emits prev keyed_inner_join); [apply follows_refines; apply _| |exact He].
    by apply runs_round_tail.
  - rewrite !list_fmap_id, <-Hd. apply reflexive_eq, list_fmap_ext. by intros ? [? []] ?.
Defined.
End keyed_chains.

Section block.
Context {K A B L R T : Type} `{Countable K, !TypeId A, !TypeId B}.
Context (v : JoinVariant) (kv1 : A → K * L) (kv2 : B → K * R) (view : T → option L * option R)
  (chain : Operator (BinaryElement A B) → Operator (K * T)) `{!JoinChain v kv1 kv2 view chain}.

(** A replica of the block is set up with the channels of its two sides and runs to
    [Terminate], giving the tuples [res]; [picks] are the choices of [select]. *)
Definition joining (pb1 pb2 : BlockId) (md : ExecutionMetadata) (picks : list bool)
    (cl : channel A) (cr : channel B) (res : list (K * T)) : Prop :=
  ∃ rx q outs n st',
    BinaryStartReceiver_new (L := A) (R := B) pb1 pb2 false false picks = Done rx ∧
    Start_setup (R := BinaryStartReceiver A B) (A := BinaryElement A B) md
      ((λ _, Done cl), (λ _, Done cr)) (Start_new rx) = Done q ∧
    emits (chain (Start None)) (jc_new (Start None) q)
      (outs ++ FlushAndRestart :: replicate n FlushBatch ++ [Terminate]) st' ∧
    Forall untimed outs ∧ omap value outs = res.

Lemma joining_runs pb1 pb2 md picks cs1 cs2 (share1 : Coord → list A) (share2 : Coord → list B) cl cr :
  NoDup (cs1 ++ cs2) → cs1 ≠ [] → cs2 ≠ [] →
  matching (A := A) pb1 (em_prev md) ≡ₚ cs1 → matching (A := B) pb2 (em_prev md) ≡ₚ cs2 →
  delivery cs1 share1 cl → delivery cs2 share2 cr →
  ∃ res, joining pb1 pb2 md picks cl cr res ∧
    prod_map id view <$> res ≡ₚ
      relational_join v (kv1 <$> concat (share1 <$> cs1)) (kv2 <$> concat (share2 <$> cs2)).
Proof.
  intros Hnd Hne1 Hne2 Hp1 Hp2 Hd1 Hd2.
  destruct (binary_setup_spec md pb1 pb2 picks cl cr) as (rx & s & Hnew & Hset & Hs).
  set (lp := matching (A := A) pb1 (em_prev md)) in *. set (rp := matching (A := B) pb2 (em_prev md)) in *.
  assert (lp ≠ []) as Hl by (intros E; rewrite E in Hp1; by apply Permutation_nil in Hp1).
  assert (rp ≠ []) as Hr by (intros E; rewrite E in Hp2; by apply Permutation_nil in Hp2).
  destruct (binary_block_final (max_delay (em_batch_mode md)) lp rp pb1 pb2 picks s share1 share2 cl cr)
    as (mid & fl & s' & rx' & xs & ys & He & Hfl & Hround & Hxs & Hys); [by rewrite Hp1, Hp2|done..| | |].
  { by eapply delivery_perm. }
  { by eapply delivery_perm. }
  assert (fl = replicate (length fl) FlushBatch) as Efl.
  { clear -Hfl. induction Hfl as [|e fl -> _ IH]; [done|]. cbn. by f_equal. }
  rewrite Efl in He.
  destruct (jc_round (Start None) _ _ _ _ _ _ Hround He) as (outs & st & Hj & Hu & Hv).
  exists (omap value outs). split; [by eexists _, _, outs, _, st|]. rewrite Hv.
  apply relational_join_perm; apply fmap_Permutation; [rewrite Hxs|rewrite Hys]; by rewrite ?Hp1, ?Hp2.
Qed.
End block.

(** ** The blocks of the two sides *)
(** [ShipHash] and [ShipBroadcastRight], and what they ask of [End] on each side
    ([JoinStreamShipHash::new] and [JoinStreamShipBroadcastRight::new]). *)
Inductive ShipStrategy := ShipHash | ShipBroadcastRight.
Definition ship_hash {K L R} (group_by_hash : K → N) (keyer1 : L → K) (keyer2 : R → K)
    : NextStrategy L * NextStrategy R :=
  (group_by group_by_hash keyer1, group_by group_by_hash keyer2).
Definition ship_broadcast_right {L R} : NextStrategy L * NextStrategy R := (OnlyOne, All).
Definition ship_strategies {K L R} (group_by_hash : K → N) (keyer1 : L → K) (keyer2 : R → K)
    (ship : ShipStrategy) : NextStrategy L * NextStrategy R :=
  match ship with
  | ShipHash => ship_hash group_by_hash keyer1 keyer2
  | ShipBroadcastRight => ship_broadcast_right
  end.

(** The replicas connected to a receiver. *)
Definition connected (to : Coord → list Coord) (cs : list Coord) (r : Coord) : list Coord :=
  base.filter (λ c, r ∈ to c) cs.

Section job.
Context {K A B L R T : Type} `{Countable K, !TypeId A, !TypeId B}.
Context (v : JoinVariant) (kv1 : A → K * L) (kv2 : B → K * R) (view : T → option L * option R)
  (chains : Coord → Operator (BinaryElement A B) → Operator (K * T)) `{!∀ c, JoinChain v kv1 kv2 view (chains c)}.
Context (strategies : NextStrategy A * NextStrategy B) (pb1 pb2 b : BlockId) (cs1 cs2 Rs : list Coord) (mode : BatchMode).
Context (senders1 : Coord → Sender A) (senders2 : Coord → Sender B) (mds : Coord → ExecutionMetadata).

(** The whole job: every replica of the two sides and, whatever the channels and [select] do,
    every replica of the block that joins runs to termination, and the tuples of the latter,
    put together, are as [post] says.  [to1] and [to2] list the receivers of each replica. *)
Definition two_input_job (to1 to2 : Coord → list Coord) (post : list (K * T) → Prop) : Prop :=
  ∃ (nets1 : Coord → Network A) (nets2 : Coord → Network B),
    (∀ c, c ∈ cs1 → shipping strategies.1 mode c (senders1 c) (nets1 c)) ∧
    (∀ c, c ∈ cs2 → shipping strategies.2 mode c (senders2 c) (nets2 c)) ∧
    (∃ chans1, ∀ r, r ∈ Rs → fifo pb1 (connected to1 cs1 r) nets1 r (chans1 r)) ∧
    (∃ chans2, ∀ r, r ∈ Rs → fifo pb2 (connected to2 cs2 r) nets2 r (chans2 r)) ∧
    ∀ (chans1 : Coord → channel A) (chans2 : Coord → channel B) (picks : Coord → list bool),
      (∀ r, r ∈ Rs → fifo pb1 (connected to1 cs1 r) nets1 r (chans1 r)) →
      (∀ r, r ∈ Rs → fifo pb2 (connected to2 cs2 r) nets2 r (chans2 r)) →
      ∃ outs : Coord → list (K * T),
        (∀ r, r ∈ Rs → joining v kv1 kv2 view (chains r) pb1 pb2 (mds r) (picks r) (chans1 r) (chans2 r) (outs r)) ∧
        post (concat (outs <$> Rs)).

Lemma two_input_job_mono to1 to2 (post post' : list (K * T) → Prop) :
  (∀ out, post out → post' out) → two_input_job to1 to2 post → two_input_job to1 to2 post'.
Proof.
  intros Hp (nets1 & nets2 & ? & ? & ? & ? & Hall). exists nets1, nets2. split_and!; [done..|].
  intros chans1 chans2 picks F1 F2. destruct (Hall chans1 chans2 picks F1 F2) as (outs & ? & ?). eauto.
Qed.

Context (Hcs : NoDup (cs1 ++ cs2)) (HR : NoDup Rs) (Hne : Rs ≠ []) (Hb : Forall (λ c, block_id c = b) Rs)
  (Hmode : wf_mode mode).

Lemma shipped_channels {X} pb to cs (nets : Coord → Network X) (share : Coord → Coord → list X) :
  NoDup cs → (∀ c, c ∈ cs → ships mode pb (to c) c (share c) (nets c)) →
  (∀ r, r ∈ Rs → connected to cs r ≠ []) →
  ∃ chans, ∀ r, r ∈ Rs → fifo pb (connected to cs r) nets r (chans r).
Proof.
  intros Hnd Hs Hr. eexists. intros r Hin.
  apply (fifo_sequential mode pb b (connected to cs r) Rs); [by apply NoDup_filter|done..|by apply Hr|].
  intros c [Hto Hc]%list_elem_of_filter. destruct (Hs c Hc r Hto) as [Hbo Hu]. split; [done|].
  intros E. rewrite E in Hu. by apply symmetry, app_nil in Hu as [_ ?].
Qed.
Lemma shipped_delivery {X} pb to cs (nets : Coord → Network X) (share : Coord → Coord → list X) r ch :
  (∀ c, c ∈ cs → ships mode pb (to c) c (share c) (nets c)) →
  fifo pb (connected to cs r) nets r ch → delivery (connected to cs r) (λ c, share c r) ch.
Proof.
  intros Hs. apply (fifo_shares mode). intros c [Hto Hc]%list_elem_of_filter. by apply (Hs c Hc r).
Qed.

Context (to1 to2 : Coord → list Coord) (share1 : Coord → Coord → list A) (share2 : Coord → Coord → list B).
(** What the replica [r] joins. *)
Definition joined (r : Coord) : list (K * (option L * option R)) :=
  relational_join v (kv1 <$> concat ((λ c, share1 c r) <$> connected to1 cs1 r))
    (kv2 <$> concat ((λ c, share2 c r) <$> connected to2 cs2 r)).

Lemma two_input_job_run :
  (∀ c, c ∈ cs1 → ∃ net, shipping strategies.1 mode c (senders1 c) net ∧ ships mode pb1 (to1 c) c (share1 c) net) →
  (∀ c, c ∈ cs2 → ∃ net, shipping strategies.2 mode c (senders2 c) net ∧ ships mode pb2 (to2 c) c (share2 c) net) →
  (∀ r, r ∈ Rs → connected to1 cs1 r ≠ [] ∧ connected to2 cs2 r ≠ []) →
  (∀ r, r ∈ Rs → matching (A := A) pb1 (em_prev (mds r)) ≡ₚ connected to1 cs1 r ∧
    matching (A := B) pb2 (em_prev (mds r)) ≡ₚ connected to2 cs2 r) →
  two_input_job to1 to2 (λ out, prod_map id view <$> out ≡ₚ concat (joined <$> Rs)).
Proof.
  intros H1 H2 Hc Hmd.
  destruct (finite_choice _ (mkNetwork ∅ ∅) cs1 H1) as [nets1 N1].
  destruct (finite_choice _ (mkNetwork ∅ ∅) cs2 H2) as [nets2 N2].
  pose proof Hcs as (Hcs1 & Hdis & Hcs2)%NoDup_app.
  exists nets1, nets2. split_and!; [by intros; apply N1|by intros; apply N2|..].
  { apply (shipped_channels pb1 to1 cs1 nets1 share1 Hcs1); [by intros; apply N1|by intros; apply Hc]. }
  { apply (shipped_channels pb2 to2 cs2 nets2 share2 Hcs2); [by intros; apply N2|by intros; apply Hc]. }
  intros chans1 chans2 picks F1 F2.
  destruct (finite_choice (λ r res,
      joining v kv1 kv2 view (chains r) pb1 pb2 (mds r) (picks r) (chans1 r) (chans2 r) res ∧
      prod_map id view <$> res ≡ₚ joined r) [] Rs) as [outs Ho].
  { intros r Hr. destruct (Hc r Hr), (Hmd r Hr). apply joining_runs; try done.
    - apply NoDup_app. split_and!; [by apply NoDup_filter| |by apply NoDup_filter].
      intros c [_ Hin1]%list_elem_of_filter [_ Hin2]%list_elem_of_filter. by eapply Hdis.
    - apply (shipped_delivery pb1 to1 cs1 nets1 share1); [by intros; apply N1|by apply F1].
    - apply (shipped_delivery pb2 to2 cs2 nets2 share2); [by intros; apply N2|by apply F2]. }
  exists outs. split; [by intros; apply Ho|]. rewrite fmap_concat, <-list_fmap_compose.
  apply concat_fmap_ext. intros r Hr. by apply Ho.
Qed.
End job.

(** ** [join_with] *)
Definition keyed_side {K V} (keyer : V → K) (items : list V) : list (K * V) := (λ x, (keyer x, x)) <$> items.

Section join_with.
Context {K L R : Type} `{Countable K, !TypeId L, !TypeId R}.
Context (group_by_hash : K → N) (keyer1 : L → K) (keyer2 : R → K) (v : JoinVariant) (local : LocalStrategy K).
Context (pb1 pb2 : BlockId) (cs1 cs2 Rs : list Coord) (mode : BatchMode).
Context (senders1 : Coord → Sender L) (senders2 : Coord → Sender R).
Context (libs : Coord → Library) (mds : Coord → ExecutionMetadata).

Definition join_job (ship : ShipStrategy) (to1 to2 : Coord → list Coord)
    (post : list (K * JoinTuple v L R) → Prop) : Prop :=
  two_input_job v (λ x, (keyer1 x, x)) (λ x, (keyer2 x, x)) (tuple_pair v)
    (λ r, join_with_chain local v keyer1 keyer2 (libs r)) (ship_strategies group_by_hash keyer1 keyer2 ship)
    pb1 pb2 cs1 cs2 Rs mode senders1 senders2 mds to1 to2 post.

(** Everything the two sides read, by key. *)
Definition left_items : list (K * L) := keyed_side keyer1 (concat ((λ c, sn_items (senders1 c)) <$> cs1)).
Definition right_items : list (K * R) := keyed_side keyer2 (concat ((λ c, sn_items (senders2 c)) <$> cs2)).
End join_with.

(** ** [ship_hash] *)
Lemma connected_all (R cs : list Coord) r : r ∈ R → connected (λ _, R) cs r = cs.
Proof. intros Hr. by apply list_filter_all, Forall_forall. Qed.

Lemma keyed_side_filter {K V} (keyer : V → K) (P : K → Prop) `{!∀ k, Decision (P k)} (l : list V) :
  keyed_side keyer (base.filter (λ x, P (keyer x)) l) = base.filter (λ x, P x.1) (keyed_side keyer l).
Proof.
  unfold keyed_side. induction l as [|x l IH]; [done|]. rewrite fmap_cons, !filter_cons, <-IH. cbn. by case_decide.
Qed.

Lemma shipping_hash {K B} (group_by_hash : K → N) (keyer : B → K) mode pb b Rs c (s : Sender B) :
  NoDup Rs → Rs ≠ [] → Forall (λ c, block_id c = b) Rs → wf_mode mode → sender_ok pb Rs s →
  ∃ net, shipping (group_by group_by_hash keyer) mode c s net ∧
    ships mode pb Rs c (λ r, base.filter (λ x, item_owner group_by_hash Rs (keyer x) = r) (sn_items s)) net.
Proof.
  intros HR Hne Hb Hm [He Hgs]. pose proof (sn_laws s).
  destruct (sending_carries (λ x, group_by_hash (keyer x)) mode pb b Rs HR Hne Hb Hm (sn_order s) (sn_sort s)
    (sn_env s) (sn_rng s) (sn_receivers s) c _ _ _ _ Hgs He) as (net & Hrun & Hcar).
  exists net. split; [exact Hrun|]. intros r Hr. destruct (Hcar r Hr) as [Hbo ->]. split; [done|].
  do 2 f_equal. apply list_filter_iff. intros x. apply (item_owner_iff (λ x, group_by_hash (keyer x)) Rs Hne).
Qed.

(** C2. The distributed join is the relational join of the two inputs.  With [ship_hash], for
    each local strategy (hash or sort-merge) and each variant (inner, left, full outer), the
    replicas of the two sides and those of the block that joins run to termination without a
    panic, and whatever the interleaving and the timeouts of the channels, the choices
    of [select], the hash function and the order of the hash maps of each replica, the tuples of
    the replicas, put together, are the join of everything the two sides read. *)
Theorem hash_join_distributed {K L R} `{Countable K, !TypeId L, !TypeId R} (group_by_hash : K → N)
    (keyer1 : L → K) (keyer2 : R → K) v local pb1 pb2 b cs1 cs2 Rs mode
    (senders1 : Coord → Sender L) (senders2 : Coord → Sender R) libs mds :
  NoDup (cs1 ++ cs2) → cs1 ≠ [] → cs2 ≠ [] →
  NoDup Rs → Rs ≠ [] → Forall (λ c, block_id c = b) Rs → wf_mode mode →
  (∀ c, c ∈ cs1 → sender_ok pb1 Rs (senders1 c)) → (∀ c, c ∈ cs2 → sender_ok pb2 Rs (senders2 c)) →
  (∀ r, r ∈ Rs → matching (A := L) pb1 (em_prev (mds r)) ≡ₚ cs1 ∧
    matching (A := R) pb2 (em_prev (mds r)) ≡ₚ cs2) →
  join_job group_by_hash keyer1 keyer2 v local pb1 pb2 cs1 cs2 Rs mode senders1 senders2 libs mds
    ShipHash (λ _, Rs) (λ _, Rs)
    (λ out, prod_map id (tuple_pair v) <$> out ≡ₚ
       relational_join v (left_items keyer1 cs1 senders1) (right_items keyer2 cs2 senders2)).
Proof.
  intros Hnd Hne1 Hne2 HR Hne Hb Hm Hok1 Hok2 Hmd.
  set (own := item_owner group_by_hash Rs).
  eapply two_input_job_mono; [|eapply (two_input_job_run _ _ _ _ _ _ pb1 pb2 b cs1 cs2 Rs mode
    senders1 senders2 mds Hnd HR Hne Hb Hm (λ _, Rs) (λ _, Rs)
    (λ c r, base.filter (λ x, own (keyer1 x) = r) (sn_items (senders1 c)))
    (λ c r, base.filter (λ x, own (keyer2 x) = r) (sn_items (senders2 c))))].
  - intros out ->. symmetry. etransitivity.
    { apply (partition_by (λ x, own x.1) Rs); [done|]. apply Forall_forall. intros x _.
      apply (item_owner_spec group_by_hash Rs Hne). }
    apply concat_fmap_ext. intros r Hr. unfold joined. rewrite !connected_all by done.
    rewrite !concat_filter. apply reflexive_eq.
    pose proof (relational_join_filter (λ k, own k = r) v (left_items keyer1 cs1 senders1)
      (right_items keyer2 cs2 senders2)) as E.
    pose proof (keyed_side_filter keyer1 (λ k, own k = r) (concat ((λ c, sn_items (senders1 c)) <$> cs1))) as E1.
    pose proof (keyed_side_filter keyer2 (λ k, own k = r) (concat ((λ c, sn_items (senders2 c)) <$> cs2))) as E2.
    unfold left_items, right_items in *. cbn beta in E, E1, E2. by rewrite <-E1, <-E2 in E.
  - intros c Hc. eapply shipping_hash; eauto.
  - intros c Hc. eapply shipping_hash; eauto.
  - intros r Hr. by rewrite !connected_all.
  - intros r Hr. rewrite !connected_all by done. by apply Hmd.
Qed.

(** ** [ship_broadcast_right] *)
(** A join that keeps no unmatched item of the right side is the sum of the joins of the parts
    of the left side. *)
Lemma relational_join_parts {K L R} `{Countable K} v (lss : list (list (K * L))) (rs : list (K * R)) :
  right_outer v = false →
  concat ((λ ls, relational_join v ls rs) <$> lss) ≡ₚ relational_join v (concat lss) rs.
Proof.
  intros Hv. assert (∀ ls : list (K * L), relational_join v ls rs =
    matched ls rs ++ (if left_outer v then left_only <$> alone ls rs else [])) as E.
  { intros ls. unfold relational_join, join_so_far. rewrite Hv, !andb_true_r. cbn. by rewrite app_nil_r. }
  induction lss as [|ls lss IH]; csimpl.
  { rewrite E. by case_match. }
  rewrite IH, !E. unfold matched at 3. rewrite bind_app, alone_app. fold (matched ls rs).
  destruct (left_outer v); rewrite ?app_nil_r; [|done]. rewrite fmap_app.
  rewrite <-!(assoc_L (++)). f_equiv. rewrite !(assoc_L (++)). f_equiv. apply Permutation_app_comm.
Qed.

Lemma connected_one (dest : Coord → Coord) cs Rs :
  NoDup Rs → (∀ c, c ∈ cs → dest c ∈ Rs) → concat (connected (λ c, [dest c]) cs <$> Rs) ≡ₚ cs.
Proof.
  intros Hnd Hd. etransitivity; [|symmetry; apply (partition_by dest Rs cs Hnd); by apply Forall_forall].
  apply concat_fmap_ext. intros r _. apply reflexive_eq, list_filter_iff. intros c.
  rewrite list_elem_of_singleton. naive_solver.
Qed.

(** C3. With [ship_broadcast_right] too: each replica of the left side keeps its items on the one
    replica it is connected to, and the right side goes to every replica; for the inner and
    the left join, which are the two the code offers with this strategy, the tuples of the
    replicas, put together, are the join of everything the two sides read. *)
Theorem broadcast_join_distributed {K L R} `{Countable K, !TypeId L, !TypeId R} (group_by_hash : K → N)
    (keyer1 : L → K) (keyer2 : R → K) v local pb1 pb2 b cs1 cs2 Rs mode
    (senders1 : Coord → Sender L) (senders2 : Coord → Sender R) libs mds (dest : Coord → Coord) :
  right_outer v = false → NoDup (cs1 ++ cs2) → cs2 ≠ [] →
  NoDup Rs → Rs ≠ [] → Forall (λ c, block_id c = b) Rs → wf_mode mode →
  (∀ c, c ∈ cs1 → dest c ∈ Rs ∧ sender_ok pb1 [dest c] (senders1 c)) →
  (∀ c, c ∈ cs2 → sender_ok pb2 Rs (senders2 c)) →
  (∀ r, r ∈ Rs → ∃ c, c ∈ cs1 ∧ dest c = r) →
  (∀ r, r ∈ Rs → matching (A := L) pb1 (em_prev (mds r)) ≡ₚ base.filter (λ c, dest c = r) cs1 ∧
    matching (A := R) pb2 (em_prev (mds r)) ≡ₚ cs2) →
  join_job group_by_hash keyer1 keyer2 v local pb1 pb2 cs1 cs2 Rs mode senders1 senders2 libs mds
    ShipBroadcastRight (λ c, [dest c]) (λ _, Rs)
    (λ out, prod_map id (tuple_pair v) <$> out ≡ₚ
       relational_join v (left_items keyer1 cs1 senders1) (right_items keyer2 cs2 senders2)).
Proof.
  intros Hv Hnd Hne2 HR Hne Hb Hm Hok1 Hok2 Hsurj Hmd.
  assert (∀ r, connected (λ c, [dest c]) cs1 r = base.filter (λ c, dest c = r) cs1) as Hconn.
  { intros r. apply list_filter_iff. intros c. rewrite list_elem_of_singleton. naive_solver. }
  eapply two_input_job_mono; [|eapply (two_input_job_run _ _ _ _ _ _ pb1 pb2 b cs1 cs2 Rs mode
    senders1 senders2 mds Hnd HR Hne Hb Hm (λ c, [dest c]) (λ _, Rs)
    (λ c _, sn_items (senders1 c)) (λ c _, sn_items (senders2 c)))].
  - intros out ->. set (part r := keyed_side keyer1 (concat ((λ c, sn_items (senders1 c)) <$>
      connected (λ c, [dest c]) cs1 r))).
    trans (concat ((λ ls, relational_join v ls (right_items keyer2 cs2 senders2)) <$> (part <$> Rs))).
    { rewrite <-list_fmap_compose. apply concat_fmap_ext. intros r Hr. unfold joined.
      by rewrite (connected_all Rs) by done. }
    rewrite relational_join_parts by done. apply relational_join_perm; [|done].
    trans (keyed_side keyer1 (concat ((λ c, sn_items (senders1 c)) <$>
      concat (connected (λ c, [dest c]) cs1 <$> Rs)))).
    + apply reflexive_eq. unfold part, keyed_side. clear. induction Rs as [|r l IH]; [done|]. csimpl.
      by rewrite IH, fmap_app, concat_app, fmap_app.
    + apply fmap_Permutation. by rewrite (connected_one dest cs1 Rs HR) by (intros; by apply Hok1).
  - intros c Hc. apply shipping_everywhere; [by eauto|by apply NoDup_singleton|done|by apply Hok1].
  - intros c Hc. apply shipping_everywhere; [by left|done|done|by apply Hok2].
  - intros r Hr. rewrite Hconn, connected_all by done. split; [|done]. destruct (Hsurj r Hr) as (c & Hc & Hd).
    intros E. apply (not_elem_of_nil c). rewrite <-E. by apply list_elem_of_filter.
  - intros r Hr. rewrite Hconn, connected_all by done. by apply Hmd.
Qed.

(** ** Keyed joins *)
(** A join of parts whose keys do not meet across parts. *)
Section parts.
Context {K L R C : Type} `{Countable K} (v : JoinVariant) (ls : C → list (K * L)) (rs : C → list (K * R)).

Lemma concat_app_perm {X} (f g : C → list X) (Rs : list C) :
  concat ((λ r, f r ++ g r) <$> Rs) ≡ₚ concat (f <$> Rs) ++ concat (g <$> Rs).
Proof.
  induction Rs as [|r Rs IH]; csimpl; [done|]. rewrite IH, <-!(assoc_L (++)). f_equiv.
  rewrite !(assoc_L (++)). f_equiv. apply Permutation_app_comm.
Qed.
Lemma side_values_part {V} (xs : C → list (K * V)) (Rs : list C) r k :
  NoDup Rs → r ∈ Rs → (∀ r', r' ∈ Rs → k ∈ (xs r').*1 → r' = r) →
  side_values k (concat (xs <$> Rs)) = side_values k (xs r).
Proof.
  induction Rs as [|r0 Rs IH]; intros Hnd Hr Hk; [by apply elem_of_nil in Hr|].
  apply NoDup_cons in Hnd as [Hn Hnd]. csimpl. rewrite side_values_app.
  destruct (decide (k ∈ (xs r0).*1)) as [Hin|Hin].
  - rewrite (Hk r0) in Hn |- * by (done || left). assert (side_values k (concat (xs <$> Rs)) = []) as ->.
    + apply values_nil. intros ((k', x) & Hk' & (l & Hl & Hx)%elem_of_concat)%list_elem_of_fmap. cbn in Hk'. subst k'.
      apply list_elem_of_fmap in Hl as (r' & -> & Hr'). apply Hn. rewrite <-(Hk r'); [done|by right|].
      exact (list_elem_of_fmap_2 fst _ _ Hx).
    + by rewrite app_nil_r.
  - rewrite (proj2 (values_nil k (xs r0)) Hin). apply elem_of_cons in Hr as [->|Hr].
    + rewrite (proj2 (values_nil k (xs r0)) Hin). apply values_nil.
      intros ((k', x) & Hk' & (l & Hl & Hx)%elem_of_concat)%list_elem_of_fmap. cbn in Hk'. subst k'.
      apply list_elem_of_fmap in Hl as (r' & -> & Hr'). apply Hn. rewrite <-(Hk r'); [done|by right|].
      exact (list_elem_of_fmap_2 fst _ _ Hx).
    + apply IH; [done|done|]. intros r' Hr'. apply Hk. by right.
Qed.
Lemma filter_ext_in {X} (P Q : X → Prop) `{!∀ x, Decision (P x), !∀ x, Decision (Q x)} (l : list X) :
  (∀ x, x ∈ l → P x ↔ Q x) → base.filter P l = base.filter Q l.
Proof.
  induction l as [|x l IH]; intros Hx; [done|]. rewrite !filter_cons, IH by (intros; apply Hx; by right).
  assert (P x ↔ Q x) by (apply Hx; left). destruct (decide (P x)), (decide (Q x)); naive_solver.
Qed.

Context (Rs : list C) (HR : NoDup Rs).
Lemma alone_part {V W} (xs : C → list (K * V)) (ys : C → list (K * W)) :
  (∀ r r' k, r ∈ Rs → r' ∈ Rs → k ∈ (xs r).*1 → k ∈ (ys r').*1 → r' = r) →
  alone (concat (xs <$> Rs)) (concat (ys <$> Rs)) = concat ((λ r, alone (xs r) (ys r)) <$> Rs).
Proof.
  intros Hd. unfold alone at 1. rewrite <-concat_filter. f_equal. apply list_fmap_ext. intros i r Hi.
  apply list_elem_of_lookup_2 in Hi. apply filter_ext_in. intros x Hx.
  rewrite <-!values_nil. rewrite (side_values_part ys Rs r x.1 HR Hi); [done|].
  intros r' Hr' Hk. eapply Hd; [exact Hi|exact Hr'| |exact Hk]. exact (list_elem_of_fmap_2 fst _ _ Hx).
Qed.

Context (Hdis : ∀ r r' k, r ∈ Rs → r' ∈ Rs → k ∈ (ls r).*1 → k ∈ (rs r').*1 → r = r').
Lemma matched_part : matched (concat (ls <$> Rs)) (concat (rs <$> Rs)) = concat ((λ r, matched (ls r) (rs r)) <$> Rs).
Proof.
  assert (∀ ls', (∀ l, l ∈ ls' → l ∈ Rs) →
    matched (concat (ls <$> ls')) (concat (rs <$> Rs)) = concat ((λ r, matched (ls r) (rs r)) <$> ls')) as Hgen; [|by apply Hgen].
  induction ls' as [|r l IH]; intros Hin; [done|]. csimpl. unfold matched at 1. rewrite bind_app.
  fold (matched (concat (ls <$> l)) (concat (rs <$> Rs))). rewrite IH by (intros; apply Hin; by right). f_equal.
  unfold matched.
  assert (∀ xs : list (K * L), (∀ x, x ∈ xs → x ∈ ls r) →
    (x ← xs; (λ y, (x.1, (Some x.2, Some y))) <$> side_values x.1 (concat (rs <$> Rs))) =
    (x ← xs; (λ y, (x.1, (Some x.2, Some y))) <$> side_values x.1 (rs r))) as Hx; [|by apply Hx].
  induction xs as [|x xs IHx]; intros Hxs; [done|]. csimpl. rewrite IHx by (intros; apply Hxs; by right). f_equal. f_equal.
  apply side_values_part; [done|apply Hin; left|]. intros r' Hr' Hk. symmetry. eapply Hdis; [apply Hin; left|done| |done].
  apply (list_elem_of_fmap_2 fst), Hxs. left.
Qed.
Lemma relational_join_split :
  concat ((λ r, relational_join v (ls r) (rs r)) <$> Rs) ≡ₚ relational_join v (concat (ls <$> Rs)) (concat (rs <$> Rs)).
Proof.
  unfold relational_join, join_so_far. rewrite !andb_true_r, matched_part.
  rewrite (alone_part ls rs) by (intros; symmetry; by eapply Hdis). rewrite (alone_part rs ls) by (intros; by eapply Hdis).
  rewrite (concat_app_perm (λ r, matched (ls r) (rs r))). f_equiv. rewrite concat_app_perm. f_equiv.
  - destruct (left_outer v); [by rewrite fmap_concat, <-list_fmap_compose|]. clear. induction Rs; done.
  - destruct (right_outer v); [by rewrite fmap_concat, <-list_fmap_compose|]. clear. induction Rs; done.
Qed.
End parts.

(** The strategies of [KeyedStream::join] and [KeyedStream::join_outer]. *)
Definition keyed_join_strategies {A B} : NextStrategy A * NextStrategy B := (OnlyOne, OnlyOne).

Section keyed_join.
Context {K L R T : Type} `{Countable K, !TypeId (K * L), !TypeId (K * R)}.
Context (v : JoinVariant) (view : T → option L * option R)
  (chains : Coord → Operator (BinaryElement (K * L) (K * R)) → Operator (K * T))
  `{!∀ c, JoinChain (L := L) (R := R) v id id view (chains c)}.
Context (pb1 pb2 b : BlockId) (cs1 cs2 Rs : list Coord) (mode : BatchMode).
Context (senders1 : Coord → Sender (K * L)) (senders2 : Coord → Sender (K * R)) (mds : Coord → ExecutionMetadata).
Context (dest1 dest2 : Coord → Coord).
Abbreviation keyed_left := (concat ((λ c, sn_items (senders1 c)) <$> cs1)).
Abbreviation keyed_right := (concat ((λ c, sn_items (senders2 c)) <$> cs2)).

(** The two sides are connected replica by replica, and the items of a key are on replicas that are
    connected to the same one. *)
Record copartitioned : Prop := {
  cp_distinct : NoDup (cs1 ++ cs2);
  cp_receivers : NoDup Rs ∧ Rs ≠ [] ∧ Forall (λ c, block_id c = b) Rs;
  cp_mode : wf_mode mode;
  cp_left c : c ∈ cs1 → dest1 c ∈ Rs ∧ sender_ok pb1 [dest1 c] (senders1 c);
  cp_right c : c ∈ cs2 → dest2 c ∈ Rs ∧ sender_ok pb2 [dest2 c] (senders2 c);
  cp_all r : r ∈ Rs → (∃ c, c ∈ cs1 ∧ dest1 c = r) ∧ (∃ c, c ∈ cs2 ∧ dest2 c = r);
  cp_prev r : r ∈ Rs → matching (A := K * L) pb1 (em_prev (mds r)) ≡ₚ base.filter (λ c, dest1 c = r) cs1 ∧
    matching (A := K * R) pb2 (em_prev (mds r)) ≡ₚ base.filter (λ c, dest2 c = r) cs2;
  cp_keys c1 c2 k x y : c1 ∈ cs1 → c2 ∈ cs2 → (k, x) ∈ sn_items (senders1 c1) →
    (k, y) ∈ sn_items (senders2 c2) → dest1 c1 = dest2 c2
}.

Lemma connected_dest (dest : Coord → Coord) cs r : connected (λ c, [dest c]) cs r = base.filter (λ c, dest c = r) cs.
Proof. apply list_filter_iff. intros c. rewrite list_elem_of_singleton. naive_solver. Qed.
Lemma connected_ne (dest : Coord → Coord) cs r : (∃ c, c ∈ cs ∧ dest c = r) → connected (λ c, [dest c]) cs r ≠ [].
Proof.
  intros (c & Hc & Hd) E. apply (not_elem_of_nil c). rewrite <-E, connected_dest. by apply list_elem_of_filter.
Qed.
Lemma connected_items {X} (dest : Coord → Coord) cs (items : Coord → list X) :
  NoDup Rs → (∀ c, c ∈ cs → dest c ∈ Rs) →
  concat ((λ r, concat (items <$> connected (λ c, [dest c]) cs r)) <$> Rs) ≡ₚ concat (items <$> cs).
Proof.
  intros Hnd Hd. trans (concat (items <$> concat (connected (λ c, [dest c]) cs <$> Rs))).
  - apply reflexive_eq. generalize (connected (λ c, [dest c]) cs). intros f. clear.
    induction Rs as [|r l IH]; [done|]. csimpl. by rewrite IH, fmap_app, concat_app.
  - by rewrite (connected_one dest cs Rs Hnd Hd).
Qed.

Lemma keyed_join_run : copartitioned →
  two_input_job v id id view chains keyed_join_strategies pb1 pb2 cs1 cs2 Rs mode senders1 senders2 mds
    (λ c, [dest1 c]) (λ c, [dest2 c])
    (λ out, prod_map id view <$> out ≡ₚ relational_join v keyed_left keyed_right).
Proof.
  intros [Hnd (HR & Hne & Hb) Hm Hok1 Hok2 Hall Hmd Hkeys].
  eapply two_input_job_mono; [|eapply (two_input_job_run v id id view chains _ pb1 pb2 b cs1 cs2 Rs mode
    senders1 senders2 mds Hnd HR Hne Hb Hm (λ c, [dest1 c]) (λ c, [dest2 c])
    (λ c _, sn_items (senders1 c)) (λ c _, sn_items (senders2 c)))].
  - intros out ->. unfold joined.
    set (l1 r := concat ((λ c, sn_items (senders1 c)) <$> connected (λ c, [dest1 c]) cs1 r)).
    set (l2 r := concat ((λ c, sn_items (senders2 c)) <$> connected (λ c, [dest2 c]) cs2 r)).
    trans (concat ((λ r, relational_join v (l1 r) (l2 r)) <$> Rs)).
    { apply concat_fmap_ext. intros r _. by rewrite !list_fmap_id. }
    rewrite relational_join_split; [|done|].
    + apply relational_join_perm; apply connected_items; [done|by intros; apply Hok1|done|by intros; apply Hok2].
    + intros r r' k _ _ ((k1, x) & E1 & Hx)%list_elem_of_fmap ((k2, y) & E2 & Hy)%list_elem_of_fmap. cbn in E1, E2. subst k1 k2.
      apply elem_of_concat in Hx as (g1 & (c1 & -> & Hc1)%list_elem_of_fmap & Hx).
      apply elem_of_concat in Hy as (g2 & (c2 & -> & Hc2)%list_elem_of_fmap & Hy).
      rewrite connected_dest in Hc1, Hc2. apply list_elem_of_filter in Hc1 as [<- Hc1], Hc2 as [<- Hc2]. by eapply Hkeys.
  - intros c Hc. apply shipping_everywhere; [right; by eauto|by apply NoDup_singleton|done|by apply Hok1].
  - intros c Hc. apply shipping_everywhere; [right; by eauto|by apply NoDup_singleton|done|by apply Hok2].
  - intros r Hr. destruct (Hall r Hr). split; by apply connected_ne.
  - intros r Hr. rewrite !connected_dest. by apply Hmd.
Qed.
End keyed_join.

(** C4. The joins of keyed streams send nothing across replicas: when the items of a key are on replicas
    of the two sides that are connected to the same one, as after a [group_by] of both sides, the
    tuples of the replicas, put together, are the inner join ([KeyedStream::join]) and the full
    outer join ([KeyedStream::join_outer]) of everything the two sides hold. *)
Theorem keyed_join_distributed {K L R} `{Countable K, !TypeId (K * L), !TypeId (K * R)} pb1 pb2 b cs1 cs2 Rs mode
    (senders1 : Coord → Sender (K * L)) (senders2 : Coord → Sender (K * R)) (libs : Coord → Library) mds dest1 dest2 :
  copartitioned pb1 pb2 b cs1 cs2 Rs mode senders1 senders2 mds dest1 dest2 →
  let items1 := concat ((λ c, sn_items (senders1 c)) <$> cs1) in
  let items2 := concat ((λ c, sn_items (senders2 c)) <$> cs2) in
  two_input_job Inner id id both (λ _, JoinKeyedInner) keyed_join_strategies pb1 pb2 cs1 cs2 Rs mode
    senders1 senders2 mds (λ c, [dest1 c]) (λ c, [dest2 c])
    (λ out, prod_map id both <$> out ≡ₚ relational_join Inner items1 items2) ∧
  two_input_job Outer id id id (λ r, keyed_outer_chain (libs r)) keyed_join_strategies pb1 pb2 cs1 cs2 Rs mode
    senders1 senders2 mds (λ c, [dest1 c]) (λ c, [dest2 c])
    (λ out, out ≡ₚ relational_join Outer items1 items2).
Proof.
  intros Hc items1 items2. split; [by eapply keyed_join_run|].
  eapply two_input_job_mono; [|by eapply keyed_join_run]. intros out Hp. etransitivity; [|exact Hp].
  apply reflexive_eq. symmetry. apply fmap_prod_id.
Qed.

(** ** An instance: two replicas on the left, one on the right and two that join *)
Module JoinJobExample.
#[local] Instance typ : TypeId N := 7%N.
Definition cs1 : list Coord := [mkCoord 0 0 0; mkCoord 0 1 0].
Definition cs2 : list Coord := [mkCoord 1 0 0].
Definition Rs : list Coord := [mkCoord 2 0 0; mkCoord 2 1 0].
(** The replica on the same host. *)
Definition beside (c : Coord) : Coord := mkCoord 2 (host_id c) 0.
Definition sender (pb : BlockId) (to : list Coord) (items : list N) : Sender N :=
  mkSender items (FakeOperator N) _ ((Item <$> items) ++ [FlushAndRestart; Terminate]) []
    (endpoint_to pb <$> to) (λ _, mkBatcherEnv (λ n, Z.of_nat n) (λ _, [])) (λ n, n) key_order
    insertion_glidesort.
Definition lefts (c : Coord) : list N := if decide (c = mkCoord 0 0 0) then [1; 2; 3]%N else [4; 6]%N.
Definition rights : list N := [12; 14; 15]%N.
Definition key (x : N) : N := (x `mod` 10)%N.
Definition lib : Library := mkLibrary key_order insertion_glidesort.
Definition md (lp : list Coord) (r : Coord) : ExecutionMetadata :=
  mkExecutionMetadata r Rs 0 ((λ c, (c, 7%N)) <$> (lp ++ cs2)) (Fixed 2).

Lemma sender_fine pb to items : sender_ok pb to (sender pb to items).
Proof. split; [apply FakeOperator_emits_all|done]. Qed.

Lemma hash_join_distributed_witness :
  relational_join Outer (left_items key cs1 (λ c, sender 0 Rs (lefts c))) (right_items key cs2 (λ _, sender 1 Rs rights)) =
    [(2, (Some 2, Some 12)); (4, (Some 4, Some 14)); (1, (Some 1, None)); (3, (Some 3, None));
     (6, (Some 6, None)); (5, (None, Some 15))]%N ∧
  join_job id key key Outer LocalHash 0 1 cs1 cs2 Rs (Fixed 2) (λ c, sender 0 Rs (lefts c))
    (λ _, sender 1 Rs rights) (λ _, lib) (md cs1) ShipHash (λ _, Rs) (λ _, Rs)
    (λ out, prod_map id (tuple_pair Outer) <$> out ≡ₚ relational_join Outer
       (left_items key cs1 (λ c, sender 0 Rs (lefts c))) (right_items key cs2 (λ _, sender 1 Rs rights))).
Proof.
  split; [vm_compute; reflexivity|].
  apply (hash_join_distributed id key key Outer LocalHash 0 1 2 cs1 cs2 Rs (Fixed 2) (λ c, sender 0 Rs (lefts c))
    (λ _, sender 1 Rs rights) (λ _, lib) (md cs1)); try done.
  - apply (bool_decide_unpack _). vm_compute. done.
  - apply (bool_decide_unpack _). vm_compute. done.
  - apply (bool_decide_unpack _). vm_compute. done.
  - unfold wf_mode. simpl. lia.
  - intros c _. apply sender_fine.
  - intros c _. apply sender_fine.
Defined.

Lemma broadcast_join_distributed_witness :
  relational_join LeftJoin (left_items key cs1 (λ c, sender 0 [beside c] (lefts c)))
    (right_items key cs2 (λ _, sender 1 Rs rights)) =
    [(2, (Some 2, Some 12)); (4, (Some 4, Some 14)); (1, (Some 1, None)); (3, (Some 3, None));
     (6, (Some 6, None))]%N ∧
  join_job id key key LeftJoin LocalHash 0 1 cs1 cs2 Rs (Fixed 2) (λ c, sender 0 [beside c] (lefts c))
    (λ _, sender 1 Rs rights) (λ _, lib) (λ r, md [mkCoord 0 (host_id r) 0] r) ShipBroadcastRight
    (λ c, [beside c]) (λ _, Rs)
    (λ out, prod_map id (tuple_pair LeftJoin) <$> out ≡ₚ relational_join LeftJoin
       (left_items key cs1 (λ c, sender 0 [beside c] (lefts c))) (right_items key cs2 (λ _, sender 1 Rs rights))).
Proof.
  split; [vm_compute; reflexivity|].
  apply (broadcast_join_distributed id key key LeftJoin LocalHash 0 1 2 cs1 cs2 Rs (Fixed 2)
    (λ c, sender 0 [beside c] (lefts c)) (λ _, sender 1 Rs rights) (λ _, lib) (λ r, md [mkCoord 0 (host_id r) 0] r)
    beside); try done.
  - apply (bool_decide_unpack _). vm_compute. done.
  - apply (bool_decide_unpack _). vm_compute. done.
  - apply (bool_decide_unpack _). vm_compute. done.
  - unfold wf_mode. simpl. lia.
  - intros c Hc. split; [|apply sender_fine]. revert c Hc. apply Forall_forall. by repeat constructor.
  - intros c _. apply sender_fine.
  - intros r Hr. exists (mkCoord 0 (host_id r) 0). revert r Hr. apply Forall_forall.
    by repeat constructor; apply (bool_decide_unpack _).
  - intros r Hr. revert r Hr. apply Forall_forall. repeat constructor; vm_compute; done.
Defined.
End JoinJobExample.

(** Keyed streams on two hosts: the even keys on the first, the odd ones on the second. *)
Module KeyedJoinExample.
#[local] Instance typ : TypeId (N * N) := 9%N.
Definition cs1 : list Coord := [mkCoord 0 0 0; mkCoord 0 1 0].
Definition cs2 : list Coord := [mkCoord 1 0 0; mkCoord 1 1 0].
Definition Rs : list Coord := [mkCoord 2 0 0; mkCoord 2 1 0].
Definition beside (c : Coord) : Coord := mkCoord 2 (host_id c) 0.
Definition sender (pb : BlockId) (c : Coord) (items : list (N * N)) : Sender (N * N) :=
  mkSender items (FakeOperator (N * N)) _ ((Item <$> items) ++ [FlushAndRestart; Terminate]) []
    [endpoint_to pb (beside c)] (λ _, mkBatcherEnv (λ n, Z.of_nat n) (λ _, [])) (λ n, n) key_order
    insertion_glidesort.
Definition lefts (c : Coord) : list (N * N) :=
  if decide (c = mkCoord 0 0 0) then [(2, 20); (4, 40)]%N else [(1, 10)]%N.
Definition rights (c : Coord) : list (N * N) :=
  if decide (c = mkCoord 1 0 0) then [(2, 21); (6, 61)]%N else [(3, 31); (1, 11)]%N.
Definition md (r : Coord) : ExecutionMetadata :=
  mkExecutionMetadata r Rs 0 ((λ c, (c, 9%N)) <$> [mkCoord 0 (host_id r) 0; mkCoord 1 (host_id r) 0]) (Fixed 2).
Abbreviation senders1 := (λ c, sender 0 c (lefts c)).
Abbreviation senders2 := (λ c, sender 1 c (rights c)).

Lemma keyed_copartitioned : copartitioned 0 1 2 cs1 cs2 Rs (Fixed 2) senders1 senders2 md beside beside.
Proof.
  split.
  - apply (bool_decide_unpack _). vm_compute. done.
  - split_and!; [apply (bool_decide_unpack _); vm_compute; done|done|by repeat constructor].
  - unfold wf_mode. simpl. lia.
  - intros c Hc. split; [|split; [apply FakeOperator_emits_all|done]]. revert c Hc. apply Forall_forall. by repeat constructor.
  - intros c Hc. split; [|split; [apply FakeOperator_emits_all|done]]. revert c Hc. apply Forall_forall. by repeat constructor.
  - intros r Hr. split; [exists (mkCoord 0 (host_id r) 0)|exists (mkCoord 1 (host_id r) 0)]; revert r Hr;
      apply Forall_forall; by repeat constructor; apply (bool_decide_unpack _).
  - intros r Hr. revert r Hr. apply Forall_forall. repeat constructor; vm_compute; done.
  - assert (∀ c1, c1 ∈ cs1 → ∀ c2, c2 ∈ cs2 → ∀ p, p ∈ lefts c1 → ∀ q, q ∈ rights c2 → p.1 = q.1 → beside c1 = beside c2)
      as Hall; [|intros c1 c2 k x y H1 H2 Hx Hy; by eapply (Hall c1 H1 c2 H2 (k, x) Hx (k, y) Hy)].
    intros c1 H1 c2 H2 p Hp q Hq Hk.
    repeat (apply elem_of_cons in H1 as [->|H1]); repeat (apply elem_of_cons in H2 as [->|H2]);
      try (by apply elem_of_nil in H1); try (by apply elem_of_nil in H2); try done;
      repeat (apply elem_of_cons in Hp as [->|Hp]); repeat (apply elem_of_cons in Hq as [->|Hq]);
      try (by apply elem_of_nil in Hp); try (by apply elem_of_nil in Hq); done.
Qed.

Lemma keyed_join_distributed_witness :
  two_input_job Inner id id both (λ _, JoinKeyedInner) keyed_join_strategies 0 1 cs1 cs2 Rs (Fixed 2)
    senders1 senders2 md (λ c, [beside c]) (λ c, [beside c])
    (λ out, prod_map id both <$> out ≡ₚ [(2, (Some 20, Some 21)); (1, (Some 10, Some 11))]%N) ∧
  two_input_job Outer id id id (λ _, keyed_outer_chain (mkLibrary key_order insertion_glidesort)) keyed_join_strategies
    0 1 cs1 cs2 Rs (Fixed 2) senders1 senders2 md (λ c, [beside c]) (λ c, [beside c])
    (λ out, out ≡ₚ [(2, (Some 20, Some 21)); (1, (Some 10, Some 11)); (4, (Some 40, None));
                    (6, (None, Some 61)); (3, (None, Some 31))]%N).
Proof.
  exact (keyed_join_distributed 0 1 2 cs1 cs2 Rs (Fixed 2) senders1 senders2
    (λ _, mkLibrary key_order insertion_glidesort) md beside beside keyed_copartitioned).
Defined.
End KeyedJoinExample.
