(* ===== verification/IntervalJoin.v ===== *)
(** * Interval join

    [IntervalJoin] ([src/src/operator/interval_join.rs]) reads the merge of two keyed
    streams in the order of the timestamps and pairs each item of the left one with the items of the
    right one that have the same key and a timestamp in an interval around its own. *)
From stdpp Require Import sorting.
From S2P Require Import Prelude StreamElement Operator.

(** [struct IntervalJoin]: what changes of it. *)
Record IntervalJoin_state (Key Out Out2 : Type) `{Countable Key} := mkIntervalJoin {
  ij_left : list (Timestamp * (Key * Out));
  ij_right : gmap Key (list (Timestamp * Out2));
  ij_buffer : list (Timestamp * (Key * (Out * Out2)));
  ij_last_seen : Timestamp;
  ij_received_restart : bool
}.
Global Arguments mkIntervalJoin {_ _ _ _ _} _ _ _ _ _.
Global Arguments ij_left {_ _ _ _ _} _.
Global Arguments ij_right {_ _ _ _ _} _.
Global Arguments ij_buffer {_ _ _ _ _} _.
Global Arguments ij_last_seen {_ _ _ _ _} _.
Global Arguments ij_received_restart {_ _ _ _ _} _.

Section interval_join.
Context {Key Out Out2 : Type} `{Countable Key} (lower_bound upper_bound : Timestamp).
Abbreviation state := (IntervalJoin_state Key Out Out2).

(** [IntervalJoin::new]. *)
Definition IntervalJoin_new : state := mkIntervalJoin [] ∅ [] 0%Z false.

(** The limits of the interval of a timestamp: saturating arithmetic on [i64]. *)
Definition ij_lower (left_ts : Timestamp) : Timestamp := default i64_min (i64_checked (left_ts - lower_bound)).
Definition ij_upper (left_ts : Timestamp) : Timestamp := default i64_max (i64_checked (left_ts + upper_bound)).

(** One tuple. *)
Definition ij_tuple (left : Timestamp * (Key * Out)) (right : Timestamp * Out2)
    : Timestamp * (Key * (Out * Out2)) :=
  (Z.max right.1 left.1, (left.2.1, (left.2.2, right.2))).

(** The loop of [IntervalJoin::advance]. *)
Fixpoint ij_advance_loop (left : list (Timestamp * (Key * Out))) (right : gmap Key (list (Timestamp * Out2)))
    (buffer : list (Timestamp * (Key * (Out * Out2)))) (last_seen : Timestamp) (received_restart : bool)
    : list (Timestamp * (Key * Out)) * gmap Key (list (Timestamp * Out2)) * list (Timestamp * (Key * (Out * Out2))) :=
  match left with
  | [] => ([], right, buffer)
  | x :: left' =>
      let left_ts := x.1 in
      let lkey := x.2.1 in
      let lower := ij_lower left_ts in
      let upper := ij_upper left_ts in
      if (last_seen <=? upper)%Z && negb received_restart then (left, right, buffer)
      else
        match right !! lkey with
        | Some queue =>
            let queue := drop_while (λ r, r.1 <? lower)%Z queue in
            let matches := ij_tuple x <$> take_while (λ r, r.1 <=? upper)%Z queue in
            ij_advance_loop left' (<[lkey := queue]> right) (buffer ++ matches) last_seen received_restart
        | None => ij_advance_loop left' right buffer last_seen received_restart
        end
  end.
(** [IntervalJoin::advance]. *)
Definition ij_advance (self : state) : state :=
  let '(lefts, rights, buffer) :=
    ij_advance_loop (ij_left self) (ij_right self) (ij_buffer self) (ij_last_seen self) (ij_received_restart self) in
  let rights := match lefts with [] => if ij_received_restart self then ∅ else rights | _ => rights end in
  mkIntervalJoin lefts rights buffer (ij_last_seen self) (ij_received_restart self).

(** What is done with a timestamped element, once the assertion has passed. *)
Definition ij_push (self : state) (key : Key) (item : MergeElement Out Out2) (ts : Timestamp) : state :=
  match item with
  | MLeft item =>
      mkIntervalJoin (ij_left self ++ [(ts, (key, item))]) (ij_right self) (ij_buffer self) ts
        (ij_received_restart self)
  | MRight item =>
      mkIntervalJoin (ij_left self)
        (<[key := default [] (ij_right self !! key) ++ [(ts, item)]]> (ij_right self)) (ij_buffer self) ts
        (ij_received_restart self)
  end.

Context (prev : Operator (Key * MergeElement Out Out2)).

(** [IntervalJoin::next]. *)
Fixpoint IntervalJoin_next (fuel : nat) (q : state * op_state prev)
    : outcome (StreamElement (Key * (Out * Out2)) * (state * op_state prev)) :=
  match fuel with
  | O => OutOfFuel
  | S fuel =>
      let '(self, p) := q in
      match ij_buffer self with
      | (ts, item) :: buffer =>
          Done (Timestamped item ts,
                (mkIntervalJoin (ij_left self) (ij_right self) buffer (ij_last_seen self)
                   (ij_received_restart self), p))
      | [] =>
          if ij_received_restart self then
            _ ← rassert (bool_decide (ij_left self = []));
            _ ← rassert (bool_decide (ij_right self = ∅));
            Done (FlushAndRestart, (mkIntervalJoin (ij_left self) (ij_right self) [] 0%Z false, p))
          else
            '(e, p) ← op_next prev fuel p;
            match e with
            | Timestamped (key, item) ts =>
                _ ← rassert (ij_last_seen self <=? ts)%Z;
                IntervalJoin_next fuel (ij_advance (ij_push self key item ts), p)
            | Watermark ts =>
                _ ← rassert (ij_last_seen self <=? ts)%Z;
                IntervalJoin_next fuel
                  (ij_advance (mkIntervalJoin (ij_left self) (ij_right self) (ij_buffer self) ts
                              (ij_received_restart self)), p)
            | FlushAndRestart =>
                IntervalJoin_next fuel
                  (ij_advance (mkIntervalJoin (ij_left self) (ij_right self) (ij_buffer self) (ij_last_seen self) true), p)
            | Item _ => Panicked
            | FlushBatch => Done (FlushBatch, (self, p))
            | Terminate => Done (Terminate, (self, p))
            end
      end
  end.
Definition IntervalJoin : Operator (Key * (Out * Out2)) := mkOperator _ IntervalJoin_next.

(** ** The abstract behaviour *)
Definition interval_joining : transducer (Key * MergeElement Out Out2) (Key * (Out * Out2)) :=
  mkTransducer state
    (λ s, match ij_buffer s with
          | (ts, item) :: buffer =>
              Some (Timestamped item ts,
                    mkIntervalJoin (ij_left s) (ij_right s) buffer (ij_last_seen s) (ij_received_restart s))
          | [] =>
              if ij_received_restart s && bool_decide (ij_left s = []) && bool_decide (ij_right s = ∅) then
                Some (FlushAndRestart, mkIntervalJoin (ij_left s) (ij_right s) [] 0%Z false)
              else None
          end)
    (λ s e, if ij_received_restart s then Panicked else
            match e with
            | Timestamped (key, item) ts =>
                _ ← rassert (ij_last_seen s <=? ts)%Z; Done (ij_advance (ij_push s key item ts), None)
            | Watermark ts =>
                _ ← rassert (ij_last_seen s <=? ts)%Z;
                Done (ij_advance (mkIntervalJoin (ij_left s) (ij_right s) (ij_buffer s) ts (ij_received_restart s)), None)
            | FlushAndRestart =>
                Done (ij_advance (mkIntervalJoin (ij_left s) (ij_right s) (ij_buffer s) (ij_last_seen s) true), None)
            | Item _ => Panicked
            | FlushBatch => Done (s, Some FlushBatch)
            | Terminate => Done (s, Some Terminate)
            end).
(** The two assertions. *)
Definition ij_stuck (s : state) : bool :=
  match ij_buffer s with
  | [] => ij_received_restart s && negb (bool_decide (ij_left s = []) && bool_decide (ij_right s = ∅))
  | _ => false
  end.
Global Instance IntervalJoin_follows : FollowsBut prev interval_joining ij_stuck IntervalJoin_next.
Proof.
  constructor.
  - by intros [].
  - intros f s p. unfold ij_stuck, drive. cbn.
    destruct (ij_buffer s) as [|[ts item] buffer] eqn:Eb; [|done].
    destruct (ij_received_restart s) eqn:Er; simpl.
    + by destruct (bool_decide (ij_left s = [])), (bool_decide (ij_right s = ∅)).
    + destruct (op_next prev f p) as [[[[k i]|[k i] ts|ts| | |] p1]| | |]; simpl; try done;
        by destruct (rassert (ij_last_seen s <=? ts)%Z).
  - intros s. unfold ij_stuck. cbn. destruct (ij_buffer s) as [|[]]; [|done].
    by destruct (ij_received_restart s), (bool_decide (ij_left s = [])), (bool_decide (ij_right s = ∅)).
  - intros s x. unfold ij_stuck. cbn. destruct (ij_buffer s); [|done]. by destruct (ij_received_restart s).
Qed.
Global Instance IntervalJoin_laws `{!OperatorLaws prev} : OperatorLaws IntervalJoin.
Proof. apply (follows_but_laws prev interval_joining _ ij_stuck). Qed.

Definition in_interval (x : Timestamp * (Key * Out)) (r : Timestamp * Out2) : bool :=
  (ij_lower x.1 <=? r.1)%Z && (r.1 <=? ij_upper x.1)%Z.
Definition matches (x : Timestamp * (Key * Out)) (queue : list (Timestamp * Out2))
    : list (Timestamp * (Key * (Out * Out2))) :=
  ij_tuple x <$> List.filter (in_interval x) queue.




Context (Hlb : (0 ≤ lower_bound)%Z).














(** A negative timestamp makes the operator panic even if it is the first of the
    stream, for the last timestamp seen starts at zero. *)
Theorem IntervalJoin_negative_panics `{!OperatorLaws prev} p x ts p' :
  (ts < 0)%Z → emits prev p [Timestamped x ts] p' → Panics IntervalJoin (IntervalJoin_new, p).
Proof.
  intros Hts He. eapply (refines_panics prev interval_joining _
    (follows_but_refines prev interval_joining ij_stuck _) _ [] _ (Timestamped x ts)); [constructor|done| |exact He].
  cbn. destruct x as [k item]. destruct (0 <=? ts)%Z eqn:E; [lia|done].
Qed.
End interval_join.

Module Example.
Lemma IntervalJoin_negative_panics_witness :
  Panics (IntervalJoin 2 3 (FakeOperator (N * MergeElement N N)))
    (IntervalJoin_new, [Timestamped (1%N, MLeft 1%N) (-1)%Z]).
Proof.
  apply (IntervalJoin_negative_panics 2 3 (FakeOperator (N * MergeElement N N)) _ (1%N, MLeft 1%N) (-1) []); [lia|].
  apply FakeOperator_emits_all.
Defined.
End Example.
