(* ===== verification/IterationLock.v ===== *)
(** * The state of an iteration and its synchronisation

    [src/src/operator/iteration/{mod,state_handler}.rs].  The replicas of an iteration
    block on one host share the state of the iteration, a lock that counts generations
    and a barrier.  At the end of an iteration every replica of the block receives the
    new state from the leader of the iteration; the local leader writes it while the
    operators downstream, which run on other threads and read it without any further
    synchronisation, wait for the generation to change.

    The first part defines the operations.  The second runs them on the threads of a
    host under any interleaving: a step of [step] is one atomic action of one thread.  What
    the SAFETY comment of [wait_sync_state] takes for granted, that the operators inside the
    loop have finished when the update arrives, is derived there from the dataflow: a block sends
    [FlushAndRestart] after those it receives from, and the leader counts one delta per
    [IterationEnd].  It holds of the blocks whose output reaches an [IterationEnd] and that
    have the lock of this iteration; [iteration_state_races] shows a race for the others. *)
From S2P Require Import Prelude StreamElement Operator Frontier Batcher Start End Shuffle.

(** [enum IterationResult] and [type StateFeedback]. *)
Inductive IterationResult := Continue | Finished.
Definition from_condition (should_continue : bool) : IterationResult :=
  if should_continue then Continue else Finished.
Abbreviation StateFeedback St := (IterationResult * St)%type.

(** ** [IterationStateLock] *)
Record IterationStateLock := mkLock { generation : nat }.

Definition lock_default : IterationStateLock := mkLock 0.

(** [IterationStateLock::lock]. *)
Definition IterationStateLock_lock (self : IterationStateLock) : IterationStateLock :=
  if generation self mod 2 =? 0 then mkLock (generation self + 1) else self.

(** [IterationStateLock::unlock]. *)
Definition IterationStateLock_unlock (self : IterationStateLock) : outcome IterationStateLock :=
  rassert (generation self mod 2 =? 1);;
  Done (mkLock (generation self + 1)).

(** [IterationStateLock::wait_for_update]: whether the wait is over. *)
Definition wait_for_update (self : IterationStateLock) (gen : nat) : bool :=
  negb (generation self <? gen).

(** ** [std::sync::Barrier] *)
Record Barrier := mkBarrier { bar_size : nat; bar_count : nat; bar_generation : nat }.
Definition Barrier_new (n : nat) : Barrier := mkBarrier n 0 0.

(** Entering [wait]: the last of the threads the barrier is for goes through and opens it
    for the others, which wait for the next generation. *)
Definition barrier_enter (b : Barrier) : Barrier * bool :=
  if bar_count b + 1 <? bar_size b then (mkBarrier (bar_size b) (bar_count b + 1) (bar_generation b), false)
  else (mkBarrier (bar_size b) 0 (bar_generation b + 1), true).

(** ** [IterationStateHandler] *)

(** What the replicas on a host share: [state_ref], [state_barrier] and [state_lock]. *)
Record HostState (St : Type) := mkHost {
  state_ref : St;
  state_barrier : option Barrier;
  state_lock : IterationStateLock
}.
Global Arguments mkHost {_} _ _ _.
Global Arguments state_ref {_} _.
Global Arguments state_barrier {_} _.
Global Arguments state_lock {_} _.

(** The fields of [struct IterationStateHandler] that belong to one replica. *)
Record IterationStateHandler (St : Type) := mkHandler {
  sh_coord : Coord;
  new_state_receiver : option (channel (StateFeedback St));
  leader_block_id : BlockId;
  is_local_leader : bool;
  num_local_replicas : nat
}.
Global Arguments mkHandler {_} _ _ _ _ _.
Global Arguments sh_coord {_} _.
Global Arguments new_state_receiver {_} _.
Global Arguments leader_block_id {_} _.
Global Arguments is_local_leader {_} _.
Global Arguments num_local_replicas {_} _.

Definition coord_min (a b : Coord) : Coord :=
  if lex_leb (coord_key a) (coord_key b) then a else b.

(** [select_leader]: [*replicas.iter().min().unwrap()]. *)
Definition select_leader (replicas : list Coord) : outcome Coord :=
  match replicas with
  | [] => Panicked
  | c :: l => Done (foldl coord_min c l)
  end.

Section handler.
Context {St : Type}.
Implicit Types self : IterationStateHandler St.
Implicit Types h : HostState St.

(** [IterationStateHandler::new]. *)
Definition IterationStateHandler_new (leader_block_id : BlockId) : IterationStateHandler St :=
  mkHandler coord_default None leader_block_id false 0.

(** [IterationStateHandler::setup]. *)
Definition IterationStateHandler_setup (metadata : ExecutionMetadata)
    (get_receiver : ReceiverEndpoint → outcome (channel (StateFeedback St))) self
    : outcome (IterationStateHandler St) :=
  let local_replicas :=
    base.filter (λ r, host_id r = host_id (em_coord metadata)) (em_replicas metadata) in
  leader ← select_leader local_replicas;
  receiver ← get_receiver (mkReceiverEndpoint (em_coord metadata) (leader_block_id self));
  Done (mkHandler (em_coord metadata) (Some receiver) (leader_block_id self)
          (bool_decide (leader = em_coord metadata)) (length local_replicas)).

(** [IterationStateHandler::lock]. *)
Definition handler_lock h : HostState St :=
  mkHost (state_ref h) (state_barrier h) (IterationStateLock_lock (state_lock h)).

(** The three parts of [IterationStateHandler::wait_sync_state]: the local leader writes
    the state, the replica waits at the barrier (created by the first to get there), the
    local leader unlocks. *)
Definition sync_set (is_leader : bool) (new_state : St) h : HostState St :=
  if is_leader then mkHost new_state (state_barrier h) (state_lock h) else h.
Definition get_barrier (n : nat) h : Barrier := default (Barrier_new n) (state_barrier h).
Definition sync_enter (n : nat) h : HostState St * bool :=
  let '(b, released) := barrier_enter (get_barrier n h) in
  (mkHost (state_ref h) (Some b) (state_lock h), released).
Definition sync_unlock (is_leader : bool) h : outcome (HostState St) :=
  if is_leader then
    l ← IterationStateLock_unlock (state_lock h); Done (mkHost (state_ref h) (state_barrier h) l)
  else Done h.

(** [IterationStateHandler::wait_sync_state] as one replica runs it: [others] is what the
    other replicas do to the shared state until they open the barrier, [None] if they
    never do. *)
Definition wait_sync_state (others : HostState St → option (HostState St)) self
    (state_update : StateFeedback St) h : outcome (IterationResult * HostState St) :=
  let '(should_continue, new_state) := state_update in
  let h := sync_set (is_local_leader self) new_state h in
  let '(h, released) := sync_enter (num_local_replicas self) h in
  h ← (if released then Done h
       else match others h with Some h => Done h | None => Blocked end);
  h ← sync_unlock (is_local_leader self) h;
  Done (should_continue, h).
End handler.

(** ** The threads of a host *)

(** Where a replica of the iteration block is in its loop. *)
Inductive ReplicaPc (St : Type) :=
(** [next] answers elements of the current iteration *)
| Iterating
(** after [lock]: [FlushAndRestart] is on its way through the operators of the block, which
    may still emit what they hold *)
| Flushing
(** [FlushAndRestart] is sent: blocked in [wait_update] *)
| WaitUpdate
(** in [wait_sync_state], before the write of the state *)
| SetState (update : StateFeedback St)
(** before the barrier *)
| AtBarrier
(** inside [Barrier::wait], entered in generation [gen] *)
| InBarrier (gen : nat)
(** after the barrier, before [unlock] *)
| PastBarrier.
Global Arguments Iterating {_}.
Global Arguments Flushing {_}.
Global Arguments WaitUpdate {_}.
Global Arguments SetState {_} _.
Global Arguments AtBarrier {_}.
Global Arguments InBarrier {_} _.
Global Arguments PastBarrier {_}.

Record Replica (St : Type) := mkReplica {
  rp_leader : bool;
  (** [num_local_replicas] *)
  rp_size : nat;
  rp_pc : ReplicaPc St;
  (** the updates it has processed *)
  rp_iter : nat
}.
Global Arguments mkReplica {_} _ _ _ _.
Global Arguments rp_leader {_} _.
Global Arguments rp_size {_} _.
Global Arguments rp_pc {_} _.
Global Arguments rp_iter {_} _.

(** A replica of a block inside the iteration: its [Start], whether that was given the lock
    of this iteration (the blocks of a loop inside this one have the lock of that loop), whether
    a [FlushAndRestart] of [Start] is on its way through the operators of the block, and
    how many of them the block has sent. *)
Record Consumer := mkConsumer {
  cs_start : Start_core;
  cs_lock : bool;
  cs_flushing : bool;
  cs_sent : nat
}.

(** The threads that send [FlushAndRestart] inside the iteration: the replicas of the
    iteration block and of the blocks inside it on this host, and what is elsewhere. *)
Inductive Node := Head (i : nat) | Inside (j : nat) | Elsewhere (k : nat).

(** The dataflow of the iteration: what each block receives from, the blocks on this host first.
    A replica of the iteration block on another host has no list.  The last field lists the
    threads with an [IterationEnd]. *)
Record LoopGraph := mkLoopGraph {
  lg_inside : list (list Node);
  lg_elsewhere : list (option (list Node));
  lg_ends : list Node
}.
Definition lg_prev (g : LoopGraph) (n : Node) : list Node :=
  match n with
  | Head _ => []
  | Inside j => default [] (lg_inside g !! j)
  | Elsewhere k => default [] (mjoin (lg_elsewhere g !! k))
  end.

(** What a thread sends reaches an [IterationEnd]. *)
Inductive reaches_end (g : LoopGraph) : Node → Prop :=
| reaches_here n : n ∈ lg_ends g → reaches_end g n
| reaches_next n m : n ∈ lg_prev g m → reaches_end g m → reaches_end g n.

(** The host, how many [FlushAndRestart] were sent elsewhere, and what the leader of the iteration
    has sent so far. *)
Record System (St : Type) := mkSystem {
  sys_host : HostState St;
  sys_replicas : list (Replica St);
  sys_consumers : list Consumer;
  sys_elsewhere : list nat;
  sys_updates : list (StateFeedback St)
}.
Global Arguments mkSystem {_} _ _ _ _ _.
Global Arguments sys_host {_} _.
Global Arguments sys_replicas {_} _.
Global Arguments sys_consumers {_} _.
Global Arguments sys_elsewhere {_} _.
Global Arguments sys_updates {_} _.

Section system.
Context {St : Type}.
Implicit Types s : System St.
Implicit Types r : Replica St.

Definition set_pc r (pc : ReplicaPc St) : Replica St := mkReplica (rp_leader r) (rp_size r) pc (rp_iter r).

Definition put_replica s (h : HostState St) (i : nat) r : System St :=
  mkSystem h (<[i := r]> (sys_replicas s)) (sys_consumers s) (sys_elsewhere s) (sys_updates s).
Definition put_consumer s (j : nat) (c : Consumer) : System St :=
  mkSystem (sys_host s) (sys_replicas s) (<[j := c]> (sys_consumers s)) (sys_elsewhere s) (sys_updates s).

(** The iterations a replica has ended with [FlushAndRestart]. *)
Definition rp_flushes r : nat :=
  match rp_pc r with Iterating | Flushing => rp_iter r | _ => S (rp_iter r) end.
(** What a thread has sent. *)
Definition sent s (n : Node) : nat :=
  match n with
  | Head i => default 0 (rp_flushes <$> sys_replicas s !! i)
  | Inside j => default 0 (cs_sent <$> sys_consumers s !! j)
  | Elsewhere k => default 0 (sys_elsewhere s !! k)
  end.

(** Whether the user functions of a block may run, and read the state. *)
Definition rp_reading r : bool := match rp_pc r with Iterating | Flushing => true | _ => false end.
Definition cs_reading (c : Consumer) : bool := negb (wait_for_state (cs_start c)) || cs_flushing c.

(** The actions of a replica between the arrival of an update and the next iteration. *)
Inductive sync_step : System St → System St → Prop :=
| step_receive s i r u :
    sys_replicas s !! i = Some r → rp_pc r = WaitUpdate →
    sys_updates s !! rp_iter r = Some u →
    sync_step s (put_replica s (sys_host s) i (set_pc r (SetState u)))
| step_set s i r u :
    sys_replicas s !! i = Some r → rp_pc r = SetState u →
    sync_step s (put_replica s (sync_set (rp_leader r) u.2 (sys_host s)) i (set_pc r AtBarrier))
| step_enter s i r h released :
    sys_replicas s !! i = Some r → rp_pc r = AtBarrier →
    sync_enter (rp_size r) (sys_host s) = (h, released) →
    sync_step s (put_replica s h i
      (set_pc r (if released then PastBarrier
                 else InBarrier (bar_generation (get_barrier (rp_size r) (sys_host s))))))
| step_leave s i r gen :
    sys_replicas s !! i = Some r → rp_pc r = InBarrier gen →
    bar_generation (get_barrier (rp_size r) (sys_host s)) ≠ gen →
    sync_step s (put_replica s (sys_host s) i (set_pc r PastBarrier))
| step_unlock s i r h :
    sys_replicas s !! i = Some r → rp_pc r = PastBarrier →
    sync_unlock (rp_leader r) (sys_host s) = Done h →
    sync_step s (put_replica s h i (mkReplica (rp_leader r) (rp_size r) Iterating (S (rp_iter r)))).

Context (g : LoopGraph).

Inductive step : System St → System St → Prop :=
| step_sync s s' : sync_step s s' → step s s'
(** a replica ends its iteration with [lock] and [FlushAndRestart] *)
| step_lock s i r :
    sys_replicas s !! i = Some r → rp_pc r = Iterating →
    step s (put_replica s (handler_lock (sys_host s)) i (set_pc r Flushing))
(** which its block then sends *)
| step_flush s i r :
    sys_replicas s !! i = Some r → rp_pc r = Flushing →
    step s (put_replica s (sys_host s) i (set_pc r WaitUpdate))
(** a [Start] has [FlushAndRestart] from all its previous replicas *)
| step_restart s j c :
    sys_consumers s !! j = Some c → wait_for_state (cs_start c) = false →
    Forall (λ n, cs_sent c < sent s n) (lg_prev g (Inside j)) →
    step s (put_consumer s j (mkConsumer (Start_restart (cs_start c)) (cs_lock c) true (cs_sent c)))
(** which its block then sends *)
| step_sent s j c :
    sys_consumers s !! j = Some c → cs_flushing c = true →
    step s (put_consumer s j (mkConsumer (cs_start c) (cs_lock c) false (S (cs_sent c))))
(** the [Start] is called again, and is through its wait for the state *)
| step_wait s j c st :
    sys_consumers s !! j = Some c → cs_flushing c = false → wait_for_state (cs_start c) = true →
    Start_wait (if cs_lock c then Some (wait_for_update (state_lock (sys_host s))) else None) (cs_start c) = Done st →
    step s (put_consumer s j (mkConsumer st (cs_lock c) false (cs_sent c)))
(** the same elsewhere: a block has [FlushAndRestart] from all its previous replicas, a replica
    of the iteration block had the update for the iteration it ends *)
| step_elsewhere s k n :
    sys_elsewhere s !! k = Some n →
    match mjoin (lg_elsewhere g !! k) with
    | Some prev => Forall (λ m, n < sent s m) prev
    | None => n ≤ length (sys_updates s)
    end →
    step s (mkSystem (sys_host s) (sys_replicas s) (sys_consumers s) (<[k := S n]> (sys_elsewhere s))
              (sys_updates s))
(** the leader of the iteration sends an update: it has received [num_receivers] deltas for each
    iteration, one from an [IterationEnd] whenever its block ends one *)
| step_update s u :
    length (lg_ends g) * S (length (sys_updates s)) ≤ sum_list (sent s <$> lg_ends g) →
    step s (mkSystem (sys_host s) (sys_replicas s) (sys_consumers s) (sys_elsewhere s) (sys_updates s ++ [u])).

(** The host after [setup], and before any element: which replica is the local leader and how
    many there are is what [IterationStateHandler_setup] computes on each. *)
Definition setup_replica (get_receiver : ReceiverEndpoint → outcome (channel (StateFeedback St)))
    (leader_id : BlockId) (metadata : ExecutionMetadata) : outcome (Replica St) :=
  self ← IterationStateHandler_setup metadata get_receiver (IterationStateHandler_new leader_id);
  Done (mkReplica (is_local_leader self) (num_local_replicas self) Iterating 0).

(** A thread of the host or elsewhere. *)
Definition node_valid s (n : Node) : Prop :=
  match n with
  | Head i => i < length (sys_replicas s)
  | Inside j => j < length (sys_consumers s)
  | Elsewhere k => k < length (sys_elsewhere s)
  end.
(** The dataflow is one: blocks inside the iteration receive from threads of it, and from none
    that come after them, and what the replicas of the iteration block on this host send reaches an
    [IterationEnd]. *)
Record graph_ok s : Prop := {
  gr_inside : length (lg_inside g) = length (sys_consumers s);
  gr_elsewhere : length (lg_elsewhere g) = length (sys_elsewhere s);
  gr_fed n : node_valid s n → lg_prev g n = [] →
    match n with Head _ => True | Inside _ => False | Elsewhere k => mjoin (lg_elsewhere g !! k) = None end;
  gr_order : ∃ rank : Node → nat, ∀ n m, n ∈ lg_prev g m → node_valid s n ∧ rank n < rank m;
  gr_ends : Forall (node_valid s) (lg_ends g);
  gr_heads i : i < length (sys_replicas s) → reaches_end g (Head i)
}.

Record initial (init : St) s : Prop := {
  ini_host : sys_host s = mkHost init None lock_default;
  ini_replicas : ∃ get_receiver leader_id metadatas all host,
    Forall2 (λ m r, setup_replica get_receiver leader_id m = Done r) metadatas (sys_replicas s) ∧
    em_coord <$> metadatas = base.filter (λ c, host_id c = host) all ∧
    NoDup all ∧ Forall (λ m, em_replicas m = all) metadatas ∧ metadatas ≠ [];
  ini_consumers : Forall (λ c, wait_for_state (cs_start c) = false ∧ state_generation (cs_start c) = 0 ∧
    cs_flushing c = false ∧ cs_sent c = 0) (sys_consumers s);
  ini_elsewhere : Forall (λ n, n = 0) (sys_elsewhere s);
  ini_updates : sys_updates s = [];
  ini_graph : graph_ok s
}.
Definition reachable (init : St) s : Prop := ∃ s0, initial init s0 ∧ rtc step s0 s.

(** ** The invariant *)

(** The writes a replica has made, if it is the local leader. *)
Definition rp_sets r : nat :=
  match rp_pc r with AtBarrier | InBarrier _ | PastBarrier => S (rp_iter r) | _ => rp_iter r end.

(** The state after [n] updates. *)
Definition state_at (init : St) (us : list (StateFeedback St)) (n : nat) : St :=
  match n with 0 => init | S n => default init (snd <$> us !! n) end.

Definition barrier_of s : Barrier := get_barrier (length (sys_replicas s)) (sys_host s).
Definition inside (gen : nat) r : bool :=
  match rp_pc r with InBarrier g => g =? gen | _ => false end.

Definition barrier_ok (gen : nat) r : Prop :=
  match rp_pc r with
  | InBarrier g => g = rp_iter r ∧ g ≤ gen ≤ S g
  | PastBarrier => gen = S (rp_iter r)
  | _ => gen = rp_iter r
  end.

Definition update_ok (us : list (StateFeedback St)) r : Prop :=
  rp_iter r ≤ length us ≤ rp_flushes r ∧
  match rp_pc r with
  | Iterating | Flushing | WaitUpdate => True
  | SetState u => us !! rp_iter r = Some u
  | _ => rp_iter r < length us
  end.

(** What is known of a block inside: the generation its [Start] waits for, and that the host has
    the state of the iteration it runs. *)
Definition consumer_ok (gen : nat) (c : Consumer) : Prop :=
  state_generation (cs_start c) = 2 * (if cs_flushing c then S (cs_sent c) else cs_sent c) ∧
  (cs_flushing c = true → wait_for_state (cs_start c) = true) ∧
  (cs_lock c = true → cs_reading c = true → 2 * cs_sent c ≤ gen).

Definition lock_ok (gen : nat) r : Prop :=
  2 * rp_iter r ≤ gen ≤ 2 * rp_iter r + 1 ∧ (rp_pc r ≠ Iterating → gen = 2 * rp_iter r + 1).

Record invariant (init : St) s (il : nat) (l : Replica St) : Prop := {
  iv_leader : sys_replicas s !! il = Some l;
  iv_unique i r : sys_replicas s !! i = Some r → rp_leader r = bool_decide (i = il);
  iv_lock : lock_ok (generation (state_lock (sys_host s))) l;
  iv_state : state_ref (sys_host s) = state_at init (sys_updates s) (rp_sets l);
  iv_sizes : Forall (λ r, rp_size r = length (sys_replicas s)) (sys_replicas s);
  iv_size : bar_size (barrier_of s) = length (sys_replicas s);
  iv_barrier : Forall (barrier_ok (bar_generation (barrier_of s))) (sys_replicas s);
  iv_count : bar_count (barrier_of s) =
    length (List.filter (inside (bar_generation (barrier_of s))) (sys_replicas s));
  iv_room : bar_count (barrier_of s) < length (sys_replicas s);
  iv_updates : Forall (update_ok (sys_updates s)) (sys_replicas s);
  iv_consumers : Forall (consumer_ok (generation (state_lock (sys_host s)))) (sys_consumers s)
}.

(** The dataflow: nobody is ahead of those it receives from, the iteration block is not ahead of the
    updates, and the updates are not ahead of what reaches an [IterationEnd]. *)
Record flow_ok s : Prop := {
  fl_graph : graph_ok s;
  fl_edges n m : n ∈ lg_prev g m → sent s m ≤ sent s n;
  fl_flushing j c n : sys_consumers s !! j = Some c → cs_flushing c = true → n ∈ lg_prev g (Inside j) →
    cs_sent c < sent s n;
  fl_remote k n : sys_elsewhere s !! k = Some n → mjoin (lg_elsewhere g !! k) = None → n ≤ S (length (sys_updates s));
  fl_updates n : node_valid s n → reaches_end g n → length (sys_updates s) ≤ sent s n
}.
End system.

(** ** Counting in a list *)
Lemma filter_length_insert {X} (P : X → bool) (l : list X) i x y :
  l !! i = Some x →
  length (List.filter P (<[i := y]> l)) + Nat.b2n (P x) =
  length (List.filter P l) + Nat.b2n (P y).
Proof.
  revert i. induction l as [|z l IH]; intros [|i] Hi; [done..| |].
  - injection Hi as ->. cbn. destruct (P x), (P y); cbn; lia.
  - specialize (IH _ Hi). change (<[S i := y]> (z :: l)) with (z :: <[i := y]> l).
    cbn [List.filter]. destruct (P z); cbn [length]; lia.
Qed.

Lemma filter_length_le {X} (P : X → bool) (l : list X) : length (List.filter P l) ≤ length l.
Proof. induction l as [|z l IH]; cbn; [done|]. destruct (P z); cbn; lia. Qed.

Lemma filter_length_all {X} (P : X → bool) (l : list X) j y :
  length l ≤ length (List.filter P l) → l !! j = Some y → P y = true.
Proof.
  revert j. induction l as [|z l IH]; intros [|j] Hl Hj; cbn in *; [done..| |];
    pose proof (filter_length_le P l); destruct (P z) eqn:E; cbn in *; try lia;
    [by injection Hj as ->|apply (IH j); [lia|done]].
Qed.

(** When all the elements but one can satisfy [P] and that many do, all the others do. *)
Lemma filter_length_full {X} (P : X → bool) (l : list X) i x j y :
  l !! i = Some x → P x = false → length l ≤ S (length (List.filter P l)) →
  l !! j = Some y → j ≠ i → P y = true.
Proof.
  revert i j. induction l as [|z l IH]; intros [|i] [|j] Hi HP Hl Hj Hne; cbn in *; try done.
  - injection Hi as ->. rewrite HP in Hl. apply (filter_length_all P l j); [lia|done].
  - injection Hj as ->. destruct (P y) eqn:E; [done|].
    rewrite (filter_length_all P l i x) in HP; [done|lia|done].
  - apply (IH i j Hi HP); [|done|lia]. destruct (P z); cbn in Hl; [lia|].
    pose proof (filter_length_le P l). lia.
Qed.

(** ** The local leader *)
Lemma foldl_coord_min c l :
  (foldl coord_min c l = c ∨ foldl coord_min c l ∈ l) ∧
  coord_le (foldl coord_min c l) c ∧ ∀ x, x ∈ l → coord_le (foldl coord_min c l) x.
Proof.
  revert c. induction l as [|y l IH]; intros c; cbn.
  { split_and!; [by left|apply lex_leb_refl|by intros x ?%elem_of_nil]. }
  destruct (IH (coord_min c y)) as (H1 & H2 & H3).
  assert (coord_min c y = c ∨ coord_min c y = y) as Hm by (unfold coord_min; case_match; auto).
  assert (coord_le (coord_min c y) c ∧ coord_le (coord_min c y) y) as [L1 L2].
  { unfold coord_min, coord_le. case_match eqn:E; [by split; [apply lex_leb_refl|]|].
    split; [|apply lex_leb_refl]. by destruct (lex_leb_total (coord_key c) (coord_key y)) as [?|?];
      [congruence|]. }
  split_and!.
  - destruct H1 as [->|H1]; [|right; by right]. destruct Hm as [->| ->]; [by left|right; by left].
  - by eapply lex_leb_trans.
  - intros x [->|Hx]%elem_of_cons; [by eapply lex_leb_trans|auto].
Qed.

Lemma select_leader_spec l :
  l ≠ [] → ∃ c, select_leader l = Done c ∧ c ∈ l ∧ ∀ x, x ∈ l → coord_le c x.
Proof.
  destruct l as [|c l]; [done|]. intros _. exists (foldl coord_min c l).
  destruct (foldl_coord_min c l) as (H1 & H2 & H3). split_and!; [done| |].
  - destruct H1 as [->|H1]; [by left|by right].
  - intros x [->|Hx]%elem_of_cons; auto.
Qed.

Section leader.
Context {St : Type} (get_receiver : ReceiverEndpoint → outcome (channel (StateFeedback St))).

(** Set-up elects exactly one of the replicas of the host. *)
Lemma setup_one_leader leader_id metadatas all host rs :
  Forall2 (λ m r, setup_replica get_receiver leader_id m = Done r) metadatas rs →
  em_coord <$> metadatas = base.filter (λ c, host_id c = host) all →
  NoDup all → Forall (λ m, em_replicas m = all) metadatas → metadatas ≠ [] →
  ∃ il, il < length rs ∧ ∀ i r, rs !! i = Some r →
    r = mkReplica (bool_decide (i = il)) (length rs) Iterating 0.
Proof.
  intros Hrs Hco Hnd Hall Hne.
  destruct (select_leader_spec (base.filter (λ c, host_id c = host) all)) as (c & Hc & Hin & _).
  { rewrite <-Hco. by destruct metadatas. }
  assert (NoDup (em_coord <$> metadatas)) as Hnd' by (rewrite Hco; by apply NoDup_filter).
  rewrite <-Hco in Hin. apply list_elem_of_lookup in Hin as [il Hil].
  exists il. split.
  { apply lookup_lt_Some in Hil. rewrite length_fmap in Hil.
    by rewrite <-(Forall2_length _ _ _ Hrs). }
  intros i r Hi. destruct (Forall2_lookup_r _ _ _ _ _ Hrs Hi) as (m & Hm & Hr).
  assert (em_replicas m = all) as Hma by exact (Forall_lookup_1 _ _ _ _ Hall Hm).
  assert ((em_coord <$> metadatas) !! i = Some (em_coord m)) as Hmi
    by (by rewrite list_lookup_fmap, Hm).
  assert (host_id (em_coord m) = host) as Hh.
  { apply list_elem_of_lookup_2 in Hmi. rewrite Hco in Hmi.
    by apply list_elem_of_filter in Hmi as [? _]. }
  unfold setup_replica, IterationStateHandler_setup in Hr. rewrite Hma, Hh, Hc in Hr. cbn in Hr.
  apply bind_done in Hr as (h' & Hh' & [= <-]). apply bind_done in Hh' as (? & _ & [= <-]).
  cbn. rewrite <-Hco, length_fmap, (Forall2_length _ _ _ Hrs).
  f_equal. apply bool_decide_ext. split; [intros ->|intros ->].
  - by eapply NoDup_lookup.
  - rewrite Hil in Hmi. by injection Hmi.
Qed.
End leader.

(** ** The invariant holds *)
Section preservation.
Context {St : Type} (g : LoopGraph) (init : St).
Implicit Types s : System St.
Implicit Types r : Replica St.

Lemma initial_invariant s : initial g init s → ∃ il l, invariant init s il l.
Proof.
  intros [Hh (gr & lid & ms & all & host & Hrs & Hco & Hnd & Hall & Hne) Hc _ Hu _].
  destruct (setup_one_leader gr lid ms all host _ Hrs Hco Hnd Hall Hne) as (il & Hlt & Hr).
  destruct (lookup_lt_is_Some_2 _ _ Hlt) as [l Hl]. pose proof (Hr _ _ Hl) as El.
  exists il, l. split; unfold barrier_of, get_barrier; rewrite ?Hh, ?Hu; cbn; [done| | | | |done| | |lia| |].
  - intros i r Hi. by rewrite (Hr _ _ Hi).
  - subst l. split; cbn; [lia|done].
  - by subst l.
  - apply Forall_lookup. intros i r Hi. by rewrite (Hr _ _ Hi).
  - apply Forall_lookup. intros i r Hi. by rewrite (Hr _ _ Hi).
  - clear -Hr. assert (Forall (λ r, rp_pc r = Iterating) (sys_replicas s)) as H.
    { apply Forall_lookup. intros i r Hi. by rewrite (Hr _ _ Hi). }
    symmetry. clear Hr. induction H as [|r rs H _ IH]; cbn [List.filter length]; [done|].
    unfold inside at 1. by rewrite H.
  - apply Forall_lookup. intros i r Hi. rewrite (Hr _ _ Hi). split; cbn; [lia|done].
  - eapply Forall_impl; [exact Hc|]. intros c (_ & Hg & Hf & Hs). unfold consumer_ok. rewrite Hg, Hf, Hs.
    split_and!; [done|done|intros; cbn; lia].
Qed.

Lemma consumer_ok_mono n n' c : n ≤ n' → consumer_ok n c → consumer_ok n' c.
Proof. intros Hle (H1 & H2 & H3). split_and!; [done..|]. intros Hl Hr. specialize (H3 Hl Hr). lia. Qed.

(** One replica moves and the barrier stays as it is. *)
Lemma invariant_put s il l i r h' r' :
  invariant init s il l → sys_replicas s !! i = Some r →
  rp_leader r' = rp_leader r → rp_size r' = rp_size r → state_barrier h' = state_barrier (sys_host s) →
  generation (state_lock (sys_host s)) ≤ generation (state_lock h') →
  let l' := if decide (i = il) then r' else l in
  lock_ok (generation (state_lock h')) l' →
  state_ref h' = state_at init (sys_updates s) (rp_sets l') →
  inside (bar_generation (barrier_of s)) r' = inside (bar_generation (barrier_of s)) r →
  barrier_ok (bar_generation (barrier_of s)) r' → update_ok (sys_updates s) r' →
  invariant init (put_replica s h' i r') il l'.
Proof.
  intros [I1 I2 I3 I4 IS IB I5 I6 I7 I8 I9] Hi Hld Hsz Hb Hg l' Hlk Hst Hin Hbo Hup.
  assert (barrier_of (put_replica s h' i r') = barrier_of s) as Eb
    by (unfold barrier_of, get_barrier; cbn; by rewrite Hb, length_insert).
  pose proof (lookup_lt_Some _ _ _ Hi) as Hlt.
  split; rewrite ?Eb; cbn [put_replica sys_replicas sys_host sys_updates sys_consumers];
    try (rewrite length_insert); try done.
  - unfold l'. case_decide as Ed; [subst; by rewrite list_lookup_insert_eq|].
    by rewrite list_lookup_insert_ne.
  - intros j r0. destruct (decide (i = j)) as [->|Hne].
    + rewrite list_lookup_insert_eq by done. intros [= <-]. rewrite Hld. eauto.
    + rewrite list_lookup_insert_ne by done. eauto.
  - apply Forall_insert; [done|]. rewrite Hsz. exact (Forall_lookup_1 _ _ _ _ IS Hi).
  - by apply Forall_insert.
  - pose proof (filter_length_insert (inside (bar_generation (barrier_of s))) _ _ _ r' Hi) as E.
    rewrite Hin in E. lia.
  - by apply Forall_insert.
  - eapply Forall_impl; [exact I9|]. intros c. by apply consumer_ok_mono.
Qed.

(** What the invariant says of a replica. *)
Lemma invariant_at s il l i r :
  invariant init s il l → sys_replicas s !! i = Some r →
  barrier_ok (bar_generation (barrier_of s)) r ∧ update_ok (sys_updates s) r ∧
  rp_leader r = bool_decide (i = il) ∧ (i = il → r = l).
Proof.
  intros I Hi. split_and!.
  - exact (Forall_lookup_1 _ _ _ _ (iv_barrier _ _ _ _ I) Hi).
  - exact (Forall_lookup_1 _ _ _ _ (iv_updates _ _ _ _ I) Hi).
  - by eapply iv_unique.
  - intros ->. pose proof (iv_leader _ _ _ _ I). congruence.
Qed.

Lemma lock_generation (x : IterationStateLock) r :
  lock_ok (generation x) r →
  generation x ≤ generation (IterationStateLock_lock x) ∧
  generation (IterationStateLock_lock x) = 2 * rp_iter r + 1.
Proof.
  intros [H1 H2]. unfold IterationStateLock_lock. destruct (Nat.eqb_spec (generation x mod 2) 0) as [E|E]; cbn.
  - assert (generation x ≠ 2 * rp_iter r + 1) as Hne.
    { intros E2. rewrite E2, Nat.add_comm, Nat.mul_comm, Nat.Div0.mod_add in E. done. }
    lia.
  - assert (generation x ≠ 2 * rp_iter r) as Hne.
    { intros E'. apply E. rewrite E', Nat.mul_comm. apply Nat.Div0.mod_mul. }
    lia.
Qed.

Lemma unlock_generation (x : IterationStateLock) k :
  generation x = 2 * k + 1 → IterationStateLock_unlock x = Done (mkLock (2 * k + 2)).
Proof.
  intros E. unfold IterationStateLock_unlock. rewrite E.
  replace (2 * k + 1) with (1 + k * 2) by lia. rewrite Nat.Div0.mod_add. cbn. do 2 f_equal. lia.
Qed.

(** The last replica to arrive finds all the others waiting for it. *)
Lemma last_arrival s il l i r j r' :
  invariant init s il l → sys_replicas s !! i = Some r → rp_pc r = AtBarrier →
  ¬ bar_count (barrier_of s) + 1 < length (sys_replicas s) →
  sys_replicas s !! j = Some r' → j ≠ i →
  rp_pc r' = InBarrier (bar_generation (barrier_of s)).
Proof.
  intros I Hi Hpc Hn Hj Hne.
  assert (inside (bar_generation (barrier_of s)) r' = true) as H.
  { eapply filter_length_full; [exact Hi| | |done..]; [unfold inside; by rewrite Hpc|].
    rewrite <-(iv_count _ _ _ _ I). lia. }
  unfold inside in H. destruct (rp_pc r'); try done. by apply Nat.eqb_eq in H as ->.
Qed.

Lemma replicas_put s h i r j r0 :
  i < length (sys_replicas s) → sys_replicas (put_replica s h i r) !! j = Some r0 →
  (j = i ∧ r0 = r) ∨ (j ≠ i ∧ sys_replicas s !! j = Some r0).
Proof.
  intros Hlt. cbn. destruct (decide (j = i)) as [->|Hne].
  - rewrite list_lookup_insert_eq by done. intros [= <-]. by left.
  - rewrite list_lookup_insert_ne by done. by right.
Qed.

(** A replica goes on to or through the barrier: all but the barrier itself. *)
Lemma invariant_at_barrier s il l i r b pc :
  invariant init s il l → sys_replicas s !! i = Some r → rp_pc r = AtBarrier →
  pc = PastBarrier ∨ (∃ g, pc = InBarrier g) →
  let s' := put_replica s (mkHost (state_ref (sys_host s)) (Some b) (state_lock (sys_host s))) i
              (set_pc r pc) in
  Forall (barrier_ok (bar_generation b)) (sys_replicas s') →
  bar_count b = length (List.filter (inside (bar_generation b)) (sys_replicas s')) →
  bar_count b < length (sys_replicas s) → bar_size b = length (sys_replicas s) →
  ∃ l', invariant init s' il l'.
Proof.
  intros I Hi Hpc Hto s' Hb Hc Hr Hsz.
  destruct (invariant_at _ _ _ _ _ I Hi) as (_ & Hup & Hld & Hil).
  unfold update_ok, rp_flushes in Hup. rewrite Hpc in Hup.
  pose proof (lookup_lt_Some _ _ _ Hi) as Hlt.
  assert (update_ok (sys_updates s) (set_pc r pc)) as Hup'
    by (destruct Hto as [->|[? ->]]; split; cbn; lia).
  exists (if decide (i = il) then set_pc r pc else l).
  destruct I as [I1 I2 [K1 K2] I4 IS IB I5 I6 I7 I8 I9]. split; try done.
  - cbn. destruct (decide (i = il)) as [->|Hne]; [by rewrite list_lookup_insert_eq|].
    by rewrite list_lookup_insert_ne.
  - intros j r0 [[-> ->]|[_ Hj]]%replicas_put; [done|by eapply I2|done].
  - cbn. destruct (decide (i = il)) as [Ed|Ed]; [|done]. specialize (Hil Ed) as ->.
    split; [done|]. intros _. apply K2. by rewrite Hpc.
  - cbn. rewrite I4. destruct (decide (i = il)) as [Ed|Ed]; [|done]. specialize (Hil Ed) as ->.
    unfold rp_sets. rewrite Hpc. by destruct Hto as [->|[? ->]].
  - cbn. rewrite length_insert. apply Forall_insert; [done|]. exact (Forall_lookup_1 _ _ _ _ IS Hi).
  - cbn. by rewrite length_insert.
  - cbn. by rewrite length_insert.
  - by apply Forall_insert.
Qed.

Lemma invariant_enter s il l i r h released :
  invariant init s il l → sys_replicas s !! i = Some r → rp_pc r = AtBarrier →
  sync_enter (rp_size r) (sys_host s) = (h, released) →
  ∃ l', invariant init (put_replica s h i
    (set_pc r (if released then PastBarrier
               else InBarrier (bar_generation (barrier_of s))))) il l'.
Proof.
  intros I Hi Hpc He. destruct (invariant_at _ _ _ _ _ I Hi) as (Hbo & _).
  unfold barrier_ok in Hbo. rewrite Hpc in Hbo. pose proof (lookup_lt_Some _ _ _ Hi) as Hlt.
  unfold sync_enter, barrier_enter in He. rewrite (Forall_lookup_1 _ _ _ _ (iv_sizes _ _ _ _ I) Hi) in He.
  fold (barrier_of s) in He. pose proof (iv_size _ _ _ _ I) as Hsz. rewrite Hsz in He.
  pose proof (iv_barrier _ _ _ _ I) as Hb. pose proof (iv_count _ _ _ _ I) as Hc.
  set (e := bar_generation (barrier_of s)) in *.
  destruct (Nat.ltb_spec (bar_count (barrier_of s) + 1) (length (sys_replicas s))) as [Hn|Hn];
    injection He as <- <-; (eapply invariant_at_barrier; [exact I|done|done|by eauto|..|done]); cbn.
  - apply Forall_insert; [done|]. unfold barrier_ok. cbn. lia.
  - pose proof (filter_length_insert (inside e) _ _ _ (set_pc r (InBarrier e)) Hi) as E.
    unfold inside in E at 2 4. rewrite Hpc in E. cbn in E. rewrite Nat.eqb_refl in E. cbn in E. lia.
  - done.
  - apply Forall_lookup. intros j r0 [[-> ->]|[Hne Hj]]%(replicas_put s (sys_host s));
      [unfold barrier_ok; cbn; lia| |done].
    pose proof (last_arrival s il l i r j r0 I Hi Hpc ltac:(lia) Hj Hne) as Hp.
    pose proof (Forall_lookup_1 _ _ _ _ Hb Hj) as Hb0. unfold barrier_ok in *. fold e in Hp.
    rewrite Hp in *. lia.
  - symmetry. destruct (List.filter (inside (e + 1)) _) as [|x fl] eqn:Ef; [done|].
    assert (In x (x :: fl)) as Hin by (by left). rewrite <-Ef in Hin.
    apply filter_In in Hin as [Hin Hx]. apply list_elem_of_In, list_elem_of_lookup in Hin as [j Hj].
    destruct (replicas_put s (sys_host s) _ _ _ _ Hlt Hj) as [[-> ->]|[Hne Hj']]; [done|].
    pose proof (last_arrival s il l i r j x I Hi Hpc ltac:(lia) Hj' Hne) as Hp. fold e in Hp.
    unfold inside in Hx. rewrite Hp in Hx. apply Nat.eqb_eq in Hx. lia.
  - lia.
Qed.

(** A replica moves between the end of an iteration and the next, the lock and the
    barrier stay as they are. *)
Lemma invariant_move s il l i r pc h' :
  invariant init s il l → sys_replicas s !! i = Some r → rp_pc r ≠ Iterating → pc ≠ Iterating →
  state_barrier h' = state_barrier (sys_host s) → state_lock h' = state_lock (sys_host s) →
  state_ref h' = (if rp_leader r then state_at init (sys_updates s) (rp_sets (set_pc r pc))
                  else state_ref (sys_host s)) →
  inside (bar_generation (barrier_of s)) (set_pc r pc) =
    inside (bar_generation (barrier_of s)) r →
  barrier_ok (bar_generation (barrier_of s)) (set_pc r pc) →
  update_ok (sys_updates s) (set_pc r pc) →
  ∃ l', invariant init (put_replica s h' i (set_pc r pc)) il l'.
Proof.
  intros I Hi H1 H2 Hb Hl Hs Hin Hbo Hup.
  destruct (invariant_at _ _ _ _ _ I Hi) as (_ & _ & Hld & Hil).
  pose proof (iv_lock _ _ _ _ I) as [K1 K2]. pose proof (iv_state _ _ _ _ I) as Hst.
  eexists. eapply invariant_put; [exact I|exact Hi|done|done|done| | | |done..].
  - by rewrite Hl.
  - rewrite Hl. destruct (decide (i = il)) as [Ed|Ed]; [|done].
    specialize (Hil Ed) as ->. split; [done|auto].
  - rewrite Hs, Hld. by destruct (decide (i = il)); case_bool_decide.
Qed.

(** The leader unlocks what it locked, the others do nothing. *)
Lemma sync_unlock_spec s il l i r :
  invariant init s il l → sys_replicas s !! i = Some r → rp_pc r = PastBarrier →
  sync_unlock (rp_leader r) (sys_host s) = Done
    (if rp_leader r then
       mkHost (state_ref (sys_host s)) (state_barrier (sys_host s)) (mkLock (2 * rp_iter r + 2))
     else sys_host s).
Proof.
  intros I Hi Hpc. destruct (invariant_at _ _ _ _ _ I Hi) as (_ & _ & Hld & Hil).
  unfold sync_unlock. rewrite Hld. case_bool_decide as Ed; [|done]. specialize (Hil Ed) as ->.
  destruct (iv_lock _ _ _ _ I) as [_ K2]. rewrite Hpc in K2. by rewrite (unlock_generation _ _ (K2 ltac:(done))).
Qed.

Lemma invariant_unlock s il l i r h :
  invariant init s il l → sys_replicas s !! i = Some r → rp_pc r = PastBarrier →
  sync_unlock (rp_leader r) (sys_host s) = Done h →
  ∃ l', invariant init (put_replica s h i (mkReplica (rp_leader r) (rp_size r) Iterating (S (rp_iter r)))) il l'.
Proof.
  intros I Hi Hpc Hun. rewrite (sync_unlock_spec _ _ _ _ _ I Hi Hpc) in Hun. injection Hun as <-.
  destruct (invariant_at _ _ _ _ _ I Hi) as (Hbo & Hup & Hld & Hil).
  unfold barrier_ok, update_ok, rp_flushes in Hbo, Hup. rewrite Hpc in Hbo, Hup.
  pose proof (iv_lock _ _ _ _ I) as [K1 K2]. pose proof (iv_state _ _ _ _ I) as Hst.
  eexists. eapply invariant_put; [exact I|exact Hi|done|done| | | | | | |].
  - by destruct (rp_leader r).
  - rewrite Hld. case_bool_decide as Ed; [|done]. specialize (Hil Ed) as ->. cbn. lia.
  - rewrite Hld. destruct (decide (i = il)) as [Ed|Ed]; case_bool_decide; try done.
    split; cbn; [lia|done].
  - rewrite Hld. destruct (decide (i = il)) as [Ed|Ed]; case_bool_decide; try done.
    specialize (Hil Ed) as ->. rewrite Hst. unfold rp_sets. by rewrite Hpc.
  - unfold inside. by rewrite Hpc.
  - unfold barrier_ok. cbn. lia.
  - split; cbn; [lia|done].
Qed.

Lemma get_barrier_of s il l i r :
  invariant init s il l → sys_replicas s !! i = Some r → get_barrier (rp_size r) (sys_host s) = barrier_of s.
Proof. intros I Hi. unfold barrier_of. by rewrite (Forall_lookup_1 _ _ _ _ (iv_sizes _ _ _ _ I) Hi). Qed.

Lemma sync_step_invariant s s' il l :
  sync_step s s' → invariant init s il l → ∃ l', invariant init s' il l'.
Proof.
  intros Hs I. destruct Hs as
    [s i r u Hi Hpc Hu|s i r u Hi Hpc|s i r h released Hi Hpc He|s i r e Hi Hpc Hg|s i r h Hi Hpc Hun];
    destruct (invariant_at _ _ _ _ _ I Hi) as (Hbo & Hup & Hld & Hil);
    pose proof (iv_state _ _ _ _ I) as Hst;
    unfold barrier_ok, update_ok, rp_flushes in Hbo, Hup; rewrite Hpc in Hbo, Hup.
  - eapply invariant_move; try done; [by rewrite Hpc| | |].
    + rewrite Hld. case_bool_decide as Ed; [|done]. specialize (Hil Ed) as ->.
      rewrite Hst. unfold rp_sets. by rewrite Hpc.
    + unfold inside. by rewrite Hpc.
    + apply lookup_lt_Some in Hu as Hlt. split; cbn; [lia|done].
  - destruct Hup as [Hup1 Hup]. apply lookup_lt_Some in Hup as Hlt.
    eapply invariant_move; [done|done|by rewrite Hpc|done|by destruct (rp_leader r)
      |by destruct (rp_leader r)| | |done|].
    + unfold sync_set. destruct (rp_leader r); [|done]. cbn -[lookup]. by rewrite Hup.
    + unfold inside. by rewrite Hpc.
    + split; cbn; lia.
  - rewrite (get_barrier_of _ _ _ _ _ I Hi). by eapply invariant_enter.
  - rewrite (get_barrier_of _ _ _ _ _ I Hi) in Hg. eapply invariant_move; try done; [by rewrite Hpc| | |].
    + rewrite Hld. case_bool_decide as Ed; [|done]. specialize (Hil Ed) as ->.
      rewrite Hst. unfold rp_sets. by rewrite Hpc.
    + unfold inside. rewrite Hpc. cbn. symmetry. apply Nat.eqb_neq. congruence.
    + unfold barrier_ok in *. cbn. lia.
  - by eapply invariant_unlock.
Qed.

Lemma invariant_lock s il l i r :
  invariant init s il l → sys_replicas s !! i = Some r → rp_pc r = Iterating →
  ∃ l', invariant init (put_replica s (handler_lock (sys_host s)) i (set_pc r Flushing)) il l'.
Proof.
  intros I Hi Hpc. destruct (invariant_at _ _ _ _ _ I Hi) as (Hbo & Hup & Hld & Hil).
  pose proof (iv_state _ _ _ _ I) as Hst.
  destruct (lock_generation _ _ (iv_lock _ _ _ _ I)) as [G1 G2].
  unfold barrier_ok, update_ok, rp_flushes in Hbo, Hup. rewrite Hpc in Hbo, Hup.
  eexists. eapply invariant_put; [exact I|exact Hi|done|done|done|done| | | |done|].
  - unfold lock_ok. cbn. rewrite G2. destruct (decide (i = il)) as [Ed|Ed]; [|lia].
    specialize (Hil Ed) as ->. cbn. lia.
  - cbn. rewrite Hst. destruct (decide (i = il)) as [Ed|Ed]; [|done].
    specialize (Hil Ed) as ->. unfold rp_sets. by rewrite Hpc.
  - unfold inside. by rewrite Hpc.
  - split; cbn; [lia|done].
Qed.
Lemma invariant_flush s il l i r :
  invariant init s il l → sys_replicas s !! i = Some r → rp_pc r = Flushing →
  ∃ l', invariant init (put_replica s (sys_host s) i (set_pc r WaitUpdate)) il l'.
Proof.
  intros I Hi Hpc. destruct (invariant_at _ _ _ _ _ I Hi) as (Hbo & Hup & Hld & Hil).
  pose proof (iv_state _ _ _ _ I) as Hst.
  unfold barrier_ok, update_ok, rp_flushes in Hbo, Hup. rewrite Hpc in Hbo, Hup.
  eapply invariant_move; try done; [by rewrite Hpc| | |].
  - rewrite Hld. case_bool_decide as Ed; [|done]. specialize (Hil Ed) as ->.
    rewrite Hst. unfold rp_sets. by rewrite Hpc.
  - unfold inside. by rewrite Hpc.
  - split; cbn; [lia|done].
Qed.

Lemma invariant_consumer s il l j c' :
  invariant init s il l → consumer_ok (generation (state_lock (sys_host s))) c' →
  invariant init (put_consumer s j c') il l.
Proof.
  intros [I1 I2 I3 I4 IS IB I5 I6 I7 I8 I9] Hc. split; try done. by apply Forall_insert.
Qed.
Lemma invariant_elsewhere s il l es :
  invariant init s il l →
  invariant init (mkSystem (sys_host s) (sys_replicas s) (sys_consumers s) es (sys_updates s)) il l.
Proof. by intros []. Qed.

Lemma state_at_app us u n :
  n ≤ length us → state_at (St:=St) init (us ++ [u]) n = state_at init us n.
Proof. destruct n as [|n]; [done|]. intros. unfold state_at. by rewrite lookup_app_l. Qed.

Lemma sets_le us r : update_ok us r → rp_sets r ≤ length us.
Proof.
  unfold update_ok, rp_flushes, rp_sets. destruct (rp_pc r); intros [? ?]; try lia.
Qed.

Lemma invariant_update s il l u :
  invariant init s il l →
  Forall (λ r, length (sys_updates s) < rp_flushes r) (sys_replicas s) →
  invariant init (mkSystem (sys_host s) (sys_replicas s) (sys_consumers s) (sys_elsewhere s)
    (sys_updates s ++ [u])) il l.
Proof.
  intros I Hr. pose proof (invariant_at _ _ _ _ _ I (iv_leader _ _ _ _ I)) as (_ & Hup & _).
  destruct I as [I1 I2 I3 I4 IS IB I5 I6 I7 I8 I9].
  split; try done; cbn [sys_updates sys_host sys_replicas sys_consumers].
  - rewrite state_at_app; [done|by apply sets_le].
  - eapply Forall_impl; [exact (proj2 (Forall_and _ _) (conj Hr I8))|]. cbn. intros r [H1 [H2 H3]].
    split; rewrite ?length_app; cbn; [lia|].
    destruct (rp_pc r); try done; rewrite ?length_app; cbn; try lia.
    rewrite lookup_app_l; [done|by eapply lookup_lt_Some].
Qed.

(** *** The dataflow *)

Lemma initial_flow s : initial g init s → flow_ok g s.
Proof.
  intros [_ (gr & lid & ms & all & host & Hrs & Hco & Hnd & Hall & Hne) Hc He Hu Hg].
  destruct (setup_one_leader gr lid ms all host _ Hrs Hco Hnd Hall Hne) as (il & _ & Hr).
  assert (∀ n, sent s n = 0) as Hs.
  { intros [i|j|k]; cbn.
    - destruct (sys_replicas s !! i) eqn:E; [|done]. by rewrite (Hr _ _ E).
    - destruct (sys_consumers s !! j) eqn:E; [|done]. by destruct (Forall_lookup_1 _ _ _ _ Hc E) as (_ & _ & _ & ?).
    - destruct (sys_elsewhere s !! k) eqn:E; [|done]. exact (Forall_lookup_1 _ _ _ _ He E). }
  split; [done|..].
  - intros n m _. by rewrite !Hs.
  - intros j c n Hj Hf. by destruct (Forall_lookup_1 _ _ _ _ Hc Hj) as (_ & _ & Hf' & _); rewrite Hf in Hf'.
  - intros k n Hk _. rewrite (Forall_lookup_1 _ _ _ _ He Hk). lia.
  - intros n _ _. rewrite Hu. cbn. lia.
Qed.

(** The threads stay the same. *)
Definition same_threads s s' : Prop :=
  length (sys_replicas s') = length (sys_replicas s) ∧
  length (sys_consumers s') = length (sys_consumers s) ∧
  length (sys_elsewhere s') = length (sys_elsewhere s).
Lemma same_threads_valid s s' n : same_threads s s' → node_valid s' n ↔ node_valid s n.
Proof. intros (E1 & E2 & E3). destruct n; cbn; by rewrite ?E1, ?E2, ?E3. Qed.
Lemma same_threads_graph s s' : same_threads s s' → graph_ok g s → graph_ok g s'.
Proof.
  intros Hs [G1 G2 G3 [rank G4] G5 G6]. pose proof (λ n, same_threads_valid s s' n Hs) as Hv.
  destruct Hs as (E1 & E2 & E3). split.
  - by rewrite E2.
  - by rewrite E3.
  - intros n Hn. by apply G3, Hv.
  - exists rank. intros n m Hnm. destruct (G4 n m Hnm). split; [by apply Hv|done].
  - eapply Forall_impl; [exact G5|]. intros n. by apply Hv.
  - intros i. rewrite E1. apply G6.
Qed.

(** A step in which each thread sends at most one [FlushAndRestart], after those it receives from. *)
Lemma flow_step s s' :
  flow_ok g s → same_threads s s' → sys_updates s' = sys_updates s →
  (∀ m, sent s' m = sent s m ∨ (sent s' m = S (sent s m) ∧ ∀ n, n ∈ lg_prev g m → sent s m < sent s n)) →
  (∀ j c n, sys_consumers s' !! j = Some c → cs_flushing c = true → n ∈ lg_prev g (Inside j) → cs_sent c < sent s n) →
  (∀ k n, sys_elsewhere s' !! k = Some n → mjoin (lg_elsewhere g !! k) = None → n ≤ S (length (sys_updates s))) →
  flow_ok g s'.
Proof.
  intros [F1 F2 F3 F4 F5] Hth Hu Hs Hf Hr.
  assert (∀ n, sent s n ≤ sent s' n) as Hle by (intros n; destruct (Hs n) as [->|[-> _]]; lia).
  split; rewrite ?Hu.
  - by eapply same_threads_graph.
  - intros n m Hnm. specialize (F2 _ _ Hnm). specialize (Hle n).
    destruct (Hs m) as [->|[-> Hp]]; [lia|]. specialize (Hp _ Hnm). lia.
  - intros j c n Hj Hc Hn. specialize (Hf _ _ _ Hj Hc Hn). specialize (Hle n). lia.
  - done.
  - intros n Hv%(same_threads_valid _ _ _ Hth) He. specialize (F5 n Hv He). specialize (Hle n). lia.
Qed.

Lemma put_replica_threads s h i r : same_threads s (put_replica s h i r).
Proof. split_and!; [apply length_insert|done|done]. Qed.
Lemma flow_replica s h i r r' :
  flow_ok g s → sys_replicas s !! i = Some r →
  rp_flushes r' = rp_flushes r ∨ rp_flushes r' = S (rp_flushes r) → flow_ok g (put_replica s h i r').
Proof.
  intros F Hi Hr. eapply flow_step; [exact F|apply put_replica_threads|done| |apply F|apply F].
  intros [i'|j|k]; [|by left..]. cbn [sent put_replica sys_replicas]. destruct (decide (i = i')) as [<-|Hne].
  - rewrite list_lookup_insert_eq by (by eapply lookup_lt_Some). rewrite Hi. cbn.
    destruct Hr as [->| ->]; [by left|right]. split; [done|]. by intros n ?%elem_of_nil.
  - left. by rewrite list_lookup_insert_ne.
Qed.

Lemma put_consumer_threads s j c : same_threads s (put_consumer s j c).
Proof. split_and!; [done|apply length_insert|done]. Qed.
Lemma flow_consumer s j c c' :
  flow_ok g s → sys_consumers s !! j = Some c →
  cs_sent c' = cs_sent c ∨ (cs_sent c' = S (cs_sent c) ∧ cs_flushing c = true) →
  (cs_flushing c' = true → Forall (λ n, cs_sent c' < sent s n) (lg_prev g (Inside j))) →
  flow_ok g (put_consumer s j c').
Proof.
  intros F Hj Hs Hf. assert (j < length (sys_consumers s)) as Hlt by (by eapply lookup_lt_Some).
  eapply flow_step; [exact F|apply put_consumer_threads|done| | |apply F].
  - intros [i|j'|k]; [by left| |by left]. cbn [sent put_consumer sys_consumers].
    destruct (decide (j = j')) as [<-|Hne]; [|left; by rewrite list_lookup_insert_ne].
    rewrite list_lookup_insert_eq, Hj by done. cbn. destruct Hs as [->|[-> Hc]]; [by left|right].
    split; [done|]. intros n Hn. by eapply (fl_flushing _ _ F).
  - intros j' c0 n Hj' Hc Hn. cbn in Hj'. destruct (decide (j = j')) as [<-|Hne].
    + rewrite list_lookup_insert_eq in Hj' by done. injection Hj' as <-.
      specialize (Hf Hc). rewrite Forall_forall in Hf. by apply Hf.
    + rewrite list_lookup_insert_ne in Hj' by done. by eapply (fl_flushing _ _ F).
Qed.

Lemma flow_elsewhere s k n :
  flow_ok g s → sys_elsewhere s !! k = Some n →
  match mjoin (lg_elsewhere g !! k) with
  | Some prev => Forall (λ m, n < sent s m) prev
  | None => n ≤ length (sys_updates s)
  end →
  flow_ok g (mkSystem (sys_host s) (sys_replicas s) (sys_consumers s) (<[k := S n]> (sys_elsewhere s)) (sys_updates s)).
Proof.
  intros F Hk Hp. assert (k < length (sys_elsewhere s)) as Hlt by (by eapply lookup_lt_Some).
  eapply flow_step; [exact F|split_and!; [done|done|apply length_insert]|done| |apply F|].
  - intros [i|j|k']; [by left..|]. cbn [sent sys_elsewhere]. destruct (decide (k = k')) as [<-|Hne].
    + rewrite list_lookup_insert_eq, Hk by done. right. split; [done|]. intros m Hm. cbn in Hm |- *.
      destruct (mjoin _) as [prev|]; [|by apply elem_of_nil in Hm]. rewrite Forall_forall in Hp. by apply Hp.
    + left. by rewrite list_lookup_insert_ne.
  - intros k' n' Hk' Hnone. cbn in Hk'. destruct (decide (k = k')) as [<-|Hne].
    + rewrite list_lookup_insert_eq in Hk' by done. injection Hk' as <-. rewrite Hnone in Hp. lia.
    + rewrite list_lookup_insert_ne in Hk' by done. by eapply (fl_remote _ _ F).
Qed.

(** Nobody is more than one [FlushAndRestart] ahead of the updates. *)
Lemma sent_bound s n :
  flow_ok g s → Forall (update_ok (sys_updates s)) (sys_replicas s) → node_valid s n →
  sent s n ≤ S (length (sys_updates s)).
Proof.
  intros F Hup. destruct (gr_order _ _ (fl_graph _ _ F)) as [rank Hrank].
  induction (Wf_nat.well_founded_ltof _ rank n) as [n _ IH]. intros Hv.
  destruct (lg_prev g n) as [|m prev] eqn:E.
  - pose proof (gr_fed _ _ (fl_graph _ _ F) n Hv E) as Hf. destruct n as [i|j|k]; cbn in *; [|done|].
    + destruct (lookup_lt_is_Some_2 _ _ Hv) as [r Hr]. rewrite Hr. cbn.
      pose proof (Forall_lookup_1 _ _ _ _ Hup Hr) as [Hu _]. unfold rp_flushes in *. destruct (rp_pc r); lia.
    + destruct (lookup_lt_is_Some_2 _ _ Hv) as [x Hx]. rewrite Hx. cbn. by eapply (fl_remote _ _ F).
  - assert (m ∈ lg_prev g n) as Hm by (rewrite E; by left). destruct (Hrank m n Hm) as [Hvm Hlt].
    specialize (IH m Hlt Hvm). pose proof (fl_edges _ _ F m n Hm). lia.
Qed.

Lemma sum_list_full (l : list nat) k : Forall (λ x, x ≤ k) l → length l * k ≤ sum_list l → Forall (λ x, x = k) l.
Proof.
  induction 1 as [|x l Hx Hl IH]; intros Hs; [done|]. cbn in Hs.
  assert (sum_list l ≤ length l * k) as Hb. { clear -Hl. induction Hl; cbn; lia. }
  constructor; [lia|]. apply IH. lia.
Qed.

(** When the leader has the deltas, what reaches an [IterationEnd] has ended the iteration. *)
Lemma deltas_received s n :
  flow_ok g s → Forall (update_ok (sys_updates s)) (sys_replicas s) →
  length (lg_ends g) * S (length (sys_updates s)) ≤ sum_list (sent s <$> lg_ends g) →
  reaches_end g n → length (sys_updates s) < sent s n.
Proof.
  intros F Hup Hsum. rewrite <-(length_fmap (sent s)) in Hsum. apply sum_list_full in Hsum; cycle 1.
  { apply Forall_fmap. eapply Forall_impl; [exact (gr_ends _ _ (fl_graph _ _ F))|]. intros m Hm. by apply sent_bound. }
  rewrite Forall_fmap, Forall_forall in Hsum.
  induction 1 as [n Hn|n m Hnm _ IH]; [specialize (Hsum n Hn); cbn in Hsum; lia|].
  pose proof (fl_edges _ _ F n m Hnm). lia.
Qed.

Lemma step_invariant s s' il l :
  step g s s' → invariant init s il l → flow_ok g s → (∃ l', invariant init s' il l') ∧ flow_ok g s'.
Proof.
  intros Hs I F. destruct Hs as [s s' Hs|s i r Hi Hpc|s i r Hi Hpc|s j c Hj Hw Hp|s j c Hj Hf|s j c st Hj Hf Hw Hwait|s k n Hk Hp|s u Hd].
  - split; [by eapply sync_step_invariant|].
    destruct Hs as [s i r u Hi Hpc Hu|s i r u Hi Hpc|s i r h released Hi Hpc He|s i r n Hi Hpc Hn|s i r h Hi Hpc Hun];
      (eapply flow_replica; [done|exact Hi|left]); unfold rp_flushes; rewrite Hpc; cbn; try done. by destruct released.
  - split; [by eapply invariant_lock|]. eapply flow_replica; [done|exact Hi|left]. unfold rp_flushes. by rewrite Hpc.
  - split; [by eapply invariant_flush|]. eapply flow_replica; [done|exact Hi|right]. unfold rp_flushes. by rewrite Hpc.
  - pose proof (Forall_lookup_1 _ _ _ _ (iv_consumers _ _ _ _ I) Hj) as (H1 & H2 & H3).
    assert (cs_flushing c = false) as Hf by (destruct (cs_flushing c); [specialize (H2 eq_refl); congruence|done]).
    split; [exists l; apply invariant_consumer; [done|]|eapply flow_consumer; [done|exact Hj|by left|done]].
    unfold consumer_ok, cs_reading in *. rewrite Hf in H1. rewrite Hw in H3. cbn. split_and!; [lia|done|intros Hl _; by apply H3].
  - pose proof (Forall_lookup_1 _ _ _ _ (iv_consumers _ _ _ _ I) Hj) as (H1 & H2 & H3).
    split; [exists l; apply invariant_consumer; [done|]|eapply flow_consumer; [done|exact Hj|by right|done]].
    unfold consumer_ok, cs_reading in *. rewrite Hf in H1. cbn. rewrite (H2 Hf). split_and!; [done..|]. cbn. by intros.
  - pose proof (Forall_lookup_1 _ _ _ _ (iv_consumers _ _ _ _ I) Hj) as (H1 & H2 & H3).
    split; [exists l; apply invariant_consumer; [done|]|eapply flow_consumer; [done|exact Hj|by left|done]].
    unfold Start_wait in Hwait. rewrite Hw in Hwait. unfold consumer_ok, cs_reading in *. rewrite Hf in H1. cbn.
    destruct (cs_lock c); cbn in Hwait.
    + destruct (wait_for_update _ _) eqn:E in Hwait; [|done]. injection Hwait as <-. cbn. split_and!; [done..|].
      intros _ _. unfold wait_for_update in E.
      destruct (Nat.ltb_spec (generation (state_lock (sys_host s))) (state_generation (cs_start c))); [done|lia].
    + injection Hwait as <-. cbn. by split_and!.
  - split; [exists l; by apply invariant_elsewhere|by apply flow_elsewhere].
  - pose proof (iv_updates _ _ _ _ I) as Hup. pose proof (λ n, deltas_received s n F Hup Hd) as Hall. split.
    + exists l. apply invariant_update; [done|]. apply Forall_lookup. intros i r Hi.
      specialize (Hall (Head i) (gr_heads _ _ (fl_graph _ _ F) i ltac:(by eapply lookup_lt_Some))).
      cbn in Hall. by rewrite Hi in Hall.
    + destruct F as [F1 F2 F3 F4 F5]. split; try done; cbn.
      * by apply (same_threads_graph s).
      * intros k n Hk Hn. specialize (F4 k n Hk Hn). rewrite length_app. cbn. lia.
      * intros n Hv Hr. specialize (Hall n Hr). rewrite length_app. cbn. change (length (sys_updates s) + 1 ≤ sent s n). lia.
Qed.

Lemma reachable_invariant s : reachable g init s → (∃ il l, invariant init s il l) ∧ flow_ok g s.
Proof.
  intros (s0 & H0 & Hs). destruct (initial_invariant _ H0) as (il & l & I). pose proof (initial_flow _ H0) as F.
  clear H0. revert l I F. induction Hs as [|s1 s2 s3 H12 _ IH]; intros l I F; [by eauto|].
  destruct (step_invariant _ _ _ _ H12 I F) as [[l' I'] F']. by eapply IH.
Qed.

(** ** Progress of the synchronisation *)

(** Some replica that has an update to process can make a move. *)
Lemma sync_enabled s il l i r :
  invariant init s il l → sys_replicas s !! i = Some r → rp_iter r < length (sys_updates s) →
  ∃ s', sync_step s s'.
Proof.
  intros I. assert (∀ i r, sys_replicas s !! i = Some r → rp_iter r < length (sys_updates s) →
    (∃ s', sync_step s s') ∨ rp_pc r = InBarrier (bar_generation (barrier_of s))) as Hone.
  { clear i r. intros i r Hi Hlt. destruct (invariant_at _ _ _ _ _ I Hi) as (_ & Hup & _).
    unfold update_ok, rp_flushes in Hup. destruct (rp_pc r) as [| | |u| |e|] eqn:Hpc; [lia|lia|..].
    - destruct (lookup_lt_is_Some_2 _ _ Hlt) as [u Hu]. left. eexists. by eapply step_receive.
    - left. eexists. by eapply step_set.
    - left. destruct (sync_enter (rp_size r) (sys_host s)) as [h b] eqn:E.
      eexists. by eapply step_enter.
    - destruct (decide (bar_generation (barrier_of s) = e)) as [->|Hne]; [by right|].
      left. eexists. eapply step_leave; [done..|]. by rewrite (get_barrier_of _ _ _ _ _ I Hi).
    - left. eexists. eapply step_unlock; [done..|]. by eapply sync_unlock_spec. }
  intros Hi Hlt. destruct (Hone _ _ Hi Hlt) as [?|Hin]; [done|].
  destruct (invariant_at _ _ _ _ _ I Hi) as (Hbo & _). unfold barrier_ok in Hbo. rewrite Hin in Hbo.
  assert (∃ j r', sys_replicas s !! j = Some r' ∧ inside (bar_generation (barrier_of s)) r' = false)
    as (j & r' & Hj & Hout).
  { pose proof (iv_room _ _ _ _ I) as Hroom. rewrite (iv_count _ _ _ _ I) in Hroom.
    clear -Hroom. induction (sys_replicas s) as [|x xs IH]; cbn in *; [lia|].
    destruct (inside _ x) eqn:E; [|by exists 0, x]. cbn in Hroom.
    destruct IH as (j & r' & ? & ?); [lia|]. by exists (S j), r'. }
  destruct (invariant_at _ _ _ _ _ I Hj) as (Hbo' & _). unfold barrier_ok, inside in Hbo', Hout.
  destruct (rp_pc r') as [| | |u| |e|] eqn:Hpc;
    try (destruct (Hone j r' Hj) as [?|Hin']; [lia|done|congruence]).
  - apply Nat.eqb_neq in Hout. eexists. eapply step_leave; [done..|]. rewrite (get_barrier_of _ _ _ _ _ I Hj). lia.
Qed.

(** The moves left before a replica has processed all the updates. *)
Definition rp_pending (us : list (StateFeedback St)) r : nat :=
  6 * (length us - rp_iter r) -
  match rp_pc r with
  | Iterating | Flushing | WaitUpdate => 0 | SetState _ => 1 | AtBarrier => 2 | InBarrier _ => 3 | PastBarrier => 4
  end.
Definition pending s : nat := sum_list_with (rp_pending (sys_updates s)) (sys_replicas s).

Lemma pending_put s h i r r' :
  sys_replicas s !! i = Some r →
  rp_pending (sys_updates s) r' < rp_pending (sys_updates s) r →
  pending (put_replica s h i r') < pending s.
Proof.
  unfold pending. cbn. generalize (sys_updates s) as us. intros us. revert i.
  induction (sys_replicas s) as [|x xs IH]; intros [|i] Hi Hlt; [done..| |].
  - injection Hi as ->. cbn. lia.
  - specialize (IH _ Hi Hlt). change (<[S i := r']> (x :: xs)) with (x :: <[i := r']> xs).
    cbn [sum_list_with]. lia.
Qed.

Lemma sync_step_pending s s' il l :
  sync_step s s' → invariant init s il l → pending s' < pending s ∧ sys_updates s' = sys_updates s.
Proof.
  intros Hs I. destruct Hs as
    [s i r u Hi Hpc Hu|s i r u Hi Hpc|s i r h released Hi Hpc He|s i r e Hi Hpc Hg|s i r h Hi Hpc Hun];
    (split; [|done]); (eapply pending_put; [exact Hi|]);
    destruct (invariant_at _ _ _ _ _ I Hi) as (_ & Hup & _); unfold update_ok in Hup;
    unfold rp_pending; rewrite Hpc in *; cbn; try (apply lookup_lt_Some in Hu);
    try (destruct Hup as [_ Hup%lookup_lt_Some]); try destruct released; lia.
Qed.

Lemma sync_runs s il l :
  invariant init s il l →
  ∃ s' l', rtc sync_step s s' ∧ invariant init s' il l' ∧ sys_updates s' = sys_updates s ∧
    Forall (λ r, rp_iter r = length (sys_updates s)) (sys_replicas s').
Proof.
  remember (pending s) as n eqn:En. revert s l En.
  induction (lt_wf n) as [n _ IH]; intros s l -> I.
  destruct (decide (Forall (λ r, rp_iter r = length (sys_updates s)) (sys_replicas s)))
    as [Hall|Hn]; [by exists s, l; split_and!|].
  assert (∃ i r, sys_replicas s !! i = Some r ∧ rp_iter r < length (sys_updates s))
    as (i & r & Hi & Hlt).
  { apply not_Forall_Exists in Hn; [|apply _]. apply Exists_exists in Hn as (r & Hr & Hne).
    apply list_elem_of_lookup in Hr as [i Hi]. exists i, r. split; [done|].
    destruct (invariant_at _ _ _ _ _ I Hi) as (_ & [Hup _] & _). cbn in Hne. lia. }
  destruct (sync_enabled _ _ _ _ _ I Hi Hlt) as [s1 H1].
  destruct (sync_step_pending _ _ _ _ H1 I) as [Hp Eu].
  destruct (sync_step_invariant _ _ _ _ H1 I) as [l1 I1].
  destruct (IH _ Hp s1 l1 eq_refl I1) as (s' & l' & Hs & I' & Eu' & Hall).
  exists s', l'. rewrite Eu in *. split_and!; [by econstructor|done..].
Qed.
End preservation.

(** ** Theorems *)
Section theorems.
Context {St : Type} (g : LoopGraph) (init : St).
Implicit Types s : System St.

(** The block that runs an iteration is the last one the host has the state of. *)
Lemma reading_current s il l j c :
  invariant init s il l → flow_ok g s → sys_consumers s !! j = Some c → cs_lock c = true → reaches_end g (Inside j) →
  cs_reading c = true → cs_sent c = rp_iter l ∧ rp_iter l = length (sys_updates s).
Proof.
  intros I F Hj Hl Hr Hrd. pose proof (invariant_at _ _ _ _ _ _ I (iv_leader _ _ _ _ I)) as (_ & [Hul _] & _).
  destruct (iv_lock _ _ _ _ I) as [K1 _].
  destruct (Forall_lookup_1 _ _ _ _ (iv_consumers _ _ _ _ I) Hj) as (_ & _ & H3). specialize (H3 Hl Hrd).
  pose proof (fl_updates _ _ F (Inside j) ltac:(by eapply lookup_lt_Some) Hr) as Hu. cbn in Hu. rewrite Hj in Hu. cbn in Hu.
  lia.
Qed.

(** C19. In an iteration whose replicas on the host lead to an [IterationEnd], under every
    interleaving of these replicas, their barrier, the blocks inside the iteration, those on
    other hosts and the updates of the leader, an iteration reads its own state.  A block inside that has the lock of the
    iteration and whose output reaches an [IterationEnd] finds, from the end of the wait of its [Start]
    until it has sent the next [FlushAndRestart], the state of the iteration it is in, and
    so does a replica of the iteration block from its last update to the next one. *)
Theorem iteration_state_consistent s :
  reachable g init s →
  (∀ j c, sys_consumers s !! j = Some c → cs_lock c = true → reaches_end g (Inside j) → cs_reading c = true →
     state_ref (sys_host s) = state_at init (sys_updates s) (cs_sent c)) ∧
  (∀ i r, sys_replicas s !! i = Some r → rp_reading r = true →
     state_ref (sys_host s) = state_at init (sys_updates s) (rp_iter r)).
Proof.
  intros [(il & l & I) F]%reachable_invariant.
  pose proof (invariant_at _ _ _ _ _ _ I (iv_leader _ _ _ _ I)) as (Hbl & Hul & _).
  pose proof (sets_le _ _ Hul) as Hle.
  assert (rp_iter l ≤ rp_sets l) as Hge by (unfold rp_sets; destruct (rp_pc l); lia).
  rewrite (iv_state _ _ _ _ I). split.
  - intros j c Hj Hl Hr Hrd. destruct (reading_current s il l j c I F Hj Hl Hr Hrd). f_equal. lia.
  - intros i r Hi Hpc. destruct (invariant_at _ _ _ _ _ _ I Hi) as (Hbo & Hup & _).
    unfold barrier_ok, update_ok, rp_flushes, rp_reading in Hbo, Hup, Hpc. f_equal.
    unfold barrier_ok in Hbl. unfold rp_sets in *. destruct (rp_pc r); try done; destruct (rp_pc l) eqn:El; lia.
Qed.

(** C20. The write of the state and the lock: while the local leader is about to write, no block
    that has the lock of the iteration and whose output reaches an [IterationEnd] runs, and no replica
    of the iteration block does, although the leader of the iteration only counts the deltas it
    receives; at most one replica of a host ever writes; and [unlock] never finds the lock unlocked. *)
Theorem iteration_state_race_free s :
  reachable g init s →
  (∀ i r u, sys_replicas s !! i = Some r → rp_leader r = true → rp_pc r = SetState u →
     (∀ j c, sys_consumers s !! j = Some c → cs_lock c = true → reaches_end g (Inside j) → cs_reading c = false) ∧
     Forall (λ r, rp_reading r = false) (sys_replicas s)) ∧
  (∃ i, ∀ j r, sys_replicas s !! j = Some r → rp_leader r = true → j = i) ∧
  (∀ i r, sys_replicas s !! i = Some r → rp_pc r = PastBarrier →
     ∃ h, sync_unlock (rp_leader r) (sys_host s) = Done h).
Proof.
  intros [(il & l & I) F]%reachable_invariant. split_and!.
  - intros i r u Hi Hld Hpc. destruct (invariant_at _ _ _ _ _ _ I Hi) as (_ & Hup & Hld' & Hil).
    rewrite Hld in Hld'. symmetry in Hld'. apply bool_decide_eq_true in Hld'.
    specialize (Hil Hld') as ->. unfold update_ok in Hup. rewrite Hpc in Hup.
    destruct Hup as [_ Hlt%lookup_lt_Some]. split.
    + intros j c Hj Hl Hr. destruct (cs_reading c) eqn:Hrd; [|done].
      destruct (reading_current s il l j c I F Hj Hl Hr Hrd). lia.
    + apply Forall_lookup. intros j r Hj. destruct (rp_reading r) eqn:Hrd; [|done].
      destruct (invariant_at _ _ _ _ _ _ I Hj) as (Hbo & [Hup _] & _).
      unfold barrier_ok, rp_flushes, rp_reading in Hbo, Hup, Hrd.
      destruct (invariant_at _ _ _ _ _ _ I Hi) as (Hbl & _). unfold barrier_ok in Hbl.
      rewrite Hpc in Hbl. destruct (rp_pc r); try done; lia.
  - exists il. intros j r Hj Hr. rewrite (iv_unique _ _ _ _ I _ _ Hj) in Hr.
    by apply bool_decide_eq_true in Hr.
  - intros i r Hi Hpc. eexists. by eapply sync_unlock_spec.
Qed.

(** C21. The hand-over of the state does not get stuck: from any reachable state the
    replicas, by their own moves, process every update sent so far; then the host holds
    the state of the last update and every [Start] whose iteration was started is let
    through its wait. *)
Theorem iteration_sync_completes s :
  reachable g init s →
  ∃ s', rtc sync_step s s' ∧ sys_updates s' = sys_updates s ∧
    Forall (λ r, rp_iter r = length (sys_updates s)) (sys_replicas s') ∧
    state_ref (sys_host s') = state_at init (sys_updates s) (length (sys_updates s)) ∧
    ∀ gen, gen ≤ 2 * length (sys_updates s) → wait_for_update (state_lock (sys_host s')) gen = true.
Proof.
  intros [(il & l & I) _]%reachable_invariant.
  destruct (sync_runs init _ _ _ I) as (s' & l' & Hs & I' & Eu & Hall).
  pose proof (Forall_lookup_1 _ _ _ _ Hall (iv_leader _ _ _ _ I')) as El. cbn in El.
  pose proof (invariant_at _ _ _ _ _ _ I' (iv_leader _ _ _ _ I')) as (_ & Hul & _).
  exists s'. split_and!; [done..| |].
  - rewrite (iv_state _ _ _ _ I'), Eu. f_equal. pose proof (sets_le _ _ Hul) as Hle.
    rewrite Eu in Hle. unfold rp_sets in *. destruct (rp_pc l'); lia.
  - intros gen Hg. destruct (iv_lock _ _ _ _ I') as [K1 _]. unfold wait_for_update.
    destruct (Nat.ltb_spec (generation (state_lock (sys_host s'))) gen); [lia|done].
Qed.
End theorems.

(** Two replicas and three blocks inside the iteration: the first leads to the [IterationEnd] and has the lock,
    the second has the lock and leads nowhere (a branch that ends in a sink), the third is in a loop
    inside this one and has the lock of that loop. *)
Module HandoverExample.
Definition a : Coord := mkCoord 3 0 0.
Definition b : Coord := mkCoord 3 0 1.
Definition metadata (c : Coord) : ExecutionMetadata := mkExecutionMetadata c [b; a] 0 [] Single.
Definition fresh (wait : bool) (gen : nat) : Start_core :=
  mkStartCore None 0 0 0 false (reset (mkFrontier [] None)) wait gen.
Definition heads : list Node := [Head 0; Head 1].
Definition graph : LoopGraph := mkLoopGraph [heads; heads; heads] [] [Inside 0; Inside 2].

(** At the start: [b] is listed first, [a] has the least coordinates. *)
Definition start : System nat :=
  mkSystem (mkHost 10 None lock_default)
    [mkReplica false 2 Iterating 0; mkReplica true 2 Iterating 0]
    [mkConsumer (fresh false 0) true false 0; mkConsumer (fresh false 0) true false 0;
     mkConsumer (fresh false 0) false false 0] [] [].
(** The leader has received the update, the first block waits for it, the other two run. *)
Definition writing : System nat :=
  mkSystem (mkHost 10 None (mkLock 1))
    [mkReplica false 2 WaitUpdate 0; mkReplica true 2 (SetState (Continue, 7)) 0]
    [mkConsumer (fresh true 2) true false 1; mkConsumer (fresh false 0) true false 0;
     mkConsumer (fresh false 2) false false 1] [] [(Continue, 7)].
(** The second iteration: the leader runs, the other is past the barrier, the block has
    waited for the new state. *)
Definition second : System nat :=
  mkSystem (mkHost 7 (Some (mkBarrier 2 0 1)) (mkLock 2))
    [mkReplica false 2 PastBarrier 0; mkReplica true 2 Iterating 1]
    [mkConsumer (fresh false 2) true false 1; mkConsumer (fresh false 0) true false 0;
     mkConsumer (fresh false 2) false false 1] [] [(Continue, 7)].

Lemma reaches_0 : reaches_end graph (Inside 0).
Proof. apply reaches_here. by left. Qed.
Lemma start_initial : initial graph 10 start.
Proof.
  split; [done| |by repeat constructor|done|done|].
  { exists (λ _, Done []), 5%N, [metadata b; metadata a], [b; a], 0%N.
    split_and!; [|done|by repeat constructor; set_solver|by repeat constructor|done].
    repeat constructor. }
  split; [done|done| | |by repeat constructor|].
  - intros [i|[|[|[|j]]]|k] Hv; cbn in *; try done; lia.
  - exists (λ n, match n with Head _ => 0 | _ => 1 end).
    intros n [i|[|[|[|j]]]|k] Hn; cbn in Hn; try by apply elem_of_nil in Hn.
    all: repeat (apply elem_of_cons in Hn as [->|Hn]; [cbn; lia|]); by apply elem_of_nil in Hn.
  - intros i Hi. apply (reaches_next _ _ (Inside 0)); [|apply reaches_0].
    destruct i as [|[|i]]; cbn in *; [by left|by right; left|lia].
Qed.

Lemma writing_steps : rtc (step graph) start writing.
Proof.
  eapply rtc_l; [by eapply (step_lock _ _ 0)|]. eapply rtc_l; [by eapply (step_flush _ _ 0)|].
  eapply rtc_l; [by eapply (step_lock _ _ 1)|]. eapply rtc_l; [by eapply (step_flush _ _ 1)|].
  eapply rtc_l; [eapply (step_restart _ _ 0); [done|done|by repeat constructor]|].
  eapply rtc_l; [by eapply (step_sent _ _ 0)|].
  eapply rtc_l; [eapply (step_restart _ _ 2); [done|done|by repeat constructor]|].
  eapply rtc_l; [by eapply (step_sent _ _ 2)|]. eapply rtc_l; [by eapply (step_wait _ _ 2)|].
  eapply rtc_l; [eapply (step_update _ _ (Continue, 7)); cbn; lia|].
  eapply rtc_l; [by eapply step_sync, (step_receive _ 1)|].
  apply rtc_refl.
Qed.

Lemma second_steps : rtc (step graph) writing second.
Proof.
  eapply rtc_l; [by eapply step_sync, (step_set _ 1)|].
  eapply rtc_l; [by eapply step_sync, (step_enter _ 1)|].
  eapply rtc_l; [by eapply step_sync, (step_receive _ 0)|].
  eapply rtc_l; [by eapply step_sync, (step_set _ 0)|].
  eapply rtc_l; [by eapply step_sync, (step_enter _ 0)|].
  eapply rtc_l; [by eapply step_sync, (step_leave _ 1)|].
  eapply rtc_l; [by eapply step_sync, (step_unlock _ 1)|].
  eapply rtc_l; [by eapply (step_wait _ _ 0)|].
  apply rtc_refl.
Qed.

Lemma writing_reachable : reachable graph 10 writing.
Proof. exists start. split; [apply start_initial|apply writing_steps]. Qed.
Lemma second_reachable : reachable graph 10 second.
Proof.
  exists start. split; [apply start_initial|].
  etrans; [apply writing_steps|apply second_steps].
Qed.
(** The second block leads to no [IterationEnd]. *)
Lemma no_end_1 : ¬ reaches_end graph (Inside 1).
Proof.
  remember (Inside 1) as n eqn:E. intros H. destruct H as [n Hn|n m Hm _]; subst n.
  - repeat (apply elem_of_cons in Hn as [?|Hn]; [done|]). by apply elem_of_nil in Hn.
  - destruct m as [i|[|[|[|j]]]|k]; cbn in Hm; try by apply elem_of_nil in Hm.
    all: repeat (apply elem_of_cons in Hm as [?|Hm]; [done|]); by apply elem_of_nil in Hm.
Qed.
End HandoverExample.

(** Both conditions are needed.  There is an iteration and a reachable state of it in which the local leader is
    about to write the state while a block of the iteration runs that has the lock and does not lead
    to an [IterationEnd], and another that leads to one and has the lock of a loop inside. *)
Lemma iteration_state_races :
  ∃ g (s : System nat), reachable g 10 s ∧
    (∃ i r u, sys_replicas s !! i = Some r ∧ rp_leader r = true ∧ rp_pc r = SetState u) ∧
    (∃ j c, sys_consumers s !! j = Some c ∧ cs_lock c = true ∧ ¬ reaches_end g (Inside j) ∧ cs_reading c = true) ∧
    (∃ j c, sys_consumers s !! j = Some c ∧ cs_lock c = false ∧ reaches_end g (Inside j) ∧ cs_reading c = true).
Proof.
  exists HandoverExample.graph, HandoverExample.writing. split_and!.
  - apply HandoverExample.writing_reachable.
  - by exists 1; eexists _, _.
  - exists 1. eexists. split; [done|]. split; [done|]. split; [apply HandoverExample.no_end_1|done].
  - exists 2. eexists. split; [done|]. split; [done|]. split; [|done]. apply reaches_here. by right; left.
Qed.

Lemma iteration_state_consistent_witness :
  sys_consumers HandoverExample.second !! 0 = Some (mkConsumer (HandoverExample.fresh false 2) true false 1) ∧
  7 = state_at 10 [(Continue, 7)] 1.
Proof.
  split; [done|].
  exact (proj1 (iteration_state_consistent HandoverExample.graph 10 HandoverExample.second
    HandoverExample.second_reachable) 0 _ eq_refl eq_refl HandoverExample.reaches_0 eq_refl).
Defined.

Lemma iteration_state_race_free_witness :
  Forall (λ r, rp_reading r = false) (sys_replicas HandoverExample.writing).
Proof.
  exact (proj2 (proj1 (iteration_state_race_free HandoverExample.graph 10 HandoverExample.writing
    HandoverExample.writing_reachable) 1 _ _ eq_refl eq_refl eq_refl)).
Defined.

Lemma iteration_sync_completes_witness :
  ∃ s', rtc sync_step HandoverExample.writing s' ∧ sys_updates s' = [(Continue, 7)] ∧
    Forall (λ r, rp_iter r = 1) (sys_replicas s') ∧ state_ref (sys_host s') = 7 ∧
    ∀ g, g ≤ 2 → wait_for_update (state_lock (sys_host s')) g = true.
Proof.
  exact (iteration_sync_completes HandoverExample.graph 10 HandoverExample.writing HandoverExample.writing_reachable).
Defined.
