(* ===== verification/Iteration.v ===== *)
(** * The blocks of an iteration

    [src/src/operator/iteration/{leader,iteration_end,replay}.rs].  [Replay] feeds the
    input of the iteration to its body once per iteration; the body ends with a local
    reduction and [IterationEnd], which sends the delta of the replica to the leader; the
    [IterationLeader] folds the deltas of all the replicas into the state, decides whether
    to go on and sends the new state back to every [Replay]. *)
From S2P Require Import Prelude StreamElement Operator BasicOps Folds Frontier Batcher Start.
From S2P Require Import End IterationLock.

(** ** [IterationEnd] *)
Record IterationEnd_state := mkIterationEnd {
  has_received_item : bool;
  ie_leader_block_id : BlockId;
  leader_sender : option ReceiverEndpoint;
  ie_coord : Coord
}.

Section iteration_end.
Context {U : Type} (update_default : U).
Implicit Types self : IterationEnd_state.

(** [IterationEnd::new]. *)
Definition IterationEnd_new (leader_block_id : BlockId) : IterationEnd_state :=
  mkIterationEnd false leader_block_id None coord_default.

(** [IterationEnd::setup]; [replicas] is [metadata.network.replicas]. *)
Definition IterationEnd_setup (metadata : ExecutionMetadata) (replicas : BlockId → list Coord) self
    : outcome IterationEnd_state :=
  let replicas := replicas (ie_leader_block_id self) in
  rassert (length replicas =? 1);;
  leader ← unwrap (head replicas);
  Done (mkIterationEnd (has_received_item self) (ie_leader_block_id self)
          (Some (mkReceiverEndpoint leader (block_id (em_coord metadata)))) (em_coord metadata)).

Definition set_received self (b : bool) : IterationEnd_state :=
  mkIterationEnd b (ie_leader_block_id self) (leader_sender self) (ie_coord self).

(** [self.leader_sender.as_ref().unwrap().send(message).unwrap()]. *)
Definition send_leader self (e : StreamElement U) (net : Network U) : outcome (Network U) :=
  sender ← unwrap (leader_sender self);
  unwrap (send sender (new_single e (ie_coord self)) net).

(** The [match &elem] of [IterationEnd::next]. *)
Definition IterationEnd_process self (elem : StreamElement U) (net : Network U)
    : outcome (IterationEnd_state * Network U * StreamElement unit) :=
  match elem with
  | Item _ =>
      net ← send_leader self elem net;
      Done (set_received self true, net, Item tt)
  | FlushAndRestart =>
      net ← (if has_received_item self then Done net
             else send_leader self (Item update_default) net);
      Done (set_received self false, net, FlushAndRestart)
  | Terminate =>
      net ← send_leader self Terminate net;
      Done (self, net, Terminate)
  | FlushBatch => Done (self, net, FlushBatch)
  | _ => Panicked
  end.

(** [IterationEnd::next]. *)
Definition IterationEnd_next (prev : Operator U) (fuel : nat)
    (q : (IterationEnd_state * Network U) * op_state prev)
    : outcome (StreamElement unit * ((IterationEnd_state * Network U) * op_state prev)) :=
  match fuel with
  | 0 => OutOfFuel
  | S fuel =>
      let '((self, net), p) := q in
      '(elem, p) ← op_next prev fuel p;
      '(self, net, e) ← IterationEnd_process self elem net;
      Done (e, ((self, net), p))
  end.

Definition iteration_ending : transducer U unit :=
  mkTransducer (IterationEnd_state * Network U) (λ _, None)
    (λ '(self, net) elem,
       '(self, net, e) ← IterationEnd_process self elem net; Done ((self, net), Some e)).

Global Instance IterationEnd_follows (prev : Operator U) :
  Follows prev iteration_ending (IterationEnd_next prev).
Proof.
  constructor; [by intros [[]]|]. intros f [self net] p. unfold drive. cbn.
  destruct (op_next prev f p) as [[e p1]| | |]; cbn; try done.
  by destruct (IterationEnd_process self e net) as [[[]]| | |].
Qed.
End iteration_end.

Definition IterationEnd {U} (update_default : U) (prev : Operator U) : Operator unit :=
  mkOperator _ (IterationEnd_next update_default prev).

(** ** [IterationLeader] *)
Record IterationLeader_state (St : Type) := mkLeader {
  il_coord : Coord;
  iteration_index : nat;
  max_iterations : nat;
  il_state : option St;
  initial_state : St;
  num_receivers : nat;
  feedback_senders : list ReceiverEndpoint;
  flush_and_restart : bool
}.
Global Arguments mkLeader {_} _ _ _ _ _ _ _ _.
Global Arguments il_coord {_} _.
Global Arguments iteration_index {_} _.
Global Arguments max_iterations {_} _.
Global Arguments il_state {_} _.
Global Arguments initial_state {_} _.
Global Arguments num_receivers {_} _.
Global Arguments feedback_senders {_} _.
Global Arguments flush_and_restart {_} _.

Section leader.
Context {U St : Type} (global_fold : St → U → St) (loop_condition : St → bool * St).
(** [state_update_receiver]: the [Start] that merges the deltas of all the replicas. *)
Context (rx : Operator U).
Implicit Types self : IterationLeader_state St.
Abbreviation Feedbacks := (Network (StateFeedback St)).

(** [IterationLeader::new]. *)
Definition IterationLeader_new (initial_state : St) (num_iterations : nat)
    : IterationLeader_state St :=
  mkLeader (mkCoord 0 0 0) 0 num_iterations (Some initial_state) initial_state 0 [] false.

Definition set_state self (st : option St) : IterationLeader_state St :=
  mkLeader (il_coord self) (iteration_index self) (max_iterations self) st (initial_state self)
    (num_receivers self) (feedback_senders self) (flush_and_restart self).
Definition set_index self (n : nat) (flush : bool) : IterationLeader_state St :=
  mkLeader (il_coord self) n (max_iterations self) (il_state self) (initial_state self)
    (num_receivers self) (feedback_senders self) flush.

(** The loop of [process_updates]. *)
Fixpoint process_updates (fuel missing_state_updates : nat) self (p : op_state rx)
    : outcome (option (StreamElement St) * IterationLeader_state St * op_state rx) :=
  match missing_state_updates with
  | 0 => Done (None, self, p)
  | S missing =>
      match fuel with
      | 0 => OutOfFuel
      | S fuel =>
          '(e, p) ← op_next rx fuel p;
          match e with
          | Item state_update =>
              st ← unwrap (il_state self);
              process_updates fuel missing (set_state self (Some (global_fold st state_update))) p
          | Terminate => Done (Some Terminate, self, p)
          | FlushAndRestart | FlushBatch => process_updates fuel (S missing) self p
          | _ => Panicked
          end
      end
  end.

(** [IterationLeader::final_result]. *)
Definition final_result self : outcome (option St * IterationLeader_state St) :=
  st ← unwrap (il_state self);
  let '(condition, st) := loop_condition st in
  let more_iterations := iteration_index self <? max_iterations self in
  if condition && more_iterations then Done (None, set_state self (Some st))
  else Done (Some st, set_state self (Some (initial_state self))).

(** The loop over [feedback_senders]. *)
Fixpoint send_feedback (m : NetworkMessage (StateFeedback St)) (senders : list ReceiverEndpoint)
    (net : Feedbacks) : outcome Feedbacks :=
  match senders with
  | [] => Done net
  | ep :: senders => net ← unwrap (send ep m net); send_feedback m senders net
  end.

(** The loop of [IterationLeader::next]. *)
Fixpoint leader_loop (fuel : nat) self (net : Feedbacks) (p : op_state rx)
    : outcome (StreamElement St * ((IterationLeader_state St * Feedbacks) * op_state rx)) :=
  match fuel with
  | 0 => OutOfFuel
  | S fuel =>
      '(value, self, p) ← process_updates fuel (num_receivers self) self p;
      match value with
      | Some value => Done (value, ((self, net), p))
      | None =>
          let self := set_index self (iteration_index self + 1) (flush_and_restart self) in
          '(result, self) ← final_result self;
          st ← unwrap (il_state self);
          let state_feedback := (from_condition (bool_decide (result = None)), st) in
          net ← send_feedback (new_single (Item state_feedback) (il_coord self))
                  (feedback_senders self) net;
          match result with
          | Some state => Done (Item state, ((set_index self 0 true, net), p))
          | None => leader_loop fuel self net p
          end
      end
  end.

(** [IterationLeader::next]. *)
Definition IterationLeader_next (fuel : nat)
    (q : (IterationLeader_state St * Feedbacks) * op_state rx)
    : outcome (StreamElement St * ((IterationLeader_state St * Feedbacks) * op_state rx)) :=
  let '((self, net), p) := q in
  if flush_and_restart self then
    Done (FlushAndRestart, ((set_index self (iteration_index self) false, net), p))
  else leader_loop fuel self net p.

Definition IterationLeader : Operator St := mkOperator _ IterationLeader_next.
End leader.

(** [IterationLeader::setup]: its receiver is the [Start] of the block of the deltas. *)
Definition IterationLeader_setup {U St} `{!TypeId U} (metadata : ExecutionMetadata)
    (get_senders : list ReceiverEndpoint)
    (get_receiver : ReceiverEndpoint → outcome (channel U)) (feedback_block_id : BlockId)
    (self : IterationLeader_state St)
    : outcome (IterationLeader_state St * (Start_core * Start_rx (SimpleStartReceiver U) U)) :=
  delta_update_receiver ←
    Start_setup (R := SimpleStartReceiver U) (A := U) metadata get_receiver
      (Start_new (SimpleStartReceiver_new feedback_block_id));
  Done (mkLeader (em_coord metadata) (iteration_index self) (max_iterations self) (il_state self)
          (initial_state self)
          (length (previous_replicas (rx_receiver delta_update_receiver.2)))
          get_senders (flush_and_restart self), delta_update_receiver).

(** ** [Replay] *)
Record Replay_state (A : Type) := mkReplay {
  content : list (StreamElement A);
  content_index : nat;
  input_finished : bool
}.
Global Arguments mkReplay {_} _ _ _.
Global Arguments content {_} _.
Global Arguments content_index {_} _.
Global Arguments input_finished {_} _.

Section replay.
Context {A St : Type} (others : HostState St → option (HostState St)).
Implicit Types self : Replay_state A.
Implicit Types handler : IterationStateHandler St.
Implicit Types h : HostState St.

(** [Replay::new]. *)
Definition Replay_new : Replay_state A := mkReplay [] 0 false.

(** The [match] of [Replay::input_next]. *)
Definition replay_input self (e : StreamElement A) h : Replay_state A * HostState St :=
  match e with
  | FlushAndRestart =>
      (mkReplay (content self ++ [FlushAndRestart]) (length (content self ++ [FlushAndRestart])) true,
       handler_lock h)
  | Item _ | Timestamped _ _ | Watermark _ =>
      (mkReplay (content self ++ [e]) (content_index self) (input_finished self), h)
  | FlushBatch | Terminate => (self, h)
  end.

Definition set_channel handler (ch : channel (StateFeedback St)) : IterationStateHandler St :=
  mkHandler (sh_coord handler) (Some ch) (leader_block_id handler) (is_local_leader handler)
    (num_local_replicas handler).

(** [Replay::wait_update]. *)
Fixpoint wait_update (fuel : nat) handler : outcome (StateFeedback St * IterationStateHandler St) :=
  match fuel with
  | 0 => OutOfFuel
  | S fuel =>
      state_receiver ← unwrap (new_state_receiver handler);
      let '(res, ch) := chan_recv state_receiver in
      message ← unwrap res;
      rassert (num_items message =? 1);;
      item ← unwrap (head (data message));
      match item with
      | Item update => Done (update, set_channel handler ch)
      | FlushBatch | FlushAndRestart => wait_update fuel (set_channel handler ch)
      | _ => Panicked
      end
  end.

(** [Replay::next]. *)
Fixpoint Replay_next (prev : Operator A) (fuel : nat)
    (q : (Replay_state A * IterationStateHandler St * HostState St) * op_state prev)
    : outcome (StreamElement A *
        ((Replay_state A * IterationStateHandler St * HostState St) * op_state prev)) :=
  match fuel with
  | 0 => OutOfFuel
  | S fuel =>
      let '((self, handler, h), p) := q in
      if input_finished self then
        if content_index self <? length (content self) then
          item ← unwrap (content self !! content_index self);
          let self := mkReplay (content self) (content_index self + 1) (input_finished self) in
          let h := match item with FlushAndRestart => handler_lock h | _ => h end in
          Done (item, ((self, handler, h), p))
        else
          '(state_update, handler) ← wait_update fuel handler;
          '(result, h) ← wait_sync_state others handler state_update h;
          let self := match result with
                      | Finished => mkReplay [] 0 false
                      | Continue => mkReplay (content self) 0 (input_finished self)
                      end in
          Replay_next prev fuel ((self, handler, h), p)
      else
        '(e, p) ← op_next prev fuel p;
        let '(self, h) := replay_input self e h in
        Done (e, ((self, handler, h), p))
  end.

(** [Replay::setup]. *)
Definition Replay_setup (metadata : ExecutionMetadata)
    (get_receiver : ReceiverEndpoint → outcome (channel (StateFeedback St))) handler
    : outcome (IterationStateHandler St) :=
  IterationStateHandler_setup metadata get_receiver handler.
End replay.

Definition Replay {A St} (others : HostState St → option (HostState St)) (prev : Operator A)
    : Operator A :=
  mkOperator _ (Replay_next others prev).

(** ** The delta of a replica *)

(** What [Stream::replay] and [Stream::iterate] put at the end of the body:
    [.key_by(|_| ()).fold(DeltaUpdate::default(), local_fold).drop_key()] and
    [IterationEnd]. *)
Definition iteration_tail {A U} `{!HashOrder} (update_default : U) (local_fold : U → A → U)
    (body : Operator A) : Operator unit :=
  IterationEnd update_default
    (Map (KeyedFold (KeyBy body (λ _, tt)) update_default local_fold) snd).

(** A stream without event time. *)
Definition untimed {A} (e : StreamElement A) : bool :=
  match e with Item _ | FlushBatch => true | _ => false end.

Section delta.
Context {A U : Type} `{!HashOrder} (d : U) (local_fold : U → A → U).
Implicit Types round : list (StreamElement A).
Abbreviation keyed := (se_map (λ t : A, (tt, t))).

Lemma keyed_values_of round : values_of tt (keyed <$> round) = values round.
Proof.
  unfold values_of, values. induction round as [|[] round IH]; csimpl; rewrite ?IH; try done.
Qed.

Lemma keyed_keys round : keys (keyed <$> round) = (λ _, tt) <$> values round.
Proof. unfold keys, values. induction round as [|[] round IH]; csimpl; by rewrite ?IH. Qed.

Lemma remove_dups_units (l : list A) :
  remove_dups ((λ _, tt) <$> l) = match l with [] => [] | _ => [tt] end.
Proof.
  induction l as [|x l IH]; [done|]. csimpl. rewrite IH. destruct l; cbn; [done|].
  by destruct (decide_rel _ _ _) as [|[]]; [|left].
Qed.

Lemma keyed_untimed round :
  Forall (λ e, untimed e = true) round →
  ts_of tt (keyed <$> round) = [] ∧ omap watermark_ts (keyed <$> round) = [] ∧
  Forall (λ e, is_data e = true) (keyed <$> round).
Proof.
  unfold ts_of. induction 1 as [|e round He _ (IH1 & IH2 & IH3)]; [by split_and!|].
  destruct e; try done; csimpl; rewrite ?IH1, ?IH2; by split_and!; repeat constructor.
Qed.

Lemma omap_keyed round : omap watermark_ts (keyed <$> round) = omap watermark_ts round.
Proof. induction round as [|[] round IH]; csimpl; by rewrite ?IH. Qed.

(** What the reduction hands to [IterationEnd] in a round. *)
Definition reduced round : list (StreamElement U) :=
  match values round with
  | [] => []
  | xs => [match max_list (ts_of tt (keyed <$> round)) with
           | Some ts => Timestamped (foldl local_fold d xs) ts
           | None => Item (foldl local_fold d xs)
           end]
  end.

Lemma reduction_round (body : Operator A) `{!OperatorLaws body} p round p' :
  Forall (λ e, is_data e = true) round →
  emits body p (round ++ [FlushAndRestart]) p' →
  emits (Map (KeyedFold (KeyBy body (λ _, tt)) d local_fold) snd)
    (tt, (KeyedFold_new unit U, (tt, p)))
    ((reduced round
      ++ from_option (λ ts, [Watermark ts]) [] (max_list (omap watermark_ts (keyed <$> round))))
     ++ [FlushAndRestart])
    (tt, (KeyedFold_new unit U, (tt, p'))).
Proof.
  intros Hd Hp.
  assert (emits (KeyBy body (λ _, tt)) (tt, p) ((keyed <$> round) ++ [FlushAndRestart]) (tt, p'))
    as Hk.
  { replace (keyed <$> round) with (omap (map_elem (λ t, (tt, t))) round).
    - by eapply (pointwise_emits body (map_elem (λ t, (tt, t))) _ _ _ FlushAndRestart).
    - clear. induction round; csimpl; by f_equal. }
  assert (Forall (λ e, is_data e = true) (keyed <$> round)) as Hd'
    by (apply Forall_fmap; eapply Forall_impl; [exact Hd|]; by intros []).
  destruct (KeyedFold_emits (KeyBy body (λ _, tt)) d local_fold _ _ _ Hd' Hk) as (outs & He & Hperm).
  rewrite keyed_keys, remove_dups_units in Hperm.
  assert (reduced round ++ from_option (λ ts, [Watermark ts]) [] (max_list (omap watermark_ts (keyed <$> round)))
    = omap (map_elem snd) (outs ++ from_option (λ ts, [Watermark ts]) []
        (max_list (omap watermark_ts (keyed <$> round))))) as ->.
  { rewrite omap_app. f_equal; [|by destruct (max_list _)]. unfold reduced.
    destruct (values round) as [|x xs] eqn:Ev; csimpl in Hperm.
    - by apply Permutation_nil_r in Hperm as ->.
    - unfold keyed_elem, keyed_acc, keyed_ts in Hperm. rewrite keyed_values_of, Ev in Hperm.
      csimpl in Hperm. symmetry in Hperm. apply Permutation_length_1_inv in Hperm as ->. csimpl. by destruct (max_list _). }
  eapply (pointwise_emits (KeyedFold (KeyBy body (λ _, tt)) d local_fold) (map_elem snd)
    (Map_next _ snd) _ _ FlushAndRestart); [done|]. by rewrite <-app_assoc.
Qed.

Lemma reduced_untimed round :
  Forall (λ e, untimed e = true) round →
  reduced round = match values round with [] => [] | xs => [Item (foldl local_fold d xs)] end ∧
  max_list (omap watermark_ts (keyed <$> round)) = None ∧
  Forall (λ e, is_data e = true) round.
Proof.
  intros Hu. destruct (keyed_untimed _ Hu) as (Ht & Hw & _). unfold reduced. rewrite Ht, Hw.
  split_and!; [by destruct (values round)|done|].
  eapply Forall_impl; [exact Hu|]. by intros [].
Qed.
End delta.

Lemma send_alive {A} ep (m : NetworkMessage A) net :
  ep ∉ disconnected net →
  ∃ net', send ep m net = Some net' ∧ sent_to net' ep = sent_to net ep ++ [m] ∧
    net_frame ep net net'.
Proof.
  intros Ha. unfold send. rewrite decide_False by done. eexists. split; [done|].
  unfold sent_to. cbn. rewrite lookup_insert_eq. split; [done|]. split; [done|].
  intros ep' Hne. unfold sent_to. cbn. by rewrite lookup_insert_ne.
Qed.

Lemma iteration_end_emits {U} (d : U) (prev : Operator U) `{!OperatorLaws prev} q inp out q' p p' :
  runs (iteration_ending d) q inp out q' → emits prev p inp p' →
  emits (IterationEnd d prev) (q, p) out (q', p').
Proof. eapply (refines_emits prev (iteration_ending d)), follows_refines; apply _. Qed.

Lemma iteration_end_panics {U} (d : U) (prev : Operator U) `{!OperatorLaws prev} q net p x l p' :
  untimed x = false → is_data x = true → emits prev p (x :: l) p' →
  Panics (IterationEnd d prev) ((q, net), p).
Proof.
  intros Hu Hd He. inversion He as [|? ? p1 ? ? H1 H2]; subst.
  eapply (refines_panics prev (iteration_ending d)) with (inp := []) (x := x);
    [apply follows_refines; apply _|constructor|done|by destruct x|by apply emits_one].
Qed.

Section iteration_end_theorems.
Context {A U : Type} `{!HashOrder} (d : U) (local_fold : U → A → U).

(** In every iteration each replica sends exactly one delta to the leader, the local fold
    of the items of the body in their order, and the default when there are none; it goes
    out before the end of the iteration is passed on, and the next iteration starts from
    the same state. *)
Theorem IterationEnd_one_delta (body : Operator A) `{!OperatorLaws body} self ep net p round p' :
  Forall (λ e, untimed e = true) round →
  emits body p (round ++ [FlushAndRestart]) p' →
  leader_sender self = Some ep → has_received_item self = false → ep ∉ disconnected net →
  ∃ outs net',
    emits (iteration_tail d local_fold body)
      ((self, net), (tt, (KeyedFold_new unit U, (tt, p))))
      (outs ++ [FlushAndRestart])
      ((self, net'), (tt, (KeyedFold_new unit U, (tt, p')))) ∧
    sent_to net' ep =
      sent_to net ep ++ [new_single (Item (foldl local_fold d (values round))) (ie_coord self)] ∧
    net_frame ep net net'.
Proof.
  intros Hu Hp Hep Hrec Ha. destruct (reduced_untimed d local_fold _ Hu) as (Er & Ew & Hd).
  pose proof (reduction_round d local_fold body p round p' Hd Hp) as He. rewrite Er, Ew in He.
  destruct (send_alive ep (new_single (Item (foldl local_fold d (values round))) (ie_coord self))
    net Ha) as (net' & Hs & Hsent & Hf).
  destruct self as [rec lb ls co]; cbn in *; subst ls rec.
  exists (match values round with [] => [] | _ => [Item tt] end), net'. split_and!; [|done..].
  eapply iteration_end_emits; [apply _| |exact He].
  destruct (values round) as [|x xs]; cbn.
  - eapply runs_return; [done| |constructor]. cbn. cbn in Hs. unfold send_leader. cbn. by rewrite Hs.
  - eapply runs_return; [done| |].
    + cbn in Hs |- *. unfold send_leader. cbn. by rewrite Hs.
    + eapply runs_return; [done|done|constructor].
Qed.

(** Event time does not go through an iteration: a round with a watermark makes the
    replica panic at the end of its first iteration. *)
Theorem IterationEnd_watermark_panics (body : Operator A) `{!OperatorLaws body} self ep net p round p' :
  Forall (λ e, is_data e = true) round → omap watermark_ts round ≠ [] →
  emits body p (round ++ [FlushAndRestart]) p' →
  leader_sender self = Some ep → ep ∉ disconnected net →
  ∃ outs q, emits (iteration_tail d local_fold body)
      ((self, net), (tt, (KeyedFold_new unit U, (tt, p)))) outs q ∧
    Panics (iteration_tail d local_fold body) q.
Proof.
  intros Hd Hw Hp Hep Ha. pose proof (reduction_round d local_fold body p round p' Hd Hp) as He.
  destruct (max_list _) as [w|] eqn:Em in He; [|by rewrite max_list_None, omap_keyed in Em].
  rewrite <-app_assoc in He. cbn in He. unfold reduced in He.
  destruct (values round) as [|x xs]; [|destruct (max_list (ts_of _ _)) as [ts|]]; cbn in He.
  - exists [], ((self, net), (tt, (KeyedFold_new unit U, (tt, p)))). split; [constructor|].
    by eapply iteration_end_panics; [apply _| | |exact He].
  - exists [], ((self, net), (tt, (KeyedFold_new unit U, (tt, p)))). split; [constructor|].
    by eapply iteration_end_panics; [apply _| | |exact He].
  - inversion He as [|? ? q1 ? ? H1 H2]; subst.
    destruct (send_alive ep (new_single (Item (foldl local_fold d (x :: xs))) (ie_coord self))
      net Ha) as (net' & Hs & _ & _).
    exists [Item tt], ((set_received self true, net'), q1). split.
    + eapply iteration_end_emits; [apply _| |by apply emits_one].
      eapply runs_return; [done| |constructor]. cbn. unfold send_leader. rewrite Hep. cbn in Hs |- *.
      by rewrite Hs.
    + by eapply iteration_end_panics; [apply _| | |exact H2].
Qed.
End iteration_end_theorems.

(** ** The leader *)

(** The deltas of one iteration as the [Start] of the leader emits them: between them there
    may be flushes of batches. *)
Inductive delta_trace {U} : list U → list (StreamElement U) → Prop :=
| dt_nil : delta_trace [] []
| dt_item u us tr : delta_trace us tr → delta_trace (u :: us) (Item u :: tr)
| dt_skip e u us tr :
    e = FlushBatch ∨ e = FlushAndRestart → delta_trace (u :: us) tr →
    delta_trace (u :: us) (e :: tr).

Section leader_spec.
Context {U St : Type} (global_fold : St → U → St) (loop_condition : St → bool * St).
Context (init : St) (max : nat).

(** The iteration as a program of its own: the states after each iteration, with the
    verdict that goes with them, and the result.  [deltas] lists the deltas of each
    iteration and ends with the last one. *)
Fixpoint iteration_spec (index : nat) (st : St) (deltas : list (list U))
    : option (list (StateFeedback St) * St) :=
  match deltas with
  | [] => None
  | us :: deltas =>
      let '(condition, st) := loop_condition (foldl global_fold st us) in
      if condition && (index + 1 <? max) then
        '(fs, result) ← iteration_spec (index + 1) st deltas;
        Some ((Continue, st) :: fs, result)
      else match deltas with
           | [] => Some ([(Finished, init)], st)
           | _ => None
           end
  end.
End leader_spec.

Local Arguments Nat.ltb : simpl never.
Section leader_proofs.
Context {U St : Type} (global_fold : St → U → St) (loop_condition : St → bool * St).
Context (rx : Operator U) `{!OperatorLaws rx}.
Implicit Types self : IterationLeader_state St.

Lemma process_updates_run us tr self st p p' :
  delta_trace us tr → emits rx p tr p' → il_state self = Some st →
  ∃ f, ∀ f', f ≤ f' → process_updates global_fold rx f' (length us) self p =
    Done (None, set_state self (Some (foldl global_fold st us)), p').
Proof.
  intros Ht. revert self st p. induction Ht as [|u us tr Ht IH|e u us tr He Ht IH];
    intros self st p Hp Hst; inversion Hp as [|? ? p1 ? ? [f1 H1] H2]; subst.
  - exists 0. intros [|f'] _; cbn; destruct self; cbn in *; by subst.
  - destruct (IH (set_state self (Some (global_fold st u))) (global_fold st u) p1 H2 eq_refl) as [f2 Hf2].
    exists (S (f1 `max` f2)). intros [|f'] Hle; [lia|]. cbn.
    rewrite (Step_fuel rx _ _ _ _ H1) by lia. cbn. rewrite Hst. cbn. by rewrite Hf2 by lia.
  - destruct (IH self st p1 H2 Hst) as [f2 Hf2]. exists (S (f1 `max` f2)).
    intros [|f'] Hle; [lia|]. cbn [process_updates length]. rewrite (Step_fuel rx _ _ _ _ H1) by lia.
    cbn in Hf2 |- *. destruct He as [-> | ->]; by rewrite Hf2 by lia.
Qed.

(** The channels to [eps] each got [ms], the others nothing. *)
Definition broadcasted {T} (eps : list ReceiverEndpoint) (ms : list (NetworkMessage T))
    (net net' : Network T) : Prop :=
  disconnected net' = disconnected net ∧
  ∀ ep, sent_to net' ep = sent_to net ep ++ (if decide (ep ∈ eps) then ms else []).

Lemma broadcasted_app {T} eps (m1 m2 : list (NetworkMessage T)) n1 n2 n3 :
  broadcasted eps m1 n1 n2 → broadcasted eps m2 n2 n3 → broadcasted eps (m1 ++ m2) n1 n3.
Proof.
  intros [D1 H1] [D2 H2]. split; [congruence|]. intros ep. rewrite H2, H1.
  case_decide; by rewrite <-app_assoc.
Qed.

Lemma send_feedback_run m eps (net : Network (StateFeedback St)) :
  NoDup eps → Forall (λ ep, ep ∉ disconnected net) eps →
  ∃ net', send_feedback m eps net = Done net' ∧ broadcasted eps [m] net net'.
Proof.
  revert net. induction eps as [|ep eps IH]; intros net Hnd Ha.
  { exists net. split; [done|]. split; [done|]. intros ep. rewrite decide_False by set_solver.
    by rewrite app_nil_r. }
  apply NoDup_cons in Hnd as [Hni Hnd]. apply Forall_cons in Ha as [Ha Has].
  destruct (send_alive ep m net Ha) as (net1 & Hs & Hsent & [Hd Hf]).
  destruct (IH net1 Hnd) as (net' & Hr & [Hd' Hf']); [by rewrite Hd|].
  exists net'. cbn. rewrite Hs. split; [done|]. split; [congruence|]. intros ep'. rewrite Hf'.
  destruct (decide (ep' = ep)) as [->|Hne].
  - rewrite decide_False by done. rewrite decide_True by set_solver. by rewrite app_nil_r.
  - rewrite (Hf ep' Hne). f_equal.
    destruct (decide (ep' ∈ eps)); [rewrite decide_True by set_solver|rewrite decide_False by set_solver];
      done.
Qed.

(** The leader at the start of an iteration. *)
Definition leader_at self (index : nat) (st : St) : IterationLeader_state St :=
  mkLeader (il_coord self) index (max_iterations self) (Some st) (initial_state self)
    (num_receivers self) (feedback_senders self) false.

Lemma leader_loop_run deltas traces self index st net p p' fs result :
  iteration_spec global_fold loop_condition (initial_state self) (max_iterations self)
    index st deltas = Some (fs, result) →
  Forall2 delta_trace deltas traces → Forall (λ us, length us = num_receivers self) deltas →
  emits rx p (concat traces) p' →
  NoDup (feedback_senders self) → Forall (λ ep, ep ∉ disconnected net) (feedback_senders self) →
  ∃ f net', (∀ f', f ≤ f' → leader_loop global_fold loop_condition rx f' (leader_at self index st) net p =
      Done (Item result, ((set_index (leader_at self 0 (initial_state self)) 0 true, net'), p'))) ∧
    broadcasted (feedback_senders self) ((λ u, new_single (Item u) (il_coord self)) <$> fs) net net'.
Proof.
  intros Hspec Ht. revert index st net p fs Hspec.
  induction Ht as [|us tr deltas traces Htr Ht IH]; intros index st net p fs Hspec Hlen Hp Hnd Ha;
    [done|].
  apply Forall_cons in Hlen as [Hl Hlen]. cbn in Hp. apply emits_app_inv in Hp as (p1 & Hp1 & Hp2).
  destruct (process_updates_run us tr (leader_at self index st) st p p1 Htr Hp1 eq_refl) as [f1 Hf1].
  rewrite Hl in Hf1. cbn in Hspec.
  destruct (loop_condition (foldl global_fold st us)) as [c st'] eqn:Ec.
  destruct (c && (index + 1 <? max_iterations self)) eqn:Eb.
  - apply bind_Some in Hspec as ([fs' res] & Hspec & [= <- <-]).
    destruct (send_feedback_run (new_single (Item (Continue, st')) (il_coord self)) _ net Hnd Ha)
      as (net1 & Hs & Hb1).
    destruct (IH _ _ net1 p1 _ Hspec Hlen Hp2 Hnd) as (f2 & net' & Hf2 & Hb2).
    { destruct Hb1 as [-> _]. done. }
    exists (S (f1 `max` f2)), net'. split; [|by eapply (broadcasted_app _ [_])].
    intros [|f'] Hle; [lia|]. cbn. rewrite Hf1 by lia. cbn. unfold final_result. cbn.
    rewrite Ec, Eb. cbn. rewrite Hs. cbn. apply Hf2. lia.
  - destruct deltas as [|]; [|done]. injection Hspec as <- <-. inversion Ht; subst.
    inversion Hp2; subst.
    destruct (send_feedback_run (new_single (Item (Finished, initial_state self)) (il_coord self))
      _ net Hnd Ha) as (net1 & Hs & Hb1).
    exists (S f1), net1. split; [|done].
    intros [|f'] Hle; [lia|]. cbn. rewrite Hf1 by lia. cbn. unfold final_result. cbn.
    rewrite Ec, Eb. cbn. by rewrite Hs.
Qed.

(** C22. The leader runs the iteration: it folds the deltas of each iteration into the state
    in the order of arrival, asks the loop condition (which may itself change the state)
    and stops when it is false or after the maximum number of iterations; every iteration
    block gets the new state after each iteration and, at the end, the initial state with
    the order to stop; the result comes out once, followed by [FlushAndRestart], and the
    leader is as it was before, ready for the next run of a nested iteration. *)
Theorem IterationLeader_run self net p deltas traces p' fs result :
  iteration_spec global_fold loop_condition (initial_state self) (max_iterations self)
    0 (initial_state self) deltas = Some (fs, result) →
  self = leader_at self 0 (initial_state self) →
  Forall2 delta_trace deltas traces → Forall (λ us, length us = num_receivers self) deltas →
  emits rx p (concat traces) p' →
  NoDup (feedback_senders self) → Forall (λ ep, ep ∉ disconnected net) (feedback_senders self) →
  ∃ net', emits (IterationLeader global_fold loop_condition rx) ((self, net), p)
      [Item result; FlushAndRestart] ((self, net'), p') ∧
    broadcasted (feedback_senders self) ((λ u, new_single (Item u) (il_coord self)) <$> fs) net net'.
Proof.
  intros Hspec Es Ht Hlen Hp Hnd Ha.
  destruct (leader_loop_run _ _ self _ _ net p p' _ _ Hspec Ht Hlen Hp Hnd Ha)
    as (f & net' & Hf & Hb).
  exists net'. split; [|done]. destruct self as [co idx mx st0 ini nr fb fl].
  unfold leader_at in *. cbn in *. injection Es as -> -> ->.
  econstructor; [exists f; apply (Hf f); lia|]. econstructor; [by exists 0|constructor].
Qed.
End leader_proofs.

(** ** [Replay] *)
Lemma wait_update_mono {St} f f' (handler : IterationStateHandler St) :
  f ≤ f' → fuel_le (wait_update f handler) (wait_update f' handler).
Proof.
  revert f' handler; induction f as [|f IH]; intros [|f'] handler Hle; cbn; try lia;
    eauto with renoir.
  apply fuel_le_bind; [apply fuel_le_refl|]. intros ch. destruct (chan_recv ch) as [res ch'].
  fuel_mono; apply IH; lia.
Qed.

Global Instance Replay_laws {A St} (others : HostState St → option (HostState St))
    (prev : Operator A) `{!OperatorLaws prev} : OperatorLaws (Replay others prev).
Proof.
  constructor. cbn. intros f f' s Hle. revert f' s Hle.
  induction f as [|f IH]; intros [|f'] [[[self handler] h] p] Hle; cbn; try lia; eauto with renoir.
  destruct (input_finished self).
  - destruct (content_index self <? length (content self)); [apply fuel_le_refl|].
    apply fuel_le_bind; [apply wait_update_mono; lia|]. intros [u handler'].
    apply fuel_le_bind; [apply fuel_le_refl|]. intros [res h']. apply IH. lia.
  - apply fuel_le_bind; [apply op_next_mono; lia|]. intros [e p1].
    destruct (replay_input self e h). apply fuel_le_refl.
Qed.

(** The updates in the channel from the leader, with what else may be there. *)
Inductive updates_in {St} : list (StateFeedback St) → channel (StateFeedback St) → Prop :=
| ui_nil ch : updates_in [] ch
| ui_update u us c ch : updates_in us ch → updates_in (u :: us) (Arrive (new_single (Item u) c) :: ch)
| ui_flush u us c ch :
    updates_in (u :: us) ch → updates_in (u :: us) (Arrive (new_single FlushBatch c) :: ch)
| ui_elapse u us ch : updates_in (u :: us) ch → updates_in (u :: us) (Elapse :: ch).

Lemma wait_update_run {St} u us ch (handler : IterationStateHandler St) :
  updates_in (u :: us) ch → new_state_receiver handler = Some ch →
  ∃ f ch', wait_update f handler = Done (u, set_channel handler ch') ∧ updates_in us ch'.
Proof.
  remember (u :: us) as l eqn:El. intros H. revert handler u us El.
  induction H as [|u us c ch H IH|u us c ch H IH|u us ch H IH]; intros handler u' us' El Hch;
    [done| | |].
  - injection El as -> ->. exists 1, ch. cbn. by rewrite Hch.
  - injection El as -> ->. destruct (IH (set_channel handler ch) _ _ eq_refl eq_refl) as (f & ch' & Hf & Hu).
    exists (S f), ch'. cbn. rewrite Hch. cbn. by rewrite Hf.
  - injection El as -> ->. destruct (IH (set_channel handler ch) _ _ eq_refl eq_refl) as (f & ch' & Hf & Hu).
    exists f, ch'. destruct f as [|f]; [done|]. cbn in *. rewrite Hch. by split.
Qed.

(** What a replica relies on while it waits at the barrier: the others do arrive, and
    only the local leader writes the state and unlocks. *)
Definition others_ok {St} (leader : bool) (others : HostState St → option (HostState St)) : Prop :=
  ∀ h, ∃ h', others h = Some h' ∧
    (leader = true → state_ref h' = state_ref h ∧ state_lock h' = state_lock h).

Definition odd_lock {St} (h : HostState St) : Prop := generation (state_lock h) mod 2 = 1.

Lemma handler_lock_odd {St} (h : HostState St) : odd_lock (handler_lock h).
Proof.
  unfold odd_lock, handler_lock, IterationStateLock_lock. cbn -[Nat.modulo].
  destruct (Nat.eqb_spec (generation (state_lock h) mod 2) 0) as [E|E]; cbn -[Nat.modulo].
  - rewrite Nat.Div0.add_mod, E. done.
  - pose proof (Nat.mod_upper_bound (generation (state_lock h)) 2 ltac:(done)). lia.
Qed.

Lemma wait_sync_run {St} others (handler : IterationStateHandler St) res st h :
  others_ok (is_local_leader handler) others → odd_lock h →
  ∃ h', wait_sync_state others handler (res, st) h = Done (res, h') ∧
    (is_local_leader handler = true → state_ref h' = st ∧
      generation (state_lock h') = generation (state_lock h) + 1).
Proof.
  intros Ho Hodd. unfold wait_sync_state.
  destruct (sync_enter (num_local_replicas handler) (sync_set (is_local_leader handler) st h))
    as [h1 released] eqn:E.
  assert (is_local_leader handler = true → state_ref h1 = st ∧ state_lock h1 = state_lock h) as H1.
  { intros Hl. unfold sync_enter, sync_set in E. rewrite Hl in E.
    destruct (barrier_enter _). by injection E as <- <-. }
  assert (∃ h2, (if released then Done h1 else match others h1 with Some h => Done h | None => Blocked end)
    = Done h2 ∧ (is_local_leader handler = true → state_ref h2 = st ∧ state_lock h2 = state_lock h))
    as (h2 & E2 & H2).
  { destruct released; [by exists h1|]. destruct (Ho h1) as (h2 & -> & Hk). exists h2. split; [done|].
    intros Hl. destruct (H1 Hl), (Hk Hl). split; congruence. }
  rewrite E2. cbn. unfold sync_unlock. destruct (is_local_leader handler); [|by exists h2].
  destruct (H2 eq_refl) as [Hs Hl]. unfold IterationStateLock_unlock, odd_lock in *.
  rewrite Hl, Hodd. cbn. eexists. split; [done|]. intros _. cbn. done.
Qed.

Section replay_proofs.
Context {A St : Type} (others : HostState St → option (HostState St)).
Context (prev : Operator A) `{!OperatorLaws prev}.
Implicit Types handler : IterationStateHandler St.
Implicit Types h : HostState St.

(** What is replayed of the data of a round. *)
Definition replayed (l : list (StreamElement A)) : list (StreamElement A) :=
  List.filter (λ e, match e with FlushBatch => false | _ => true end) l.

Lemma replay_reads l c handler h p p' :
  Forall (λ e, is_data e = true) l → emits prev p l p' →
  emits (Replay others prev) ((mkReplay c 0 false, handler, h), p) l
    ((mkReplay (c ++ replayed l) 0 false, handler, h), p').
Proof.
  intros Hl. revert c p. induction Hl as [|e l He _ IH]; intros c p Hp;
    inversion Hp as [|? ? p1 ? ? [f Hf] H2]; subst.
  { rewrite app_nil_r. constructor. }
  specialize (IH (c ++ replayed [e]) p1 H2).
  apply (emits_cons (Replay others prev) _ _ ((mkReplay (c ++ replayed [e]) 0 false, handler, h), p1)).
  - exists (S f). cbn. rewrite Hf. cbn. destruct e; cbn; rewrite ?app_nil_r; done.
  - destruct e; try done; cbn in *; rewrite <-?app_assoc, ?app_nil_r in *; exact IH.
Qed.

(** One pass over the stored content, from position [i]. *)
Lemma replay_pass c handler h p :
  Forall (λ e, is_data e = true) c →
  ∀ n i, n = length c - i → i ≤ length c →
  emits (Replay others prev) ((mkReplay (c ++ [FlushAndRestart]) i true, handler, h), p)
    (drop i c ++ [FlushAndRestart])
    ((mkReplay (c ++ [FlushAndRestart]) (length c + 1) true, handler, handler_lock h), p).
Proof.
  intros Hc. induction n as [|n IH]; intros i En Hi.
  - assert (i = length c) as -> by lia. rewrite drop_all. econstructor; [|constructor].
    exists 1. cbn -[lookup Nat.ltb]. rewrite length_app. cbn -[Nat.ltb lookup].
    destruct (Nat.ltb_spec (length c) (length c + 1)); [|lia].
    by rewrite lookup_app_r, Nat.sub_diag by lia.
  - destruct (lookup_lt_is_Some_2 c i) as [e He]; [lia|].
    rewrite (drop_S _ _ _ He). cbn. econstructor; [|apply (IH (S i)); lia].
    exists 1. cbn -[lookup Nat.ltb]. rewrite length_app. cbn -[Nat.ltb lookup].
    destruct (Nat.ltb_spec i (length c + 1)); [|lia].
    rewrite lookup_app_l, He by lia. cbn.
    pose proof (Forall_lookup_1 _ _ _ _ Hc He) as Hd. rewrite Nat.add_1_r. by destruct e.
Qed.

(** At the end of the content, [next] goes on as it would after the update. *)
Lemma replay_wrap c handler ch res st us h p :
  others_ok (is_local_leader handler) others → odd_lock h →
  new_state_receiver handler = Some ch → updates_in ((res, st) :: us) ch →
  ∃ ch' h', updates_in us ch' ∧
    (is_local_leader handler = true → state_ref h' = st ∧
      generation (state_lock h') = generation (state_lock h) + 1) ∧
    ∀ e l q, emits (Replay others prev)
       ((match res with Finished => Replay_new | Continue => mkReplay c 0 true end,
         set_channel handler ch', h'), p) (e :: l) q →
     emits (Replay others prev) ((mkReplay c (length c) true, handler, h), p) (e :: l) q.
Proof.
  intros Ho Hodd Hch Hu.
  destruct (wait_update_run _ _ _ _ Hu Hch) as (f1 & ch' & Hf1 & Hu').
  destruct (wait_sync_run others (set_channel handler ch') res st h Ho Hodd) as (h' & Hs & Hl).
  exists ch', h'. split_and!; [done|exact Hl|]. intros e l q He.
  inversion He as [|? ? q1 ? ? [f2 Hf2] Hq]; subst. econstructor; [|exact Hq]. exists (S (f1 `max` f2)). cbn -[Nat.ltb]. rewrite Nat.ltb_irrefl.
  assert (wait_update (f1 `max` f2) handler = Done ((res, st), set_channel handler ch')) as ->.
  { apply fuel_le_done. rewrite <-Hf1. apply wait_update_mono. lia. }
  cbn [mbind outcome_bind]. rewrite Hs. cbn [mbind outcome_bind].
  destruct res; apply (Step_fuel (Replay others prev) _ _ _ _ Hf2); lia.
Qed.

Lemma replay_passes c sts handler ch us h p :
  Forall (λ e, is_data e = true) c →
  others_ok (is_local_leader handler) others → odd_lock h →
  new_state_receiver handler = Some ch → updates_in (((λ st, (Continue, st)) <$> sts) ++ us) ch →
  let content := c ++ [FlushAndRestart] in
  ∃ ch' h', updates_in us ch' ∧ odd_lock h' ∧
    emits (Replay others prev) ((mkReplay content (length content) true, handler, h), p)
      (concat (replicate (length sts) content))
      ((mkReplay content (length content) true, set_channel handler ch', h'), p).
Proof.
  intros Hc Ho Hodd Hch Hu content. revert handler ch h Ho Hodd Hch Hu.
  induction sts as [|st sts IH]; intros handler ch h Ho Hodd Hch Hu; csimpl in *.
  { exists ch, h. split_and!; [done..|]. assert (set_channel handler ch = handler) as ->
      by (destruct handler; cbn in *; by subst). constructor. }
  destruct (replay_wrap content handler ch Continue st _ h p Ho Hodd Hch Hu)
    as (ch1 & h1 & Hu1 & _ & Hw).
  pose proof (replay_pass c (set_channel handler ch1) h1 p Hc _ 0 eq_refl ltac:(lia)) as Hp.
  destruct (IH (set_channel handler ch1) ch1 (handler_lock h1) Ho (handler_lock_odd h1) eq_refl Hu1)
    as (ch' & h' & Hu' & Hodd' & He).
  exists ch', h'. split_and!; [done..|]. eapply emits_app; [|exact He].
  assert (length content = length c + 1) as El by (unfold content; by rewrite length_app).
  rewrite drop_0, <-El in Hp. fold content in Hp. revert Hp Hw. generalize (mkReplay content 0 true).
  intros s0 Hp Hw. destruct content as [|e content'] eqn:Ec; [by destruct c|]. by apply Hw.
Qed.

(** C23. A run of an iteration: [Replay] passes its input on, then replays it (without the
    flushes of batches) once for every update of the leader that says to go on; after the
    one that says to stop it reads its input again, with an empty store, and the local
    leader has left the last state in place and the lock open. *)
Theorem Replay_run handler ch sts final us h p l p1 x p2 :
  Forall (λ e, is_data e = true) l → emits prev p (l ++ [FlushAndRestart]) p1 →
  Step prev p1 x p2 →
  others_ok (is_local_leader handler) others → new_state_receiver handler = Some ch →
  updates_in (((λ st, (Continue, st)) <$> sts) ++ (Finished, final) :: us) ch →
  ∃ ch' h', updates_in us ch' ∧
    (is_local_leader handler = true →
       state_ref h' = final ∧ generation (state_lock h') mod 2 = 0) ∧
    emits (Replay others prev) ((Replay_new, handler, h), p)
      ((l ++ [FlushAndRestart]) ++
       concat (replicate (length sts) (replayed l ++ [FlushAndRestart])) ++ [x])
      (((replay_input Replay_new x h').1, set_channel handler ch', (replay_input Replay_new x h').2), p2).
Proof.
  intros Hl Hp [fx Hx] Ho Hch Hu. apply emits_app_inv in Hp as (p0 & Hp0 & [f1 Hf1]%emits_one).
  pose proof (replay_reads l [] handler h p p0 Hl Hp0) as H1. cbn in H1.
  set (content := replayed l ++ [FlushAndRestart]).
  assert (Step (Replay others prev) ((mkReplay (replayed l) 0 false, handler, h), p0) FlushAndRestart
    ((mkReplay content (length content) true, handler, handler_lock h), p1)) as H2
    by (exists (S f1); cbn; by rewrite Hf1).
  assert (Forall (λ e, is_data e = true) (replayed l)) as Hr.
  { apply Forall_forall. intros e He%list_elem_of_In. apply filter_In in He as [He _].
    rewrite Forall_forall in Hl. by apply Hl, list_elem_of_In. }
  destruct (replay_passes (replayed l) sts handler ch _ (handler_lock h) p1 Hr Ho
    (handler_lock_odd h) Hch Hu) as (ch1 & h1 & Hu1 & Hodd1 & H3).
  destruct (replay_wrap content (set_channel handler ch1) ch1 Finished final us h1 p1 Ho Hodd1
    eq_refl Hu1) as (ch' & h' & Hu' & Hld & Hw).
  exists ch', h'. split_and!; [done| |].
  { intros Hlead. destruct (Hld Hlead) as [-> ->]. split; [done|]. unfold odd_lock in Hodd1.
    by rewrite Nat.Div0.add_mod, Hodd1. }
  eapply emits_app; [eapply emits_app; [exact H1|by apply emits_one]|].
  eapply emits_app; [exact H3|]. apply Hw. apply emits_one. exists (S fx). cbn. rewrite Hx. cbn.
  by destruct (replay_input Replay_new x h').
Qed.
End replay_proofs.

(** ** Examples *)
Module IterationExample.
Definition a : Coord := mkCoord 1 0 0.
Definition leader : ReceiverEndpoint := mkReceiverEndpoint (mkCoord 9 0 0) 1.
Definition replay1 : ReceiverEndpoint := mkReceiverEndpoint (mkCoord 2 0 0) 9.
Definition replay2 : ReceiverEndpoint := mkReceiverEndpoint (mkCoord 2 0 1) 9.
Definition no_net {T} : Network T := mkNetwork ∅ ∅.
Definition tail_state : IterationEnd_state := mkIterationEnd false 9 (Some leader) a.
(** At most three iterations over a sum, two replicas. *)
Definition leader0 : IterationLeader_state nat :=
  mkLeader (mkCoord 9 0 0) 0 3 (Some 100) 100 2 [replay1; replay2] false.
Definition below (st : nat) : bool * nat := (st <? 150, S st).
Definition deltas : list (list nat) := [[1; 2]; [30; 40]].
Definition traces : list (list (StreamElement nat)) :=
  [[Item 1; FlushBatch; Item 2]; [FlushBatch; Item 30; Item 40]].
Definition handler : IterationStateHandler nat :=
  mkHandler (mkCoord 2 0 0)
    (Some [Arrive (new_single (Item (Continue, 7)) (mkCoord 9 0 0)); Elapse;
           Arrive (new_single (Item (Finished, 0)) (mkCoord 9 0 0))]) 9 true 2.
(** The other replica arrives at the barrier and opens it. *)
Definition others (h : HostState nat) : option (HostState nat) :=
  Some (mkHost (state_ref h) (state_barrier (sync_enter 2 h).1) (state_lock h)).
Definition host : HostState nat := mkHost 0 None lock_default.
End IterationExample.

Lemma IterationEnd_one_delta_witness :
  let round := [Item 5; FlushBatch; Item 6] in
  ∃ outs net',
    emits (@iteration_tail nat nat key_order 0 Nat.add (FakeOperator nat))
      ((IterationExample.tail_state, IterationExample.no_net),
       (tt, (KeyedFold_new unit nat, (tt, round ++ [FlushAndRestart]))))
      (outs ++ [FlushAndRestart])
      ((IterationExample.tail_state, net'), (tt, (KeyedFold_new unit nat, (tt, [])))) ∧
    sent_to net' IterationExample.leader = [new_single (Item 11) IterationExample.a] ∧
    net_frame IterationExample.leader IterationExample.no_net net'.
Proof.
  intros round.
  refine (@IterationEnd_one_delta nat nat key_order 0 Nat.add (FakeOperator nat) _
    IterationExample.tail_state IterationExample.leader IterationExample.no_net _ round _ _ _ _ _ _).
  - repeat constructor.
  - apply FakeOperator_emits_all.
  - reflexivity.
  - reflexivity.
  - cbn. set_solver.
Defined.

Lemma IterationEnd_watermark_panics_witness :
  let round := [Item 5; Watermark 3%Z] in
  ∃ outs q,
    emits (@iteration_tail nat nat key_order 0 Nat.add (FakeOperator nat))
      ((IterationExample.tail_state, IterationExample.no_net),
       (tt, (KeyedFold_new unit nat, (tt, round ++ [FlushAndRestart])))) outs q ∧
    Panics (@iteration_tail nat nat key_order 0 Nat.add (FakeOperator nat)) q.
Proof.
  intros round.
  refine (@IterationEnd_watermark_panics nat nat key_order 0 Nat.add (FakeOperator nat) _
    IterationExample.tail_state IterationExample.leader IterationExample.no_net _ round _ _ _ _ _ _).
  - repeat constructor.
  - done.
  - apply FakeOperator_emits_all.
  - reflexivity.
  - cbn. set_solver.
Defined.

Lemma IterationLeader_run_witness :
  ∃ net', emits (IterationLeader Nat.add IterationExample.below (FakeOperator nat))
      ((IterationExample.leader0, IterationExample.no_net), concat IterationExample.traces)
      [Item 175; FlushAndRestart] ((IterationExample.leader0, net'), []) ∧
    broadcasted [IterationExample.replay1; IterationExample.replay2]
      [new_single (Item (Continue, 104)) (mkCoord 9 0 0);
       new_single (Item (Finished, 100)) (mkCoord 9 0 0)] IterationExample.no_net net'.
Proof.
  refine (IterationLeader_run Nat.add IterationExample.below (FakeOperator nat)
    IterationExample.leader0 IterationExample.no_net _ IterationExample.deltas
    IterationExample.traces _ [(Continue, 104); (Finished, 100)] 175 _ _ _ _ _ _ _).
  - vm_compute. reflexivity.
  - reflexivity.
  - repeat constructor; auto.
  - repeat constructor.
  - apply FakeOperator_emits_all.
  - cbn. repeat constructor; set_solver.
  - cbn. repeat constructor; set_solver.
Defined.

Lemma Replay_run_witness :
  ∃ ch' h', updates_in [] ch' ∧ (true = true → state_ref h' = 0 ∧ generation (state_lock h') mod 2 = 0) ∧
    emits (Replay IterationExample.others (FakeOperator nat))
      ((Replay_new, IterationExample.handler, IterationExample.host),
       [Item 1; FlushBatch; Item 2; FlushAndRestart])
      [Item 1; FlushBatch; Item 2; FlushAndRestart; Item 1; Item 2; FlushAndRestart; Terminate]
      ((Replay_new, set_channel IterationExample.handler ch', h'), []).
Proof.
  refine (Replay_run IterationExample.others (FakeOperator nat) IterationExample.handler _ [7] 0 []
    IterationExample.host _ [Item 1; FlushBatch; Item 2] [] Terminate [] _ _ _ _ _ _).
  - repeat constructor.
  - apply FakeOperator_emits_all.
  - exists 1. reflexivity.
  - intros h. eexists. by split.
  - reflexivity.
  - repeat constructor.
Defined.
