(* ===== verification/Iterate.v ===== *)
(** * Iterations that feed their output back

    [Iterate] ([src/src/operator/iteration/iterate.rs]): the first iteration of the body
    reads the input, every other one what came out of the one before.  The operator
    receives from three channels, the input, the feedback of the body and the state updates of the
    leader, and must not lose or mix anything although they progress independently.

    - The input is the list of messages that arrive; once it is over its senders are gone.
    - The feedback is a list of messages for each iteration: the body cannot send back
      what it was not given, so that the messages of an iteration arrive after the content
      of that iteration is handed out.
    - [env] answers, each time the operator looks at its channels, which of two ready
      channels [select] picks and how many messages a poll finds. *)
From S2P Require Import Prelude StreamElement Operator Frontier Batcher Start IterationLock Iteration.

Record Iterate_state (A : Type) := mkIterate {
  it_coord : Coord;
  input_receiver : option (list (NetworkMessage A));
  feedback_receiver : option (list (list (NetworkMessage A)));
  output_sender : option ReceiverEndpoint;
  it_content : list (StreamElement A);
  input_stash : list (StreamElement A);
  feedback_content : list (StreamElement A);
  it_input_finished : bool;
  (** how often the channels were looked at *)
  it_looks : nat
}.
Global Arguments mkIterate {_} _ _ _ _ _ _ _ _ _.
Global Arguments it_coord {_} _.
Global Arguments input_receiver {_} _.
Global Arguments feedback_receiver {_} _.
Global Arguments output_sender {_} _.
Global Arguments it_content {_} _.
Global Arguments input_stash {_} _.
Global Arguments feedback_content {_} _.
Global Arguments it_input_finished {_} _.
Global Arguments it_looks {_} _.

Section iterate.
Context {A St : Type} (env : nat → nat) (others : HostState St → option (HostState St)).
Implicit Types self : Iterate_state A.
Implicit Types handler : IterationStateHandler St.
Implicit Types h : HostState St.
Implicit Types net : Network A.

(** [Iterate::new]. *)
Definition Iterate_new : Iterate_state A := mkIterate (mkCoord 0 0 0) None None None [] [] [] false 0.

(** [Iterate::setup]; the identifiers of the other blocks are those the builder has
    stored by then. *)
Definition Iterate_setup (metadata : ExecutionMetadata) (input_block_id feedback_end_block_id output_block_id : BlockId)
    (get_input : ReceiverEndpoint → outcome (list (NetworkMessage A)))
    (get_feedback : ReceiverEndpoint → outcome (list (list (NetworkMessage A))))
    (get_sender : ReceiverEndpoint → outcome ReceiverEndpoint)
    (get_state : ReceiverEndpoint → outcome (channel (StateFeedback St))) self handler
    : outcome (Iterate_state A * IterationStateHandler St) :=
  let coord := em_coord metadata in
  input ← get_input (mkReceiverEndpoint coord input_block_id);
  feedback ← get_feedback (mkReceiverEndpoint coord feedback_end_block_id);
  output ← get_sender (mkReceiverEndpoint (mkCoord output_block_id (host_id coord) (replica_id coord))
                         (block_id coord));
  handler ← IterationStateHandler_setup metadata get_state handler;
  Done (mkIterate coord (Some input) (Some feedback) (Some output) (it_content self) (input_stash self)
          (feedback_content self) (it_input_finished self) (it_looks self), handler).

(** *** Updates of single fields *)
Definition set_input self (input : option (list (NetworkMessage A))) : Iterate_state A :=
  mkIterate (it_coord self) input (feedback_receiver self) (output_sender self) (it_content self)
    (input_stash self) (feedback_content self) (it_input_finished self) (it_looks self).
Definition set_stash self (stash : list (StreamElement A)) : Iterate_state A :=
  mkIterate (it_coord self) (input_receiver self) (feedback_receiver self) (output_sender self) (it_content self)
    stash (feedback_content self) (it_input_finished self) (it_looks self).
Definition set_content self (content : list (StreamElement A)) : Iterate_state A :=
  mkIterate (it_coord self) (input_receiver self) (feedback_receiver self) (output_sender self) content
    (input_stash self) (feedback_content self) (it_input_finished self) (it_looks self).
Definition set_finished self (b : bool) : Iterate_state A :=
  mkIterate (it_coord self) (input_receiver self) (feedback_receiver self) (output_sender self) (it_content self)
    (input_stash self) (feedback_content self) b (it_looks self).
Definition look self : nat * Iterate_state A :=
  (env (it_looks self),
   mkIterate (it_coord self) (input_receiver self) (feedback_receiver self) (output_sender self) (it_content self)
     (input_stash self) (feedback_content self) (it_input_finished self) (S (it_looks self))).
Definition take_feedback self (ms : list (NetworkMessage A)) (rest : list (list (NetworkMessage A))) : Iterate_state A :=
  mkIterate (it_coord self) (input_receiver self) (Some rest) (output_sender self) (it_content self)
    (input_stash self) (feedback_content self ++ concat (data <$> ms)) (it_input_finished self) (it_looks self).

(** [Iterate::next_input]. *)
Definition next_input self h net : outcome (option (StreamElement A) * Iterate_state A * HostState St * Network A) :=
  match input_stash self with
  | [] => Done (None, self, h, net)
  | item :: stash =>
      let self := set_stash self stash in
      match item with
      | FlushAndRestart => Done (Some FlushAndRestart, set_finished self true, handler_lock h, net)
      | Item _ | Timestamped _ _ | Watermark _ | FlushBatch => Done (Some item, self, h, net)
      | Terminate =>
          sender ← unwrap (output_sender self);
          net ← unwrap (send sender (new_single Terminate (it_coord self)) net);
          Done (Some item, self, h, net)
      end
  end.

(** [Iterate::next_stored]. *)
Definition next_stored self h : option (StreamElement A) * Iterate_state A * HostState St :=
  match it_content self with
  | [] => (None, self, h)
  | item :: content =>
      (Some item, set_content self content, match item with FlushAndRestart => handler_lock h | _ => h end)
  end.

(** [Iterate::feedback_finished]. *)
Definition feedback_finished self : bool :=
  match last (feedback_content self) with Some FlushAndRestart => true | _ => false end.

(** [rx_feedback.recv()]: nothing of a later iteration arrives in this one. *)
Definition recv_feedback self : outcome (Iterate_state A) :=
  feedback ← unwrap (feedback_receiver self);
  match feedback with
  | (m :: ms) :: rest => Done (take_feedback self [m] (ms :: rest))
  | _ => Blocked
  end.
Definition feedback_ready self : bool :=
  match feedback_receiver self with Some ((_ :: _) :: _) => true | _ => false end.

(** [Iterate::input_or_feedback]. *)
Definition input_or_feedback self : outcome (Iterate_state A) :=
  _ ← unwrap (feedback_receiver self);
  match input_receiver self with
  | Some input =>
      let '(pick, self) := look self in
      if Nat.even pick || negb (feedback_ready self) then
        match input with
        | m :: input => Done (set_stash (set_input self (Some input)) (input_stash self ++ data m))
        | [] => recv_feedback (set_input self None)
        end
      else recv_feedback self
  | None => recv_feedback self
  end.

(** The two loops around it in [Iterate::next]. *)
Fixpoint fill_stash (fuel : nat) self : outcome (Iterate_state A) :=
  match fuel with
  | 0 => OutOfFuel
  | S fuel =>
      match input_stash self with
      | [] => self ← input_or_feedback self; fill_stash fuel self
      | _ => Done self
      end
  end.
Fixpoint fill_feedback (fuel : nat) self : outcome (Iterate_state A) :=
  match fuel with
  | 0 => OutOfFuel
  | S fuel => if feedback_finished self then Done self else self ← input_or_feedback self; fill_feedback fuel self
  end.

(** [Iterate::wait_update]: input that arrives early is stashed. *)
Fixpoint iterate_wait_update (fuel : nat) self handler
    : outcome (StateFeedback St * Iterate_state A * IterationStateHandler St) :=
  match fuel with
  | 0 => OutOfFuel
  | S fuel =>
      rx_state ← unwrap (new_state_receiver handler);
      let '(pick, self') := look self in
      match (if Nat.even pick then None else input_receiver self) with
      | Some (m :: input) =>
          iterate_wait_update fuel (set_stash (set_input self' (Some input)) (input_stash self ++ data m)) handler
      | Some [] => iterate_wait_update fuel (set_input self' None) handler
      | None =>
          let '(res, ch) := chan_recv rx_state in
          message ← unwrap res;
          rassert (num_items message =? 1);;
          item ← unwrap (head (data message));
          match item with
          | Item update => Done (update, self', set_channel handler ch)
          | FlushBatch | FlushAndRestart => iterate_wait_update fuel self' (set_channel handler ch)
          | _ => Panicked
          end
      end
  end.

(** [while let Ok(message) = feedback_receiver.try_recv()]: as many messages as are there. *)
Definition poll_feedback self : outcome (Iterate_state A) :=
  feedback ← unwrap (feedback_receiver self);
  let '(n, self) := look self in
  match feedback with
  | ms :: rest => Done (take_feedback self (take n ms) (drop n ms :: rest))
  | [] => Done self
  end.

(** [mem::swap(content, feedback_content)]; from here on the next iteration can send. *)
Definition swap_content self : Iterate_state A :=
  mkIterate (it_coord self) (input_receiver self)
    (match feedback_receiver self with
     | Some (ms :: ms' :: rest) => Some ((ms ++ ms') :: rest)
     | f => f
     end)
    (output_sender self) (feedback_content self) (input_stash self) (it_content self)
    (it_input_finished self) (it_looks self).

Definition Iterate_q : Type := Iterate_state A * IterationStateHandler St * HostState St * Network A.

(** [Iterate::next]. *)
Fixpoint Iterate_next (fuel : nat) (q : Iterate_q) : outcome (StreamElement A * Iterate_q) :=
  match fuel with
  | 0 => OutOfFuel
  | S fuel =>
      let '(self, handler, h, net) := q in
      self ← poll_feedback self;
      if negb (it_input_finished self) then
        self ← fill_stash fuel self;
        '(item, self, h, net) ← next_input self h net;
        item ← unwrap item;
        Done (item, (self, handler, h, net))
      else
        match it_content self with
        | _ :: _ =>
            let '(item, self, h) := next_stored self h in
            item ← unwrap item;
            Done (item, (self, handler, h, net))
        | [] =>
            self ← fill_feedback fuel self;
            rassert (bool_decide (it_content self = []));;
            let self := swap_content self in
            '(state_update, self, handler) ← iterate_wait_update fuel self handler;
            '(result, h) ← wait_sync_state others handler state_update h;
            match result with
            | Finished =>
                let self := set_finished self false in
                let message := new_batch (it_content self) (it_coord self) in
                let self := set_content self [] in
                sender ← unwrap (output_sender self);
                net ← unwrap (send sender message net);
                Iterate_next fuel (self, handler, h, net)
            | Continue => Iterate_next fuel (self, handler, h, net)
            end
        end
  end.
Definition Iterate : Operator A := mkOperator Iterate_q Iterate_next.
End iterate.

(** ** What is on its way *)
Definition elements {A} (ms : list (NetworkMessage A)) : list (StreamElement A) := concat (data <$> ms).
Lemma elements_app {A} (ms ms' : list (NetworkMessage A)) : elements (ms ++ ms') = elements ms ++ elements ms'.
Proof. unfold elements. by rewrite fmap_app, concat_app. Qed.

Section iterate_proofs.
Context {A St : Type} (env : nat → nat) (others : HostState St → option (HostState St)).
Implicit Types s : Iterate_state A.
Implicit Types handler : IterationStateHandler St.
Implicit Types h : HostState St.
Implicit Types net : Network A.
Context (ep : ReceiverEndpoint) (co : Coord).

(** The input that has not been handed out, wherever it is. *)
Definition pending_input s : list (StreamElement A) :=
  input_stash s ++ from_option elements [] (input_receiver s).

(** [fin]: the input of this round is over; [content]: what is left of this iteration;
    [inp]: the input to come; [fbs]: the feedback of this iteration and of the next ones. *)
Record it_inv s (fin : bool) (content inp : list (StreamElement A)) (fbs : list (list (StreamElement A))) : Prop := {
  ii_finished : it_input_finished s = fin;
  ii_content : it_content s = content;
  ii_input : pending_input s = inp;
  ii_feedback : ∃ ms rest, feedback_receiver s = Some (ms :: rest) ∧
    fbs = (feedback_content s ++ elements ms) :: (elements <$> rest);
  ii_output : output_sender s = Some ep;
  ii_coord : it_coord s = co
}.

Lemma recv_feedback_ok s fin content inp fbs :
  it_inv s fin content inp fbs → feedback_ready s = true →
  ∃ s', recv_feedback s = Done s' ∧ it_inv s' fin content inp fbs ∧ input_receiver s' = input_receiver s ∧
    ∃ m ms rest, feedback_receiver s = Some ((m :: ms) :: rest) ∧ feedback_receiver s' = Some (ms :: rest).
Proof.
  intros [Hf Hc Hi (ms & rest & Hr & ->) Ho Hco] Hready. unfold recv_feedback, feedback_ready in *.
  rewrite Hr in *. destruct ms as [|m ms]; [done|]. cbn. eexists. split; [done|]. split; [|by eauto 6].
  split; try done. exists ms, rest. split; [done|]. unfold take_feedback. cbn. unfold elements. cbn.
  by rewrite app_nil_r, <-app_assoc.
Qed.

(** How many messages are in the channels, and whether the input is open. *)
Definition it_measure s : nat :=
  from_option (S ∘ length) 0 (input_receiver s) +
  match feedback_receiver s with Some (ms :: _) => length ms | _ => 0 end.

Lemma it_inv_look s fin content inp fbs : it_inv s fin content inp fbs → it_inv (look env s).2 fin content inp fbs.
Proof. by intros []. Qed.

Lemma input_or_feedback_ok s fin content inp fbs :
  it_inv s fin content inp fbs →
  (∃ m ms, input_receiver s = Some (m :: ms)) ∨ feedback_ready s = true →
  ∃ s', input_or_feedback env s = Done s' ∧ it_inv s' fin content inp fbs ∧ it_measure s' < it_measure s.
Proof.
  intros Hinv Hlive. pose proof Hinv as [Hf Hc Hi (ms & rest & Hr & Hfbs) Ho Hco].
  assert (∀ s1, it_inv s1 fin content inp fbs → feedback_ready s1 = true → feedback_receiver s1 = feedback_receiver s →
    from_option (S ∘ length) 0 (input_receiver s1) ≤ from_option (S ∘ length) 0 (input_receiver s) →
    ∃ s', recv_feedback s1 = Done s' ∧ it_inv s' fin content inp fbs ∧ it_measure s' < it_measure s) as Hrecv.
  { intros s1 H1 Hr1 Hsame Hle. destruct (recv_feedback_ok s1 _ _ _ _ H1 Hr1) as (s' & Hs' & Hinv' & Hin & m & ms1 & r1 & E1 & E2).
    exists s'. split_and!; [done..|]. unfold it_measure. rewrite Hin, E2, <-Hsame, E1. cbn. lia. }
  unfold input_or_feedback. rewrite Hr. cbn [mbind outcome_bind unwrap]. destruct (input_receiver s) as [input|] eqn:Ein.
  - assert (feedback_ready (look env s).2 = feedback_ready s) as Hl by done.
    destruct (look env s) as [pick s1] eqn:El. assert (s1 = (look env s).2) as Es1 by by rewrite El.
    cbn [snd] in Hl. rewrite Hl. destruct (feedback_ready s) eqn:Efr; cbn [negb]; rewrite ?orb_true_r, ?orb_false_r.
    + destruct (Nat.even pick); [destruct input as [|m input]|].
      * apply Hrecv; subst s1; [|done|done|by cbn; lia].
        split; try done; [by unfold pending_input in *; cbn in *; rewrite Ein in Hi|by exists ms, rest].
      * eexists. split; [done|]. subst s1. split; [|unfold it_measure; cbn; rewrite Ein, Hr; cbn; lia].
        split; try done; [|by exists ms, rest]. unfold pending_input in *. cbn in *. rewrite Ein in Hi.
        rewrite <-Hi. cbn. unfold elements. cbn. by rewrite app_assoc.
      * apply Hrecv; subst s1; [by apply it_inv_look|done|done|]. cbn. by rewrite Ein.
    + destruct Hlive as [(m & input' & [= ->])|]; [|done]. eexists. split; [done|]. subst s1.
      split; [|unfold it_measure; cbn; rewrite Ein, Hr; cbn; lia].
      split; try done; [|by exists ms, rest]. unfold pending_input in *. cbn in *. rewrite Ein in Hi.
      rewrite <-Hi. cbn. unfold elements. cbn. by rewrite app_assoc.
  - destruct Hlive as [(? & ? & ?)|Hready]; [done|]. apply Hrecv; try done. by rewrite Ein.
Qed.

Lemma fill_stash_ok s fin content inp fbs :
  it_inv s fin content inp fbs → inp ≠ [] →
  ∃ f s', fill_stash env f s = Done s' ∧ it_inv s' fin content inp fbs ∧ input_stash s' ≠ [].
Proof.
  remember (it_measure s) as n eqn:En. revert s En. induction (lt_wf n) as [n _ IH]. intros s -> Hinv Hne.
  destruct (input_stash s) as [|e stash] eqn:Es; [|exists 1, s; cbn; by rewrite Es].
  destruct (input_or_feedback_ok s fin content inp fbs Hinv) as (s1 & H1 & Hinv1 & Hlt).
  { left. pose proof (ii_input _ _ _ _ _ Hinv) as Hi. unfold pending_input in Hi. rewrite Es in Hi.
    destruct (input_receiver s) as [[|m ms]|]; [by subst inp..|by eauto|by subst inp]. }
  destruct (IH _ Hlt s1 eq_refl Hinv1 Hne) as (f & s' & Hf & Hinv' & Hs'). exists (S f), s'.
  split; [|done]. cbn. by rewrite Es, H1.
Qed.

Lemma feedback_last (x c : list (StreamElement A)) r :
  FlushAndRestart ∉ c → x ++ r = c ++ [FlushAndRestart] → last x = Some FlushAndRestart →
  x = c ++ [FlushAndRestart] ∧ r = [].
Proof.
  intros Hc E [x' ->]%last_Some. destruct r as [|e r _] using rev_ind; [by rewrite app_nil_r in E|].
  exfalso. rewrite app_assoc in E. apply app_inj_tail in E as [E _]. apply Hc. rewrite <-E. set_solver.
Qed.

Lemma fill_feedback_ok s fin content inp c more :
  it_inv s fin content inp ((c ++ [FlushAndRestart]) :: more) → FlushAndRestart ∉ c →
  ∃ f s', fill_feedback env f s = Done s' ∧ it_inv s' fin content inp ((c ++ [FlushAndRestart]) :: more) ∧
    feedback_content s' = c ++ [FlushAndRestart].
Proof.
  remember (it_measure s) as n eqn:En. revert s En. induction (lt_wf n) as [n _ IH]. intros s -> Hinv Hc.
  pose proof (ii_feedback _ _ _ _ _ Hinv) as (ms & rest & Hr & E). injection E as E _.
  destruct (feedback_finished s) eqn:Ef.
  - exists 1, s. cbn. rewrite Ef. split; [done|]. split; [done|]. unfold feedback_finished in Ef.
    destruct (last (feedback_content s)) as [[]|] eqn:El; try done.
    symmetry in E. by apply feedback_last in E as [-> _].
  - destruct (input_or_feedback_ok s _ _ _ _ Hinv) as (s1 & H1 & Hinv1 & Hlt).
    { right. unfold feedback_ready. rewrite Hr. destruct ms; [|done]. unfold elements in E. cbn in E.
      rewrite app_nil_r in E. unfold feedback_finished in Ef. by rewrite <-E, last_snoc in Ef. }
    destruct (IH _ Hlt s1 eq_refl Hinv1 Hc) as (f & s' & Hf & Hinv' & Hs'). exists (S f), s'.
    split; [|done]. cbn. by rewrite Ef, H1.
Qed.

Lemma updates_recv u us (ch : channel (StateFeedback St)) :
  updates_in (u :: us) ch →
  ∃ c m ch', chan_recv ch = (Some m, ch') ∧ length ch' < length ch ∧
    ((m = new_single (Item u) c ∧ updates_in us ch') ∨ (m = new_single FlushBatch c ∧ updates_in (u :: us) ch')).
Proof.
  remember (u :: us) as l eqn:El. intros H. revert u us El.
  induction H as [|u us c ch H _|u us c ch H _|u us ch H IH]; intros u' us' E; simplify_eq.
  - eexists c, _, ch. split; [done|]. cbn. eauto.
  - eexists c, _, ch. split; [done|]. cbn. eauto.
  - destruct (IH _ _ eq_refl) as (c & m & ch' & Hr & Hl & Hm). exists c, m, ch'. cbn. split; [done|]. split; [lia|done].
Qed.

Lemma iterate_wait_ok s fin content inp fbs handler ch u us :
  it_inv s fin content inp fbs → new_state_receiver handler = Some ch → updates_in (u :: us) ch →
  ∃ f s' ch', iterate_wait_update env f s handler = Done (u, s', set_channel handler ch') ∧
    it_inv s' fin content inp fbs ∧ updates_in us ch'.
Proof.
  remember (from_option (S ∘ length) 0 (input_receiver s) + length ch) as n eqn:En.
  revert s handler ch En. induction (lt_wf n) as [n _ IH]. intros s handler ch -> Hinv Hch Hu.
  pose proof Hinv as [Hf Hc Hi (ms & rest & Hr & Hfbs) Ho Hco].
  destruct (if Nat.even (env (it_looks s)) then None else input_receiver s) as [[|m input]|] eqn:Ep.
  - destruct (Nat.even (env (it_looks s))) eqn:Ee; [done|].
    edestruct (IH (0 + length ch) ltac:(rewrite Ep; cbn; lia) (set_input (look env s).2 None) handler ch)
      as (f & s' & ch' & Hw & Hinv' & Hu'); [done| |done|done|].
    { split; try done; [by unfold pending_input in *; cbn in *; rewrite Ep in Hi|by exists ms, rest]. }
    exists (S f), s', ch'. split; [|done]. cbn. rewrite Hch. cbn. by rewrite Ee, Ep.
  - destruct (Nat.even (env (it_looks s))) eqn:Ee; [done|].
    edestruct (IH (S (length input) + length ch) ltac:(rewrite Ep; cbn; lia)
      (set_stash (set_input (look env s).2 (Some input)) (input_stash s ++ data m)) handler ch)
      as (f & s' & ch' & Hw & Hinv' & Hu'); [done| |done|done|].
    { split; try done; [|by exists ms, rest]. unfold pending_input in *. cbn in *. rewrite Ep in Hi.
      rewrite <-Hi. cbn. unfold elements. cbn. by rewrite app_assoc. }
    exists (S f), s', ch'. split; [|done]. cbn. rewrite Hch. cbn. by rewrite Ee, Ep.
  - destruct (updates_recv u us ch Hu) as (c & m & ch1 & Hrecv & Hlt & [[-> Hu1]|[-> Hu1]]).
    + exists 1, (look env s).2, ch1. split; [|by split; [apply it_inv_look|]].
      cbn. rewrite Hch. cbn. rewrite Ep, Hrecv. done.
    + edestruct (IH (from_option (S ∘ length) 0 (input_receiver s) + length ch1) ltac:(lia)
        (look env s).2 (set_channel handler ch1) ch1) as (f & s' & ch' & Hw & Hinv' & Hu');
        [done|by apply it_inv_look|done|done|].
      exists (S f), s', ch'. split; [|done]. cbn. rewrite Hch. cbn. rewrite Ep, Hrecv. cbn. exact Hw.
Qed.

Lemma poll_ok s fin content inp fbs :
  it_inv s fin content inp fbs → ∃ s', poll_feedback env s = Done s' ∧ it_inv s' fin content inp fbs.
Proof.
  intros [Hf Hc Hi (ms & rest & Hr & ->) Ho Hco]. unfold poll_feedback. rewrite Hr. cbn.
  eexists. split; [done|]. split; try done. cbn. eexists _, rest. split; [done|].
  change (concat (data <$> take (env (it_looks s)) ms)) with (elements (take (env (it_looks s)) ms)).
  by rewrite <-app_assoc, <-elements_app, take_drop.
Qed.

Lemma fill_stash_mono f f' s : f ≤ f' → fuel_le (fill_stash env f s) (fill_stash env f' s).
Proof.
  revert f' s; induction f as [|f IH]; intros [|f'] s Hle; cbn [fill_stash]; try lia; eauto with renoir.
  destruct (input_stash s); [|apply fuel_le_refl].
  apply fuel_le_bind; [apply fuel_le_refl|]. intros. apply IH. lia.
Qed.
Lemma fill_feedback_mono f f' s : f ≤ f' → fuel_le (fill_feedback env f s) (fill_feedback env f' s).
Proof.
  revert f' s; induction f as [|f IH]; intros [|f'] s Hle; cbn [fill_feedback]; try lia; eauto with renoir.
  destruct (feedback_finished s); [apply fuel_le_refl|].
  apply fuel_le_bind; [apply fuel_le_refl|]. intros. apply IH. lia.
Qed.
Lemma iterate_wait_mono f f' s handler :
  f ≤ f' → fuel_le (iterate_wait_update env f s handler) (iterate_wait_update env f' s handler).
Proof.
  revert f' s handler; induction f as [|f IH]; intros [|f'] s handler Hle; cbn [iterate_wait_update]; try lia;
    eauto with renoir.
  apply fuel_le_bind; [apply fuel_le_refl|]. intros ch. destruct (look env s) as [pick s1].
  destruct (if Nat.even pick then None else input_receiver s) as [[|m input]|]; [apply IH; lia..|].
  destruct (chan_recv ch) as [res ch'].
  apply fuel_le_bind; [apply fuel_le_refl|]. intros m. apply fuel_le_bind; [apply fuel_le_refl|]. intros _.
  apply fuel_le_bind; [apply fuel_le_refl|]. intros []; try apply fuel_le_refl; apply IH; lia.
Qed.
Global Instance Iterate_laws : OperatorLaws (@Iterate A St env others).
Proof.
  constructor. cbn [op_next Iterate]. intros f f' s Hle. revert f' s Hle.
  induction f as [|f IH]; intros [|f'] [[[s handler] h] net] Hle; cbn [Iterate_next]; try lia; eauto with renoir.
  apply fuel_le_bind; [apply fuel_le_refl|]. intros s1. destruct (it_input_finished s1); cbn [negb].
  - destruct (it_content s1); [|apply fuel_le_refl].
    apply fuel_le_bind; [apply fill_feedback_mono; lia|]. intros s2.
    apply fuel_le_bind; [apply fuel_le_refl|]. intros _.
    apply fuel_le_bind; [apply iterate_wait_mono; lia|]. intros [[u s3] handler'].
    apply fuel_le_bind; [apply fuel_le_refl|]. intros [[] h']; [apply IH; lia|].
    apply fuel_le_bind; [apply fuel_le_refl|]. intros sender.
    apply fuel_le_bind; [apply fuel_le_refl|]. intros net'. apply IH; lia.
  - apply fuel_le_bind; [apply fill_stash_mono; lia|]. intros. apply fuel_le_refl.
Qed.

(** One element of the input. *)
Definition locks (e : StreamElement A) h : HostState St :=
  match e with FlushAndRestart => handler_lock h | _ => h end.
Definition ends_round (e : StreamElement A) : bool := match e with FlushAndRestart => true | _ => false end.
Lemma iterate_reads s e inp fbs handler h net net' :
  it_inv s false [] (e :: inp) fbs →
  (match e with Terminate => send ep (new_single Terminate co) net = Some net' | _ => net' = net end) →
  ∃ s', Step (Iterate env others) (s, handler, h, net) e (s', handler, locks e h, net') ∧
    it_inv s' (ends_round e) [] inp fbs.
Proof.
  intros Hinv Hnet. destruct (poll_ok _ _ _ _ _ Hinv) as (s1 & H1 & Hinv1).
  destruct (fill_stash_ok s1 _ _ _ _ Hinv1 ltac:(done)) as (f & s2 & H2 & Hinv2 & Hs2).
  pose proof Hinv1 as [Hf1 _ _ _ _ _]. pose proof Hinv2 as [Hf Hc Hi (ms & rest & Hr & Hfbs) Ho Hco].
  destruct (input_stash s2) as [|e' stash] eqn:Es; [done|]. unfold pending_input in Hi. rewrite Es in Hi.
  cbn in Hi. injection Hi as -> Hi.
  exists (if ends_round e then set_finished (set_stash s2 stash) true else set_stash s2 stash). split.
  - exists (S f). cbn [op_next Iterate Iterate_next]. rewrite H1. cbn [mbind outcome_bind]. rewrite Hf1. cbn [negb].
    rewrite H2. cbn [mbind outcome_bind]. unfold next_input. rewrite Es.
    destruct e; cbn [ends_round locks]; try (subst net'; done).
    cbn [output_sender it_coord set_stash]. rewrite Ho, Hco. cbn [mbind outcome_bind unwrap]. by rewrite Hnet.
  - destruct (ends_round e) eqn:Ee; (split; try done); by exists ms, rest.
Qed.

(** The input of a round. *)
Lemma iterate_reads_all s l inp fbs handler h net :
  Forall (λ e, is_data e = true) l → it_inv s false [] (l ++ FlushAndRestart :: inp) fbs →
  ∃ s', emits (Iterate env others) (s, handler, h, net) (l ++ [FlushAndRestart]) (s', handler, handler_lock h, net) ∧
    it_inv s' true [] inp fbs.
Proof.
  intros Hl. revert s. induction Hl as [|e l He _ IH]; intros s Hinv; cbn in Hinv.
  - destruct (iterate_reads s FlushAndRestart inp fbs handler h net net Hinv eq_refl) as (s' & HS & Hinv').
    exists s'. split; [by apply emits_one|done].
  - destruct (iterate_reads s e _ fbs handler h net net Hinv) as (s1 & HS & Hinv1); [by destruct e|].
    assert (ends_round e = false ∧ locks e h = h) as [Ee El] by by destruct e. rewrite Ee in Hinv1. rewrite El in HS.
    destruct (IH s1 Hinv1) as (s' & Hs' & Hinv'). exists s'. split; [|done]. by econstructor.
Qed.

(** The content of an iteration. *)
Lemma iterate_stored s c inp fbs handler h net :
  Forall (λ e, is_data e = true) c → it_inv s true (c ++ [FlushAndRestart]) inp fbs →
  ∃ s', emits (Iterate env others) (s, handler, h, net) (c ++ [FlushAndRestart]) (s', handler, handler_lock h, net) ∧
    it_inv s' true [] inp fbs.
Proof.
  assert (∀ s e c h, it_inv s true (e :: c) inp fbs →
    ∃ s', Step (Iterate env others) (s, handler, h, net) e (s', handler, locks e h, net) ∧ it_inv s' true c inp fbs) as Hstep.
  { intros s0 e c0 h0 Hinv. destruct (poll_ok _ _ _ _ _ Hinv) as (s1 & H1 & [Hf Hc Hi (ms & rest & Hr & Hfbs) Ho Hco]).
    exists (set_content s1 c0). split; [|by split; try done; exists ms, rest].
    exists 1. cbn [op_next Iterate Iterate_next]. rewrite H1. cbn [mbind outcome_bind]. rewrite Hf, Hc. cbn [negb].
    unfold next_stored. rewrite Hc. by destruct e. }
  intros Hc. revert s. induction Hc as [|e c He _ IH]; intros s Hinv; cbn in Hinv.
  - destruct (Hstep s FlushAndRestart [] h Hinv) as (s' & HS & Hinv'). exists s'. split; [by apply emits_one|done].
  - destruct (Hstep s e _ h Hinv) as (s1 & HS & Hinv1). assert (locks e h = h) as El by by destruct e. rewrite El in HS.
    destruct (IH s1 Hinv1) as (s' & Hs' & Hinv'). exists s'. split; [|done]. by econstructor.
Qed.

(** At the end of an iteration [next] goes on as it would after the update. *)
Lemma iterate_wrap s inp c more handler ch res st us h net net' :
  it_inv s true [] inp ((c ++ [FlushAndRestart]) :: more) → FlushAndRestart ∉ c →
  others_ok (is_local_leader handler) others → odd_lock h →
  new_state_receiver handler = Some ch → updates_in ((res, st) :: us) ch →
  (match res with
   | Finished => send ep (new_batch (c ++ [FlushAndRestart]) co) net = Some net'
   | Continue => net' = net
   end) →
  ∃ s' ch' h',
    it_inv s' (match res with Continue => true | Finished => false end)
      (match res with Continue => c ++ [FlushAndRestart] | Finished => [] end) inp
      (default [] (head more) :: tail more) ∧
    updates_in us ch' ∧
    (is_local_leader handler = true → state_ref h' = st ∧ generation (state_lock h') = generation (state_lock h) + 1) ∧
    ∀ e l q, emits (Iterate env others) (s', set_channel handler ch', h', net') (e :: l) q →
      emits (Iterate env others) (s, handler, h, net) (e :: l) q.
Proof.
  intros Hinv Hc Ho Hodd Hch Hu Hnet. destruct (poll_ok _ _ _ _ _ Hinv) as (s1 & H1 & Hinv1).
  destruct (fill_feedback_ok s1 _ _ _ _ _ Hinv1 Hc) as (f2 & s2 & H2 & Hinv2 & Hfb).
  pose proof Hinv1 as [Hf1 Hc1 _ _ _ _].
  pose proof Hinv2 as [Hf2 Hc2 Hi2 (ms & rest & Hr2 & Hfbs) Ho2 Hco2].
  assert (elements ms = []) as Hms.
  { injection Hfbs as E _. rewrite Hfb in E. rewrite <-(app_nil_r (c ++ _)) in E at 1. by apply app_inv_head in E. }
  assert (it_inv (swap_content s2) true (c ++ [FlushAndRestart]) inp (default [] (head more) :: tail more)) as Hinv3.
  { split; try done. injection Hfbs as _ ->. unfold swap_content. cbn. rewrite Hr2, Hc2. cbn.
    destruct rest as [|ms' rest].
    - exists ms, []. by rewrite Hms.
    - exists (ms ++ ms'), rest. by rewrite elements_app, Hms. }
  destruct (iterate_wait_ok _ _ _ _ _ handler ch (res, st) us Hinv3 Hch Hu) as (f4 & s4 & ch' & H4 & Hinv4 & Hu').
  destruct (wait_sync_run others (set_channel handler ch') res st h Ho Hodd) as (h' & Hs & Hl).
  pose proof Hinv4 as [Hf4 Hc4 Hi4 (ms4 & rest4 & Hr4 & Hfbs4) Ho4 Hco4].
  exists (match res with Continue => s4 | Finished => set_content (set_finished s4 false) [] end), ch', h'.
  split_and!; [|done|exact Hl|].
  { destruct res; [done|]. split; try done. by exists ms4, rest4. }
  intros e l q He. inversion He as [|? ? q1 ? ? [f5 Hf5] Hq]; subst. econstructor; [|exact Hq].
  set (n := f2 `max` f4 `max` f5). exists (S n). cbn [op_next Iterate Iterate_next].
  rewrite H1. cbn [mbind outcome_bind]. rewrite Hf1, Hc1. cbn [negb].
  assert (fill_feedback env n s1 = Done s2) as ->.
  { apply fuel_le_done. rewrite <-H2. apply fill_feedback_mono. lia. }
  cbn [mbind outcome_bind]. rewrite bool_decide_true by done. cbn [mbind outcome_bind rassert].
  assert (iterate_wait_update env n (swap_content s2) handler = Done ((res, st), s4, set_channel handler ch')) as ->.
  { apply fuel_le_done. rewrite <-H4. apply iterate_wait_mono. lia. }
  cbn [mbind outcome_bind]. rewrite Hs. cbn [mbind outcome_bind].
  assert (op_next (Iterate env others) n (match res with Continue => s4 | Finished => set_content (set_finished s4 false) [] end,
    set_channel handler ch', h', net') = Done (e, q1)) as Hgo by (apply (Step_fuel (Iterate env others) _ _ _ _ Hf5); lia).
  destruct res; [by rewrite <-Hnet|]. cbn [set_finished set_content output_sender it_content it_coord].
  rewrite Ho4, Hc4, Hco4. cbn [mbind outcome_bind unwrap]. rewrite Hnet. cbn [mbind outcome_bind unwrap]. exact Hgo.
Qed.

(** The iterations that go on. *)
Lemma iterate_passes s inp cs more sts us handler ch h net :
  Forall (Forall (λ e, is_data e = true)) cs → length cs = length sts → more ≠ [] →
  it_inv s true [] inp (((λ c, c ++ [FlushAndRestart]) <$> cs) ++ more) →
  others_ok (is_local_leader handler) others → odd_lock h →
  new_state_receiver handler = Some ch → updates_in (((λ st, (Continue, st)) <$> sts) ++ us) ch →
  ∃ s' ch' h', it_inv s' true [] inp more ∧ updates_in us ch' ∧ odd_lock h' ∧
    emits (Iterate env others) (s, handler, h, net) (concat ((λ c, c ++ [FlushAndRestart]) <$> cs))
      (s', set_channel handler ch', h', net).
Proof.
  intros Hcs. revert s sts handler ch h. induction Hcs as [|c cs Hc _ IH];
    intros s sts handler ch h Hlen Hne Hinv Ho Hodd Hch Hu; destruct sts as [|st sts]; try done; csimpl in *.
  { exists s, ch, h. split_and!; [done..|]. assert (set_channel handler ch = handler) as ->
      by (destruct handler; cbn in *; by subst). constructor. }
  assert (FlushAndRestart ∉ c) as Hnf. { intros Hin. rewrite Forall_forall in Hc. by specialize (Hc _ Hin). }
  destruct (iterate_wrap s inp c _ handler ch Continue st _ h net net Hinv Hnf Ho Hodd Hch Hu eq_refl)
    as (s1 & ch1 & h1 & Hinv1 & Hu1 & _ & Hw).
  destruct (iterate_stored s1 c _ _ (set_channel handler ch1) h1 net Hc Hinv1) as (s2 & Hem & Hinv2).
  destruct (IH s2 sts (set_channel handler ch1) ch1 (handler_lock h1)) as (s' & ch' & h' & Hinv' & Hu' & Hodd' & Hem').
  - lia.
  - done.
  - replace (_ :: tail _) with (((λ c, c ++ [FlushAndRestart]) <$> cs) ++ more) in Hinv2; [done|].
    by destruct cs, more.
  - done.
  - apply handler_lock_odd.
  - done.
  - done.
  - exists s', ch', h'. split_and!; [done..|]. eapply emits_app; [|exact Hem'].
    destruct (c ++ [FlushAndRestart]) as [|e l] eqn:Ec; [by destruct c|]. by apply Hw.
Qed.

(** C24. A run of an iteration with feedback: whatever the order in which the input, the
    feedback of the body and the updates of the leader arrive, [Iterate] hands out the
    input of the round, then for every update that says to go on exactly what the
    iteration before fed back, and when the leader says to stop sends the feedback of the
    last iteration, and nothing else, to the output; input that arrived early is kept for
    the next round, of which [x] is the first element. *)
Theorem Iterate_run s handler ch sts final us h net l x rest cs cn later :
  Forall (λ e, is_data e = true) l → Forall (Forall (λ e, is_data e = true)) cs →
  Forall (λ e, is_data e = true) cn → length cs = length sts →
  it_inv s false [] (l ++ FlushAndRestart :: x :: rest)
    (((λ c, c ++ [FlushAndRestart]) <$> cs) ++ (cn ++ [FlushAndRestart]) :: later) →
  others_ok (is_local_leader handler) others → new_state_receiver handler = Some ch →
  updates_in (((λ st, (Continue, st)) <$> sts) ++ (Finished, final) :: us) ch → ep ∉ disconnected net →
  ∃ s' ch' h' net',
    emits (Iterate env others) (s, handler, h, net)
      ((l ++ [FlushAndRestart]) ++ concat ((λ c, c ++ [FlushAndRestart]) <$> cs) ++ [x])
      (s', set_channel handler ch', locks x h', net') ∧
    it_inv s' (ends_round x) [] rest (default [] (head later) :: tail later) ∧ updates_in us ch' ∧
    (is_local_leader handler = true → state_ref h' = final ∧ generation (state_lock h') mod 2 = 0) ∧
    sent_to net' ep = sent_to net ep ++ new_batch (cn ++ [FlushAndRestart]) co ::
      match x with Terminate => [new_single Terminate co] | _ => [] end ∧
    net_frame ep net net'.
Proof.
  intros Hl Hcs Hcn Hlen Hinv Ho Hch Hu Hep.
  destruct (iterate_reads_all s l _ _ handler h net Hl Hinv) as (s1 & Hem1 & Hinv1).
  destruct (iterate_passes s1 _ cs ((cn ++ [FlushAndRestart]) :: later) sts _ handler ch (handler_lock h) net Hcs Hlen ltac:(done) Hinv1 Ho
    (handler_lock_odd h) Hch Hu) as (s2 & ch2 & h2 & Hinv2 & Hu2 & Hodd2 & Hem2).
  assert (FlushAndRestart ∉ cn) as Hnf. { intros Hin. rewrite Forall_forall in Hcn. by specialize (Hcn _ Hin). }
  destruct (send_alive ep (new_batch (cn ++ [FlushAndRestart]) co) net Hep) as (net1 & Hsend & Hsent & Hfr).
  destruct (iterate_wrap s2 _ cn later (set_channel handler ch2) ch2 Finished final us h2 net net1 Hinv2 Hnf Ho Hodd2
    eq_refl Hu2 Hsend) as (s3 & ch' & h' & Hinv3 & Hu3 & Hld & Hw).
  assert (∃ net', (match x with Terminate => send ep (new_single Terminate co) net1 = Some net' | _ => net' = net1 end) ∧
    sent_to net' ep = sent_to net1 ep ++ match x with Terminate => [new_single Terminate co] | _ => [] end ∧
    net_frame ep net1 net') as (net' & Hnet' & Hsent' & Hfr').
  { destruct (send_alive ep (new_single Terminate co) net1) as (n2 & ? & ? & ?); [by destruct Hfr as [-> _]|].
    destruct x; first [by exists n2|exists net1; rewrite app_nil_r; by split_and!; [..|apply net_frame_refl]]. }
  destruct (iterate_reads s3 x rest _ (set_channel handler ch') h' net1 net' Hinv3 Hnet') as (s' & HS & Hinv').
  exists s', ch', h', net'. split_and!; try done.
  - eapply emits_app; [exact Hem1|]. eapply emits_app; [exact Hem2|]. apply Hw. by apply emits_one.
  - intros Hlead. destruct (Hld Hlead) as [-> ->]. split; [done|]. unfold odd_lock in Hodd2.
    by rewrite Nat.Div0.add_mod, Hodd2.
  - by rewrite Hsent', Hsent, <-app_assoc.
  - destruct Hfr, Hfr'. split; [congruence|]. intros. by rewrite H2, H0.
Qed.
End iterate_proofs.

(** Two iterations; the first element of the next round arrives early. *)
Module Example.
Definition co : Coord := mkCoord 2 0 0.
Definition out : ReceiverEndpoint := mkReceiverEndpoint (mkCoord 7 0 0) 2.
Definition msg (l : list (StreamElement nat)) : NetworkMessage nat := new_batch l co.
Definition start : Iterate_state nat :=
  mkIterate co (Some [msg [Item 1; Item 2]; msg [FlushAndRestart]; msg [Terminate]])
    (Some [[msg [Item 11]; msg [Item 12; FlushAndRestart]]; [msg [Item 21; Item 22; FlushAndRestart]]])
    (Some out) [] [] [] false 0.
Definition env (n : nat) : nat := n `mod` 3.

Lemma Iterate_run_witness :
  ∃ s' ch' h' net',
    emits (Iterate env IterationExample.others)
      (start, IterationExample.handler, IterationExample.host, IterationExample.no_net)
      [Item 1; Item 2; FlushAndRestart; Item 11; Item 12; FlushAndRestart; Terminate]
      (s', set_channel IterationExample.handler ch', h', net') ∧
    sent_to net' out = [new_batch [Item 21; Item 22; FlushAndRestart] co; new_single Terminate co].
Proof.
  destruct (Iterate_run env IterationExample.others out co start IterationExample.handler (default [] (new_state_receiver IterationExample.handler)) [7] 0 []
    IterationExample.host IterationExample.no_net [Item 1; Item 2] Terminate [] [[Item 11; Item 12]] [Item 21; Item 22] [])
    as (s' & ch' & h' & net' & Hem & _ & _ & _ & Hsent & _).
  - repeat constructor.
  - repeat constructor.
  - repeat constructor.
  - done.
  - split; try done. by eexists _, _.
  - intros h. eexists. by split.
  - reflexivity.
  - repeat constructor.
  - cbn. set_solver.
  - exists s', ch', h', net'. split; [exact Hem|exact Hsent].
Defined.
End Example.
