(* ===== verification/DeltaIterate.v ===== *)
(** * Delta iteration

    [src/src/operator/iteration/iterate_delta.rs]: an iteration that keeps one value per key,
    sends an update of it through the body and merges the deltas that come back.  It is built
    from [iterate], [rich_map] and [route]; here are its closures, its operator and the loop they
    make of an iteration, replica by replica.  The content of an iteration on a replica is what
    the body fed back to that replica in the one before ([Iterate.v]); every replica keeps the
    values of the keys that reach it ([BasicOps.v]); a route sends what it takes to the first
    replica of its block, from whichever replica it comes ([Route.v]); the leader folds the
    deltas of all the replicas and asks the condition ([Iteration.v]).

    With one replica, or when the body brings the deltas of a key back to the replica that holds
    its value, the replicas together keep one value per key ([delta_iterate_run]).  A body that
    leaves the deltas on the first replica, where the route put the updates, does not: they meet
    the default value there ([DeltaExample.misplaced]). *)
From S2P Require Import Prelude StreamElement Operator BasicOps.

(** The state of the iteration. *)
Record TerminationCond := mkTerminationCond {
  something_changed : bool;
  last_iteration : bool;
  tc_iter : nat
}.
(** [TerminationCond::default], which is also the initial state. *)
Definition TerminationCond_default : TerminationCond := mkTerminationCond false false 0.

(** The messages of the loop. *)
Inductive Msg (I U D O : Type) :=
| MInit (i : I)
| MUpdate (u : U)
| MDelta (d : D)
| MOutput (o : O).
Global Arguments MInit {_ _ _ _} _.
Global Arguments MUpdate {_ _ _ _} _.
Global Arguments MDelta {_ _ _ _} _.
Global Arguments MOutput {_ _ _ _} _.

Abbreviation lmap := (fmap (M := list)).

(** A computation on every element of a list. *)
Fixpoint outcome_mapM {X Y} (f : X → outcome Y) (l : list X) : outcome (list Y) :=
  match l with
  | [] => Done []
  | x :: l => y ← f x; ys ← outcome_mapM f l; Done (y :: ys)
  end.

(** What arrives at a receiver from several replicas, each in its order: [picks] says from which
    replica the next element comes, and what is left follows. *)
Fixpoint interleave {X} (picks : list nat) (ls : list (list X)) : list X :=
  match picks with
  | [] => concat ls
  | r :: picks =>
      match ls !! r with
      | Some (x :: l) => x :: interleave picks (<[r := l]> ls)
      | _ => interleave picks ls
      end
  end.
(** What the [n] replicas of a block receive when a route sends [l] to the first of them. *)
Definition first_replica {X} (n : nat) (l : list X) : list (list X) := l :: replicate (n - 1) [].

Lemma outcome_mapM_done {X Y} (f : X → outcome Y) (g : X → Y) (l : list X) :
  (∀ x, x ∈ l → f x = Done (g x)) → outcome_mapM f l = Done (g <$> l).
Proof.
  induction l as [|x l IH]; intros Hf; [done|]. cbn. rewrite Hf by left. cbn.
  rewrite IH; [done|]. intros y Hy. apply Hf. by right.
Qed.
Lemma concat_fmap_lists {X Y} (f : X → Y) (ls : list (list X)) :
  concat (lmap f <$> ls) = f <$> concat ls.
Proof. induction ls as [|l ls IH]; [done|]. csimpl. by rewrite fmap_app, IH. Qed.
Lemma concat_middle {X} (ls : list (list X)) r l :
  ls !! r = Some l → concat ls = concat (take r ls) ++ l ++ concat (drop (S r) ls).
Proof. intros Hr. rewrite <-(take_drop_middle _ _ _ Hr) at 1. by rewrite concat_app. Qed.

Lemma interleave_fmap {X Y} (f : X → Y) picks (ls : list (list X)) :
  interleave picks (lmap f <$> ls) = f <$> interleave picks ls.
Proof.
  revert ls. induction picks as [|r picks IH]; intros ls; cbn; [apply concat_fmap_lists|].
  rewrite list_lookup_fmap. destruct (ls !! r) as [[|x l]|]; cbn; [apply IH| |apply IH].
  rewrite <-IH. by rewrite list_fmap_insert.
Qed.
Lemma interleave_perm {X} picks (ls : list (list X)) : interleave picks ls ≡ₚ concat ls.
Proof.
  revert ls. induction picks as [|r picks IH]; intros ls; cbn; [done|].
  destruct (ls !! r) as [[|x l]|] eqn:E; [done| |done]. rewrite IH, (concat_middle _ _ _ E).
  rewrite insert_take_drop by by eapply lookup_lt_Some. rewrite concat_app. cbn.
  apply Permutation_middle.
Qed.
Lemma interleave_nils {X} picks (ls : list (list X)) : concat ls = [] → interleave picks ls = [].
Proof. intros E. apply Permutation_nil. by rewrite interleave_perm, E. Qed.
Lemma concat_nils {X} (ls : list (list X)) : concat ls = [] → ls = replicate (length ls) [].
Proof.
  induction ls as [|l ls IH]; [done|]. cbn. intros [-> E]%app_eq_nil. by rewrite <-IH.
Qed.
Lemma replicate_concat {X} n : concat (replicate n ([] : list X)) = [].
Proof. by induction n. Qed.
Lemma first_replica_nil {X} n : 0 < n → first_replica n ([] : list X) = replicate n [].
Proof. intros Hn. destruct n; [lia|]. unfold first_replica. cbn. by rewrite Nat.sub_0_r. Qed.
Lemma first_replica_length {X} n (l : list X) : 0 < n → length (first_replica n l) = n.
Proof. intros Hn. unfold first_replica. cbn. rewrite length_replicate. lia. Qed.
Lemma first_replica_fmap {X Y} (f : X → Y) n l : lmap f <$> first_replica n l = first_replica n (f <$> l).
Proof. unfold first_replica. csimpl. by rewrite fmap_replicate. Qed.
Lemma existsb_perm {X} (f : X → bool) l l' : l ≡ₚ l' → existsb f l = existsb f l'.
Proof.
  intros Hl. apply eq_true_iff_eq. rewrite !existsb_exists. setoid_rewrite <-list_elem_of_In.
  by setoid_rewrite Hl.
Qed.
Lemma existsb_concat {X} (f : X → bool) ls : existsb (existsb f) ls = existsb f (concat ls).
Proof. induction ls as [|l ls IH]; [done|]. cbn. by rewrite existsb_app, IH. Qed.

Section code.
Context {K In U D O : Type} `{Countable K}.
Abbreviation msg := (Msg In U D O).

Definition is_update (self : msg) : bool := match self with MUpdate _ => true | _ => false end.
Definition is_output (self : msg) : bool := match self with MOutput _ => true | _ => false end.
Definition unwrap_update (self : msg) : outcome U := match self with MUpdate v => Done v | _ => Panicked end.
Definition unwrap_output (self : msg) : outcome O := match self with MOutput v => Done v | _ => Panicked end.

(** [DeltaIterate::next]: [map] with [unwrap_update]. *)
Definition DeltaIterate (prev : Operator (K * msg)) : Operator (K * U) :=
  Map_closure prev (λ '(k, v), u ← unwrap_update v; Done (k, u)).

Context (num_iterations : nat) (default_in : In).
Context (process_delta : K → In → D → In) (make_update : K → In → U * In) (make_output : K → In → O)
  (condition : D → bool).
(** The body of the user, from the updates that its replicas receive in an iteration to the
    deltas that they give. *)
Context (body : list (list (K * U)) → list (list (K * D))).
(** From which replica the next element arrives at a receiver, in each iteration. *)
Context (order : nat → list nat).

(** The closure of [rich_map]: the state of the key is its argument and result. *)
Definition delta_closure (state : TerminationCond) (k : K) (local_state : In) (m : msg) : outcome (msg * In) :=
  last ← (if last_iteration state then Done true
          else two ← usize_sub num_iterations 2; Done (bool_decide (tc_iter state = two)));
  if (last : bool) then Done (MOutput (make_output k local_state), default_in)
  else
    local_state ← match m with
                  | MInit init => Done init
                  | MDelta delta => Done (process_delta k local_state delta)
                  | _ => Panicked
                  end;
    let (u, local_state) := make_update k local_state in
    Done (MUpdate u, local_state).

(** [rich_map] over the content of an iteration on a replica, with the values of that replica. *)
Fixpoint delta_map (state : TerminationCond) (content : list (K * msg)) (maps : gmap K In)
    : outcome (list (K * msg) * gmap K In) :=
  match content with
  | [] => Done ([], maps)
  | (k, m) :: content =>
      '(m, s) ← delta_closure state k (default default_in (maps !! k)) m;
      '(rest, maps) ← delta_map state content (<[k := s]> maps);
      Done ((k, m) :: rest, maps)
  end.

(** [rich_map] on every replica. *)
Fixpoint delta_maps (state : TerminationCond) (contents : list (list (K * msg))) (maps : list (gmap K In))
    : outcome (list (list (K * msg)) * list (gmap K In)) :=
  match contents, maps with
  | content :: contents, m :: maps =>
      '(msgs, m) ← delta_map state content m;
      '(rest, maps) ← delta_maps state contents maps;
      Done (msgs :: rest, m :: maps)
  | _, _ => Done ([], [])
  end.

(** [unwrap_update] over the first route. *)
Fixpoint delta_updates (l : list (K * msg)) : outcome (list (K * U)) :=
  match l with
  | [] => Done []
  | (k, m) :: l => u ← unwrap_update m; us ← delta_updates l; Done ((k, u) :: us)
  end.

(** What the two routes take: an element goes to the first one that accepts it. *)
Definition route_updates (msgs : list (K * msg)) : list (K * msg) :=
  List.filter (λ x, is_update x.2) msgs.
Definition route_outputs (msgs : list (K * msg)) : list (K * msg) :=
  List.filter (λ x, negb (is_update x.2) && is_output x.2) msgs.

(** The closure given to [iterate] as its body: [rich_map], the two routes, the user's body over the
    updates, and the merge of its deltas with the outputs on each replica (in an iteration all the
    messages are updates, or all are outputs, so one side of the merge is empty). *)
Definition delta_body (state : TerminationCond) (contents : list (list (K * msg))) (maps : list (gmap K In))
    : outcome (list (list (K * msg)) * list (gmap K In)) :=
  '(msgs, maps) ← delta_maps state contents maps;
  let updates := interleave (order (tc_iter state)) (route_updates <$> msgs) in
  let outputs := interleave (order (tc_iter state)) (route_outputs <$> msgs) in
  us ← delta_updates updates;
  let deltas := body (first_replica (length contents) us) in
  Done (zip_with (λ ds os, (prod_map id MDelta <$> ds) ++ os)
          deltas (first_replica (length contents) outputs), maps).

(** The local fold, the global fold and the condition of the loop. *)
Definition delta_local_fold (changed : TerminationCond) (x : K * msg) : outcome TerminationCond :=
  match x.2 with
  | MDelta u =>
      if condition u then Done (mkTerminationCond true (last_iteration changed) (tc_iter changed)) else Done changed
  | MOutput _ => Done (mkTerminationCond (something_changed changed) true (tc_iter changed))
  | _ => Panicked
  end.
Definition delta_global_fold (global local : TerminationCond) : TerminationCond :=
  mkTerminationCond (something_changed global || something_changed local)
    (last_iteration global || last_iteration local) (tc_iter global).
Definition delta_condition (s : TerminationCond) : bool * TerminationCond :=
  (negb (last_iteration s),
   mkTerminationCond false (if something_changed s then last_iteration s else true) (tc_iter s + 1)).

Fixpoint delta_folds (changed : TerminationCond) (l : list (K * msg)) : outcome TerminationCond :=
  match l with
  | [] => Done changed
  | x :: l => changed ← delta_local_fold changed x; delta_folds changed l
  end.

(** The iterations: [more] of them may follow this one.  The deltas of the replicas reach the
    leader in some order. *)
Fixpoint delta_loop (more : nat) (state : TerminationCond) (contents : list (list (K * msg)))
    (maps : list (gmap K In)) : outcome (list (list (K * msg))) :=
  '(contents, maps) ← delta_body state contents maps;
  deltas ← outcome_mapM (delta_folds TerminationCond_default) contents;
  let deltas := interleave (order (tc_iter state)) ((λ d, [d]) <$> deltas) in
  let '(cond, state) := delta_condition (foldl delta_global_fold state deltas) in
  match more with
  | S more => if cond then delta_loop more state contents maps else Done contents
  | 0 => Done contents
  end.

Fixpoint delta_outputs (l : list (K * msg)) : outcome (list (K * O)) :=
  match l with
  | [] => Done []
  | (k, m) :: l => o ← unwrap_output m; os ← delta_outputs l; Done ((k, o) :: os)
  end.

(** [KeyedStream::delta_iterate], from the items of the input to those of the result on each
    replica. *)
Definition delta_iterate (inputs : list (list (K * In))) : outcome (list (list (K * O))) :=
  contents ← delta_loop (num_iterations - 1) TerminationCond_default
               (lmap (prod_map id MInit) <$> inputs) (replicate (length inputs) ∅);
  outcome_mapM delta_outputs contents.
End code.

(** ** The specification: rounds of updates over one map of values *)
Section spec.
Context {K In U D O : Type} `{Countable K}.
Context (default_in : In).
Context (process_delta : K → In → D → In) (make_update : K → In → U * In) (make_output : K → In → O)
  (condition : D → bool) (body : list (list (K * U)) → list (list (K * D))) (order : nat → list nat).
Implicit Types (vs : gmap K In) (dss : list (list (K * D))).

Definition value_of vs (k : K) : In := default default_in (vs !! k).
(** The results of the keys that have a delta. *)
Definition delta_results i vs dss : list (list (K * O)) :=
  first_replica (length dss)
    (interleave (order i) (lmap (λ x, (x.1, make_output x.1 (value_of vs x.1))) <$> dss)).
(** One round: the values [newss] replace those of their keys, each is asked for its update, and the
    updates go through the body. *)
Definition delta_round i vs (newss : list (list (K * In))) : gmap K In * list (list (K * D)) :=
  (list_to_map ((λ x, (x.1, (make_update x.1 x.2).2)) <$> concat newss) ∪ vs,
   body (first_replica (length newss)
     (interleave (order i) (lmap (λ x, (x.1, (make_update x.1 x.2).1)) <$> newss)))).
(** At most [rounds] rounds, as long as a delta of the last one satisfies the condition. *)
Fixpoint delta_rounds (rounds i : nat) vs dss : list (list (K * O)) :=
  match rounds with
  | S rounds =>
      if existsb (λ x, condition x.2) (concat dss) then
        let '(vs, dss) := delta_round i vs
          (lmap (λ x, (x.1, process_delta x.1 (value_of vs x.1) x.2)) <$> dss) in
        delta_rounds rounds (i + 1) vs dss
      else delta_results i vs dss
  | 0 => delta_results i vs dss
  end.
Definition delta_spec (num_iterations : nat) (inputs : list (list (K * In))) : list (list (K * O)) :=
  match num_iterations with
  | 2 => first_replica (length inputs)
           (interleave (order 0) (lmap (λ x, (x.1, make_output x.1 default_in)) <$> inputs))
  | _ => let '(vs, dss) := delta_round 0 ∅ inputs in delta_rounds (num_iterations - 3) 1 vs dss
  end.

(** Every key is on one replica, [home]. *)
Definition placed (home : K → nat) (n : nat) {X} (ls : list (list (K * X))) : Prop :=
  length ls = n ∧ NoDup (concat ls).*1 ∧
  ∀ r l, ls !! r = Some l → Forall (λ x, home x.1 = r) l.
End spec.

(** ** The loop computes it *)
Section proofs.
Context {K In U D O : Type} `{Countable K}.
Context (num_iterations : nat) (default_in : In).
Context (process_delta : K → In → D → In) (make_update : K → In → U * In) (make_output : K → In → O)
  (condition : D → bool) (body : list (list (K * U)) → list (list (K * D))) (order : nat → list nat).
Context (Hn : 2 ≤ num_iterations) (home : K → nat) (n : nat) (Hpos : 0 < n).
Context (Hbody : ∀ us, NoDup us.*1 →
  placed home n (body (first_replica n us)) ∧ (concat (body (first_replica n us))).*1 ⊆ us.*1).
Abbreviation msg := (Msg In U D O).
Abbreviation dmap := (delta_map num_iterations default_in process_delta make_update make_output).
Abbreviation dmaps := (delta_maps num_iterations default_in process_delta make_update make_output).
Abbreviation dbody := (delta_body num_iterations default_in process_delta make_update make_output body order).
Abbreviation dloop := (delta_loop num_iterations default_in process_delta make_update make_output condition body order).
Abbreviation dfolds := (delta_folds (K := K) (In := In) (U := U) (O := O) condition).
Abbreviation dround := (delta_round make_update body order).
Abbreviation running state := (last_iteration state = false ∧ tc_iter state ≠ num_iterations - 2).
Abbreviation stopping state := (last_iteration state = true ∨ tc_iter state = num_iterations - 2).

(** The value a message leaves to its key. *)
Definition absorb (k : K) (v : In) (m : msg) : option In :=
  match m with MInit i => Some i | MDelta d => Some (process_delta k v d) | _ => None end.

Lemma delta_closure_run state k v m v' :
  running state → absorb k v m = Some v' →
  delta_closure num_iterations default_in process_delta make_update make_output state k v m =
    Done (MUpdate (make_update k v').1, (make_update k v').2).
Proof.
  intros [Hl Hi] Ha. unfold delta_closure. rewrite Hl, usize_sub_le by done. cbn.
  rewrite bool_decide_false by done. destruct m; try done; cbn in *; injection Ha as ->; by destruct (make_update k v').
Qed.
Lemma delta_closure_stop state k v m :
  stopping state →
  delta_closure num_iterations default_in process_delta make_update make_output state k v m =
    Done (MOutput (make_output k v), default_in).
Proof.
  intros Hs. unfold delta_closure. destruct (last_iteration state); [done|]. destruct Hs as [?|Hi]; [done|].
  rewrite usize_sub_le by done. cbn. by rewrite bool_decide_true.
Qed.

Lemma delta_map_run state content (news : list (K * In)) maps :
  running state → NoDup content.*1 →
  Forall2 (λ x y, y.1 = x.1 ∧ absorb x.1 (value_of default_in maps x.1) x.2 = Some y.2) content news →
  dmap state content maps =
    Done ((λ y, (y.1, MUpdate (make_update y.1 y.2).1)) <$> news,
          list_to_map ((λ y, (y.1, (make_update y.1 y.2).2)) <$> news) ∪ maps).
Proof.
  intros Hs Hnd Hf. revert maps Hf. revert news. induction content as [|[k m] content IH]; intros news maps Hf.
  { inversion Hf; subst. cbn. by rewrite (left_id_L ∅ (∪)). }
  inversion Hf as [|? [k' v] ? news' [Ek Ha] Hf']; subst. cbn in Ek, Ha. subst k'.
  apply NoDup_cons in Hnd as [Hk Hnd]. cbn [delta_map]. unfold value_of in Ha.
  rewrite (delta_closure_run state k _ m v Hs Ha). cbn [mbind outcome_bind].
  rewrite (IH Hnd news').
  - csimpl. f_equal. f_equal. rewrite <-insert_union_l, insert_union_r; [done|].
    apply not_elem_of_list_to_map_1. rewrite <-list_fmap_compose. cbn [fst].
    assert (fst ∘ (λ y : K * In, (y.1, (make_update y.1 y.2).2)) <$> news' = content.*1) as ->; [|done].
    clear -Hf'. induction Hf' as [|x y l l' [E _] _ IH]; [done|]. csimpl. by rewrite IH, E.
  - clear -Hf' Hk. induction Hf' as [|x y l l' [E1 E2] _ IH']; constructor.
    + split; [done|]. unfold value_of in *. rewrite lookup_insert_ne; [done|]. intros ->. apply Hk. left.
    + apply IH'. intros Hin. apply Hk. by right.
Qed.
Lemma delta_map_stop state content maps :
  stopping state → NoDup content.*1 →
  ∃ maps', dmap state content maps =
    Done ((λ x, (x.1, MOutput (make_output x.1 (value_of default_in maps x.1)))) <$> content, maps').
Proof.
  intros Hs. revert maps. induction content as [|[k m] content IH]; intros maps Hnd; [by eexists|].
  apply NoDup_cons in Hnd as [Hk Hnd]. cbn [delta_map]. rewrite (delta_closure_stop state k _ m Hs).
  cbn [mbind outcome_bind]. destruct (IH (<[k := default_in]> maps) Hnd) as [maps' E]. rewrite E.
  exists maps'. csimpl. f_equal. f_equal. f_equal. apply list_fmap_ext. intros i x Hx. do 3 f_equal.
  unfold value_of. rewrite lookup_insert_ne; [done|]. intros ->. apply Hk.
  apply list_elem_of_lookup_2 in Hx. exact (list_elem_of_fmap_2 fst _ _ Hx).
Qed.

(** What the routes take. *)
Lemma updates_routed {X} (f : X → K) (g : X → U) (l : list X) :
  let msgs := (λ x, (f x, MUpdate (g x) : msg)) <$> l in
  route_updates msgs = msgs ∧ route_outputs msgs = [] ∧
  delta_updates msgs = Done ((λ x, (f x, g x)) <$> l).
Proof.
  intros msgs. unfold route_updates, route_outputs in *.
  induction l as [|x l (IH1 & IH2 & IH3)]; [done|]. cbn in *. by rewrite IH1, IH2, IH3.
Qed.
Lemma outputs_routed {X} (f : X → K) (g : X → O) (l : list X) :
  let msgs := (λ x, (f x, MOutput (g x) : msg)) <$> l in
  route_updates msgs = [] ∧ route_outputs msgs = msgs.
Proof.
  intros msgs. unfold route_updates, route_outputs in *.
  induction l as [|x l (IH1 & IH2)]; [done|]. cbn in *. by rewrite IH1, IH2.
Qed.

(** ** The replicas as parts of one map *)

(** The replica [home k] holds the value of [k]. *)
Definition parts (vs : gmap K In) (maps : list (gmap K In)) : Prop :=
  length maps = n ∧ ∀ r m, maps !! r = Some m → ∀ k, home k = r → m !! k = vs !! k.

Lemma placed_part {X} (ls : list (list (K * X))) r l :
  placed home n ls → ls !! r = Some l → NoDup l.*1 ∧ ∀ x, x ∈ l → home x.1 = r.
Proof.
  intros (_ & Hnd & Hh) Hr. split; [|by apply Forall_forall, Hh].
  rewrite (concat_middle _ _ _ Hr), !fmap_app in Hnd. apply NoDup_app in Hnd as (_ & _ & Hnd).
  by apply NoDup_app in Hnd as (? & _).
Qed.
Lemma placed_fmap {X Y} (f : K * X → K * Y) (ls : list (list (K * X))) :
  (∀ x, (f x).1 = x.1) → placed home n ls → placed home n (lmap f <$> ls).
Proof.
  intros Hf (Hl & Hnd & Hh). split_and!; [by rewrite length_fmap| |].
  - rewrite concat_fmap_lists, <-list_fmap_compose.
    assert (fst ∘ f <$> concat ls = (concat ls).*1) as ->; [|done].
    apply list_fmap_ext. intros i x _. apply Hf.
  - intros r l. rewrite list_lookup_fmap. intros (l' & Hr & ->)%fmap_Some. apply Forall_fmap.
    eapply Forall_impl; [by apply Hh|]. intros x Hx. cbn. by rewrite Hf.
Qed.
Lemma placed_lookup {X} (ls : list (list (K * X))) r l k :
  placed home n ls → ls !! r = Some l → home k = r →
  (list_to_map (concat ls) : gmap K X) !! k = (list_to_map l : gmap K X) !! k.
Proof.
  intros (_ & _ & Hh) Hr Hk. rewrite (concat_middle _ _ _ Hr), !list_to_map_app.
  assert (∀ ls', (∀ l', l' ∈ ls' → ∃ r', r' ≠ r ∧ ls !! r' = Some l') →
    (list_to_map (concat ls') : gmap K X) !! k = None) as Hnone.
  { intros ls' Hls. apply not_elem_of_list_to_map_1. intros (x & -> & Hx)%list_elem_of_fmap.
    apply list_elem_of_In, in_concat in Hx as (l' & Hl' & Hx). apply list_elem_of_In in Hl', Hx.
    destruct (Hls _ Hl') as (r' & Hne & Hr'). specialize (Hh _ _ Hr').
    rewrite Forall_forall in Hh. specialize (Hh _ Hx). cbn in Hh. congruence. }
  rewrite lookup_union_r.
  - rewrite lookup_union_l; [done|]. apply Hnone. intros l' (i & Hi)%list_elem_of_lookup_1.
    rewrite lookup_drop in Hi. exists (S r + i). split; [lia|done].
  - apply Hnone. intros l' (i & Hi)%list_elem_of_lookup_1.
    apply lookup_take_Some in Hi as [Hi ?]. exists i. split; [lia|done].
Qed.

Abbreviation absorbed vs := (λ x y, y.1 = x.1 ∧ absorb x.1 (value_of default_in vs x.1) x.2 = Some y.2).
Abbreviation updated := (λ y : K * In, (y.1, MUpdate (make_update y.1 y.2).1 : msg)).
Abbreviation kept := (λ y : K * In, (y.1, (make_update y.1 y.2).2)).
Abbreviation output vs := (λ x : K * _, (x.1, MOutput (make_output x.1 (value_of default_in vs x.1)) : msg)).

Lemma delta_maps_run state : ∀ contents newss maps,
  running state → length contents = length maps → length contents = length newss →
  (∀ r c news m, contents !! r = Some c → newss !! r = Some news → maps !! r = Some m →
    NoDup c.*1 ∧ Forall2 (absorbed m) c news) →
  dmaps state contents maps =
    Done (lmap updated <$> newss, zip_with (λ news m, list_to_map (kept <$> news) ∪ m) newss maps).
Proof.
  induction contents as [|c contents IH]; intros [|news newss] [|m maps] Hs Hl1 Hl2 Hp; try done.
  cbn [delta_maps]. destruct (Hp 0 c news m eq_refl eq_refl eq_refl) as [Hnd Hf].
  rewrite (delta_map_run state c news m Hs Hnd Hf). cbn [mbind outcome_bind].
  rewrite (IH newss maps Hs); [done|cbn in *; lia..|]. intros r. apply (Hp (S r)).
Qed.
Lemma delta_maps_stop state vs : ∀ contents maps,
  stopping state → length contents = length maps →
  (∀ r c m, contents !! r = Some c → maps !! r = Some m →
    NoDup c.*1 ∧ ∀ x, x ∈ c → value_of default_in m x.1 = value_of default_in vs x.1) →
  ∃ maps', dmaps state contents maps = Done (lmap (output vs) <$> contents, maps').
Proof.
  induction contents as [|c contents IH]; intros [|m maps] Hs Hl Hp; [by eexists|done..|].
  cbn [delta_maps]. destruct (Hp 0 c m eq_refl eq_refl) as [Hnd Hv].
  destruct (delta_map_stop state c m Hs Hnd) as [m' ->]. cbn [mbind outcome_bind].
  destruct (IH maps Hs) as [maps' ->]; [cbn in *; lia|intros r; apply (Hp (S r))|].
  exists (m' :: maps'). csimpl. f_equal. f_equal. f_equal. apply list_fmap_ext. intros i x Hx.
  do 3 f_equal. apply Hv. by eapply list_elem_of_lookup_2.
Qed.
Lemma delta_maps_nils state : ∀ k maps,
  length maps = k → dmaps state (replicate k []) maps = Done (replicate k [], maps).
Proof.
  induction k as [|k IH]; intros [|m maps] Hl; try done. cbn in *. rewrite IH by lia. done.
Qed.

(** The values of a part are those of the whole for the keys it receives. *)
Lemma parts_value vs maps (contents : list (list (K * msg))) r c m x :
  parts vs maps → placed home n contents → contents !! r = Some c → maps !! r = Some m →
  x ∈ c → value_of default_in m x.1 = value_of default_in vs x.1.
Proof.
  intros [_ Hm] Hc Hr Hmr Hx. unfold value_of. f_equal. apply (Hm r m Hmr).
  by apply (placed_part contents r c Hc Hr).
Qed.
Lemma absorbed_ext vs vs' (c : list (K * msg)) news :
  (∀ x, x ∈ c → value_of default_in vs x.1 = value_of default_in vs' x.1) →
  Forall2 (absorbed vs) c news → Forall2 (absorbed vs') c news.
Proof.
  intros He Hf. induction Hf as [|x y c news [E Ha] Hf IH]; constructor.
  - split; [done|]. by rewrite <-He by left.
  - apply IH. intros z Hz. apply He. by right.
Qed.
Lemma absorbed_keys vs (c : list (K * msg)) news : Forall2 (absorbed vs) c news → news.*1 = c.*1.
Proof. induction 1 as [|x y c news [E _] _ IH]; [done|]. csimpl. by rewrite E, IH. Qed.
Lemma absorbed_placed vs contents newss :
  placed home n contents → Forall2 (Forall2 (absorbed vs)) contents newss → placed home n newss.
Proof.
  intros (Hl & Hnd & Hh) Hf. split_and!.
  - by rewrite <-(Forall2_length _ _ _ Hf).
  - assert ((concat newss).*1 = (concat contents).*1) as ->; [|done]. clear -Hf.
    induction Hf as [|c news cs nss Hc _ IH]; [done|]. csimpl.
    by rewrite !fmap_app, IH, (absorbed_keys _ _ _ Hc).
  - intros r news Hr. destruct (Forall2_lookup_r _ _ _ _ _ Hf Hr) as (c & Hc & Hcn).
    specialize (Hh r c Hc). apply absorbed_keys in Hcn.
    change (Forall ((λ k, home k = r) ∘ fst) news). rewrite <-Forall_fmap, Hcn. by apply Forall_fmap.
Qed.

Lemma parts_round vs maps newss :
  parts vs maps → placed home n newss →
  parts (list_to_map (kept <$> concat newss) ∪ vs)
    (zip_with (λ news m, list_to_map (kept <$> news) ∪ m) newss maps).
Proof.
  intros [Hl Hm] Hp. pose proof Hp as (Hln & _ & _). split.
  { rewrite length_zip_with. lia. }
  intros r m' Hr k Hk. apply lookup_zip_with_Some in Hr as (news & m & -> & Hnews & Hmr).
  specialize (Hm r m Hmr k Hk).
  assert ((list_to_map (kept <$> concat newss) : gmap K In) !! k = (list_to_map (kept <$> news) : gmap K In) !! k)
    as E.
  { rewrite <-concat_fmap_lists. apply (placed_lookup _ r); [by apply placed_fmap| |done].
    by rewrite list_lookup_fmap, Hnews. }
  rewrite !lookup_union, E, Hm. done.
Qed.

(** ** One iteration *)
Lemma zip_deltas (dss : list (list (K * D))) :
  length dss = n →
  zip_with (λ ds os, (prod_map id MDelta <$> ds) ++ os) dss (first_replica n ([] : list (K * msg))) =
  lmap (prod_map id MDelta) <$> dss.
Proof.
  intros Hl. rewrite first_replica_nil by done. clear -Hl. revert dss Hl.
  induction n as [|k IH]; intros [|ds dss] Hl; try done. csimpl. rewrite IH by (cbn in Hl; lia).
  by rewrite app_nil_r.
Qed.
Lemma zip_outputs (os : list (K * msg)) :
  zip_with (λ ds os, (prod_map id MDelta <$> ds) ++ os)
    (replicate n ([] : list (K * D))) (first_replica n os) = first_replica n os.
Proof.
  destruct n as [|k]; [lia|]. unfold first_replica. csimpl. rewrite Nat.sub_0_r. f_equal.
  clear. induction k as [|k IH]; [done|]. csimpl. by rewrite IH.
Qed.
Lemma body_nil : body (first_replica n []) = replicate n [].
Proof.
  destruct (Hbody []) as [(Hl & _) Hs]; [constructor|].
  rewrite <-Hl at 2. apply concat_nils. destruct (concat _) as [|x l]; [done|].
  specialize (Hs x.1 ltac:(left)). by apply elem_of_nil in Hs.
Qed.
Lemma round_placed i vs newss : placed home n newss → placed home n (dround i vs newss).2.
Proof.
  intros (Hl & Hnd & _). unfold delta_round. cbn [snd]. rewrite Hl. apply Hbody.
  rewrite interleave_perm, concat_fmap_lists, <-list_fmap_compose.
  by assert (fst ∘ (λ x : K * In, (x.1, (make_update x.1 x.2).1)) <$> concat newss = (concat newss).*1)
    as -> by by apply list_fmap_ext.
Qed.

Lemma delta_body_run state contents newss maps vs :
  running state → placed home n contents → parts vs maps →
  Forall2 (Forall2 (absorbed vs)) contents newss →
  ∃ maps', dbody state contents maps =
      Done (lmap (prod_map id MDelta) <$> (dround (tc_iter state) vs newss).2, maps') ∧
    parts (dround (tc_iter state) vs newss).1 maps'.
Proof.
  intros Hs Hc Hm Hf. pose proof (absorbed_placed _ _ _ Hc Hf) as Hp.
  pose proof Hc as (Hlc & _). pose proof Hp as (Hln & _). pose proof Hm as [Hlm _].
  eexists. split; [|by apply parts_round]. unfold delta_body.
  rewrite (delta_maps_run state contents newss maps); [|done|lia|lia|]; cycle 1.
  { intros r c news m Hr1 Hr2 Hr3. split; [by apply (placed_part contents r c Hc Hr1)|].
    apply (absorbed_ext vs); [|by eapply Forall2_lookup_lr]. intros x Hx. symmetry.
    by apply (parts_value vs maps contents r c m). }
  cbn [mbind outcome_bind]. rewrite Hlc.
  assert (route_updates <$> (lmap updated <$> newss) = lmap updated <$> newss) as ->.
  { rewrite <-list_fmap_compose. apply list_fmap_ext. intros i l _. apply (updates_routed fst). }
  assert (route_outputs <$> (lmap updated <$> newss) = (λ _, []) <$> newss) as ->.
  { rewrite <-list_fmap_compose. apply list_fmap_ext. intros i l _. apply (updates_routed fst). }
  rewrite interleave_fmap.
  destruct (updates_routed fst (λ y : K * In, (make_update y.1 y.2).1) (interleave (order (tc_iter state)) newss))
    as (_ & _ & ->).
  cbn [mbind outcome_bind]. rewrite (interleave_nils _ ((λ _, []) <$> newss))
    by (clear; by induction newss). rewrite zip_deltas.
  - do 2 f_equal. unfold delta_round. cbn [snd]. by rewrite interleave_fmap, Hln.
  - destruct (round_placed (tc_iter state) vs newss Hp) as [Hl _]. unfold delta_round in Hl. cbn [snd] in Hl.
    by rewrite interleave_fmap, Hln in Hl.
Qed.
Lemma delta_body_stop state contents maps vs :
  stopping state → placed home n contents → parts vs maps →
  ∃ maps', dbody state contents maps =
    Done (first_replica n (interleave (order (tc_iter state)) (lmap (output vs) <$> contents)), maps').
Proof.
  intros Hs Hc Hm. pose proof Hc as (Hlc & _). pose proof Hm as [Hlm _].
  destruct (delta_maps_stop state vs contents maps Hs) as [maps' E]; [lia| |].
  { intros r c m Hr1 Hr2. split; [by apply (placed_part contents r c Hc Hr1)|].
    intros x Hx. by apply (parts_value vs maps contents r c m). }
  exists maps'. unfold delta_body. rewrite E. cbn [mbind outcome_bind].
  assert (route_updates <$> (lmap (output vs) <$> contents) = (λ _, []) <$> contents) as ->.
  { rewrite <-list_fmap_compose. apply list_fmap_ext. intros i l _. apply (outputs_routed fst). }
  assert (route_outputs <$> (lmap (output vs) <$> contents) = lmap (output vs) <$> contents) as ->.
  { rewrite <-list_fmap_compose. apply list_fmap_ext. intros i l _. apply (outputs_routed fst). }
  rewrite (interleave_nils _ ((λ _, []) <$> contents)) by (clear; by induction contents).
  cbn [delta_updates mbind outcome_bind]. by rewrite Hlc, body_nil, zip_outputs.
Qed.

(** The folds of the deltas. *)
Lemma delta_folds_deltas c ds :
  last_iteration c = false →
  dfolds c (prod_map id MDelta <$> ds) =
    Done (mkTerminationCond (something_changed c || existsb (λ x, condition x.2) ds) false (tc_iter c)).
Proof.
  revert c. induction ds as [|[k d] ds IH]; intros [ch la it] Hl; cbn in Hl; subst.
  - cbn. by rewrite orb_false_r.
  - csimpl. unfold delta_local_fold. cbn. destruct (condition d); cbn; rewrite IH by done; cbn; [by rewrite orb_true_r|done].
Qed.
Lemma delta_folds_outputs {X} c (f : X → K) (g : X → O) (l : list X) :
  dfolds c ((λ x, (f x, MOutput (g x))) <$> l) =
    Done (mkTerminationCond (something_changed c) (last_iteration c || negb (bool_decide (l = []))) (tc_iter c)).
Proof.
  revert c. induction l as [|x l IH]; intros c.
  - cbn. rewrite orb_false_r. by destruct c.
  - csimpl. rewrite IH. cbn. by rewrite orb_true_r.
Qed.
Lemma delta_globals picks state deltas :
  foldl delta_global_fold state (interleave picks ((λ d, [d]) <$> deltas)) =
  mkTerminationCond (something_changed state || existsb something_changed deltas)
    (last_iteration state || existsb last_iteration deltas) (tc_iter state).
Proof.
  assert (interleave picks ((λ d, [d]) <$> deltas) ≡ₚ deltas) as Hp.
  { rewrite interleave_perm. clear. induction deltas as [|d ds IH]; [done|]. csimpl. by rewrite IH. }
  rewrite <-(existsb_perm something_changed _ _ Hp), <-(existsb_perm last_iteration _ _ Hp).
  generalize (interleave picks ((λ d, [d]) <$> deltas)). clear. intros l. revert state.
  induction l as [|d l IH]; intros [a b c]; cbn; [by rewrite !orb_false_r|].
  rewrite IH. cbn. by rewrite !orb_assoc.
Qed.

(** ** The iterations *)

(** Nothing comes of nothing. *)
Lemma delta_loop_nil more : ∀ state maps,
  length maps = n → dloop more state (replicate n []) maps = Done (replicate n []).
Proof.
  assert (∀ state maps, length maps = n →
    dbody state (replicate n []) maps = Done (replicate n [], maps)) as Hb.
  { intros state maps Hl. unfold delta_body. rewrite delta_maps_nils by done. cbn [mbind outcome_bind].
    rewrite !fmap_replicate. cbn. rewrite !interleave_nils by apply replicate_concat.
    cbn [delta_updates mbind outcome_bind]. rewrite length_replicate, body_nil, zip_outputs.
    by rewrite first_replica_nil. }
  induction more as [|more IH]; intros state maps Hl; cbn [delta_loop]; rewrite Hb by done;
    cbn [mbind outcome_bind];
    (rewrite (outcome_mapM_done _ (λ _, TerminationCond_default))
       by (by intros l [-> _]%elem_of_replicate)); cbn [mbind outcome_bind]; rewrite delta_globals.
  - by destruct (delta_condition _).
  - destruct (delta_condition _) as [[] ?]; [by apply IH|done].
Qed.

Lemma delta_loop_stop more state contents maps vs :
  stopping state → placed home n contents → parts vs maps →
  dloop more state contents maps =
    Done (first_replica n (interleave (order (tc_iter state)) (lmap (output vs) <$> contents))).
Proof.
  intros Hs Hc Hm. pose proof Hc as (Hlc & _). destruct (decide (concat contents = [])) as [E|Hne].
  { rewrite interleave_nils by by rewrite concat_fmap_lists, E.
    rewrite (concat_nils _ E), Hlc, first_replica_nil by done. apply delta_loop_nil, Hm. }
  destruct (delta_body_stop state contents maps vs Hs Hc Hm) as [maps' Eb].
  assert (∃ b, outcome_mapM (dfolds TerminationCond_default)
    (first_replica n (interleave (order (tc_iter state)) (lmap (output vs) <$> contents))) = Done b ∧
    existsb last_iteration b = true) as (b & Ef & Hb).
  { rewrite interleave_fmap. unfold first_replica. cbn [outcome_mapM].
    rewrite (delta_folds_outputs _ fst). cbn [mbind outcome_bind].
    rewrite (outcome_mapM_done _ (λ _, TerminationCond_default))
      by (by intros l [-> _]%elem_of_replicate).
    cbn [mbind outcome_bind]. eexists. split; [done|]. cbn. rewrite bool_decide_false; [done|].
    intros E. apply Hne. apply Permutation_nil. by rewrite <-(interleave_perm (order (tc_iter state))), E. }
  destruct more; cbn [delta_loop]; rewrite Eb; cbn [mbind outcome_bind]; rewrite Ef;
    cbn [mbind outcome_bind]; rewrite delta_globals, Hb, orb_true_r; done.
Qed.

(** After a round the loop goes on, and remembers whether something changed. *)
Lemma delta_loop_round more i contents newss maps vs :
  i ≠ num_iterations - 2 → placed home n contents → parts vs maps →
  Forall2 (Forall2 (absorbed vs)) contents newss →
  ∃ maps', dloop (S more) (mkTerminationCond false false i) contents maps =
      dloop more (mkTerminationCond false
          (negb (existsb (λ x, condition x.2) (concat (dround i vs newss).2))) (i + 1))
        (lmap (prod_map id MDelta) <$> (dround i vs newss).2) maps' ∧
    parts (dround i vs newss).1 maps'.
Proof.
  intros Hi Hc Hm Hf.
  destruct (delta_body_run (mkTerminationCond false false i) contents newss maps vs) as (maps' & E & Hm');
    [done..|]. cbn [tc_iter] in E, Hm'. exists maps'. split; [|done].
  cbn [delta_loop]. rewrite E. cbn [mbind outcome_bind].
  set (dss := (dround i vs newss).2).
  assert (outcome_mapM (dfolds TerminationCond_default) (lmap (prod_map id MDelta) <$> dss) =
    Done ((λ ds, mkTerminationCond (existsb (λ x, condition x.2) ds) false 0) <$> dss)) as ->.
  { clear. induction dss as [|ds dss IH]; [done|]. csimpl. rewrite delta_folds_deltas by done.
    cbn in *. by rewrite IH. }
  cbn [mbind outcome_bind]. rewrite delta_globals.
  assert (existsb something_changed
      ((λ ds, mkTerminationCond (existsb (λ x, condition x.2) ds) false 0) <$> dss) =
    existsb (λ x, condition x.2) (concat dss)) as ->.
  { rewrite <-existsb_concat. clear. induction dss as [|ds dss IH]; [done|]. csimpl. by rewrite IH. }
  assert (existsb last_iteration
      ((λ ds, mkTerminationCond (existsb (λ x, condition x.2) ds) false 0) <$> dss) = false) as ->.
  { clear. by induction dss. }
  cbn. by destruct (existsb (λ x, condition x.2) (concat dss)).
Qed.

Abbreviation rounds_of := (delta_rounds default_in process_delta make_update make_output condition body order).
Lemma delta_loop_run r : ∀ i vs dss maps,
  i + r = num_iterations - 2 → placed home n dss → parts vs maps →
  dloop (S r) (mkTerminationCond false (negb (existsb (λ x, condition x.2) (concat dss))) i)
      (lmap (prod_map id MDelta) <$> dss) maps =
    Done (lmap (prod_map id MOutput) <$> rounds_of r i vs dss).
Proof.
  induction r as [|r IH]; intros i vs dss maps Hi Hp Hm.
  all: assert (placed home n (lmap (prod_map id (@MDelta In U D O)) <$> dss)) as Hp'
    by (apply placed_fmap; [by intros []|done]).
  all: assert (∀ more b, stopping (mkTerminationCond false b i) →
      dloop more (mkTerminationCond false b i) (lmap (prod_map id MDelta) <$> dss) maps =
      Done (lmap (prod_map id MOutput) <$> delta_results default_in make_output order i vs dss)) as Hstop.
  1,3: intros more b Hs; rewrite (delta_loop_stop more _ _ maps vs Hs Hp' Hm); f_equal;
    unfold delta_results; rewrite first_replica_fmap, <-!interleave_fmap; cbn [tc_iter];
    destruct Hp as (-> & _); do 2 f_equal; rewrite <-!list_fmap_compose; apply list_fmap_ext; intros ? l _;
    cbn; rewrite <-!list_fmap_compose; apply list_fmap_ext; by intros ? [].
  - apply Hstop. right. cbn. lia.
  - cbn [delta_rounds]. destruct (existsb (λ x, condition x.2) (concat dss)) eqn:Ee; [|apply Hstop; by left].
    set (newss := lmap (λ x, (x.1, process_delta x.1 (value_of default_in vs x.1) x.2)) <$> dss).
    destruct (delta_loop_round (S r) i _ newss maps vs ltac:(lia) Hp' Hm) as (maps' & E & Hm').
    { unfold newss. clear. induction dss as [|ds dss IH]; constructor; [|exact IH].
      clear. induction ds as [|[k d] ds IH]; constructor; [by split|exact IH]. }
    cbn [negb]. rewrite E. pose proof (round_placed i vs newss) as Hpr.
    destruct (dround i vs newss) as [vs' dss']. apply IH; [lia| |done]. apply Hpr.
    unfold newss. by apply placed_fmap.
Qed.

Lemma delta_outputs_all (l : list (K * O)) :
  delta_outputs (prod_map id (@MOutput In U D O) <$> l) = Done l.
Proof. induction l as [|[k o] l IH]; [done|]. cbn in *. by rewrite IH. Qed.
Lemma delta_outputs_replicas (ls : list (list (K * O))) :
  outcome_mapM delta_outputs (lmap (prod_map id (@MOutput In U D O)) <$> ls) = Done ls.
Proof.
  induction ls as [|l ls IH]; [done|]. csimpl. rewrite delta_outputs_all. cbn in *. by rewrite IH.
Qed.
Lemma parts_empty k : k = n → parts ∅ (replicate k ∅).
Proof.
  intros ->. split; [by rewrite length_replicate|]. intros r m [-> _]%lookup_replicate k _. done.
Qed.
End proofs.

(** C25. [delta_iterate] with two iterations or more, on any number of replicas.  The input has
    each key once, on the replica [home] of the key; the body, which receives the updates on its
    first replica, gives back at most one delta for a key it was asked about, on the replica that
    holds the value of the key (with one replica this is no condition).  Then the loop of messages,
    routes and closures, with a map of values per replica, computes rounds over one map for all of
    them; it ends after at most [num_iterations - 3] rounds beyond the first or when no delta of a
    round satisfies the condition, and gives one result for every key with a delta in the last
    round, from the value before that delta, all on the first replica; with two iterations the
    input is not looked at and the results are those of the default value.  The elements of
    different replicas may arrive in any order. *)
Theorem delta_iterate_run {K In U D O} `{Countable K} num_iterations (default_in : In)
    (process_delta : K → In → D → In) (make_update : K → In → U * In) (make_output : K → In → O)
    (condition : D → bool) (body : list (list (K * U)) → list (list (K * D))) (order : nat → list nat)
    (home : K → nat) (inputs : list (list (K * In))) :
  2 ≤ num_iterations → 0 < length inputs → placed home (length inputs) inputs →
  (∀ us, NoDup us.*1 → placed home (length inputs) (body (first_replica (length inputs) us)) ∧
    (concat (body (first_replica (length inputs) us))).*1 ⊆ us.*1) →
  delta_iterate num_iterations default_in process_delta make_update make_output condition body order inputs =
    Done (delta_spec default_in process_delta make_update make_output condition body order num_iterations inputs).
Proof.
  intros Hn Hpos Hp Hbody. unfold delta_iterate, TerminationCond_default.
  assert (placed home (length inputs) (lmap (prod_map id (@MInit In U D O)) <$> inputs)) as Hp'
    by (apply (placed_fmap home); [by intros []|done]).
  pose proof (parts_empty (In := In) home (length inputs) _ eq_refl) as Hm.
  destruct num_iterations as [|[|[|k]]]; [lia|lia|..].
  - rewrite (delta_loop_stop 2 default_in process_delta make_update make_output condition body order Hn home
      (length inputs) Hpos Hbody _ _ _ _ ∅) by (done || by right). cbn [mbind outcome_bind delta_spec tc_iter].
    etransitivity; [|apply (delta_outputs_replicas (In := In) (U := U) (D := D))].
    rewrite first_replica_fmap, <-interleave_fmap. do 3 f_equal. rewrite <-!list_fmap_compose.
    apply list_fmap_ext. intros i l _. cbn. rewrite <-!list_fmap_compose. apply list_fmap_ext. by intros ? [].
  - destruct (delta_loop_round (S (S (S k))) default_in process_delta make_update make_output condition body order
      Hn home (length inputs) Hpos Hbody (S k) 0 _ inputs _ ∅ ltac:(lia) Hp' Hm) as (maps' & E & Hm').
    { clear. induction inputs as [|l ls IH]; constructor; [|exact IH].
      clear. induction l as [|[k v] l IH]; constructor; [by split|exact IH]. }
    cbn [Nat.sub]. rewrite E. cbn [delta_spec Nat.sub].
    pose proof (round_placed make_update body order home (length inputs) Hbody 0 ∅ inputs Hp) as Hpr.
    destruct (delta_round make_update body order 0 ∅ inputs) as [vs dss]. cbn [fst snd] in *.
    rewrite (delta_loop_run (S (S (S k))) default_in process_delta make_update make_output condition body order
      Hn home (length inputs) Hpos Hbody k (0 + 1) vs dss maps') by (done || lia).
    cbn [mbind outcome_bind]. rewrite (delta_outputs_replicas (In := In) (U := U) (D := D)). by rewrite ?Nat.sub_0_r.
Qed.

(** With one iteration, or none, the difference [num_iterations - 2] underflows: in a build with
    overflow checks the first element of the input makes the job panic. *)
Lemma delta_iterate_underflow {K In U D O} `{Countable K} num_iterations (default_in : In)
    (process_delta : K → In → D → In) (make_update : K → In → U * In) (make_output : K → In → O)
    (condition : D → bool) (body : list (list (K * U)) → list (list (K * D))) order x input inputs :
  num_iterations < 2 →
  delta_iterate num_iterations default_in process_delta make_update make_output condition body order
    ((x :: input) :: inputs) = Panicked.
Proof.
  intros Hn. destruct x as [k v]. destruct num_iterations as [|[|m]]; [..|lia]; unfold delta_iterate; by cbn.
Qed.

(** Values counted down by their own key for some rounds, on two replicas: the even keys live on
    the first, the odd keys on the second. *)
Module DeltaExample.
Definition count_down (n : nat) (body : list (list (nat * nat)) → list (list (nat * nat)))
    (inputs : list (list (nat * nat))) : outcome (list (list (nat * nat))) :=
  delta_iterate n 0 (λ _ v d, v - d) (λ k v, (k, v)) (λ _ v, v) (λ d, 0 <? d) body (λ _, [1; 0]) inputs.
Definition home (k : nat) : nat := k mod 2.
Definition inputs : list (list (nat * nat)) := [[(2, 20)]; [(1, 10); (3, 3)]].
(** A body that ends with a shuffle by key. *)
Definition shuffled (us : list (list (nat * nat))) : list (list (nat * nat)) :=
  [List.filter (λ x, home x.1 =? 0) (concat us); List.filter (λ x, home x.1 =? 1) (concat us)].

Lemma shuffled_perm (l : list (nat * nat)) :
  List.filter (λ x, home x.1 =? 0) l ++ List.filter (λ x, home x.1 =? 1) l ≡ₚ l.
Proof.
  induction l as [|x l IH]; [done|]. cbn [List.filter].
  assert (home x.1 < 2) as Hx by (by apply Nat.mod_upper_bound).
  destruct (home x.1) as [|[|h]]; cbn [Nat.eqb app]; [by rewrite IH| |lia].
  by rewrite <-Permutation_middle, IH.
Qed.
Lemma shuffled_placed us :
  NoDup us.*1 → placed home 2 (shuffled (first_replica 2 us)) ∧ (concat (shuffled (first_replica 2 us))).*1 ⊆ us.*1.
Proof.
  intros Hnd. unfold shuffled, first_replica. cbn. rewrite !app_nil_r.
  pose proof (shuffled_perm us) as Hp. split; [|by rewrite Hp]. split_and!; [done| |].
  - cbn. by rewrite app_nil_r, Hp.
  - intros [|[|r]] l; cbn; [intros [= <-]|intros [= <-]|done]; apply Forall_forall; intros x;
      rewrite list_elem_of_In, filter_In; by intros [_ ?%Nat.eqb_eq].
Qed.

Lemma delta_iterate_run_witness :
  count_down 5 shuffled inputs = Done [[(1, 8); (2, 16); (3, 0)]; []] ∧
  count_down 2 shuffled inputs = Done [[(1, 0); (2, 0); (3, 0)]; []].
Proof.
  unfold count_down. split; rewrite (delta_iterate_run _ _ _ _ _ _ _ _ home);
    first [by vm_compute|lia|cbn; lia|apply shuffled_placed|
      split_and!; [done|apply (bool_decide_unpack _); by vm_compute|
        intros [|[|r]] l; cbn; intros ?; simplify_eq; by repeat constructor]].
Defined.

(** The same input with a body that leaves the deltas where the route put the updates: from the
    second round on the keys of the second replica meet the default value. *)
Example misplaced :
  count_down 5 id inputs = Done [[(1, 0); (2, 16); (3, 0)]; []].
Proof. by vm_compute. Qed.
End DeltaExample.
