(* ===== verification/Scan.v ===== *)
(** * Scans: two passes over the items

    [fold_scan] and [reduce_scan] of [Stream] and of [KeyedStream] ([src/src/operator/mod.rs]): a loop of two
    iterations, in the first of which the replicas fold their items and the leader folds the results, and
    in the second of which every item is mapped with what came out.  As in [DeltaIterate.v] the content of an
    iteration is what the body gave in the one before ([Iterate.v]) and the leader is that of [Iteration.v];
    here the replicas are apart, because nothing in the body moves items between them, and their deltas arrive
    at the leader in any order. *)
From S2P Require Import Prelude StreamElement Operator IterationLock Iteration.

(** A function that may panic, on each element in turn. *)
Fixpoint traverse {A B} (f : A → outcome B) (l : list A) : outcome (list B) :=
  match l with
  | [] => Done []
  | x :: l => y ← f x; ys ← traverse f l; Done (y :: ys)
  end.
Lemma traverse_Done {A B} (f : A → outcome B) (g : A → B) (l : list A) :
  (∀ x, x ∈ l → f x = Done (g x)) → traverse f l = Done (g <$> l).
Proof.
  induction l as [|x l IH]; intros Hf; [done|]. cbn. rewrite Hf by (by left). cbn.
  rewrite IH by (intros; apply Hf; by right). done.
Qed.
(** The items of each replica. *)
Definition each {A B} (f : A → B) (ls : list (list A)) : list (list B) :=
  fmap (M := list) (fmap (M := list) f) ls.
(** Two levels, the items of each replica: after a function [h] that gave the elements. *)
Lemma traverse_traverse_Done {X A B} (f : A → outcome B) (h : X → A) (g : X → B) (ls : list (list X)) :
  (∀ x, x ∈ concat ls → f (h x) = Done (g x)) → traverse (traverse f) (each h ls) = Done (each g ls).
Proof.
  induction ls as [|l ls IH]; intros Hf; [done|]. cbn.
  assert (traverse f (h <$> l) = Done (g <$> l)) as ->.
  { assert (∀ x, x ∈ l → f (h x) = Done (g x)) as Hl by (intros x Hx; apply Hf, elem_of_app; by left).
    clear IH Hf. induction l as [|x l IHl]; [done|]. cbn. rewrite Hl by (by left). cbn.
    by rewrite IHl by (intros; apply Hl; by right). }
  fold (each h ls). cbn. fold (each g ls). by rewrite IH by (intros; apply Hf, elem_of_app; by right).
Qed.

(** ** The loop *)
Section loop.
Context {A U St : Type}.
(** The body, element by element; the fold of a replica and the fold of the leader; and the order in which the
    deltas of an iteration arrive. *)
Context (body : St → A → outcome A) (local_default : U) (local_fold : U → A → U) (global_fold : St → U → St)
  (arrive : nat → list U → list U).

(** The iterations from the one with this index on, with [more] that follow; [|_| true] is the condition.  The result: what the
    body gave in the last one, for each replica. *)
Fixpoint two_pass_loop (more index : nat) (state : St) (contents : list (list A)) : outcome (list (list A)) :=
  outs ← traverse (traverse (body state)) contents;
  let deltas := arrive index (foldl local_fold local_default <$> outs) in
  let state := foldl global_fold state deltas in
  match more with
  | 0 => Done outs
  | S more => two_pass_loop more (S index) state outs
  end.
(** [iterate] with two iterations. *)
Definition iterate_two (init : St) (contents : list (list A)) : outcome (list (list A)) :=
  two_pass_loop 1 0 init contents.

(** The leader of [Iteration.v] sends the state this loop goes on with. *)
Lemma two_pass_leader init us us' :
  iteration_spec global_fold (λ st, (true, st)) init 2 0 init [us; us'] =
    Some ([(Continue, foldl global_fold init us); (Finished, init)],
          foldl global_fold (foldl global_fold init us) us').
Proof. done. Qed.
End loop.

Inductive TwoPass (I O : Type) :=
| First (i : I)
| Second (i : I)
| Output (o : O).
Global Arguments First {_ _} _.
Global Arguments Second {_ _} _.
Global Arguments Output {_ _} _.

(** ** [Stream::fold_scan] *)
Section fold_scan.
Context {I O SL SG : Type} (local_default : SL).
Context (local_fold : SL → I → SL) (global_fold : SG → SL → SG) (global_init : SG) (map : I → SG → O).
Context (arrive : nat → list SL → list SL).

Definition scan_body (state : option SG) (el : TwoPass I O) : outcome (TwoPass I O) :=
  match el with
  | First el => Done (Second el)
  | Second el => st ← unwrap state; Done (Output (map el st))
  | Output _ => Panicked
  end.
Definition scan_local (local : SL) (el : TwoPass I O) : SL :=
  match el with Second el => local_fold local el | _ => local end.
Definition scan_global (global : option SG) (local : SL) : option SG :=
  Some (global_fold (default global_init global) local).
Definition scan_output (t : TwoPass I O) : outcome O :=
  match t with Output o => Done o | _ => Panicked end.

(** The items of each replica, before and after. *)
Definition fold_scan (input : list (list I)) : outcome (list (list O)) :=
  outs ← iterate_two scan_body local_default scan_local scan_global arrive None (each First input);
  traverse (traverse scan_output) outs.

(** What the second pass maps the items with. *)
Definition scan_state (input : list (list I)) : SG :=
  foldl global_fold global_init (arrive 0 (foldl local_fold local_default <$> input)).

Lemma scan_global_all g us : foldl scan_global (Some g) us = Some (foldl global_fold g us).
Proof. revert g. induction us as [|u us IH]; intros g; [done|]. apply IH. Qed.
Lemma scan_local_second l items : foldl scan_local l (Second <$> items) = foldl local_fold l items.
Proof. revert l. induction items as [|x items IH]; intros l; [done|]. apply IH. Qed.

Lemma fold_scan_run input :
  (∀ i us, arrive i us ≡ₚ us) →
  fold_scan input = Done (each (λ x, map x (scan_state input)) input).
Proof.
  intros Ha. unfold fold_scan, iterate_two. cbn [two_pass_loop].
  rewrite (traverse_traverse_Done _ First Second) by done. cbn. unfold each at 1. rewrite <-list_fmap_compose.
  rewrite (list_fmap_ext _ (foldl local_fold local_default)) by (intros; apply scan_local_second).
  destruct input as [|items0 rest] eqn:Ei; [done|]. rewrite <-Ei.
  assert (foldl scan_global None (arrive 0 (foldl local_fold local_default <$> input)) = Some (scan_state input)) as ->.
  { unfold scan_state. pose proof (Ha 0 (foldl local_fold local_default <$> input)) as Hp. rewrite Ei in Hp |- *.
    destruct (arrive 0 _) as [|u us]; [by apply Permutation_nil in Hp|]. cbn. apply scan_global_all. }
  rewrite (traverse_traverse_Done _ Second (λ x, Output (map x (scan_state input)))) by done. cbn.
  by rewrite (traverse_traverse_Done _ _ (λ x, map x (scan_state input))).
Qed.
End fold_scan.

(** ** [Stream::reduce_scan] *)
Section reduce_scan.
Context {I O S : Type} (first_map : I → S) (reduce : S → S → S) (second_map : I → S → O).

Definition scan_reduce_local (acc : option S) (x : I) : option S :=
  Some (match acc with Some cur => reduce cur (first_map x) | None => first_map x end).
Definition scan_reduce_global (global local : option S) : option S :=
  match global, local with
  | Some cur, Some local => Some (reduce cur local)
  | Some a, None | None, Some a => Some a
  | None, None => None
  end.
(** [state.as_ref().unwrap()] is the second unwrap of the closure given to [fold_scan]. *)
Definition reduce_scan (arrive : nat → list (option S) → list (option S)) (input : list (list I))
    : outcome (list (list O)) :=
  outs ← fold_scan None scan_reduce_local scan_reduce_global None
    (λ x state, st ← unwrap state; Done (second_map x st)) arrive input;
  traverse (traverse id) outs.

(** The values of a list, reduced. *)
Definition reduced_all (l : list S) : option S :=
  match l with [] => None | v :: vs => Some (foldl reduce v vs) end.

Context `{!Assoc (=) reduce, !Comm (=) reduce}.
#[local] Instance scan_reduce_global_assoc : Assoc (=) scan_reduce_global.
Proof. intros [a|] [b|] [c|]; cbn; f_equal. apply (assoc _). Qed.
#[local] Instance scan_reduce_global_comm : Comm (=) scan_reduce_global.
Proof. intros [a|] [b|]; cbn; f_equal. apply (comm _). Qed.
Lemma scan_reduce_global_none a : scan_reduce_global a None = a.
Proof. by destruct a. Qed.

Lemma scan_reduce_global_foldl a l : foldl scan_reduce_global a l = scan_reduce_global a (foldr scan_reduce_global None l).
Proof.
  revert a. induction l as [|b l IH]; intros a; cbn; [by rewrite scan_reduce_global_none|]. rewrite IH. symmetry. apply (assoc _).
Qed.
Lemma scan_reduce_local_foldr a items :
  foldl scan_reduce_local a items = scan_reduce_global a (foldr scan_reduce_global None (Some ∘ first_map <$> items)).
Proof.
  revert a. induction items as [|x items IH]; intros a; [by destruct a|]. cbn [foldl fmap list_fmap foldr].
  rewrite IH, (assoc scan_reduce_global). f_equal. by destruct a.
Qed.
Lemma reduce_foldr_concat (ls : list (list (option S))) :
  foldr scan_reduce_global None (foldr scan_reduce_global None <$> ls) = foldr scan_reduce_global None (concat ls).
Proof.
  induction ls as [|l ls IH]; [done|]. cbn. rewrite IH, foldr_app.
  generalize (foldr scan_reduce_global None (concat ls)). intros a. clear IH.
  induction l as [|b l IHl]; [by destruct a|]. cbn. by rewrite <-IHl, (assoc scan_reduce_global).
Qed.
Lemma reduced_all_foldr (l : list S) : foldr scan_reduce_global None (Some <$> l) = reduced_all l.
Proof.
  destruct l as [|v vs]; [done|]. cbn [fmap list_fmap foldr reduced_all].
  revert v. induction vs as [|w vs IH]; intros v; [done|]. cbn [fmap list_fmap foldr foldl].
  rewrite <-IH. apply (assoc scan_reduce_global).
Qed.

(** The state of the second pass is the reduction of all items, wherever they are. *)
Lemma reduce_scan_state arrive input :
  (∀ i us, arrive i us ≡ₚ us) →
  scan_state None scan_reduce_local scan_reduce_global None arrive input = reduced_all (first_map <$> concat input).
Proof.
  intros Ha. unfold scan_state. rewrite scan_reduce_global_foldl.
  rewrite (foldr_permutation_proper' (=) scan_reduce_global None _ _ (Ha 0 _)).
  rewrite (list_fmap_ext _ (foldr scan_reduce_global None ∘ fmap (Some ∘ first_map))).
  - rewrite list_fmap_compose, reduce_foldr_concat, <-reduced_all_foldr, <-list_fmap_compose.
    rewrite (comm scan_reduce_global), scan_reduce_global_none. f_equal. symmetry. apply List.concat_map.
  - intros i items _. cbn. by rewrite scan_reduce_local_foldr, (comm scan_reduce_global), scan_reduce_global_none.
Qed.
End reduce_scan.

(** [reduce_scan] with a reduction that is associative and commutative: whatever the order in which the replicas
    report, every item is mapped with the reduction of all the items of all the replicas, and stays where it is. *)
Theorem reduce_scan_run {I O S} (first_map : I → S) reduce (second_map : I → S → O) `{!Assoc (=) reduce, !Comm (=) reduce}
    arrive input :
  (∀ i us, arrive i us ≡ₚ us) →
  ∀ v, reduced_all reduce (first_map <$> concat input) = Some v →
  reduce_scan first_map reduce second_map arrive input = Done (each (λ x, second_map x v) input).
Proof.
  intros Ha v Hv. unfold reduce_scan. rewrite fold_scan_run by done. cbn.
  rewrite reduce_scan_state, Hv by (done || apply _).
  by rewrite (traverse_traverse_Done _ _ (λ x, second_map x v)).
Qed.

(** ** [KeyedStream::fold_scan] *)
Section keyed_fold_scan.
Context {K I O S : Type} `{Countable K} (init : S) (fold : K → S → I → S) (map : K → S → I → O).
Context (arrive : nat → list (gmap K S) → list (gmap K S)).

Definition keyed_scan_body (state : gmap K S) (x : K * TwoPass I O) : outcome (K * TwoPass I O) :=
  let '(k, el) := x in
  match el with
  | First el => Done (k, Second el)
  | Second el => st ← unwrap (state !! k); Done (k, Output (map k st el))
  | Output _ => Panicked
  end.
Definition keyed_scan_local (local : gmap K S) (x : K * TwoPass I O) : gmap K S :=
  let '(k, el) := x in
  match el with
  | Second el => <[k := fold k (default init (local !! k)) el]> local
  | _ => local
  end.
(** [global.extend(local.drain())]. *)
Definition keyed_scan_global (global local : gmap K S) : gmap K S := local ∪ global.
Definition keyed_scan_output (x : K * TwoPass I O) : outcome (K * O) :=
  match x.2 with Output o => Done (x.1, o) | _ => Panicked end.

Definition keyed_fold_scan (input : list (list (K * I))) : outcome (list (list (K * O))) :=
  outs ← iterate_two keyed_scan_body ∅ keyed_scan_local keyed_scan_global arrive ∅ (each (prod_map id First) input);
  traverse (traverse keyed_scan_output) outs.

(** The values of a key, in order, and what they fold to. *)
Definition values_at (k : K) (items : list (K * I)) : list I :=
  omap (λ x, if decide (x.1 = k) then Some x.2 else None) items.
Definition key_fold (k : K) (items : list (K * I)) : S := foldl (fold k) init (values_at k items).

Lemma keyed_local_lookup k (m : gmap K S) items :
  foldl keyed_scan_local m (prod_map id Second <$> items) !! k =
    match values_at k items with [] => m !! k | vs => Some (foldl (fold k) (default init (m !! k)) vs) end.
Proof.
  revert m. induction items as [|[k' x] items IH]; intros m; [done|]. cbn [fmap list_fmap foldl]. rewrite IH.
  unfold values_at. cbn. case_decide as E.
  - subst k'. cbn. rewrite lookup_insert_eq. cbn. destruct (omap _ items); done.
  - by rewrite lookup_insert_ne.
Qed.
Lemma keyed_local_key k x items :
  (k, x) ∈ items → foldl keyed_scan_local ∅ (prod_map id Second <$> items) !! k = Some (key_fold k items).
Proof.
  intros Hx. rewrite keyed_local_lookup. unfold key_fold. rewrite lookup_empty. destruct (values_at k items) eqn:E; [|done].
  exfalso. apply (not_elem_of_nil x). rewrite <-E. apply list_elem_of_omap. exists (k, x). cbn. by rewrite decide_True.
Qed.
Lemma keyed_local_no_key k items :
  k ∉ items.*1 → foldl keyed_scan_local ∅ (prod_map id Second <$> items) !! k = None.
Proof.
  intros Hk. rewrite keyed_local_lookup. destruct (values_at k items) as [|y vs] eqn:E; [apply lookup_empty|].
  exfalso. assert (y ∈ values_at k items) as Hy by (rewrite E; by left).
  apply list_elem_of_omap in Hy as ([k' x'] & Hx & Ey). cbn in Ey. case_decide; [|done]. subst k'.
  apply Hk, list_elem_of_fmap. by exists (k, x').
Qed.

(** A key that only one of the maps has keeps its value, wherever that map comes. *)
Lemma extend_lookup k v (ls : list (gmap K S)) (g : gmap K S) :
  (g !! k = Some v ∨ ∃ l, l ∈ ls ∧ l !! k = Some v) → (∀ l, l ∈ ls → l !! k = None ∨ l !! k = Some v) →
  foldl keyed_scan_global g ls !! k = Some v.
Proof.
  revert g. induction ls as [|l ls IH]; intros g Hin Hall; cbn.
  { destruct Hin as [?|(l & Hl & _)]; [done|]. by apply not_elem_of_nil in Hl. }
  apply IH; [|intros; apply Hall; by right]. unfold keyed_scan_global. rewrite lookup_union.
  destruct (Hall l ltac:(by left)) as [E|E]; rewrite E.
  - destruct Hin as [Hg|(l' & [->|Hl]%elem_of_cons & Hv)]; [|congruence|right; by exists l'].
    left. by rewrite Hg.
  - left. by destruct (g !! k).
Qed.
End keyed_fold_scan.

(** [fold_scan] on a keyed stream: when the items of a key are on one replica, as they are after a
    [group_by], every item is mapped with the fold of all the items of its key. *)
Theorem keyed_fold_scan_run {K I O S} `{Countable K} (init : S) (fold : K → S → I → S) (map : K → S → I → O) arrive
    (input : list (list (K * I))) :
  (∀ i us, arrive i us ≡ₚ us) →
  (∀ i j l l' k, input !! i = Some l → input !! j = Some l' → k ∈ l.*1 → k ∈ l'.*1 → i = j) →
  keyed_fold_scan init fold map arrive input =
    Done ((λ items, (λ x, (x.1, map x.1 (key_fold init fold x.1 items) x.2)) <$> items) <$> input).
Proof.
  intros Ha Hk. unfold keyed_fold_scan, iterate_two. cbn [two_pass_loop].
  rewrite (traverse_traverse_Done _ (prod_map id First) (prod_map id Second)) by (by intros []). cbn.
  set (locals := foldl (keyed_scan_local (O := O) init fold) ∅ <$> each (prod_map id Second) input).
  set (state := foldl keyed_scan_global ∅ (arrive 0 locals)).
  assert (∀ items k x, items ∈ input → (k, x) ∈ items → state !! k = Some (key_fold init fold k items)) as Hst.
  { intros items k x Hi Hx. unfold state. apply extend_lookup.
    - right. exists (foldl (keyed_scan_local (O := O) init fold) ∅ (prod_map id Second <$> items)).
      split; [|by eapply keyed_local_key]. rewrite (Ha 0). unfold locals, each. by do 2 apply list_elem_of_fmap_2.
    - intros l. rewrite (Ha 0). unfold locals, each.
      intros (l1 & -> & (items' & -> & Hi')%list_elem_of_fmap)%list_elem_of_fmap.
      destruct (decide (k ∈ items'.*1)) as [Hin|Hout]; [|left; by apply keyed_local_no_key]. right.
      apply list_elem_of_lookup in Hi as [i Hi], Hi' as [j Hj].
      assert (i = j) as <-. { eapply Hk; [done..| |done]. apply list_elem_of_fmap. by exists (k, x). }
      rewrite Hj in Hi. injection Hi as ->. by eapply keyed_local_key. }
  pose (g := λ x : K * I, (x.1, map x.1 (default init (state !! x.1)) x.2)).
  rewrite (traverse_traverse_Done _ (prod_map id Second) (λ x, (x.1, Output (g x).2))); cycle 1.
  { intros [k x] (items & Hi & Hx)%elem_of_concat. cbn. by rewrite (Hst items k x). }
  cbn. rewrite (traverse_traverse_Done _ (λ x, (x.1, Output (g x).2)) g) by done. f_equal.
  unfold each. apply list_fmap_ext. intros i items Hi. apply list_fmap_ext. intros n [k x] Hx.
  unfold g. cbn. by rewrite (Hst items k x) by (by eapply list_elem_of_lookup_2).
Qed.

(** ** [KeyedStream::reduce_scan] *)
Section keyed_reduce_scan.
Context {K I O S : Type} `{Countable K} (first_map : K → I → S) (reduce : K → S → S → S) (second_map : K → S → I → O).

Definition keyed_reduce_fold (k : K) (acc : option S) (x : I) : option S :=
  Some (match acc with Some v => reduce k v (first_map k x) | None => first_map k x end).
Definition keyed_reduce_map (k : K) (state : option S) (x : I) : outcome O :=
  st ← unwrap state; Done (second_map k st x).
(** The panics of the second closure surface where its results are used. *)
Definition keyed_reduce_scan (arrive : nat → list (gmap K (option S)) → list (gmap K (option S)))
    (input : list (list (K * I))) : outcome (list (list (K * O))) :=
  outs ← keyed_fold_scan None keyed_reduce_fold keyed_reduce_map arrive input;
  traverse (traverse (λ '(k, o), o ← o; Done (k, o))) outs.

Lemma keyed_reduce_values k v vs : foldl (keyed_reduce_fold k) (Some v) vs = Some (foldl (reduce k) v (first_map k <$> vs)).
Proof. revert v. induction vs as [|x vs IH]; intros v; [done|]. apply IH. Qed.
Lemma keyed_reduce_key k items :
  key_fold None keyed_reduce_fold k items = reduced_all (reduce k) (first_map k <$> values_at k items).
Proof. unfold key_fold. destruct (values_at k items) as [|x vs]; [done|]. apply keyed_reduce_values. Qed.
Lemma reduced_key k x items :
  (k, x) ∈ items → ∃ v, reduced_all (reduce k) (first_map k <$> values_at k items) = Some v.
Proof.
  intros Hx. destruct (values_at k items) as [|y vs] eqn:E; [|by eexists].
  exfalso. apply (not_elem_of_nil x). rewrite <-E. apply list_elem_of_omap. exists (k, x). cbn. by rewrite decide_True.
Qed.

Lemma traverse_Forall2 {X A B} (f : A → outcome B) (h : X → A) (P : X → B → Prop) (l : list X) :
  (∀ x, x ∈ l → ∃ y, f (h x) = Done y ∧ P x y) → ∃ ys, traverse f (h <$> l) = Done ys ∧ Forall2 P l ys.
Proof.
  induction l as [|x l IH]; intros Hf; [by exists []; split; [|constructor]|].
  destruct (Hf x ltac:(by left)) as (y & Hy & HP). destruct IH as (ys & Hys & HPs); [intros; apply Hf; by right|].
  exists (y :: ys). cbn. rewrite Hy. cbn. rewrite Hys. split; [done|by constructor].
Qed.

(** With the items of a key on one replica, every item is mapped with the reduction, in order, of the items of its key;
    the reduction need not be associative. *)
Theorem keyed_reduce_scan_run arrive input :
  (∀ i us, arrive i us ≡ₚ us) →
  (∀ i j l l' k, input !! i = Some l → input !! j = Some l' → k ∈ l.*1 → k ∈ l'.*1 → i = j) →
  ∃ outs, keyed_reduce_scan arrive input = Done outs ∧
    Forall2 (λ items out, Forall2 (λ x y, ∃ v,
      reduced_all (reduce x.1) (first_map x.1 <$> values_at x.1 items) = Some v ∧
      y = (x.1, second_map x.1 v x.2)) items out) input outs.
Proof.
  intros Ha Hk. unfold keyed_reduce_scan. rewrite keyed_fold_scan_run by done. cbn.
  apply traverse_Forall2. intros items _. apply traverse_Forall2. intros [k x] Hx. cbn.
  destruct (reduced_key k x items Hx) as [v Hv]. rewrite keyed_reduce_key, Hv. cbn. eexists. split; [done|]. by exists v.
Qed.
End keyed_reduce_scan.

(** ** Instances: the share of every number in the sum, over all numbers and over those of the same parity *)
Module ScanExample.
Definition backwards {U} (_ : nat) (us : list U) : list U := reverse us.
Definition numbers : list (list nat) := [[1; 2]; []; [3; 4]].
Definition by_parity : list (list (bool * nat)) := [[(true, 2); (true, 4)]; [(false, 1); (false, 3)]].

Lemma reduce_scan_run_witness :
  reduce_scan id Nat.add pair backwards numbers = Done [[(1, 10); (2, 10)]; []; [(3, 10); (4, 10)]].
Proof.
  exact (reduce_scan_run id Nat.add pair backwards numbers (λ _ us, reverse_Permutation us) 10 eq_refl).
Defined.
Lemma keyed_fold_scan_run_witness :
  keyed_fold_scan 0 (λ _, Nat.add) (λ _ s x, (x, s)) backwards by_parity =
    Done [[(true, (2, 6)); (true, (4, 6))]; [(false, (1, 4)); (false, (3, 4))]].
Proof.
  refine (keyed_fold_scan_run 0 (λ _, Nat.add) (λ _ s x, (x, s)) backwards by_parity (λ _ us, reverse_Permutation us) _).
  intros [|[|i]] [|[|j]] l l' k Hl Hl' Hk Hk'; simplify_eq/=; try done; set_solver.
Defined.
(** A key on two replicas: the map that arrives last hides the other one. *)
Example keyed_fold_scan_split :
  keyed_fold_scan 0 (λ _, Nat.add) (λ _ s x, (x, s)) backwards [[(true, 2)]; [(true, 4)]] =
    Done [[(true, (2, 2))]; [(true, (4, 2))]].
Proof. vm_compute. reflexivity. Qed.
End ScanExample.
