(* ===== verification/Sources.v ===== *)
(** * Sources

    [src/src/operator/source/{iterator,parallel_iterator,channel,file,csv}.rs]: the
    operators that begin a stream.  A source that runs in parallel gives each replica a
    part of the data, chosen from the [global_id] of the replica and the number of
    replicas; what the theorems show is that the parts are disjoint and miss nothing.

    A file is the list of its bytes; an iterator is the list of what it yields. *)
From S2P Require Import Prelude StreamElement Operator Frontier Batcher Start.
From Stdlib Require Import Strings.Byte.

(** ** [IteratorSource] *)
Record IteratorSource_state (A : Type) := mkIteratorSource {
  is_inner : list A;
  is_terminated_ : bool
}.
Global Arguments mkIteratorSource {_} _ _.
Global Arguments is_inner {_} _.
Global Arguments is_terminated_ {_} _.

Definition IteratorSource_new {A} (inner : list A) : IteratorSource_state A :=
  mkIteratorSource inner false.

(** [IteratorSource::next]. *)
Definition IteratorSource_next {A} (fuel : nat) (self : IteratorSource_state A)
    : outcome (StreamElement A * IteratorSource_state A) :=
  if is_terminated_ self then Done (Terminate, self)
  else match is_inner self with
       | t :: inner => Done (Item t, mkIteratorSource inner (is_terminated_ self))
       | [] => Done (FlushAndRestart, mkIteratorSource [] true)
       end.

Definition IteratorSource (A : Type) : Operator A :=
  mkOperator (IteratorSource_state A) IteratorSource_next.

(** ** [ParallelIteratorSource] *)

(** [trait IntoParallelSource]. *)
Class IntoParallelSource (S A : Type) :=
  generate_iterator : S → Z → Z → outcome (list A).

(** [enum IteratorGenerator]; [Generating] never outlives the call of [generate]. *)
Inductive IteratorGenerator (S A : Type) :=
| Generator (g : S)
| GIterator (iter : list A).
Global Arguments Generator {_ _} _.
Global Arguments GIterator {_ _} _.

Record ParallelIteratorSource_state (S A : Type) := mkParallelSource {
  ps_inner : IteratorGenerator S A;
  ps_terminated : bool
}.
Global Arguments mkParallelSource {_ _} _ _.
Global Arguments ps_inner {_ _} _.
Global Arguments ps_terminated {_ _} _.

Section parallel.
Context {S A : Type} `{!IntoParallelSource S A}.
Implicit Types self : ParallelIteratorSource_state S A.

Definition ParallelIteratorSource_new (generator : S) : ParallelIteratorSource_state S A :=
  mkParallelSource (Generator generator) false.

(** [IteratorGenerator::generate]. *)
Definition generate (g : IteratorGenerator S A) (global_id instances : Z)
    : outcome (IteratorGenerator S A) :=
  match g with
  | Generator g => iter ← generate_iterator g global_id instances; Done (GIterator iter)
  | _ => Panicked
  end.

(** [ParallelIteratorSource::setup]. *)
Definition ParallelIteratorSource_setup (metadata : ExecutionMetadata) self
    : outcome (ParallelIteratorSource_state S A) :=
  inner ← generate (ps_inner self) (Z.of_N (em_global_id metadata))
            (Z.of_nat (length (em_replicas metadata)));
  Done (mkParallelSource inner (ps_terminated self)).

(** [ParallelIteratorSource::next]. *)
Definition ParallelIteratorSource_next (fuel : nat) self
    : outcome (StreamElement A * ParallelIteratorSource_state S A) :=
  if ps_terminated self then Done (Terminate, self)
  else match ps_inner self with
       | GIterator (t :: iter) => Done (Item t, mkParallelSource (GIterator iter) (ps_terminated self))
       | GIterator [] => Done (FlushAndRestart, mkParallelSource (GIterator []) true)
       | _ => Panicked
       end.
End parallel.

Definition ParallelIteratorSource (S A : Type) : Operator A :=
  mkOperator (ParallelIteratorSource_state S A) ParallelIteratorSource_next.

(** *** Ranges *)
Definition u64_max : Z := (2^64 - 1)%Z.

(** An arithmetic operation in a build with overflow checks. *)
Definition checked (lo hi z : Z) : outcome Z :=
  if (lo <=? z)%Z && (z <=? hi)%Z then Done z else Panicked.
Definition saturating (lo hi z : Z) : Z := Z.max lo (Z.min hi z).

(** [impl IntoParallelSource for Range<u64>]. *)
Record RangeU64 := mkRangeU64 { u_start : Z; u_end : Z }.
Definition generate_u64 (self : RangeU64) (index peers : Z) : outcome (Z * Z) :=
  n ← checked 0 u64_max (u_end self - u_start self);
  rassert (negb (peers =? 0)%Z);;
  let chunk_size := ((n + peers - 1) / peers)%Z in
  offset ← checked 0 u64_max (index * chunk_size);
  let start := saturating 0 u64_max (u_start self + offset) in
  let end_ := Z.max (Z.min (saturating 0 u64_max (start + chunk_size)) (u_end self)) (u_start self) in
  Done (start, end_).

(** The macro [impl_into_parallel_source_range], for a type of values between [lo] and
    [hi]: everything is computed on [i64]. *)
Record RangeOf (lo hi : Z) := mkRangeOf { r_start : Z; r_end : Z }.
Global Arguments mkRangeOf {_ _} _ _.
Global Arguments r_start {_ _} _.
Global Arguments r_end {_ _} _.

(** [x as i64]. *)
Definition as_i64 (x : Z) : Z := ((x + 2^63) mod 2^64 - 2^63)%Z.

Definition generate_range {lo hi} (self : RangeOf lo hi) (index peers : Z) : outcome (Z * Z) :=
  index ← checked i64_min i64_max index;
  peers ← checked i64_min i64_max peers;
  n ← checked i64_min i64_max (as_i64 (r_end self) - as_i64 (r_start self));
  rassert (negb (peers =? 0)%Z);;
  let chunk_size := Z.quot (saturating i64_min i64_max (n + (peers - 1))) peers in
  offset ← checked i64_min i64_max (index * chunk_size);
  let start := saturating i64_min i64_max (as_i64 (r_start self) + offset) in
  let end_ := Z.max (Z.min (saturating i64_min i64_max (start + chunk_size)) (as_i64 (r_end self)))
                (as_i64 (r_start self)) in
  start ← checked lo hi start;
  end_ ← checked lo hi end_;
  Done (start, end_).

(** Iterating over [start..end]. *)
Definition range_items (r : Z * Z) : list Z := seqZ r.1 (r.2 - r.1).

Global Instance RangeU64_source : IntoParallelSource RangeU64 Z :=
  λ g index peers, range_items <$> generate_u64 g index peers.
Global Instance RangeOf_source lo hi : IntoParallelSource (RangeOf lo hi) Z :=
  λ g index peers, range_items <$> generate_range g index peers.

(** ** [ChannelSource] *)
Definition MAX_RETRY : nat := 16.

(** What [try_recv] answers, call after call: a value, nothing yet, or that all senders
    are gone, which is also the answer once the script is over. *)
Inductive chan_answer (A : Type) := Ready (t : A) | Empty.
Global Arguments Ready {_} _.
Global Arguments Empty {_}.

(** [Receiver::recv]: waits. *)
Fixpoint chan_wait {A} (rx : list (chan_answer A)) : option A * list (chan_answer A) :=
  match rx with
  | [] => (None, [])
  | Ready t :: rx => (Some t, rx)
  | Empty :: rx => chan_wait rx
  end.

Record ChannelSource_state (A : Type) := mkChannelSource {
  cs_rx : list (chan_answer A);
  cs_terminated : bool;
  retry_count : nat
}.
Global Arguments mkChannelSource {_} _ _ _.
Global Arguments cs_rx {_} _.
Global Arguments cs_terminated {_} _.
Global Arguments retry_count {_} _.

Definition ChannelSource_new {A} (rx : list (chan_answer A)) : ChannelSource_state A :=
  mkChannelSource rx false 0.

(** [ChannelSource::next]. *)
Fixpoint ChannelSource_next {A} (fuel : nat) (self : ChannelSource_state A)
    : outcome (StreamElement A * ChannelSource_state A) :=
  match fuel with
  | 0 => OutOfFuel
  | S fuel =>
      if cs_terminated self then Done (Terminate, self)
      else match cs_rx self with
           | Ready t :: rx => Done (Item t, mkChannelSource rx (cs_terminated self) 0)
           | Empty :: rx =>
               if retry_count self <? MAX_RETRY then
                 ChannelSource_next fuel
                   (mkChannelSource rx (cs_terminated self) (retry_count self + 1))
               else if retry_count self =? MAX_RETRY then
                 Done (FlushBatch, mkChannelSource rx (cs_terminated self) (retry_count self + 1))
               else
                 match chan_wait rx with
                 | (Some t, rx) => Done (Item t, mkChannelSource rx (cs_terminated self) 0)
                 | (None, rx) => Done (FlushAndRestart, mkChannelSource rx true 0)
                 end
           | [] => Done (FlushAndRestart, mkChannelSource [] true (retry_count self))
           end
  end.

Definition ChannelSource (A : Type) : Operator A :=
  mkOperator (ChannelSource_state A) ChannelSource_next.

(** ** Reading files *)
Abbreviation bytes := (list byte).

(** [BufRead::read_until]: what is read, and what is left to read. *)
Fixpoint read_until (delim : byte) (l : bytes) : bytes * bytes :=
  match l with
  | [] => ([], [])
  | c :: l =>
      if Byte.eqb c delim then ([c], l)
      else let '(v, rest) := read_until delim l in (c :: v, rest)
  end.

(** UTF-8, as [String::from_utf8] checks it: the continuation bytes still expected, and
    the bounds on the next one. *)
Definition in_range (lo hi b : N) : bool := N.leb lo b && N.leb b hi.
Fixpoint utf8_scan (l : bytes) (need : nat) (lo hi : N) : bool :=
  match l with
  | [] => need =? 0
  | c :: l =>
      let b := Byte.to_N c in
      match need with
      | S need => in_range lo hi b && utf8_scan l need 0x80 0xBF
      | 0 =>
          if in_range 0x00 0x7F b then utf8_scan l 0 0x80 0xBF
          else if in_range 0xC2 0xDF b then utf8_scan l 1 0x80 0xBF
          else if in_range 0xE0 0xE0 b then utf8_scan l 2 0xA0 0xBF
          else if in_range 0xE1 0xEC b || in_range 0xEE 0xEF b then utf8_scan l 2 0x80 0xBF
          else if in_range 0xED 0xED b then utf8_scan l 2 0x80 0x9F
          else if in_range 0xF0 0xF0 b then utf8_scan l 3 0x90 0xBF
          else if in_range 0xF1 0xF3 b then utf8_scan l 3 0x80 0xBF
          else if in_range 0xF4 0xF4 b then utf8_scan l 3 0x80 0x8F
          else false
      end
  end.
Definition valid_utf8 (l : bytes) : bool := utf8_scan l 0 0x80 0xBF.

Definition newline : byte := x0a.

(** [BufRead::read_line]: [None] for the error on bytes that are not UTF-8. *)
Definition read_line (l : bytes) : option (bytes * bytes) :=
  let '(v, rest) := read_until newline l in
  if valid_utf8 v then Some (v, rest) else None.

(** ** [FileSource] *)
Record FileSource_state := mkFileSource {
  fs_reader : option bytes;
  fs_current : nat;
  fs_end : nat;
  fs_terminated : bool;
  fs_coord : option Coord
}.

Definition FileSource_new : FileSource_state := mkFileSource None 0 0 false None.

(** [FileSource::setup]; [file] is what [File::open] finds at the path, [None] for an
    error. *)
Definition FileSource_setup (metadata : ExecutionMetadata) (file : option bytes)
    (self : FileSource_state) : outcome FileSource_state :=
  let global_id := N.to_nat (em_global_id metadata) in
  let instances := length (em_replicas metadata) in
  file ← unwrap file;
  let file_size := length file in
  rassert (negb (instances =? 0));;
  let range_size := file_size / instances in
  let start := range_size * global_id in
  last ← usize_sub instances 1;
  let end_ := if global_id =? last then file_size else start + range_size in
  let reader := drop start file in
  let '(current, reader) :=
    if global_id =? 0 then (start, reader)
    else let '(v, rest) := read_until newline reader in (start + length v, rest) in
  Done (mkFileSource (Some reader) current end_ (fs_terminated self) (Some (em_coord metadata))).

(** [FileSource::next]. *)
Definition FileSource_next (fuel : nat) (self : FileSource_state)
    : outcome (StreamElement bytes * FileSource_state) :=
  if fs_terminated self then _ ← unwrap (fs_coord self); Done (Terminate, self)
  else if fs_current self <=? fs_end self then
    reader ← unwrap (fs_reader self);
    '(line, reader) ← unwrap (read_line reader);
    if 0 <? length line then
      Done (Item line, mkFileSource (Some reader) (fs_current self + length line) (fs_end self)
                         (fs_terminated self) (fs_coord self))
    else
      Done (FlushAndRestart, mkFileSource (Some reader) (fs_current self) (fs_end self) true
                               (fs_coord self))
  else
    Done (FlushAndRestart, mkFileSource (fs_reader self) (fs_current self) (fs_end self) true
                             (fs_coord self)).

Definition FileSource : Operator bytes := mkOperator FileSource_state FileSource_next.

(** ** [CsvSource]

    The [csv] crate parses what a [LimitedReader] hands it; its options only pass
    through the source, but for the terminator and the header. *)
Inductive Terminator := CRLF | AnyByte (b : byte).

(** [LimitedReader]: the bytes left in the file, and how many it may still hand out. *)
Record LimitedReader := mkLimitedReader { lr_inner : bytes; lr_remaining : nat }.

(** [LimitedReader::read] with a buffer of [size] bytes; [chunk] is how many bytes the
    inner reader fills in this call, at most [size] and at least one unless it is at the
    end.  The bytes beyond the limit are read and lost. *)
Definition LimitedReader_read (chunk : nat) (self : LimitedReader) : bytes * LimitedReader :=
  if 0 <? lr_remaining self then
    let got := take chunk (lr_inner self) in
    let read_bytes := length got `min` lr_remaining self in
    (take read_bytes got, mkLimitedReader (drop chunk (lr_inner self)) (lr_remaining self - read_bytes))
  else ([], self).

Record CsvOptions := mkCsvOptions { terminator : Terminator; has_headers : bool }.
Definition CsvOptions_default : CsvOptions := mkCsvOptions CRLF true.

(** [CsvSource::setup]: the reader of the replica and the header. *)
Definition CsvSource_setup (options : CsvOptions) (metadata : ExecutionMetadata)
    (file : option bytes) : outcome (LimitedReader * bytes) :=
  let global_id := N.to_nat (em_global_id metadata) in
  let instances := length (em_replicas metadata) in
  file ← unwrap file;
  let file_size := length file in
  let last_byte_terminator := match terminator options with CRLF => newline | AnyByte b => b end in
  let header := if has_headers options then (read_until last_byte_terminator file).1 else [] in
  let header_size := length header in
  body_size ← usize_sub file_size header_size;
  rassert (negb (instances =? 0));;
  let range_size := body_size / instances in
  let start := header_size + range_size * global_id in
  last ← usize_sub instances 1;
  let end_ := if global_id =? last then file_size else start + range_size in
  let start :=
    if global_id =? 0 then start
    else start + length (read_until last_byte_terminator (drop start file)).1 in
  let end_ :=
    if global_id =? last then end_
    else end_ + length (read_until last_byte_terminator (drop end_ file)).1 in
  remaining ← usize_sub end_ start;
  Done (mkLimitedReader (drop start file) remaining, header).

(** ** Lines *)
Section lines.
Context (delim : byte).

(** The lines of a text, each with its terminator (the last one may have none). *)
Fixpoint split_lines (l : bytes) : list bytes :=
  match l with
  | [] => []
  | c :: l =>
      if Byte.eqb c delim then [c] :: split_lines l
      else match split_lines l with
           | [] => [[c]]
           | x :: xs => (c :: x) :: xs
           end
  end.

Lemma split_lines_nil l : split_lines l = [] ↔ l = [].
Proof. split; [|by intros ->]. destruct l as [|c l]; [done|]. cbn. by repeat case_match. Qed.

Lemma concat_split_lines l : concat (split_lines l) = l.
Proof.
  induction l as [|c l IH]; [done|]. cbn. destruct (Byte.eqb c delim); cbn; [by rewrite IH|].
  destruct (split_lines l) as [|x xs] eqn:E; cbn in *; [|by rewrite IH].
  by apply split_lines_nil in E as ->.
Qed.

(** Reading up to the delimiter reads the first line. *)
Lemma read_until_lines l v rest :
  read_until delim l = (v, rest) →
  split_lines l = match v with [] => [] | _ => v :: split_lines rest end ∧ (v = [] → l = [] ∧ rest = []).
Proof.
  revert v rest. induction l as [|c l IH]; intros v rest H; cbn in H.
  { by injection H as <- <-. }
  cbn. destruct (Byte.eqb c delim); [by injection H as <- <-|].
  destruct (read_until delim l) as [v' rest'] eqn:E. injection H as <- <-.
  destruct (IH _ _ eq_refl) as [-> Hv]. split; [|done]. destruct v' as [|d v'].
  - by destruct (Hv eq_refl) as [_ ->].
  - done.
Qed.

Lemma read_until_app l v rest : read_until delim l = (v, rest) → l = v ++ rest.
Proof.
  revert v rest. induction l as [|c l IH]; intros v rest H; cbn in H; [by injection H as <- <-|].
  destruct (Byte.eqb c delim); [by injection H as <- <-|].
  destruct (read_until delim l) as [v' rest'] eqn:E. injection H as <- <-. cbn. f_equal. auto.
Qed.

(** The lines that begin at or before position [bound], the first of them at [cur]. *)
Fixpoint begun (ls : list bytes) (cur bound : nat) : list bytes :=
  match ls with
  | [] => []
  | x :: ls => if cur <=? bound then x :: begun ls (cur + length x) bound else []
  end.

Lemma begun_shift ls cur bound k : begun ls (k + cur) (k + bound) = begun ls cur bound.
Proof.
  revert cur. induction ls as [|x ls IH]; intros cur; [done|]. cbn.
  destruct (Nat.leb_spec cur bound), (Nat.leb_spec (k + cur) (k + bound)); try lia; [|done].
  by rewrite <-Nat.add_assoc, IH.
Qed.

Lemma begun_late ls cur bound : bound < cur → begun ls cur bound = [].
Proof. destruct ls; [done|]. cbn. intros. by destruct (Nat.leb_spec cur bound); [lia|]. Qed.

Lemma begun_prefix ls cur s e :
  s ≤ e → begun ls cur e =
    begun ls cur s ++ begun (drop (length (begun ls cur s)) ls)
                        (cur + length (concat (begun ls cur s))) e.
Proof.
  intros Hle. revert cur. induction ls as [|x ls IH]; intros cur; [done|]. cbn.
  destruct (Nat.leb_spec cur s) as [Hs|Hs]; cbn.
  - destruct (Nat.leb_spec cur e); [|lia]. f_equal. rewrite IH. by rewrite length_app, Nat.add_assoc.
  - by rewrite Nat.add_0_r.
Qed.

Lemma begun_all ls cur bound : cur + length (concat ls) ≤ bound → begun ls cur bound = ls.
Proof.
  revert cur. induction ls as [|x ls IH]; intros cur H; [done|]. cbn in *. rewrite length_app in H.
  destruct (Nat.leb_spec cur bound); [|lia]. rewrite IH by lia. done.
Qed.

Lemma begun_take ls cur bound : begun ls cur bound = take (length (begun ls cur bound)) ls.
Proof.
  revert cur. induction ls as [|x ls IH]; intros cur; [done|]. cbn.
  destruct (cur <=? bound); [|done]. cbn. by rewrite <-IH.
Qed.

(** Seeking to a position and discarding up to the next delimiter skips exactly the lines
    begun at or before the position. *)
Lemma seek_lines file s v rest :
  s ≤ length file → read_until delim (drop s file) = (v, rest) →
  split_lines rest = drop (length (begun (split_lines file) 0 s)) (split_lines file) ∧
  s + length v = length (concat (begun (split_lines file) 0 s)).
Proof.
  revert file v rest. induction s as [|s IH]; intros file v rest Hs Hr.
  - rewrite drop_0 in Hr. destruct (read_until_lines _ _ _ Hr) as [-> Hv].
    destruct v as [|c v]; cbn; [by destruct (Hv eq_refl) as [-> ->]|].
    rewrite begun_late by lia. cbn. by rewrite drop_0, length_app, Nat.add_0_r.
  - destruct file as [|c file]; cbn in Hs, Hr; [lia|].
    destruct (IH file v rest ltac:(lia) Hr) as [IH1 IH2]. cbn.
    destruct (Byte.eqb c delim); cbn.
    + pose proof (begun_shift (split_lines file) 0 s 1) as Eb. cbn in Eb. rewrite Eb. split; [done|lia].
    + destruct (split_lines file) as [|x xs] eqn:E; cbn.
      * apply split_lines_nil in E as ->. cbn in *. assert (s = 0) as -> by lia.
        cbn in Hr. injection Hr as <- <-. done.
      * pose proof (begun_shift xs (length x) s 1) as Eb. cbn in Eb, IH1, IH2. rewrite Eb. rewrite length_app in IH2 |- *.
        split; [done|lia].
Qed.
End lines.

(** ** Files are read once *)
(** A source positioned at a line emits the lines begun up to its end. *)
Lemma file_reads rest cur e c :
  Forall (λ x, valid_utf8 x = true) (split_lines newline rest) →
  ∃ q, emits FileSource (mkFileSource (Some rest) cur e false (Some c))
    ((Item <$> begun (split_lines newline rest) cur e) ++ [FlushAndRestart; Terminate]) q.
Proof.
  remember (split_lines newline rest) as ls eqn:El. intros Hv. revert rest cur El.
  assert (∀ r cur, ∃ q, emits FileSource (mkFileSource r cur e true (Some c)) [Terminate] q) as Hend.
  { intros r cur. eexists. econstructor; [by exists 0|constructor]. }
  induction Hv as [|x ls Hx Hv IH]; intros rest cur El; cbn.
  - symmetry in El. apply split_lines_nil in El as ->.
    destruct (Hend (if cur <=? e then Some [] else Some []) cur) as [q Hq]. exists q.
    econstructor; [|exact Hq]. exists 0. cbn. by destruct (cur <=? e).
  - destruct (read_until newline rest) as [v rest'] eqn:Er.
    destruct (read_until_lines _ _ _ _ Er) as [Es Hnil]. rewrite <-El in Es.
    destruct v as [|b v]; [done|]. injection Es as -> Es.
    destruct (Nat.leb_spec cur e) as [Hc|Hc]; cbn.
    + destruct (IH rest' (cur + length (b :: v)) Es) as [q Hq]. exists q. econstructor; [|exact Hq].
      exists 0. cbn. destruct (Nat.leb_spec cur e); [|lia]. unfold read_line. rewrite Er, Hx. done.
    + destruct (Hend (Some rest) cur) as [q Hq]. exists q. econstructor; [|exact Hq].
      exists 0. cbn. destruct (Nat.leb_spec cur e); [lia|done].
Qed.

Section partition.
Context (delim : byte) (file : bytes) (n : nat).
Hypothesis n_pos : 0 < n.
Abbreviation L := (split_lines delim file).

(** Where the part of replica [i] begins, before it is aligned to a line. *)
Definition cut (i : nat) : nat := if i =? n then length file else length file / n * i.

Lemma cut_mono i : i < n → cut i ≤ cut (S i) ∧ cut i ≤ length file.
Proof.
  intros Hi. pose proof (Nat.Div0.mul_div_le (length file) n) as Hd. unfold cut.
  destruct (Nat.eqb_spec i n); [lia|]. destruct (Nat.eqb_spec (S i) n) as [E|E]; nia.
Qed.

(** The lines of the replicas before [i], and those of replica [i]. *)
Definition before (i : nat) : list bytes := if i =? 0 then [] else begun L 0 (cut i).
Definition part (i : nat) : list bytes := drop (length (before i)) (begun L 0 (cut (S i))).

Lemma before_part i : i < n → before (S i) = before i ++ part i.
Proof.
  intros Hi. destruct (cut_mono i Hi) as [Hc _]. unfold part. cbn [before Nat.eqb].
  unfold before. destruct (Nat.eqb_spec i 0) as [->|Hne]; [done|].
  rewrite (begun_prefix L 0 _ _ Hc). by rewrite drop_app_length.
Qed.

Lemma parts_concat m : m ≤ n → concat (part <$> seq 0 m) = before m.
Proof.
  induction m as [|m IH]; intros Hm; [done|].
  rewrite before_part, seq_S, fmap_app, concat_app, IH by lia. csimpl. by rewrite app_nil_r.
Qed.

Lemma parts_all : concat (part <$> seq 0 n) = L.
Proof.
  rewrite parts_concat by lia. unfold before, cut. rewrite Nat.eqb_refl.
  destruct (Nat.eqb_spec n 0); [lia|]. apply begun_all. by rewrite concat_split_lines.
Qed.

End partition.

(** What [setup] leaves for replica [i]. *)
Lemma file_setup file n i m :
  i < n → em_global_id m = N.of_nat i → length (em_replicas m) = n →
  ∃ rest cur, FileSource_setup m (Some file) FileSource_new =
      Done (mkFileSource (Some rest) cur (cut file n (S i)) false (Some (em_coord m))) ∧
    split_lines newline rest = drop (length (before newline file n i)) (split_lines newline file) ∧
    begun (split_lines newline rest) cur (cut file n (S i)) = part newline file n i.
Proof.
  intros Hi Hg Hl. assert (0 < n) as Hn by lia. destruct (cut_mono file n Hn i Hi) as [Hc Hle].
  assert (cut file n i = length file / n * i) as Ec by (unfold cut; destruct (Nat.eqb_spec i n); [lia|done]).
  assert ((if i =? n - 1 then length file else length file / n * i + length file / n) = cut file n (S i)) as Ee.
  { unfold cut. destruct (Nat.eqb_spec i (n - 1)), (Nat.eqb_spec (S i) n); lia. }
  unfold FileSource_setup, FileSource_new. rewrite Hg, Hl, Nat2N.id. cbn [unwrap mbind outcome_bind].
  destruct (Nat.eqb_spec n 0); [lia|]. cbn [negb rassert mbind outcome_bind].
  rewrite usize_sub_le by lia. cbn [mbind outcome_bind]. rewrite Ee, <-Ec.
  unfold part, before. destruct (Nat.eqb_spec i 0) as [->|Hne].
  - exists file, (cut file n 0). split_and!; [|by rewrite drop_0|].
    + rewrite Ec, Nat.mul_0_r, drop_0. done.
    + by rewrite drop_0, Ec, Nat.mul_0_r.
  - destruct (read_until newline (drop (cut file n i) file)) as [v rest] eqn:Er.
    destruct (seek_lines newline file (cut file n i) v rest Hle Er) as [E1 E2].
    exists rest, (cut file n i + length v). split_and!; [done..|].
    rewrite E1, E2, (begun_prefix (split_lines newline file) 0 _ _ Hc), drop_app_length. done.
Qed.

(** One part per replica, in the order of the replicas. *)
Lemma parts_for_replicas {M X} (ms : list M) (f : nat → X) (P : M → X → Prop) :
  (∀ i m, ms !! i = Some m → i < length ms → P m (f i)) → Forall2 P ms (f <$> seq 0 (length ms)).
Proof.
  intros H. apply Forall2_same_length_lookup. split; [by rewrite length_fmap, length_seq|].
  intros i m x Hm Hx. apply list_lookup_fmap_Some in Hx as (j & -> & [-> Hlt]%lookup_seq).
  by apply H.
Qed.

(** C35. Every line of a file is emitted by exactly one of the replicas that read it, in the
    order of the file, whatever the number of replicas and wherever the boundaries
    between their parts fall; each replica then ends its stream. *)
Theorem FileSource_partition file (ms : list ExecutionMetadata) :
  ms ≠ [] → Forall (λ x, valid_utf8 x = true) (split_lines newline file) →
  (∀ i m, ms !! i = Some m →
     em_global_id m = N.of_nat i ∧ length (em_replicas m) = length ms) →
  ∃ parts, concat parts = split_lines newline file ∧
    Forall2 (λ m part, ∃ q0 q, FileSource_setup m (Some file) FileSource_new = Done q0 ∧
      emits FileSource q0 ((Item <$> part) ++ [FlushAndRestart; Terminate]) q) ms parts.
Proof.
  intros Hne Hv Hms. assert (0 < length ms) as Hn by (destruct ms; [done|cbn; lia]).
  exists (part newline file (length ms) <$> seq 0 (length ms)). split; [by apply parts_all|].
  apply parts_for_replicas. intros i m Hm Hlt. destruct (Hms _ _ Hm) as [Hg Hl].
  destruct (file_setup file (length ms) i m Hlt Hg Hl) as (rest & cur & Hset & Es & <-).
  destruct (file_reads rest cur (cut file (length ms) (S i)) (em_coord m)) as [q Hq].
  { rewrite Es. by apply Forall_drop. }
  eauto.
Qed.

(** ** CSV files *)

(** What a sequence of reads of the given sizes returns. *)
Fixpoint read_chunks (chunks : list nat) (self : LimitedReader) : bytes :=
  match chunks with
  | [] => []
  | chunk :: chunks => let '(b, self) := LimitedReader_read chunk self in b ++ read_chunks chunks self
  end.

(** The limit holds for any sizes of the reads. *)
Lemma read_chunks_spec chunks inner remaining :
  read_chunks chunks (mkLimitedReader inner remaining) =
    take (sum_list chunks `min` remaining) inner.
Proof.
  revert inner remaining. induction chunks as [|c cs IH]; intros inner remaining; [done|].
  cbn [read_chunks]. unfold LimitedReader_read. cbn [lr_remaining lr_inner].
  destruct (Nat.ltb_spec 0 remaining) as [Hr|Hr].
  - rewrite IH, length_take, take_take. cbn [sum_list_with]. change (id c) with c.
    destruct (decide (length inner ≤ c `min` remaining)) as [Hl|Hl].
    + rewrite (drop_ge inner c), take_nil, app_nil_r by lia. by rewrite !take_ge by lia.
    + destruct (decide (c ≤ remaining)) as [Hc|Hc].
      * replace ((c `min` length inner) `min` remaining) with c by lia.
        rewrite Nat.min_id, take_take_drop. f_equal. lia.
      * replace ((c `min` length inner) `min` remaining) with remaining by lia.
        rewrite Nat.sub_diag, Nat.min_0_r, take_0, app_nil_r. f_equal. lia.
  - rewrite IH. assert (remaining = 0) as -> by lia. by rewrite !Nat.min_0_r.
Qed.

(** The delimiter of the records. *)
Definition csv_delim (o : CsvOptions) : byte :=
  match terminator o with CRLF => newline | AnyByte b => b end.
Definition csv_header (o : CsvOptions) (file : bytes) : bytes :=
  if has_headers o then (read_until (csv_delim o) file).1 else [].

Lemma csv_header_prefix o file : ∃ body, file = csv_header o file ++ body.
Proof.
  unfold csv_header. destruct (has_headers o); [|by exists file].
  destruct (read_until (csv_delim o) file) as [v rest] eqn:E. exists rest. by eapply read_until_app.
Qed.

(** The end of the part of replica [i], aligned to a record. *)
Lemma csv_align delim file n i :
  0 < n → 0 < i ≤ n →
  (if i =? n then length file
   else cut file n i + length (read_until delim (drop (cut file n i) file)).1) =
  length (concat (before delim file n i)).
Proof.
  intros Hn Hi. unfold before. destruct (Nat.eqb_spec i 0); [lia|].
  destruct (Nat.eqb_spec i n) as [->|Hne].
  - unfold cut. rewrite Nat.eqb_refl, begun_all by (by rewrite concat_split_lines).
    by rewrite concat_split_lines.
  - destruct (cut_mono file n Hn i) as [_ Hle]; [lia|].
    destruct (read_until delim (drop (cut file n i) file)) as [v rest] eqn:E.
    destruct (seek_lines delim file _ v rest Hle E) as [_ <-]. done.
Qed.

Lemma take_drop_part delim file n i :
  0 < n → i < n →
  take (length (concat (before delim file n (S i))) - length (concat (before delim file n i)))
    (drop (length (concat (before delim file n i))) file) = concat (part delim file n i).
Proof.
  intros Hn Hi. rewrite (before_part delim file n Hn i Hi), concat_app, length_app.
  rewrite Nat.add_comm, Nat.add_sub.
  assert (∃ rest, file = concat (before delim file n i) ++ concat (part delim file n i) ++ rest)
    as [rest E].
  { exists (concat (drop (length (before delim file n (S i))) (split_lines delim file))).
    rewrite app_assoc, <-concat_app, <-(before_part delim file n Hn i Hi), <-concat_app.
    rewrite <-(concat_split_lines delim file) at 1. f_equal. unfold before. cbn [Nat.eqb].
    rewrite (begun_take (split_lines delim file)) at 1. by rewrite take_drop. }
  revert E. generalize (concat (before delim file n i)) (concat (part delim file n i)).
  intros b p ->. by rewrite drop_app_length, take_app_length.
Qed.

Lemma csv_setup o file body m n i :
  file = csv_header o file ++ body → i < n →
  em_global_id m = N.of_nat i → length (em_replicas m) = n →
  CsvSource_setup o m (Some file) = Done
    (mkLimitedReader (drop (length (concat (before (csv_delim o) body n i))) body)
       (length (concat (before (csv_delim o) body n (S i))) -
        length (concat (before (csv_delim o) body n i))), csv_header o file).
Proof.
  intros Hf Hi Hg Hl. assert (0 < n) as Hn by lia.
  pose proof (csv_align (csv_delim o) body n (S i) Hn ltac:(lia)) as Ae.
  assert (length (concat (before (csv_delim o) body n i)) ≤
    length (concat (before (csv_delim o) body n (S i)))) as Hle.
  { rewrite (before_part _ body n Hn i Hi), concat_app, length_app. lia. }
  set (hd := csv_header o file) in *.
  assert (length file - length hd = length body) as Eb by (rewrite Hf, length_app; lia).
  assert (∀ k, drop (length hd + k) file = drop k body) as Ed.
  { intros k. rewrite Hf. by rewrite drop_app_add. }
  assert (cut body n i = length body / n * i) as Ec by (unfold cut; destruct (Nat.eqb_spec i n); lia).
  unfold CsvSource_setup. fold (csv_delim o). rewrite Hg, Hl, Nat2N.id.
  cbn [unwrap mbind outcome_bind]. fold (csv_header o file). fold hd.
  rewrite (usize_sub_le (length file) (length hd)) by (rewrite Hf, length_app; lia).
  cbn [mbind outcome_bind]. rewrite Eb. destruct (Nat.eqb_spec n 0); [lia|].
  cbn [negb rassert mbind outcome_bind]. rewrite (usize_sub_le n 1) by lia.
  cbn [mbind outcome_bind]. rewrite <-Ec.
  assert ((if i =? 0 then length hd + cut body n i
    else length hd + cut body n i + length (read_until (csv_delim o) (drop (length hd + cut body n i) file)).1)
    = length hd + length (concat (before (csv_delim o) body n i))) as ->.
  { destruct (Nat.eqb_spec i 0) as [->|Hne]; [rewrite Ec; cbn; lia|].
    pose proof (csv_align (csv_delim o) body n i Hn ltac:(lia)) as Ai.
    destruct (Nat.eqb_spec i n); [lia|]. rewrite Ed. lia. }
  assert ((let end_ := if i =? n - 1 then length file else length hd + cut body n i + length body / n in
    if i =? n - 1 then end_ else end_ + length (read_until (csv_delim o) (drop end_ file)).1)
    = length hd + length (concat (before (csv_delim o) body n (S i)))) as Ee.
  { cbv zeta. rewrite <-Ae. destruct (Nat.eqb_spec i (n - 1)), (Nat.eqb_spec (S i) n); try lia.
    - rewrite Hf at 1. rewrite length_app. done.
    - assert (cut body n (S i) = cut body n i + length body / n) as ->
        by (rewrite Ec; unfold cut; destruct (Nat.eqb_spec (S i) n); lia).
      rewrite <-!Nat.add_assoc, Ed. lia. }
  cbv zeta in Ee. rewrite Ee, usize_sub_le by lia.
  cbn [mbind outcome_bind]. rewrite Ed. do 3 f_equal. lia.
Qed.

(** The replicas that read a CSV file are given disjoint runs of whole records that
    together are the body of the file, in order, and each of them the header; the bytes a
    replica reads stop at the end of its run whatever the sizes of the reads. *)
Theorem CsvSource_partition o file (ms : list ExecutionMetadata) :
  ms ≠ [] →
  (∀ i m, ms !! i = Some m →
     em_global_id m = N.of_nat i ∧ length (em_replicas m) = length ms) →
  ∃ body parts, file = csv_header o file ++ body ∧ concat parts = split_lines (csv_delim o) body ∧
    Forall2 (λ m part, ∃ reader, CsvSource_setup o m (Some file) = Done (reader, csv_header o file) ∧
      ∀ chunks, length (concat part) ≤ sum_list chunks → read_chunks chunks reader = concat part)
      ms parts.
Proof.
  intros Hne Hms. assert (0 < length ms) as Hn by (destruct ms; [done|cbn; lia]).
  destruct (csv_header_prefix o file) as [body Hf].
  exists body, (part (csv_delim o) body (length ms) <$> seq 0 (length ms)). split_and!; [done| |].
  { by apply parts_all. }
  apply parts_for_replicas. intros i m Hm Hlt. destruct (Hms _ _ Hm) as [Hg Hl].
  eexists. split; [by apply (csv_setup o file body m _ i Hf Hlt)|]. intros chunks Hc.
  rewrite read_chunks_spec. rewrite (Nat.min_r (sum_list chunks)); [by apply take_drop_part|].
  rewrite (before_part _ body _ Hn i Hlt), concat_app, length_app. lia.
Qed.

(** ** Ranges are covered once *)
Lemma seqZ_cut a b c : (a ≤ b)%Z → (b ≤ c)%Z → seqZ a (c - a) = seqZ a (b - a) ++ seqZ b (c - b).
Proof.
  intros. replace (c - a)%Z with ((b - a) + (c - b))%Z by lia.
  rewrite seqZ_app by lia. do 2 f_equal. lia.
Qed.

(** The bounds of part [i] of [start..end] in parts of [chunk] elements. *)
Definition chunk_start (start chunk : Z) (i : nat) : Z := (start + Z.of_nat i * chunk)%Z.
Definition chunk_items (start end_ chunk : Z) (i : nat) : list Z :=
  range_items (chunk_start start chunk i,
    Z.max (Z.min (chunk_start start chunk i + chunk) end_) start).

Lemma chunks_cover start end_ chunk m :
  (start ≤ end_)%Z → (0 ≤ chunk)%Z →
  concat (chunk_items start end_ chunk <$> seq 0 m) =
    seqZ start (Z.min (chunk_start start chunk m) end_ - start).
Proof.
  intros Hle Hc. induction m as [|m IH].
  { unfold chunk_start. cbn. by rewrite Z.add_0_r, Z.min_l, Z.sub_diag by lia. }
  rewrite seq_S, fmap_app, concat_app, IH. csimpl. rewrite app_nil_r.
  assert (0 ≤ Z.of_nat m * chunk)%Z as Hm by nia.
  assert (chunk_start start chunk (S m) = chunk_start start chunk m + chunk)%Z as ->
    by (unfold chunk_start; nia).
  unfold chunk_items, range_items. cbn. set (s := chunk_start start chunk m).
  assert (start ≤ s)%Z by (unfold s, chunk_start; lia).
  destruct (decide (s ≤ end_)%Z) as [Hs|Hs].
  - rewrite (Z.min_l s end_) by lia. rewrite Z.max_l by lia. symmetry. apply seqZ_cut; lia.
  - rewrite (Z.min_r s end_), (Z.min_r (s + chunk)), Z.max_l by lia.
    rewrite (seqZ_nil s) by lia. by rewrite app_nil_r.
Qed.

Lemma div_up n p : (0 ≤ n)%Z → (0 < p)%Z →
  (n ≤ p * ((n + p - 1) / p))%Z ∧ (p * ((n + p - 1) / p) ≤ n + p - 1)%Z ∧ (0 ≤ (n + p - 1) / p)%Z.
Proof.
  intros Hn Hp. pose proof (Z.mul_div_le (n + p - 1) p Hp). pose proof (Z.mul_succ_div_gt (n + p - 1) p Hp).
  split_and!; [nia|lia|apply Z.div_pos; lia].
Qed.

Lemma checked_in lo hi z : (lo ≤ z ≤ hi)%Z → checked lo hi z = Done z.
Proof. intros. unfold checked. by destruct (Z.leb_spec lo z), (Z.leb_spec z hi); try lia. Qed.
Lemma checked_above lo hi z : (hi < z)%Z → checked lo hi z = Panicked.
Proof. intros. unfold checked. destruct (Z.leb_spec z hi); [lia|]. by rewrite andb_false_r. Qed.
Lemma saturating_in lo hi z : (lo ≤ z ≤ hi)%Z → saturating lo hi z = z.
Proof. unfold saturating. lia. Qed.

(** Each replica gets its chunk. *)
Lemma generate_u64_chunk r (p : Z) (i : nat) :
  (0 ≤ u_start r ≤ u_end r)%Z → (u_end r + p ≤ u64_max)%Z → (Z.of_nat i < p)%Z →
  let chunk := ((u_end r - u_start r + p - 1) / p)%Z in
  generate_iterator r (Z.of_nat i) p = Done (chunk_items (u_start r) (u_end r) chunk i).
Proof.
  intros Hr Hmax Hi chunk. destruct (div_up (u_end r - u_start r) p) as (D1 & D2 & D3); [lia..|].
  fold chunk in D1, D2, D3.
  assert (0 ≤ Z.of_nat i * chunk ≤ u_end r - u_start r + p - 1)%Z as Hb by nia.
  unfold generate_iterator, RangeU64_source, generate_u64.
  rewrite checked_in by lia. cbn [mbind outcome_bind]. destruct (Z.eqb_spec p 0); [lia|].
  cbn [negb rassert mbind outcome_bind]. fold chunk. rewrite checked_in by lia.
  cbn [mbind outcome_bind fmap outcome_fmap].
  rewrite (saturating_in _ _ (u_start r + Z.of_nat i * chunk)) by lia.
  unfold chunk_items, chunk_start. do 3 f_equal.
  unfold saturating. lia.
Qed.

Lemma as_i64_in x : (i64_min ≤ x ≤ i64_max)%Z → as_i64 x = x.
Proof. unfold as_i64, i64_min, i64_max. intros. rewrite Z.mod_small by lia. lia. Qed.

(** The typed ranges compute the same chunk, then convert its bounds to the type. *)
Lemma generate_range_chunk {lo hi} (r : RangeOf lo hi) (p : Z) (i : nat) :
  (i64_min ≤ r_start r ≤ r_end r)%Z → (r_end r + p ≤ i64_max)%Z → (Z.of_nat i < p)%Z →
  let chunk := ((r_end r - r_start r + p - 1) / p)%Z in
  (r_end r - r_start r + p ≤ i64_max)%Z →
  let start := chunk_start (r_start r) chunk i in
  generate_range r (Z.of_nat i) p =
    (s ← checked lo hi start;
     e ← checked lo hi (Z.max (Z.min (start + chunk) (r_end r)) (r_start r));
     Done (s, e)).
Proof.
  intros Hr Hmax Hi chunk Hn start.
  destruct (div_up (r_end r - r_start r) p) as (D1 & D2 & D3); [lia..|]. fold chunk in D1, D2, D3.
  assert (0 ≤ Z.of_nat i * chunk ≤ r_end r - r_start r + p - 1)%Z as Hb by nia.
  assert (i64_min < 0 < i64_max)%Z as Hi64 by done.
  unfold generate_range.
  rewrite (checked_in _ _ (Z.of_nat i)) by lia. cbn [mbind outcome_bind].
  rewrite (checked_in _ _ p) by lia. cbn [mbind outcome_bind].
  rewrite !as_i64_in by lia. rewrite checked_in by lia. cbn [mbind outcome_bind].
  destruct (Z.eqb_spec p 0); [lia|]. cbn [negb rassert mbind outcome_bind].
  assert (Z.quot (saturating i64_min i64_max (r_end r - r_start r + (p - 1))) p = chunk) as ->.
  { rewrite saturating_in by lia. rewrite Z.quot_div_nonneg by lia. unfold chunk. f_equal. lia. }
  rewrite (checked_in _ _ (Z.of_nat i * chunk)) by lia. cbn [mbind outcome_bind].
  rewrite (saturating_in _ _ (r_start r + Z.of_nat i * chunk)) by lia.
  fold (chunk_start (r_start r) chunk i). fold start.
  assert (Z.min (saturating i64_min i64_max (start + chunk)) (r_end r) = Z.min (start + chunk) (r_end r))%Z
    as ->; [|done].
  assert (r_start r ≤ start)%Z by (unfold start, chunk_start; lia). unfold saturating. lia.
Qed.

Section range_replicas.
Context {S : Type} `{!IntoParallelSource S Z} (g : S) (start end_ chunk : Z).

Lemma parallel_source_emits (items : list Z) :
  ∃ q, emits (ParallelIteratorSource S Z) (mkParallelSource (GIterator items) false)
    ((Item <$> items) ++ [FlushAndRestart; Terminate]) q.
Proof.
  induction items as [|x items [q IH]].
  - eexists. do 2 (econstructor; [by exists 0|]). constructor.
  - exists q. econstructor; [by exists 0|exact IH].
Qed.

Lemma range_replicas (ms : list ExecutionMetadata) :
  (start ≤ end_)%Z → (0 ≤ chunk)%Z → (end_ - start ≤ Z.of_nat (length ms) * chunk)%Z →
  (∀ i m, ms !! i = Some m →
     em_global_id m = N.of_nat i ∧ length (em_replicas m) = length ms) →
  (∀ i : nat, i < length ms → generate_iterator g (Z.of_nat i) (Z.of_nat (length ms)) =
     Done (chunk_items start end_ chunk i)) →
  ∃ parts, concat parts = seqZ start (end_ - start) ∧
    Forall2 (λ m part, ∃ q0 q, ParallelIteratorSource_setup m (ParallelIteratorSource_new g) = Done q0 ∧
      emits (ParallelIteratorSource S Z) q0 ((Item <$> part) ++ [FlushAndRestart; Terminate]) q) ms parts.
Proof.
  intros Hle Hc Hcov Hms Hgen. exists (chunk_items start end_ chunk <$> seq 0 (length ms)). split.
  - rewrite chunks_cover by done. unfold chunk_start. by rewrite Z.min_r by lia.
  - apply parts_for_replicas. intros i m Hm Hlt. destruct (Hms _ _ Hm) as [Hg Hl].
    destruct (parallel_source_emits (chunk_items start end_ chunk i)) as [q Hq].
    eexists _, q. split; [|exact Hq]. unfold ParallelIteratorSource_setup. cbn.
    rewrite Hg, Hl, nat_N_Z. by rewrite Hgen.
Qed.
End range_replicas.

(** A range used as a parallel source is split among the replicas: together they emit
    every number of the range exactly once, in order, each replica then ends its stream;
    for [u64] and for the types that go through [i64], as long as the range is followed by
    as many representable values as there are replicas. *)
Theorem parallel_range_partition (ms : list ExecutionMetadata) :
  ms ≠ [] →
  (∀ i m, ms !! i = Some m →
     em_global_id m = N.of_nat i ∧ length (em_replicas m) = length ms) →
  (∀ r : RangeU64, (0 ≤ u_start r ≤ u_end r)%Z → (u_end r + Z.of_nat (length ms) ≤ u64_max)%Z →
   ∃ parts, concat parts = seqZ (u_start r) (u_end r - u_start r) ∧
     Forall2 (λ m part, ∃ q0 q, ParallelIteratorSource_setup m (ParallelIteratorSource_new r) = Done q0 ∧
       emits (ParallelIteratorSource RangeU64 Z) q0 ((Item <$> part) ++ [FlushAndRestart; Terminate]) q)
       ms parts) ∧
  (∀ lo hi (r : RangeOf lo hi), (i64_min ≤ lo ≤ 0)%Z → (lo ≤ r_start r ≤ r_end r)%Z →
   (r_end r + Z.of_nat (length ms) ≤ Z.min hi i64_max)%Z →
   (r_end r - r_start r + Z.of_nat (length ms) ≤ i64_max)%Z →
   ∃ parts, concat parts = seqZ (r_start r) (r_end r - r_start r) ∧
     Forall2 (λ m part, ∃ q0 q, ParallelIteratorSource_setup m (ParallelIteratorSource_new r) = Done q0 ∧
       emits (ParallelIteratorSource (RangeOf lo hi) Z) q0
         ((Item <$> part) ++ [FlushAndRestart; Terminate]) q)
       ms parts).
Proof.
  intros Hne Hms. assert (0 < length ms) as Hn by (destruct ms; [done|cbn; lia]). split.
  - intros r Hr Hmax.
    destruct (div_up (u_end r - u_start r) (Z.of_nat (length ms))) as (D1 & D2 & D3); [lia..|].
    eapply range_replicas; [lia|exact D3|lia|done|]. intros i Hi.
    apply generate_u64_chunk; lia.
  - intros lo hi r Hlo Hr Hmax Hn64.
    destruct (div_up (r_end r - r_start r) (Z.of_nat (length ms))) as (D1 & D2 & D3); [lia..|].
    eapply range_replicas; [lia|exact D3|lia|done|]. intros i Hi.
    set (chunk := ((r_end r - r_start r + Z.of_nat (length ms) - 1) / Z.of_nat (length ms))%Z) in *.
    assert (0 ≤ Z.of_nat i * chunk ≤ r_end r - r_start r + Z.of_nat (length ms) - 1)%Z as Hb by nia.
    unfold generate_iterator, RangeOf_source.
    rewrite (generate_range_chunk r (Z.of_nat (length ms)) i) by lia. fold chunk.
    unfold chunk_items, chunk_start.
    rewrite (checked_in _ _ (r_start r + Z.of_nat i * chunk)) by lia. cbn [mbind outcome_bind].
    by rewrite checked_in by lia.
Qed.

(** A range that ends close to the greatest value of its type cannot be split: when the
    first position of the part of a replica, were it empty or not, exceeds that value, the
    replica panics in [setup]. *)
Theorem parallel_range_panics {lo hi} (r : RangeOf lo hi) (peers : Z) (index : nat) metadata :
  (i64_min ≤ r_start r ≤ r_end r)%Z → (r_end r + peers ≤ i64_max)%Z →
  (r_end r - r_start r + peers ≤ i64_max)%Z →
  em_global_id metadata = N.of_nat index → Z.of_nat (length (em_replicas metadata)) = peers →
  (Z.of_nat index < peers)%Z →
  (hi < r_start r + Z.of_nat index * ((r_end r - r_start r + peers - 1) / peers))%Z →
  ParallelIteratorSource_setup metadata (ParallelIteratorSource_new r) = Panicked.
Proof.
  intros Hr Hmax Hn Hg Hp Hi Hhi. unfold ParallelIteratorSource_setup. cbn.
  unfold generate_iterator, RangeOf_source. rewrite Hg, Hp, nat_N_Z.
  rewrite generate_range_chunk by lia. unfold chunk_start. rewrite (checked_above _ _ _ Hhi). done.
Qed.

(** ** Examples *)
Module SourceExample.
Definition replicas : list Coord := [mkCoord 0 0 0; mkCoord 0 0 1; mkCoord 0 1 0; mkCoord 0 1 1].
Definition metadata (i : N) : ExecutionMetadata :=
  mkExecutionMetadata (mkCoord 0 0 i) replicas i [] Single.
Definition metadatas : list ExecutionMetadata := [metadata 0; metadata 1; metadata 2; metadata 3].
(** Three lines, the last one without a terminator. *)
Definition file : bytes := [x61; x62; x0a; x0a; x63; x64].

Lemma metadatas_ok i m :
  metadatas !! i = Some m → em_global_id m = N.of_nat i ∧ length (em_replicas m) = length metadatas.
Proof. do 4 (destruct i as [|i]; [by intros [= <-]|]). done. Qed.
End SourceExample.

Lemma FileSource_partition_witness :
  ∃ parts, concat parts = [[x61; x62; x0a]; [x0a]; [x63; x64]] ∧
    Forall2 (λ m part, ∃ q0 q, FileSource_setup m (Some SourceExample.file) FileSource_new = Done q0 ∧
      emits FileSource q0 ((Item <$> part) ++ [FlushAndRestart; Terminate]) q)
      SourceExample.metadatas parts.
Proof.
  refine (FileSource_partition SourceExample.file SourceExample.metadatas _ _ _).
  - done.
  - repeat constructor.
  - exact SourceExample.metadatas_ok.
Defined.

Lemma CsvSource_partition_witness :
  ∃ body parts, SourceExample.file = [x61; x62; x0a] ++ body ∧
    concat parts = split_lines newline body ∧
    Forall2 (λ m part, ∃ reader,
      CsvSource_setup CsvOptions_default m (Some SourceExample.file) = Done (reader, [x61; x62; x0a]) ∧
      ∀ chunks, length (concat part) ≤ sum_list chunks → read_chunks chunks reader = concat part)
      SourceExample.metadatas parts.
Proof.
  refine (CsvSource_partition CsvOptions_default SourceExample.file SourceExample.metadatas _ _).
  - done.
  - exact SourceExample.metadatas_ok.
Defined.

Lemma parallel_range_partition_witness :
  ∃ parts, concat parts = [10; 11; 12; 13; 14; 15]%Z ∧
    Forall2 (λ m part, ∃ q0 q, ParallelIteratorSource_setup m
        (ParallelIteratorSource_new (mkRangeOf 10 16 : RangeOf 0 255)) = Done q0 ∧
      emits (ParallelIteratorSource (RangeOf 0 255) Z) q0
        ((Item <$> part) ++ [FlushAndRestart; Terminate]) q) SourceExample.metadatas parts.
Proof.
  refine (proj2 (parallel_range_partition SourceExample.metadatas _ _) 0%Z 255%Z (mkRangeOf 10 16) _ _ _ _).
  - done.
  - exact SourceExample.metadatas_ok.
  - done.
  - done.
  - done.
  - done.
Defined.

(** [253u8..255] on four replicas. *)
Lemma parallel_range_panics_witness :
  ParallelIteratorSource_setup (SourceExample.metadata 3)
    (ParallelIteratorSource_new (mkRangeOf 253 255 : RangeOf 0 255)) = Panicked.
Proof.
  refine (parallel_range_panics (mkRangeOf 253 255 : RangeOf 0 255) 4 3 (SourceExample.metadata 3)
    _ _ _ _ _ _ _); done.
Defined.
