(* ===== verification/Sinks.v ===== *)
(** * Sinks

    The operators that end a block ([src/src/operator/sink/]): [CollectVecSink],
    [CollectCountSink], [Collect], [CollectChannelSink] and [ForEach].  Driven by the loop of a worker
    ([do_work]), each has seen every item of the stream when the loop ends. *)
From S2P Require Import Prelude StreamElement Operator BasicOps Folds.

(** The cell a sink shares with the [StreamOutput] of the program. *)
Abbreviation StreamOutputRef Out := (option Out) (only parsing).
(** [StreamOutput::get]: the content is taken. *)
Definition StreamOutput_get {Out} (cell : StreamOutputRef Out) : option Out * StreamOutputRef Out := (cell, None).

(** Elements that carry no item, at another type. *)
Definition pass {A B} (e : StreamElement A) : StreamElement B :=
  match e with
  | Watermark w => Watermark w
  | FlushBatch => FlushBatch
  | FlushAndRestart => FlushAndRestart
  | _ => Terminate
  end.

(** ** [CollectVecSink] *)
Record CollectVec_state (A : Type) := mkCollectVec {
  cv_result : option (list A);
  cv_output : StreamOutputRef (list A)
}.
Global Arguments mkCollectVec {_} _ _.
Global Arguments cv_result {_} _.
Global Arguments cv_output {_} _.
(** [CollectVecSink::new], with an output that has not been set. *)
Definition CollectVec_new {A} : CollectVec_state A := mkCollectVec (Some []) None.

(** [CollectVecSink::next]. *)
Definition CollectVec_next {A} (prev : Operator A) (fuel : nat) (q : CollectVec_state A * op_state prev)
    : outcome (StreamElement () * (CollectVec_state A * op_state prev)) :=
  match fuel with
  | O => OutOfFuel
  | S fuel =>
      let '(self, p) := q in
      '(e, p) ← op_next prev fuel p;
      match e with
      | Item t | Timestamped t _ =>
          let result := match cv_result self with Some result => Some (result ++ [t]) | None => None end in
          Done (Item (), (mkCollectVec result (cv_output self), p))
      | Watermark w => Done (Watermark w, (self, p))
      | Terminate =>
          match cv_result self with
          | Some result => Done (Terminate, (mkCollectVec None (Some result), p))
          | None => Done (Terminate, (self, p))
          end
      | FlushBatch => Done (FlushBatch, (self, p))
      | FlushAndRestart => Done (FlushAndRestart, (self, p))
      end
  end.
Definition CollectVecSink {A} (prev : Operator A) : Operator () := mkOperator _ (CollectVec_next prev).

(** ** [CollectCountSink] *)
Record CollectCount_state := mkCollectCount {
  cc_result : N;
  cc_output : StreamOutputRef N
}.
Definition CollectCount_new : CollectCount_state := mkCollectCount 0 None.

(** [CollectCountSink::next]; the sum of [usize] wraps. *)
Definition CollectCount_next (prev : Operator N) (fuel : nat) (q : CollectCount_state * op_state prev)
    : outcome (StreamElement () * (CollectCount_state * op_state prev)) :=
  match fuel with
  | O => OutOfFuel
  | S fuel =>
      let '(self, p) := q in
      '(e, p) ← op_next prev fuel p;
      match e with
      | Item c | Timestamped c _ =>
          Done (Item (), (mkCollectCount ((cc_result self + c) mod 2 ^ 64)%N (cc_output self), p))
      | Watermark w => Done (Watermark w, (self, p))
      | Terminate => Done (Terminate, (mkCollectCount (cc_result self) (Some (cc_result self)), p))
      | FlushBatch => Done (FlushBatch, (self, p))
      | FlushAndRestart => Done (FlushAndRestart, (self, p))
      end
  end.
Definition CollectCountSink (prev : Operator N) : Operator () := mkOperator _ (CollectCount_next prev).

(** ** [Collect]: all items go through [C::from_iter] *)
Record Collect_state (A C : Type) := mkCollect {
  (** what the iterator of the call in progress has given *)
  co_taken : list A;
  co_output : StreamOutputRef C
}.
Global Arguments mkCollect {_ _} _ _.
Global Arguments co_taken {_ _} _.
Global Arguments co_output {_ _} _.
Definition Collect_new {A C} : Collect_state A C := mkCollect [] None.

(** [Collect::next], for a collection whose [from_iter] reads its iterator to the end. *)
Fixpoint Collect_next {A C} (prev : Operator A) (from_iter : list A → C) (fuel : nat)
    (q : Collect_state A C * op_state prev)
    : outcome (StreamElement () * (Collect_state A C * op_state prev)) :=
  match fuel with
  | O => OutOfFuel
  | S fuel =>
      let '(self, p) := q in
      '(e, p) ← op_next prev fuel p;
      match e with
      | Item t | Timestamped t _ =>
          Collect_next prev from_iter fuel (mkCollect (co_taken self ++ [t]) (co_output self), p)
      | Terminate => Done (Terminate, (mkCollect [] (Some (from_iter (co_taken self))), p))
      | _ => Collect_next prev from_iter fuel (self, p)
      end
  end.
Definition Collect {A C} (prev : Operator A) (from_iter : list A → C) : Operator () :=
  mkOperator _ (Collect_next prev from_iter).

(** ** [CollectChannelSink]: the channel is what has been sent, and whether it is open *)
Record CollectChannel_state (A : Type) := mkCollectChannel {
  (** [None] once the sending end is dropped *)
  ch_tx : option ();
  ch_sent : list A
}.
Global Arguments mkCollectChannel {_} _ _.
Global Arguments ch_tx {_} _.
Global Arguments ch_sent {_} _.
Definition CollectChannel_new {A} : CollectChannel_state A := mkCollectChannel (Some ()) [].

(** [CollectChannelSink::next]. *)
Definition CollectChannel_next {A} (prev : Operator A) (fuel : nat) (q : CollectChannel_state A * op_state prev)
    : outcome (StreamElement () * (CollectChannel_state A * op_state prev)) :=
  match fuel with
  | O => OutOfFuel
  | S fuel =>
      let '(self, p) := q in
      '(e, p) ← op_next prev fuel p;
      match e with
      | Item t | Timestamped t _ =>
          let sent := match ch_tx self with Some _ => ch_sent self ++ [t] | None => ch_sent self end in
          Done (Item (), (mkCollectChannel (ch_tx self) sent, p))
      | Watermark w => Done (Watermark w, (self, p))
      | Terminate => Done (Terminate, (mkCollectChannel None (ch_sent self), p))
      | FlushBatch => Done (FlushBatch, (self, p))
      | FlushAndRestart => Done (FlushAndRestart, (self, p))
      end
  end.
Definition CollectChannelSink {A} (prev : Operator A) : Operator () := mkOperator _ (CollectChannel_next prev).

(** ** [ForEach]: the closure updates a state of its own *)
(** [ForEach::next]. *)
Fixpoint ForEach_next {A S} (prev : Operator A) (f : S → A → S) (fuel : nat) (q : S * op_state prev)
    : outcome (StreamElement () * (S * op_state prev)) :=
  match fuel with
  | O => OutOfFuel
  | Datatypes.S fuel =>
      let '(self, p) := q in
      '(e, p) ← op_next prev fuel p;
      match e with
      | Item t | Timestamped t _ => ForEach_next prev f fuel (f self t, p)
      | Watermark w => Done (Watermark w, (self, p))
      | Terminate => Done (Terminate, (self, p))
      | FlushBatch => Done (FlushBatch, (self, p))
      | FlushAndRestart => Done (FlushAndRestart, (self, p))
      end
  end.
Definition ForEach {A S} (prev : Operator A) (f : S → A → S) : Operator () := mkOperator _ (ForEach_next prev f).

(** ** The abstract behaviour of a sink *)
Section sink.
Context {A S : Type} (push : S → A → S) (stop : S → S) (answers collects : bool).

(** [answers]: items are answered with a unit; [collects]: nothing is answered before
    [Terminate]. *)
Definition sinking : transducer A () :=
  mkTransducer S (λ _, None)
    (λ s e, match e with
            | Item t | Timestamped t _ => Done (push s t, if answers then Some (Item ()) else None)
            | Terminate => Done (stop s, Some Terminate)
            | _ => Done (s, if collects then None else Some (pass e))
            end).

Lemma sinking_runs s l :
  Forall (λ e, e ≠ Terminate) l →
  ∃ out, Forall (λ e, e ≠ Terminate) out ∧
    runs sinking s (l ++ [Terminate]) (out ++ [Terminate]) (stop (foldl push s (values l))).
Proof.
  intros Hl. revert s. induction Hl as [|e l He _ IH]; intros s.
  { exists []. split; [constructor|]. eapply runs_return; [done|done|constructor]. }
  assert (∀ s1 o, t_feed sinking s e = Done (s1, o) → from_option (λ x, x ≠ Terminate) True o →
    foldl push s1 (values l) = foldl push s (values (e :: l)) →
    ∃ out, Forall (λ e, e ≠ Terminate) out ∧
      runs sinking s ((e :: l) ++ [Terminate]) (out ++ [Terminate]) (stop (foldl push s (values (e :: l))))) as Hstep.
  { intros s1 o Hf Ho Hv. destruct (IH s1) as (out & Hout & Hr). rewrite Hv in Hr. destruct o as [x|].
    - exists (x :: out). split; [by constructor|]. by eapply runs_return.
    - exists out. split; [done|]. eapply runs_skip_ne; [done|done|by destruct out|done]. }
  destruct e; try done; (eapply Hstep; [reflexivity| |done]); by destruct answers, collects.
Qed.

(** A sink that behaves like this, in a worker. *)
Lemma sink_works (prev : Operator A) next `{!OperatorLaws prev, !Follows prev sinking next} s p l p' :
  Forall (λ e, e ≠ Terminate) l → emits prev p (l ++ [Terminate]) p' →
  ∃ f out, do_work (mkOperator _ next) f (s, p) = Done (out, (stop (foldl push s (values l)), p')).
Proof.
  intros Hl He. destruct (sinking_runs s l Hl) as (out & Hout & Hr).
  pose proof (follows_laws prev sinking next) as Hlaws.
  destruct (do_work_complete (mkOperator _ next) (s, p) out (stop (foldl push s (values l)), p') Hout) as [f Hf].
  { eapply (refines_emits prev sinking); [apply follows_refines; apply _|exact Hr|exact He]. }
  by exists f, (out ++ [Terminate]).
Qed.
End sink.

Section sinks.
Context {A : Type} (prev : Operator A).

Definition cv_push (s : CollectVec_state A) (t : A) : CollectVec_state A :=
  mkCollectVec (match cv_result s with Some result => Some (result ++ [t]) | None => None end) (cv_output s).
Definition cv_stop (s : CollectVec_state A) : CollectVec_state A :=
  match cv_result s with Some result => mkCollectVec None (Some result) | None => s end.
Global Instance CollectVec_follows : Follows prev (sinking cv_push cv_stop true false) (CollectVec_next prev).
Proof.
  constructor; [by intros []|]. intros f s p. unfold drive. cbn.
  destruct (op_next prev f p) as [[[] p1]| | |]; cbn; try done. unfold cv_stop. by destruct (cv_result s).
Qed.

Definition co_push {C} (s : Collect_state A C) (t : A) : Collect_state A C :=
  mkCollect (co_taken s ++ [t]) (co_output s).
Definition co_stop {C} (from_iter : list A → C) (s : Collect_state A C) : Collect_state A C :=
  mkCollect [] (Some (from_iter (co_taken s))).
Global Instance Collect_follows {C} (from_iter : list A → C) :
  Follows prev (sinking co_push (co_stop from_iter) false true) (Collect_next prev from_iter).
Proof.
  constructor; [by intros []|]. intros f s p. unfold drive. cbn. by destruct (op_next prev f p) as [[[] p1]| | |].
Qed.

Definition ch_push (s : CollectChannel_state A) (t : A) : CollectChannel_state A :=
  mkCollectChannel (ch_tx s) (match ch_tx s with Some _ => ch_sent s ++ [t] | None => ch_sent s end).
Definition ch_stop (s : CollectChannel_state A) : CollectChannel_state A := mkCollectChannel None (ch_sent s).
Global Instance CollectChannel_follows :
  Follows prev (sinking ch_push ch_stop true false) (CollectChannel_next prev).
Proof.
  constructor; [by intros []|]. intros f s p. unfold drive. cbn. by destruct (op_next prev f p) as [[[] p1]| | |].
Qed.

Global Instance ForEach_follows {S} (f : S → A → S) : Follows prev (sinking f id false false) (ForEach_next prev f).
Proof.
  constructor; [by intros []|]. intros n s p. unfold drive. cbn. by destruct (op_next prev n p) as [[[] p1]| | |].
Qed.

Lemma cv_push_all r o l : foldl cv_push (mkCollectVec (Some r) o) l = mkCollectVec (Some (r ++ l)) o.
Proof.
  revert r. induction l as [|x l IH]; intros r; simpl; [by rewrite app_nil_r|].
  unfold cv_push at 2. simpl. by rewrite IH, <-(assoc_L (++)).
Qed.
Lemma co_push_all {C} r (o : option C) l : foldl co_push (mkCollect r o) l = mkCollect (r ++ l) o.
Proof.
  revert r. induction l as [|x l IH]; intros r; simpl; [by rewrite app_nil_r|].
  unfold co_push at 2. simpl. by rewrite IH, <-(assoc_L (++)).
Qed.
Lemma ch_push_all r l : foldl ch_push (mkCollectChannel (Some ()) r) l = mkCollectChannel (Some ()) (r ++ l).
Proof.
  revert r. induction l as [|x l IH]; intros r; simpl; [by rewrite app_nil_r|].
  unfold ch_push at 2. simpl. by rewrite IH, <-(assoc_L (++)).
Qed.
End sinks.

Definition cc_push (s : CollectCount_state) (c : N) : CollectCount_state :=
  mkCollectCount ((cc_result s + c) mod 2 ^ 64)%N (cc_output s).
Definition cc_stop (s : CollectCount_state) : CollectCount_state :=
  mkCollectCount (cc_result s) (Some (cc_result s)).
Global Instance CollectCount_follows (prev : Operator N) :
  Follows prev (sinking cc_push cc_stop true false) (CollectCount_next prev).
Proof.
  constructor; [by intros []|]. intros f s p. unfold drive. cbn. by destruct (op_next prev f p) as [[[] p1]| | |].
Qed.
Lemma cc_push_all r o l :
  (r < 2 ^ 64)%N → foldl cc_push (mkCollectCount r o) l = mkCollectCount ((r + foldr N.add 0 l) mod 2 ^ 64)%N o.
Proof.
  revert r. induction l as [|x l IH]; intros r Hr; simpl.
  - by rewrite N.add_0_r, N.mod_small.
  - unfold cc_push at 2. simpl. rewrite IH by (by apply N.mod_lt).
    by rewrite N.Div0.add_mod_idemp_l, N.add_assoc.
Qed.

Lemma stream_no_terminate {A} (rounds : list (list (StreamElement A))) :
  Forall (Forall (λ e, is_data e = true)) rounds →
  ∃ l, stream_of rounds = l ++ [Terminate] ∧ Forall (λ e, e ≠ Terminate) l ∧ values l = concat (values <$> rounds).
Proof.
  intros Hr. eexists. split; [done|]. split.
  - induction Hr as [|r rounds Hr _ IH]; csimpl; [constructor|]. apply Forall_app. split; [|exact IH].
    apply Forall_app. split; [|by repeat constructor]. eapply Forall_impl; [exact Hr|]. by intros [].
  - clear. induction rounds as [|r rounds IH]; csimpl; [done|].
    rewrite !values_app, IH. unfold values at 2. csimpl. by rewrite app_nil_r.
Qed.

(** A worker that drives a block ending in a sink stops, and then every item of every
    round of the stream has reached the sink, in order: [CollectVecSink] has put them into
    the output, [Collect] the collection made of them, [CollectChannelSink] has sent them
    and closed the channel, [ForEach] has given them to its closure, and
    [CollectCountSink] has put their sum, at the width of [usize], into the output. *)
Theorem sinks_complete {A C S} (prev : Operator A) `{!OperatorLaws prev} (from_iter : list A → C) (f : S → A → S) s0
    p rounds p' (prevN : Operator N) `{!OperatorLaws prevN} q counts q' :
  Forall (Forall (λ e, is_data e = true)) rounds → emits prev p (stream_of rounds) p' →
  Forall (Forall (λ e, is_data e = true)) counts → emits prevN q (stream_of counts) q' →
  let items := concat (values <$> rounds) in
  (∃ n out, do_work (CollectVecSink prev) n (CollectVec_new, p) = Done (out, (mkCollectVec None (Some items), p'))) ∧
  (∃ n out, do_work (Collect prev from_iter) n (Collect_new, p) = Done (out, (mkCollect [] (Some (from_iter items)), p'))) ∧
  (∃ n out, do_work (CollectChannelSink prev) n (CollectChannel_new, p) = Done (out, (mkCollectChannel None items, p'))) ∧
  (∃ n out, do_work (ForEach prev f) n (s0, p) = Done (out, (foldl f s0 items, p'))) ∧
  (∃ n out, let sum := (foldr N.add 0 (concat (values <$> counts)) mod 2 ^ 64)%N in
     do_work (CollectCountSink prevN) n (CollectCount_new, q) = Done (out, (mkCollectCount sum (Some sum), q'))).
Proof.
  intros Hr He Hc Hn items.
  destruct (stream_no_terminate rounds Hr) as (l & El & Hl & Hv). rewrite El in He.
  destruct (stream_no_terminate counts Hc) as (ln & En & Hln & Hvn). rewrite En in Hn. unfold items. rewrite <-Hv, <-Hvn.
  split_and!.
  - destruct (sink_works cv_push cv_stop true false prev (CollectVec_next prev) CollectVec_new p l p' Hl He)
      as (n & out & Hw). exists n, out. unfold CollectVec_new in Hw. by rewrite cv_push_all in Hw.
  - destruct (sink_works co_push (co_stop from_iter) false true prev (Collect_next prev from_iter) Collect_new p l p'
      Hl He) as (n & out & Hw). exists n, out. unfold Collect_new in Hw. by rewrite co_push_all in Hw.
  - destruct (sink_works ch_push ch_stop true false prev (CollectChannel_next prev) CollectChannel_new p l p' Hl He)
      as (n & out & Hw). exists n, out. unfold CollectChannel_new in Hw. by rewrite ch_push_all in Hw.
  - by apply (sink_works f id false false prev (ForEach_next prev f) s0 p l p' Hl He).
  - destruct (sink_works cc_push cc_stop true false prevN (CollectCount_next prevN) CollectCount_new q ln q' Hln Hn)
      as (n & out & Hw). exists n, out. unfold CollectCount_new in Hw. by rewrite cc_push_all in Hw.
Qed.

Lemma sinks_complete_witness :
  let rounds := [[Item 1%N; FlushBatch; Timestamped 2%N 5]; [Item 3%N]] in
  (∃ n out, do_work (CollectVecSink (FakeOperator N)) n (CollectVec_new, stream_of rounds) =
     Done (out, (mkCollectVec None (Some [1; 2; 3]%N), []))) ∧
  (∃ n out, do_work (CollectCountSink (FakeOperator N)) n (CollectCount_new, stream_of rounds) =
     Done (out, (mkCollectCount 6 (Some 6%N), []))).
Proof.
  intros rounds.
  destruct (sinks_complete (FakeOperator N) id N.add 0%N (stream_of rounds) rounds [] (FakeOperator N)
    (stream_of rounds) rounds []) as (H1 & _ & _ & _ & H5);
    [repeat constructor|apply FakeOperator_emits_all|repeat constructor|apply FakeOperator_emits_all|].
  split; [exact H1|exact H5].
Defined.
