(* ===== verification/Gather.v ===== *)
(** * Jobs that end on one replica

    [Stream::fold], [fold_assoc], [reduce], [reduce_assoc], [collect_vec] and [collect_count]
    of [src/src/operator/mod.rs]: the stream is brought to a single replica with
    [replication(Replication::One)], that is with the strategy [OnlyOne] and one receiver, and
    folded or collected there.  This file puts together the chain before the split, [End], the
    channels, [Start] and the chain after it. *)
From S2P Require Import Prelude StreamElement Operator BasicOps Folds Frontier Batcher Start End Shuffle Exchange.
From S2P Require Import GroupByFold Aggregations Sinks.

(** ** What one replica receives from all the others *)
Section gather.
Context {B : Type} `{!TypeId B} (pb : BlockId) (cs : list Coord) (d : Coord) (mode : BatchMode).
Context (senders : Coord → Sender B) (md : ExecutionMetadata).

(** Every sender and, whatever the channel does, the receiver runs to termination; [post] is said of
    the trace the chain of the receiver reads. *)
Definition gathering (post : op_state (Start (R := SimpleStartReceiver B) None) → Prop) : Prop :=
  ∃ nets : Coord → Network B,
    (∀ c, c ∈ cs → shipping OnlyOne mode c (senders c) (nets c)) ∧
    (∃ ch, fifo pb cs nets d ch) ∧
    ∀ ch, fifo pb cs nets d ch →
    ∃ q, Start_setup md (λ _, Done ch) (Start_new (SimpleStartReceiver_new pb)) = Done q ∧ post q.

(** What the replica reads: all the items, in some order. *)
Definition reads_all (items : list B) (q : op_state (Start (R := SimpleStartReceiver B) None)) : Prop :=
  ∃ outs fl st',
    emits (Start None) q (outs ++ FlushAndRestart :: fl ++ [Terminate]) st' ∧
    Forall (λ e, e = FlushBatch) fl ∧ Forall (λ e, is_data e = true) outs ∧
    omap watermark_ts outs = [] ∧ omap item_ts outs = [] ∧ values outs ≡ₚ items.

Context (Hcs : NoDup cs) (Hne : cs ≠ []) (Hmode : wf_mode mode).
Context (Hok : ∀ c, c ∈ cs → sender_ok pb [d] (senders c)).
Context (Hmd : matching (A := B) pb (em_prev md) ≡ₚ cs).

Lemma gathered : gathering (reads_all (concat ((λ c, sn_items (senders c)) <$> cs))).
Proof.
  destruct (finite_choice (λ c net, shipping OnlyOne mode c (senders c) net ∧
    ships mode pb [d] c (λ _, sn_items (senders c)) net) (mkNetwork ∅ ∅) cs) as [nets Hnets].
  { intros c Hc. apply shipping_everywhere; [by eauto|apply NoDup_singleton|done|by apply Hok]. }
  assert (∀ c, c ∈ cs → Forall (batch_ok c (max_size mode)) (sent_to (nets c) (endpoint_to pb d)) ∧
    unbatched (sent_to (nets c) (endpoint_to pb d)) =
      (Item <$> sn_items (senders c)) ++ [FlushAndRestart; Terminate]) as Hs.
  { intros c Hc. apply (Hnets c Hc). left. }
  exists nets. split_and!; [by intros; apply Hnets| |].
  - eexists. apply (fifo_sequential mode pb (block_id d) cs [d]); [done|apply NoDup_singleton|done| |done|done|].
    + by constructor.
    + intros c Hc. destruct (Hs c Hc) as [Hb Hu]. split; [done|]. intros E. rewrite E in Hu.
      by apply symmetry, app_nil in Hu as [_ ?].
  - intros ch Hf. destruct (Start_setup_spec md (λ _, Done ch) pb ch eq_refl) as (s & Hset & Hs0).
    destruct (receive_round cs _ (λ c, sn_items (senders c)) ch (max_delay (em_batch_mode md)) pb s Hcs Hmd Hs0
      (fifo_shares mode pb cs nets (λ c, sn_items (senders c)) d ch Hs Hf)) as (outs & fl & s' & rx' & He & Hr).
    eexists. split; [exact Hset|]. by exists outs, fl, (s', rx').
Qed.

Lemma gathering_mono (post post' : op_state (Start (R := SimpleStartReceiver B) None) → Prop) :
  (∀ q, post q → post' q) → gathering post → gathering post'.
Proof.
  intros Hp (nets & H1 & H2 & H3). exists nets. split_and!; [done..|]. intros ch Hf.
  destruct (H3 ch Hf) as (q & Hset & Hq). eauto.
Qed.
End gather.

(** ** Folds *)
(** What a fold gives: nothing for no item. *)
Definition folded {A O} (init : O) (f : O → A → O) (l : list A) : list O :=
  match l with [] => [] | _ => [foldl f init l] end.

Lemma Fold_emits_items {A O} (prev : Operator A) `{!OperatorLaws prev} (init : O) f p outs fl p' :
  Forall (λ e, e = FlushBatch) fl → Forall (λ e, is_data e = true) outs →
  omap watermark_ts outs = [] → omap item_ts outs = [] →
  emits prev p (outs ++ FlushAndRestart :: fl ++ [Terminate]) p' →
  emits (Fold prev init f) (Fold_new O, p) ((Item <$> folded init f (values outs)) ++ [FlushAndRestart; Terminate])
    (mkFold None None None true false, p').
Proof.
  intros Hfl Hd Hw Ht He. rewrite (cons_middle FlushAndRestart), (assoc_L (++)) in He.
  apply emits_app_inv in He as (p1 & H1 & H2).
  pose proof (Fold_round prev init f p outs p1 Hd H1) as R1.
  assert (fold_round init f outs = (Item <$> folded init f (values outs)) ++ [FlushAndRestart]) as E.
  { unfold fold_round, fold_acc, folded. rewrite Hw, Ht. by destruct (values outs). }
  rewrite E in R1. rewrite (cons_middle FlushAndRestart), (assoc_L (++)). eapply emits_app; [exact R1|].
  eapply (refines_emits prev (folding init f)); [apply follows_refines; apply _| |exact H2].
  clear H2. induction Hfl as [|e fl -> _ IH]; cbn [app].
  - eapply runs_skip; [done|done|]. eapply runs_ready; [done|constructor].
  - eapply runs_skip; [done|done|exact IH].
Qed.

(** The chain of a replica of a job, with its own fold before the split. *)
Definition fold_sender {A O} (init : O) (local : O → A → O) (s : Sender A) : Sender O :=
  mkSender (folded init local (sn_items s)) (Fold (sn_src s) init local)
    (let _ := sn_laws s in Fold_laws (sn_src s) init local) (Fold_new O, sn_start s)
    (mkFold None None None true false, sn_stop s) (sn_receivers s) (sn_env s) (sn_rng s) (sn_order s) (sn_sort s).

Lemma fold_sender_ok {A O} (init : O) (local : O → A → O) pb R (s : Sender A) :
  sender_ok pb R s → sender_ok pb R (fold_sender init local s).
Proof.
  intros [He Hr]. split; [|done]. cbn [fold_sender sn_src sn_start sn_items sn_stop].
  pose proof (sn_laws s).
  assert (values (Item <$> sn_items s) = sn_items s) as Ev.
  { clear. unfold values. induction (sn_items s) as [|x l IH]; csimpl; [done|]. by f_equal. }
  rewrite <-Ev at 1. eapply (Fold_emits_items _ _ _ _ (Item <$> sn_items s) []).
  - constructor.
  - apply Forall_fmap, Forall_forall. done.
  - clear. by induction (sn_items s).
  - clear. by induction (sn_items s).
  - exact He.
Qed.

(** The receiving half of [fold] and [fold_assoc] gives the results [res]. *)
Definition fold_run {B O} `{!TypeId B} (init : O) (f : O → B → O) (res : list O)
    (q : op_state (Start (R := SimpleStartReceiver B) None)) : Prop :=
  ∃ st', emits (Fold (Start None) init f) (Fold_new O, q) ((Item <$> res) ++ [FlushAndRestart; Terminate]) st'.

Lemma reads_fold {B O} `{!TypeId B} (init : O) (f : O → B → O) items q :
  reads_all items q → ∃ l, l ≡ₚ items ∧ fold_run init f (folded init f l) q.
Proof.
  intros (outs & fl & st' & He & Hfl & Hd & Hw & Ht & Hv). exists (values outs). split; [done|].
  eexists. eapply Fold_emits_items; [apply _|exact Hfl|exact Hd|exact Hw|exact Ht|exact He].
Qed.

(** Merging the partial results in any order. *)
Lemma fold_partials {A O C} (init : O) (local : O → A → O) (global : O → O → O) (items : C → list A) (cs : list C) l :
  (∀ l l', global (foldl local init l) (foldl local init l') = foldl local init (l ++ l')) →
  l ≡ₚ concat ((λ c, folded init local (items c)) <$> cs) →
  ∃ l', l' ≡ₚ concat (items <$> cs) ∧ folded init global l = folded init local l'.
Proof.
  intros Hm Hp.
  assert (∃ lss, l = foldl local init <$> lss ∧ Forall (λ x, x ≠ []) lss ∧ concat lss ≡ₚ concat (items <$> cs))
    as (lss & -> & Hn & Hl).
  { assert (concat ((λ c, folded init local (items c)) <$> cs) =
      foldl local init <$> base.filter (λ x, x ≠ []) (items <$> cs)) as E.
    { clear. induction cs as [|c cs IH]; [done|]. csimpl. rewrite IH, filter_cons. unfold folded.
      by destruct (items c) eqn:Ei; case_decide. }
    rewrite E in Hp. apply Permutation_map_inv in Hp as (lss & -> & Hp). exists lss. split; [done|]. split.
    - rewrite <-Hp. apply Forall_forall. by intros x [? _]%list_elem_of_filter.
    - rewrite <-Hp. apply reflexive_eq. clear. induction (items <$> cs) as [|x xs IH]; [done|]. rewrite filter_cons.
      case_decide as Hx; csimpl; [by rewrite IH|]. by destruct x. }
  exists (concat lss). split; [done|].
  assert (∀ l0, foldl global (foldl local init l0) (foldl local init <$> lss) = foldl local init (l0 ++ concat lss)) as Hg.
  { clear -Hm. induction lss as [|x lss IH]; intros l0; csimpl; [by rewrite app_nil_r|].
    by rewrite Hm, IH, (assoc_L (++)). }
  specialize (Hg []). cbn [foldl app] in Hg. destruct Hn as [|x lss Hx Hn]; [done|]. csimpl in *.
  destruct x as [|a x]; [done|]. cbn [folded app]. by rewrite Hg.
Qed.

(** The counts of the replicas add up, at the width of [usize]. *)
Lemma count_partials {A C} (items : C → list A) (cs : list C) l :
  l ≡ₚ concat ((λ c, folded 0%N count_local (items c)) <$> cs) →
  ((0 + foldr N.add 0 l) mod 2 ^ 64 = N.of_nat (length (concat (items <$> cs))) mod 2 ^ 64)%N.
Proof.
  intros Hp. rewrite N.add_0_l.
  assert (foldr N.add 0 l = foldr N.add 0 (concat ((λ c, folded 0 count_local (items c)) <$> cs)))%N as ->.
  { clear -Hp. induction Hp; cbn [foldr]; lia. }
  clear Hp. induction cs as [|c cs IH]; [done|]. csimpl.
  rewrite foldr_app, length_app, Nnat.Nat2N.inj_add. destruct (items c) as [|x xs]; [exact IH|].
  assert (folded 0%N count_local (x :: xs) = [usize_of_nat (length (x :: xs))]) as ->.
  { unfold folded. by rewrite foldl_count. }
  cbn [foldr]. unfold usize_of_nat. by rewrite N.Div0.add_mod_idemp_l, N.Div0.add_mod, IH, <-N.Div0.add_mod.
Qed.

Section jobs.
Context (pb : BlockId) (cs : list Coord) (d : Coord) (mode : BatchMode) (md : ExecutionMetadata).
Context {A : Type} (senders : Coord → Sender A).
Definition everything : list A := concat ((λ c, sn_items (senders c)) <$> cs).
Context (Hcs : NoDup cs) (Hne : cs ≠ []) (Hmode : wf_mode mode) (Hok : ∀ c, c ∈ cs → sender_ok pb [d] (senders c)).

(** [Stream::fold]: the items in the order they arrive. *)
Lemma fold_distributed {O} `{!TypeId A} (init : O) (f : O → A → O) :
  matching (A := A) pb (em_prev md) ≡ₚ cs →
  gathering pb cs d mode senders md
    (λ q, ∃ l, l ≡ₚ everything ∧ fold_run init f (folded init f l) q).
Proof.
  intros Hmd. eapply gathering_mono; [|by apply gathered]. intros q. apply reads_fold.
Qed.

(** [Stream::fold_assoc]. *)
Lemma fold_assoc_run {O} `{!TypeId O} (init : O) (local : O → A → O) (global : O → O → O) :
  matching (A := O) pb (em_prev md) ≡ₚ cs →
  (∀ l l', global (foldl local init l) (foldl local init l') = foldl local init (l ++ l')) →
  (∀ l l', l ≡ₚ l' → foldl local init l = foldl local init l') →
  gathering pb cs d mode (λ c, fold_sender init local (senders c)) md
    (fold_run init global (folded init local everything)).
Proof.
  intros Hmd Hm Hc. eapply gathering_mono; [|apply gathered; [done..|by intros; apply fold_sender_ok, Hok|done]].
  intros q Hq. destruct (reads_fold init global _ q Hq) as (l & Hl & Hrun).
  destruct (fold_partials init local global (λ c, sn_items (senders c)) cs l Hm Hl) as (l' & Hl' & E).
  rewrite E in Hrun. assert (folded init local l' = folded init local everything) as <-; [|done].
  unfold folded. fold everything in Hl'. destruct l' as [|x l'].
  - apply symmetry, Permutation_nil_r in Hl'. by rewrite Hl'.
  - destruct everything as [|y l2] eqn:Ee; [by apply Permutation_nil_r in Hl'|]. f_equal. by apply Hc.
Qed.

(** C5. [Stream::fold_assoc] on any number of replicas is the sequential fold: when [global] merges
    the results of [local] and the order of the items does not matter to the fold, the
    replicas fold what they have, the single replica of the next block merges the partial
    results in whatever order they arrive, and the stream is the one item
    [foldl local init] of everything that was read, or empty when nothing was, although [init]
    is given to every replica and once more to the merge. *)
Theorem fold_assoc_distributed {O} `{!TypeId O} (init : O) (local : O → A → O) (global : O → O → O) :
  matching (A := O) pb (em_prev md) ≡ₚ cs →
  (∀ l l', global (foldl local init l) (foldl local init l') = foldl local init (l ++ l')) →
  (∀ l l', l ≡ₚ l' → foldl local init l = foldl local init l') →
  gathering pb cs d mode (λ c, fold_sender init local (senders c)) md
    (fold_run init global (folded init local everything)).
Proof.
  apply fold_assoc_run.
Qed.

(** [Stream::reduce] and [Stream::reduce_assoc]: the folds with an optional accumulator, and the
    [map] that unwraps it. *)
Definition reduce_assoc_global (f : A → A → A) (acc1 acc2 : option A) : option A :=
  match acc1, acc2 with
  | Some a, Some b => Some (f a b)
  | None, Some a | Some a, None => Some a
  | None, None => None
  end.
Definition reduce_run {B} `{!TypeId B} (f : option A → B → option A) (res : list A)
    (q : op_state (Start (R := SimpleStartReceiver B) None)) : Prop :=
  ∃ st', emits (Map_closure (Fold (Start None) None f) unwrap) (tt, (Fold_new (option A), q))
    ((Item <$> res) ++ [FlushAndRestart; Terminate]) st'.

Lemma fold_run_unwrap {B} `{!TypeId B} (f : option A → B → option A) l res q :
  fold_run None f l q → l = Some <$> res → reduce_run f res q.
Proof.
  intros [st' He] ->. exists (tt, st'). eapply Map_closure_emits; [exact He|].
  apply Forall2_app; [|by repeat constructor]. clear. by induction res; constructor.
Qed.
Lemma folded_reduce (f : A → A → A) l : folded None (reduce_local f) l = Some <$> option_list (reduce1 f l).
Proof. destruct l as [|x l]; [done|]. unfold folded. fold (reduce1 f (x :: l)). by rewrite reduce1_cons. Qed.

Lemma reduce_distributed `{!TypeId A} (f : A → A → A) :
  matching (A := A) pb (em_prev md) ≡ₚ cs →
  gathering pb cs d mode senders md
    (λ q, ∃ l, l ≡ₚ everything ∧ reduce_run (reduce_local f) (option_list (reduce1 f l)) q).
Proof.
  intros Hmd. eapply gathering_mono; [|exact (fold_distributed None (reduce_local f) Hmd)]. intros q (l & Hl & Hrun).
  exists l. split; [done|]. eapply fold_run_unwrap; [exact Hrun|]. apply folded_reduce.
Qed.
(** On replicas: for an associative and commutative function, the reduction of everything. *)
Lemma reduce_assoc_distributed `{!TypeId (option A)} (f : A → A → A) :
  (∀ x y z, f x (f y z) = f (f x y) z) → (∀ x y, f x y = f y x) →
  matching (A := option A) pb (em_prev md) ≡ₚ cs →
  gathering pb cs d mode (λ c, fold_sender None (reduce_local f) (senders c)) md
    (reduce_run (reduce_assoc_global f) (option_list (reduce1 f everything))).
Proof.
  intros Ha Hc Hmd. eapply gathering_mono; [|apply (fold_assoc_run None (reduce_local f) (reduce_assoc_global f)); [done|..]].
  - intros q Hrun. eapply fold_run_unwrap; [exact Hrun|]. apply folded_reduce.
  - intros l l'. fold (reduce1 f l) (reduce1 f l') (reduce1 f (l ++ l')). rewrite (reduce1_app f Ha).
    by destruct (reduce1 f l), (reduce1 f l').
  - intros l l' Hp. by apply (reduce1_perm f Ha Hc).
Qed.

(** [Stream::collect_vec] and [Stream::collect_count]. *)
Definition collect_vec_run {B} `{!TypeId B} (res : list B)
    (q : op_state (Start (R := SimpleStartReceiver B) None)) : Prop :=
  ∃ n out st', do_work (CollectVecSink (Start None)) n (CollectVec_new, q) =
    Done (out, (mkCollectVec None (Some res), st')).
Definition collect_count_run `{!TypeId N} (count : N)
    (q : op_state (Start (R := SimpleStartReceiver N) None)) : Prop :=
  ∃ n out st', do_work (CollectCountSink (Start None)) n (CollectCount_new, q) =
    Done (out, (mkCollectCount count (Some count), st')).

Lemma trace_no_terminate {B} (outs fl : list (StreamElement B)) :
  Forall (λ e, e = FlushBatch) fl → Forall (λ e, is_data e = true) outs →
  Forall (λ e, e ≠ Terminate) (outs ++ FlushAndRestart :: fl) ∧ values (outs ++ FlushAndRestart :: fl) = values outs.
Proof.
  intros Hfl Hd. split.
  - apply Forall_app. split; [by eapply Forall_impl; [exact Hd|]; intros []|]. constructor; [done|].
    by eapply Forall_impl; [exact Hfl|]; intros ? ->.
  - rewrite values_app. assert (values (FlushAndRestart :: fl) = []) as ->; [|by rewrite app_nil_r].
    unfold values. csimpl. apply omap_nil_2. intros e He. rewrite Forall_forall in Hfl. by rewrite (Hfl e He).
Qed.

(** What a program gets back: [collect_vec] ends with every item of every replica, each once,
    in the vector of the output, and [collect_count] with their number (in 64 bits),
    whatever the interleaving and the timeouts of the channels and however the items are
    spread over the replicas. *)
Theorem collect_distributed `{!TypeId A, !TypeId N} :
  (matching (A := A) pb (em_prev md) ≡ₚ cs →
   gathering pb cs d mode senders md (λ q, ∃ l, l ≡ₚ everything ∧ collect_vec_run l q)) ∧
  (matching (A := N) pb (em_prev md) ≡ₚ cs →
   gathering pb cs d mode (λ c, fold_sender 0%N count_local (senders c)) md
     (collect_count_run (N.of_nat (length everything) mod 2 ^ 64)%N)).
Proof.
  split; intros Hmd; (eapply gathering_mono; [|apply gathered; [done..|by intros; apply fold_sender_ok, Hok || apply Hok|done]]);
    intros q (outs & fl & st' & He & Hfl & Hd & _ & _ & Hv); destruct (trace_no_terminate outs fl Hfl Hd) as [Hn Ev];
    rewrite app_comm_cons, (assoc_L (++)) in He.
  - exists (values outs). split; [done|].
    destruct (sink_works cv_push cv_stop true false (Start None) (CollectVec_next _) CollectVec_new q _ st' Hn He)
      as (n & out & Hw). exists n, out, st'. rewrite Ev in Hw. unfold CollectVec_new in Hw. by rewrite cv_push_all in Hw.
  - destruct (sink_works cc_push cc_stop true false (Start None) (CollectCount_next _) CollectCount_new q _ st' Hn He)
      as (n & out & Hw). exists n, out, st'. rewrite Ev in Hw. unfold CollectCount_new in Hw.
    rewrite cc_push_all in Hw by done. rewrite (count_partials (λ c, sn_items (senders c)) cs _ Hv) in Hw. exact Hw.
Qed.
End jobs.

(** ** An instance: three replicas, one of them without items *)
Module GatherExample.
#[local] Instance typ : TypeId N := 7%N.
Definition cs : list Coord := [mkCoord 0 0 0; mkCoord 0 0 1; mkCoord 0 1 0].
Definition d : Coord := mkCoord 1 0 0.
Definition items (c : Coord) : list N :=
  if decide (c = mkCoord 0 0 0) then [1; 2; 3]%N else if decide (c = mkCoord 0 1 0) then [4]%N else [].
Definition sender (c : Coord) : Sender N :=
  mkSender (items c) (FakeOperator N) _ ((Item <$> items c) ++ [FlushAndRestart; Terminate]) []
    [endpoint_to 0 d] (λ _, mkBatcherEnv (λ n, Z.of_nat n) (λ _, [])) (λ n, n) key_order insertion_glidesort.
Definition md : ExecutionMetadata := mkExecutionMetadata d [d] 0 ((λ c, (c, 7%N)) <$> cs) (Fixed 2).
Lemma cs_nodup : NoDup cs.
Proof. apply (bool_decide_unpack _). vm_compute. done. Qed.
Lemma gather_sender_fine c : sender_ok 0 [d] (sender c).
Proof. split; [apply FakeOperator_emits_all|done]. Qed.

Lemma fold_assoc_distributed_witness :
  gathering 0 cs d (Fixed 2) (λ c, fold_sender 0%N N.add (sender c)) md (fold_run 0%N N.add [10%N]).
Proof.
  refine (fold_assoc_distributed 0 cs d (Fixed 2) md sender cs_nodup _ _ _ 0%N N.add N.add _ _ _).
  - done.
  - unfold wf_mode. simpl. lia.
  - intros c _. apply gather_sender_fine.
  - done.
  - intros l l'. by rewrite foldl_app, (GroupByFold.Example.foldl_add_shift l' (foldl _ _ l)).
  - induction 1 as [|x l1 l2 _ IH|x y l|l1 l2 l3 _ IH1 _ IH2]; cbn [foldl]; [done| | |by rewrite IH1].
    + by rewrite (GroupByFold.Example.foldl_add_shift l1 (0 + x)), (GroupByFold.Example.foldl_add_shift l2 (0 + x)), IH.
    + f_equal. lia.
Defined.

Lemma collect_distributed_witness :
  gathering 0 cs d (Fixed 2) sender md (λ q, ∃ l, l ≡ₚ [1; 2; 3; 4]%N ∧ collect_vec_run l q) ∧
  gathering 0 cs d (Fixed 2) (λ c, fold_sender 0%N count_local (sender c)) md (collect_count_run 4).
Proof.
  edestruct (collect_distributed 0 cs d (Fixed 2) md sender cs_nodup) as [H1 H2].
  - done.
  - unfold wf_mode. simpl. lia.
  - intros c _. apply gather_sender_fine.
  - split; [by apply H1|by apply H2].
Defined.
End GatherExample.
