(* ===== verification/Remote.v ===== *)
(** * Messages between hosts

    [src/src/network/sync/remote.rs], [multiplexer.rs], [demultiplexer.rs] and the sending
    side of [src/src/network/network_channel.rs].  A multiplexer writes the messages of
    all the local replicas of a block on one TCP stream; the demultiplexer of the
    destination block reads them and hands each to the channel of its replica.

    The [bincode] crate is a parameter, [Bincode], with its documented contract: what it
    encodes it decodes, and a header of fixed-size integers has a fixed size.  A TCP
    stream is the list of bytes that arrived before it was closed. *)
From Stdlib Require Import Strings.Byte.
From S2P Require Import Prelude StreamElement Operator Frontier Batcher.

(** [HEADER_SIZE], [MessageHeader]. *)
Definition HEADER_SIZE : nat := 20.
Record MessageHeader := mkMessageHeader {
  mh_size : N;
  mh_replica_id : ReplicaId;
  mh_sender_block_id : BlockId
}.
Definition u32_bound : N := (2 ^ 32)%N.
Definition u64_bound : N := (2 ^ 64)%N.
Definition header_in_range (h : MessageHeader) : Prop :=
  (mh_size h < u32_bound)%N ∧ (mh_replica_id h < u64_bound)%N ∧ (mh_sender_block_id h < u64_bound)%N.

(** [bincode::serde]: [BINCODE_MESSAGE] and [BINCODE_HEADER]. *)
Class Bincode (T : Type) := {
  encode_message : NetworkMessage T → option (list byte);
  decode_message : list byte → option (NetworkMessage T * nat);
  encode_header : MessageHeader → list byte;
  decode_header : list byte → option (MessageHeader * nat);
  decode_encode_message m b : encode_message m = Some b → decode_message b = Some (m, length b);
  encode_header_size h : header_in_range h → length (encode_header h) = HEADER_SIZE;
  decode_encode_header h :
    header_in_range h → decode_header (encode_header h) = Some (h, HEADER_SIZE)
}.

(** [Vec::resize]. *)
Definition vec_resize {X} (n : nat) (x : X) (v : list X) : list X :=
  take n v ++ replicate (n - length v) x.

(** [Read::read_exact] on what is left of a stream that was closed. *)
Definition read_exact (n : nat) (stream : list byte) : option (list byte * list byte) :=
  if decide (n ≤ length stream) then Some (take n stream, drop n stream) else None.

Section remote.
Context {T : Type} `{!Bincode T}.

(** [remote_send]: what is written on the stream, and the scratch buffer. *)
Definition remote_send (msg : NetworkMessage T) (dest : ReceiverEndpoint) (scratch : list byte)
    : outcome (list byte * list byte) :=
  let scratch := vec_resize HEADER_SIZE x00 scratch in
  body ← unwrap (encode_message msg);
  let scratch := scratch ++ body in
  let serialized_len := length body in
  rassert (N.of_nat serialized_len <? u32_bound)%N;;
  let header := encode_header (mkMessageHeader (N.of_nat serialized_len)
                  (replica_id (re_coord dest)) (re_prev_block_id dest)) in
  rassert (length header <=? HEADER_SIZE);;
  let scratch := header ++ drop (length header) scratch in
  rassert (length scratch =? HEADER_SIZE + serialized_len);;
  Done (scratch, scratch).

(** [remote_recv]: [None] when the header cannot be read. *)
Definition remote_recv (coord : DemuxCoord) (stream scratch : list byte)
    : outcome (option (ReceiverEndpoint * NetworkMessage T) * list byte * list byte) :=
  match read_exact HEADER_SIZE stream with
  | None => Done (None, stream, scratch)
  | Some (header, stream) =>
      '(header, header_len) ← unwrap (decode_header header);
      rassert (header_len =? HEADER_SIZE);;
      let scratch := vec_resize (N.to_nat (mh_size header)) x00 scratch in
      '(body, stream) ← unwrap (read_exact (length scratch) stream);
      '(msg, msg_len) ← unwrap (decode_message body);
      rassert (N.to_nat (mh_size header) =? msg_len);;
      let dest := mkReceiverEndpoint
        (mkCoord (bc_block_id (dc_coord coord)) (bc_host_id (dc_coord coord)) (mh_replica_id header))
        (mh_sender_block_id header) in
      Done (Some (dest, msg), stream, body)
  end.

(** [mux_thread]: the bytes written for the messages taken from the queue. *)
Fixpoint mux_thread (queue : list (ReceiverEndpoint * NetworkMessage T)) (scratch : list byte)
    : outcome (list byte) :=
  match queue with
  | [] => Done []
  | (dest, message) :: queue =>
      '(written, scratch) ← remote_send message dest scratch;
      rest ← mux_thread queue scratch;
      Done (written ++ rest)
  end.

(** [demux_thread]: [senders] are the endpoints registered at the demultiplexer; a
    channel whose receiver is gone is only worth a warning.  The channels are shared with
    the replicas: what the thread has sent stays sent when it panics, so the network is
    returned together with the way the thread ends. *)
Fixpoint demux_thread (fuel : nat) (coord : DemuxCoord) (senders : gset ReceiverEndpoint)
    (stream scratch : list byte) (net : Network T) : Network T * outcome unit :=
  match fuel with
  | 0 => (net, OutOfFuel)
  | S fuel =>
      match remote_recv coord stream scratch with
      | Done (None, _, _) => (net, Done tt)
      | Done (Some (dest, message), stream, scratch) =>
          if bool_decide (dest ∈ senders) then
            let net := default net (send dest message net) in
            demux_thread fuel coord senders stream scratch net
          else (net, Panicked)
      | Panicked => (net, Panicked)
      | Blocked => (net, Blocked)
      | OutOfFuel => (net, OutOfFuel)
      end
  end.

(** ** The protocol *)

(** A message that can be sent: it is encodable, in less than 4 GB, and its destination
    is a replica of the block behind the demultiplexer. *)
Definition sendable (coord : DemuxCoord) (q : ReceiverEndpoint * NetworkMessage T) : Prop :=
  demux_of_endpoint q.1 = coord ∧
  (replica_id (re_coord q.1) < u64_bound)%N ∧ (re_prev_block_id q.1 < u64_bound)%N ∧
  ∃ body, encode_message q.2 = Some body ∧ (N.of_nat (length body) < u32_bound)%N.

(** The bytes of one message on the stream. *)
Definition frame (q : ReceiverEndpoint * NetworkMessage T) : list byte :=
  let body := default [] (encode_message q.2) in
  encode_header (mkMessageHeader (N.of_nat (length body)) (replica_id (re_coord q.1))
                   (re_prev_block_id q.1)) ++ body.

Lemma sendable_frame coord q :
  sendable coord q →
  ∃ header body,
    frame q = encode_header header ++ body ∧ header_in_range header ∧
    encode_message q.2 = Some body ∧
    header = mkMessageHeader (N.of_nat (length body)) (replica_id (re_coord q.1)) (re_prev_block_id q.1).
Proof.
  intros (_ & Hr & Hb & body & Henc & Hlen). unfold frame. rewrite Henc. simpl.
  eexists _, body. split; [done|]. split; [|done]. by split_and!.
Qed.
Lemma frame_length coord q :
  sendable coord q → ∃ body, encode_message q.2 = Some body ∧
    length (frame q) = HEADER_SIZE + length body.
Proof.
  intros Hq. destruct (sendable_frame coord q Hq) as (hd & body & -> & Hh & Henc & _).
  exists body. by rewrite length_app, (encode_header_size hd Hh).
Qed.

Lemma vec_resize_length {X} n (x : X) v : length (vec_resize n x v) = n.
Proof. unfold vec_resize. rewrite length_app, length_take, length_replicate. lia. Qed.

(** Whatever the scratch buffer held, a frame is written. *)
Lemma remote_send_frame coord dest msg scratch :
  sendable coord (dest, msg) →
  remote_send msg dest scratch = Done (frame (dest, msg), frame (dest, msg)).
Proof.
  intros Hq. destruct (sendable_frame coord _ Hq) as (hd & body & Hf & Hh & Henc & ->). simpl in *.
  pose proof (encode_header_size _ Hh) as Hl. destruct Hh as (Hs & _ & _). simpl in Hs.
  unfold remote_send. rewrite Henc, Hf. simpl. unfold rassert.
  rewrite (proj2 (N.ltb_lt _ _) Hs). simpl. rewrite Hl.
  rewrite (drop_app_length' (vec_resize HEADER_SIZE x00 scratch)) by (by rewrite vec_resize_length).
  rewrite length_app, Hl. simpl. by rewrite Nat.eqb_refl.
Qed.

Lemma mux_thread_frames coord queue scratch :
  Forall (sendable coord) queue → mux_thread queue scratch = Done (concat (frame <$> queue)).
Proof.
  intros Hq. revert scratch. induction Hq as [|[dest msg] queue Hs Hq IH]; intros scratch; simpl; [done|].
  rewrite (remote_send_frame coord) by done. simpl. by rewrite IH.
Qed.

Lemma read_exact_app n (a b : list byte) : length a = n → read_exact n (a ++ b) = Some (a, b).
Proof.
  intros <-. unfold read_exact. rewrite decide_True by (rewrite length_app; lia).
  by rewrite take_app_length, drop_app_length.
Qed.
Lemma read_exact_short n (a : list byte) : length a < n → read_exact n a = None.
Proof. intros. unfold read_exact. by rewrite decide_False by lia. Qed.

(** A whole frame is received as the message that was sent, to where it was sent. *)
Lemma remote_recv_frame coord q rest scratch :
  sendable coord q →
  ∃ scratch', remote_recv coord (frame q ++ rest) scratch = Done (Some q, rest, scratch').
Proof.
  intros Hq. destruct (sendable_frame coord _ Hq) as (hd & body & Hf & Hh & Henc & Ehd).
  exists body. unfold remote_recv.
  rewrite Hf, <-(assoc_L (++)), read_exact_app by by apply encode_header_size.
  rewrite (decode_encode_header _ Hh). simpl. rewrite Ehd. simpl. rewrite Nat2N.id.
  rewrite read_exact_app by by rewrite vec_resize_length. simpl.
  rewrite (decode_encode_message _ _ Henc). simpl. rewrite Nat.eqb_refl. simpl.
  destruct Hq as [<- _]. destruct q as [[[] ] ]. done.
Qed.

(** A frame cut by the end of the stream: in the header it is a clean end, in the body
    a panic. *)
Lemma remote_recv_cut coord q k scratch :
  sendable coord q → k < length (frame q) →
  remote_recv coord (take k (frame q)) scratch =
  if decide (k < HEADER_SIZE) then Done (None, take k (frame q), scratch) else Panicked.
Proof.
  intros Hq Hk. destruct (sendable_frame coord _ Hq) as (hd & body & Hf & Hh & Henc & Ehd).
  pose proof (encode_header_size _ Hh) as Hl. rewrite Hf in *. rewrite length_app, Hl in Hk.
  unfold remote_recv. case_decide as Hc.
  - rewrite read_exact_short; [done|]. rewrite length_take, length_app. lia.
  - rewrite take_app, take_ge, Hl by lia. rewrite read_exact_app by done.
    rewrite (decode_encode_header _ Hh). simpl. rewrite Ehd. simpl. rewrite Nat2N.id, vec_resize_length.
    rewrite read_exact_short; [done|]. rewrite length_take. lia.
Qed.

(** What the demultiplexer does with the messages: each goes to the channel of its
    destination, if somebody still listens. *)
Definition deliver (net : Network T) (queue : list (ReceiverEndpoint * NetworkMessage T)) : Network T :=
  foldl (λ net '(dest, msg), default net (send dest msg net)) net queue.

Lemma deliver_sent net queue ep :
  disconnected (deliver net queue) = disconnected net ∧
  sent_to (deliver net queue) ep =
    sent_to net ep ++ (if decide (ep ∈ disconnected net) then []
                       else (base.filter (λ q, q.1 = ep) queue).*2).
Proof.
  revert net. induction queue as [|[dest msg] queue IH]; intros net; simpl.
  { split; [done|]. case_decide; by rewrite app_nil_r. }
  destruct (IH (default net (send dest msg net))) as [Hd Hs]. unfold deliver in *. rewrite Hd, Hs.
  unfold send. destruct (decide (dest ∈ disconnected net)) as [Hin|Hin]; simpl.
  - split; [done|]. destruct (decide (ep ∈ disconnected net)); [done|].
    rewrite filter_cons_False by (simpl; congruence). done.
  - split; [done|]. unfold sent_to. simpl. destruct (decide (dest = ep)) as [->|Hne].
    + rewrite lookup_insert_eq. rewrite !decide_False by done. rewrite filter_cons_True by done.
      simpl. by rewrite <-(assoc_L (++)).
    + rewrite lookup_insert_ne by done. rewrite filter_cons_False by done. done.
Qed.

Lemma demux_thread_frames coord senders queue : ∀ fuel rest scratch net,
  Forall (sendable coord) queue → Forall (λ q, q.1 ∈ senders) queue →
  ∃ scratch', demux_thread (length queue + fuel) coord senders (concat (frame <$> queue) ++ rest) scratch net =
    demux_thread fuel coord senders rest scratch' (deliver net queue).
Proof.
  induction queue as [|[dest msg] queue IH]; intros fuel rest scratch net Hq Hs; csimpl; [by exists scratch|].
  apply Forall_cons in Hq as [Hq1 Hq]. apply Forall_cons in Hs as [Hs1 Hs].
  rewrite <-(assoc_L (++)).
  destruct (remote_recv_frame coord (dest, msg) (concat (frame <$> queue) ++ rest) scratch Hq1)
    as [scratch' ->]. rewrite bool_decide_true by done. by apply IH.
Qed.

(** The first [c] bytes of a sequence of frames: some whole frames, and part of the next. *)
Lemma cut_frames queue : ∀ c, ∃ sent rest, queue = sent ++ rest ∧
  length (concat (frame <$> sent)) ≤ length (concat (frame <$> queue)) `min` c ∧
  match rest with
  | [] => take c (concat (frame <$> queue)) = concat (frame <$> sent)
  | q :: _ => c < length (concat (frame <$> sent)) + length (frame q) ∧
      take c (concat (frame <$> queue)) =
      concat (frame <$> sent) ++ take (c - length (concat (frame <$> sent))) (frame q)
  end.
Proof.
  induction queue as [|q queue IH]; intros c.
  { exists [], []. cbn. by rewrite take_nil. }
  destruct (decide (c < length (frame q))) as [Hc|Hc].
  - exists [], (q :: queue). csimpl. split_and!; [done|lia|lia|].
    by rewrite Nat.sub_0_r, take_app_le by lia.
  - destruct (IH (c - length (frame q))) as (sent & rest & -> & Hle & Hcut).
    exists (q :: sent), rest. csimpl. rewrite !length_app, take_app_ge by lia.
    split_and!; [done|lia|]. destruct rest as [|q' rest]; [by rewrite Hcut|].
    destruct Hcut as [? ->]. split; [lia|]. rewrite <-(assoc_L (++)). do 3 f_equal. lia.
Qed.
End remote.

(** C18.  What the multiplexer of a host writes, the demultiplexer at the other end reads
    back: every message reaches the channel of the replica it was sent to, in the order it
    was sent, with the contents it had, and no other; only channels whose receiver has
    already left lose theirs.  The scratch buffers the two threads reuse never leak. *)
Theorem wire_roundtrip {T} `{!Bincode T} coord (senders : gset ReceiverEndpoint)
    (queue : list (ReceiverEndpoint * NetworkMessage T)) scratch1 scratch2 net fuel :
  Forall (sendable coord) queue → Forall (λ q, q.1 ∈ senders) queue → length queue < fuel →
  ∃ bytes net',
    mux_thread queue scratch1 = Done bytes ∧
    demux_thread fuel coord senders bytes scratch2 net = (net', Done tt) ∧
    disconnected net' = disconnected net ∧
    ∀ ep, sent_to net' ep = sent_to net ep ++
      (if decide (ep ∈ disconnected net) then [] else (base.filter (λ q, q.1 = ep) queue).*2).
Proof.
  intros Hq Hs Hf. exists (concat (frame <$> queue)), (deliver net queue).
  split; [by eapply mux_thread_frames|].
  destruct (demux_thread_frames coord senders queue (fuel - length queue) [] scratch2 net Hq Hs)
    as [scratch' E].
  rewrite app_nil_r in E. replace (length queue + (fuel - length queue)) with fuel in E by lia.
  rewrite E. split; [|split; [apply (deliver_sent net queue (mkReceiverEndpoint coord_default 0))|intros; apply deliver_sent]].
  destruct (fuel - length queue) eqn:Ef; [lia|]. done.
Qed.

(** C37.  When a connection is cut after any number [c] of bytes, exactly the messages that
    arrived whole ([sent], the longest prefix of the queue whose bytes fit in [c]) are in
    the channels of their replicas, in order, when the demultiplexer stops; it stops
    silently if the cut falls between messages or inside a header, with a panic if it falls
    inside a body, and the panic takes nothing back. *)
Theorem wire_truncated {T} `{!Bincode T} coord (senders : gset ReceiverEndpoint)
    (queue : list (ReceiverEndpoint * NetworkMessage T)) scratch1 scratch2 net fuel c :
  Forall (sendable coord) queue → Forall (λ q, q.1 ∈ senders) queue → length queue < fuel →
  ∃ bytes sent rest whole net',
    mux_thread queue scratch1 = Done bytes ∧
    queue = sent ++ rest ∧ mux_thread sent scratch1 = Done whole ∧ length whole ≤ c ∧
    (∀ q rest', rest = q :: rest' →
      ∃ more, mux_thread (sent ++ [q]) scratch1 = Done more ∧ c < length more) ∧
    demux_thread fuel coord senders (take c bytes) scratch2 net =
      (net', if decide (rest ≠ [] ∧ length whole + HEADER_SIZE ≤ c) then Panicked else Done tt) ∧
    disconnected net' = disconnected net ∧
    ∀ ep, sent_to net' ep = sent_to net ep ++
      (if decide (ep ∈ disconnected net) then [] else (base.filter (λ q, q.1 = ep) sent).*2).
Proof.
  intros Hq Hs Hf. destruct (cut_frames queue c) as (sent & rest & -> & Hle & Hcut).
  pose proof Hq as Hq'. apply Forall_app in Hq' as [Hq1 Hq2]. apply Forall_app in Hs as [Hs _].
  rewrite length_app in Hf.
  exists (concat (frame <$> sent ++ rest)), sent, rest, (concat (frame <$> sent)), (deliver net sent).
  split_and!; [by eapply mux_thread_frames|done|by eapply mux_thread_frames|lia| | | |].
  - intros q rest' ->. apply Forall_cons in Hq2 as [Hq2 _]. destruct Hcut as [Hc _].
    eexists. split; [eapply mux_thread_frames, Forall_app_2; [done|by constructor]|].
    rewrite fmap_app, concat_app, length_app. cbn. rewrite app_nil_r. lia.
  - assert (take c (concat (frame <$> sent ++ rest)) = concat (frame <$> sent) ++
      match rest with [] => [] | q :: _ => take (c - length (concat (frame <$> sent))) (frame q) end)
      as ->.
    { destruct rest as [|q rest]; [by rewrite Hcut, app_nil_r|]. apply Hcut. }
    destruct (demux_thread_frames coord senders sent (fuel - length sent)
      match rest with [] => [] | q :: _ => take (c - length (concat (frame <$> sent))) (frame q) end
      scratch2 net Hq1 Hs) as [scratch' E].
    replace (length sent + (fuel - length sent)) with fuel in E by lia. rewrite E.
    destruct (fuel - length sent) eqn:Ef; [lia|]. destruct rest as [|q rest]; cbn [demux_thread].
    + rewrite decide_False by naive_solver. done.
    + apply Forall_cons in Hq2 as [Hq2 _]. destruct Hcut as [Hc _].
      rewrite (remote_recv_cut coord) by (done || lia).
      destruct (decide (c - length (concat (frame <$> sent)) < HEADER_SIZE)).
      * rewrite decide_False; [done|]. intros [_ ?]. lia.
      * rewrite decide_True; [done|]. split; [done|lia].
  - apply (deliver_sent net sent (mkReceiverEndpoint coord_default 0)).
  - intros ep. apply deliver_sent.
Qed.

(** ** An encoding that meets the contract *)
Module RemoteExample.
(** Little-endian integers. *)
Fixpoint to_le (k : nat) (n : N) : list byte :=
  match k with
  | 0 => []
  | S k => default x00 (Byte.of_N (n mod 256)) :: to_le k (n / 256)
  end.
Fixpoint of_le (l : list byte) : N :=
  match l with
  | [] => 0
  | b :: l => Byte.to_N b + 256 * of_le l
  end.
Lemma to_le_length k n : length (to_le k n) = k.
Proof. revert n. induction k; intros; simpl; auto. Qed.
Lemma of_to_le k n : (n < 256 ^ N.of_nat k)%N → of_le (to_le k n) = n.
Proof.
  revert n. induction k as [|k IH]; intros n Hn; [simpl in *; lia|].
  rewrite Nat2N.inj_succ, N.pow_succ_r' in Hn. cbn [to_le of_le].
  rewrite IH by (apply N.Div0.div_lt_upper_bound; lia).
  assert (Byte.to_N (default x00 (Byte.of_N (n mod 256))) = n mod 256)%N as ->.
  { destruct (Byte.of_N (n mod 256)) as [b|] eqn:E; simpl; [by apply Byte.to_of_N|].
    apply Byte.of_N_None_iff in E. pose proof (N.mod_lt n 256). lia. }
  rewrite (N.div_mod n 256) at 3 by done. lia.
Qed.

(** A binary number, a byte per digit. *)
Fixpoint pos_to_bytes (p : positive) : list byte :=
  match p with
  | xH => []
  | xO p => x00 :: pos_to_bytes p
  | xI p => x01 :: pos_to_bytes p
  end.
Fixpoint bytes_to_pos (l : list byte) : positive :=
  match l with
  | [] => xH
  | x00 :: l => xO (bytes_to_pos l)
  | _ :: l => xI (bytes_to_pos l)
  end.
Lemma bytes_to_pos_inv p : bytes_to_pos (pos_to_bytes p) = p.
Proof. induction p; simpl; congruence. Qed.

Definition element_code (e : StreamElement N) : N + (N * Z) + Z + nat :=
  match e with
  | Item x => inl (inl (inl x))
  | Timestamped x ts => inl (inl (inr (x, ts)))
  | Watermark ts => inl (inr ts)
  | FlushBatch => inr 0
  | Terminate => inr 1
  | FlushAndRestart => inr 2
  end.
Definition element_of (c : N + (N * Z) + Z + nat) : StreamElement N :=
  match c with
  | inl (inl (inl x)) => Item x
  | inl (inl (inr (x, ts))) => Timestamped x ts
  | inl (inr ts) => Watermark ts
  | inr 0 => FlushBatch
  | inr 1 => Terminate
  | inr _ => FlushAndRestart
  end.
Definition message_code (m : NetworkMessage N) : Coord * list (N + (N * Z) + Z + nat) :=
  (sender m, element_code <$> data m).
Definition message_of (c : Coord * list (N + (N * Z) + Z + nat)) : NetworkMessage N :=
  mkNetworkMessage c.1 (element_of <$> c.2).
Lemma message_of_code m : message_of (message_code m) = m.
Proof.
  destruct m as [c es]. unfold message_of, message_code. simpl. f_equal.
  induction es as [|[] es IH]; csimpl; by rewrite ?IH.
Qed.

Definition header_code (h : MessageHeader) : list byte :=
  to_le 4 (mh_size h) ++ to_le 8 (mh_replica_id h) ++ to_le 8 (mh_sender_block_id h).
Definition header_of (l : list byte) : option (MessageHeader * nat) :=
  if decide (length l = 20) then
    Some (mkMessageHeader (of_le (take 4 l)) (of_le (take 8 (drop 4 l))) (of_le (drop 12 l)), 20)
  else None.

Global Instance bincode : Bincode N.
Proof.
  refine {|
    encode_message m := Some (pos_to_bytes (encode (message_code m)));
    decode_message l := (λ c, (message_of c, length l)) <$> decode (bytes_to_pos l);
    encode_header := header_code;
    decode_header := header_of
  |}.
  - intros m b [= <-]. rewrite bytes_to_pos_inv, decode_encode. simpl. by rewrite message_of_code.
  - intros h _. unfold header_code. by rewrite !length_app, !to_le_length.
  - intros [a b c] (Ha & Hb & Hc). simpl in *. unfold header_of, header_code.
    rewrite decide_True by (by rewrite !length_app, !to_le_length).
    cbn [mh_size mh_replica_id mh_sender_block_id].
    rewrite take_app_length' by (by rewrite to_le_length).
    rewrite drop_app_length' by (by rewrite to_le_length).
    rewrite take_app_length' by (by rewrite to_le_length).
    rewrite (assoc_L (++)), drop_app_length' by by rewrite length_app, !to_le_length.
    by rewrite !of_to_le.
Defined.

Definition d : DemuxCoord := mkDemuxCoord (mkBlockCoord 1 1) 0.
Definition ep (r : N) : ReceiverEndpoint := mkReceiverEndpoint (mkCoord 1 1 r) 0.
Definition msg (x : N) : NetworkMessage N := mkNetworkMessage (mkCoord 0 0 0) [Item x; FlushAndRestart].
Definition queue : list (ReceiverEndpoint * NetworkMessage N) :=
  [(ep 0, msg 4); (ep 1, msg 5); (ep 0, msg 6)].
Lemma queue_sendable : Forall (sendable d) queue.
Proof.
  repeat constructor; simpl; unfold u64_bound; try lia; eexists; (split; [reflexivity|]); vm_compute; done.
Qed.
End RemoteExample.

Lemma wire_roundtrip_witness :
  ∃ bytes net',
    mux_thread RemoteExample.queue [x07] = Done bytes ∧
    demux_thread 4 RemoteExample.d {[RemoteExample.ep 0; RemoteExample.ep 1]} bytes [] (mkNetwork ∅ ∅)
      = (net', Done tt) ∧
    sent_to net' (RemoteExample.ep 0) = [RemoteExample.msg 4; RemoteExample.msg 6].
Proof.
  destruct (wire_roundtrip RemoteExample.d {[RemoteExample.ep 0; RemoteExample.ep 1]}
    RemoteExample.queue [x07] [] (mkNetwork ∅ ∅) 4) as (bytes & net' & H1 & H2 & _ & H4).
  - exact RemoteExample.queue_sendable.
  - repeat constructor; set_solver.
  - simpl. lia.
  - exists bytes, net'. split; [exact H1|]. split; [exact H2|]. rewrite H4. reflexivity.
Defined.

Lemma wire_truncated_witness :
  ∃ bytes sent rest whole net',
    mux_thread RemoteExample.queue [] = Done bytes ∧
    RemoteExample.queue = sent ++ rest ∧ mux_thread sent [] = Done whole ∧ length whole ≤ 150 ∧
    (∀ q rest', rest = q :: rest' →
      ∃ more, mux_thread (sent ++ [q]) [] = Done more ∧ 150 < length more) ∧
    demux_thread 4 RemoteExample.d {[RemoteExample.ep 0; RemoteExample.ep 1]} (take 150 bytes) []
      (mkNetwork ∅ ∅) =
      (net', if decide (rest ≠ [] ∧ length whole + HEADER_SIZE ≤ 150) then Panicked else Done tt) ∧
    disconnected net' = ∅ ∧
    ∀ ep, sent_to net' ep =
      (if decide (ep ∈ (∅ : gset ReceiverEndpoint)) then [] else (base.filter (λ q, q.1 = ep) sent).*2).
Proof.
  refine (wire_truncated RemoteExample.d {[RemoteExample.ep 0; RemoteExample.ep 1]}
    RemoteExample.queue [] [] (mkNetwork ∅ ∅) 4 150 _ _ _).
  - exact RemoteExample.queue_sendable.
  - repeat constructor; set_solver.
  - simpl. lia.
Defined.

(** There the cut is in the body of the third message: the thread panics and the first two
    are delivered. *)
Example wire_truncated_example : ∃ bytes net',
  mux_thread RemoteExample.queue [] = Done bytes ∧
  demux_thread 4 RemoteExample.d {[RemoteExample.ep 0; RemoteExample.ep 1]} (take 150 bytes) []
    (mkNetwork ∅ ∅) = (net', Panicked) ∧
  sent_to net' (RemoteExample.ep 0) = [RemoteExample.msg 4] ∧
  sent_to net' (RemoteExample.ep 1) = [RemoteExample.msg 5].
Proof. eexists _, _. split; [vm_compute; reflexivity|]. vm_compute. done. Qed.
