(* ===== verification/Config.v ===== *)
(** * Configuration of a run

    [src/src/config.rs]: the configuration of the hosts, the builder that assembles it
    from the command line, a file or the environment, and what it rejects.  The parser
    of the [toml] crate is an argument of the definitions that call it. *)
From stdpp Require Import strings.
From Stdlib Require Import Ascii.
From S2P Require Import Prelude StreamElement.

Record SSHConfig := mkSSHConfig {
  ssh_port : N;
  username : option string;
  password : option string;
  key_file : option string;
  key_passphrase : option string
}.
Definition ssh_default_port : N := 22.
Definition SSHConfig_default : SSHConfig := mkSSHConfig ssh_default_port None None None None.

Record HostConfig := mkHostConfig {
  address : string;
  base_port : N;
  num_cores : N;
  ssh : SSHConfig;
  perf_path : option string
}.

Record RemoteConfig := mkRemoteConfig {
  rc_host_id : option HostId;
  hosts : list HostConfig;
  tracing_dir : option string;
  cleanup_executable : bool
}.

Inductive RuntimeConfig :=
| Local (parallelism : N)
| Remote (remote : RemoteConfig).
(** The derived [PartialEq]. *)
Global Instance SSHConfig_eq : EqDecision SSHConfig.
Proof. solve_decision. Defined.
Global Instance HostConfig_eq : EqDecision HostConfig.
Proof. solve_decision. Defined.
Global Instance RemoteConfig_eq : EqDecision RemoteConfig.
Proof. solve_decision. Defined.
Global Instance RuntimeConfig_eq : EqDecision RuntimeConfig.
Proof. solve_decision. Defined.

Inductive ConfigError :=
| Serialization
| IO
| Invalid (message : string)
| Environment (variable : string).

(** [RuntimeConfig::host_id]. *)
Definition config_host_id (self : RuntimeConfig) : option HostId :=
  match self with Local _ => Some 0%N | Remote remote => rc_host_id remote end.

(** ** [u64::from_str] *)
Definition u64_max : N := (2 ^ 64 - 1)%N.
Definition digit_of (c : Ascii.ascii) : option N :=
  let n := Ascii.N_of_ascii c in
  if (48 <=? n)%N && (n <=? 57)%N then Some (n - 48)%N else None.
Fixpoint parse_digits (s : string) (acc : N) : option N :=
  match s with
  | EmptyString => Some acc
  | String c s =>
      d ← digit_of c;
      let acc := (acc * 10 + d)%N in
      if (acc <=? u64_max)%N then parse_digits s acc else None
  end.
Definition u64_from_str (s : string) : option N :=
  match s with
  | EmptyString => None
  | String "+"%char EmptyString => None
  | String "+"%char s => parse_digits s 0
  | s => parse_digits s 0
  end.

(** ** [ConfigBuilder] *)
Record ConfigBuilder := mkConfigBuilder {
  cb_host_id : option HostId;
  cb_hosts : list HostConfig;
  cb_tracing_dir : option string;
  cb_cleanup_executable : bool
}.

Definition new_local (parallelism : N) : RuntimeConfig + ConfigError :=
  if N.eqb parallelism 0 then inr (Invalid "The number of cores should be positive")
  else inl (Local parallelism).
Definition new_remote : ConfigBuilder := mkConfigBuilder None [] None false.

(** The validation loop of [parse_toml_str]: hosts are pushed one by one. *)
Fixpoint push_hosts (new : list HostConfig) (pushed : list HostConfig)
    : list HostConfig + ConfigError :=
  match new with
  | [] => inl pushed
  | host :: new =>
      match password (ssh host), key_file (ssh host) with
      | Some _, Some _ =>
          inr (Invalid (String.append
            "Malformed configuration: cannot specify both password and key file on host "
            (address host)))
      | _, _ => push_hosts new (pushed ++ [host])
      end
  end.

Section builder.
(** [toml::from_str], [std::env::var] and [std::fs::read_to_string]. *)
Context (toml : string → option RemoteConfig) (env : string → option string)
  (read_to_string : string → option string).

Definition HOST_ID_ENV_VAR : string := "NOIR_HOST_ID".
Definition CONFIG_ENV_VAR : string := "NOIR_CONFIG".

Definition parse_toml_str (config_str : string) (self : ConfigBuilder) : ConfigBuilder + ConfigError :=
  match toml config_str with
  | None => inr Serialization
  | Some config =>
      match push_hosts (hosts config) (cb_hosts self) with
      | inr e => inr e
      | inl hosts =>
          inl (mkConfigBuilder (cb_host_id self) hosts
                 (match cb_tracing_dir self with Some d => Some d | None => tracing_dir config end)
                 (cb_cleanup_executable self || cleanup_executable config))
      end
  end.

Definition parse_file (toml_path : string) (self : ConfigBuilder) : ConfigBuilder + ConfigError :=
  match read_to_string toml_path with
  | None => inr IO
  | Some content => parse_toml_str content self
  end.

Definition parse_env (self : ConfigBuilder) : ConfigBuilder + ConfigError :=
  match env CONFIG_ENV_VAR with
  | None => inr (Environment CONFIG_ENV_VAR)
  | Some config_str => parse_toml_str config_str self
  end.

Definition add_hosts (more : list HostConfig) (self : ConfigBuilder) : ConfigBuilder :=
  mkConfigBuilder (cb_host_id self) (cb_hosts self ++ more) (cb_tracing_dir self)
    (cb_cleanup_executable self).
Definition set_host_id (host_id : HostId) (self : ConfigBuilder) : ConfigBuilder :=
  mkConfigBuilder (Some host_id) (cb_hosts self) (cb_tracing_dir self) (cb_cleanup_executable self).

Definition host_id_from_env (self : ConfigBuilder) : ConfigBuilder + ConfigError :=
  match env HOST_ID_ENV_VAR with
  | None => inr (Environment HOST_ID_ENV_VAR)
  | Some host_id =>
      match u64_from_str host_id with
      | None => inr (Invalid "host_id must be an integer")
      | Some host_id => inl (set_host_id host_id self)
      end
  end.

Definition build_config (self : ConfigBuilder) : RuntimeConfig + ConfigError :=
  let conf := Remote (mkRemoteConfig (cb_host_id self) (cb_hosts self) (cb_tracing_dir self)
                        (cb_cleanup_executable self)) in
  match cb_host_id self with
  | Some host_id =>
      if (N.of_nat (length (cb_hosts self)) <=? host_id)%N
      then inr (Invalid "invalid host_id, must be between 0 and the number of hosts - 1")
      else inl conf
  | None => inl conf
  end.

(** [RuntimeConfig::remote]. *)
Definition remote_config (toml_path : string) : RuntimeConfig + ConfigError :=
  match env CONFIG_ENV_VAR with
  | Some _ =>
      match parse_env new_remote with
      | inr e => inr e
      | inl builder =>
          match host_id_from_env builder with
          | inr e => inr e
          | inl builder => build_config builder
          end
      end
  | None =>
      match parse_file toml_path new_remote with
      | inr e => inr e
      | inl builder => build_config builder
      end
  end.

(** [CommandLineOptions] after [clap] has parsed the arguments, [validate], and
    [RuntimeConfig::from_args]: a configuration error panics. *)
Record CommandLineOptions := mkOptions {
  opt_remote : option string;
  opt_local : option N;
  opt_args : list string
}.
Definition validate (self : CommandLineOptions) : outcome unit :=
  rassert (xorb (bool_decide (is_Some (opt_remote self))) (bool_decide (is_Some (opt_local self)))).

Definition expect {X E} (r : X + E) : outcome X :=
  match r with inl x => Done x | inr _ => Panicked end.

Definition from_args (opt : CommandLineOptions) (program : string)
    : outcome (RuntimeConfig * list string) :=
  validate opt;;
  let args := program :: opt_args opt in
  match opt_local opt, opt_remote opt with
  | Some parallelism, _ => config ← expect (new_local parallelism); Done (config, args)
  | None, Some path => config ← expect (remote_config path); Done (config, args)
  | None, None => Panicked
  end.

(** ** What a configuration guarantees

    A host never has both a password and a key file, a local run has a core, and a
    process that knows its host is one of the hosts. *)
Definition host_valid (h : HostConfig) : Prop :=
  password (ssh h) = None ∨ key_file (ssh h) = None.
Definition config_valid (c : RuntimeConfig) : Prop :=
  match c with
  | Local parallelism => (0 < parallelism)%N
  | Remote remote =>
      Forall host_valid (hosts remote) ∧
      ∀ h, rc_host_id remote = Some h → (h < N.of_nat (length (hosts remote)))%N
  end.

Lemma push_hosts_spec new pushed r :
  push_hosts new pushed = inl r ↔ Forall host_valid new ∧ r = pushed ++ new.
Proof.
  revert pushed. induction new as [|h new IH]; intros pushed; simpl.
  { rewrite app_nil_r. naive_solver. }
  rewrite Forall_cons. unfold host_valid at 1.
  destruct (password (ssh h)), (key_file (ssh h)); rewrite ?IH, <-?(assoc_L (++)); simpl;
    naive_solver.
Qed.

Lemma parse_toml_str_valid s b b' :
  parse_toml_str s b = inl b' → Forall host_valid (cb_hosts b) →
  Forall host_valid (cb_hosts b') ∧ cb_host_id b' = cb_host_id b.
Proof.
  unfold parse_toml_str. intros Hp Hb. destruct (toml s) as [c|]; [|done].
  destruct (push_hosts _ _) as [r|] eqn:E; [|done]. simplify_eq/=.
  apply push_hosts_spec in E as [? ->]. split; [by apply Forall_app|done].
Qed.

Lemma build_config_valid b c :
  build_config b = inl c → Forall host_valid (cb_hosts b) →
  config_valid c ∧ config_host_id c = cb_host_id b.
Proof.
  unfold build_config. intros Hb Hh. destruct (cb_host_id b) as [h|] eqn:E; simplify_eq/=; [|done].
  case_match; simplify_eq/=. split; [|done]. split; [done|]. intros ? [= <-]. by apply N.leb_gt.
Qed.

Lemma remote_config_valid path c :
  remote_config path = inl c →
  config_valid c ∧ (is_Some (env CONFIG_ENV_VAR) ↔ is_Some (config_host_id c)).
Proof.
  unfold remote_config, parse_env, parse_file, host_id_from_env. intros Hr.
  repeat (case_match; simplify_eq/=).
  - apply parse_toml_str_valid in H0 as [? _]; [|done].
    apply build_config_valid in Hr as [? ->]; [|done]. split; [done|]. simpl. naive_solver.
  - apply parse_toml_str_valid in H0 as [? ?]; [|done].
    apply build_config_valid in Hr as [? ->]; [|done]. split; [done|].
    rewrite H2. simpl. split; intros []; congruence.
Qed.

(** C36.  Whatever the command line, the file and the environment say, a configuration
    that [from_args] returns is valid; it comes from exactly one of [--local] and
    [--remote]; and a remote run knows its own host exactly when the environment
    carries the configuration, that is, when this is a spawned worker. *)
Theorem from_args_valid opt program config args :
  from_args opt program = Done (config, args) →
  config_valid config ∧ args = program :: opt_args opt ∧
  match opt_local opt, opt_remote opt with
  | Some parallelism, None => config = Local parallelism
  | None, Some _ =>
      (∃ remote, config = Remote remote) ∧
      (is_Some (env CONFIG_ENV_VAR) ↔ is_Some (config_host_id config))
  | _, _ => False
  end.
Proof.
  destruct opt as [remote local args']. unfold from_args, validate. simpl.
  destruct remote as [path|], local as [p|]; simpl; try done; intros Hf.
  - inv_bind Hf. simplify_eq/=. destruct (remote_config path) as [c|] eqn:Er; simplify_eq/=.
    pose proof (remote_config_valid _ _ Er) as [??]. split_and!; try done.
    unfold remote_config, build_config in Er. repeat (case_match; simplify_eq/=); eauto.
  - unfold new_local in Hf. destruct (N.eqb_spec p 0); simplify_eq/=. split_and!; try done. lia.
Qed.
End builder.

Lemma from_args_valid_witness :
  config_valid (Local 4) ∧
  ∃ remote, from_args (λ _, Some (mkRemoteConfig None
      [mkHostConfig "host1" 9500 2 SSHConfig_default None] None false))
    (λ v, if decide (v = HOST_ID_ENV_VAR) then Some "0" else Some "") (λ _, None)
    (mkOptions (Some "config.toml") None ["x"]) "renoir" = Done (Remote remote, ["renoir"; "x"]) ∧
    rc_host_id remote = Some 0%N ∧ config_valid (Remote remote).
Proof.
  split; [refine (proj1 (from_args_valid (λ _, None) (λ _, None) (λ _, None)
    (mkOptions None (Some 4%N) []) "renoir" (Local 4) ["renoir"] _)); reflexivity|].
  eexists. split; [reflexivity|]. split; [reflexivity|].
  refine (proj1 (from_args_valid _ _ (λ _, None) (mkOptions (Some "config.toml") None ["x"]) "renoir"
    _ ["renoir"; "x"] _)).
  instantiate (1 := λ v, if decide (v = HOST_ID_ENV_VAR) then Some "0" else Some "").
  instantiate (1 := (λ _, Some (mkRemoteConfig None
      [mkHostConfig "host1" 9500 2 SSHConfig_default None] None false))).
  reflexivity.
Defined.
