(* ===== verification/Topology.v ===== *)
(** * The network topology of a host

    [src/src/network/topology.rs].  Each host keeps the whole execution graph, and the
    channels, multiplexers and demultiplexers of its own replicas, created when they are
    first asked for.  The sockets and the threads behind a multiplexer are in
    [Remote.v]; here a channel is known by its endpoint. *)
From stdpp Require Import strings sorting.
From S2P Require Import Prelude StreamElement Operator Frontier Batcher Start End Shuffle Config.

(** A [for] loop whose body may panic. *)
Fixpoint forM {X T} (l : list X) (s : T) (f : X → T → outcome T) : outcome T :=
  match l with
  | [] => Done s
  | x :: l => s ← f x s; forM l s f
  end.

(** [entry(k).or_default().push(x)] and [entry(k).or_default().insert(x)]. *)
Definition entry_push {K X} `{Countable K} (k : K) (x : X) (m : gmap K (list X)) : gmap K (list X) :=
  <[k := default [] (m !! k) ++ [x]]> m.
Definition entry_insert {K X} `{Countable K, Countable X} (k : K) (x : X) (m : gmap K (gset X))
    : gmap K (gset X) :=
  <[k := {[x]} ∪ default ∅ (m !! k)]> m.

(** ** Channels *)

(** [SenderInner]: through the multiplexer of a demultiplexer, or in memory. *)
Inductive NetworkSender :=
| Mux (receiver_endpoint : ReceiverEndpoint) (mux : DemuxCoord)
| LocalSender (receiver_endpoint : ReceiverEndpoint).

(** [NetworkSender::clone_inner]: panics on a multiplexed channel. *)
Definition clone_inner (self : NetworkSender) : outcome ReceiverEndpoint :=
  match self with
  | Mux _ _ => Panicked
  | LocalSender ep => Done ep
  end.

Abbreviation Address := (string * N)%type (only parsing).

Record DemuxHandle := mkDemuxHandle {
  dh_coord : DemuxCoord;
  dh_address : Address;
  num_clients : nat;
  tx_senders : list ReceiverEndpoint
}.
Record MultiplexingSender := mkMultiplexingSender { ms_coord : DemuxCoord; ms_address : Address }.

(** [DemuxHandle::register]. *)
Definition demux_register (ep : ReceiverEndpoint) (self : DemuxHandle) : DemuxHandle :=
  mkDemuxHandle (dh_coord self) (dh_address self) (num_clients self) (tx_senders self ++ [ep]).

(** A [TypeMap] of hash maps is a map on pairs of a type and a key; [finalize] takes it. *)
Abbreviation TypeMap K V := (option (gmap (N * K) V)) (only parsing).

Record NetworkTopology := mkTopology {
  receivers : TypeMap ReceiverEndpoint ReceiverEndpoint;
  nt_senders : TypeMap ReceiverEndpoint NetworkSender;
  demultiplexers : TypeMap DemuxCoord DemuxHandle;
  multiplexers : TypeMap DemuxCoord MultiplexingSender;
  nt_next : gmap (Coord * N) (list (Coord * bool));
  nt_prev : gmap Coord (list (Coord * N));
  senders_metadata : gmap ReceiverEndpoint bool;
  block_replicas : gmap BlockId (gset Coord);
  used_receivers : gset ReceiverEndpoint;
  registered_receivers : gset ReceiverEndpoint;
  demultiplexer_addresses : gmap DemuxCoord Address
}.

(** [NetworkTopology::new]. *)
Definition NetworkTopology_new : NetworkTopology :=
  mkTopology (Some ∅) (Some ∅) (Some ∅) (Some ∅) ∅ ∅ ∅ ∅ ∅ ∅ ∅.

(** [NetworkTopology::finalize]. *)
Definition finalize (self : NetworkTopology) : NetworkTopology :=
  mkTopology None None None None (nt_next self) (nt_prev self) (senders_metadata self)
    (block_replicas self) (used_receivers self) (registered_receivers self)
    (demultiplexer_addresses self).

Definition set_channels (self : NetworkTopology) receivers senders demultiplexers multiplexers
    : NetworkTopology :=
  mkTopology receivers senders demultiplexers multiplexers (nt_next self) (nt_prev self)
    (senders_metadata self) (block_replicas self) (used_receivers self) (registered_receivers self)
    (demultiplexer_addresses self).
Definition set_used (self : NetworkTopology) (used registered : gset ReceiverEndpoint)
    : NetworkTopology :=
  mkTopology (receivers self) (nt_senders self) (demultiplexers self) (multiplexers self)
    (nt_next self) (nt_prev self) (senders_metadata self) (block_replicas self) used registered
    (demultiplexer_addresses self).

(** ** The execution graph *)

(** [NetworkTopology::connect]. *)
Definition connect (config : RuntimeConfig) (from to : Coord) (typ : N) (fragile : bool)
    (self : NetworkTopology) : outcome NetworkTopology :=
  host ← unwrap (config_host_id config);
  let from_remote := negb (N.eqb (host_id from) host) in
  let to_remote := negb (N.eqb (host_id to) host) in
  let endpoint := mkReceiverEndpoint to (block_id from) in
  Done (mkTopology (receivers self) (nt_senders self) (demultiplexers self) (multiplexers self)
          (entry_push (from, typ) (to, fragile) (nt_next self))
          (entry_push to (from, typ) (nt_prev self))
          (if from_remote && to_remote then senders_metadata self
           else
             let m := default false (senders_metadata self !! endpoint) in
             <[endpoint := if to_remote then true else m]> (senders_metadata self))
          (entry_insert (block_id to) to (entry_insert (block_id from) from (block_replicas self)))
          (used_receivers self) (registered_receivers self) (demultiplexer_addresses self)).

(** [NetworkTopology::prev], [replicas], and the adjacency list. *)
Definition topology_prev (self : NetworkTopology) (coord : Coord) : list (Coord * N) :=
  default [] (nt_prev self !! coord).
Definition topology_replicas (self : NetworkTopology) (block : BlockId) : list Coord :=
  elements (default ∅ (block_replicas self !! block)).
Definition topology_next (self : NetworkTopology) (coord : Coord) (typ : N) : list (Coord * bool) :=
  default [] (nt_next self !! (coord, typ)).

(** ** Addresses of the demultiplexers *)
Definition demux_key (d : DemuxCoord) : list N :=
  [bc_block_id (dc_coord d); bc_host_id (dc_coord d); dc_prev_block_id d].
Definition demux_leb (a b : DemuxCoord) : bool := lex_leb (demux_key a) (demux_key b).

(** [IndexSet::insert]. *)
Definition index_insert {X} `{EqDecision X} (x : X) (l : list X) : list X :=
  if decide (x ∈ l) then l else l ++ [x].

Definition u16_max : N := 65535.

(** The loop of [NetworkTopology::build] over the sorted coordinates; ports and offsets
    are [u16]. *)
Fixpoint assign_ports (hosts : list HostConfig) (coords : list DemuxCoord) (used_ports : gmap HostId N)
    (addresses : gmap DemuxCoord Address) : outcome (gmap DemuxCoord Address) :=
  match coords with
  | [] => Done addresses
  | coord :: coords =>
      let host_id := bc_host_id (dc_coord coord) in
      let port_offset := default 0%N (used_ports !! host_id) in
      host ← unwrap (hosts !! N.to_nat host_id);
      let port := (base_port host + port_offset)%N in
      rassert (port <=? u16_max)%N;;
      rassert (port_offset + 1 <=? u16_max)%N;;
      assign_ports hosts coords (<[host_id := (port_offset + 1)%N]> used_ports)
        (<[coord := (address host, port)]> addresses)
  end.

Section topology.
Context `{!HashOrder}.

(** The [IndexSet] that [build] collects before sorting. *)
Definition demux_coords (net : NetworkTopology) : list DemuxCoord :=
  foldl (λ coords '((from, _), to),
    foldl (λ coords '(to, _), index_insert (DemuxCoord_new from to) coords) coords to)
    [] (hash_iter (nt_next net)).

(** [NetworkTopology::build]. *)
Definition topology_build (config : RuntimeConfig) (self : NetworkTopology) : outcome NetworkTopology :=
  match config with
  | Local _ => Done self
  | Remote remote =>
      a ← assign_ports (hosts remote) (insertion_sort demux_leb (demux_coords self)) ∅
            (demultiplexer_addresses self);
      Done (mkTopology (receivers self) (nt_senders self) (demultiplexers self) (multiplexers self)
              (nt_next self) (nt_prev self) (senders_metadata self) (block_replicas self)
              (used_receivers self) (registered_receivers self) a)
  end.

(** ** Registration of the channels *)

(** The previous blocks of a demultiplexer on other hosts: the loop of [register_demux]. *)
Definition demux_prev (typ : N) (d : DemuxCoord) (self : NetworkTopology) : gset BlockCoord :=
  foldl (λ prev '((from, t), to),
    if N.eqb (host_id from) (bc_host_id (dc_coord d)) then prev
    else if negb (N.eqb t typ) then prev
    else foldl (λ prev '(to, _),
           if includes_channel d from to then {[blockcoord_of_coord from]} ∪ prev else prev) prev to)
    ∅ (hash_iter (nt_next self)).

(** [NetworkTopology::register_demux]. *)
Definition register_demux (typ : N) (ep : ReceiverEndpoint) (self : NetworkTopology)
    : outcome NetworkTopology :=
  let d := demux_of_endpoint ep in
  demuxes ← unwrap (demultiplexers self);
  demuxes ←
    match demuxes !! (typ, d) with
    | Some _ => Done demuxes
    | None =>
        let prev := demux_prev typ d self in
        if decide (prev = ∅) then Done demuxes
        else
          a ← unwrap (demultiplexer_addresses self !! d);
          Done (<[(typ, d) := mkDemuxHandle d a (size prev) []]> demuxes)
    end;
  let demuxes :=
    match demuxes !! (typ, d) with
    | Some demux => <[(typ, d) := demux_register ep demux]> demuxes
    | None => demuxes
    end in
  Done (set_channels self (receivers self) (nt_senders self) (Some demuxes) (multiplexers self)).

(** [NetworkTopology::register_mux]. *)
Definition register_mux (typ : N) (ep : ReceiverEndpoint) (self : NetworkTopology)
    : outcome (NetworkSender * NetworkTopology) :=
  let d := demux_of_endpoint ep in
  muxers ← unwrap (multiplexers self);
  muxers ←
    match muxers !! (typ, d) with
    | Some _ => Done muxers
    | None =>
        a ← unwrap (demultiplexer_addresses self !! d);
        Done (<[(typ, d) := mkMultiplexingSender d a]> muxers)
    end;
  mux ← unwrap (muxers !! (typ, d));
  Done (Mux ep (ms_coord mux),
        set_channels self (receivers self) (nt_senders self) (demultiplexers self) (Some muxers)).

(** [senders.entry().or_default().insert()] and the same for the receivers. *)
Definition insert_sender (typ : N) (ep : ReceiverEndpoint) (sender : NetworkSender)
    (self : NetworkTopology) : outcome NetworkTopology :=
  senders ← unwrap (nt_senders self);
  Done (set_channels self (receivers self) (Some (<[(typ, ep) := sender]> senders))
          (demultiplexers self) (multiplexers self)).
Definition insert_receiver (typ : N) (ep : ReceiverEndpoint) (self : NetworkTopology)
    : outcome NetworkTopology :=
  rs ← unwrap (receivers self);
  Done (set_channels self (Some (<[(typ, ep) := ep]> rs)) (nt_senders self)
          (demultiplexers self) (multiplexers self)).

(** [NetworkTopology::register_channel]. *)
Definition register_channel (config : RuntimeConfig) (typ : N) (ep : ReceiverEndpoint)
    (self : NetworkTopology) : outcome NetworkTopology :=
  rassert (bool_decide (ep ∉ registered_receivers self));;
  let self := set_used self (used_receivers self) ({[ep]} ∪ registered_receivers self) in
  to_remote ← unwrap (senders_metadata self !! ep);
  match config with
  | Remote _ =>
      if to_remote : bool then
        '(sender, self) ← register_mux typ ep self;
        insert_sender typ ep sender self
      else
        let sender := LocalSender ep in
        host ← unwrap (config_host_id config);
        self ← (if N.eqb (host_id (re_coord ep)) host
                then inner ← clone_inner sender; register_demux typ inner self
                else Done self);
        self ← insert_receiver typ ep self;
        insert_sender typ ep sender self
  | Local _ =>
      self ← insert_receiver typ ep self;
      insert_sender typ ep (LocalSender ep) self
  end.

(** [NetworkTopology::get_sender]. *)
Definition get_sender (config : RuntimeConfig) (typ : N) (ep : ReceiverEndpoint)
    (self : NetworkTopology) : outcome (NetworkSender * NetworkTopology) :=
  senders ← unwrap (nt_senders self);
  self ← match senders !! (typ, ep) with
         | None => register_channel config typ ep self
         | Some _ => Done self
         end;
  senders ← unwrap (nt_senders self);
  sender ← unwrap (senders !! (typ, ep));
  Done (sender, self).

(** [NetworkTopology::get_receiver]. *)
Definition get_receiver (config : RuntimeConfig) (typ : N) (ep : ReceiverEndpoint)
    (self : NetworkTopology) : outcome (ReceiverEndpoint * NetworkTopology) :=
  rassert (bool_decide (ep ∉ used_receivers self));;
  let self := set_used self ({[ep]} ∪ used_receivers self) (registered_receivers self) in
  rs ← unwrap (receivers self);
  self ← match rs !! (typ, ep) with
         | None => register_channel config typ ep self
         | Some _ => Done self
         end;
  rs ← unwrap (receivers self);
  receiver ← unwrap (rs !! (typ, ep));
  Done (receiver,
        set_channels self (Some (delete (typ, ep) rs)) (nt_senders self) (demultiplexers self)
          (multiplexers self)).

(** [NetworkTopology::get_senders]: one sender per connection that is not fragile. *)
Definition get_senders (config : RuntimeConfig) (coord : Coord) (typ : N) (self : NetworkTopology)
    : outcome (list (ReceiverEndpoint * NetworkSender) * NetworkTopology) :=
  forM (topology_next self coord typ) ([], self) (λ '(c, fragile) '(acc, self),
    if fragile : bool then Done (acc, self)
    else
      let ep := mkReceiverEndpoint c (block_id coord) in
      '(sender, self) ← get_sender config typ ep self;
      Done (acc ++ [(ep, sender)], self)).
End topology.

(** ** Facts about the addresses *)
(** The ports assigned to the coordinates [ds]: the [i]-th demultiplexer of a host gets
    the [i]-th port of that host. *)
Record ports_ok (hosts : list HostConfig) (ds : list DemuxCoord) (used : gmap HostId N)
    (addresses : gmap DemuxCoord Address) : Prop := {
  po_used h : default 0%N (used !! h) =
    N.of_nat (length (base.filter (λ d, bc_host_id (dc_coord d) = h) ds));
  po_addr d a : addresses !! d = Some a ↔
    ∃ host i, hosts !! N.to_nat (bc_host_id (dc_coord d)) = Some host ∧
      base.filter (λ d', bc_host_id (dc_coord d') = bc_host_id (dc_coord d)) ds !! i = Some d ∧
      a = (address host, (base_port host + N.of_nat i)%N);
  po_all : Forall (λ d, is_Some (hosts !! N.to_nat (bc_host_id (dc_coord d)))) ds
}.

Lemma ports_ok_nil hosts : ports_ok hosts [] ∅ ∅.
Proof.
  split; [done| |done]. intros d a. rewrite lookup_empty. split; [done|].
  by intros (? & ? & _ & ? & _).
Qed.

Lemma ports_ok_snoc hosts ds used addresses d host :
  ports_ok hosts ds used addresses → d ∉ ds →
  hosts !! N.to_nat (bc_host_id (dc_coord d)) = Some host →
  let h := bc_host_id (dc_coord d) in
  let offset := default 0%N (used !! h) in
  ports_ok hosts (ds ++ [d]) (<[h := (offset + 1)%N]> used)
    (<[d := (address host, (base_port host + offset)%N)]> addresses).
Proof.
  intros [Hu Ha Hall] Hd Hhost h offset. split.
  - intros h'. rewrite filter_app, length_app. destruct (decide (h = h')) as [<-|Hne].
    + rewrite lookup_insert_eq, filter_cons_True by done. simpl. subst offset. rewrite Hu. lia.
    + rewrite lookup_insert_ne, filter_cons_False by done. simpl. rewrite Hu. lia.
  - intros d' a. destruct (decide (d = d')) as [<-|Hne].
    + rewrite lookup_insert_eq. split.
      * intros [= <-]. exists host, (length (base.filter (λ d', bc_host_id (dc_coord d') = h) ds)).
        rewrite filter_app, filter_cons_True by done.
        split_and!; [done|by apply list_lookup_middle|]. subst offset. by rewrite Hu.
      * intros (host' & i & E & Hi & ->). rewrite Hhost in E. injection E as <-.
        rewrite filter_app, filter_cons_True in Hi by done.
        apply lookup_app_Some in Hi as [Hi|[? Hi]].
        { apply list_elem_of_lookup_2, list_elem_of_filter in Hi as [_ ?]. done. }
        apply list_lookup_singleton_Some in Hi as [? _]. subst offset. rewrite Hu. do 3 f_equal.
        unfold h in *. lia.
    + rewrite lookup_insert_ne, Ha by done. split; intros (host' & i & E & Hi & ->); exists host', i;
        (split_and!; [done| |done]); rewrite filter_app in *.
      * by apply lookup_app_l_Some.
      * apply lookup_app_Some in Hi as [?|[? Hi]]; [done|]. rewrite filter_cons in Hi.
        case_decide; [|done]. by apply list_lookup_singleton_Some in Hi as [_ ?].
  - apply Forall_app. split; [done|]. constructor; [by eexists|done].
Qed.

Lemma assign_ports_ok hosts ds coords used addresses a :
  ports_ok hosts ds used addresses → NoDup (ds ++ coords) →
  assign_ports hosts coords used addresses = Done a → ∃ used', ports_ok hosts (ds ++ coords) used' a.
Proof.
  revert ds used addresses. induction coords as [|d coords IH]; intros ds used addresses Hp Hnd Ha;
    simpl in Ha.
  { injection Ha as <-. exists used. by rewrite app_nil_r. }
  inv_bind Ha. inv_bind Ha. inv_bind Ha. rename a0 into host.
  destruct (hosts !! _) as [host'|] eqn:Hh; simplify_eq/=.
  rewrite (cons_middle d) in *. rewrite (assoc_L (++)) in *. eapply IH; [|done|exact Ha].
  apply ports_ok_snoc; [done| |done]. apply NoDup_app in Hnd as (Hnd & _).
  apply NoDup_app in Hnd as (_ & Hdis & _). intros Hd. apply (Hdis _ Hd). left.
Qed.

(** There are ports for everyone when no host needs more than it has. *)
Lemma assign_ports_total hosts ds coords used addresses :
  ports_ok hosts ds used addresses → NoDup (ds ++ coords) →
  Forall (λ d, ∃ host, hosts !! N.to_nat (bc_host_id (dc_coord d)) = Some host ∧
    (base_port host + N.of_nat (length (base.filter
      (λ d', bc_host_id (dc_coord d') = bc_host_id (dc_coord d)) (ds ++ coords))) <= u16_max)%N)
    coords →
  ∃ a, assign_ports hosts coords used addresses = Done a.
Proof.
  revert ds used addresses. induction coords as [|d coords IH]; intros ds used addresses Hp Hnd Hf;
    simpl; [by eexists|].
  apply Forall_cons in Hf as [(host & Hh & Hb) Hf]. rewrite Hh. simpl.
  rewrite filter_app, filter_cons_True, length_app in Hb by done. simpl in Hb.
  rewrite (po_used _ _ _ _ Hp). unfold rassert.
  rewrite (proj2 (N.leb_le _ _)) by lia. simpl. rewrite (proj2 (N.leb_le _ _)) by lia. simpl.
  rewrite (cons_middle d) in *. rewrite (assoc_L (++)) in *.
  eapply (IH (ds ++ [d])); [|done|done].
  rewrite <-(po_used _ _ _ _ Hp). apply ports_ok_snoc; [done| |done].
  apply NoDup_app in Hnd as (Hnd & _). apply NoDup_app in Hnd as (_ & Hdis & _).
  intros Hd. apply (Hdis _ Hd). left.
Qed.

(** Two demultiplexers of a host never share a port. *)
Lemma ports_ok_inj hosts ds used addresses d1 d2 a1 a2 :
  ports_ok hosts ds used addresses →
  addresses !! d1 = Some a1 → addresses !! d2 = Some a2 →
  bc_host_id (dc_coord d1) = bc_host_id (dc_coord d2) → a1.2 = a2.2 → d1 = d2.
Proof.
  intros Hp Ha1 Ha2 Hh Hport. apply (po_addr _ _ _ _ Hp) in Ha1 as (h1 & i & E1 & Hi & ->).
  apply (po_addr _ _ _ _ Hp) in Ha2 as (h2 & j & E2 & Hj & ->).
  rewrite <-Hh in *. rewrite E1 in E2. injection E2 as <-. simpl in Hport.
  assert (i = j) as <- by lia. congruence.
Qed.

Lemma ports_ok_some hosts ds used addresses d :
  ports_ok hosts ds used addresses → d ∈ ds → is_Some (addresses !! d).
Proof.
  intros Hp Hd. pose proof (po_all _ _ _ _ Hp) as Hall. rewrite Forall_forall in Hall.
  destruct (Hall _ Hd) as [host Hh].
  assert (d ∈ base.filter (λ d', bc_host_id (dc_coord d') = bc_host_id (dc_coord d)) ds) as Hf
    by by apply list_elem_of_filter.
  apply list_elem_of_lookup_1 in Hf as [i Hi].
  exists (address host, (base_port host + N.of_nat i)%N). apply (po_addr _ _ _ _ Hp).
  by exists host, i.
Qed.

(** *** The coordinates that [build] collects *)
Lemma elem_of_index_insert {X} `{EqDecision X} (x y : X) l : y ∈ index_insert x l ↔ y = x ∨ y ∈ l.
Proof. unfold index_insert. case_decide; set_solver. Qed.
Lemma NoDup_index_insert {X} `{EqDecision X} (x : X) l : NoDup l → NoDup (index_insert x l).
Proof.
  intros. unfold index_insert. case_decide; [done|]. apply NoDup_app.
  split_and!; [done|set_solver|apply NoDup_singleton].
Qed.

(** A loop that inserts is a loop over what it inserts. *)
Lemma foldl_index_insert {X Y} `{EqDecision X} (f : Y → X) (ys : list Y) (l : list X) :
  NoDup l →
  NoDup (foldl (λ l y, index_insert (f y) l) l ys) ∧
  ∀ x, x ∈ foldl (λ l y, index_insert (f y) l) l ys ↔ x ∈ l ∨ ∃ y, y ∈ ys ∧ x = f y.
Proof.
  revert l. induction ys as [|y ys IH]; intros l Hl; simpl.
  { split; [done|]. intros x. split; [by left|]. intros [?|(? & ?%elem_of_nil & _)]; done. }
  destruct (IH (index_insert (f y) l)) as [Hnd Hin]; [by apply NoDup_index_insert|].
  split; [done|]. intros x. rewrite Hin, elem_of_index_insert. setoid_rewrite elem_of_cons.
  naive_solver.
Qed.

Lemma demux_coords_spec `{!HashOrder} net :
  NoDup (demux_coords net) ∧
  ∀ d, d ∈ demux_coords net ↔
    ∃ from typ to fragile, (to, fragile) ∈ topology_next net from typ ∧ d = DemuxCoord_new from to.
Proof.
  unfold demux_coords.
  assert (∀ ns coords, NoDup coords →
    let r := foldl (λ coords '((from, _), to),
      foldl (λ coords '(to, _), index_insert (DemuxCoord_new from to) coords) coords to) coords
      (ns : list (Coord * N * list (Coord * bool))) in
    NoDup r ∧ ∀ d, d ∈ r ↔ d ∈ coords ∨ ∃ from typ tos to fragile,
      (from, typ, tos) ∈ ns ∧ (to, fragile) ∈ tos ∧ d = DemuxCoord_new from to) as Hloop.
  { induction ns as [|[[from typ] tos] ns IH]; intros coords Hc; simpl.
    { split; [done|]. intros d. split; [by left|]. intros [?|(? & ? & ? & ? & ? & ?%elem_of_nil & _)]; done. }
    pose proof (foldl_index_insert (λ p : Coord * bool, DemuxCoord_new from p.1) tos coords Hc) as [Hnd Hin].
    assert (∀ c, foldl (λ coords '(to, _), index_insert (DemuxCoord_new from to) coords) c tos =
      foldl (λ l p, index_insert (DemuxCoord_new from p.1) l) c tos) as E.
    { clear. induction tos as [|[? ?] tos IH]; intros cs; [done|apply IH]. }
    rewrite E. destruct (IH _ Hnd) as [Hnd' Hin']. split; [done|]. intros d.
    rewrite Hin', Hin. setoid_rewrite elem_of_cons. split.
    - intros [[?|([to fr] & Hy & ->)]|?]; [by left| |naive_solver].
      right. exists from, typ, tos, to, fr. naive_solver.
    - intros [?|(f & t & ts & to & fr & [Heq|?] & ? & ->)]; [by do 2 left| |right; naive_solver].
      injection Heq as -> -> ->. left. right. by exists (to, fr). }
  destruct (Hloop (hash_iter (nt_next net)) [] (NoDup_nil_2)) as [Hnd Hin]. split; [done|].
  intros d. rewrite Hin. unfold topology_next. split.
  - intros [?%elem_of_nil|(f & t & ts & to & fr & Hh & Hto & ->)]; [done|].
    rewrite (hash_iter_perm (nt_next net)), elem_of_map_to_list in Hh.
    exists f, t, to, fr. by rewrite Hh.
  - intros (f & t & to & fr & Hto & ->). right.
    destruct (nt_next net !! (f, t)) as [ts|] eqn:E; [|by apply elem_of_nil in Hto].
    exists f, t, ts, to, fr. rewrite (hash_iter_perm (nt_next net)), elem_of_map_to_list. done.
Qed.

(** *** The order of the coordinates is total and antisymmetric *)
Lemma demux_leb_total : total_preorder demux_leb.
Proof. split; intros; [apply lex_leb_total|by eapply lex_leb_trans]. Qed.
Lemma demux_leb_antisym a b : demux_leb a b = true → demux_leb b a = true → a = b.
Proof.
  intros H1 H2. pose proof (lex_leb_antisym _ _ H1 H2) as E.
  destruct a as [[]], b as [[]]. unfold demux_key in E. simpl in E. congruence.
Qed.

Lemma sorted_demuxes_unique l1 l2 :
  l1 ≡ₚ l2 → insertion_sort demux_leb l1 = insertion_sort demux_leb l2.
Proof.
  intros Hp. apply (StronglySorted_unique_strong (λ x y, demux_leb x y = true)).
  - intros. by apply demux_leb_antisym.
  - apply insertion_sort_sorted, demux_leb_total.
  - apply insertion_sort_sorted, demux_leb_total.
  - by rewrite !insertion_sort_perm.
Qed.

Lemma topology_build_ports `{!HashOrder} remote net net' :
  demultiplexer_addresses net = ∅ →
  topology_build (Remote remote) net = Done net' →
  ∃ used, ports_ok (hosts remote) (insertion_sort demux_leb (demux_coords net)) used
            (demultiplexer_addresses net').
Proof.
  intros He Hb. simpl in Hb. rewrite He in Hb. inv_bind Hb. injection Hb as <-. simpl.
  destruct (demux_coords_spec net) as [Hnd _].
  apply (assign_ports_ok (hosts remote) [] (insertion_sort demux_leb (demux_coords net)) ∅ ∅ a);
    [apply ports_ok_nil| |done].
  rewrite app_nil_l. by rewrite insertion_sort_perm.
Qed.
