(* ===== verification/Scheduler.v ===== *)
(** * From the job graph to the execution graph

    [src/src/block/mod.rs] (replication) and [src/src/scheduler.rs].  The scheduler places
    the replicas of each block on the hosts and numbers them, and links the replicas of
    connected blocks.  Every host does this on its own, from the same program, so that
    hosts only agree if the result does not depend on the iteration order of their hash
    maps. *)
From stdpp Require Import strings.
From S2P Require Import Prelude StreamElement Operator Frontier Batcher Start End Shuffle Config Topology.

(** ** [Replication] *)
Inductive Replication :=
| Unlimited
| Limited (n : N)
| Host
| One.
Global Instance Replication_eq : EqDecision Replication.
Proof. solve_decision. Defined.

Definition new_limited (size : N) : outcome Replication :=
  rassert (negb (N.eqb size 0));; Done (Limited size).
Definition is_unlimited (self : Replication) : bool :=
  match self with Unlimited => true | _ => false end.

(** [Replication::intersect]. *)
Definition intersect (self rhs : Replication) : Replication :=
  match self, rhs with
  | One, _ | _, One => One
  | Host, _ | _, Host => Host
  | Limited n, Limited m => Limited (N.min n m)
  | Limited n, _ | _, Limited n => Limited n
  | Unlimited, Unlimited => Unlimited
  end.

(** [Replication::clamp]. *)
Definition clamp (self : Replication) (n : N) : N :=
  match self with
  | Unlimited => n
  | Limited q => N.min n q
  | Host | One => 1
  end.

(** ** Placement of the replicas *)
Record BlockDecl := mkBlockDecl {
  bd_id : BlockId;
  bd_replication : Replication;
  bd_only_one : bool;
  bd_batch_mode : BatchMode
}.

Record SchedulerBlockInfo := mkBlockInfo {
  bi_replicas : gmap HostId (list Coord);
  bi_global_ids : gmap Coord N;
  bi_batch_mode : BatchMode;
  is_only_one_strategy : bool
}.

(** [SchedulerBlockInfo::replicas]. *)
Definition replicas_on (self : SchedulerBlockInfo) (host : HostId) : list Coord :=
  default [] (bi_replicas self !! host).

(** The variables of [remote_block_info]. *)
Record Placement := mkPlacement {
  pl_replicas : gmap HostId (list Coord);
  pl_global_ids : gmap Coord N;
  global_counter : N
}.
Definition no_placement : Placement := mkPlacement ∅ ∅ 0.

(** One turn of the loop of [add_replicas!], and the macro. *)
Definition add_replica (block host : N) (p : Placement) (replica : nat) : Placement :=
  let coord := mkCoord block host (N.of_nat replica) in
  mkPlacement (<[host := default [] (pl_replicas p !! host) ++ [coord]]> (pl_replicas p))
    (<[coord := global_counter p]> (pl_global_ids p)) (global_counter p + 1).
Definition add_replicas (block host n : N) (p : Placement) : Placement :=
  foldl (add_replica block host)
    (mkPlacement (<[host := default [] (pl_replicas p !! host)]> (pl_replicas p))
       (pl_global_ids p) (global_counter p))
    (seq 0 (N.to_nat n)).

(** [remote.hosts.iter().enumerate()]. *)
Definition enumerate {X} (l : list X) : list (N * X) := zip (N.of_nat <$> seq 0 (length l)) l.

(** [Scheduler::remote_block_info]. *)
Definition remote_block_info (block : BlockDecl) (hosts : list HostConfig)
    : outcome SchedulerBlockInfo :=
  p ← match bd_replication block with
      | Unlimited =>
          Done (foldl (λ p '(host, info), add_replicas (bd_id block) host (num_cores info) p)
                  no_placement (enumerate hosts))
      | Limited remaining =>
          Done (foldl (λ '(p, remaining) '(host, info),
                         let n := N.min remaining (num_cores info) in
                         (add_replicas (bd_id block) host n p, (remaining - n)%N))
                  (no_placement, remaining) (enumerate hosts)).1
      | Host =>
          Done (foldl (λ p '(host, _), add_replicas (bd_id block) host 1 p)
                  no_placement (enumerate hosts))
      | One => _ ← unwrap (hosts !! 0); Done (add_replicas (bd_id block) 0 1 no_placement)
      end;
  Done (mkBlockInfo (pl_replicas p) (pl_global_ids p) (bd_batch_mode block) (bd_only_one block)).

(** [Scheduler::local_block_info]. *)
Definition local_block_info (block : BlockDecl) (parallelism host : N) : SchedulerBlockInfo :=
  let instances := N.to_nat (clamp (bd_replication block) parallelism) in
  mkBlockInfo {[host := (λ r, mkCoord (bd_id block) host (N.of_nat r)) <$> seq 0 instances]}
    (list_to_map ((λ r, (mkCoord (bd_id block) host (N.of_nat r), N.of_nat r)) <$> seq 0 instances))
    (bd_batch_mode block) (bd_only_one block).

(** [Scheduler::block_info]. *)
Definition block_info (config : RuntimeConfig) (block : BlockDecl) : outcome SchedulerBlockInfo :=
  match config with
  | Local parallelism =>
      host ← unwrap (config_host_id config); Done (local_block_info block parallelism host)
  | Remote remote => remote_block_info block (hosts remote)
  end.

(** ** [Scheduler] *)
Record Scheduler := mkScheduler {
  next_blocks : gmap BlockId (list (BlockId * N * bool));
  prev_blocks : gmap BlockId (list (BlockId * N));
  sc_block_info : gmap BlockId SchedulerBlockInfo;
  block_init : list Coord
}.
Definition Scheduler_new : Scheduler := mkScheduler ∅ ∅ ∅ [].

(** [Scheduler::connect_blocks], [connect_blocks_fragile]. *)
Definition connect_blocks_with (fragile : bool) (from to : BlockId) (typ : N) (self : Scheduler)
    : Scheduler :=
  mkScheduler (entry_push from (to, typ, fragile) (next_blocks self))
    (entry_push to (from, typ) (prev_blocks self)) (sc_block_info self) (block_init self).
Definition connect_blocks := connect_blocks_with false.
Definition connect_blocks_fragile := connect_blocks_with true.

(** [Scheduler::schedule_block]: a worker per local replica. *)
Definition schedule_block (config : RuntimeConfig) (block : BlockDecl) (self : Scheduler)
    : outcome Scheduler :=
  info ← block_info config block;
  host ← unwrap (config_host_id config);
  Done (mkScheduler (next_blocks self) (prev_blocks self) (<[bd_id block := info]> (sc_block_info self))
          (block_init self ++ replicas_on info host)).

Section graph.
Context `{!HashOrder}.

(** [info.replicas.values().flatten()]. *)
Definition all_replicas (self : SchedulerBlockInfo) : list Coord :=
  concat (hash_iter (bi_replicas self)).*2.

(** Whether two replicas of connected blocks are linked. *)
Definition linked (only_one fragile : bool) (to : list Coord) (from_coord to_coord : Coord) : bool :=
  if only_one || fragile then
    (length to =? 1) ||
    (N.eqb (host_id to_coord) (host_id from_coord) && N.eqb (replica_id to_coord) (replica_id from_coord))
  else true.

(** [Scheduler::build_execution_graph]. *)
Definition build_execution_graph (config : RuntimeConfig) (self : Scheduler) (net : NetworkTopology)
    : outcome NetworkTopology :=
  forM (hash_iter (next_blocks self)) net (λ '(from_block_id, next) net,
    from ← unwrap (sc_block_info self !! from_block_id);
    forM next net (λ '(to_block_id, typ, fragile) net,
      to ← unwrap (sc_block_info self !! to_block_id);
      forM (all_replicas from) net (λ from_coord net,
        let to := all_replicas to in
        forM to net (λ to_coord net,
          if linked (is_only_one_strategy from) fragile to from_coord to_coord
          then connect config from_coord to_coord typ fragile net
          else Done net)))).

(** The metadata [Scheduler::build_all] hands to a replica. *)
Definition build_metadata (self : Scheduler) (net : NetworkTopology) (coord : Coord)
    : outcome ExecutionMetadata :=
  info ← unwrap (sc_block_info self !! block_id coord);
  global_id ← unwrap (bi_global_ids info !! coord);
  Done (mkExecutionMetadata coord (all_replicas info) global_id (topology_prev net coord)
          (bi_batch_mode info)).

(** [Scheduler::build_all], and the check [Scheduler::start] does before it; [init] is
    what the worker of a replica does with the network when it is spawned. *)
Definition build_all (init : ExecutionMetadata → NetworkTopology → outcome NetworkTopology)
    (config : RuntimeConfig) (self : Scheduler) : outcome (list ExecutionMetadata * NetworkTopology) :=
  net ← build_execution_graph config self NetworkTopology_new;
  net ← topology_build config net;
  '(workers, net) ← forM (block_init self) ([], net) (λ coord '(workers, net),
    metadata ← build_metadata self net coord;
    net ← init metadata net;
    Done (workers ++ [metadata], net));
  Done (workers, finalize net).
Definition start_blocking (init : ExecutionMetadata → NetworkTopology → outcome NetworkTopology)
    (config : RuntimeConfig) (block_count : nat) (self : Scheduler)
    : outcome (list ExecutionMetadata * NetworkTopology) :=
  rassert (size (sc_block_info self) =? block_count);;
  build_all init config self.
End graph.

(** ** Placement *)

(** The replicas that an allocation of [n] replicas per host stands for. *)
Definition coords_on (b h : N) (n : nat) : list Coord :=
  (λ r, mkCoord b h (N.of_nat r)) <$> seq 0 n.
Definition coords_of (b : N) (l : list (N * N)) : list Coord :=
  concat ((λ '(h, n), coords_on b h (N.to_nat n)) <$> l).

(** What the variables of [remote_block_info] mean once the replicas [cs] are placed. *)
Record placed (cs : list Coord) (replicas : gmap HostId (list Coord)) (ids : gmap Coord N) : Prop := {
  placed_nodup : NoDup cs;
  placed_ids c g : ids !! c = Some g ↔ ∃ i, g = N.of_nat i ∧ cs !! i = Some c;
  placed_on h : default [] (replicas !! h) = base.filter (λ c, host_id c = h) cs
}.

Lemma coords_on_S b h n : coords_on b h (S n) = coords_on b h n ++ [mkCoord b h (N.of_nat n)].
Proof. unfold coords_on. by rewrite seq_S, fmap_app. Qed.
Lemma elem_of_coords_on b h n c :
  c ∈ coords_on b h n ↔
  block_id c = b ∧ host_id c = h ∧ (replica_id c < N.of_nat n)%N.
Proof.
  unfold coords_on. rewrite list_elem_of_fmap. split.
  - intros (r & -> & Hr%elem_of_seq). simpl. split_and!; [done..|lia].
  - intros (<- & <- & Hr). exists (N.to_nat (replica_id c)). rewrite N2Nat.id, elem_of_seq.
    split; [by destruct c|lia].
Qed.

Lemma placed_snoc cs c replicas ids :
  placed cs replicas ids → c ∉ cs →
  placed (cs ++ [c]) (<[host_id c := default [] (replicas !! host_id c) ++ [c]]> replicas)
    (<[c := N.of_nat (length cs)]> ids).
Proof.
  intros [Hnd Hids Hon] Hc. split.
  - apply NoDup_app. split_and!; [done|set_solver|apply NoDup_singleton].
  - intros c' g. destruct (decide (c' = c)) as [->|Hne].
    + rewrite lookup_insert_eq. split.
      * intros [= <-]. exists (length cs). by rewrite list_lookup_middle.
      * intros (i & -> & [Hi|[Hle Hi]]%lookup_app_Some); [by apply list_elem_of_lookup_2 in Hi|].
        apply list_lookup_singleton_Some in Hi as [? _]. do 2 f_equal. lia.
    + rewrite lookup_insert_ne, Hids by done. split; intros (i & -> & Hi); exists i; (split; [done|]).
      * by apply lookup_app_l_Some.
      * apply lookup_app_Some in Hi as [?|[? Hi]]; [done|].
        by apply list_lookup_singleton_Some in Hi as [? ?].
  - intros h. rewrite filter_app, filter_cons, filter_nil. destruct (decide (host_id c = h)) as [<-|].
    + by rewrite lookup_insert_eq, <-Hon.
    + by rewrite lookup_insert_ne, app_nil_r by done.
Qed.

Definition placement_ok (cs : list Coord) (p : Placement) : Prop :=
  placed cs (pl_replicas p) (pl_global_ids p) ∧ global_counter p = N.of_nat (length cs).

Lemma add_replicas_ok b h n cs p :
  placement_ok cs p → (∀ c, c ∈ cs → host_id c ≠ h) →
  placement_ok (cs ++ coords_on b h (N.to_nat n)) (add_replicas b h n p).
Proof.
  intros [[Hnd Hids Hon] Hg] Hf. unfold add_replicas. induction (N.to_nat n) as [|k IH].
  - rewrite app_nil_r. split; [|done]. split; [done..|]. intros h'. simpl.
    destruct (decide (h = h')) as [<-|]; [rewrite lookup_insert_eq|rewrite lookup_insert_ne by done]; apply Hon.
  - rewrite coords_on_S, seq_S, foldl_app. simpl. destruct IH as [Hp Hc].
    rewrite (assoc_L (++)). unfold add_replica at 1. split; simpl.
    + rewrite Hc. apply (placed_snoc _ (mkCoord b h (N.of_nat k))); [done|].
      rewrite elem_of_app, elem_of_coords_on. simpl. intros [?%Hf|?]; simpl in *; [done|lia].
    + rewrite Hc, !length_app. simpl. lia.
Qed.

Lemma foldl_add_replicas_ok b (l : list (N * N)) cs p :
  placement_ok cs p → NoDup l.*1 → (∀ c h, c ∈ cs → h ∈ l.*1 → host_id c ≠ h) →
  placement_ok (cs ++ coords_of b l) (foldl (λ p '(h, n), add_replicas b h n p) p l).
Proof.
  revert cs p. induction l as [|[h n] l IH]; intros cs p Hp Hnd Hf; simpl.
  { by rewrite app_nil_r. }
  apply NoDup_cons in Hnd as [Hh Hnd]. unfold coords_of. simpl. rewrite (assoc_L (++)). apply IH.
  - apply add_replicas_ok; [done|]. intros c Hc. apply Hf; [done|left].
  - done.
  - intros c h' [Hc|Hc]%elem_of_app Hin; [apply Hf; [done|by right]|].
    apply elem_of_coords_on in Hc as (_ & -> & _). by intros ->.
Qed.

Lemma no_placement_ok : placement_ok [] no_placement.
Proof.
  split; [|done]. split; [constructor| |done]. intros c g. simpl. rewrite lookup_empty.
  split; [done|]. intros (i & _ & ?). by rewrite lookup_nil in *.
Qed.

Lemma place_ok b (l : list (N * N)) :
  NoDup l.*1 →
  placement_ok (coords_of b l) (foldl (λ p '(h, n), add_replicas b h n p) no_placement l).
Proof.
  intros. apply (foldl_add_replicas_ok b l [] no_placement); [apply no_placement_ok|done|].
  by intros ?? ?%elem_of_nil.
Qed.

(** The allocation each replication asks for. *)
Fixpoint limit_counts (remaining : N) (l : list (N * N)) : list (N * N) :=
  match l with
  | [] => []
  | (h, cores) :: l =>
      (h, N.min remaining cores) :: limit_counts (remaining - N.min remaining cores) l
  end.
Definition cores_of (hosts : list HostConfig) : list (N * N) :=
  (λ '(h, info), (h, num_cores info)) <$> enumerate hosts.
Definition allocation (r : Replication) (hosts : list HostConfig) : list (N * N) :=
  match r with
  | Unlimited => cores_of hosts
  | Limited n => limit_counts n (cores_of hosts)
  | Host => (λ '(h, _), (h, 1%N)) <$> enumerate hosts
  | One => [(0%N, 1%N)]
  end.

Lemma limited_loop b l p n :
  (foldl (λ '(p, remaining) '(host, info),
     let n := N.min remaining (num_cores info) in
     (add_replicas b host n p, (remaining - n)%N)) (p, n) l).1 =
  foldl (λ p '(h, n), add_replicas b h n p) p
    (limit_counts n ((λ '(h, info), (h, num_cores info)) <$> l)).
Proof.
  revert p n. induction l as [|[h info] l IH]; intros p n; simpl; [done|]. by rewrite IH.
Qed.

Lemma limit_counts_fst n l : (limit_counts n l).*1 = l.*1.
Proof. revert n. induction l as [|[h c] l IH]; intros n; simpl; [done|]. by rewrite IH. Qed.

Lemma enumerate_fst {X} (l : list X) : (enumerate l).*1 = N.of_nat <$> seq 0 (length l).
Proof. unfold enumerate. apply fst_zip. by rewrite length_fmap, length_seq. Qed.
Lemma enumerate_nodup {X} (l : list X) : NoDup (enumerate l).*1.
Proof.
  rewrite enumerate_fst. apply NoDup_fmap_2; [intros ???; lia|apply NoDup_seq].
Qed.

Lemma cores_of_fst hosts : (cores_of hosts).*1 = (enumerate hosts).*1.
Proof.
  unfold cores_of. rewrite <-list_fmap_compose. apply list_fmap_ext. by intros ? [].
Qed.
Lemma allocation_hosts r hosts h :
  hosts ≠ [] → h ∈ (allocation r hosts).*1 → (h < N.of_nat (length hosts))%N.
Proof.
  assert (∀ l : list (N * N), h ∈ l.*1 → l.*1 = (enumerate hosts).*1 → (h < N.of_nat (length hosts))%N) as Hh.
  { intros l Hin Hl. rewrite Hl, enumerate_fst in Hin.
    apply list_elem_of_fmap in Hin as (i & -> & Hi%elem_of_seq). lia. }
  intros Hne Hin. destruct r; simpl in *.
  - eapply Hh; [done|apply cores_of_fst].
  - eapply Hh; [done|]. by rewrite limit_counts_fst, cores_of_fst.
  - eapply Hh; [done|]. rewrite <-list_fmap_compose. apply list_fmap_ext. by intros ? [].
  - apply list_elem_of_singleton in Hin as ->. destruct hosts; simpl; [done|lia].
Qed.
Lemma allocation_nodup r hosts : NoDup (allocation r hosts).*1.
Proof.
  destruct r; simpl.
  - rewrite cores_of_fst. apply enumerate_nodup.
  - rewrite limit_counts_fst, cores_of_fst. apply enumerate_nodup.
  - rewrite <-list_fmap_compose. replace (_ <$> enumerate hosts) with (enumerate hosts).*1;
      [apply enumerate_nodup|]. apply list_fmap_ext. by intros ? [].
  - apply NoDup_singleton.
Qed.

(** How many replicas a block gets. *)
Definition total_cores (hosts : list HostConfig) : N := foldr N.add 0%N (num_cores <$> hosts).
Definition replica_count (config : RuntimeConfig) (r : Replication) : N :=
  match config with
  | Local parallelism => clamp r parallelism
  | Remote remote =>
      match r with
      | Unlimited => total_cores (hosts remote)
      | Limited n => N.min n (total_cores (hosts remote))
      | Host => N.of_nat (length (hosts remote))
      | One => 1
      end
  end.

Lemma coords_of_length b l : N.of_nat (length (coords_of b l)) = foldr N.add 0%N l.*2.
Proof.
  unfold coords_of, coords_on. induction l as [|[h n] l IH]; simpl; [done|].
  rewrite length_app, length_fmap, length_seq. rewrite Nat2N.inj_add, N2Nat.id. f_equal. exact IH.
Qed.
Lemma limit_counts_total n l :
  foldr N.add 0%N (limit_counts n l).*2 = N.min n (foldr N.add 0%N l.*2).
Proof.
  revert n. induction l as [|[h c] l IH]; intros n; csimpl; [by rewrite N.min_0_r|].
  rewrite IH. lia.
Qed.
Lemma cores_of_snd hosts : (cores_of hosts).*2 = num_cores <$> hosts.
Proof.
  unfold cores_of. rewrite <-list_fmap_compose.
  transitivity (num_cores <$> (enumerate hosts).*2).
  - rewrite <-list_fmap_compose. apply list_fmap_ext. by intros ? [].
  - f_equal. unfold enumerate. apply snd_zip. by rewrite length_fmap, length_seq.
Qed.
Lemma allocation_total r remote :
  foldr N.add 0%N (allocation r (hosts remote)).*2 = replica_count (Remote remote) r.
Proof.
  destruct r; simpl.
  - by rewrite cores_of_snd.
  - by rewrite limit_counts_total, cores_of_snd.
  - assert (∀ l : list (N * HostConfig),
      foldr N.add 0%N ((λ '(h, _), (h, 1%N)) <$> l : list (N * N)).*2 = N.of_nat (length l)) as ->.
    { induction l as [|[] l IH]; csimpl; [done|]. rewrite IH. lia. }
    unfold enumerate. rewrite length_zip, length_fmap, length_seq. lia.
  - done.
Qed.

Lemma local_placed b h n :
  placed (coords_on b h n) {[h := coords_on b h n]}
    (list_to_map ((λ r, (mkCoord b h (N.of_nat r), N.of_nat r)) <$> seq 0 n)).
Proof.
  assert (NoDup (coords_on b h n)) as Hnd.
  { apply NoDup_fmap_2; [intros ?? [= ?]; lia|apply NoDup_seq]. }
  split; [done| |].
  - intros c g. rewrite <-elem_of_list_to_map.
    + rewrite list_elem_of_fmap. unfold coords_on. split.
      * intros (r & [= -> ->] & Hr%elem_of_seq). exists r. split; [done|].
        rewrite list_lookup_fmap, lookup_seq_lt by lia. done.
      * intros (i & -> & Hi). rewrite list_lookup_fmap in Hi.
        apply fmap_Some in Hi as (j & [-> Hj]%lookup_seq & ->). exists (0 + i).
        rewrite elem_of_seq. split; [done|lia].
    + rewrite <-list_fmap_compose. exact Hnd.
  - intros h'. destruct (decide (h = h')) as [<-|Hne].
    + rewrite lookup_singleton_eq. simpl. symmetry. apply list_filter_all.
      apply Forall_forall. by intros c (_ & ? & _)%elem_of_coords_on.
    + rewrite lookup_singleton_ne by done. symmetry. apply list_filter_none.
      apply Forall_forall. intros c (_ & -> & _)%elem_of_coords_on. done.
Qed.

(** The hosts a configuration places replicas on. *)
Definition valid_host (config : RuntimeConfig) (h : HostId) : Prop :=
  match config with
  | Local _ => h = 0%N
  | Remote remote => (h < N.of_nat (length (hosts remote)))%N
  end.

Lemma remote_block_info_place block hosts :
  hosts ≠ [] →
  remote_block_info block hosts =
  let p := foldl (λ p '(h, n), add_replicas (bd_id block) h n p) no_placement
             (allocation (bd_replication block) hosts) in
  Done (mkBlockInfo (pl_replicas p) (pl_global_ids p) (bd_batch_mode block) (bd_only_one block)).
Proof.
  intros Hne. unfold remote_block_info. destruct (bd_replication block); simpl.
  - assert (∀ p, foldl (λ p '(h, n), add_replicas (bd_id block) h n p) p (cores_of hosts) =
      foldl (λ p '(host, info), add_replicas (bd_id block) host (num_cores info) p) p
        (enumerate hosts)) as ->; [|done].
    unfold cores_of. induction (enumerate hosts) as [|[] l IH]; intros p; [done|apply IH].
  - by rewrite limited_loop.
  - generalize no_placement as p.
    induction (enumerate hosts) as [|[] l IH]; intros p; [done|]. apply IH.
  - by destruct hosts.
Qed.

(** The replicas of a block, in the order of their global identifiers. *)
Definition block_coords (config : RuntimeConfig) (r : Replication) (b : BlockId) : list Coord :=
  match config with
  | Local parallelism => coords_on b 0 (N.to_nat (clamp r parallelism))
  | Remote remote => coords_of b (allocation r (hosts remote))
  end.

Lemma block_info_coords config block h :
  config_valid config → config_host_id config = Some h →
  let cs := block_coords config (bd_replication block) (bd_id block) in
  ∃ info,
    block_info config block = Done info ∧
    placed cs (bi_replicas info) (bi_global_ids info) ∧
    N.of_nat (length cs) = replica_count config (bd_replication block) ∧
    Forall (λ c, block_id c = bd_id block ∧ valid_host config (host_id c)) cs ∧
    bi_batch_mode info = bd_batch_mode block ∧ is_only_one_strategy info = bd_only_one block.
Proof.
  intros Hv Hh. destruct config as [p|remote]; simpl in *.
  - injection Hh as <-. eexists. split; [done|]. split; [apply local_placed|]. split_and!; try done.
    + unfold coords_on. rewrite length_fmap, length_seq, N2Nat.id. done.
    + apply Forall_forall. by intros c (? & ? & _)%elem_of_coords_on.
  - destruct Hv as [_ Hv]. specialize (Hv _ Hh).
    assert (hosts remote ≠ []) as Hne by (intros E; rewrite E in Hv; simpl in Hv; lia).
    pose proof (place_ok (bd_id block) _ (allocation_nodup (bd_replication block) (hosts remote)))
      as [Hpl _].
    rewrite remote_block_info_place by done. eexists.
    split; [reflexivity|]. split; [exact Hpl|]. simpl.
    { split_and!; try done; [by rewrite coords_of_length, allocation_total|].
      apply Forall_forall. intros c Hc. unfold coords_of in Hc. apply elem_of_concat in Hc as (g & Hg & Hc).
      apply list_elem_of_fmap in Hg as ([h' n] & -> & Hin).
      apply elem_of_coords_on in Hc as (? & -> & _). split; [done|].
      eapply allocation_hosts; [done|]. apply list_elem_of_fmap. by exists (h', n). }
Qed.
Lemma block_info_placed config block h :
  config_valid config → config_host_id config = Some h →
  ∃ info cs,
    block_info config block = Done info ∧
    placed cs (bi_replicas info) (bi_global_ids info) ∧
    N.of_nat (length cs) = replica_count config (bd_replication block) ∧
    Forall (λ c, block_id c = bd_id block ∧ valid_host config (host_id c)) cs ∧
    bi_batch_mode info = bd_batch_mode block ∧ is_only_one_strategy info = bd_only_one block.
Proof.
  intros Hv Hh. destruct (block_info_coords config block h Hv Hh) as (info & H).
  by exists info, (block_coords config (bd_replication block) (bd_id block)).
Qed.

(** The replicas of a block on a host, with their global identifiers. *)
Definition local_ids (info : SchedulerBlockInfo) (h : HostId) : list (Coord * N) :=
  omap (λ c, (c,.) <$> bi_global_ids info !! c) (replicas_on info h).

Lemma placed_local_ids info cs h :
  placed cs (bi_replicas info) (bi_global_ids info) →
  (local_ids info h).*1 = base.filter (λ c, host_id c = h) cs ∧ NoDup (local_ids info h).*1 ∧
  NoDup (local_ids info h).*2.
Proof.
  intros Hpl. pose proof Hpl as [Hnd Hids Hon]. unfold local_ids, replicas_on. rewrite Hon.
  set (l := base.filter (λ c, host_id c = h) cs).
  assert (∀ c, c ∈ l → ∃ i, cs !! i = Some c ∧ bi_global_ids info !! c = Some (N.of_nat i)) as Hl.
  { intros c [_ Hc]%list_elem_of_filter. apply list_elem_of_lookup in Hc as [i Hi]. exists i.
    split; [done|]. apply Hids. by exists i. }
  assert (NoDup l) as Hndl by by apply NoDup_filter. clearbody l. clear Hon Hpl.
  induction l as [|c l IH]; [split_and!; constructor|].
  apply NoDup_cons in Hndl as [Hc Hndl].
  destruct IH as (IH1 & IH2 & IH3); [intros; apply Hl; by right|done|].
  destruct (Hl c) as (i & Hi & Hg); [by left|]. cbn. rewrite Hg. cbn. split_and!.
  - by f_equal.
  - constructor; [by rewrite IH1|done].
  - constructor; [|done]. intros Hin. apply list_elem_of_fmap in Hin as ([c' g] & Eg & Hin). cbn in Eg. subst g.
    apply list_elem_of_omap in Hin as (c'' & Hin & Hc'').
    destruct (Hl c'') as (i' & Hi' & Hg'); [by right|]. rewrite Hg' in Hc''. cbn in Hc''.
    injection Hc'' as -> Ei. assert (i' = i) as -> by lia. rewrite Hi in Hi'. by injection Hi' as ->.
Qed.

(** The same replica of another block. *)
Definition relabel (b : BlockId) (c : Coord) : Coord := mkCoord b (host_id c) (replica_id c).
Lemma block_coords_relabel config r b b' :
  block_coords config r b' = relabel b' <$> block_coords config r b.
Proof.
  assert (∀ h n, coords_on b' h n = relabel b' <$> coords_on b h n) as Hon.
  { intros h n. unfold coords_on. by rewrite <-list_fmap_compose. }
  destruct config as [p|remote]; [apply Hon|]. cbn. unfold coords_of.
  induction (allocation r (hosts remote)) as [|[h n] l IH]; [done|]. cbn. by rewrite fmap_app, Hon, IH.
Qed.

(** Two blocks with the same replication have the same identifiers on a host. *)
Lemma local_ids_relabel config block block' h hid info info' :
  config_valid config → config_host_id config = Some hid →
  bd_replication block = bd_replication block' →
  block_info config block = Done info → block_info config block' = Done info' →
  (local_ids info h).*2 = (local_ids info' h).*2.
Proof.
  intros Hv Hh Hr Hi Hi'.
  destruct (block_info_coords config block hid Hv Hh) as (i0 & E & Hpl & _ & Hb & _).
  rewrite Hi in E. injection E as <-.
  destruct (block_info_coords config block' hid Hv Hh) as (i0' & E & Hpl' & _).
  rewrite Hi' in E. injection E as <-.
  rewrite <-Hr, (block_coords_relabel config _ (bd_id block)) in Hpl'.
  set (cs := block_coords config (bd_replication block) (bd_id block)) in *. clearbody cs.
  destruct Hpl as [Hnd Hids Hon], Hpl' as [Hnd' Hids' Hon']. unfold local_ids, replicas_on. rewrite Hon, Hon'.
  assert (∀ c, c ∈ cs → bi_global_ids info' !! relabel (bd_id block') c = bi_global_ids info !! c) as Hsame.
  { intros c Hc. apply list_elem_of_lookup in Hc as [i Hi0].
    trans (Some (N.of_nat i)); [apply Hids'|symmetry; apply Hids]; exists i; (split; [done|]); [|done].
    by rewrite list_lookup_fmap, Hi0. }
  clear Hnd Hnd' Hids Hids' Hon Hon' Hb. induction cs as [|c cs IH]; [done|].
  assert (∀ x, x ∈ cs → bi_global_ids info' !! relabel (bd_id block') x = bi_global_ids info !! x) as Hcs
    by (intros; apply Hsame; by right). specialize (IH Hcs).
  rewrite fmap_cons, !filter_cons. change (host_id (relabel (bd_id block') c)) with (host_id c).
  case_decide; [|done]. cbn. rewrite (Hsame c) by by left.
  destruct (bi_global_ids info !! c); cbn; by rewrite IH.
Qed.

Lemma concat_values_nodup {K X} (key : X → K) (l : list (K * list X)) :
  NoDup l.*1 → Forall (λ '(k, xs), NoDup xs ∧ ∀ x, x ∈ xs → key x = k) l → NoDup (concat l.*2).
Proof.
  induction l as [|[k xs] l IH]; simpl; intros Hnd Hl; [constructor|].
  apply NoDup_cons in Hnd as [Hk Hnd]. apply Forall_cons in Hl as [[Hxs Hkey] Hl].
  apply NoDup_app. split_and!; [done| |by apply IH].
  intros x Hx (ys & Hys & Hin)%elem_of_concat. apply list_elem_of_fmap in Hys as ([k' ys'] & -> & Hp).
  rewrite Forall_forall in Hl. destruct (Hl _ Hp) as [_ Hkey']. apply Hk.
  rewrite <-(Hkey _ Hx), (Hkey' _ Hin). apply list_elem_of_fmap. by exists (k', ys').
Qed.

Lemma placed_all_replicas `{!HashOrder} info cs :
  placed cs (bi_replicas info) (bi_global_ids info) → all_replicas info ≡ₚ cs.
Proof.
  intros [Hnd _ Hon]. unfold all_replicas. rewrite (hash_iter_perm (bi_replicas info)).
  apply NoDup_Permutation; [|done|].
  - apply (concat_values_nodup host_id); [apply NoDup_fst_map_to_list|].
    apply Forall_forall. intros [h l] Hl%elem_of_map_to_list. specialize (Hon h). rewrite Hl in Hon.
    simpl in Hon. subst l. split; [by apply NoDup_filter|]. by intros x [? _]%list_elem_of_filter.
  - intros c. rewrite elem_of_concat. split.
    + intros (g & Hg & Hc). apply list_elem_of_fmap in Hg as ([h l] & -> & Hl%elem_of_map_to_list).
      specialize (Hon h). rewrite Hl in Hon. simpl in *. subst l.
      by apply list_elem_of_filter in Hc as [_ ?].
    + intros Hc. specialize (Hon (host_id c)).
      destruct (bi_replicas info !! host_id c) as [l|] eqn:E; simpl in Hon.
      * exists l. split; [|rewrite Hon; by apply list_elem_of_filter].
        apply list_elem_of_fmap. exists (host_id c, l). by rewrite elem_of_map_to_list.
      * assert (c ∈ base.filter (λ c', host_id c' = host_id c) cs) as Hf
          by by apply list_elem_of_filter. rewrite <-Hon in Hf. by apply elem_of_nil in Hf.
Qed.

(** ** The execution graph *)
Record Edge := mkEdge { e_from : Coord; e_typ : N; e_to : Coord; e_fragile : bool }.
Definition edge_endpoint (e : Edge) : ReceiverEndpoint :=
  mkReceiverEndpoint (e_to e) (block_id (e_from e)).

(** The links of the execution graph, in the order the loops of
    [build_execution_graph] make them. *)
Section edges.
Context `{!HashOrder} (s : Scheduler).

Definition edges_between (from to : SchedulerBlockInfo) (typ : N) (fragile : bool) : list Edge :=
  concat ((λ from_coord,
    (λ to_coord, mkEdge from_coord typ to_coord fragile) <$>
      base.filter (λ to_coord,
        linked (is_only_one_strategy from) fragile (all_replicas to) from_coord to_coord = true)
        (all_replicas to)) <$> all_replicas from).
Definition edges_after (from_block_id : BlockId) (next : list (BlockId * N * bool)) : list Edge :=
  concat ((λ '(to_block_id, typ, fragile),
    match sc_block_info s !! from_block_id, sc_block_info s !! to_block_id with
    | Some from, Some to => edges_between from to typ fragile
    | _, _ => []
    end) <$> next).
Definition edges_of : list Edge :=
  concat ((λ '(from_block_id, next), edges_after from_block_id next) <$> hash_iter (next_blocks s)).
End edges.

Definition connect_edge (config : RuntimeConfig) (e : Edge) (net : NetworkTopology)
    : outcome NetworkTopology :=
  connect config (e_from e) (e_to e) (e_typ e) (e_fragile e) net.

Lemma forM_app {X T} (l1 l2 : list X) (s : T) f :
  forM (l1 ++ l2) s f = s ← forM l1 s f; forM l2 s f.
Proof.
  revert s. induction l1 as [|x l1 IH]; intros s; simpl; [done|]. destruct (f x s); simpl; auto.
Qed.
Lemma forM_concat {X Y T} (g : Y → list X) (l : list Y) (s : T) f h :
  (∀ y s, y ∈ l → h y s = forM (g y) s f) → forM l s h = forM (concat (g <$> l)) s f.
Proof.
  revert s. induction l as [|y l IH]; intros s Hg; simpl; [done|]. rewrite forM_app, Hg by left.
  destruct (forM (g y) s f); simpl; [|done..]. apply IH. intros. apply Hg. by right.
Qed.
Lemma forM_filter {X Y T} (P : X → bool) (g : X → Y) (l : list X) (s : T) f :
  forM l s (λ x s, if P x then f (g x) s else Done s) =
  forM (g <$> base.filter (λ x, P x = true) l) s f.
Proof.
  revert s. induction l as [|x l IH]; intros s; [done|]. rewrite filter_cons. cbn [forM].
  destruct (P x) eqn:E; simpl; rewrite ?E; simpl; [|apply IH].
  destruct (f (g x) s); simpl; [|done..]. apply IH.
Qed.

(** The blocks the job graph mentions have been scheduled. *)
Definition graph_closed (s : Scheduler) : Prop :=
  map_Forall (λ b next, is_Some (sc_block_info s !! b) ∧
    Forall (λ '(to, _, _), is_Some (sc_block_info s !! to)) next) (next_blocks s).

Lemma build_execution_graph_edges `{!HashOrder} config s net :
  graph_closed s →
  build_execution_graph config s net = forM (edges_of s) net (connect_edge config).
Proof.
  intros Hc. unfold build_execution_graph, edges_of.
  apply forM_concat. intros [b next] net1 Hin.
  rewrite (hash_iter_perm (next_blocks s)), elem_of_map_to_list in Hin.
  destruct (Hc _ _ Hin) as [[from Hb] Hnext]. rewrite Hb. simpl. unfold edges_after.
  rewrite Forall_forall in Hnext.
  apply forM_concat. intros [[to typ] fragile] net2 Hto.
  destruct (Hnext _ Hto) as [info Hinfo]. rewrite Hinfo, Hb. simpl. unfold edges_between.
  apply forM_concat. intros fc net3 _.
  apply (forM_filter (λ tc, linked (is_only_one_strategy from) fragile (all_replicas info) fc tc)
    (λ tc, mkEdge fc typ tc fragile) (all_replicas info) net3 (connect_edge config)).
Qed.

(** An edge of the execution graph: two linked replicas of connected blocks. *)
Definition job_edge `{!HashOrder} (s : Scheduler) (e : Edge) : Prop :=
  ∃ b next to from_info to_info,
    next_blocks s !! b = Some next ∧ (to, e_typ e, e_fragile e) ∈ next ∧
    sc_block_info s !! b = Some from_info ∧ sc_block_info s !! to = Some to_info ∧
    e_from e ∈ all_replicas from_info ∧ e_to e ∈ all_replicas to_info ∧
    linked (is_only_one_strategy from_info) (e_fragile e) (all_replicas to_info) (e_from e) (e_to e)
      = true.

Lemma elem_of_edges_between `{!HashOrder} from to typ fragile e :
  e ∈ edges_between from to typ fragile ↔
  e_typ e = typ ∧ e_fragile e = fragile ∧ e_from e ∈ all_replicas from ∧ e_to e ∈ all_replicas to ∧
  linked (is_only_one_strategy from) fragile (all_replicas to) (e_from e) (e_to e) = true.
Proof.
  unfold edges_between. rewrite elem_of_concat. split.
  - intros (g & Hg & He). apply list_elem_of_fmap in Hg as (fc & -> & Hfc).
    apply list_elem_of_fmap in He as (tc & -> & Htc). apply list_elem_of_filter in Htc as [??]. done.
  - intros (<- & <- & Hf & Ht & Hl). eexists. rewrite list_elem_of_fmap. split.
    + by exists (e_from e).
    + apply list_elem_of_fmap. exists (e_to e). rewrite list_elem_of_filter. by destruct e.
Qed.

Lemma elem_of_edges `{!HashOrder} s e : e ∈ edges_of s ↔ job_edge s e.
Proof.
  unfold edges_of. rewrite elem_of_concat. split.
  - intros (g & Hg & He). apply list_elem_of_fmap in Hg as ([b next] & -> & Hb).
    rewrite (hash_iter_perm (next_blocks s)), elem_of_map_to_list in Hb.
    unfold edges_after in He. apply elem_of_concat in He as (g & Hg & He).
    apply list_elem_of_fmap in Hg as ([[to typ] fragile] & -> & Hto).
    destruct (sc_block_info s !! b) as [from|] eqn:Ef; [|by apply elem_of_nil in He].
    destruct (sc_block_info s !! to) as [ti|] eqn:Et; [|by apply elem_of_nil in He].
    apply elem_of_edges_between in He as (<- & <- & ? & ? & ?). exists b, next, to, from, ti.
    split_and!; try done.
  - intros (b & next & to & from & ti & Hb & Hin & Hf & Ht & ? & ? & ?).
    exists (edges_after s b next). split.
    + apply list_elem_of_fmap. exists (b, next). split; [done|].
      by rewrite (hash_iter_perm (next_blocks s)), elem_of_map_to_list.
    + unfold edges_after. apply elem_of_concat. eexists. rewrite list_elem_of_fmap.
      split; [by exists (to, e_typ e, e_fragile e)|]. rewrite Hf, Ht.
      by apply elem_of_edges_between.
Qed.

(** What the topology of host [h] knows once the edges [es] are connected. *)
Definition next_of (c : Coord) (t : N) (e : Edge) : option (Coord * bool) :=
  if decide (e_from e = c ∧ e_typ e = t) then Some (e_to e, e_fragile e) else None.
Definition prev_of (c : Coord) (e : Edge) : option (Coord * N) :=
  if decide (e_to e = c) then Some (e_from e, e_typ e) else None.
Definition touches (h : HostId) (e : Edge) : Prop := host_id (e_from e) = h ∨ host_id (e_to e) = h.

Record graph_built (h : HostId) (es : list Edge) (net : NetworkTopology) : Prop := {
  gb_next c t : topology_next net c t = omap (next_of c t) es;
  gb_next_some c t l : nt_next net !! (c, t) = Some l → l ≠ [];
  gb_prev c : topology_prev net c = omap (prev_of c) es;
  gb_metadata ep r : senders_metadata net !! ep = Some r ↔
    (∃ e, e ∈ es ∧ ep = edge_endpoint e ∧ touches h e) ∧ r = negb (N.eqb (host_id (re_coord ep)) h);
  gb_replicas b c : c ∈ topology_replicas net b ↔
    block_id c = b ∧ ∃ e, e ∈ es ∧ (c = e_from e ∨ c = e_to e);
  gb_fresh : receivers net = Some ∅ ∧ nt_senders net = Some ∅ ∧ demultiplexers net = Some ∅ ∧
    multiplexers net = Some ∅ ∧ used_receivers net = ∅ ∧ registered_receivers net = ∅ ∧
    demultiplexer_addresses net = ∅
}.

Lemma entry_push_lookup {K X} `{Countable K} (k k' : K) (x : X) m :
  default [] (entry_push k x m !! k') = default [] (m !! k') ++ (if decide (k = k') then [x] else []).
Proof.
  unfold entry_push. destruct (decide (k = k')) as [<-|].
  - by rewrite lookup_insert_eq.
  - by rewrite lookup_insert_ne, app_nil_r.
Qed.
Lemma elem_of_entry_insert {K X} `{Countable K, Countable X} (k k' : K) (x y : X) m :
  y ∈ default ∅ (entry_insert k x m !! k') ↔ (k = k' ∧ x = y) ∨ y ∈ default ∅ (m !! k').
Proof.
  unfold entry_insert. destruct (decide (k = k')) as [<-|].
  - rewrite lookup_insert_eq. simpl. set_solver.
  - rewrite lookup_insert_ne by done. naive_solver.
Qed.

Lemma metadata_insert h es e (m : gmap ReceiverEndpoint bool) :
  (∀ ep r, m !! ep = Some r ↔
    (∃ e, e ∈ es ∧ ep = edge_endpoint e ∧ touches h e) ∧
    r = negb (N.eqb (host_id (re_coord ep)) h)) →
  touches h e →
  ∀ ep r,
  <[edge_endpoint e := if negb (N.eqb (host_id (e_to e)) h) then true
                       else default false (m !! edge_endpoint e)]> m !! ep = Some r ↔
  (∃ e', e' ∈ es ++ [e] ∧ ep = edge_endpoint e' ∧ touches h e') ∧
  r = negb (N.eqb (host_id (re_coord ep)) h).
Proof.
  intros Hm Ht ep r. destruct (decide (ep = edge_endpoint e)) as [->|Hne].
  - rewrite lookup_insert_eq. simpl.
    assert ((if negb (N.eqb (host_id (e_to e)) h) then true
             else default false (m !! edge_endpoint e)) = negb (N.eqb (host_id (e_to e)) h)) as ->.
    { destruct (N.eqb_spec (host_id (e_to e)) h) as [E|E]; simpl; [|done].
      destruct (m !! edge_endpoint e) as [r'|] eqn:Er; simpl; [|done].
      apply Hm in Er as [_ ->]. simpl. by rewrite E, N.eqb_refl. }
    split; [|by intros [_ ->]]. intros [= <-]. split; [|done]. exists e. set_solver.
  - rewrite lookup_insert_ne, Hm by done. f_equiv.
    split; intros (e' & He & -> & ?); exists e'; split_and!; try done; set_solver.
Qed.

Lemma connect_built config h es net e :
  config_host_id config = Some h → graph_built h es net →
  ∃ net', connect_edge config e net = Done net' ∧ graph_built h (es ++ [e]) net'.
Proof.
  intros Hh [Hn Hns Hp Hm Hr Hf]. eexists. split.
  { unfold connect_edge, connect. rewrite Hh. reflexivity. }
  split; try done; unfold topology_next, topology_prev, topology_replicas in *; simpl.
  - intros c t. rewrite entry_push_lookup, Hn, omap_app. f_equal. simpl. unfold next_of.
    repeat case_decide; naive_solver.
  - intros c t l. unfold entry_push. destruct (decide ((e_from e, e_typ e) = (c, t))) as [->|].
    + rewrite lookup_insert_eq. intros [= <-]. by destruct (default _ _).
    + rewrite lookup_insert_ne by done. apply Hns.
  - intros c. rewrite entry_push_lookup, Hp, omap_app. f_equal. simpl. unfold prev_of.
    by case_decide.
  - intros ep r. destruct (decide (touches h e)) as [Ht|Ht].
    + assert (negb (host_id (e_from e) =? h)%N && negb (host_id (e_to e) =? h)%N = false) as ->.
      { destruct Ht as [->| ->]; rewrite N.eqb_refl; simpl; [done|apply andb_false_r]. }
      by apply (metadata_insert h es e).
    + assert (negb (host_id (e_from e) =? h)%N && negb (host_id (e_to e) =? h)%N = true) as ->.
      { unfold touches in Ht. destruct (N.eqb_spec (host_id (e_from e)) h),
          (N.eqb_spec (host_id (e_to e)) h); naive_solver. }
      rewrite Hm. f_equiv. split; intros (e' & He & -> & ?); exists e'; split_and!; try done; set_solver.
  - intros b c. rewrite elem_of_elements, !elem_of_entry_insert, <-elem_of_elements, Hr.
    setoid_rewrite elem_of_app. setoid_rewrite list_elem_of_singleton. naive_solver.
Qed.

Lemma NetworkTopology_new_built h : graph_built h [] NetworkTopology_new.
Proof.
  split; try done.
  - intros ep r. simpl. rewrite lookup_empty. split; [done|].
    by intros [(? & ?%elem_of_nil & _) _].
  - intros b c. unfold topology_replicas. simpl. rewrite lookup_empty. simpl.
    rewrite elements_empty. split; [by intros ?%elem_of_nil|].
    by intros (_ & ? & ?%elem_of_nil & _).
Qed.

Lemma connect_all_built config h es es' net :
  config_host_id config = Some h → graph_built h es net →
  ∃ net', forM es' net (connect_edge config) = Done net' ∧ graph_built h (es ++ es') net'.
Proof.
  intros Hh. revert es net. induction es' as [|e es' IH]; intros es net Hb; simpl.
  { exists net. by rewrite app_nil_r. }
  destruct (connect_built config h es net e Hh Hb) as (net1 & -> & Hb1). simpl.
  destruct (IH _ _ Hb1) as (net2 & ? & Hb2). exists net2. by rewrite <-(assoc_L (++)) in Hb2.
Qed.

Lemma execution_graph_built `{!HashOrder} config s h :
  config_host_id config = Some h → graph_closed s →
  ∃ net, build_execution_graph config s NetworkTopology_new = Done net ∧
    graph_built h (edges_of s) net.
Proof.
  intros Hh Hc. rewrite build_execution_graph_edges by done.
  exact (connect_all_built config h [] _ _ Hh (NetworkTopology_new_built h)).
Qed.

(** ** Schedulers whose blocks were placed by [schedule_block] *)
Definition scheduled (config : RuntimeConfig) (s : Scheduler) : Prop :=
  map_Forall (λ b info, ∃ block, bd_id block = b ∧ block_info config block = Done info)
    (sc_block_info s).

Lemma schedule_block_scheduled config block s s' :
  scheduled config s → schedule_block config block s = Done s' → scheduled config s'.
Proof.
  intros Hs Hb. unfold schedule_block in Hb. inv_bind Hb. inv_bind Hb. injection Hb as <-.
  apply map_Forall_insert_2; [|done]. by exists block.
Qed.

Section scheduled.
Context (config : RuntimeConfig) (h : HostId) (s : Scheduler)
  (Hvalid : config_valid config) (Hhost : config_host_id config = Some h)
  (Hsched : scheduled config s).

Lemma scheduled_placed b info :
  sc_block_info s !! b = Some info →
  ∃ cs, placed cs (bi_replicas info) (bi_global_ids info) ∧
    Forall (λ c, block_id c = b ∧ valid_host config (host_id c)) cs.
Proof.
  intros Hb. destruct (Hsched _ _ Hb) as (block & <- & Hi).
  destruct (block_info_placed config block h Hvalid Hhost) as (info' & cs & Hi' & Hp & _ & Hall & _).
  rewrite Hi in Hi'. injection Hi' as <-. by exists cs.
Qed.

Lemma scheduled_replica `{!HashOrder} b info c :
  sc_block_info s !! b = Some info → c ∈ all_replicas info →
  block_id c = b ∧ valid_host config (host_id c).
Proof.
  intros Hb Hc. destruct (scheduled_placed _ _ Hb) as (cs & Hp & Hall).
  rewrite (placed_all_replicas _ _ Hp) in Hc. rewrite Forall_forall in Hall. by apply Hall.
Qed.

(** The graph does not depend on the iteration order of the hash maps. *)
Lemma all_replicas_order (o1 o2 : HashOrder) b info :
  sc_block_info s !! b = Some info → @all_replicas o1 info ≡ₚ @all_replicas o2 info.
Proof.
  intros Hb. destruct (scheduled_placed _ _ Hb) as (cs & Hp & _).
  by rewrite (@placed_all_replicas o1 _ _ Hp), (@placed_all_replicas o2 _ _ Hp).
Qed.
Lemma job_edge_order (o1 o2 : HashOrder) e : @job_edge o1 s e → @job_edge o2 s e.
Proof.
  intros (b & next & to & fi & ti & Hb & Hto & Hfi & Hti & Hf & Ht & Hl).
  exists b, next, to, fi, ti. split_and!; try done.
  - by rewrite <-(all_replicas_order o1 o2 _ _ Hfi).
  - by rewrite <-(all_replicas_order o1 o2 _ _ Hti).
  - unfold linked in *. by rewrite <-(Permutation_length (all_replicas_order o1 o2 _ _ Hti)).
Qed.

Lemma job_edge_hosts `{!HashOrder} e :
  job_edge s e → valid_host config (host_id (e_from e)) ∧ valid_host config (host_id (e_to e)).
Proof.
  intros (b & next & to & fi & ti & Hb & Hto & Hfi & Hti & Hf & Ht & _).
  split; [apply (scheduled_replica _ _ _ Hfi Hf)|apply (scheduled_replica _ _ _ Hti Ht)].
Qed.

(** One type of messages between two blocks. *)
Definition job_typed : Prop :=
  ∀ b next to t1 t2 f1 f2,
    next_blocks s !! b = Some next → (to, t1, f1) ∈ next → (to, t2, f2) ∈ next → t1 = t2.

Lemma job_edges_typed `{!HashOrder} e1 e2 :
  job_typed → job_edge s e1 → job_edge s e2 → edge_endpoint e1 = edge_endpoint e2 → e_typ e1 = e_typ e2.
Proof.
  intros Ht (b & next & to & fi & ti & Hb & Hto & Hfi & Hti & Hf & Hr & _)
    (b' & next' & to' & fi' & ti' & Hb' & Hto' & Hfi' & Hti' & Hf' & Hr' & _) E.
  destruct (scheduled_replica _ _ _ Hfi Hf) as [<- _], (scheduled_replica _ _ _ Hfi' Hf') as [<- _].
  destruct (scheduled_replica _ _ _ Hti Hr) as [<- _], (scheduled_replica _ _ _ Hti' Hr') as [<- _].
  unfold edge_endpoint in E. injection E as E1 E2. rewrite E1, E2 in *.
  rewrite Hb in Hb'. injection Hb' as <-. by eapply Ht.
Qed.
End scheduled.

(** C15.  A block of a valid configuration is always placed: its replicas are distinct, on
    hosts of the configuration, as many as its replication and the cores allow, and they
    are numbered [0 .. n-1] without gaps.  The list of replicas that every replica is told
    is this list, whatever the order of the hash map. *)
Theorem placement_ids config block h :
  config_valid config → config_host_id config = Some h →
  ∃ info cs,
    block_info config block = Done info ∧ NoDup cs ∧
    N.of_nat (length cs) = replica_count config (bd_replication block) ∧
    Forall (λ c, block_id c = bd_id block ∧ valid_host config (host_id c)) cs ∧
    (∀ o : HashOrder, @all_replicas o info ≡ₚ cs) ∧
    (∀ c g, bi_global_ids info !! c = Some g ↔ ∃ i, g = N.of_nat i ∧ cs !! i = Some c) ∧
    (∀ h', replicas_on info h' = base.filter (λ c, host_id c = h') cs).
Proof.
  intros Hv Hh. destruct (block_info_placed config block h Hv Hh) as (info & cs & Hi & Hp & Hn & Hall & _).
  exists info, cs. pose proof Hp as [Hnd Hids Hon]. split_and!; try done.
  intros o. by apply placed_all_replicas.
Qed.

(** A link is seen from both of its ends. *)
Lemma next_prev_count es from typ to :
  length (base.filter (λ p, p = (from, typ)) (omap (prev_of to) es)) =
  length (base.filter (λ p, p.1 = to) (omap (next_of from typ) es)).
Proof.
  induction es as [|e es IH]; [done|]. csimpl. unfold prev_of at 1, next_of at 1.
  destruct (decide (e_to e = to)), (decide (e_from e = from ∧ e_typ e = typ)) as [[]|];
    rewrite ?filter_cons; simpl; repeat case_decide; simplify_eq/=; rewrite ?IH; try done.
  naive_solver.
Qed.

(** C14.  The execution graph: a replica has another as its destination exactly when
    their blocks are connected and the two replicas are linked, a replica appears among the
    predecessors of another as often as that one appears among its destinations (so that
    [Start] waits for as many ends of stream as are sent to it), and a channel with an end
    on this host is marked remote when its receiver is elsewhere. *)
Theorem execution_graph_mirrors `{!HashOrder} config s h :
  config_host_id config = Some h → graph_closed s →
  ∃ net,
    build_execution_graph config s NetworkTopology_new = Done net ∧
    (∀ from typ to fragile,
      (to, fragile) ∈ topology_next net from typ ↔ job_edge s (mkEdge from typ to fragile)) ∧
    (∀ from typ to,
      length (base.filter (λ p, p = (from, typ)) (topology_prev net to)) =
      length (base.filter (λ p, p.1 = to) (topology_next net from typ))) ∧
    (∀ e, job_edge s e → touches h e →
      senders_metadata net !! edge_endpoint e = Some (negb (N.eqb (host_id (e_to e)) h))).
Proof.
  intros Hh Hc. destruct (execution_graph_built config s h Hh Hc) as (net & Hn & Hb). exists net.
  split; [done|]. split_and!.
  - intros from typ to fragile. rewrite (gb_next _ _ _ Hb), list_elem_of_omap, <-elem_of_edges. split.
    + intros (e & He & E). unfold next_of in E. case_decide as Hd; [|done]. destruct Hd as [<- <-].
      injection E as <- <-. by destruct e.
    + intros He. eexists. split; [exact He|]. unfold next_of. simpl. by rewrite decide_True.
  - intros from typ to. rewrite (gb_next _ _ _ Hb), (gb_prev _ _ _ Hb). apply next_prev_count.
  - intros e He Ht. apply (gb_metadata _ _ _ Hb). split; [|done]. exists e.
    by rewrite elem_of_edges.
Qed.

(** [stream.replication(Replication::Limited(n))]: the new block is limited, and the
    block that ends here forwards to one replica of it. *)
Definition limited_job (p n typ : N) (m : BatchMode) : outcome Scheduler :=
  s ← schedule_block (Local p) (mkBlockDecl 0 Unlimited true m) Scheduler_new;
  s ← schedule_block (Local p) (mkBlockDecl 1 (intersect Unlimited (Limited n)) false m) s;
  Done (connect_blocks 0 1 typ s).

(** The scheduler that [limited_job] leaves. *)
Section limited.
Context `{!HashOrder} (p n typ : N) (m : BatchMode).
Let fi := local_block_info (mkBlockDecl 0 Unlimited true m) p 0.
Let ti := local_block_info (mkBlockDecl 1 (Limited n) false m) p 0.
Let s := mkScheduler {[0%N := [(1%N, typ, false)]]} {[1%N := [(0%N, typ)]]}
  (<[1%N := ti]> {[0%N := fi]}) (coords_on 0 0 (N.to_nat p) ++ coords_on 1 0 (N.to_nat (N.min p n))).

Lemma limited_job_done : limited_job p n typ m = Done s.
Proof.
  unfold limited_job, schedule_block, connect_blocks, connect_blocks_with, entry_push. simpl.
  unfold replicas_on. simpl. by rewrite !lookup_singleton_eq.
Qed.
Lemma limited_closed : graph_closed s.
Proof.
  unfold graph_closed. simpl. rewrite map_Forall_singleton. split; [by eexists|].
  rewrite Forall_singleton. by eexists.
Qed.
Lemma limited_unlinked r :
  (1 < n)%N → (n <= r)%N → (r < p)%N → omap (next_of (mkCoord 0 0 r) typ) (edges_of s) = [].
Proof.
  intros Hn Hr Hp.
  assert (all_replicas ti ≡ₚ coords_on 1 0 (N.to_nat (N.min p n))) as Hti
    by (apply placed_all_replicas, local_placed).
  destruct (omap _ (edges_of s)) as [|q l] eqn:E; [done|exfalso].
  assert (q ∈ omap (next_of (mkCoord 0 0 r) typ) (edges_of s)) as Hq by (rewrite E; left).
  apply list_elem_of_omap in Hq as (e & He & Hne). unfold next_of in Hne.
  case_decide as Hd; [|done]. destruct Hd as [Hef _]. apply elem_of_edges in He.
  destruct He as (b & next & to & f & t & Hnext & Hto & Hfinfo & Htinfo & _ & Ht & Hl).
  simpl in Hnext. apply lookup_singleton_Some in Hnext as [<- <-].
  apply list_elem_of_singleton in Hto as [= -> _ _].
  assert (sc_block_info s !! 0%N = Some fi ∧ sc_block_info s !! 1%N = Some ti) as [E0 E1] by done.
  rewrite E0 in Hfinfo. rewrite E1 in Htinfo. injection Hfinfo as <-. injection Htinfo as <-.
  unfold linked in Hl. cbn [is_only_one_strategy local_block_info orb fi bd_only_one] in Hl.
  rewrite Hef, (Permutation_length Hti) in Hl. rewrite Hti in Ht. unfold coords_on in Hl.
  apply elem_of_coords_on in Ht as (_ & _ & Ht).
  rewrite length_fmap, length_seq in Hl. apply orb_true_iff in Hl as [Hl%Nat.eqb_eq|Hl]; [lia|].
  apply andb_true_iff in Hl as [_ Hl%N.eqb_eq]. simpl in Hl. lia.
Qed.
End limited.

Lemma End_setup_nobody {A} `{!HashOrder, !Glidesort} env coord (m : BatchMode) :
  End_setup (A := A) env coord [] (End_new OnlyOne m) = Done (mkEnd (Some coord) OnlyOne m [] [] None [] 0).
Proof.
  unfold End_setup, setup_senders. simpl.
  assert (∀ leb, glidesort leb ([] : list (ReceiverEndpoint * Batcher A)) = []) as Hg.
  { intros leb. apply Permutation_nil. by rewrite glidesort_perm. }
  rewrite Hg. simpl. unfold group_senders. simpl.
  assert (hash_iter (∅ : gmap BlockId (list nat)) = []) as ->; [|done].
  apply Permutation_nil. by rewrite hash_iter_perm, map_to_list_empty.
Qed.

(** C40.  Limiting the parallelism of a stream to [n] replicas, with [1 < n], loses data:
    the replicas of the previous block beyond the [n]-th have no destination, their [End]
    is set up without complaint, and it drops every item. *)
Theorem replication_limited_drops {A} `{!HashOrder, !Glidesort} rng env (p n typ r : N) m (x : A) net0 :
  (1 < n)%N → (n <= r)%N → (r < p)%N →
  let c := mkCoord 0 0 r in
  ∃ s net self,
    limited_job p n typ m = Done s ∧ c ∈ block_init s ∧
    build_execution_graph (Local p) s NetworkTopology_new = Done net ∧
    get_senders (Local p) c typ net = Done ([], net) ∧
    End_setup env c [] (End_new OnlyOne m) = Done self ∧
    ∃ self', End_dispatch rng self (Item x) net0 = Done (self', net0).
Proof.
  intros Hn Hr Hp c.
  destruct (execution_graph_built (Local p) _ 0%N eq_refl (limited_closed p n typ m))
    as (net & Hb & Hg).
  eexists _, net, _. split_and!; [apply limited_job_done| |exact Hb| |apply End_setup_nobody|by eexists].
  - simpl. apply elem_of_app. left. apply elem_of_coords_on. simpl. split_and!; [done..|lia].
  - unfold get_senders. rewrite (gb_next _ _ _ Hg). unfold c. by rewrite limited_unlinked.
Qed.

(** ** Examples *)
Module SchedulerExample.
Definition host (name : string) (cores : N) : HostConfig :=
  mkHostConfig name 9500 cores SSHConfig_default None.
Definition remote (h : HostId) : RemoteConfig :=
  mkRemoteConfig (Some h) [host "host1" 2; host "host2" 3] None false.
Lemma remote_valid h : (h < 2)%N → config_valid (Remote (remote h)).
Proof.
  intros Hh. split; [repeat constructor; by left|]. intros h' [= <-]. exact Hh.
Qed.
End SchedulerExample.

Lemma placement_ids_witness :
  ∃ info cs, block_info (Remote (SchedulerExample.remote 1)) (mkBlockDecl 7 (Limited 4) false Single) = Done info ∧
    length cs = 4 ∧ @all_replicas key_order info ≡ₚ cs.
Proof.
  destruct (placement_ids (Remote (SchedulerExample.remote 1)) (mkBlockDecl 7 (Limited 4) false Single) 1)
    as (info & cs & Hi & _ & Hl & _ & Hall & _).
  - apply SchedulerExample.remote_valid. lia.
  - reflexivity.
  - exists info, cs. split; [exact Hi|]. split; [|apply Hall]. apply Nat2N.inj. rewrite Hl. reflexivity.
Defined.

Lemma execution_graph_mirrors_witness :
  ∃ s net, limited_job 3 2 0 Single = Done s ∧
    @build_execution_graph key_order (Local 3) s NetworkTopology_new = Done net ∧
    length (topology_prev net (mkCoord 1 0 1)) = 1.
Proof.
  destruct (@execution_graph_mirrors key_order (Local 3) _ 0 eq_refl (limited_closed 3 2 0 Single))
    as (net & Hn & _).
  eexists _, net. split; [apply limited_job_done|]. split; [exact Hn|].
  vm_compute in Hn. injection Hn as <-. reflexivity.
Defined.

Lemma replication_limited_drops_witness :
  ∃ s net, limited_job 4 2 0 Single = Done s ∧
    @get_senders key_order (Local 4) (mkCoord 0 0 3) 0 net = Done ([], net).
Proof.
  destruct (@replication_limited_drops nat key_order insertion_glidesort (λ _, 0)
    (λ _, mkBatcherEnv (λ _, 0%Z) (λ _, [])) 4 2 0 3 Single 5 (mkNetwork ∅ ∅))
    as (s & net & _ & Hs & _ & _ & Hg & _).
  - lia.
  - lia.
  - lia.
  - exists s, net. split; [exact Hs|exact Hg].
Defined.
