(* ===== verification/Cache.v ===== *)
(** * Caches: a stream kept for a later execution

    [src/src/operator/cache/]: [CacheSink] ends a stream by handing its items to a
    [Cacher], one per replica, and by entering what the cacher leaves behind into a registry that
    the replicas of a host share; [CacheSource] starts a stream of a later execution from
    that registry.  Two cachers: [VecCacher] keeps the items in memory, [BincodeCacher]
    writes them to a file in batches.

    The serializer is a parameter ([BincodeVec]), with its documented round trip.  The
    files of a host are a map from paths to contents. *)
From Stdlib Require Import Strings.Byte Strings.Ascii Strings.String.
From stdpp Require Import strings.
From S2P Require Import Prelude StreamElement Operator Batcher Config Scheduler.

(** ** The interface between the operators and the cachers *)

(** [trait Cacher] and [trait CacheReplayer]; [world] is what the methods change outside
    of the cacher. *)
Class Cacher (T : Type) := {
  c_config : Type;
  cacher : Type;
  handle : Type;
  replayer : Type;
  world : Type;
  cacher_init : c_config → Coord → world → outcome (cacher * world);
  cacher_append : cacher → T → world → outcome (cacher * world);
  cacher_finalize : cacher → world → outcome (handle * world);
  replayer_new : handle → world → outcome replayer;
  replayer_next : nat → replayer → world → outcome (option T * replayer)
}.
Global Arguments c_config _ {_}.
Global Arguments cacher _ {_}.
Global Arguments handle _ {_}.
Global Arguments replayer _ {_}.
Global Arguments world _ {_}.

(** What a cacher promises: the replica at a coordinate gets back what it appended, in
    order, whatever the replicas at other coordinates do in the meantime. *)
Class CacherLaws (T : Type) `{!Cacher T} := {
  cachable : T → Prop;
  c_ready : c_config T → world T → Prop;
  (** the cacher of a coordinate has been given these items *)
  c_holds : c_config T → Coord → cacher T → list T → world T → Prop;
  (** the handle left behind by the cacher of a coordinate stands for these items *)
  c_stores : c_config T → Coord → handle T → list T → world T → Prop;
  (** the replayer still has these items to give *)
  c_left : replayer T → list T → world T → Prop;
  (** a change made on behalf of a coordinate *)
  c_evolves : c_config T → Coord → world T → world T → Prop;
  cacher_init_ok cfg k w : c_ready cfg w →
    ∃ c w', cacher_init cfg k w = Done (c, w') ∧ c_holds cfg k c [] w' ∧ c_evolves cfg k w w';
  cacher_append_ok cfg k c l t w : c_holds cfg k c l w → cachable t →
    ∃ c' w', cacher_append c t w = Done (c', w') ∧ c_holds cfg k c' (l ++ [t]) w' ∧ c_evolves cfg k w w';
  cacher_finalize_ok cfg k c l w : c_holds cfg k c l w →
    ∃ h w', cacher_finalize c w = Done (h, w') ∧ c_stores cfg k h l w' ∧ c_evolves cfg k w w';
  c_evolves_ready cfg k w w' : c_evolves cfg k w w' → c_ready cfg w → c_ready cfg w';
  c_evolves_holds cfg k k' c l w w' :
    c_evolves cfg k w w' → k ≠ k' → c_holds cfg k' c l w → c_holds cfg k' c l w';
  c_evolves_stores cfg k k' h l w w' :
    c_evolves cfg k w w' → k ≠ k' → c_stores cfg k' h l w → c_stores cfg k' h l w';
  replayer_new_ok cfg k h l w : c_stores cfg k h l w →
    ∃ r, replayer_new h w = Done r ∧ c_left r l w;
  replayer_next_ok r l w : c_left r l w →
    ∃ f r', replayer_next f r w = Done (head l, r') ∧ c_left r' (tail l) w;
  replayer_next_mono f f' r w : f ≤ f' → fuel_le (replayer_next f r w) (replayer_next f' r w)
}.

(** ** [VecCacher] *)
Definition VecCacher_init (_ : ()) (_ : Coord) {T} : list T := [].
Definition VecCacher_append {T} (self : list T) (item : T) : list T := self ++ [item].
Definition VecCacher_finalize {T} (self : list T) : list T := self.
Definition VecReplayer_next {T} (self : list T) : option T * list T :=
  match self with x :: l => (Some x, l) | [] => (None, []) end.

Definition VecCacher (T : Type) : Cacher T := {|
  c_config := (); cacher := list T; handle := list T; replayer := list T; world := ();
  cacher_init cfg k w := Done (VecCacher_init cfg k, w);
  cacher_append c t w := Done (VecCacher_append c t, w);
  cacher_finalize c w := Done (VecCacher_finalize c, w);
  replayer_new h w := Done h;
  replayer_next _ r _ := Done (VecReplayer_next r)
|}.

Definition VecCacher_laws (T : Type) : @CacherLaws T (VecCacher T).
Proof.
  refine (@Build_CacherLaws T (VecCacher T) (λ _, True) (λ _ _, True) (λ _ _ c l _, c = l)
    (λ _ _ h l _, h = l) (λ r l _, r = l) (λ _ _ _ _, True) _ _ _ _ _ _ _ _ _); cbn; try done.
  - intros cfg k [] _. by exists [], ().
  - intros _ _ c l t [] -> _. by exists (l ++ [t]), ().
  - intros _ _ c l [] ->. by exists l, ().
  - intros _ _ h l [] ->. by exists l.
  - intros r l [] ->. exists 0, (tail l). by destruct l.
  - intros. apply fuel_le_refl.
Defined.

(** ** The names of the files of [BincodeCacher] *)
Definition digit (d : N) : ascii := ascii_of_N (48 + d).
Definition digit_value (c : ascii) : N := N_of_ascii c - 48.
Fixpoint digits (fuel : nat) (n : N) : list ascii :=
  match fuel with
  | 0 => []
  | S fuel => if (n <? 10)%N then [digit n] else digits fuel (n / 10) ++ [digit (n mod 10)]
  end.
(** [format!("{:0w}", n)]. *)
Definition format_padded (w : nat) (n : N) : list ascii :=
  let d := digits (S (N.size_nat n)) n in replicate (w - length d) (digit 0) ++ d.
Definition dot : ascii := "."%char.
Definition rnbc : list ascii := ["."; "r"; "n"; "b"; "c"]%char.
(** The name in [BincodeCacher::init]. *)
Definition cache_file_name (coord : Coord) : list ascii :=
  format_padded 2 (host_id coord) ++ [dot] ++ format_padded 2 (block_id coord) ++ [dot] ++
  format_padded 4 (replica_id coord) ++ rnbc.

Definition digits_value (l : list ascii) : N := foldl (λ v c, v * 10 + digit_value c)%N 0%N l.
Lemma digit_value_digit d : (d < 10)%N → digit_value (digit d) = d.
Proof. intros. unfold digit_value, digit. rewrite N_ascii_embedding; lia. Qed.
Lemma digit_not_dot d : (d < 10)%N → digit d ≠ dot.
Proof.
  intros Hd E. apply (f_equal N_of_ascii) in E. unfold digit in E.
  rewrite N_ascii_embedding in E by lia. change (N_of_ascii dot) with 46%N in E. lia.
Qed.
Lemma size_nat_pow n : (n < 2 ^ N.of_nat (N.size_nat n))%N.
Proof.
  assert (∀ p, (Npos p < 2 ^ N.of_nat (Pos.size_nat p))%N) as Hp.
  { induction p as [p IH|p IH|]; simpl Pos.size_nat; [| |done];
      rewrite Nat2N.inj_succ, N.pow_succ_r'; lia. }
  destruct n as [|p]; [done|apply Hp].
Qed.
Lemma digits_spec fuel n :
  (n < 2 ^ N.of_nat fuel)%N →
  digits_value (digits (S fuel) n) = n ∧ Forall (.≠ dot) (digits (S fuel) n).
Proof.
  revert n. induction fuel as [|fuel IH]; intros n Hn.
  - cbn -[N.ltb]. change (2 ^ N.of_nat 0)%N with 1%N in Hn. assert (n = 0%N) as -> by lia. cbn.
    split; [done|]. by repeat constructor.
  - remember (S fuel) as k eqn:Ek. cbn -[N.ltb]. destruct (N.ltb_spec n 10) as [H|H].
    + unfold digits_value. cbn. rewrite digit_value_digit by done. split; [lia|].
      repeat constructor. by apply digit_not_dot.
    + subst k. destruct (IH (n / 10)%N) as [Hv Hd].
      { rewrite Nat2N.inj_succ, N.pow_succ_r' in Hn. apply N.Div0.div_lt_upper_bound. lia. }
      pose proof (N.mod_lt n 10 ltac:(done)) as Hm. split.
      * unfold digits_value in *. rewrite foldl_app, Hv. cbn. rewrite digit_value_digit by done.
        rewrite (N.div_mod n 10) at 3 by done. lia.
      * apply Forall_app. split; [done|]. constructor; [by apply digit_not_dot|constructor].
Qed.
Lemma format_padded_spec w n :
  digits_value (format_padded w n) = n ∧ Forall (.≠ dot) (format_padded w n).
Proof.
  unfold format_padded. destruct (digits_spec (N.size_nat n) n (size_nat_pow n)) as [Hv Hd].
  generalize dependent (digits (S (N.size_nat n)) n). intros d Hv Hd. split.
  - unfold digits_value in *. rewrite foldl_app.
    assert (∀ k, foldl (λ v c, (v * 10 + digit_value c)%N) 0%N (replicate k (digit 0)) = 0%N) as ->.
    { induction k as [|k IHk]; [done|]. cbn. exact IHk. }
    exact Hv.
  - apply Forall_app. split; [|done]. apply Forall_replicate. by apply digit_not_dot.
Qed.
Lemma dotted_inj (a b a' b' : list ascii) :
  Forall (.≠ dot) a → Forall (.≠ dot) a' → a ++ [dot] ++ b = a' ++ [dot] ++ b' → a = a' ∧ b = b'.
Proof.
  intros Ha. revert a'. induction Ha as [|x a Hx _ IH]; intros a' Ha' E; destruct Ha' as [|y a' Hy Ha'];
    simplify_eq/=; try done. destruct (IH a' Ha') as [-> ->]; done.
Qed.
(** The replicas of a host write to different files. *)
Lemma cache_file_name_inj coord coord' : cache_file_name coord = cache_file_name coord' → coord = coord'.
Proof.
  destruct coord as [b h r], coord' as [b' h' r']. unfold cache_file_name. cbn [host_id block_id replica_id]. intros E.
  apply dotted_inj in E as [Eh E]; [|apply format_padded_spec..].
  apply dotted_inj in E as [Eb E]; [|apply format_padded_spec..].
  change rnbc with ([dot] ++ ["r"; "n"; "b"; "c"]%char) in E.
  apply dotted_inj in E as [Er _]; [|apply format_padded_spec..].
  apply (f_equal digits_value) in Eh, Eb, Er.
  rewrite !(proj1 (format_padded_spec _ _)) in Eh; rewrite !(proj1 (format_padded_spec _ _)) in Eb;
    rewrite !(proj1 (format_padded_spec _ _)) in Er.
  by subst.
Qed.
Example cache_file_name_example :
  String.string_of_list_ascii (cache_file_name (mkCoord 3 0 12)) = "00.03.0012.rnbc"%string.
Proof. reflexivity. Qed.

(** ** Files *)
Definition path : Type := list ascii * list ascii.
Record FileSystem := mkFileSystem {
  directories : gset (list ascii);
  files : gmap path (list byte)
}.
(** [File::create]: the file is there, and empty, if the directory is. *)
Definition file_create (p : path) (fs : FileSystem) : option FileSystem :=
  if decide (p.1 ∈ directories fs) then Some (mkFileSystem (directories fs) (<[p := []]> (files fs)))
  else None.
Definition file_append (p : path) (bytes : list byte) (fs : FileSystem) : FileSystem :=
  mkFileSystem (directories fs) (<[p := default [] (files fs !! p) ++ bytes]> (files fs)).

(** [BufWriter<File>]: what has not been written to the file yet. *)
Record BufWriter := mkBufWriter { bw_path : path; bw_pending : list byte }.
Definition bw_capacity : nat := Z.to_nat 8192.
Definition bw_flush (self : BufWriter) (fs : FileSystem) : BufWriter * FileSystem :=
  (mkBufWriter (bw_path self) [], file_append (bw_path self) (bw_pending self) fs).
(** [BufWriter::write_all]: bytes that do not fit make room first, and are written
    directly if they would fill the buffer. *)
Definition bw_write_all (bytes : list byte) (self : BufWriter) (fs : FileSystem) : BufWriter * FileSystem :=
  let '(self, fs) :=
    if decide (bw_capacity < length (bw_pending self) + length bytes) then bw_flush self fs else (self, fs) in
  if decide (bw_capacity ≤ length bytes) then (self, file_append (bw_path self) bytes fs)
  else (mkBufWriter (bw_path self) (bw_pending self ++ bytes), fs).

(** What the file will contain once the writer is flushed. *)
Definition bw_content (self : BufWriter) (fs : FileSystem) : list byte :=
  default [] (files fs !! bw_path self) ++ bw_pending self.

(** A change of one file. *)
Definition fs_frame (p : path) (fs fs' : FileSystem) : Prop :=
  directories fs' = directories fs ∧ ∀ q, q ≠ p → files fs' !! q = files fs !! q.
Global Instance fs_frame_preorder p : PreOrder (fs_frame p).
Proof.
  split; [done|]. intros a b c [Hd Hf] [Hd' Hf']. split; [by rewrite Hd', Hd|].
  intros q Hq. by rewrite Hf', Hf.
Qed.
Lemma file_append_frame p bytes fs : fs_frame p fs (file_append p bytes fs).
Proof. split; [done|]. intros q Hq. cbn. by rewrite lookup_insert_ne. Qed.
Lemma bw_flush_spec self fs :
  bw_path (bw_flush self fs).1 = bw_path self ∧ bw_pending (bw_flush self fs).1 = [] ∧
  bw_content (bw_flush self fs).1 (bw_flush self fs).2 = bw_content self fs ∧
  fs_frame (bw_path self) fs (bw_flush self fs).2.
Proof.
  split_and!; [done|done| |apply file_append_frame].
  unfold bw_content. cbn. by rewrite lookup_insert_eq, app_nil_r.
Qed.
Lemma bw_write_all_spec bytes self fs :
  bw_path (bw_write_all bytes self fs).1 = bw_path self ∧
  bw_content (bw_write_all bytes self fs).1 (bw_write_all bytes self fs).2 = bw_content self fs ++ bytes ∧
  fs_frame (bw_path self) fs (bw_write_all bytes self fs).2.
Proof.
  unfold bw_write_all.
  destruct (decide (bw_capacity < length (bw_pending self) + length bytes)) as [Hgt|Hle].
  - destruct (bw_flush_spec self fs) as (Hp & He & Hc & Hf). destruct (bw_flush self fs) as [self1 fs1].
    cbn in Hp, He, Hc, Hf. case_decide; cbn; split_and!; try done.
    + rewrite <-Hc. unfold bw_content. cbn. by rewrite lookup_insert_eq, He, !app_nil_r.
    + rewrite Hp. etrans; [exact Hf|apply file_append_frame].
    + rewrite <-Hc. unfold bw_content. cbn. by rewrite app_assoc.
  - case_decide as Hl; cbn; split_and!; try done; [| |by unfold bw_content; cbn; rewrite app_assoc].
    + unfold bw_content. cbn. rewrite lookup_insert_eq. cbn.
      destruct (bw_pending self); [by rewrite !app_nil_r|]. cbn in Hle. lia.
    + apply file_append_frame.
Qed.

(** ** [BincodeCacher] *)

(** [encode_into_std_write] and [decode_from_std_read] of the [bincode] crate, at
    [Vec<T>] with the standard configuration.  What is encoded is decoded, and what
    follows it is left in the reader; at the end of a file the error is
    [UnexpectedEof]. *)
Inductive decoded (T : Type) := Ok (data : list T) (rest : list byte) | UnexpectedEof | OtherError.
Global Arguments Ok {_} _ _.
Global Arguments UnexpectedEof {_}.
Global Arguments OtherError {_}.
Class BincodeVec (T : Type) := {
  encode_vec : list T → option (list byte);
  decode_vec : list byte → decoded T;
  encodable : T → Prop;
  encode_encodable l : Forall encodable l → is_Some (encode_vec l);
  decode_encode_vec l bytes rest : encode_vec l = Some bytes → decode_vec (bytes ++ rest) = Ok l rest;
  decode_vec_end : decode_vec [] = UnexpectedEof
}.

Record BincodeCacheConfig := mkBincodeCacheConfig { bcc_batch_size : nat; bcc_path : list ascii }.
Record BincodeCacher_state (T : Type) := mkBincodeCacher {
  bc_buf : list T;
  bc_batch_size : nat;
  bc_path : path;
  bc_file : BufWriter
}.
Global Arguments mkBincodeCacher {_} _ _ _ _.
Global Arguments bc_buf {_} _.
Global Arguments bc_batch_size {_} _.
Global Arguments bc_path {_} _.
Global Arguments bc_file {_} _.
(** [BufReader<File>]: the file, and how much of it has been read. *)
Record BincodeReplayer_state (T : Type) := mkBincodeReplayer {
  br_buf : list T;
  br_path : path;
  br_offset : nat
}.
Global Arguments mkBincodeReplayer {_} _ _ _.
Global Arguments br_buf {_} _.
Global Arguments br_path {_} _.
Global Arguments br_offset {_} _.

Section bincode.
Context {T : Type} `{!BincodeVec T}.

Definition flush_buf (self : BincodeCacher_state T) (fs : FileSystem)
    : outcome (BincodeCacher_state T * FileSystem) :=
  bytes ← unwrap (encode_vec (bc_buf self));
  let '(file, fs) := bw_write_all bytes (bc_file self) fs in
  Done (mkBincodeCacher [] (bc_batch_size self) (bc_path self) file, fs).
Definition BincodeCacher_init (config : BincodeCacheConfig) (coord : Coord) (fs : FileSystem)
    : outcome (BincodeCacher_state T * FileSystem) :=
  let p := (bcc_path config, cache_file_name coord) in
  fs ← unwrap (file_create p fs);
  Done (mkBincodeCacher [] (bcc_batch_size config) p (mkBufWriter p []), fs).
Definition BincodeCacher_append (self : BincodeCacher_state T) (item : T) (fs : FileSystem)
    : outcome (BincodeCacher_state T * FileSystem) :=
  let self := mkBincodeCacher (bc_buf self ++ [item]) (bc_batch_size self) (bc_path self) (bc_file self) in
  if decide (length (bc_buf self) = bc_batch_size self) then flush_buf self fs else Done (self, fs).
Definition BincodeCacher_finalize (self : BincodeCacher_state T) (fs : FileSystem)
    : outcome (path * FileSystem) :=
  '(self, fs) ← match bc_buf self with [] => Done (self, fs) | _ => flush_buf self fs end;
  let '(_, fs) := bw_flush (bc_file self) fs in
  Done (bc_path self, fs).
Definition BincodeReplayer_new (handle : path) (fs : FileSystem) : outcome (BincodeReplayer_state T) :=
  _ ← unwrap (files fs !! handle);
  Done (mkBincodeReplayer [] handle 0).
Fixpoint BincodeReplayer_next (fuel : nat) (self : BincodeReplayer_state T) (fs : FileSystem)
    : outcome (option T * BincodeReplayer_state T) :=
  match fuel with
  | 0 => OutOfFuel
  | S fuel =>
      match br_buf self with
      | el :: buf => Done (Some el, mkBincodeReplayer buf (br_path self) (br_offset self))
      | [] =>
          let unread := drop (br_offset self) (default [] (files fs !! br_path self)) in
          match decode_vec unread with
          | Ok data rest =>
              BincodeReplayer_next fuel
                (mkBincodeReplayer data (br_path self) (br_offset self + (length unread - length rest))) fs
          | UnexpectedEof => Done (None, self)
          | OtherError => Panicked
          end
      end
  end.

#[local] Instance BincodeCacher : Cacher T := {|
  c_config := BincodeCacheConfig; cacher := BincodeCacher_state T; handle := path;
  replayer := BincodeReplayer_state T; world := FileSystem;
  cacher_init := BincodeCacher_init; cacher_append := BincodeCacher_append;
  cacher_finalize := BincodeCacher_finalize; replayer_new := BincodeReplayer_new;
  replayer_next := BincodeReplayer_next
|}.

(** The bytes of a sequence of batches. *)
Definition batches_bytes (bs : list (list T)) (bytes : list byte) : Prop :=
  ∃ encs, Forall2 (λ b e, encode_vec b = Some e) bs encs ∧ bytes = concat encs.
Lemma batches_bytes_snoc bs bytes b e :
  batches_bytes bs bytes → encode_vec b = Some e → batches_bytes (bs ++ [b]) (bytes ++ e).
Proof.
  intros (encs & H & ->) He. exists (encs ++ [e]). split; [by apply Forall2_app; repeat constructor|].
  by rewrite concat_app, concat_cons, app_nil_r.
Qed.

Definition cache_path (cfg : BincodeCacheConfig) (k : Coord) : path := (bcc_path cfg, cache_file_name k).
Definition bc_holds (cfg : BincodeCacheConfig) (k : Coord) (c : BincodeCacher_state T) (l : list T) (fs : FileSystem)
    : Prop :=
  bc_path c = cache_path cfg k ∧ bw_path (bc_file c) = cache_path cfg k ∧
  is_Some (files fs !! cache_path cfg k) ∧ Forall encodable l ∧
  ∃ bs, l = concat bs ++ bc_buf c ∧ batches_bytes bs (bw_content (bc_file c) fs).
Definition bc_stores (cfg : BincodeCacheConfig) (k : Coord) (h : path) (l : list T) (fs : FileSystem) : Prop :=
  h = cache_path cfg k ∧ ∃ bs bytes, files fs !! h = Some bytes ∧ l = concat bs ∧ batches_bytes bs bytes.
Definition bc_left (r : BincodeReplayer_state T) (l : list T) (fs : FileSystem) : Prop :=
  ∃ bs unread, l = br_buf r ++ concat bs ∧ batches_bytes bs unread ∧
    drop (br_offset r) (default [] (files fs !! br_path r)) = unread ∧
    br_offset r ≤ length (default [] (files fs !! br_path r)).

Lemma bw_write_all_exists bytes self fs :
  is_Some (files fs !! bw_path self) → is_Some (files (bw_write_all bytes self fs).2 !! bw_path self).
Proof.
  intros H. unfold bw_write_all. case_decide; cbn; case_decide; cbn; rewrite ?lookup_insert_eq; done.
Qed.
Lemma flush_buf_ok cfg k c l fs :
  bc_holds cfg k c l fs →
  ∃ c' fs', flush_buf c fs = Done (c', fs') ∧ bc_buf c' = [] ∧ bc_holds cfg k c' l fs' ∧
    fs_frame (cache_path cfg k) fs fs'.
Proof.
  intros (Hp & Hw & Hf & Hl & bs & -> & Hb).
  destruct (encode_encodable (bc_buf c)) as [bytes Henc]; [by apply Forall_app in Hl as [_ ?]|].
  unfold flush_buf. rewrite Henc. cbn.
  destruct (bw_write_all_spec bytes (bc_file c) fs) as (Hwp & Hwc & Hwf).
  pose proof (bw_write_all_exists bytes (bc_file c) fs ltac:(by rewrite Hw)) as He.
  rewrite Hw in Hwp, Hwf, He. destruct (bw_write_all bytes (bc_file c) fs) as [file fs'].
  eexists _, _. split; [done|]. split; [done|]. split; [|done]. split_and!; try done.
  exists (bs ++ [bc_buf c]). cbn in *. split; [by rewrite concat_app, concat_cons, !app_nil_r|].
  rewrite Hwc. by apply batches_bytes_snoc.
Qed.
Lemma bc_append_ok cfg k c l t fs :
  bc_holds cfg k c l fs → encodable t →
  ∃ c' fs', BincodeCacher_append c t fs = Done (c', fs') ∧ bc_holds cfg k c' (l ++ [t]) fs' ∧
    fs_frame (cache_path cfg k) fs fs'.
Proof.
  intros (Hp & Hw & Hf & Hl & bs & -> & Hb) Ht. unfold BincodeCacher_append.
  set (c1 := mkBincodeCacher (bc_buf c ++ [t]) _ _ _).
  assert (bc_holds cfg k c1 ((concat bs ++ bc_buf c) ++ [t]) fs) as H1.
  { split_and!; try done; [apply Forall_app; by repeat constructor|].
    exists bs. split; [by rewrite <-app_assoc|done]. }
  case_decide; [|by exists c1, fs]. destruct (flush_buf_ok _ _ _ _ _ H1) as (c' & fs' & E & _ & H2 & Hfr).
  by exists c', fs'.
Qed.
Lemma bc_finalize_ok cfg k c l fs :
  bc_holds cfg k c l fs →
  ∃ h fs', BincodeCacher_finalize c fs = Done (h, fs') ∧ bc_stores cfg k h l fs' ∧
    fs_frame (cache_path cfg k) fs fs'.
Proof.
  intros H. assert (∃ c1 fs1, match bc_buf c with [] => Done (c, fs) | _ => flush_buf c fs end = Done (c1, fs1) ∧
    bc_buf c1 = [] ∧ bc_holds cfg k c1 l fs1 ∧ fs_frame (cache_path cfg k) fs fs1) as (c1 & fs1 & E & Hb & H1 & Hf1).
  { destruct (bc_buf c) eqn:Eb; [by exists c, fs|]. by apply flush_buf_ok. }
  unfold BincodeCacher_finalize. rewrite E. cbn. eexists _, _. split; [done|].
  destruct H1 as (Hp & Hw & _ & _ & bs & -> & Hby). destruct (bw_flush_spec (bc_file c1) fs1) as (_ & _ & Hc & Hf).
  rewrite Hw in Hf. split; [|by etrans]. split; [done|]. rewrite Hp.
  exists bs, (bw_content (bc_file c1) fs1). split; [|split; [by rewrite Hb, app_nil_r|done]].
  unfold bw_content. cbn. by rewrite Hw, lookup_insert_eq.
Qed.
Lemma bc_next_ok r l fs :
  bc_left r l fs → ∃ f r', BincodeReplayer_next f r fs = Done (head l, r') ∧ bc_left r' (tail l) fs.
Proof.
  intros (bs & unread & -> & Hb & Hu & Ho). revert r unread Hb Hu Ho.
  induction bs as [|b bs IH]; intros r unread Hb Hu Ho; destruct (br_buf r) as [|el buf] eqn:Er.
  - exists 1, r. cbn. rewrite Er, Hu. destruct Hb as (encs & Hf & ->). inversion Hf; subst. cbn.
    rewrite decode_vec_end. split; [done|]. exists [], []. split; [by rewrite Er|]. split; [by exists []|done].
  - exists 1, (mkBincodeReplayer buf (br_path r) (br_offset r)). cbn. rewrite Er. split; [done|].
    by exists [], unread.
  - destruct Hb as (encs & Hf & ->). inversion Hf as [|? e ? encs' He Hf']; subst.
    cbn [concat] in *. set (content := default [] (files fs !! br_path r)) in *.
    assert (length (drop (br_offset r) content) = length e + length (concat encs')) as Hlen
      by (rewrite Hu; apply length_app).
    rewrite length_drop in Hlen.
    set (r1 := mkBincodeReplayer b (br_path r) (br_offset r + length e)).
    destruct (IH r1 (concat encs')) as (f & r' & Hn & Hl).
    { by exists encs'. }
    { cbn. fold content. rewrite <-drop_drop, Hu. by rewrite drop_app_length. }
    { cbn. fold content. lia. }
    exists (S f), r'. cbn [BincodeReplayer_next]. fold content. rewrite Er, Hu, (decode_encode_vec b e _ He).
    replace (length (e ++ concat encs') - length (concat encs')) with (length e) by (rewrite length_app; lia).
    fold r1. cbn. by rewrite Hn.
  - exists 1, (mkBincodeReplayer buf (br_path r) (br_offset r)). cbn. rewrite Er. split; [done|].
    by exists (b :: bs), unread.
Qed.
Lemma bc_next_mono f f' r fs : f ≤ f' → fuel_le (BincodeReplayer_next f r fs) (BincodeReplayer_next f' r fs).
Proof.
  revert f' r. induction f as [|f IH]; intros [|f'] r Hle; cbn; try lia; eauto with renoir.
  destruct (br_buf r); [|eauto with renoir]. destruct (decode_vec _); [|eauto with renoir..]. apply IH. lia.
Qed.
Lemma cache_path_ne cfg k k' : k ≠ k' → cache_path cfg k' ≠ cache_path cfg k.
Proof. intros Hk [= E%cache_file_name_inj]. done. Qed.

Global Instance BincodeCacher_laws : CacherLaws T.
Proof.
  refine (@Build_CacherLaws T BincodeCacher encodable (λ cfg fs, bcc_path cfg ∈ directories fs) bc_holds
    bc_stores bc_left (λ cfg k, fs_frame (cache_path cfg k)) _ bc_append_ok bc_finalize_ok _ _ _ _ bc_next_ok bc_next_mono).
  - intros cfg k fs Hr. cbn. unfold BincodeCacher_init, file_create. cbn. rewrite decide_True by done. cbn.
    eexists _, _. split; [done|]. split.
    + split_and!; try done; cbn; [by rewrite lookup_insert_eq|]. exists []. split; [done|].
      unfold bw_content. cbn. rewrite lookup_insert_eq. by exists [].
    + split; [done|]. intros q Hq. cbn. by rewrite lookup_insert_ne.
  - by intros cfg k fs fs' [-> _].
  - intros cfg k k' c l fs fs' [_ Hf] Hk (Hp & Hw & He & Hl & bs & -> & Hb).
    pose proof (Hf _ (cache_path_ne cfg k k' Hk)) as Hc. split_and!; try done; [by rewrite Hc|].
    exists bs. split; [done|]. unfold bw_content in *. by rewrite Hw, Hc, <-Hw.
  - intros cfg k k' h l fs fs' [_ Hf] Hk (-> & bs & bytes & Hby & -> & Hb). split; [done|].
    exists bs, bytes. split; [|done]. by rewrite Hf by by apply cache_path_ne.
  - intros cfg k h l fs (-> & bs & bytes & Hby & -> & Hb). cbn. unfold BincodeReplayer_new. rewrite Hby. cbn.
    eexists. split; [done|]. exists bs, bytes. cbn. rewrite Hby. split_and!; [done|done|apply drop_0|cbn; lia].
Defined.
End bincode.

(** ** [CacheRegistry]: what the replicas of a host share *)
Record CacheRegistry (H : Type) := mkCacheRegistry {
  cr_setup : bool;
  cr_missing : nat;
  cr_data : gmap N H
}.
Global Arguments mkCacheRegistry {_} _ _ _.
Global Arguments cr_setup {_} _.
Global Arguments cr_missing {_} _.
Global Arguments cr_data {_} _.

Definition registry_new {H} : CacheRegistry H := mkCacheRegistry false 0 ∅.
Definition registry_register {H} (self : CacheRegistry H) : CacheRegistry H :=
  mkCacheRegistry true (cr_missing self + 1) (cr_data self).
(** The old entry of the identifier, and the registry. *)
Definition registry_insert {H} (global_id : N) (data : H) (self : CacheRegistry H)
    : outcome (option H * CacheRegistry H) :=
  missing ← usize_sub (cr_missing self) 1;
  Done (cr_data self !! global_id, mkCacheRegistry (cr_setup self) missing (<[global_id := data]> (cr_data self))).
Definition registry_remove {H} (global_id : N) (self : CacheRegistry H) : option H * CacheRegistry H :=
  (cr_data self !! global_id, mkCacheRegistry (cr_setup self) (cr_missing self) (delete global_id (cr_data self))).
Definition is_complete {H} (self : CacheRegistry H) : bool := cr_setup self && (cr_missing self =? 0).

(** ** [CacheSink] *)
Section operators.
Context {T : Type} `{!Cacher T}.

Record CacheSink_state := mkCacheSink {
  cs_global_id : option N;
  cs_accumulator : option (cacher T);
  cs_terminated : bool
}.
(** [CacheSink::new], and its clones. *)
Definition CacheSink_new : CacheSink_state := mkCacheSink None None false.

Definition shared : Type := CacheRegistry (handle T) * world T.

(** [CacheSink::setup], after the setup of the previous operator. *)
Definition CacheSink_setup (cfg : c_config T) (coord : Coord) (global_id : N) (self : CacheSink_state) (sh : shared)
    : outcome (CacheSink_state * shared) :=
  let '(registry, w) := sh in
  '(acc, w) ← cacher_init cfg coord w;
  Done (mkCacheSink (Some global_id) (Some acc) (cs_terminated self), (registry_register registry, w)).

(** [CacheSink::next]. *)
Definition CacheSink_next (prev : Operator T) (fuel : nat) (sh : shared) (q : CacheSink_state * op_state prev)
    : outcome (StreamElement () * shared * (CacheSink_state * op_state prev)) :=
  let '(self, p) := q in
  let '(registry, w) := sh in
  '(e, p) ← op_next prev fuel p;
  match e with
  | Item t | Timestamped t _ =>
      acc ← unwrap (cs_accumulator self);
      '(acc, w) ← cacher_append acc t w;
      Done (Item (), (registry, w), (mkCacheSink (cs_global_id self) (Some acc) (cs_terminated self), p))
  | Terminate =>
      if cs_terminated self then Done (Terminate, sh, (self, p))
      else
        acc ← unwrap (cs_accumulator self);
        global_id ← unwrap (cs_global_id self);
        '(h, w) ← cacher_finalize acc w;
        '(ret, registry) ← registry_insert global_id h registry;
        match ret with
        | Some _ => Panicked
        | None => Done (Terminate, (registry, w), (mkCacheSink (cs_global_id self) None true, p))
        end
  | Watermark ts => Done (Watermark ts, sh, (self, p))
  | FlushBatch => Done (FlushBatch, sh, (self, p))
  | FlushAndRestart => Done (FlushAndRestart, sh, (self, p))
  end.

(** ** [CacheSource] *)
Record CacheSource_state := mkCacheSource {
  so_source : option (replayer T);
  so_flushed : bool
}.
Definition CacheSource_new : CacheSource_state := mkCacheSource None false.
Definition CacheSource_setup (global_id : N) (self : CacheSource_state) (sh : shared)
    : outcome (CacheSource_state * shared) :=
  let '(registry, w) := sh in
  rassert (is_complete registry);;
  match registry_remove global_id registry with
  | (Some h, registry) => source ← replayer_new h w; Done (mkCacheSource (Some source) (so_flushed self), (registry, w))
  | (None, _) => Panicked
  end.
Definition CacheSource_next (w : world T) (fuel : nat) (self : CacheSource_state)
    : outcome (StreamElement T * CacheSource_state) :=
  source ← unwrap (so_source self);
  '(item, source) ← replayer_next fuel source w;
  match item with
  | Some item => Done (Item item, mkCacheSource (Some source) (so_flushed self))
  | None =>
      if so_flushed self then Done (Terminate, mkCacheSource (Some source) true)
      else Done (FlushAndRestart, mkCacheSource (Some source) true)
  end.
Definition CacheSource (w : world T) : Operator T := mkOperator _ (CacheSource_next w).

(** ** [CachedStream] *)
Record CachedStream := mkCachedStream {
  cst_replication : Replication;
  cst_config : RuntimeConfig;
  cst_data : CacheRegistry (handle T)
}.
(** [Stream::collect_cache]: the cache of a stream whose last block has a replication. *)
Definition collect_cache (config : RuntimeConfig) (replication : Replication) : CachedStream :=
  mkCachedStream replication config registry_new.
Definition inner_cloned (self : CachedStream) : outcome (gmap N (handle T)) :=
  rassert (is_complete (cst_data self));; Done (cr_data (cst_data self)).
(** [refs]: how many references to the registry there are. *)
Definition into_inner (refs : nat) (self : CachedStream) : outcome (gmap N (handle T)) :=
  rassert (is_complete (cst_data self));; rassert (refs =? 1);; Done (cr_data (cst_data self)).
(** [CachedStream::stream_in]: the source and its replication. *)
Definition stream_in (config : RuntimeConfig) (self : CachedStream)
    : outcome (CacheSource_state * Replication * CacheRegistry (handle T)) :=
  rassert (bool_decide (cst_config self = config));;
  Done (CacheSource_new, cst_replication self, cst_data self).

(** ** The replicas of a host, under every interleaving *)
Inductive action := SetUp (i : nat) | Next (i : nat).
Definition act_replica (a : action) : nat := match a with SetUp i | Next i => i end.

Section host.
Context (prev : Operator T) (cfg : c_config T) (ids : list (Coord * N)).
Definition host_state : Type := shared * list (CacheSink_state * op_state prev).
Definition host_act (fuel : nat) (a : action) (st : host_state) : outcome host_state :=
  let '(sh, sinks) := st in
  '(self, p) ← unwrap (sinks !! act_replica a);
  match a with
  | SetUp i =>
      '(coord, global_id) ← unwrap (ids !! i);
      '(self, sh) ← CacheSink_setup cfg coord global_id self sh;
      Done (sh, <[i := (self, p)]> sinks)
  | Next i =>
      '(_, sh, q) ← CacheSink_next prev fuel sh (self, p);
      Done (sh, <[i := q]> sinks)
  end.
Fixpoint host_run (fuel : nat) (sched : list action) (st : host_state) : outcome host_state :=
  match sched with
  | [] => Done st
  | a :: sched => st ← host_act fuel a st; host_run fuel sched st
  end.
End host.

(** Sources set up one after the other. *)
Fixpoint setup_sources (global_ids : list N) (sh : shared) : outcome (list CacheSource_state * shared) :=
  match global_ids with
  | [] => Done ([], sh)
  | g :: global_ids =>
      '(s, sh) ← CacheSource_setup g CacheSource_new sh;
      '(l, sh) ← setup_sources global_ids sh;
      Done (s :: l, sh)
  end.
End operators.
Global Arguments CacheSink_state _ {_}.
Global Arguments CacheSource_state _ {_}.
Global Arguments CachedStream _ {_}.
Global Arguments shared _ {_}.

(** ** What the sinks leave behind *)
Section roundtrip.
Context {T : Type} `{!Cacher T, !CacherLaws T} (prev : Operator T) `{!OperatorLaws prev} (cfg : c_config T).

(** A replica of the cached stream: where it runs, and what it reads. *)
Record job := mkJob {
  j_coord : Coord;
  j_id : N;
  j_stream : list (StreamElement T);
  j_start : op_state prev;
  j_end : op_state prev
}.
Definition job_ok (j : job) : Prop :=
  Forall (λ e, e ≠ Terminate) (j_stream j) ∧ Forall cachable (values (j_stream j)) ∧
  emits prev (j_start j) (j_stream j ++ [Terminate]) (j_end j).
Definition job_actions (i : nat) (j : job) : list action :=
  SetUp i :: replicate (S (length (j_stream j))) (Next i).

(** Where a replica is, given the actions it still has to do. *)
Inductive replica_at (i : nat) (j : job) (sh : shared T) :
    list action → CacheSink_state T * op_state prev → Prop :=
| at_start :
    replica_at i j sh (job_actions i j) (CacheSink_new, j_start j)
| at_work seen rest c p :
    j_stream j = seen ++ rest → c_holds cfg (j_coord j) c (values seen) sh.2 →
    emits prev p (rest ++ [Terminate]) (j_end j) →
    replica_at i j sh (replicate (S (length rest)) (Next i)) (mkCacheSink (Some (j_id j)) (Some c) false, p)
| at_end h :
    cr_data sh.1 !! j_id j = Some h → c_stores cfg (j_coord j) h (values (j_stream j)) sh.2 →
    replica_at i j sh [] (mkCacheSink (Some (j_id j)) None true, j_end j).

(** The replicas that have registered and not inserted. *)
Definition running (q : CacheSink_state T * op_state prev) : Prop := is_Some (cs_accumulator q.1).
#[local] Instance running_dec q : Decision (running q).
Proof. unfold running. apply _. Defined.

Record host_ok (jobs : list job) (sched : list action) (st : host_state prev) : Prop := {
  ho_ready : c_ready cfg st.1.2;
  ho_at (i : nat) j : jobs !! i = Some j →
    ∃ q, st.2 !! i = Some q ∧ replica_at i j st.1 (base.filter (λ a, act_replica a = i) sched) q;
  ho_missing : cr_missing st.1.1 = length (base.filter running st.2);
  ho_fresh i j q : jobs !! i = Some j → st.2 !! i = Some q → cs_terminated q.1 = false →
    cr_data st.1.1 !! j_id j = None;
  ho_setup i q : st.2 !! i = Some q → is_Some (cs_global_id q.1) → cr_setup st.1.1 = true;
  ho_known a : a ∈ sched → act_replica a < length jobs;
  ho_length : length st.2 = length jobs
}.

Lemma replica_at_frame k (j jk : job) sh sh' acts q :
  c_evolves cfg (j_coord j) sh.2 sh'.2 ∨ sh'.2 = sh.2 → j_coord j ≠ j_coord jk →
  (∀ h, cr_data sh.1 !! j_id jk = Some h → cr_data sh'.1 !! j_id jk = Some h) →
  replica_at k jk sh acts q → replica_at k jk sh' acts q.
Proof.
  intros He Hne Hd [|seen rest c p Hs Hc Hp|h Hh Hst].
  - constructor.
  - eapply at_work; [done| |done]. destruct He as [He| ->]; [by eapply c_evolves_holds|done].
  - eapply at_end; [by apply Hd|]. destruct He as [He| ->]; [by eapply c_evolves_stores|done].
Qed.

Lemma filter_running_insert i q q' (l : list (CacheSink_state T * op_state prev)) :
  l !! i = Some q →
  length (base.filter running (<[i := q']> l)) + (if decide (running q) then 1 else 0) =
  length (base.filter running l) + (if decide (running q') then 1 else 0).
Proof.
  intros Hi. rewrite <-(take_drop_middle l i q Hi) at 2.
  rewrite insert_take_drop by (by eapply lookup_lt_Some).
  rewrite !filter_app, !filter_cons, !length_app.
  repeat case_decide; cbn [length]; lia.
Qed.

Context (jobs : list job) (Hjobs : Forall job_ok jobs)
  (Hcoords : NoDup (j_coord <$> jobs)) (Hids : NoDup (j_id <$> jobs)).
Definition job_ids : list (Coord * N) := (λ j, (j_coord j, j_id j)) <$> jobs.

Lemma jobs_distinct i k j jk :
  jobs !! i = Some j → jobs !! k = Some jk → i ≠ k → j_coord j ≠ j_coord jk ∧ j_id j ≠ j_id jk.
Proof.
  intros Hi Hk Hne. split; intros E; apply Hne.
  - eapply (NoDup_lookup (j_coord <$> jobs)); [done| |]; rewrite list_lookup_fmap;
      [by rewrite Hi|by rewrite Hk, E].
  - eapply (NoDup_lookup (j_id <$> jobs)); [done| |]; rewrite list_lookup_fmap;
      [by rewrite Hi|by rewrite Hk, E].
Qed.

(** A step of replica [i]: it suffices that the step is right for [i], and that what it
    changes is its own. *)
Lemma host_ok_update i j q q' a sched sh sh' sinks :
  host_ok jobs (a :: sched) (sh, sinks) → act_replica a = i → jobs !! i = Some j → sinks !! i = Some q →
  c_evolves cfg (j_coord j) sh.2 sh'.2 ∨ sh'.2 = sh.2 →
  replica_at i j sh' (base.filter (λ b, act_replica b = i) sched) q' →
  (∀ g, g ≠ j_id j → cr_data sh'.1 !! g = cr_data sh.1 !! g) →
  (cs_terminated q'.1 = false → cr_data sh'.1 !! j_id j = None) →
  cr_missing sh'.1 + (if decide (running q) then 1 else 0) =
    cr_missing sh.1 + (if decide (running q') then 1 else 0) →
  cr_setup sh'.1 = true →
  host_ok jobs sched (sh', <[i := q']> sinks).
Proof.
  intros [Hr Ha Hm Hf Hs Hk Hlen] Ei Hj Hq He Hat Hd Hnew Hmiss Hset. cbn in *.
  assert (i < length sinks) as Hi by (by eapply lookup_lt_Some).
  split; cbn.
  - destruct He as [He| ->]; [by eapply c_evolves_ready|done].
  - intros k jk Hjk. destruct (decide (i = k)) as [<-|Hne].
    + rewrite Hj in Hjk. injection Hjk as <-. exists q'. by rewrite list_lookup_insert_eq.
    + destruct (jobs_distinct i k j jk Hj Hjk Hne) as [Hc Hid].
      destruct (Ha k jk Hjk) as (qk & Hqk & Hatk). exists qk. rewrite list_lookup_insert_ne by done.
      split; [done|]. rewrite decide_False in Hatk by congruence.
      eapply replica_at_frame; [done..| |done]. intros h. by rewrite Hd.
  - pose proof (filter_running_insert i q q' sinks Hq). lia.
  - intros k jk qk Hjk Hqk Ht. destruct (decide (i = k)) as [<-|Hne].
    + rewrite Hj in Hjk. injection Hjk as <-. rewrite list_lookup_insert_eq in Hqk by done.
      injection Hqk as <-. by apply Hnew.
    + rewrite list_lookup_insert_ne in Hqk by done. rewrite Hd; [by eapply Hf|].
      intros E. by destruct (jobs_distinct i k j jk Hj Hjk Hne).
  - done.
  - intros b Hb. apply Hk. by right.
  - by rewrite length_insert.
Qed.

Lemma host_setup_ok i sched st :
  host_ok jobs (SetUp i :: sched) st →
  ∃ st', host_act prev cfg job_ids 0 (SetUp i) st = Done st' ∧ host_ok jobs sched st'.
Proof.
  destruct st as [[reg w] sinks]. intros Hok. pose proof Hok as [Hr Ha Hm Hf Hs Hk Hlen].
  destruct (lookup_lt_is_Some_2 jobs i) as [j Hj]; [exact (Hk (SetUp i) ltac:(by left))|].
  destruct (Ha i j Hj) as (q & Hq & Hat). cbn in Hq. rewrite filter_cons_True in Hat by done.
  inversion Hat as [Hact Eq|seen rest c p _ _ _ Hact Eq|h _ _ Hact Eq]; subst q; [|done..].
  destruct (cacher_init_ok cfg (j_coord j) w Hr) as (c & w' & Hi & Hh & He).
  cbn. rewrite Hq. cbn. unfold job_ids. rewrite list_lookup_fmap, Hj. cbn. rewrite Hi. cbn.
  eexists. split; [done|]. eapply host_ok_update; try done.
  - by left.
  - cbn. rewrite <-Hact. eapply (at_work i j _ [] (j_stream j)); [done..|].
    by apply (Forall_lookup_1 _ _ _ _ Hjobs Hj).
  - intros _. cbn. eapply Hf; done.
Qed.

Lemma host_next_ok i sched st :
  host_ok jobs (Next i :: sched) st →
  ∃ f st', host_act prev cfg job_ids f (Next i) st = Done st' ∧ host_ok jobs sched st'.
Proof.
  destruct st as [[reg w] sinks]. intros Hok. pose proof Hok as [Hr Ha Hm Hf Hs Hk Hlen]. cbn in Hr, Hm.
  destruct (lookup_lt_is_Some_2 jobs i) as [j Hj]; [exact (Hk (Next i) ltac:(by left))|].
  destruct (Forall_lookup_1 _ _ _ _ Hjobs Hj) as (Hnt & Hcach & _).
  destruct (Ha i j Hj) as (q & Hq & Hat). cbn in Hq. rewrite filter_cons_True in Hat by done.
  inversion Hat as [Hact Eq|seen rest c p Hse Hh Hp Hact Eq|h _ _ Hact Eq]; subst q.
  pose proof (Hs i _ Hq ltac:(by eexists)) as Hset. cbn in Hset, Hh.
  pose proof (Hf i j _ Hj Hq eq_refl) as Hfresh. cbn in Hfresh.
  cbn. rewrite Hq. cbn. destruct rest as [|e rest].
  - apply emits_one in Hp as [f Hp]. exists f. rewrite Hp. cbn.
    destruct (cacher_finalize_ok cfg (j_coord j) c (values seen) w Hh) as (h & w' & Hfi & Hst & He).
    rewrite Hfi. cbn. assert (0 < cr_missing reg) as Hpos.
    { rewrite Hm. apply Nat.neq_0_lt_0. intros E%nil_length_inv%(f_equal (λ l, (mkCacheSink (Some (j_id j)) (Some c) false, p) ∈ l)).
      eapply (not_elem_of_nil (A := CacheSink_state T * op_state prev)). rewrite <-E.
      apply list_elem_of_filter. split; [by eexists|]. by eapply list_elem_of_lookup_2. }
    unfold registry_insert. rewrite usize_sub_le by lia. cbn. rewrite Hfresh. cbn.
    eexists. split; [done|]. rewrite app_nil_r in Hse. eapply host_ok_update; try done.
    + by left.
    + rewrite <-Hact. cbn. eapply at_end; cbn; [by rewrite lookup_insert_eq|]. by rewrite Hse.
    + intros g Hg. cbn. by rewrite lookup_insert_ne.
    + cbn. rewrite decide_True by (by eexists). rewrite decide_False by (by intros [? ?]). lia.
  - inversion Hp as [|? ? p1 ? ? [f Hstep] Hp1]; subst. exists f. rewrite Hstep. cbn.
    rewrite Hse in Hnt, Hcach. apply Forall_app in Hnt as [_ Hnt]. apply Forall_cons in Hnt as [Hne _].
    rewrite (cons_middle e), app_assoc in Hse. rewrite values_app in Hcach.
    assert (∀ c' w', (c_evolves cfg (j_coord j) w w' ∨ w' = w) → c_holds cfg (j_coord j) c' (values (seen ++ [e])) w' →
      host_ok jobs sched ((reg, w'), <[i := (mkCacheSink (Some (j_id j)) (Some c') false, p1)]> sinks)) as Hstay.
    { intros c' w' He Hc'. eapply host_ok_update; try done.
      rewrite <-Hact. by eapply (at_work i j _ (seen ++ [e]) rest). }
    rewrite values_app in Hstay. destruct e as [t|t ts| | | |]; try done; cbn.
    1,2: apply Forall_app in Hcach as [_ Hcach]; apply Forall_cons in Hcach as [Ht _];
      destruct (cacher_append_ok cfg (j_coord j) c (values seen) t w Hh Ht) as (c' & w' & Happ & Hc' & He);
      rewrite Happ; cbn; eexists; (split; [done|]); apply Hstay; [by left|done].
    all: eexists; (split; [done|]); apply Hstay; [by right|]; cbn; by rewrite app_nil_r.
Qed.

Lemma host_act_mono f f' a st :
  f ≤ f' → fuel_le (host_act prev cfg job_ids f a st) (host_act prev cfg job_ids f' a st).
Proof.
  intros Hle. destruct st as [[reg w] sinks]. unfold host_act.
  apply fuel_le_bind; [apply fuel_le_refl|]. intros [self p]. destruct a as [i|i]; [apply fuel_le_refl|].
  apply fuel_le_bind; [|intros; apply fuel_le_refl]. cbn.
  apply fuel_le_bind; [by apply op_next_mono|]. intros. apply fuel_le_refl.
Qed.
Lemma host_run_mono f f' sched st :
  f ≤ f' → fuel_le (host_run prev cfg job_ids f sched st) (host_run prev cfg job_ids f' sched st).
Proof.
  intros Hle. revert st. induction sched as [|a sched IH]; intros st; cbn; [apply fuel_le_refl|].
  apply fuel_le_bind; [by apply host_act_mono|done].
Qed.

Lemma host_run_ok sched st :
  host_ok jobs sched st →
  ∃ f st', host_run prev cfg job_ids f sched st = Done st' ∧ host_ok jobs [] st'.
Proof.
  revert st. induction sched as [|a sched IH]; intros st Hok; [by exists 0, st|].
  assert (∃ f st1, host_act prev cfg job_ids f a st = Done st1 ∧ host_ok jobs sched st1) as (f1 & st1 & H1 & Hok1).
  { destruct a as [i|i]; [|by apply host_next_ok]. exists 0. by apply host_setup_ok. }
  destruct (IH st1 Hok1) as (f2 & st2 & H2 & Hok2). exists (f1 `max` f2), st2. split; [|done]. cbn.
  assert (host_act prev cfg job_ids (f1 `max` f2) a st = Done st1) as ->.
  { apply fuel_le_done. rewrite <-H1. apply host_act_mono. lia. }
  cbn. apply fuel_le_done. rewrite <-H2. apply host_run_mono. lia.
Qed.

(** The state of a host before the sinks are set up, and the interleavings of the
    replicas: each is set up and then runs until it has read [Terminate]. *)
Definition host_start (w : world T) : host_state prev :=
  ((registry_new, w), (λ j, (CacheSink_new, j_start j)) <$> jobs).
Definition interleaving (sched : list action) : Prop :=
  (∀ i j, jobs !! i = Some j → base.filter (λ a, act_replica a = i) sched = job_actions i j) ∧
  Forall (λ a, act_replica a < length jobs) sched.

Lemma host_start_ok w sched : c_ready cfg w → interleaving sched → host_ok jobs sched (host_start w).
Proof.
  intros Hr [Hs Hk]. split; cbn.
  - done.
  - intros i j Hj. rewrite (Hs i j Hj), list_lookup_fmap, Hj. cbn. eexists. split; [done|constructor].
  - symmetry. apply length_zero_iff_nil. clear. induction jobs as [|j l IH]; [done|].
    by rewrite fmap_cons, filter_cons_False by (by intros [? ?]).
  - done.
  - intros i q Hq. rewrite list_lookup_fmap in Hq. apply fmap_Some in Hq as (j & _ & ->). by intros [? ?].
  - by apply Forall_forall.
  - apply length_fmap.
Qed.

Lemma host_done_ok st :
  host_ok jobs [] st →
  (jobs ≠ [] → is_complete st.1.1 = true) ∧
  ∀ j, j ∈ jobs → ∃ h, cr_data st.1.1 !! j_id j = Some h ∧
    c_stores cfg (j_coord j) h (values (j_stream j)) st.1.2.
Proof.
  intros [Hr Ha Hm Hf Hs Hk Hlen].
  assert (∀ i j, jobs !! i = Some j → ∃ h,
    st.2 !! i = Some (mkCacheSink (Some (j_id j)) None true, j_end j) ∧
    cr_data st.1.1 !! j_id j = Some h ∧ c_stores cfg (j_coord j) h (values (j_stream j)) st.1.2) as Hend.
  { intros i j Hj. destruct (Ha i j Hj) as (q & Hq & Hat).
    inversion Hat as [|? ? ? ? ? ? ? Hact|h Hh Hst]; subst. by exists h. }
  split.
  - intros Hne. destruct (jobs !! 0) as [j|] eqn:E0; [|by destruct jobs].
    destruct (Hend 0 j E0) as (h & Hq & _). unfold is_complete. rewrite (Hs 0 _ Hq) by (by eexists). cbn.
    rewrite Hm. apply Nat.eqb_eq, length_zero_iff_nil, list_filter_none, Forall_lookup. intros i q Hqi.
    destruct (lookup_lt_is_Some_2 jobs i) as [ji Hji]; [rewrite <-Hlen; by eapply lookup_lt_Some|].
    destruct (Hend i ji Hji) as (? & Hq' & _). rewrite Hqi in Hq'. injection Hq' as ->. by intros [? ?].
  - intros j Hj. apply list_elem_of_lookup in Hj as [i Hi]. destruct (Hend i j Hi) as (h & _ & H). by exists h.
Qed.
End roundtrip.

(** ** What the sources give *)
Section sources.
Context {T : Type} `{!Cacher T, !CacherLaws T}.

Global Instance CacheSource_laws (w : world T) : OperatorLaws (CacheSource w).
Proof.
  constructor. intros f f' s Hle. cbn. unfold CacheSource_next. destruct (so_source s) as [r|]; cbn; [|apply fuel_le_refl].
  apply fuel_le_bind; [by apply replayer_next_mono|]. intros. apply fuel_le_refl.
Qed.

Lemma CacheSource_emits r l w :
  c_left r l w →
  ∃ s, emits (CacheSource w) (mkCacheSource (Some r) false) ((Item <$> l) ++ [FlushAndRestart; Terminate]) s.
Proof.
  revert r. induction l as [|x l IH]; intros r Hl; destruct (replayer_next_ok r _ w Hl) as (f & r' & Hn & Hl').
  - destruct (replayer_next_ok r' _ w Hl') as (f2 & r2 & Hn2 & _). eexists.
    eapply emits_cons; [exists f; cbn; unfold CacheSource_next; cbn; by rewrite Hn|].
    eapply emits_cons; [exists f2; cbn; unfold CacheSource_next; cbn; by rewrite Hn2|constructor].
  - destruct (IH r' Hl') as [s Hs]. exists s.
    eapply emits_cons; [exists f; cbn; unfold CacheSource_next; cbn; by rewrite Hn|done].
Qed.

(** The sources of a host, set up one after the other. *)
Lemma setup_sources_ok (gs : list N) (ls : list (list T)) reg w :
  is_complete reg = true → NoDup gs →
  Forall2 (λ g l, ∃ cfg k h, cr_data reg !! g = Some h ∧ c_stores cfg k h l w) gs ls →
  ∃ srcs reg', setup_sources gs (reg, w) = Done (srcs, (reg', w)) ∧
    Forall2 (λ l src, ∃ s, emits (CacheSource w) src ((Item <$> l) ++ [FlushAndRestart; Terminate]) s) ls srcs.
Proof.
  intros Hc Hnd Hls. revert reg Hc Hls Hnd. revert ls.
  induction gs as [|g gs IH]; intros ls reg Hc Hls Hnd; inversion Hls as [|? l ? ls' Hg Hls']; subst.
  { exists [], reg. by split; [|constructor]. }
  destruct Hg as (cfg & k & h & Hh & Hst). apply NoDup_cons in Hnd as [Hng Hnd].
  destruct (replayer_new_ok cfg k h l w Hst) as (r & Hr & Hl). destruct (CacheSource_emits r l w Hl) as [s Hs].
  cbn [setup_sources]. unfold CacheSource_setup at 1. cbn. rewrite Hc, Hh. cbn. rewrite Hr. cbn.
  edestruct (IH ls') as (srcs & reg' & Hsrc & Hem); [| |done|]; cycle 2.
  - rewrite Hsrc. cbn. eexists _, _. split; [done|]. constructor; [by exists s|done].
  - done.
  - apply Forall2_same_length_lookup in Hls' as [Hlen Hls']. apply Forall2_same_length_lookup. split; [done|].
    intros i g' l' Hg' Hl'. destruct (Hls' i g' l' Hg' Hl') as (cfg' & k' & h' & Hh' & Hst'). exists cfg', k', h'. cbn.
    rewrite lookup_delete_ne by (intros <-; by apply list_elem_of_lookup_2 in Hg'). done.
Qed.
End sources.

(** C26. A cached stream comes back.  Whatever the interleaving of the replicas of a host,
    and although some may end before others are set up, the sinks never panic and leave a
    complete registry; in an execution with the same configuration the block of the
    sources has a replica for every entry, and each gives the items its counterpart has
    cached, in order, then [FlushAndRestart] and [Terminate].  This holds for every cacher that
    keeps the promises of the interface, of which [VecCacher] and [BincodeCacher] are
    instances. *)
Theorem cache_roundtrip {T} `{!Cacher T, !CacherLaws T} (prev : Operator T) `{!OperatorLaws prev} cfg w
    config hid sink source info info' (jobs : list (job prev)) sched :
  config_valid config → config_host_id config = Some hid →
  bd_replication sink = bd_replication source →
  block_info config sink = Done info → block_info config source = Done info' →
  job_ids prev jobs = local_ids info hid → Forall (job_ok prev) jobs → jobs ≠ [] →
  c_ready cfg w → interleaving prev jobs sched →
  ∃ f reg w' sinks srcs reg',
    host_run prev cfg (local_ids info hid) f sched (host_start prev jobs w) = Done ((reg, w'), sinks) ∧
    stream_in config (mkCachedStream (bd_replication sink) config reg) =
      Done (CacheSource_new, bd_replication source, reg) ∧
    setup_sources (local_ids info' hid).*2 (reg, w') = Done (srcs, (reg', w')) ∧
    Forall2 (λ j src, ∃ s,
      emits (CacheSource w') src ((Item <$> values (j_stream prev j)) ++ [FlushAndRestart; Terminate]) s) jobs srcs.
Proof.
  intros Hv Hh Hrep Hi Hi' Hids Hok Hne Hr Hs.
  destruct (block_info_coords config sink hid Hv Hh) as (info0 & E & Hpl & _).
  rewrite Hi in E. injection E as <-. destruct (placed_local_ids info _ hid Hpl) as (_ & Hnd1 & Hnd2).
  pose proof (f_equal (fmap fst) Hids) as Ec. pose proof (f_equal (fmap snd) Hids) as Eg.
  unfold job_ids in Ec, Eg. rewrite <-list_fmap_compose in Ec, Eg.
  rewrite <-Ec in Hnd1. rewrite <-Eg in Hnd2.
  destruct (host_run_ok prev cfg jobs Hok Hnd1 Hnd2 sched (host_start prev jobs w)) as (f & [[reg w'] sinks] & Hrun & Hend).
  { by apply host_start_ok. }
  destruct (host_done_ok prev cfg jobs Hok Hnd1 Hnd2 _ Hend) as [Hc Hst]. specialize (Hc Hne). cbn in Hc, Hst.
  destruct (setup_sources_ok (j_id prev <$> jobs) ((λ j, values (j_stream prev j)) <$> jobs) reg w' Hc Hnd2)
    as (srcs & reg' & Hsrc & Hem).
  { apply Forall2_fmap, Forall_Forall2_diag, Forall_forall. intros j Hj. destruct (Hst j Hj) as (h & ? & ?).
    by exists cfg, (j_coord prev j), h. }
  exists f, reg, w', sinks, srcs, reg'. rewrite <-Hids. split; [done|]. split.
  - unfold stream_in. cbn. rewrite bool_decide_true by done. cbn. by rewrite Hrep.
  - rewrite <-(local_ids_relabel config sink source hid hid info info') by done. rewrite <-Eg. split; [done|].
    by apply Forall2_fmap_l in Hem.
Qed.

(** ** An instance: bytes, each behind a mark, in two files *)
Module Example.
Fixpoint decode_bytes (bytes : list byte) : decoded byte :=
  match bytes with
  | [] => UnexpectedEof
  | x00 :: rest => Ok [] rest
  | x01 :: x :: rest => match decode_bytes rest with Ok l rest => Ok (x :: l) rest | e => e end
  | _ => OtherError
  end.
#[local] Instance bytes_vec : BincodeVec byte.
Proof.
  refine {| encode_vec l := Some (concat ((λ x, [x01; x]) <$> l) ++ [x00]); decode_vec := decode_bytes;
            encodable _ := True |}.
  - by eexists.
  - intros l bytes rest [= <-]. induction l as [|x l IH]; [done|]. cbn in *. by rewrite IH.
  - done.
Defined.
#[local] Existing Instance BincodeCacher.

Definition config : RuntimeConfig := Local 2.
Definition sink : BlockDecl := mkBlockDecl 4 Unlimited false Single.
Definition source : BlockDecl := mkBlockDecl 0 Unlimited false Single.
Definition job0 : job (FakeOperator byte) :=
  let l := [Item x00; FlushBatch; Item x01; Item x02; FlushAndRestart] in
  mkJob (FakeOperator byte) (mkCoord 4 0 0) 0 l (l ++ [Terminate]) [].
Definition job1 : job (FakeOperator byte) :=
  let l := [Item x05; FlushAndRestart] in mkJob (FakeOperator byte) (mkCoord 4 0 1) 1 l (l ++ [Terminate]) [].
Definition dir : list ascii := ["t"%char].
Definition fs0 : FileSystem := mkFileSystem {[dir]} ∅.
(** The second replica ends before the first is set up. *)
Definition schedule : list action :=
  [SetUp 1; Next 1; Next 1; Next 1; SetUp 0] ++ replicate 6 (Next 0).
Definition batches : BincodeCacheConfig := mkBincodeCacheConfig 2 dir.

Lemma cache_roundtrip_witness :
  ∃ f reg w' sinks srcs reg',
    host_run (FakeOperator byte) batches [(mkCoord 4 0 0, 0%N); (mkCoord 4 0 1, 1%N)] f schedule
      (host_start (FakeOperator byte) [job0; job1] fs0) = Done ((reg, w'), sinks) ∧
    setup_sources [0; 1]%N (reg, w') = Done (srcs, (reg', w')) ∧
    Forall2 (λ l src, ∃ s, emits (CacheSource w') src l s)
      [[Item x00; Item x01; Item x02; FlushAndRestart; Terminate]; [Item x05; FlushAndRestart; Terminate]] srcs.
Proof.
  destruct (block_info_coords config sink 0 ltac:(done) eq_refl) as (info & Hi & _).
  destruct (block_info_coords config source 0 ltac:(done) eq_refl) as (info' & Hi' & _).
  pose proof Hi as Ei. pose proof Hi' as Ei'. cbn in Ei, Ei'. injection Ei as Ei. injection Ei' as Ei'.
  destruct (@cache_roundtrip byte BincodeCacher BincodeCacher_laws (FakeOperator byte) _ batches fs0 config 0 sink source info info' [job0; job1] schedule)
    as (f & reg & w' & sinks & srcs & reg' & Hrun & _ & Hsrc & Hem).
  - done.
  - done.
  - done.
  - exact Hi.
  - exact Hi'.
  - subst info. by vm_compute.
  - apply Forall_cons; split; [|apply Forall_singleton];
      (split; [by repeat (apply Forall_cons; split; [done|])|]);
      (split; [by apply Forall_true|apply FakeOperator_emits_all]).
  - done.
  - cbn. set_solver.
  - split; [|by repeat constructor; cbn; lia]. intros [|[|i]] j Hj; simplify_eq/=; done.
  - exists f, reg, w', sinks, srcs, reg'.
    replace (local_ids info 0) with [(mkCoord 4 0 0, 0%N); (mkCoord 4 0 1, 1%N)] in Hrun by (subst info; by vm_compute).
    replace (local_ids info' 0).*2 with [0; 1]%N in Hsrc by (subst info'; by vm_compute).
    split; [exact Hrun|]. split; [exact Hsrc|].
    destruct srcs as [|s0 [|s1 [|]]]; apply Forall2_length in Hem as Hlen; try done.
    apply Forall2_cons in Hem as [H0 Hem]. apply Forall2_cons in Hem as [H1 _].
    apply Forall2_cons. split; [exact H0|]. apply Forall2_cons. split; [exact H1|constructor].
Defined.
End Example.
