(* ===== verification/Writers.v ===== *)
(** * Writers: streams that end in files

    [src/src/operator/sink/writer.rs], [csv.rs] and [avro.rs]: [WriterOperator] ends a block
    by handing the items of its stream to a writer, and a writer is whatever implements
    [trait WriteOperator]; the class below is that trait and the class [WriterLaws] is what a writer
    promises.  [CsvWriteOp] and [AvroSink] are the instances.  [sequential_path] gives every replica a file
    of its own.

    The crates [csv] and [apache_avro] are parameters ([CsvWriter], [AvroWriter]) with their documented
    behaviour; the files of a host and the buffered writer are those of [Cache.v]. *)
From Stdlib Require Import Strings.Byte Strings.Ascii Strings.String.
From stdpp Require Import strings.
From S2P Require Import Prelude StreamElement Operator Batcher Start Cache.

(** ** Paths *)

(** A [PathBuf] is the text of its parent and its last component. *)
Definition path_str (p : path) : list ascii := p.1 ++ ["/"%char] ++ p.2.
Definition is_dir (p : path) (fs : FileSystem) : bool := bool_decide (path_str p ∈ directories fs).
(** [Path::file_name]: [None] for the components that are not names. *)
Definition file_name (p : path) : option (list ascii) :=
  if decide (p.2 = [dot] ∨ p.2 = [dot; dot]) then None else Some p.2.
(** What is before and what is after the last dot. *)
Fixpoint rsplit_dot (name : list ascii) : option (list ascii * list ascii) :=
  match name with
  | [] => None
  | c :: name =>
      match rsplit_dot name with
      | Some (before, after) => Some (c :: before, after)
      | None => if decide (c = dot) then Some ([], name) else None
      end
  end.
(** [Path::file_stem] and [Path::extension]: a dot in front does not start an extension. *)
Definition file_stem (p : path) : option (list ascii) :=
  name ← file_name p;
  match rsplit_dot name with
  | Some (c :: before, _) => Some (c :: before)
  | _ => Some name
  end.
Definition extension (p : path) : option (list ascii) :=
  name ← file_name p;
  match rsplit_dot name with
  | Some (_ :: _, after) => Some after
  | _ => None
  end.

(** [sequential_path], with the file system [is_dir] asks. *)
Definition sequential_path (base : path) (fs : FileSystem) (metadata : ExecutionMetadata) : path :=
  let id := em_global_id metadata in
  if is_dir base fs then (path_str base, format_padded 4 id)
  else
    let name := default [] (file_stem base) ++ format_padded 4 id ++
      match extension base with Some ext => [dot] ++ ext | None => [] end in
    (base.1, name).

Example sequential_path_file :
  let md := mkExecutionMetadata (mkCoord 0 0 0) [] 12 [] Single in
  let p := sequential_path (list_ascii_of_string "/data", list_ascii_of_string "out.tar.csv") (mkFileSystem ∅ ∅) md in
  string_of_list_ascii p.2 = "out.tar0012.csv"%string.
Proof. reflexivity. Qed.

Lemma format_padded_inj w n m : format_padded w n = format_padded w m → n = m.
Proof.
  intros E%(f_equal digits_value). by rewrite !(proj1 (format_padded_spec _ _)) in E.
Qed.
(** Different replicas get different paths. *)
Lemma sequential_path_inj base fs m m' :
  sequential_path base fs m = sequential_path base fs m' → em_global_id m = em_global_id m'.
Proof.
  unfold sequential_path. destruct (is_dir base fs); intros [= E]; [by eapply format_padded_inj|].
  apply (inj _), (inj (λ l, l ++ _)) in E. by eapply format_padded_inj.
Qed.
Lemma sequential_path_dirs base fs fs' m :
  directories fs' = directories fs → sequential_path base fs' m = sequential_path base fs m.
Proof. intros E. unfold sequential_path, is_dir. by rewrite E. Qed.
Lemma sequential_path_parent base fs m :
  is_dir base fs = false → (sequential_path base fs m).1 = base.1.
Proof. intros E. unfold sequential_path. by rewrite E. Qed.

(** ** The interface between the operator and the writers *)

(** [trait WriteOperator], with [Destination = PathBuf].  [w_new] is a writer before its set-up;
    [w_write] gets what its iterator gives, which every writer reads to the end. *)
Class WriteOperator (T : Type) := {
  writer : Type;
  w_new : writer;
  w_setup : path → writer → FileSystem → outcome (writer * FileSystem);
  w_write : list T → writer → FileSystem → outcome (writer * FileSystem);
  w_flush : writer → FileSystem → outcome (writer * FileSystem);
  w_finalize : writer → FileSystem → outcome (writer * FileSystem)
}.
Global Arguments writer _ {_}.

(** A path at which a file can be opened for writing. *)
Definition can_open (p : path) (fs : FileSystem) : Prop := p.1 ∈ directories fs ∧ path_str p ∉ directories fs.
Global Instance can_open_dec p fs : Decision (can_open p fs).
Proof. unfold can_open. apply _. Defined.

(** What a writer promises: once it is finalized its file is what was kept of the old content, followed by a text
    that is determined by what it has been given. *)
Class WriterLaws (T : Type) `{!WriteOperator T} := {
  writable : T → Prop;
  w_kept : list byte → list byte;
  (** the text of the items of the calls of [write], in a file with an initial content *)
  w_render : list byte → list (list T) → list byte;
  (** the writer has the file open, the initial content of which was this, and these are the
      items of the calls so far *)
  w_open : path → list byte → list (list T) → writer T → FileSystem → Prop;
  w_setup_ok p fs : can_open p fs →
    ∃ w fs', w_setup p w_new fs = Done (w, fs') ∧
      w_open p (w_kept (default [] (files fs !! p))) [] w fs' ∧ fs_frame p fs fs';
  w_write_ok p c cs items w fs : w_open p c cs w fs → Forall writable items →
    ∃ w' fs', w_write items w fs = Done (w', fs') ∧ w_open p c (cs ++ [items]) w' fs' ∧ fs_frame p fs fs';
  w_flush_ok p c cs w fs : w_open p c cs w fs →
    ∃ w' fs', w_flush w fs = Done (w', fs') ∧ w_open p c cs w' fs' ∧ fs_frame p fs fs';
  w_finalize_ok p c cs w fs : w_open p c cs w fs →
    ∃ w' fs', w_finalize w fs = Done (w', fs') ∧ files fs' !! p = Some (c ++ w_render c cs) ∧ fs_frame p fs fs';
  w_open_frame p q c cs w fs fs' : fs_frame q fs fs' → p ≠ q → w_open p c cs w fs → w_open p c cs w fs'
}.

(** ** [WriterOperator] *)
Section operator.
Context {T : Type} `{!WriteOperator T}.

Record WriterOperator_state := mkWriterOperator {
  wo_writer : writer T;
  (** the closure gets the metadata; the file system is what it can ask *)
  wo_make_destination : option (ExecutionMetadata → FileSystem → path)
}.
Definition WriterOperator_new (make_destination : ExecutionMetadata → FileSystem → path) : WriterOperator_state :=
  mkWriterOperator w_new (Some make_destination).

(** [WriterOperator::setup], after the set-up of the previous operator. *)
Definition WriterOperator_setup (metadata : ExecutionMetadata) (self : WriterOperator_state) (fs : FileSystem)
    : outcome (WriterOperator_state * FileSystem) :=
  make_destination ← unwrap (wo_make_destination self);
  '(w, fs) ← w_setup (make_destination metadata fs) (wo_writer self) fs;
  Done (mkWriterOperator w None, fs).

(** [SequenceIterator], read to its end: the items, and the element that ended them. *)
Fixpoint sequence_items (prev : Operator T) (fuel : nat) (p : op_state prev)
    : outcome (list T * StreamElement T * op_state prev) :=
  match fuel with
  | O => OutOfFuel
  | S fuel =>
      '(e, p) ← op_next prev fuel p;
      match e with
      | Item item | Timestamped item _ =>
          '(items, last, p) ← sequence_items prev fuel p;
          Done (item :: items, last, p)
      | other => Done ([], other, p)
      end
  end.

(** [WriterOperator::next]. *)
Definition WriterOperator_next (prev : Operator T) (fuel : nat) (fs : FileSystem)
    (q : WriterOperator_state * op_state prev)
    : outcome (StreamElement () * FileSystem * (WriterOperator_state * op_state prev)) :=
  let '(self, p) := q in
  '(items, last, p) ← sequence_items prev fuel p;
  '(w, fs) ← w_write items (wo_writer self) fs;
  '(w, fs) ←
    match last with
    | FlushBatch | FlushAndRestart => w_flush w fs
    | Terminate => w_finalize w fs
    | _ => Done (w, fs)
    end;
  Done (variant last, fs, (mkWriterOperator w (wo_make_destination self), p)).
End operator.
Global Arguments WriterOperator_state _ {_}.

(** ** The items of each call of [write] *)

(** The runs of items that end in an element without one. *)
Fixpoint chunks {T} (l : list (StreamElement T)) : list (list T) :=
  match l with
  | [] => []
  | e :: l =>
      match value e with
      | None => [] :: chunks l
      | Some t => match chunks l with c :: cs => (t :: c) :: cs | [] => [] end
      end
  end.
Lemma chunks_item {T} (e : StreamElement T) t l c cs :
  value e = Some t → chunks l = c :: cs → chunks (e :: l) = (t :: c) :: cs.
Proof. intros He Hc. cbn. by rewrite He, Hc. Qed.
Lemma chunks_ne {T} (l : list (StreamElement T)) : chunks (l ++ [Terminate]) ≠ [].
Proof.
  induction l as [|e l IH]; [done|]. cbn. destruct (value e); [|done]. by destruct (chunks (l ++ [Terminate])).
Qed.
Lemma chunks_values {T} (l : list (StreamElement T)) : concat (chunks (l ++ [Terminate])) = values l.
Proof.
  induction l as [|e l IH]; [done|]. cbn. unfold values in *. cbn.
  destruct (value e); [|exact IH]. pose proof (chunks_ne l). destruct (chunks (l ++ [Terminate])); [done|].
  cbn in *. by rewrite IH.
Qed.

Section sequence.
Context {T : Type} (prev : Operator T) `{!OperatorLaws prev}.

Lemma sequence_items_mono f f' p :
  f ≤ f' → fuel_le (sequence_items prev f p) (sequence_items prev f' p).
Proof.
  revert f' p. induction f as [|f IH]; intros [|f'] p Hle; cbn; try lia; eauto with renoir.
  apply fuel_le_bind; [apply op_next_mono; lia|].
  intros [[] p1]; try apply fuel_le_refl; (apply fuel_le_bind; [apply IH; lia|]); intros [[? ?] ?]; apply fuel_le_refl.
Qed.

(** A call reads one run of items, and what ends it. *)
Lemma sequence_items_emits l p p' :
  Forall (λ e, e ≠ Terminate) l → emits prev p (l ++ [Terminate]) p' →
  ∃ f items last l2 p2, sequence_items prev f p = Done (items, last, p2) ∧
    value last = None ∧ emits prev p2 l2 p' ∧
    chunks (l ++ [Terminate]) = items :: chunks l2 ∧
    (last = Terminate ∧ l2 = [] ∨
     last ≠ Terminate ∧ ∃ l3, l2 = l3 ++ [Terminate] ∧ l3 `suffix_of` l).
Proof.
  intros Hl. revert p. induction Hl as [|e l He Hl IH]; intros p Hp; inversion Hp as [|? ? p1 ? ? [f Hf] Hp1]; subst.
  - exists (S f), [], Terminate, [], p1. cbn. rewrite Hf. split_and!; try done. by left.
  - destruct (value e) as [t|] eqn:Hv.
    + destruct (IH p1 Hp1) as (f2 & items & last & l2 & p2 & Hs & Hlast & Hem & Hc & Hend).
      exists (S (f `max` f2)), (t :: items), last, l2, p2. cbn -[chunks].
      rewrite (Step_fuel prev p e p1 f Hf (f `max` f2)) by lia. cbn -[chunks].
      assert (sequence_items prev (f `max` f2) p1 = Done (items, last, p2)) as Hs'.
      { apply fuel_le_done. rewrite <-Hs. apply sequence_items_mono. lia. }
      split_and!; try done.
      * destruct e; try done; injection Hv as ->; by rewrite Hs'.
      * by apply chunks_item.
      * destruct Hend as [?|[Hne (l3 & -> & Hsuf)]]; [by left|]. right. split; [done|]. exists l3.
        split; [done|]. by apply suffix_cons_r.
    + exists (S f), [], e, (l ++ [Terminate]), p1. cbn. rewrite Hf, Hv.
      split_and!; try done; [by destruct e|]. right. split; [done|]. exists l. split; [done|].
      by apply suffix_cons_r.
Qed.
End sequence.

(** ** The replicas of a host, under every interleaving *)
Section host.
Context {T : Type} `{!WriteOperator T} (prev : Operator T) (dest : ExecutionMetadata → FileSystem → path).

(** A replica of the block that writes: its metadata, and what it reads. *)
Record writer_job := mkWriterJob {
  wj_metadata : ExecutionMetadata;
  wj_stream : list (StreamElement T);
  wj_start : op_state prev;
  wj_end : op_state prev
}.
Definition wj_chunks (j : writer_job) : list (list T) := chunks (wj_stream j ++ [Terminate]).

Definition writers_state : Type := FileSystem * list (WriterOperator_state T * op_state prev).
Definition writers_act (jobs : list writer_job) (fuel : nat) (a : action) (st : writers_state) : outcome writers_state :=
  let '(fs, ops) := st in
  '(self, p) ← unwrap (ops !! act_replica a);
  match a with
  | SetUp i =>
      j ← unwrap (jobs !! i);
      '(self, fs) ← WriterOperator_setup (wj_metadata j) self fs;
      Done (fs, <[i := (self, p)]> ops)
  | Next i =>
      '(_, fs, q) ← WriterOperator_next prev fuel fs (self, p);
      Done (fs, <[i := q]> ops)
  end.
Fixpoint writers_run (jobs : list writer_job) (fuel : nat) (sched : list action) (st : writers_state)
    : outcome writers_state :=
  match sched with
  | [] => Done st
  | a :: sched => st ← writers_act jobs fuel a st; writers_run jobs fuel sched st
  end.
Definition writers_start (jobs : list writer_job) (fs : FileSystem) : writers_state :=
  (fs, (λ j, (WriterOperator_new dest, wj_start j)) <$> jobs).

(** Each replica is set up, and then called until it has read [Terminate]. *)
Definition writer_actions (i : nat) (j : writer_job) : list action :=
  SetUp i :: replicate (length (wj_chunks j)) (Next i).
Definition writers_interleaving (jobs : list writer_job) (sched : list action) : Prop :=
  (∀ i j, jobs !! i = Some j → base.filter (λ a, act_replica a = i) sched = writer_actions i j) ∧
  Forall (λ a, act_replica a < length jobs) sched.
End host.
Global Arguments mkWriterJob {_ _} _ _ _ _.
Global Arguments wj_metadata {_ _} _.
Global Arguments wj_stream {_ _} _.
Global Arguments wj_start {_ _} _.
Global Arguments wj_end {_ _} _.
Global Arguments wj_chunks {_ _} _.

(** ** What the writers leave behind *)
Section complete.
Context {T : Type} `{!WriteOperator T, !WriterLaws T} (prev : Operator T) `{!OperatorLaws prev}.
Context (dest : ExecutionMetadata → FileSystem → path)
  (Hdirs : ∀ m fs fs', directories fs' = directories fs → dest m fs' = dest m fs).
Context (jobs : list (writer_job prev)) (fs0 : FileSystem).

Definition wj_ok (j : writer_job prev) : Prop :=
  Forall (λ e, e ≠ Terminate) (wj_stream j) ∧ Forall writable (values (wj_stream j)) ∧
  emits prev (wj_start j) (wj_stream j ++ [Terminate]) (wj_end j).
(** The file of a replica, and its content at the start and at the end. *)
Definition wj_path (j : writer_job prev) : path := dest (wj_metadata j) fs0.
Definition wj_kept (j : writer_job prev) : list byte := w_kept (default [] (files fs0 !! wj_path j)).
Definition wj_content (j : writer_job prev) : list byte := wj_kept j ++ w_render (wj_kept j) (wj_chunks j).

(** Where a replica is, given the actions it still has to do. *)
Inductive writer_at (i : nat) (j : writer_job prev) (fs : FileSystem) :
    list action → WriterOperator_state T * op_state prev → Prop :=
| wat_start :
    files fs !! wj_path j = files fs0 !! wj_path j →
    writer_at i j fs (writer_actions prev i j) (WriterOperator_new dest, wj_start j)
| wat_work seen rest w p :
    wj_chunks j = seen ++ chunks (rest ++ [Terminate]) → rest `suffix_of` wj_stream j →
    w_open (wj_path j) (wj_kept j) seen w fs → emits prev p (rest ++ [Terminate]) (wj_end j) →
    writer_at i j fs (replicate (length (chunks (rest ++ [Terminate]))) (Next i)) (mkWriterOperator w None, p)
| wat_end w :
    files fs !! wj_path j = Some (wj_content j) →
    writer_at i j fs [] (mkWriterOperator w None, wj_end j).

Record writers_ok (sched : list action) (st : writers_state prev) : Prop := {
  ws_dirs : directories st.1 = directories fs0;
  ws_at (i : nat) j : jobs !! i = Some j →
    ∃ q, st.2 !! i = Some q ∧ writer_at i j st.1 (base.filter (λ a, act_replica a = i) sched) q;
  ws_others q : q ∉ wj_path <$> jobs → files st.1 !! q = files fs0 !! q;
  ws_known a : a ∈ sched → act_replica a < length jobs
}.

Lemma writer_at_frame i j q fs fs' acts s :
  fs_frame q fs fs' → wj_path j ≠ q → writer_at i j fs acts s → writer_at i j fs' acts s.
Proof.
  intros Hf Hne [Hs|seen rest w p Hc Hr Ho He|w Hw].
  - constructor. by rewrite (proj2 Hf).
  - by econstructor; [..|eapply w_open_frame|].
  - constructor. by rewrite (proj2 Hf).
Qed.

Context (Hjobs : Forall wj_ok jobs) (Hpaths : NoDup (wj_path <$> jobs))
  (Hopen : Forall (λ j, can_open (wj_path j) fs0) jobs).

Lemma wj_path_ne i k j jk : jobs !! i = Some j → jobs !! k = Some jk → i ≠ k → wj_path jk ≠ wj_path j.
Proof.
  intros Hi Hk Hne E. apply Hne. eapply (NoDup_lookup (wj_path <$> jobs)); [done| |];
    rewrite list_lookup_fmap; [by rewrite Hi|by rewrite Hk; cbn; rewrite E].
Qed.

(** A step of a replica that changes its own file only. *)
Lemma writers_ok_update i j q' a sched fs fs' ops :
  writers_ok (a :: sched) (fs, ops) → act_replica a = i → jobs !! i = Some j → i < length ops →
  fs_frame (wj_path j) fs fs' → writer_at i j fs' (base.filter (λ b, act_replica b = i) sched) q' →
  writers_ok sched (fs', <[i := q']> ops).
Proof.
  intros [Hd Ha Ho Hk] Ei Hj Hi Hf Hat. cbn in *. split; cbn.
  - by rewrite (proj1 Hf).
  - intros k jk Hjk. destruct (decide (i = k)) as [<-|Hne].
    + rewrite Hj in Hjk. injection Hjk as <-. exists q'. by rewrite list_lookup_insert_eq.
    + destruct (Ha k jk Hjk) as (qk & Hqk & Hatk). exists qk. rewrite list_lookup_insert_ne by done.
      split; [done|]. rewrite decide_False in Hatk by congruence.
      eapply writer_at_frame; [done|by eapply wj_path_ne|done].
  - intros q Hq. rewrite (proj2 Hf); [by apply Ho|]. intros ->. apply Hq, list_elem_of_fmap. exists j.
    split; [done|]. by eapply list_elem_of_lookup_2.
  - intros b Hb. apply Hk. by right.
Qed.

Lemma writers_setup_ok i sched st :
  writers_ok (SetUp i :: sched) st →
  ∃ st', writers_act prev jobs 0 (SetUp i) st = Done st' ∧ writers_ok sched st'.
Proof.
  destruct st as [fs ops]. intros Hok. pose proof Hok as [Hd Ha Ho Hk]. cbn in Hd.
  destruct (lookup_lt_is_Some_2 jobs i) as [j Hj]; [exact (Hk (SetUp i) ltac:(by left))|].
  destruct (Ha i j Hj) as (q & Hq & Hat). cbn in Hq. rewrite filter_cons_True in Hat by done.
  inversion Hat as [Hfs Hact Eq|? ? ? ? Hc _ _ _ Hact|]; subst q; cycle 1.
  { exfalso. by destruct (chunks (rest ++ [Terminate])). }
  destruct (Forall_lookup_1 _ _ _ _ Hjobs Hj) as (_ & _ & He).
  pose proof (Forall_lookup_1 _ _ _ _ Hopen Hj) as Hop. cbn in Hop, Hfs.
  destruct (w_setup_ok (wj_path j) fs) as (w & fs' & Hs & Hw & Hf); [unfold can_open in *; by rewrite Hd|].
  rewrite Hfs in Hw. cbn. rewrite Hq. cbn. rewrite Hj. cbn. rewrite (Hdirs _ fs0 fs Hd).
  fold (wj_path j). rewrite Hs. cbn. eexists. split; [done|].
  eapply writers_ok_update; try done; [by eapply lookup_lt_Some|]. rewrite <-Hact.
  by eapply (wat_work i j _ [] (wj_stream j)).
Qed.

Lemma writers_next_ok i sched st :
  writers_ok (Next i :: sched) st →
  ∃ f st', writers_act prev jobs f (Next i) st = Done st' ∧ writers_ok sched st'.
Proof.
  destruct st as [fs ops]. intros Hok. pose proof Hok as [Hd Ha Ho Hk]. cbn in Hd.
  destruct (lookup_lt_is_Some_2 jobs i) as [j Hj]; [exact (Hk (Next i) ltac:(by left))|].
  destruct (Forall_lookup_1 _ _ _ _ Hjobs Hj) as (Hnt & Hwr & _).
  destruct (Ha i j Hj) as (q & Hq & Hat). cbn in Hq. rewrite filter_cons_True in Hat by done.
  inversion Hat as [|seen rest w p Hc Hr Hw He Hact Eq|]; subst q. cbn in Hw.
  assert (Forall (λ e, e ≠ Terminate) rest) as Hnr by (destruct Hr as [k Er]; rewrite Er in Hnt; by apply Forall_app in Hnt as [_ ?]).
  destruct (sequence_items_emits prev rest p _ Hnr He) as (f & items & last & l2 & p2 & Hs & Hlast & Hem & Hch & Hend).
  assert (Forall writable items) as Hit.
  { rewrite <-chunks_values in Hwr. unfold wj_chunks in Hc. rewrite Hc, Hch, concat_app in Hwr. cbn in Hwr.
    by apply Forall_app in Hwr as [_ [? _]%Forall_app]. }
  destruct (w_write_ok _ _ _ items _ _ Hw Hit) as (w1 & fs1 & Hw1 & Ho1 & Hf1). cbn in Hf1.
  rewrite Hch in Hact, Hc. cbn in Hact. injection Hact as Hact. exists f. cbn. rewrite Hq. cbn. rewrite Hs. cbn. rewrite Hw1. cbn.
  assert (i < length ops) as Hi by (by eapply lookup_lt_Some).
  assert (∀ w2 fs2 l3, l2 = l3 ++ [Terminate] → l3 `suffix_of` rest → fs_frame (wj_path j) fs1 fs2 →
    w_open (wj_path j) (wj_kept j) (seen ++ [items]) w2 fs2 →
    writers_ok sched (fs2, <[i := (mkWriterOperator w2 None, p2)]> ops)) as Hstay.
  { intros w2 fs2 l3 -> Hsuf Hf2 Ho2. eapply writers_ok_update; try done; [by etrans|].
    rewrite <-Hact. eapply (wat_work i j _ (seen ++ [items]) l3); [by rewrite <-app_assoc|by etrans|done..]. }
  destruct (w_flush_ok _ _ _ _ _ Ho1) as (w2 & fs2 & Hw2 & Ho2 & Hf2).
  destruct Hend as [[-> ->]|(Hne & l3 & El & Hsuf)].
  - destruct (w_finalize_ok _ _ _ _ _ Ho1) as (w3 & fs3 & Hw3 & Hc3 & Hf3). rewrite Hw3. cbn.
    eexists. split; [done|]. inversion Hem; subst. eapply writers_ok_update; try done; [by etrans|].
    rewrite <-Hact. apply wat_end. unfold wj_content. by rewrite Hc.
  - destruct last; try done; cbn; rewrite ?Hw2; cbn; eexists; (split; [done|]); by eapply Hstay.
Qed.

Lemma writers_act_mono f f' a st :
  f ≤ f' → fuel_le (writers_act prev jobs f a st) (writers_act prev jobs f' a st).
Proof.
  intros Hle. destruct st as [fs ops]. unfold writers_act.
  apply fuel_le_bind; [apply fuel_le_refl|]. intros [self p]. destruct a as [i|i]; [apply fuel_le_refl|].
  apply fuel_le_bind; [|intros; apply fuel_le_refl].
  apply fuel_le_bind; [by apply sequence_items_mono|]. intros. apply fuel_le_refl.
Qed.
Lemma writers_run_mono f f' sched st :
  f ≤ f' → fuel_le (writers_run prev jobs f sched st) (writers_run prev jobs f' sched st).
Proof.
  intros Hle. revert st. induction sched as [|a sched IH]; intros st; cbn; [apply fuel_le_refl|].
  apply fuel_le_bind; [by apply writers_act_mono|done].
Qed.
Lemma writers_run_ok sched st :
  writers_ok sched st → ∃ f st', writers_run prev jobs f sched st = Done st' ∧ writers_ok [] st'.
Proof.
  revert st. induction sched as [|a sched IH]; intros st Hok; [by exists 0, st|].
  assert (∃ f st1, writers_act prev jobs f a st = Done st1 ∧ writers_ok sched st1) as (f1 & st1 & H1 & Hok1).
  { destruct a as [i|i]; [|by apply writers_next_ok]. exists 0. by apply writers_setup_ok. }
  destruct (IH st1 Hok1) as (f2 & st2 & H2 & Hok2). exists (f1 `max` f2), st2. split; [|done]. cbn.
  assert (writers_act prev jobs (f1 `max` f2) a st = Done st1) as ->.
  { apply fuel_le_done. rewrite <-H1. apply writers_act_mono. lia. }
  cbn. apply fuel_le_done. rewrite <-H2. apply writers_run_mono. lia.
Qed.

(** The replicas run to the end, each file is complete, and no other file has changed. *)
Lemma writers_complete sched :
  writers_interleaving prev jobs sched →
  ∃ f fs ops, writers_run prev jobs f sched (writers_start prev dest jobs fs0) = Done (fs, ops) ∧
    directories fs = directories fs0 ∧
    (∀ j, j ∈ jobs → files fs !! wj_path j = Some (wj_content j)) ∧
    (∀ q, q ∉ wj_path <$> jobs → files fs !! q = files fs0 !! q).
Proof.
  intros [Hs Hk]. destruct (writers_run_ok sched (writers_start prev dest jobs fs0)) as (f & [fs ops] & Hrun & [Hd Ha Ho _]).
  - split; cbn; [done| |done|by apply Forall_forall].
    intros i j Hj. rewrite (Hs i j Hj), list_lookup_fmap, Hj. cbn. eexists. split; [done|]. by constructor.
  - exists f, fs, ops. split_and!; [done..| |done].
    intros j [i Hi]%list_elem_of_lookup. destruct (Ha i j Hi) as (q & _ & Hat).
    inversion Hat as [|? rest ? ? Hc ? ? ? Hact|]; subst; [|done].
    exfalso. pose proof (chunks_ne rest). by destruct (chunks (rest ++ [Terminate])).
Qed.
End complete.

(** ** Opening files *)

(** [File::options().write(true).create(true)] with [truncate], or [append]. *)
Definition file_open (truncate : bool) (p : path) (fs : FileSystem) : option FileSystem :=
  if decide (can_open p fs) then
    Some (mkFileSystem (directories fs)
      (<[p := if truncate then [] else default [] (files fs !! p)]> (files fs)))
  else None.
(** [file.metadata().unwrap().len()]. *)
Definition file_len (p : path) (fs : FileSystem) : nat := length (default [] (files fs !! p)).

Lemma file_open_ok truncate p fs :
  can_open p fs →
  ∃ fs', file_open truncate p fs = Some fs' ∧ fs_frame p fs fs' ∧
    files fs' !! p = Some (if truncate then [] else default [] (files fs !! p)).
Proof.
  intros Ho. unfold file_open. rewrite decide_True by done. eexists. split; [done|]. split; [|cbn; by rewrite lookup_insert_eq].
  split; [done|]. intros q Hq. cbn. by rewrite lookup_insert_ne.
Qed.

(** ** [CsvWriteOp] *)

(** [csv::Writer<BufWriter<File>>] of the [csv] crate: [WriterBuilder::has_headers] and [from_writer], [serialize],
    [flush], and the flush when it is dropped. *)
Class CsvWriter (T : Type) := {
  csv_writer : Type;
  csv_from_writer : bool → BufWriter → csv_writer;
  csv_serialize : T → csv_writer → FileSystem → option (csv_writer * FileSystem);
  csv_flush : csv_writer → FileSystem → csv_writer * FileSystem;
  csv_drop : csv_writer → FileSystem → FileSystem
}.
Global Arguments csv_writer _ {_}.
(** The documentation: with [has_headers] a header is written before the first record; a record is what
    the fields give; everything is in the file after a flush. *)
Class CsvWriterLaws (T : Type) `{!CsvWriter T} := {
  csv_serializable : T → Prop;
  csv_header : T → list byte;
  csv_record : T → list byte;
  (** the file at the path will contain this once the writer is flushed; the flag: a header is due *)
  csv_at : path → bool → list byte → csv_writer T → FileSystem → Prop;
  csv_from_writer_ok p h c fs : files fs !! p = Some c → csv_at p h c (csv_from_writer h (mkBufWriter p [])) fs;
  csv_serialize_ok p h c t w fs : csv_at p h c w fs → csv_serializable t →
    ∃ w' fs', csv_serialize t w fs = Some (w', fs') ∧
      csv_at p false (c ++ (if h then csv_header t else []) ++ csv_record t) w' fs' ∧ fs_frame p fs fs';
  csv_flush_ok p h c w fs : csv_at p h c w fs →
    csv_at p h c (csv_flush w fs).1 (csv_flush w fs).2 ∧ files (csv_flush w fs).2 !! p = Some c ∧
    fs_frame p fs (csv_flush w fs).2;
  csv_drop_ok p h c w fs : csv_at p h c w fs →
    files (csv_drop w fs) !! p = Some c ∧ fs_frame p fs (csv_drop w fs);
  csv_at_frame p q h c w fs fs' : fs_frame q fs fs' → p ≠ q → csv_at p h c w fs → csv_at p h c w fs'
}.

Record CsvWriteOp_state (T : Type) `{!CsvWriter T} := mkCsvWriteOp {
  cw_append : bool;
  cw_path : option path;
  cw_writer : option (csv_writer T)
}.
Global Arguments mkCsvWriteOp {_ _} _ _ _.
Global Arguments cw_append {_ _} _.
Global Arguments cw_path {_ _} _.
Global Arguments cw_writer {_ _} _.

Section csv.
Context {T : Type} `{!CsvWriter T}.

(** [CsvWriteOp::new], and its clones. *)
Definition CsvWriteOp_new (append : bool) : CsvWriteOp_state T := mkCsvWriteOp append None None.
Definition CsvWriteOp_setup (destination : path) (self : CsvWriteOp_state T) (fs : FileSystem)
    : outcome (CsvWriteOp_state T * FileSystem) :=
  fs ← unwrap (file_open (negb (cw_append self)) destination fs);
  let w := csv_from_writer (file_len destination fs =? 0) (mkBufWriter destination []) in
  Done (mkCsvWriteOp (cw_append self) (Some destination) (Some w), fs).
Fixpoint CsvWriteOp_write (items : list T) (self : CsvWriteOp_state T) (fs : FileSystem)
    : outcome (CsvWriteOp_state T * FileSystem) :=
  match items with
  | [] => Done (self, fs)
  | item :: items =>
      w ← unwrap (cw_writer self);
      '(w, fs) ← unwrap (csv_serialize item w fs);
      CsvWriteOp_write items (mkCsvWriteOp (cw_append self) (cw_path self) (Some w)) fs
  end.
Definition CsvWriteOp_flush (self : CsvWriteOp_state T) (fs : FileSystem)
    : outcome (CsvWriteOp_state T * FileSystem) :=
  w ← unwrap (cw_writer self);
  let '(w, fs) := csv_flush w fs in
  Done (mkCsvWriteOp (cw_append self) (cw_path self) (Some w), fs).
(** The writer that is taken is dropped. *)
Definition CsvWriteOp_finalize (self : CsvWriteOp_state T) (fs : FileSystem)
    : outcome (CsvWriteOp_state T * FileSystem) :=
  let fs := match cw_writer self with Some w => csv_drop w fs | None => fs end in
  Done (mkCsvWriteOp (cw_append self) (cw_path self) None, fs).

Definition CsvWriteOp (append : bool) : WriteOperator T := {|
  writer := CsvWriteOp_state T; w_new := CsvWriteOp_new append;
  w_setup := CsvWriteOp_setup; w_write := CsvWriteOp_write;
  w_flush := CsvWriteOp_flush; w_finalize := CsvWriteOp_finalize
|}.

Context `{!CsvWriterLaws T}.

(** The header of a file that was empty, and the records. *)
Definition csv_text (c : list byte) (items : list T) : list byte :=
  match items with
  | [] => []
  | t :: _ => (if length c =? 0 then csv_header t else []) ++ concat (csv_record <$> items)
  end.
Lemma csv_text_snoc c items t :
  csv_text c (items ++ [t]) =
    csv_text c items ++ (if (length c =? 0) && bool_decide (items = []) then csv_header t else []) ++ csv_record t.
Proof.
  destruct items as [|x items]; cbn.
  - rewrite andb_true_r. by rewrite app_nil_r.
  - rewrite andb_false_r. cbn. by rewrite fmap_app, concat_app, <-!app_assoc; cbn; rewrite app_nil_r.
Qed.

Definition csv_open (p : path) (c : list byte) (cs : list (list T)) (w : CsvWriteOp_state T) (fs : FileSystem) : Prop :=
  ∃ cw, cw_writer w = Some cw ∧
    csv_at p ((length c =? 0) && bool_decide (concat cs = [])) (c ++ csv_text c (concat cs)) cw fs.

Lemma CsvWriteOp_write_ok p c seen items append q cw fs :
  csv_at p ((length c =? 0) && bool_decide (seen = [])) (c ++ csv_text c seen) cw fs → Forall csv_serializable items →
  ∃ cw' fs', CsvWriteOp_write items (mkCsvWriteOp append q (Some cw)) fs = Done (mkCsvWriteOp append q (Some cw'), fs') ∧
    csv_at p ((length c =? 0) && bool_decide (seen ++ items = [])) (c ++ csv_text c (seen ++ items)) cw' fs' ∧
    fs_frame p fs fs'.
Proof.
  intros Hat Hi. revert seen cw fs Hat. induction Hi as [|t items Ht _ IH]; intros seen cw fs Hat.
  { exists cw, fs. rewrite app_nil_r. done. }
  destruct (csv_serialize_ok _ _ _ _ _ _ Hat Ht) as (cw1 & fs1 & Hs & Hat1 & Hf1).
  destruct (IH (seen ++ [t]) cw1 fs1) as (cw2 & fs2 & Hw & Hat2 & Hf2).
  { rewrite csv_text_snoc, <-app_assoc in *. rewrite bool_decide_eq_false_2 by (by destruct seen). by rewrite andb_false_r. }
  exists cw2, fs2. cbn. rewrite Hs. cbn. rewrite Hw. rewrite <-app_assoc in Hat2. split_and!; [done..|]. by etrans.
Qed.

Definition CsvWriteOp_laws (append : bool) : @WriterLaws T (CsvWriteOp append).
Proof.
  refine (@Build_WriterLaws T (CsvWriteOp append) csv_serializable (λ old, if append then old else [])
    (λ c cs, csv_text c (concat cs)) csv_open _ _ _ _ _).
  - intros p fs Ho. destruct (file_open_ok (negb append) p fs Ho) as (fs' & Hop & Hf & Hc).
    cbn. unfold CsvWriteOp_setup. cbn. rewrite Hop. cbn. eexists _, fs'. split; [done|]. split; [|done].
    eexists. split; [done|]. unfold file_len. rewrite Hc. cbn. rewrite andb_true_r, app_nil_r.
    destruct append; cbn in *; by apply csv_from_writer_ok.
  - intros p c cs items [ap q cw] fs (cw' & [= ->] & Hat) Hi.
    destruct (CsvWriteOp_write_ok p c (concat cs) items ap q cw' fs Hat Hi) as (cw2 & fs2 & Hw & Hat2 & Hf).
    eexists _, fs2. split; [exact Hw|]. split; [|done]. exists cw2. by rewrite concat_app; cbn; rewrite app_nil_r.
  - intros p c cs w fs (cw & Hw & Hat). destruct (csv_flush_ok _ _ _ _ _ Hat) as (Hat' & _ & Hf).
    cbn. unfold CsvWriteOp_flush. rewrite Hw. cbn. destruct (csv_flush cw fs) as [cw' fs'].
    eexists _, fs'. split; [done|]. split; [|done]. by exists cw'.
  - intros p c cs w fs (cw & Hw & Hat). destruct (csv_drop_ok _ _ _ _ _ Hat) as [Hc Hf].
    eexists _, _. cbn. unfold CsvWriteOp_finalize. rewrite Hw. by split_and!.
  - intros p q c cs w fs fs' Hf Hne (cw & Hw & Hat). exists cw. split; [done|]. by eapply csv_at_frame.
Defined.
End csv.

(** ** [AvroSink] *)

(** [apache_avro::Writer<&mut BufWriter<File>>]: [Writer::new], [append_ser], [flush], and the buffered writer it gives
    back when its borrow ends. *)
Class AvroWriter (T : Type) := {
  avro_writer : Type;
  avro_new : BufWriter → avro_writer;
  avro_append_ser : T → avro_writer → FileSystem → option (avro_writer * FileSystem);
  avro_flush : avro_writer → FileSystem → option (avro_writer * FileSystem);
  avro_inner : avro_writer → BufWriter
}.
Global Arguments avro_writer _ {_}.
(** The documentation: a writer that is flushed has written a container, a header and the blocks of what was
    appended since it was made, to the inner writer. *)
Class AvroWriterLaws (T : Type) `{!AvroWriter T} := {
  avro_serializable : T → Prop;
  avro_container : list T → list byte;
  (** made on a buffered writer of the file at the path, the content of which is to be this, and given these items *)
  avro_at : path → list byte → list T → avro_writer T → FileSystem → Prop;
  avro_new_ok b fs : is_Some (files fs !! bw_path b) → avro_at (bw_path b) (bw_content b fs) [] (avro_new b) fs;
  avro_append_ok p c l t w fs : avro_at p c l w fs → avro_serializable t →
    ∃ w' fs', avro_append_ser t w fs = Some (w', fs') ∧ avro_at p c (l ++ [t]) w' fs' ∧ fs_frame p fs fs';
  avro_flush_ok p c l w fs : avro_at p c l w fs →
    ∃ w' fs', avro_flush w fs = Some (w', fs') ∧ bw_path (avro_inner w') = p ∧ is_Some (files fs' !! p) ∧
      bw_content (avro_inner w') fs' = c ++ avro_container l ∧ fs_frame p fs fs'
}.

Record AvroSink_state := mkAvroSink { av_writer : option BufWriter }.

Section avro.
Context {T : Type} `{!AvroWriter T}.

Definition AvroSink_new : AvroSink_state := mkAvroSink None.
Definition AvroSink_setup (destination : path) (_ : AvroSink_state) (fs : FileSystem)
    : outcome (AvroSink_state * FileSystem) :=
  fs ← unwrap (file_open true destination fs);
  Done (mkAvroSink (Some (mkBufWriter destination [])), fs).
Fixpoint avro_append_all (items : list T) (w : avro_writer T) (fs : FileSystem)
    : outcome (avro_writer T * FileSystem) :=
  match items with
  | [] => Done (w, fs)
  | item :: items => '(w, fs) ← unwrap (avro_append_ser item w fs); avro_append_all items w fs
  end.
Definition AvroSink_write (items : list T) (self : AvroSink_state) (fs : FileSystem)
    : outcome (AvroSink_state * FileSystem) :=
  b ← unwrap (av_writer self);
  '(w, fs) ← avro_append_all items (avro_new b) fs;
  '(w, fs) ← unwrap (avro_flush w fs);
  Done (mkAvroSink (Some (avro_inner w)), fs).
Definition AvroSink_flush (self : AvroSink_state) (fs : FileSystem) : outcome (AvroSink_state * FileSystem) :=
  Done (self, fs).
Definition AvroSink_finalize (self : AvroSink_state) (fs : FileSystem) : outcome (AvroSink_state * FileSystem) :=
  match av_writer self with
  | Some b => let '(_, fs) := bw_flush b fs in Done (mkAvroSink None, fs)
  | None => Done (self, fs)
  end.

Definition AvroSink : WriteOperator T := {|
  writer := AvroSink_state; w_new := AvroSink_new;
  w_setup := AvroSink_setup; w_write := AvroSink_write;
  w_flush := AvroSink_flush; w_finalize := AvroSink_finalize
|}.

Context `{!AvroWriterLaws T}.

Lemma avro_append_all_ok p c l items w fs :
  avro_at p c l w fs → Forall avro_serializable items →
  ∃ w' fs', avro_append_all items w fs = Done (w', fs') ∧ avro_at p c (l ++ items) w' fs' ∧ fs_frame p fs fs'.
Proof.
  intros Hat Hi. revert l w fs Hat. induction Hi as [|t items Ht _ IH]; intros l w fs Hat.
  { exists w, fs. by rewrite app_nil_r. }
  destruct (avro_append_ok _ _ _ _ _ _ Hat Ht) as (w1 & fs1 & Ha & Hat1 & Hf1).
  destruct (IH _ _ _ Hat1) as (w2 & fs2 & Hw & Hat2 & Hf2). exists w2, fs2. cbn. rewrite Ha. cbn.
  rewrite <-app_assoc in Hat2. split_and!; [done..|by etrans].
Qed.

(** Every call of [write] leaves a container of its own. *)
Definition avro_open (p : path) (c : list byte) (cs : list (list T)) (w : AvroSink_state) (fs : FileSystem) : Prop :=
  ∃ b, av_writer w = Some b ∧ bw_path b = p ∧ is_Some (files fs !! p) ∧
    bw_content b fs = c ++ concat (avro_container <$> cs).

Definition AvroSink_laws : @WriterLaws T AvroSink.
Proof.
  refine (@Build_WriterLaws T AvroSink avro_serializable (λ _, []) (λ _ cs, concat (avro_container <$> cs)) avro_open _ _ _ _ _).
  - intros p fs Ho. destruct (file_open_ok true p fs Ho) as (fs' & Hop & Hf & Hc).
    cbn. unfold AvroSink_setup. rewrite Hop. cbn. eexists _, fs'. split; [done|]. split; [|done].
    eexists. split; [done|]. rewrite Hc. split_and!; [done..|]. unfold bw_content. cbn. by rewrite Hc.
  - intros p c cs items w fs (b & Hb & <- & Hex & Hc) Hi. cbn. unfold AvroSink_write. rewrite Hb. cbn.
    destruct (avro_append_all_ok _ _ _ _ _ _ (avro_new_ok b fs Hex) Hi) as (w1 & fs1 & Ha & Hat & Hf1).
    destruct (avro_flush_ok _ _ _ _ _ Hat) as (w2 & fs2 & Hfl & Hp & Hex2 & Hc2 & Hf2).
    rewrite Ha. cbn. rewrite Hfl. cbn. eexists _, fs2. split; [done|]. split; [|by etrans].
    eexists. split; [done|]. split_and!; [done..|]. rewrite Hc2, Hc, fmap_app, concat_app. cbn.
    by rewrite app_nil_r, <-app_assoc.
  - intros p c cs w fs Ho. by exists w, fs.
  - intros p c cs w fs (b & Hb & <- & Hex & Hc). cbn. unfold AvroSink_finalize. rewrite Hb. cbn.
    eexists _, _. split; [done|]. split; [|apply file_append_frame]. cbn. rewrite lookup_insert_eq.
    unfold bw_content in Hc. by rewrite Hc.
  - intros p q c cs w fs fs' [_ Hf] Hne (b & Hb & <- & Hex & Hc). exists b. unfold bw_content in *.
    by rewrite !Hf by done.
Defined.
End avro.

(** ** [write_csv_seq] and [write_avro_seq] *)

(** The destination of [write_csv_seq], [write_avro_seq] and [write_parquet_seq]. *)
Definition seq_destination (template_path : path) : ExecutionMetadata → FileSystem → path :=
  λ m fs, sequential_path template_path fs m.
(** The destinations of [write_csv] and [write_avro], and of [write_csv_one] and [write_avro_one]. *)
Definition made_destination (make_path : N → path) : ExecutionMetadata → FileSystem → path :=
  λ metadata _, make_path (em_global_id metadata).
Definition one_destination (p : path) : ExecutionMetadata → FileSystem → path := λ _ _, p.

(** A template path the replicas of a host can use: the files are to be in a directory, and none of them is one. *)
Definition template_ok (base : path) (fs : FileSystem) (mds : list ExecutionMetadata) : Prop :=
  (is_dir base fs = false → base.1 ∈ directories fs) ∧
  Forall (λ m, path_str (sequential_path base fs m) ∉ directories fs) mds.

Section sequential.
Context {T : Type} `{!WriteOperator T, !WriterLaws T} (prev : Operator T) `{!OperatorLaws prev}.
Context (base : path) (fs0 : FileSystem) (jobs : list (writer_job prev)).

Lemma sequential_complete sched :
  template_ok base fs0 (wj_metadata <$> jobs) → NoDup (em_global_id ∘ wj_metadata <$> jobs) →
  Forall (wj_ok prev) jobs → writers_interleaving prev jobs sched →
  ∃ f fs ops, writers_run prev jobs f sched (writers_start prev (seq_destination base) jobs fs0) = Done (fs, ops) ∧
    directories fs = directories fs0 ∧
    (∀ j, j ∈ jobs → files fs !! sequential_path base fs0 (wj_metadata j) =
       Some (wj_content prev (seq_destination base) fs0 j)) ∧
    (∀ q, q ∉ sequential_path base fs0 ∘ wj_metadata <$> jobs → files fs !! q = files fs0 !! q).
Proof.
  intros [Hd Ht] Hnd Hok Hs. apply (writers_complete prev (seq_destination base)); try done.
  - intros m fs fs' E. by apply sequential_path_dirs.
  - change (NoDup (sequential_path base fs0 ∘ wj_metadata <$> jobs)). rewrite (list_fmap_compose wj_metadata).
    rewrite (list_fmap_compose wj_metadata) in Hnd. revert Hnd. generalize (wj_metadata <$> jobs). intros ms Hnd.
    apply NoDup_fmap_2_strong; [|by eapply NoDup_fmap_1]. intros m m' Hm Hm' E%sequential_path_inj.
    apply list_elem_of_lookup in Hm as [i Hi], Hm' as [k Hk].
    assert (i = k) as <-; [|congruence]. eapply (NoDup_lookup (em_global_id <$> ms)); [done| |];
      rewrite list_lookup_fmap; [by rewrite Hi|by rewrite Hk; cbn; rewrite E].
  - rewrite Forall_forall in Ht. apply Forall_forall. intros j Hj.
    split; [|by apply (Ht (wj_metadata j)), list_elem_of_fmap_2].
    unfold wj_path, seq_destination, sequential_path. destruct (is_dir base fs0) eqn:E; [|by apply Hd].
    by apply bool_decide_eq_true in E.
Qed.
End sequential.

(** C32. [write_csv_seq]: whatever the interleaving of the replicas of a host, each runs to the end without a panic
    and leaves, in a file that only it writes to, what was there before (if it appends), a header if that
    was nothing, and the records of all the items of its stream in their order, whatever watermarks, flushes
    and ends of rounds come in between; no other file has changed. *)
Theorem write_csv_seq_files {T} `{!CsvWriter T, !CsvWriterLaws T} (append : bool) (prev : Operator T) `{!OperatorLaws prev}
    base fs0 jobs sched :
  let _ := CsvWriteOp append in let _ := CsvWriteOp_laws append in
  template_ok base fs0 (wj_metadata <$> jobs) → NoDup (em_global_id ∘ wj_metadata <$> jobs) →
  Forall (wj_ok prev) jobs → writers_interleaving prev jobs sched →
  ∃ f fs ops, writers_run prev jobs f sched (writers_start prev (seq_destination base) jobs fs0) = Done (fs, ops) ∧
    (∀ j, j ∈ jobs →
       let p := sequential_path base fs0 (wj_metadata j) in
       let kept := if append then default [] (files fs0 !! p) else [] in
       files fs !! p = Some (kept ++ csv_text kept (values (wj_stream j)))) ∧
    (∀ q, q ∉ sequential_path base fs0 ∘ wj_metadata <$> jobs → files fs !! q = files fs0 !! q).
Proof.
  intros W L Ht Hnd Hok Hs. destruct (sequential_complete prev base fs0 jobs sched Ht Hnd Hok Hs)
    as (f & fs & ops & Hrun & _ & Hfiles & Hothers). exists f, fs, ops. split_and!; [done| |done].
  intros j Hj p kept. unfold p. rewrite (Hfiles j Hj). unfold wj_content, wj_kept. cbn.
  unfold wj_chunks. rewrite chunks_values. done.
Qed.

(** [write_avro_seq]: the file of a replica is one container per run of items between elements that carry none,
    not one container of all items. *)
Theorem write_avro_seq_files {T} `{!AvroWriter T, !AvroWriterLaws T} (prev : Operator T) `{!OperatorLaws prev}
    base fs0 jobs sched :
  let _ := AvroSink in let _ := AvroSink_laws in
  template_ok base fs0 (wj_metadata <$> jobs) → NoDup (em_global_id ∘ wj_metadata <$> jobs) →
  Forall (wj_ok prev) jobs → writers_interleaving prev jobs sched →
  ∃ f fs ops, writers_run prev jobs f sched (writers_start prev (seq_destination base) jobs fs0) = Done (fs, ops) ∧
    (∀ j, j ∈ jobs → files fs !! sequential_path base fs0 (wj_metadata j) =
       Some (concat (avro_container <$> chunks (wj_stream j ++ [Terminate])))) ∧
    (∀ q, q ∉ sequential_path base fs0 ∘ wj_metadata <$> jobs → files fs !! q = files fs0 !! q).
Proof.
  intros W L Ht Hnd Hok Hs. destruct (sequential_complete prev base fs0 jobs sched Ht Hnd Hok Hs)
    as (f & fs & ops & Hrun & _ & Hfiles & Hothers). by exists f, fs, ops.
Qed.

(** ** An instance: numbers in one column, two replicas *)
Module WritersExample.
Definition text (l : list ascii) : list byte := byte_of_ascii <$> l.
Definition newline : list byte := [x0a].
Definition column : list byte := text (list_ascii_of_string "n") ++ newline.
Definition row (n : N) : list byte := text (format_padded 1 n) ++ newline.
#[local] Instance numbers : CsvWriter N := {|
  csv_writer := bool * BufWriter;
  csv_from_writer h b := (h, b);
  csv_serialize t w fs :=
    let '(b, fs) := bw_write_all ((if w.1 : bool then column else []) ++ row t) w.2 fs in Some ((false, b), fs);
  csv_flush w fs := let '(b, fs) := bw_flush w.2 fs in ((w.1, b), fs);
  csv_drop w fs := (bw_flush w.2 fs).2
|}.
#[local] Instance numbers_laws : CsvWriterLaws N.
Proof.
  refine {| csv_serializable _ := True; csv_header _ := column; csv_record := row;
    csv_at p h c w fs := w.1 = h ∧ bw_path w.2 = p ∧ is_Some (files fs !! p) ∧ bw_content w.2 fs = c |}.
  - intros p h c fs Hc. split_and!; [done..|by rewrite Hc|]. unfold bw_content. cbn. rewrite Hc. apply app_nil_r.
  - intros p h c t [? b] fs (Eh & <- & Hex & <-) _. cbn in *. subst.
    destruct (bw_write_all_spec ((if h then column else []) ++ row t) b fs) as (Hp & Hc & Hf).
    pose proof (bw_write_all_exists ((if h then column else []) ++ row t) b fs Hex) as Hex'.
    destruct (bw_write_all _ b fs) as [b' fs']. eexists _, _. by split_and!.
  - intros p h c [? b] fs (<- & <- & Hex & <-). cbn. destruct (bw_flush_spec b fs) as (Hp & He & Hc & Hf).
    split_and!; try done; rewrite lookup_insert_eq; done.
  - intros p h c [? b] fs (<- & <- & Hex & <-). split; [cbn; by rewrite lookup_insert_eq|apply file_append_frame].
  - intros p q h c w fs fs' [_ Hf] Hne (<- & <- & Hex & <-). unfold bw_content. by rewrite !Hf by done.
Defined.

Definition str (s : string) : list ascii := list_ascii_of_string s.
Definition base : path := (str "/data", str "out.csv").
Definition out (s : string) : path := (str "/data", str s).
Definition md (id : N) : ExecutionMetadata := mkExecutionMetadata (mkCoord 3 0 id) [] id [] Single.
Definition fs0 : FileSystem := mkFileSystem {[str "/data"]} {[out "out0001.csv" := text (str "n") ++ newline ++ text (str "7") ++ newline]}.
Definition the_job (id : N) (l : list (StreamElement N)) : writer_job (FakeOperator N) :=
  mkWriterJob (prev := FakeOperator N) (md id) l (l ++ [Terminate]) [].
Definition jobs : list (writer_job (FakeOperator N)) :=
  [the_job 0 [Item 1%N; FlushBatch; Timestamped 20%N 5; Watermark 5; FlushAndRestart]; the_job 1 [Item 3%N; FlushAndRestart]].
(** The second replica ends before the first has written anything. *)
Definition schedule : list action := [SetUp 0; SetUp 1; Next 1; Next 0; Next 1] ++ replicate 3 (Next 0).

Lemma jobs_run (W : WriteOperator N) (L : WriterLaws N) :
  (∀ x, writable x) → Forall (wj_ok (FakeOperator N)) jobs ∧ writers_interleaving (FakeOperator N) jobs schedule.
Proof.
  intros Hw. split; [|split; [|by repeat constructor; cbn; lia]].
  - apply Forall_cons; split; [|apply Forall_singleton]; (split; [by repeat (apply Forall_cons; split; [done|])|]);
      (split; [by apply Forall_true|apply FakeOperator_emits_all]).
  - by intros [|[|i]] j Hj; simplify_eq/=.
Qed.

Lemma write_csv_seq_files_witness :
  let _ := CsvWriteOp (T := N) true in
  ∃ f fs ops, writers_run (FakeOperator N) jobs f schedule
      (writers_start (FakeOperator N) (seq_destination base) jobs fs0) = Done (fs, ops) ∧
    files fs !! out "out0000.csv" = Some (column ++ row 1 ++ row 20) ∧
    files fs !! out "out0001.csv" = Some (column ++ row 7 ++ row 3).
Proof.
  intros W. assert (∀ x, @writable N W (CsvWriteOp_laws true) x) as Hw by (intros x; exact I).
  destruct (jobs_run W (CsvWriteOp_laws true) Hw) as [Hok Hs].
  destruct (write_csv_seq_files true (FakeOperator N) base fs0 jobs schedule) as (f & fs & ops & Hrun & Hfiles & _).
  - split; [intros _; cbn; set_solver|]. repeat constructor; apply (bool_decide_unpack _); vm_compute; done.
  - apply (bool_decide_unpack _). vm_compute. done.
  - exact Hok.
  - exact Hs.
  - exists f, fs, ops. split; [done|]. split.
    + exact (Hfiles (the_job 0 _) ltac:(by left)).
    + exact (Hfiles (the_job 1 _) ltac:(by right; left)).
Defined.

(** A container format: a mark, and the rows. *)
Definition container (l : list N) : list byte :=
  match l with [] => [] | _ => text (str "Obj") ++ concat (row <$> l) end.
#[local] Instance containers : AvroWriter N := {|
  avro_writer := list N * BufWriter;
  avro_new b := ([], b);
  avro_append_ser t w fs := Some ((w.1 ++ [t], w.2), fs);
  avro_flush w fs := let '(b, fs) := bw_write_all (container w.1) w.2 fs in Some (([], b), fs);
  avro_inner w := w.2
|}.
#[local] Instance containers_laws : AvroWriterLaws N.
Proof.
  refine {| avro_serializable _ := True; avro_container := container;
    avro_at p c l w fs := w.1 = l ∧ bw_path w.2 = p ∧ is_Some (files fs !! p) ∧ bw_content w.2 fs = c |}.
  - intros b fs Hex. by split_and!.
  - intros p c l t [? b] fs (<- & <- & Hex & <-) _. eexists _, _. by split_and!.
  - intros p c l [? b] fs (<- & <- & Hex & <-). cbn in *.
    destruct (bw_write_all_spec (container l0) b fs) as (Hp & Hc & Hf).
    pose proof (bw_write_all_exists (container l0) b fs Hex) as Hex'.
    destruct (bw_write_all _ b fs) as [b' fs']. eexists _, _. by split_and!.
Defined.

(** The items before and after a [FlushBatch] are in two containers, the second in the middle of the file. *)
Lemma avro_two_containers :
  let _ := AvroSink (T := N) in
  ∃ f fs ops, writers_run (FakeOperator N) jobs f schedule
      (writers_start (FakeOperator N) (seq_destination base) jobs fs0) = Done (fs, ops) ∧
    files fs !! out "out0000.csv" = Some (container [1%N] ++ container [20%N]).
Proof.
  intros W. assert (∀ x, @writable N W AvroSink_laws x) as Hw by (intros x; exact I).
  destruct (jobs_run W AvroSink_laws Hw) as [Hok Hs].
  destruct (write_avro_seq_files (FakeOperator N) base fs0 jobs schedule) as (f & fs & ops & Hrun & Hfiles & _).
  - split; [intros _; cbn; set_solver|]. repeat constructor; apply (bool_decide_unpack _); vm_compute; done.
  - apply (bool_decide_unpack _). vm_compute. done.
  - exact Hok.
  - exact Hs.
  - exists f, fs, ops. split; [done|]. exact (Hfiles (the_job 0 _) ltac:(by left)).
Qed.
End WritersExample.
