(* ===== verification/Environment.v ===== *)
(** * From a program to the job graph

    [src/src/environment.rs], [src/src/stream.rs] and the stream methods that change the
    graph of blocks: a program starts streams, transforms, splits, joins, routes and
    iterates them, and ends each with a sink; the context numbers the blocks, closes them
    and connects them in the scheduler.

    A stream is represented by its open block; the chain of operators inside a block only
    matters here through the type of what it produces, given by its [TypeId].  A program is a list of
    operations on the streams it holds, named by the blocks they end in; that a stream is
    moved into the method that consumes it makes it disappear from the open ones. *)
From S2P Require Import Prelude StreamElement Operator Frontier Batcher Start Config Topology.
From S2P Require Import Scheduler.

(** [struct Block]. *)
Record Block := mkBlock {
  b_id : BlockId;
  b_out : N;
  b_batch_mode : BatchMode;
  b_iteration_ctx : list N;
  b_only_one : bool;
  b_replication : Replication
}.
(** [Block::new]. *)
Definition Block_new (id : BlockId) (out : N) (batch_mode : BatchMode) (iteration_ctx : list N)
    (replication : Replication) : Block :=
  mkBlock id out batch_mode iteration_ctx false replication.
(** [Block::add_operator]: the new chain produces [out]. *)
Definition add_operator (out : N) (self : Block) : Block :=
  mkBlock (b_id self) out (b_batch_mode self) (b_iteration_ctx self) false (b_replication self).
Definition set_only_one (b : bool) (self : Block) : Block :=
  mkBlock (b_id self) (b_out self) (b_batch_mode self) (b_iteration_ctx self) b (b_replication self).
Definition set_replication (r : Replication) (self : Block) : Block :=
  mkBlock (b_id self) (b_out self) (b_batch_mode self) (b_iteration_ctx self) (b_only_one self) r.
Definition set_iteration_ctx (c : list N) (self : Block) : Block :=
  mkBlock (b_id self) (b_out self) (b_batch_mode self) c (b_only_one self) (b_replication self).
(** [Scheduling::replication]. *)
Definition limit_replication (r : Replication) (self : Block) : Block :=
  set_replication (intersect (b_replication self) r) self.
(** What the scheduler sees of a block. *)
Definition decl_of (self : Block) : BlockDecl :=
  mkBlockDecl (b_id self) (b_replication self) (b_only_one self) (b_batch_mode self).

(** The end of a block produces units. *)
Definition unit_type : N := 0.

(** ** [StreamContextInner] *)
Record StreamContextInner := mkCtx {
  ctx_config : RuntimeConfig;
  ctx_block_count : N;
  ctx_scheduler : option Scheduler;
  (** the next address of an [Arc<IterationStateLock>] *)
  ctx_locks : N
}.
Definition StreamContextInner_new (config : RuntimeConfig) : StreamContextInner :=
  mkCtx config 0 (Some Scheduler_new) 0.
Definition set_scheduler (s : Scheduler) (self : StreamContextInner) : StreamContextInner :=
  mkCtx (ctx_config self) (ctx_block_count self) (Some s) (ctx_locks self).

Definition new_block_id (self : StreamContextInner) : BlockId * StreamContextInner :=
  (ctx_block_count self,
   mkCtx (ctx_config self) (ctx_block_count self + 1) (ctx_scheduler self) (ctx_locks self)).
Definition new_block (replication : Replication) (out : N) (batch_mode : BatchMode) (iteration_ctx : list N)
    (self : StreamContextInner) : Block * StreamContextInner :=
  let '(new_id, self) := new_block_id self in
  (Block_new new_id out batch_mode iteration_ctx replication, self).
Definition close_block (block : Block) (self : StreamContextInner) : outcome StreamContextInner :=
  scheduler ← unwrap (ctx_scheduler self);
  scheduler ← schedule_block (ctx_config self) (decl_of block) scheduler;
  Done (set_scheduler scheduler self).
Definition ctx_connect (fragile : bool) (from to : BlockId) (typ : N) (self : StreamContextInner)
    : outcome StreamContextInner :=
  scheduler ← unwrap (ctx_scheduler self);
  Done (set_scheduler (connect_blocks_with fragile from to typ scheduler) self).
Definition clone_block (block : Block) (self : StreamContextInner) : outcome (Block * StreamContextInner) :=
  let '(new_id, self) := new_block_id self in
  let new_block := mkBlock new_id (b_out block) (b_batch_mode block) (b_iteration_ctx block)
                     (b_only_one block) (b_replication block) in
  scheduler ← unwrap (ctx_scheduler self);
  prev_nodes ← unwrap (prev_blocks scheduler !! b_id block);
  self ← forM prev_nodes self (λ '(prev_node, typ) self, ctx_connect false prev_node new_id typ self);
  Done (new_block, self).
Definition new_lock (self : StreamContextInner) : N * StreamContextInner :=
  (ctx_locks self,
   mkCtx (ctx_config self) (ctx_block_count self) (ctx_scheduler self) (ctx_locks self + 1)).

(** ** [StreamContext] *)

(** [StreamContext::stream]. *)
Definition ctx_stream (replication : Replication) (out : N) (default_mode : BatchMode) (self : StreamContextInner)
    : outcome (Block * StreamContextInner) :=
  rassert (bool_decide (is_Some (config_host_id (ctx_config self))));;
  Done (new_block replication out default_mode [] self).
(** [StreamContext::execute_blocking]; [streams]: the streams that still hold the
    context.  What is started is the scheduler, which checks that every block is there. *)
Definition execute_blocking (streams : nat) (self : StreamContextInner) : outcome Scheduler :=
  rassert (streams =? 0);;
  scheduler ← unwrap (ctx_scheduler self);
  rassert (N.of_nat (size (sc_block_info scheduler)) =? ctx_block_count self)%N;;
  Done scheduler.
(** [StreamContext::parallelism]. *)
Definition parallelism (self : StreamContextInner) : N :=
  match ctx_config self with Local p => p | Remote remote => foldr N.add 0%N (num_cores <$> hosts remote) end.

(** ** [Stream] *)

(** [Stream::split_block]; [only_one]: whether the next strategy is [OnlyOne]. *)
Definition split_block (only_one : bool) (block : Block) (ctx : StreamContextInner)
    : outcome (Block * StreamContextInner) :=
  let closed := set_only_one only_one (add_operator unit_type block) in
  ctx ← close_block closed ctx;
  let '(new_block, ctx) := new_block Unlimited (b_out block) (b_batch_mode block) (b_iteration_ctx block) ctx in
  ctx ← ctx_connect false (b_id block) (b_id new_block) (b_out block) ctx;
  Done (new_block, ctx).

(** [Stream::binary_connection]. *)
Definition binary_connection (only_one1 only_one2 : bool) (out : N) (b1 b2 : Block) (ctx : StreamContextInner)
    : outcome (Block * StreamContextInner) :=
  rassert (negb (only_one1 && only_one2 && negb (bool_decide (b_replication b1 = b_replication b2))));;
  iteration_ctx ←
    (if bool_decide (b_iteration_ctx b1 = b_iteration_ctx b2) then Done (b_iteration_ctx b1)
     else match b_iteration_ctx b1, b_iteration_ctx b2 with
          | _ :: _, _ :: _ => Panicked
          | [], c => Done c
          | c, [] => Done c
          end);
  let c1 := set_only_one only_one1 (add_operator unit_type b1) in
  let c2 := set_only_one only_one2 (add_operator unit_type b2) in
  ctx ← close_block c1 ctx;
  ctx ← close_block c2 ctx;
  let '(new_block, ctx) := new_block Unlimited out (b_batch_mode b1) iteration_ctx ctx in
  ctx ← ctx_connect false (b_id b1) (b_id new_block) (b_out b1) ctx;
  ctx ← ctx_connect false (b_id b2) (b_id new_block) (b_out b2) ctx;
  let replication := if only_one1 then b_replication b1 else if only_one2 then b_replication b2 else Unlimited in
  Done (set_replication replication new_block, ctx).

(** [Stream::repartition], with [replication], [shuffle], [broadcast] and [group_by] as
    its cases. *)
Definition repartition (replication : Replication) (only_one : bool) (block : Block) (ctx : StreamContextInner)
    : outcome (Block * StreamContextInner) :=
  '(new_block, ctx) ← split_block only_one block ctx;
  Done (limit_replication replication new_block, ctx).

(** [Stream::split]. *)
Fixpoint clones (n : nat) (block : Block) (ctx : StreamContextInner) : outcome (list Block * StreamContextInner) :=
  match n with
  | 0 => Done ([], ctx)
  | S n =>
      '(b, ctx) ← clone_block block ctx;
      '(bs, ctx) ← clones n block ctx;
      Done (b :: bs, ctx)
  end.
Definition stream_split (splits : nat) (block : Block) (ctx : StreamContextInner)
    : outcome (list Block * StreamContextInner) :=
  '(new_stream, ctx) ← split_block true block ctx;
  let new_stream := set_replication (b_replication block) new_stream in
  n ← usize_sub splits 1;
  '(streams, ctx) ← clones n new_stream ctx;
  Done (streams ++ [new_stream], ctx).

(** [Stream::zip]. *)
Definition stream_zip (out : N) (b1 b2 : Block) (ctx : StreamContextInner) : outcome (Block * StreamContextInner) :=
  '(new_stream, ctx) ← binary_connection true true out b1 b2 ctx;
  Done (limit_replication One new_stream, ctx).

(** [RouterBuilder::build_inner], with [routes] routes. *)
Fixpoint new_blocks (n : nat) (block : Block) (ctx : StreamContextInner) : list Block * StreamContextInner :=
  match n with
  | 0 => ([], ctx)
  | S n =>
      let '(b, ctx) := new_block Unlimited (b_out block) (b_batch_mode block) (b_iteration_ctx block) ctx in
      let '(bs, ctx) := new_blocks n block ctx in (b :: bs, ctx)
  end.
Definition route_build (routes : nat) (block : Block) (ctx : StreamContextInner)
    : outcome (list Block * StreamContextInner) :=
  let '(blocks, ctx) := new_blocks routes block ctx in
  ctx ← close_block (add_operator unit_type block) ctx;
  ctx ← forM blocks ctx (λ b ctx, ctx_connect false (b_id block) (b_id b) (b_out block) ctx);
  Done (set_replication (b_replication block) <$> blocks, ctx).

(** [Stream::finalize_block], after the sink is added. *)
Definition finalize_block (block : Block) (ctx : StreamContextInner) : outcome StreamContextInner :=
  close_block (add_operator unit_type block) ctx.

(** ** Iterations: what [replay] and [iterate] do before and after the body is built *)
Record Pending := mkPending {
  p_leader : Block;
  p_start : BlockId;
  p_stack : list N;
  (** for [iterate]: the block of the input, and that of the output *)
  p_loop : option (Block * Block)
}.

(** [Stream::replay] up to the call of [body]. *)
Definition replay_begin (state : N) (default_mode : BatchMode) (block : Block) (ctx : StreamContextInner)
    : outcome (Block * Pending * StreamContextInner) :=
  rassert (is_unlimited (b_replication block));;
  let '(leader, ctx) := new_block One state default_mode (b_iteration_ctx block) ctx in
  let '(state_lock, ctx) := new_lock ctx in
  let iter_start := add_operator (b_out block) block in
  let iter_start := set_iteration_ctx (b_iteration_ctx iter_start ++ [state_lock]) iter_start in
  Done (iter_start, mkPending leader (b_id iter_start) (b_iteration_ctx iter_start) None, ctx).

(** [Vec::pop]. *)
Definition vec_pop {X} (l : list X) : option (list X) :=
  match l with [] => None | _ => Some (removelast l) end.

(** [Stream::replay] after it. *)
Definition replay_end (delta feedback : N) (p : Pending) (body : Block) (ctx : StreamContextInner)
    : outcome (Block * StreamContextInner) :=
  let iter_end := add_operator delta body in
  rassert (bool_decide (p_stack p = b_iteration_ctx iter_end));;
  stack ← unwrap (vec_pop (b_iteration_ctx iter_end));
  let iter_end := add_operator unit_type (set_iteration_ctx stack iter_end) in
  ctx ← ctx_connect false (b_id iter_end) (b_id (p_leader p)) delta ctx;
  ctx ← ctx_connect false (b_id (p_leader p)) (p_start p) feedback ctx;
  ctx ← close_block iter_end ctx;
  split_block false (p_leader p) ctx.

(** [Stream::iterate] up to the call of [body]. *)
Definition iterate_begin (state : N) (block : Block) (ctx : StreamContextInner)
    : outcome (Block * Pending * StreamContextInner) :=
  rassert (is_unlimited (b_replication block));;
  let batch_mode := b_batch_mode block in
  let '(leader, ctx) := new_block One state batch_mode (b_iteration_ctx block) ctx in
  let '(state_lock, ctx) := new_lock ctx in
  let input_block := set_only_one true (add_operator unit_type block) in
  let '(iter_block, ctx) := new_block Unlimited (b_out block) batch_mode (b_iteration_ctx input_block) ctx in
  let iter_block := set_iteration_ctx (b_iteration_ctx iter_block ++ [state_lock]) iter_block in
  let '(output_block, ctx) := new_block Unlimited (b_out block) batch_mode [] ctx in
  Done (iter_block, mkPending leader (b_id iter_block) (b_iteration_ctx iter_block) (Some (input_block, output_block)), ctx).

(** [Stream::iterate] after it: the streams of the state and of the items. *)
Definition iterate_end (delta feedback : N) (p : Pending) (body : Block) (ctx : StreamContextInner)
    : outcome (Block * Block * StreamContextInner) :=
  '(input_block, output_block) ← unwrap (p_loop p);
  let out := b_out output_block in
  '(body_stream, ctx) ← split_block true body ctx;
  rassert (bool_decide (p_stack p = b_iteration_ctx body_stream));;
  stack ← unwrap (vec_pop (b_iteration_ctx body_stream));
  let body_stream := set_iteration_ctx stack body_stream in
  let '(state_block, ctx) := new_block Unlimited out (b_batch_mode input_block) [] ctx in
  let state_block := add_operator unit_type state_block in
  let feedback_block := set_only_one true (add_operator unit_type body_stream) in
  ctx ← ctx_connect false (b_id input_block) (p_start p) out ctx;
  ctx ← ctx_connect false (b_id body_stream) (b_id state_block) out ctx;
  ctx ← ctx_connect false (b_id state_block) (b_id (p_leader p)) delta ctx;
  ctx ← ctx_connect false (b_id (p_leader p)) (p_start p) feedback ctx;
  ctx ← ctx_connect false (b_id feedback_block) (p_start p) out ctx;
  ctx ← ctx_connect true (p_start p) (b_id output_block) out ctx;
  ctx ← close_block state_block ctx;
  ctx ← close_block feedback_block ctx;
  ctx ← close_block input_block ctx;
  '(state_stream, ctx) ← split_block false (p_leader p) ctx;
  Done (state_stream, output_block, ctx).

(** ** Programs *)
Inductive op :=
| OStream (replication : Replication) (out : N)
| OAddOperator (b : BlockId) (out : N)
| OBatchMode (b : BlockId) (mode : BatchMode)
| ORepartition (b : BlockId) (replication : Replication) (only_one : bool)
| OSplit (b : BlockId) (splits : nat)
| OBinary (b1 b2 : BlockId) (only_one1 only_one2 : bool) (out : N)
| OZip (b1 b2 : BlockId) (out : N)
| ORoute (b : BlockId) (routes : nat)
| OSink (b : BlockId)
| OReplayBegin (b : BlockId) (state : N)
| OReplayEnd (b : BlockId) (delta feedback : N)
| OIterateBegin (b : BlockId) (state : N)
| OIterateEnd (b : BlockId) (delta feedback : N).

(** The streams the program holds, and the iterations whose body is being built. *)
Record Builder := mkBuilder {
  bu_ctx : StreamContextInner;
  bu_open : gmap BlockId Block;
  bu_pending : list Pending
}.
Definition Builder_new (config : RuntimeConfig) : Builder := mkBuilder (StreamContextInner_new config) ∅ [].

Definition hold (bs : list Block) (streams : gmap BlockId Block) : gmap BlockId Block :=
  foldr (λ b, <[b_id b := b]>) streams bs.
(** A stream that is not held cannot be used. *)
Definition take_stream (b : BlockId) (self : Builder) : outcome (Block * gmap BlockId Block) :=
  block ← unwrap (bu_open self !! b); Done (block, delete b (bu_open self)).

Definition build_op (default_mode : BatchMode) (o : op) (self : Builder) : outcome Builder :=
  let ctx := bu_ctx self in
  match o with
  | OStream replication out =>
      '(b, ctx) ← ctx_stream replication out default_mode ctx;
      Done (mkBuilder ctx (hold [b] (bu_open self)) (bu_pending self))
  | OAddOperator b out =>
      '(block, streams) ← take_stream b self;
      Done (mkBuilder ctx (hold [add_operator out block] streams) (bu_pending self))
  | OBatchMode b mode =>
      '(block, streams) ← take_stream b self;
      Done (mkBuilder ctx (hold [mkBlock (b_id block) (b_out block) mode (b_iteration_ctx block) (b_only_one block)
                                  (b_replication block)] streams) (bu_pending self))
  | ORepartition b replication only_one =>
      '(block, streams) ← take_stream b self;
      '(b, ctx) ← repartition replication only_one block ctx;
      Done (mkBuilder ctx (hold [b] streams) (bu_pending self))
  | OSplit b splits =>
      '(block, streams) ← take_stream b self;
      '(bs, ctx) ← stream_split splits block ctx;
      Done (mkBuilder ctx (hold bs streams) (bu_pending self))
  | OBinary b1 b2 only_one1 only_one2 out =>
      '(block1, streams) ← take_stream b1 self;
      '(block2, streams) ← take_stream b2 (mkBuilder ctx streams (bu_pending self));
      '(b, ctx) ← binary_connection only_one1 only_one2 out block1 block2 ctx;
      Done (mkBuilder ctx (hold [b] streams) (bu_pending self))
  | OZip b1 b2 out =>
      '(block1, streams) ← take_stream b1 self;
      '(block2, streams) ← take_stream b2 (mkBuilder ctx streams (bu_pending self));
      '(b, ctx) ← stream_zip out block1 block2 ctx;
      Done (mkBuilder ctx (hold [b] streams) (bu_pending self))
  | ORoute b routes =>
      '(block, streams) ← take_stream b self;
      '(bs, ctx) ← route_build routes block ctx;
      Done (mkBuilder ctx (hold bs streams) (bu_pending self))
  | OSink b =>
      '(block, streams) ← take_stream b self;
      ctx ← finalize_block block ctx;
      Done (mkBuilder ctx streams (bu_pending self))
  | OReplayBegin b state =>
      '(block, streams) ← take_stream b self;
      '(b, p, ctx) ← replay_begin state default_mode block ctx;
      Done (mkBuilder ctx (hold [b] streams) (p :: bu_pending self))
  | OReplayEnd b delta feedback =>
      '(block, streams) ← take_stream b self;
      p ← unwrap (head (bu_pending self));
      rassert (bool_decide (p_loop p = None));;
      '(b, ctx) ← replay_end delta feedback p block ctx;
      Done (mkBuilder ctx (hold [b] streams) (tail (bu_pending self)))
  | OIterateBegin b state =>
      '(block, streams) ← take_stream b self;
      '(b, p, ctx) ← iterate_begin state block ctx;
      Done (mkBuilder ctx (hold [b] streams) (p :: bu_pending self))
  | OIterateEnd b delta feedback =>
      '(block, streams) ← take_stream b self;
      p ← unwrap (head (bu_pending self));
      '(state_stream, items, ctx) ← iterate_end delta feedback p block ctx;
      Done (mkBuilder ctx (hold [state_stream; items] streams) (tail (bu_pending self)))
  end.
Definition build (default_mode : BatchMode) (program : list op) (self : Builder) : outcome Builder :=
  forM program self (build_op default_mode).

(** ** The graph while it is built *)
Definition edge (s : Scheduler) (x y : BlockId) (t : N) (f : bool) : Prop :=
  (y, t, f) ∈ default [] (next_blocks s !! x).

(** [n] blocks have been numbered, those in [U] have not been scheduled yet. *)
Record graph_ok (config : RuntimeConfig) (s : Scheduler) (n : N) (U : gset BlockId) : Prop := {
  go_ids b : (b < n)%N ↔ is_Some (sc_block_info s !! b) ∨ b ∈ U;
  go_open b : b ∈ U → sc_block_info s !! b = None;
  go_scheduled : scheduled config s;
  go_bounds x y t f : edge s x y t f → (x < n)%N ∧ (y < n)%N;
  go_typed x y t1 t2 f1 f2 : edge s x y t1 f1 → edge s x y t2 f2 → t1 = t2;
  go_mirror x y t : (x, t) ∈ default [] (prev_blocks s !! y) ↔ ∃ f, edge s x y t f;
  go_nonempty x : next_blocks s !! x ≠ Some []
}.

Lemma entry_push_nonempty {X} (k i : BlockId) (x : X) m :
  m !! i ≠ Some [] → entry_push k x m !! i ≠ Some [].
Proof.
  unfold entry_push. intros Hm. destruct (decide (k = i)) as [->|Hne]; [|by rewrite lookup_insert_ne].
  rewrite lookup_insert_eq. intros [= Hx]. by destruct (default [] (m !! i)).
Qed.

Section building.
Context (config : RuntimeConfig).
Implicit Types ctx : StreamContextInner.
Implicit Types U : gset BlockId.

Definition ctx_ok ctx U : Prop :=
  ctx_config ctx = config ∧ ∃ s, ctx_scheduler ctx = Some s ∧ graph_ok config s (ctx_block_count ctx) U.
Definition ctx_edge ctx x y t f : Prop := ∃ s, ctx_scheduler ctx = Some s ∧ edge s x y t f.

(** What an operation does: the blocks it opens and closes, and the edges it adds. *)
Record ctx_step ctx ctx' U' (L : list (BlockId * BlockId * N * bool)) : Prop := {
  cs_ok : ctx_ok ctx' U';
  cs_count : (ctx_block_count ctx ≤ ctx_block_count ctx')%N;
  cs_edges x y t f : ctx_edge ctx' x y t f ↔ ctx_edge ctx x y t f ∨ (x, y, t, f) ∈ L
}.

Lemma ctx_step_trans ctx1 ctx2 ctx3 U2 U3 L1 L2 :
  ctx_step ctx1 ctx2 U2 L1 → ctx_step ctx2 ctx3 U3 L2 → ctx_step ctx1 ctx3 U3 (L1 ++ L2).
Proof.
  intros [H1 C1 E1] [H2 C2 E2]. split; [done|lia|]. intros x y t f. rewrite E2, E1, elem_of_app. tauto.
Qed.

Lemma ctx_ok_bounds ctx U x y t f :
  ctx_ok ctx U → ctx_edge ctx x y t f → (x < ctx_block_count ctx)%N ∧ (y < ctx_block_count ctx)%N.
Proof.
  intros (_ & s & Es & G) (s' & Es' & He). rewrite Es in Es'. injection Es' as <-. by eapply go_bounds.
Qed.
Lemma ctx_ok_lt ctx U b : ctx_ok ctx U → b ∈ U → (b < ctx_block_count ctx)%N.
Proof. intros (_ & s & _ & G) Hb. apply (go_ids _ _ _ _ G). by right. Qed.

Lemma new_block_id_step ctx U :
  ctx_ok ctx U →
  let '(id, ctx') := new_block_id ctx in
  id = ctx_block_count ctx ∧ ctx_step ctx ctx' ({[id]} ∪ U) [] ∧ ctx_block_count ctx' = (id + 1)%N.
Proof.
  intros (Hc & s & Es & [Hids Hopen Hs Hb Ht Hm Hnn]). cbn. split; [done|]. split; [|done]. split; cbn.
  - split; [done|]. exists s. split; [done|]. split; cbn; try done.
    + intros b. rewrite elem_of_union, elem_of_singleton. specialize (Hids b).
      split; [intros Hlt; destruct (decide (b = ctx_block_count ctx)); [auto|assert (b < ctx_block_count ctx)%N by lia; tauto]|].
      intros [?|[->|?]]; [assert (b < ctx_block_count ctx)%N by tauto; lia|lia|assert (b < ctx_block_count ctx)%N by tauto; lia].
    + intros b [->%elem_of_singleton|?]%elem_of_union; [|by apply Hopen].
      apply eq_None_not_Some. intros Hi. assert (ctx_block_count ctx < ctx_block_count ctx)%N by (apply Hids; by left). lia.
    + intros x y t f He. destruct (Hb _ _ _ _ He). lia.
  - lia.
  - intros x y t f. rewrite elem_of_nil. unfold ctx_edge. cbn. tauto.
Qed.
Lemma new_block_step r out m ic ctx U b ctx' :
  ctx_ok ctx U → new_block r out m ic ctx = (b, ctx') →
  b_id b = ctx_block_count ctx ∧ ctx_step ctx ctx' ({[b_id b]} ∪ U) [] ∧ ctx_block_count ctx' = (b_id b + 1)%N.
Proof.
  intros Hok E. unfold new_block in E. pose proof (new_block_id_step ctx U Hok) as H.
  destruct (new_block_id ctx) as [id c]. injection E as <- <-. done.
Qed.

Lemma close_block_step b ctx U ctx' :
  ctx_ok ctx U → b_id b ∈ U → close_block b ctx = Done ctx' →
  ctx_step ctx ctx' (U ∖ {[b_id b]}) [] ∧ ctx_block_count ctx' = ctx_block_count ctx.
Proof.
  intros (Hc & s & Es & [Hids Hopen Hs Hb Ht Hm Hnn]) HbU E. unfold close_block in E. rewrite Es in E. cbn in E.
  apply bind_done in E as (s' & Es' & [= <-]). split; [|done].
  rewrite Hc in Es'. pose proof (schedule_block_scheduled _ _ _ _ Hs Es') as Hs'.
  unfold schedule_block in Es'. inv_bind Es'. inv_bind Es'. injection Es' as <-.
  split; cbn; [|lia|].
  - split; [done|]. eexists. split; [done|]. split; cbn; try done.
    + intros x. rewrite Hids, elem_of_difference, elem_of_singleton.
      destruct (decide (x = b_id b)) as [->|Hne].
      * rewrite lookup_insert_eq. split; [by left; eexists|by right].
      * rewrite lookup_insert_ne by done. tauto.
    + intros x [Hx Hne]%elem_of_difference. rewrite elem_of_singleton in Hne.
      rewrite lookup_insert_ne by done. by apply Hopen.
  - intros x y t f. rewrite elem_of_nil. unfold ctx_edge. cbn. rewrite Es. split.
    + intros (? & [= <-] & He). left. by eexists.
    + intros [(? & [= <-] & He)|[]]. by eexists.
Qed.

Lemma ctx_connect_step fr x y t ctx U ctx' :
  ctx_connect fr x y t ctx = Done ctx' → ctx_ok ctx U →
  (x < ctx_block_count ctx)%N → (y < ctx_block_count ctx)%N → (∀ t' f', ctx_edge ctx x y t' f' → t' = t) →
  ctx_step ctx ctx' U [(x, y, t, fr)] ∧ ctx_block_count ctx' = ctx_block_count ctx.
Proof.
  intros E (Hc & s & Es & [Hids Hopen Hs Hb Ht Hm Hnn]) Hx Hy Htyp. unfold ctx_connect in E. rewrite Es in E. cbn in E.
  injection E as <-. split; [|done].
  assert (∀ x' y' t' f', edge (connect_blocks_with fr x y t s) x' y' t' f' ↔
    edge s x' y' t' f' ∨ (x', y', t', f') = (x, y, t, fr)) as Hedge.
  { intros x' y' t' f'. unfold edge. cbn. rewrite entry_push_lookup, elem_of_app.
    case_decide as Hd; [rewrite list_elem_of_singleton; naive_solver|rewrite elem_of_nil; naive_solver]. }
  assert (∀ t' f', edge s x y t' f' → t' = t) as Htyp' by (intros t' f' He; apply (Htyp t' f'); by exists s).
  split; cbn; [|lia|].
  - split; [done|]. eexists. split; [done|]. split; try done.
    + intros x' y' t' f' [He|[= -> -> -> ->]]%Hedge; [by eapply Hb|done].
    + intros x' y' t1 t2 f1 f2 [H1|[= -> -> -> ->]]%Hedge [H2|E2]%Hedge; simplify_eq; try done;
        [by eapply Ht|by eapply Htyp'|symmetry; by eapply Htyp'].
    + intros x' y' t'. cbn. rewrite entry_push_lookup, elem_of_app, Hm. split.
      * intros [[f' He]|Hin]; [exists f'; apply Hedge; by left|]. case_decide; [|by apply elem_of_nil in Hin].
        apply list_elem_of_singleton in Hin as [= -> ->]. exists fr. subst. apply Hedge. by right.
      * intros [f' [He|[= -> -> -> ->]]%Hedge]; [left; by exists f'|]. right. rewrite decide_True by done. by left.
    + intros x'. cbn. apply entry_push_nonempty, Hnn.
  - intros x' y' t' f'. rewrite list_elem_of_singleton. unfold ctx_edge. cbn. split.
    + intros (? & [= <-] & [He|He]%Hedge); [left; by exists s|by right].
    + intros [(? & Es' & He)|He]; (eexists; split; [done|]); apply Hedge; [left|by right]. congruence.
Qed.

(** *** The methods *)
Lemma no_edge_fresh ctx U x y t f (P : Prop) :
  ctx_edge ctx x y t f → ctx_ok ctx U → (ctx_block_count ctx ≤ y)%N ∨ (ctx_block_count ctx ≤ x)%N → P.
Proof. intros He Hok Hle. destruct (ctx_ok_bounds _ _ _ _ _ _ Hok He). lia. Qed.

Lemma split_block_step o b ctx U nb ctx' :
  ctx_ok ctx U → b_id b ∈ U → split_block o b ctx = Done (nb, ctx') →
  b_id nb = ctx_block_count ctx ∧
  ctx_step ctx ctx' ({[b_id nb]} ∪ U ∖ {[b_id b]}) [(b_id b, b_id nb, b_out b, false)] ∧
  b_iteration_ctx nb = b_iteration_ctx b ∧ ctx_block_count ctx' = (ctx_block_count ctx + 1)%N.
Proof.
  intros Hok Hb E. pose proof (ctx_ok_lt _ _ _ Hok Hb) as Hlt. unfold split_block in E.
  apply bind_done in E as (ctx1 & E1 & E).
  destruct (close_block_step (set_only_one o (add_operator unit_type b)) ctx U ctx1 Hok Hb E1) as [S1 C1].
  destruct (new_block Unlimited (b_out b) (b_batch_mode b) (b_iteration_ctx b) ctx1) as [nb' ctx2] eqn:E2.
  destruct (new_block_step _ _ _ _ _ _ _ _ (cs_ok _ _ _ _ S1) E2) as (Eid & S2 & C2).
  apply bind_done in E as (ctx3 & E3 & [= -> <-]).
  destruct (ctx_connect_step _ _ _ _ _ _ _ E3 (cs_ok _ _ _ _ S2)) as [S3 C3]; [lia|lia| |].
  { intros t' f' He. apply (cs_edges _ _ _ _ S2) in He as [He|[]%elem_of_nil].
    eapply (no_edge_fresh ctx1); [done|apply S1|left; lia]. }
  split; [lia|]. split; [|split; [|lia]].
  - exact (ctx_step_trans _ _ _ _ _ _ _ S1 (ctx_step_trans _ _ _ _ _ _ _ S2 S3)).
  - cbn in E2. by injection E2 as <- _.
Qed.

Lemma binary_connection_step o1 o2 out b1 b2 ctx U nb ctx' :
  ctx_ok ctx U → b_id b1 ∈ U → b_id b2 ∈ U → b_id b1 ≠ b_id b2 →
  binary_connection o1 o2 out b1 b2 ctx = Done (nb, ctx') →
  b_id nb = ctx_block_count ctx ∧
  ctx_step ctx ctx' ({[b_id nb]} ∪ U ∖ {[b_id b1]} ∖ {[b_id b2]})
    [(b_id b1, b_id nb, b_out b1, false); (b_id b2, b_id nb, b_out b2, false)].
Proof.
  intros Hok H1 H2 Hne E. pose proof (ctx_ok_lt _ _ _ Hok H1). pose proof (ctx_ok_lt _ _ _ Hok H2).
  unfold binary_connection in E. apply bind_done in E as (_ & _ & E). apply bind_done in E as (ic & _ & E). cbv zeta in E.
  apply bind_done in E as (ctx1 & E1 & E). apply bind_done in E as (ctx2 & E2 & E).
  destruct (close_block_step (set_only_one o1 (add_operator unit_type b1)) ctx U ctx1 Hok H1 E1) as [S1 C1].
  destruct (close_block_step (set_only_one o2 (add_operator unit_type b2)) ctx1 _ ctx2 (cs_ok _ _ _ _ S1)
    ltac:(cbn; set_solver) E2) as [S2 C2]. cbn [b_id set_only_one add_operator] in S1, S2.
  match type of E with (let '(_, _) := ?nb in _) = _ => destruct nb as [nb' ctx3] eqn:E3 end.
  destruct (new_block_step _ _ _ _ _ _ _ _ (cs_ok _ _ _ _ S2) E3) as (Eid & S3 & C3).
  apply bind_done in E as (ctx4 & E4 & E). apply bind_done in E as (ctx5 & E5 & [= <- <-]).
  destruct (ctx_connect_step _ _ _ _ _ _ _ E4 (cs_ok _ _ _ _ S3)) as [S4 C4]; [lia|lia| |].
  { intros t' f' He. apply (cs_edges _ _ _ _ S3) in He as [He|[]%elem_of_nil].
    eapply (no_edge_fresh ctx2); [done|apply S2|left; lia]. }
  destruct (ctx_connect_step _ _ _ _ _ _ _ E5 (cs_ok _ _ _ _ S4)) as [S5 C5]; [lia|lia| |].
  { intros t' f' He. apply (cs_edges _ _ _ _ S4) in He as [He|He%list_elem_of_singleton]; [|congruence].
    apply (cs_edges _ _ _ _ S3) in He as [He|[]%elem_of_nil].
    eapply (no_edge_fresh ctx2); [done|apply S2|left; lia]. }
  cbn [b_id set_replication]. split; [lia|].
  pose proof (ctx_step_trans _ _ _ _ _ _ _ S1 (ctx_step_trans _ _ _ _ _ _ _ S2
    (ctx_step_trans _ _ _ _ _ _ _ S3 (ctx_step_trans _ _ _ _ _ _ _ S4 S5)))) as S. exact S.
Qed.

(** Clones of the block [nb], all of whose input comes from [b0]. *)
Lemma clone_block_step b0 nb ctx U b ctx' :
  ctx_ok ctx U → (∀ x t f, ctx_edge ctx x (b_id nb) t f → x = b0) →
  clone_block nb ctx = Done (b, ctx') →
  b_id b = ctx_block_count ctx ∧ ctx_block_count ctx' = (ctx_block_count ctx + 1)%N ∧
  ∃ L, ctx_step ctx ctx' ({[b_id b]} ∪ U) L ∧ ∀ x y t f, (x, y, t, f) ∈ L → x = b0 ∧ y = b_id b ∧ f = false.
Proof.
  intros Hok Hin E. pose proof Hok as (_ & s & Es & G). unfold clone_block in E.
  pose proof (new_block_id_step ctx U Hok) as H. destruct (new_block_id ctx) as [id ctx1] eqn:E1.
  destruct H as (-> & S1 & C1). assert (ctx_scheduler ctx1 = Some s) as Es1 by (unfold new_block_id in E1; by injection E1 as <-).
  rewrite Es1 in E. cbn [unwrap mbind outcome_bind] in E. apply bind_done in E as (prevs & Ep & E).
  apply bind_done in E as (ctx2 & E2 & [= <- <-]). cbn [b_id]. split; [done|].
  assert (Forall (λ '(x, t), ∃ f, ctx_edge ctx x (b_id nb) t f) prevs) as Hprevs.
  { apply Forall_forall. intros [x t] Hx. destruct (proj1 (go_mirror _ _ _ _ G x (b_id nb) t)) as [f Hf].
    - destruct (prev_blocks s !! b_id nb); [|done]. injection Ep as ->. done.
    - exists f. by exists s. }
  assert (∀ t1 t2 f1 f2, ctx_edge ctx b0 (b_id nb) t1 f1 → ctx_edge ctx b0 (b_id nb) t2 f2 → t1 = t2) as Htyp.
  { intros t1 t2 f1 f2 (s1 & ? & H1) (s2 & ? & H2). eapply (go_typed _ _ _ _ G); [|]; simplify_eq; done. }
  assert (∀ t f, ctx_edge ctx1 b0 (ctx_block_count ctx) t f → False) as Hnone.
  { intros t f He. apply (cs_edges _ _ _ _ S1) in He as [He|[]%elem_of_nil].
    eapply (no_edge_fresh ctx); [done|done|left; lia]. }
  clear Ep Es1 E1 Es G.
  assert (∃ L, ctx_step ctx1 ctx2 ({[ctx_block_count ctx]} ∪ U) L ∧ ctx_block_count ctx2 = ctx_block_count ctx1 ∧
    ∀ x y t f, (x, y, t, f) ∈ L → x = b0 ∧ y = ctx_block_count ctx ∧ f = false) as (L & S2 & C2 & HL).
  { assert (ctx_ok ctx1 ({[ctx_block_count ctx]} ∪ U)) as Hok1 by apply S1.
    assert (∀ t f, ctx_edge ctx1 b0 (ctx_block_count ctx) t f → ∃ f', ctx_edge ctx b0 (b_id nb) t f') as Hsame
      by (intros ? ? ?%Hnone; done).
    clear Hnone S1. revert ctx1 Hok1 Hsame C1 E2. induction Hprevs as [|[x t] prevs [f0 Hx] _ IH]; intros ctx1 Hok1 Hsame C1 E2.
    - injection E2 as <-. exists []. split_and!; [|done|by intros ???? ?%elem_of_nil]. split; [done|lia|].
      intros. rewrite elem_of_nil. tauto.
    - cbn [forM] in E2. apply bind_done in E2 as (ctx3 & E3 & E2). pose proof (Hin _ _ _ Hx) as ->.
      destruct (ctx_ok_bounds _ _ _ _ _ _ Hok Hx) as [Hb0 _].
      destruct (ctx_connect_step _ _ _ _ _ _ _ E3 Hok1) as [S3 C3]; [lia|lia| |].
      { intros t' f' He. destruct (Hsame _ _ He) as [f1 He']. by eapply Htyp. }
      destruct (IH ctx3 (cs_ok _ _ _ _ S3)) as (L & S & C & HL); [|lia|done|].
      { intros t' f' He. apply (cs_edges _ _ _ _ S3) in He as [He|[= -> ->]%list_elem_of_singleton]; eauto. }
      exists ([(b0, ctx_block_count ctx, t, false)] ++ L). split_and!; [by eapply ctx_step_trans|lia|].
      intros x y t' f [[= -> -> -> ->]%list_elem_of_singleton|Hl]%elem_of_app; [done|by eapply HL]. }
  split; [lia|]. exists L. split; [|done]. exact (ctx_step_trans _ _ _ _ _ _ _ S1 S2).
Qed.

(** A method that closes the blocks [C] and opens [bs]: they are new, and so is the target
    of every edge it adds. *)
Record opened ctx U (C : gset BlockId) (bs : list Block) ctx' L : Prop := {
  od_step : ctx_step ctx ctx' (list_to_set (b_id <$> bs) ∪ U ∖ C) L;
  od_fresh : Forall (λ b, (ctx_block_count ctx ≤ b_id b)%N) bs;
  od_nodup : NoDup (b_id <$> bs);
  od_edges x y t f : (x, y, t, f) ∈ L → x ∈ C ∧ (ctx_block_count ctx ≤ y)%N
}.
Lemma opened_ids ctx U C bs bs' ctx' L :
  b_id <$> bs' = b_id <$> bs → opened ctx U C bs ctx' L → opened ctx U C bs' ctx' L.
Proof.
  intros E [S F N HL]. split; rewrite ?E; try done.
  apply (Forall_fmap b_id (λ i, (ctx_block_count ctx ≤ i)%N)). rewrite E. by apply Forall_fmap.
Qed.

Lemma split_block_opened o b ctx U nb ctx' :
  ctx_ok ctx U → b_id b ∈ U → split_block o b ctx = Done (nb, ctx') →
  opened ctx U {[b_id b]} [nb] ctx' [(b_id b, b_id nb, b_out b, false)].
Proof.
  intros Hok Hb E. destruct (split_block_step _ _ _ _ _ _ Hok Hb E) as (Eid & S & _ & _).
  split; [cbn [fmap list_fmap]; by rewrite list_to_set_singleton_L|constructor; [lia|done]|apply NoDup_singleton|].
  intros x y t f [= -> -> -> ->]%list_elem_of_singleton. split; [set_solver|lia].
Qed.
Lemma binary_connection_opened o1 o2 out b1 b2 ctx U nb ctx' :
  ctx_ok ctx U → b_id b1 ∈ U → b_id b2 ∈ U → b_id b1 ≠ b_id b2 →
  binary_connection o1 o2 out b1 b2 ctx = Done (nb, ctx') →
  ∃ L, opened ctx U {[b_id b1; b_id b2]} [nb] ctx' L.
Proof.
  intros Hok H1 H2 Hne E. destruct (binary_connection_step _ _ _ _ _ _ _ _ _ Hok H1 H2 Hne E) as (Eid & S).
  eexists. split; [|constructor; [lia|done]|apply NoDup_singleton|].
  - cbn [fmap list_fmap]. rewrite list_to_set_singleton_L.
    replace (U ∖ {[b_id b1; b_id b2]}) with (U ∖ {[b_id b1]} ∖ {[b_id b2]}) by set_solver. exact S.
  - intros x y t f [[= -> -> -> ->]|[= -> -> -> ->]%list_elem_of_singleton]%elem_of_cons; (split; [set_solver|lia]).
Qed.

Lemma clones_step b0 nb n ctx U bs ctx' :
  ctx_ok ctx U → (b_id nb < ctx_block_count ctx)%N → (∀ x t f, ctx_edge ctx x (b_id nb) t f → x = b0) →
  clones n nb ctx = Done (bs, ctx') →
  ∃ L, ctx_step ctx ctx' (list_to_set (b_id <$> bs) ∪ U) L ∧
    Forall (λ b, (ctx_block_count ctx ≤ b_id b)%N) bs ∧ NoDup (b_id <$> bs) ∧
    ∀ x y t f, (x, y, t, f) ∈ L → x = b0 ∧ (ctx_block_count ctx ≤ y)%N.
Proof.
  revert ctx U bs. induction n as [|n IH]; intros ctx U bs Hok Hnb Hin E; cbn [clones] in E.
  - injection E as <- <-. exists []. split_and!; [|done|apply NoDup_nil_2|by intros ???? ?%elem_of_nil].
    split; [cbn [fmap list_fmap list_to_set foldr]; by rewrite union_empty_l_L|lia|]. intros. rewrite elem_of_nil. tauto.
  - apply bind_done in E as ([b ctx1] & E1 & E). apply bind_done in E as ([bs1 ctx2] & E2 & [= <- <-]).
    destruct (clone_block_step b0 _ _ _ _ _ Hok Hin E1) as (Eid & C1 & L1 & S1 & HL1).
    destruct (IH ctx1 _ bs1 (cs_ok _ _ _ _ S1)) as (L2 & S2 & F2 & N2 & HL2); [lia| |done|].
    { intros x t f [He|He]%(cs_edges _ _ _ _ S1); [by eapply Hin|by eapply HL1]. }
    exists (L1 ++ L2). split_and!.
    + eapply ctx_step_trans; [done|]. rewrite fmap_cons, list_to_set_cons.
      replace ({[b_id b]} ∪ list_to_set (b_id <$> bs1) ∪ U) with (list_to_set (C := gset BlockId) (b_id <$> bs1) ∪ ({[b_id b]} ∪ U))
        by set_solver. done.
    + constructor; [lia|]. eapply Forall_impl; [done|]. cbn. lia.
    + rewrite fmap_cons. apply NoDup_cons. split; [|done]. intros (b' & Eb & Hb')%list_elem_of_fmap.
      rewrite Forall_forall in F2. specialize (F2 _ Hb'). cbn in F2. lia.
    + intros x y t f [Hl|Hl]%elem_of_app; [destruct (HL1 _ _ _ _ Hl); split; [done|lia]|].
      destruct (HL2 _ _ _ _ Hl). split; [done|lia].
Qed.
Lemma stream_split_opened splits b ctx U bs ctx' :
  ctx_ok ctx U → b_id b ∈ U → stream_split splits b ctx = Done (bs, ctx') →
  ∃ L, opened ctx U {[b_id b]} bs ctx' L.
Proof.
  intros Hok Hb E. unfold stream_split in E. apply bind_done in E as ([nb ctx1] & E1 & E).
  apply bind_done in E as (n & _ & E). apply bind_done in E as ([bs1 ctx2] & E2 & [= <- <-]).
  destruct (split_block_step _ _ _ _ _ _ Hok Hb E1) as (Eid & S1 & _ & C1).
  destruct (clones_step (b_id b) (set_replication (b_replication b) nb) n ctx1 _ bs1 ctx2 (cs_ok _ _ _ _ S1)) as (L & S2 & F2 & N2 & HL); [cbn; lia| |done|].
  { cbn. intros x t f [He|[= -> _ _]%list_elem_of_singleton]%(cs_edges _ _ _ _ S1); [|done].
    eapply (no_edge_fresh ctx); [done|done|left; lia]. }
  eexists. split.
  - rewrite fmap_app, list_to_set_app_L. cbn [fmap list_fmap b_id set_replication]. rewrite list_to_set_singleton_L, <-union_assoc_L.
    eapply ctx_step_trans; [exact S1|exact S2].
  - apply Forall_app. split; [eapply Forall_impl; [done|]; cbn; lia|constructor; [cbn; lia|done]].
  - rewrite fmap_app. apply NoDup_app. split_and!; [done| |apply NoDup_singleton].
    intros x (b' & -> & Hb')%list_elem_of_fmap. rewrite Forall_forall in F2. specialize (F2 _ Hb'). cbn in F2 |- *.
    intros ?%list_elem_of_singleton. cbn in *. lia.
  - intros x y t f [[= -> -> -> ->]%list_elem_of_singleton|Hl]%elem_of_app; [split; [set_solver|lia]|].
    destruct (HL _ _ _ _ Hl) as [-> ?]. split; [set_solver|lia].
Qed.

Lemma new_blocks_step n b ctx U bs ctx' :
  ctx_ok ctx U → new_blocks n b ctx = (bs, ctx') →
  ctx_step ctx ctx' (list_to_set (b_id <$> bs) ∪ U) [] ∧
    Forall (λ b, (ctx_block_count ctx ≤ b_id b)%N) bs ∧ NoDup (b_id <$> bs).
Proof.
  revert ctx U bs. induction n as [|n IH]; intros ctx U bs Hok E; cbn [new_blocks] in E.
  - injection E as <- <-. split_and!; [|done|apply NoDup_nil_2].
    split; [cbn [fmap list_fmap list_to_set foldr]; by rewrite union_empty_l_L|lia|]. intros. rewrite elem_of_nil. tauto.
  - destruct (new_block _ _ _ _ _) as [b1 ctx1] eqn:E1. destruct (new_blocks n b ctx1) as [bs1 ctx2] eqn:E2.
    injection E as <- <-. destruct (new_block_step _ _ _ _ _ _ _ _ Hok E1) as (Eid & S1 & C1).
    destruct (IH ctx1 _ bs1 (cs_ok _ _ _ _ S1) E2) as (S2 & F2 & N2). split_and!.
    + pose proof (ctx_step_trans _ _ _ _ _ _ _ S1 S2) as S. cbn in S. rewrite fmap_cons, list_to_set_cons.
      replace ({[b_id b1]} ∪ list_to_set (b_id <$> bs1) ∪ U) with (list_to_set (C := gset BlockId) (b_id <$> bs1) ∪ ({[b_id b1]} ∪ U))
        by set_solver. done.
    + constructor; [lia|]. eapply Forall_impl; [done|]. cbn. lia.
    + rewrite fmap_cons. apply NoDup_cons. split; [|done]. intros (b' & Eb & Hb')%list_elem_of_fmap.
      rewrite Forall_forall in F2. specialize (F2 _ Hb'). cbn in F2. lia.
Qed.
(** Edges from one block to distinct new ones. *)
Lemma connect_fresh_step x t bs ctx U ctx' :
  forM bs ctx (λ b ctx, ctx_connect false x (b_id b) t ctx) = Done ctx' → ctx_ok ctx U →
  (x < ctx_block_count ctx)%N → Forall (λ b, (b_id b < ctx_block_count ctx)%N) bs → NoDup (b_id <$> bs) →
  (∀ b t' f', b ∈ bs → ctx_edge ctx x (b_id b) t' f' → False) →
  ctx_step ctx ctx' U ((λ b, (x, b_id b, t, false)) <$> bs).
Proof.
  revert ctx. induction bs as [|b bs IH]; intros ctx E Hok Hx Hbs Hn Hno.
  - injection E as <-. split; [done|lia|]. intros. cbn. rewrite elem_of_nil. tauto.
  - cbn [forM] in E. apply bind_done in E as (ctx1 & E1 & E). apply Forall_cons in Hbs as [Hb Hbs].
    cbn [fmap list_fmap] in Hn |- *. apply NoDup_cons in Hn as [Hnb Hn].
    destruct (ctx_connect_step _ _ _ _ _ _ _ E1 Hok) as [S1 C1]; [done|done| |].
    { intros t' f' He. exfalso. eapply Hno; [by left|done]. }
    change (?e :: ?l) with ([e] ++ l). eapply ctx_step_trans; [exact S1|].
    apply IH; [done|apply S1|lia|by rewrite C1|done|].
    intros b' t' f' Hb' [He|[= E2 _ _]%list_elem_of_singleton]%(cs_edges _ _ _ _ S1).
    + eapply Hno; [by right|done].
    + apply Hnb. rewrite <-E2. by apply list_elem_of_fmap_2.
Qed.
Lemma route_build_opened routes b ctx U bs ctx' :
  ctx_ok ctx U → b_id b ∈ U → route_build routes b ctx = Done (bs, ctx') →
  ∃ L, opened ctx U {[b_id b]} bs ctx' L.
Proof.
  intros Hok Hb E. pose proof (ctx_ok_lt _ _ _ Hok Hb) as Hlt. unfold route_build in E.
  destruct (new_blocks routes b ctx) as [blocks ctx1] eqn:E1.
  destruct (new_blocks_step _ _ _ _ _ _ Hok E1) as (S1 & F1 & N1).
  apply bind_done in E as (ctx2 & E2 & E). apply bind_done in E as (ctx3 & E3 & [= <- <-]).
  destruct (close_block_step (add_operator unit_type b) ctx1 _ ctx2 (cs_ok _ _ _ _ S1) ltac:(cbn; set_solver) E2) as [S2 C2].
  cbn [b_id add_operator] in S2. pose proof (cs_count _ _ _ _ S1) as C1.
  rewrite Forall_forall in F1.
  pose proof (connect_fresh_step _ _ _ _ _ _ E3 (cs_ok _ _ _ _ S2)) as S3.
  eexists. apply (opened_ids _ _ _ blocks); [rewrite <-list_fmap_compose; by apply list_fmap_ext|]. split.
  - eapply ctx_step_trans; [exact S1|]. eapply ctx_step_trans; [exact S2|].
    replace (list_to_set (b_id <$> blocks) ∪ U ∖ {[b_id b]}) with ((list_to_set (b_id <$> blocks) ∪ U) ∖ {[b_id b]}).
    + apply S3; [lia| |done|].
      * apply Forall_forall. intros b' Hb'. rewrite C2. eapply ctx_ok_lt; [apply S1|]. apply elem_of_union_l.
        apply elem_of_list_to_set. by apply list_elem_of_fmap_2.
      * intros b' t' f' Hb' [[He|[]%elem_of_nil]%(cs_edges _ _ _ _ S1)|[]%elem_of_nil]%(cs_edges _ _ _ _ S2).
        eapply (no_edge_fresh ctx); [done|done|left; by apply F1].
    + assert (b_id b ∉ b_id <$> blocks) as Hni; [|set_solver].
      intros (b' & Eb & Hb')%list_elem_of_fmap. specialize (F1 _ Hb'). cbn in F1. lia.
  - by apply Forall_forall.
  - done.
  - intros x y t f (b' & [= -> -> -> ->] & Hb')%list_elem_of_fmap. split; [set_solver|by apply F1].
Qed.

(** *** The ends of the iterations

    The same steps, from the context at the beginning of the method. *)
Lemma connect_acc ctx0 fr x y t ctx U ctx' L :
  ctx_connect fr x y t ctx = Done ctx' → ctx_step ctx0 ctx U L →
  (x < ctx_block_count ctx)%N → (y < ctx_block_count ctx)%N →
  (∀ t' f', ¬ ctx_edge ctx0 x y t' f') → (∀ t' f', (x, y, t', f') ∉ L) →
  ctx_step ctx0 ctx' U (L ++ [(x, y, t, fr)]) ∧ ctx_block_count ctx' = ctx_block_count ctx.
Proof.
  intros E S Hx Hy H0 HL. destruct (ctx_connect_step _ _ _ _ _ _ _ E (cs_ok _ _ _ _ S) Hx Hy) as [S' C'].
  { intros t' f' [He|He]%(cs_edges _ _ _ _ S); [by destruct (H0 t' f')|by destruct (HL t' f')]. }
  split; [by eapply ctx_step_trans|done].
Qed.
Lemma close_acc ctx0 b ctx U ctx' L :
  close_block b ctx = Done ctx' → ctx_step ctx0 ctx U L → b_id b ∈ U →
  ctx_step ctx0 ctx' (U ∖ {[b_id b]}) L ∧ ctx_block_count ctx' = ctx_block_count ctx.
Proof.
  intros E S Hb. destruct (close_block_step _ _ _ _ (cs_ok _ _ _ _ S) Hb E) as [S' C']. split; [|done].
  rewrite <-(app_nil_r L). by eapply ctx_step_trans.
Qed.
Lemma split_acc ctx0 o b ctx U nb ctx' L :
  split_block o b ctx = Done (nb, ctx') → ctx_step ctx0 ctx U L → b_id b ∈ U →
  b_id nb = ctx_block_count ctx ∧ b_iteration_ctx nb = b_iteration_ctx b ∧
  ctx_step ctx0 ctx' ({[b_id nb]} ∪ U ∖ {[b_id b]}) (L ++ [(b_id b, b_id nb, b_out b, false)]) ∧
  ctx_block_count ctx' = (ctx_block_count ctx + 1)%N.
Proof.
  intros E S Hb. destruct (split_block_step _ _ _ _ _ _ (cs_ok _ _ _ _ S) Hb E) as (Eid & S' & Ei & C').
  split_and!; [done|done| |done]. by eapply ctx_step_trans.
Qed.
Lemma ctx_step_refl ctx U : ctx_ok ctx U → ctx_step ctx ctx U [].
Proof. intros Hok. split; [done|lia|]. intros. rewrite elem_of_nil. tauto. Qed.

(** The edge differs from those just added. *)
Local Ltac new_edge :=
  let H := fresh "H" in
  intros ? ?; rewrite ?elem_of_app, ?list_elem_of_singleton, ?elem_of_nil; intros H;
  repeat (destruct H as [H|H]);
  try (exfalso; exact H); injection H; intros; lia.

Lemma replay_end_step delta feedback p body ctx U nb ctx' :
  ctx_ok ctx U → b_id body ∈ U → b_id (p_leader p) ∈ U → b_id body ≠ b_id (p_leader p) →
  (p_start p < ctx_block_count ctx)%N →
  (∀ x y t f, ctx_edge ctx x y t f → x ≠ b_id (p_leader p) ∧ y ≠ b_id (p_leader p)) →
  replay_end delta feedback p body ctx = Done (nb, ctx') →
  b_id nb = ctx_block_count ctx ∧
  ctx_step ctx ctx' ({[b_id nb]} ∪ U ∖ {[b_id body; b_id (p_leader p)]})
    [(b_id body, b_id (p_leader p), delta, false); (b_id (p_leader p), p_start p, feedback, false);
     (b_id (p_leader p), b_id nb, b_out (p_leader p), false)].
Proof.
  intros Hok Hb Hl Hne Hp Hno E. pose proof (ctx_ok_lt _ _ _ Hok Hb). pose proof (ctx_ok_lt _ _ _ Hok Hl).
  unfold replay_end in E. cbv zeta in E.
  apply bind_done in E as (_ & _ & E). apply bind_done in E as (stack & _ & E).
  cbn [b_id add_operator set_iteration_ctx] in E.
  apply bind_done in E as (ctx1 & E1 & E). apply bind_done in E as (ctx2 & E2 & E).
  apply bind_done in E as (ctx3 & E3 & E).
  destruct (connect_acc ctx _ _ _ _ _ _ _ _ E1 (ctx_step_refl _ _ Hok)) as [S1 C1]; [done|done| |new_edge|].
  { intros t' f' He. by destruct (Hno _ _ _ _ He). }
  destruct (connect_acc ctx _ _ _ _ _ _ _ _ E2 S1) as [S2 C2]; [lia|lia| |new_edge|].
  { intros t' f' He. by destruct (Hno _ _ _ _ He). }
  destruct (close_acc ctx _ _ _ _ _ E3 S2) as [S3 C3]; [done|].
  destruct (split_acc ctx _ _ _ _ _ _ _ E S3) as (Eid & _ & S4 & _); [cbn; set_solver|].
  split; [lia|]. cbn [b_id add_operator set_iteration_ctx] in S4.
  replace (U ∖ {[b_id body; b_id (p_leader p)]}) with (U ∖ {[b_id body]} ∖ {[b_id (p_leader p)]}) by set_solver.
  exact S4.
Qed.

Lemma iterate_end_step delta feedback p input output body ctx U st nb ctx' :
  p_loop p = Some (input, output) →
  ctx_ok ctx U → b_id body ∈ U → b_id (p_leader p) ∈ U → b_id input ∈ U →
  NoDup [b_id body; b_id (p_leader p); b_id input; b_id output] →
  (b_id output < ctx_block_count ctx)%N →
  (p_start p < ctx_block_count ctx)%N → p_start p ≠ b_id output → p_start p ≠ b_id (p_leader p) →
  (∀ x y t f, ctx_edge ctx x y t f → x ≠ b_id (p_leader p) ∧ y ≠ b_id (p_leader p) ∧ y ≠ b_id output) →
  (∀ t f, ¬ ctx_edge ctx (b_id input) (p_start p) t f) →
  iterate_end delta feedback p body ctx = Done (st, nb, ctx') →
  nb = output ∧ (ctx_block_count ctx ≤ b_id st)%N ∧
  ∃ L, ctx_step ctx ctx' ({[b_id st]} ∪ U ∖ {[b_id body; b_id (p_leader p); b_id input]}) L ∧
    ∀ x y t f, (x, y, t, f) ∈ L →
      (x = p_start p ∧ y = b_id output) ∨
      ((x = b_id body ∨ x = b_id (p_leader p) ∨ x = b_id input ∨ ((ctx_block_count ctx ≤ x)%N ∧ x ≠ b_id st)) ∧
       ((ctx_block_count ctx ≤ y)%N ∨ y = p_start p ∨ y = b_id (p_leader p))).
Proof.
  intros Hp Hok Hb Hl Hi Hn Ho Hs Hso Hsl Hno Hin E.
  pose proof (ctx_ok_lt _ _ _ Hok Hb). pose proof (ctx_ok_lt _ _ _ Hok Hl). pose proof (ctx_ok_lt _ _ _ Hok Hi).
  rewrite !NoDup_cons, !not_elem_of_cons in Hn. destruct Hn as ((? & ? & ? & _) & (? & ? & _) & (? & _) & _).
  unfold iterate_end in E. rewrite Hp in E. cbn [unwrap mbind outcome_bind] in E. cbv zeta in E.
  apply bind_done in E as ([bs ctx1] & E1 & E). apply bind_done in E as (_ & _ & E). apply bind_done in E as (stack & _ & E).
  destruct (split_acc ctx _ _ _ _ _ _ _ E1 (ctx_step_refl _ _ Hok) Hb) as (I1 & _ & S1 & C1).
  destruct (new_block _ _ _ _ ctx1) as [sb ctx2] eqn:E2.
  destruct (new_block_step _ _ _ _ _ _ _ _ (cs_ok _ _ _ _ S1) E2) as (I2 & S2' & C2).
  pose proof (ctx_step_trans _ _ _ _ _ _ _ S1 S2') as S2. rewrite app_nil_r in S2. clear S1 S2' E1 E2.
  cbn [b_id add_operator set_iteration_ctx set_only_one] in E.
  apply bind_done in E as (ctx3 & E3 & E).
  destruct (connect_acc ctx _ _ _ _ _ _ _ _ E3 S2) as [S3 C3]; [lia|lia|done|new_edge|]. clear S2.
  assert (∀ x y t f, (ctx_block_count ctx ≤ x)%N → ¬ ctx_edge ctx x y t f) as Hfx.
  { intros x y t f Hle He. eapply no_edge_fresh; [done|done|by right]. }
  apply bind_done in E as (ctx4 & E4 & E).
  destruct (connect_acc ctx _ _ _ _ _ _ _ _ E4 S3) as [S4 C4]; [lia|lia|intros; apply Hfx; lia|new_edge|]. clear S3.
  apply bind_done in E as (ctx5 & E5 & E).
  destruct (connect_acc ctx _ _ _ _ _ _ _ _ E5 S4) as [S5 C5]; [lia|lia|intros; apply Hfx; lia|new_edge|]. clear S4.
  apply bind_done in E as (ctx6 & E6 & E).
  destruct (connect_acc ctx _ _ _ _ _ _ _ _ E6 S5) as [S6 C6]; [lia|lia|intros ?? ?%Hno; tauto|new_edge|]. clear S5.
  apply bind_done in E as (ctx7 & E7 & E).
  destruct (connect_acc ctx _ _ _ _ _ _ _ _ E7 S6) as [S7 C7]; [lia|lia|intros; apply Hfx; lia|new_edge|]. clear S6.
  apply bind_done in E as (ctx8 & E8 & E).
  destruct (connect_acc ctx _ _ _ _ _ _ _ _ E8 S7) as [S8 C8]; [lia|lia|intros ?? ?%Hno; tauto|new_edge|]. clear S7.
  apply bind_done in E as (ctx9 & E9 & E). apply bind_done in E as (ctx10 & E10 & E).
  apply bind_done in E as (ctx11 & E11 & E). apply bind_done in E as ([ss ctx12] & E12 & [= <- <- <-]).
  destruct (close_acc ctx _ _ _ _ _ E9 S8) as [S9 C9]; [cbn; set_solver|]. cbn [b_id add_operator] in S9. clear S8.
  destruct (close_acc ctx _ _ _ _ _ E10 S9) as [S10 C10];
    [cbn; apply elem_of_difference; split; [set_solver|rewrite elem_of_singleton; lia]|].
  cbn [b_id add_operator set_only_one set_iteration_ctx] in S10. clear S9.
  destruct (close_acc ctx _ _ _ _ _ E11 S10) as [S11 C11];
    [cbn; rewrite !elem_of_difference, !elem_of_union, !elem_of_difference, !elem_of_singleton; split_and!; try lia; right; right; split; [done|lia]|]. clear S10.
  destruct (split_acc ctx _ _ _ _ _ _ _ E12 S11) as (I12 & _ & S12 & _);
    [cbn; rewrite !elem_of_difference, !elem_of_union, !elem_of_difference, !elem_of_singleton; split_and!; try lia; right; right; split; [done|lia]|]. clear S11.
  split; [done|]. split; [lia|]. eexists. split.
  - match type of S12 with ctx_step _ _ ?V _ => replace (_ ∪ _ ∖ _) with V; [exact S12|] end.
    apply set_eq. intros z. rewrite !elem_of_union, !elem_of_difference, !elem_of_union, !elem_of_difference, !elem_of_singleton.
    split; [tauto|]. intros [->|[Hz Hz']]; [by left|]. pose proof (ctx_ok_lt _ _ _ Hok Hz).
    assert (z ≠ b_id sb) by lia. assert (z ≠ b_id bs) by lia. tauto.
  - intros x y t f. rewrite !elem_of_app, !list_elem_of_singleton, elem_of_nil. intros HL.
    repeat (destruct HL as [HL|HL]); [done|injection HL as -> -> -> ->; clear -I1 I2 I12 C1 C2 C3 C4 C5 C6 C7 C8 C9 C10 C11..];
      first [left; split; reflexivity|right; split; lia].
Qed.

(** *** The invariant of a program being built *)
Definition pending_ids (p : Pending) : list BlockId :=
  b_id (p_leader p) :: match p_loop p with Some (input, output) => [b_id input; b_id output] | None => [] end.
Definition all_pending (ps : list Pending) : list BlockId := ps ≫= pending_ids.
(** The blocks numbered but not scheduled. *)
Definition unscheduled (streams : gmap BlockId Block) (ps : list Pending) : gset BlockId :=
  dom streams ∪ list_to_set (all_pending ps).

Lemma elem_of_unscheduled streams ps k :
  k ∈ unscheduled streams ps ↔ is_Some (streams !! k) ∨ k ∈ all_pending ps.
Proof. unfold unscheduled. by rewrite elem_of_union, elem_of_dom, elem_of_list_to_set. Qed.
Lemma unscheduled_empty streams ps : unscheduled streams ps = ∅ → streams = ∅ ∧ ps = [].
Proof.
  unfold unscheduled. intros [Hs Hp]%empty_union_L. split; [by apply dom_empty_inv_L in Hs|].
  destruct ps as [|p ps]; [done|]. exfalso. unfold all_pending, pending_ids in Hp. cbn in Hp. set_solver.
Qed.
Lemma all_pending_app ps qs : all_pending (ps ++ qs) = all_pending ps ++ all_pending qs.
Proof. apply bind_app. Qed.

(** An iteration whose body is being built: its leader is not connected yet, nothing goes
    to its output, and what enters its first block does not come from open blocks. *)
Record pending_ok ctx U (p : Pending) : Prop := {
  po_start : (p_start p < ctx_block_count ctx)%N;
  po_leader x y t f : ctx_edge ctx x y t f → x ≠ b_id (p_leader p) ∧ y ≠ b_id (p_leader p);
  po_output i o x y t f : p_loop p = Some (i, o) → ctx_edge ctx x y t f → y ≠ b_id o;
  po_input i o x t f : p_loop p = Some (i, o) → ctx_edge ctx x (p_start p) t f → x ∉ U
}.
(** Where the leaders and outputs are, for the edges to avoid them. *)
Definition reserved (p : Pending) : list BlockId :=
  b_id (p_leader p) :: match p_loop p with Some (_, output) => [b_id output] | None => [] end.

Record builder_ok (bu : Builder) : Prop := {
  bo_ctx : ctx_ok (bu_ctx bu) (unscheduled (bu_open bu) (bu_pending bu));
  bo_keys k b : bu_open bu !! k = Some b → b_id b = k;
  bo_nodup : NoDup (all_pending (bu_pending bu));
  bo_disj k : k ∈ all_pending (bu_pending bu) → bu_open bu !! k = None;
  bo_pending p : p ∈ bu_pending bu → pending_ok (bu_ctx bu) (unscheduled (bu_open bu) (bu_pending bu)) p;
  bo_starts p q : p ∈ bu_pending bu → q ∈ bu_pending bu → p_start p ∉ reserved q
}.

Lemma reserved_pending p ps x : p ∈ ps → x ∈ reserved p → x ∈ all_pending ps.
Proof.
  intros Hp Hx. apply list_elem_of_bind. exists p. split; [|done]. unfold reserved, pending_ids in *.
  destruct (p_loop p) as [[i o]|]; set_solver.
Qed.

(** The edges an operation adds. *)
Definition edges_allowed ctx U' (ps : list Pending) (L : list (BlockId * BlockId * N * bool)) : Prop :=
  ∀ x y t f, (x, y, t, f) ∈ L →
    ((ctx_block_count ctx ≤ y)%N ∨ x ∉ U' ∨ ∀ q, q ∈ ps → p_start q ≠ y) ∧
    ∀ q, q ∈ ps → x ≠ b_id (p_leader q) ∧ y ∉ reserved q.

Lemma pending_ok_step ctx U ctx' U' L ps p :
  pending_ok ctx U p → p ∈ ps → ctx_step ctx ctx' U' L → edges_allowed ctx U' ps L →
  (∀ b, b ∈ U' → b ∈ U ∨ (ctx_block_count ctx ≤ b)%N) → ctx_ok ctx U → pending_ok ctx' U' p.
Proof.
  intros [Hs Hl Ho Hi] Hp S HL HU Hok. pose proof (cs_count _ _ _ _ S) as HC. split.
  - lia.
  - intros x y t f [He|He]%(cs_edges _ _ _ _ S); [by eapply Hl|].
    destruct (HL _ _ _ _ He) as [_ Hq]. destruct (Hq _ Hp) as [Hx Hy]. split; [done|].
    intros ->. apply Hy. by left.
  - intros i o x y t f Ep [He|He]%(cs_edges _ _ _ _ S); [by eapply Ho|].
    destruct (HL _ _ _ _ He) as [_ Hq]. destruct (Hq _ Hp) as [Hx Hy].
    intros ->. apply Hy. unfold reserved. rewrite Ep. set_solver.
  - intros i o x t f Ep [He|He]%(cs_edges _ _ _ _ S) Hx.
    + destruct (HU _ Hx) as [?|?]; [by eapply Hi|]. destruct (ctx_ok_bounds _ _ _ _ _ _ Hok He). lia.
    + destruct (HL _ _ _ _ He) as [[Hc|[Hc|Hc]] _]; [lia|done|by destruct (Hc _ Hp)].
Qed.

Lemma builder_step ctx streams ps ctx' streams' ps' L :
  builder_ok (mkBuilder ctx streams ps) → ctx_step ctx ctx' (unscheduled streams' ps') L →
  edges_allowed ctx (unscheduled streams' ps') ps' L →
  (∀ k b, streams' !! k = Some b → b_id b = k) →
  (∀ k, is_Some (streams' !! k) → k ∈ unscheduled streams ps ∧ k ∉ all_pending ps' ∨ (ctx_block_count ctx ≤ k)%N) →
  (∃ done, ps = done ++ ps') →
  builder_ok (mkBuilder ctx' streams' ps').
Proof.
  intros [Hc Hk Hn Hd Hp Hs] S HL Hk' Hopen [dn ->].
  cbn [bu_ctx bu_open bu_pending] in *. rewrite all_pending_app in Hn.
  split; cbn [bu_ctx bu_open bu_pending]; try done.
  - apply S.
  - by apply NoDup_app in Hn as (_ & _ & Hn).
  - intros k Hkp. apply eq_None_not_Some. intros [[_ ?]|Hle]%Hopen; [done|].
    assert (k ∈ unscheduled streams (dn ++ ps')) as Hin.
    { apply elem_of_unscheduled. right. rewrite all_pending_app. set_solver. }
    pose proof (ctx_ok_lt _ _ _ Hc Hin). lia.
  - intros p Hin. eapply pending_ok_step; [apply Hp; set_solver|done|done|done| |done].
    intros b [Hb|Hb]%elem_of_unscheduled; [destruct (Hopen _ Hb) as [[? _]|?]; auto|].
    left. apply elem_of_unscheduled. right. rewrite all_pending_app. set_solver.
  - intros p q Hp' Hq. apply Hs; set_solver.
Qed.

Lemma hold_lookup bs streams k b :
  hold bs streams !! k = Some b → (b ∈ bs ∧ b_id b = k) ∨ streams !! k = Some b.
Proof.
  induction bs as [|b' bs IH]; cbn; [by right|]. destruct (decide (b_id b' = k)) as [<-|Hne].
  - rewrite lookup_insert_eq. intros [= ->]. left. split; [by left|done].
  - rewrite lookup_insert_ne by done. intros [[? ?]|?]%IH; [left; split; [by right|done]|by right].
Qed.
Lemma hold_dom bs streams : dom (hold bs streams) = list_to_set (b_id <$> bs) ∪ dom streams.
Proof.
  induction bs as [|b bs IH]; cbn [hold foldr fmap list_fmap list_to_set]; [set_solver|].
  fold (hold bs streams). rewrite dom_insert_L, IH. set_solver.
Qed.

(** The methods that only open and close blocks. *)
Lemma builder_opened ctx streams ps C bs ctx' L streams0 :
  builder_ok (mkBuilder ctx streams ps) → C ⊆ dom streams →
  (∀ k, k ∈ C → streams0 !! k = None) → (∀ k, k ∉ C → streams0 !! k = streams !! k) →
  opened ctx (unscheduled streams ps) C bs ctx' L →
  builder_ok (mkBuilder ctx' (hold bs streams0) ps).
Proof.
  intros Hbu HC Hin Hout [S F N HL]. rewrite Forall_forall in F.
  assert (∀ k b, streams0 !! k = Some b → k ∉ C ∧ streams !! k = Some b) as H0.
  { intros k b Hk. destruct (decide (k ∈ C)) as [Hc|Hc]; [rewrite (Hin _ Hc) in Hk; done|]. by rewrite <-Hout. }
  assert (dom streams0 = dom streams ∖ C) as Hdom.
  { apply set_eq. intros k. rewrite elem_of_difference, !elem_of_dom. split.
    - intros [b Hk]. destruct (H0 _ _ Hk). split; [by eexists|done].
    - intros [Hk Hc]. by rewrite Hout. }
  pose proof Hbu as [Bc Bk Bn Bd Bp Bs].
  cbn [bu_ctx bu_open bu_pending] in *.
  assert (∀ k, k ∈ all_pending ps → k ∉ C ∧ (k < ctx_block_count ctx)%N) as Hpend.
  { intros k Hk. split; [|eapply ctx_ok_lt; [done|]; apply elem_of_unscheduled; by right].
    intros Hc%HC%elem_of_dom. rewrite (Bd _ Hk) in Hc. by destruct Hc. }
  assert (list_to_set (b_id <$> bs) ∪ unscheduled streams ps ∖ C = unscheduled (hold bs streams0) ps) as EU.
  { unfold unscheduled. rewrite hold_dom, Hdom. apply set_eq. intros k.
    rewrite !elem_of_union, !elem_of_difference, !elem_of_union, !elem_of_list_to_set. specialize (Hpend k). tauto. }
  rewrite EU in S. eapply builder_step; [done|done| | | |by exists []].
  - intros x y t f He. destruct (HL _ _ _ _ He) as [Hx Hy]. split; [by left|]. intros q Hq. split.
    + intros ->. destruct (Hpend (b_id (p_leader q))) as [? _]; [|done]. eapply reserved_pending; [done|by left].
    + intros Hr. destruct (Hpend y); [by eapply reserved_pending|lia].
  - intros k b [[_ <-]|Hk]%hold_lookup; [done|]. apply Bk. by apply H0.
  - intros k [b [[Hb <-]|Hk]%hold_lookup]; [right; by apply F|]. left. destruct (H0 _ _ Hk) as [_ Hk'].
    split; [apply elem_of_unscheduled; left; by eexists|]. intros Hp%Bd. by rewrite Hp in Hk'.
Qed.
Lemma builder_opened1 ctx streams ps b bs ctx' L :
  builder_ok (mkBuilder ctx streams ps) → streams !! b_id b = Some b →
  opened ctx (unscheduled streams ps) {[b_id b]} bs ctx' L →
  builder_ok (mkBuilder ctx' (hold bs (delete (b_id b) streams)) ps).
Proof.
  intros Hbu Hb Ho. eapply builder_opened; [done| | | |done].
  - apply singleton_subseteq_l, elem_of_dom. by eexists.
  - intros k ->%elem_of_singleton. by rewrite lookup_delete_eq.
  - intros k Hk. rewrite lookup_delete_ne; [done|]. set_solver.
Qed.

Lemma take_stream_done b bu block streams :
  builder_ok bu → take_stream b bu = Done (block, streams) →
  bu_open bu !! b_id block = Some block ∧ streams = delete (b_id block) (bu_open bu) ∧
  b_id block ∈ unscheduled (bu_open bu) (bu_pending bu).
Proof.
  intros Hbu E. unfold take_stream in E. apply bind_done in E as (block' & E1 & [= -> <-]).
  destruct (bu_open bu !! b) eqn:Eb; [|done]. injection E1 as ->. pose proof (bo_keys _ Hbu _ _ Eb) as ->.
  split_and!; [done|done|]. apply elem_of_unscheduled. left. by eexists.
Qed.

Lemma builder_same ctx streams ps b b' :
  builder_ok (mkBuilder ctx streams ps) → streams !! b_id b = Some b → b_id b' = b_id b →
  builder_ok (mkBuilder ctx (hold [b'] (delete (b_id b) streams)) ps).
Proof.
  intros Hbu Hb Eb. pose proof Hbu as [Bc Bk _ Bd _ _]. cbn [bu_ctx bu_open bu_pending] in *.
  assert (unscheduled (hold [b'] (delete (b_id b) streams)) ps = unscheduled streams ps) as EU.
  { unfold unscheduled. f_equal. rewrite hold_dom. cbn [fmap list_fmap]. rewrite list_to_set_singleton_L, Eb, dom_delete_L.
    assert (b_id b ∈ dom streams) by (apply elem_of_dom; by eexists).
    apply set_eq. intros k. destruct (decide (k = b_id b)); set_solver. }
  eapply builder_step; [done|rewrite EU; by apply ctx_step_refl| | | |by exists []].
  - by intros ???? ?%elem_of_nil.
  - intros k b0 [[_ <-]|Hk]%hold_lookup; [done|]. apply lookup_delete_Some in Hk as [_ Hk]. by apply Bk.
  - intros k Hk. left. rewrite <-EU. split; [apply elem_of_unscheduled; by left|].
    intros Hp%Bd. assert (k ∈ dom (hold [b'] (delete (b_id b) streams))) as Hd by by apply elem_of_dom.
    rewrite hold_dom in Hd. cbn [fmap list_fmap] in Hd. rewrite list_to_set_singleton_L, Eb in Hd.
    apply elem_of_union in Hd as [->%elem_of_singleton|Hd]; [congruence|].
    apply elem_of_dom in Hd as [? [_ Hd]%lookup_delete_Some]. congruence.
Qed.

(** The begin of an iteration. *)
Lemma builder_push ctx streams ps ctx' streams' p :
  builder_ok (mkBuilder ctx streams ps) → ctx_step ctx ctx' (unscheduled streams' (p :: ps)) [] →
  (∀ k b, streams' !! k = Some b → b_id b = k) → NoDup (pending_ids p) →
  (∀ k, k ∈ pending_ids p → streams' !! k = None ∧ k ∉ all_pending ps) →
  (∀ k, k ∈ reserved p → (ctx_block_count ctx ≤ k)%N ∧ p_start p ≠ k) →
  (∀ k, is_Some (streams' !! k) → is_Some (streams !! k) ∨ (ctx_block_count ctx ≤ k)%N) →
  (∀ k, k ∈ pending_ids p → is_Some (streams !! k) ∨ (ctx_block_count ctx ≤ k)%N) →
  (p_start p < ctx_block_count ctx')%N → p_start p ∉ all_pending ps →
  (p_loop p = None ∨ (ctx_block_count ctx ≤ p_start p)%N) →
  builder_ok (mkBuilder ctx' streams' (p :: ps)).
Proof.
  intros [Bc Bk Bn Bd Bp Bs] S Hk Hn Hids Hres Hopen Hpids Hst Hsp Hloop. cbn [bu_ctx bu_open bu_pending] in *.
  assert (∀ k, k ∈ all_pending ps → (k < ctx_block_count ctx)%N) as Hlt.
  { intros k Hin. eapply ctx_ok_lt; [done|]. apply elem_of_unscheduled. by right. }
  assert (all_pending (p :: ps) = pending_ids p ++ all_pending ps) as EA by done.
  assert (∀ b, b ∈ unscheduled streams' (p :: ps) → b ∈ unscheduled streams ps ∨ (ctx_block_count ctx ≤ b)%N) as HU.
  { intros b. rewrite !elem_of_unscheduled, EA, elem_of_app.
    intros [Hb|[Hb|Hb]]; [destruct (Hopen _ Hb)|destruct (Hpids _ Hb)|]; auto. }
  split; cbn [bu_ctx bu_open bu_pending]; rewrite ?EA; try done.
  - apply S.
  - apply NoDup_app. split_and!; [done|by intros k [_ ?]%Hids|done].
  - intros k [Hin|Hin]%elem_of_app; [by apply Hids|]. apply eq_None_not_Some. intros [Hs|Hle]%Hopen.
    + rewrite (Bd _ Hin) in Hs. by destruct Hs.
    + specialize (Hlt _ Hin). lia.
  - intros q [->|Hq]%elem_of_cons.
    + assert (∀ x y t f, ctx_edge ctx' x y t f → (x < ctx_block_count ctx)%N ∧ (y < ctx_block_count ctx)%N) as Hold.
      { intros x y t f [He|[]%elem_of_nil]%(cs_edges _ _ _ _ S). by eapply ctx_ok_bounds. }
      split; [done| | |].
      * intros x y t f [Hx Hy]%Hold. destruct (Hres (b_id (p_leader p))) as [? _]; [by left|]. lia.
      * intros i o x y t f Ep [Hx Hy]%Hold. destruct (Hres (b_id o)) as [? _]; [|lia]. unfold reserved. rewrite Ep. set_solver.
      * intros i o x t f Ep [Hx Hy]%Hold. destruct Hloop as [?|?]; [congruence|lia].
    + eapply (pending_ok_step ctx _ _ _ []); [by apply Bp|done|done|by intros ???? ?%elem_of_nil|done|done].
  - intros q1 q2 [->|H1]%elem_of_cons [->|H2]%elem_of_cons.
    + intros Hr. by destruct (Hres _ Hr).
    + intros Hr. apply Hsp. by eapply reserved_pending.
    + intros [Hr _]%Hres. pose proof (po_start _ _ _ (Bp _ H1)). lia.
    + by apply Bs.
Qed.

Lemma is_Some_hold bs streams k : is_Some (hold bs streams !! k) ↔ k ∈ b_id <$> bs ∨ is_Some (streams !! k).
Proof. by rewrite <-elem_of_dom, hold_dom, elem_of_union, elem_of_list_to_set, elem_of_dom. Qed.
Lemma is_Some_delete (streams : gmap BlockId Block) i k :
  is_Some (delete i streams !! k) ↔ i ≠ k ∧ is_Some (streams !! k).
Proof. apply lookup_delete_is_Some. Qed.
Lemma hold_keys bs (streams streams0 : gmap BlockId Block) :
  (∀ k b, streams !! k = Some b → b_id b = k) → (∀ k b, streams0 !! k = Some b → streams !! k = Some b) →
  ∀ k b, hold bs streams0 !! k = Some b → b_id b = k.
Proof. intros Hk H0 k b [[_ <-]|Hb]%hold_lookup; [done|]. by apply Hk, H0. Qed.
Lemma new_lock_step ctx U l ctx' :
  ctx_ok ctx U → new_lock ctx = (l, ctx') → ctx_step ctx ctx' U [] ∧ ctx_block_count ctx' = ctx_block_count ctx.
Proof.
  intros Hok [= <- <-]. split; [|done]. split; [done|cbn; lia|]. intros. rewrite elem_of_nil. unfold ctx_edge. cbn. tauto.
Qed.

Lemma replay_begin_ok ctx streams ps state m b b' p ctx' :
  builder_ok (mkBuilder ctx streams ps) → streams !! b_id b = Some b →
  replay_begin state m b ctx = Done (b', p, ctx') →
  builder_ok (mkBuilder ctx' (hold [b'] (delete (b_id b) streams)) (p :: ps)).
Proof.
  intros Hbu Hb E. pose proof Hbu as [Bc Bk _ Bd _ _]. cbn [bu_ctx bu_open bu_pending] in *.
  unfold replay_begin in E. apply bind_done in E as (_ & _ & E).
  destruct (new_block One state m (b_iteration_ctx b) ctx) as [leader ctx1] eqn:E1.
  destruct (new_lock ctx1) as [l ctx2] eqn:E2. injection E as <- <- <-.
  destruct (new_block_step _ _ _ _ _ _ _ _ Bc E1) as (Eid & S1 & C1).
  destruct (new_lock_step _ _ _ _ (cs_ok _ _ _ _ S1) E2) as [S2 C2].
  assert (b_id b ∈ unscheduled streams ps) as HbU by (apply elem_of_unscheduled; left; by eexists).
  pose proof (ctx_ok_lt _ _ _ Bc HbU) as Hlt.
  assert (∀ k, k ∈ all_pending ps → (k < ctx_block_count ctx)%N) as Hpl.
  { intros k Hk. eapply ctx_ok_lt; [done|]. apply elem_of_unscheduled. by right. }
  assert (∀ k, is_Some (streams !! k) → (k < ctx_block_count ctx)%N) as Hsl.
  { intros k Hk. eapply ctx_ok_lt; [done|]. apply elem_of_unscheduled. by left. }
  eapply builder_push; [exact Hbu| |..]; unfold reserved, pending_ids; cbn [p_leader p_loop p_start b_id set_iteration_ctx add_operator].
  - pose proof (ctx_step_trans _ _ _ _ _ _ _ S1 S2) as S. cbn [app] in S.
    match goal with |- ctx_step _ _ ?V _ => replace V with ({[b_id leader]} ∪ unscheduled streams ps); [exact S|] end.
    apply set_eq. intros k. rewrite elem_of_union, elem_of_singleton, !elem_of_unscheduled, is_Some_hold, is_Some_delete.
    unfold all_pending. cbn [mbind list_bind pending_ids p_leader p_loop app fmap list_fmap b_id set_iteration_ctx add_operator].
    rewrite !elem_of_cons, !elem_of_nil. fold (all_pending ps).
    destruct (decide (b_id b = k)) as [<-|]; [|naive_solver]. assert (is_Some (streams !! b_id b)) by by eexists. tauto.
  - eapply hold_keys; [done|]. intros k b0 [_ ?]%lookup_delete_Some. done.
  - apply NoDup_singleton.
  - intros k ->%list_elem_of_singleton. split; [|intros ?%Hpl; lia]. apply eq_None_not_Some.
    intros [Hk|[_ Hk]%is_Some_delete]%is_Some_hold; [|specialize (Hsl _ Hk); lia].
    apply list_elem_of_singleton in Hk. cbn in Hk. lia.
  - intros k ->%list_elem_of_singleton. lia.
  - intros k [->%list_elem_of_singleton|[_ Hk]%is_Some_delete]%is_Some_hold; left; [by eexists|done].
  - intros k ->%list_elem_of_singleton. right. lia.
  - lia.
  - intros Hk%Bd. congruence.
  - by left.
Qed.

Lemma iterate_begin_ok ctx streams ps state b b' p ctx' :
  builder_ok (mkBuilder ctx streams ps) → streams !! b_id b = Some b →
  iterate_begin state b ctx = Done (b', p, ctx') →
  builder_ok (mkBuilder ctx' (hold [b'] (delete (b_id b) streams)) (p :: ps)).
Proof.
  intros Hbu Hb E. pose proof Hbu as [Bc Bk _ Bd _ _]. cbn [bu_ctx bu_open bu_pending] in *.
  unfold iterate_begin in E. apply bind_done in E as (_ & _ & E).
  destruct (new_block One _ _ _ ctx) as [leader ctx1] eqn:E1. destruct (new_lock ctx1) as [l ctx2] eqn:E2.
  destruct (new_block _ _ _ _ ctx2) as [iter ctx3] eqn:E3.
  match type of E with (let '(_, _) := ?nb in _) = _ => destruct nb as [output ctx4] eqn:E4 end. injection E as <- <- <-.
  destruct (new_block_step _ _ _ _ _ _ _ _ Bc E1) as (I1 & S1 & C1).
  destruct (new_lock_step _ _ _ _ (cs_ok _ _ _ _ S1) E2) as [S2 C2].
  destruct (new_block_step _ _ _ _ _ _ _ _ (cs_ok _ _ _ _ S2) E3) as (I3 & S3 & C3).
  destruct (new_block_step _ _ _ _ _ _ _ _ (cs_ok _ _ _ _ S3) E4) as (I4 & S4 & C4).
  assert (∀ k, k ∈ all_pending ps → (k < ctx_block_count ctx)%N) as Hpl.
  { intros k Hk. eapply ctx_ok_lt; [done|]. apply elem_of_unscheduled. by right. }
  assert (∀ k, is_Some (streams !! k) → (k < ctx_block_count ctx)%N) as Hsl.
  { intros k Hk. eapply ctx_ok_lt; [done|]. apply elem_of_unscheduled. by left. }
  assert (is_Some (streams !! b_id b)) as HbS by by eexists. pose proof (Hsl _ HbS) as Hlt.
  eapply builder_push; [exact Hbu| |..]; unfold reserved, pending_ids; cbn [p_leader p_loop p_start b_id set_iteration_ctx add_operator set_only_one].
  - pose proof (ctx_step_trans _ _ _ _ _ _ _ S1 (ctx_step_trans _ _ _ _ _ _ _ S2 (ctx_step_trans _ _ _ _ _ _ _ S3 S4))) as S.
    cbn [app] in S.
    match goal with |- ctx_step _ _ ?V _ =>
      replace V with ({[b_id output]} ∪ ({[b_id iter]} ∪ ({[b_id leader]} ∪ unscheduled streams ps))); [exact S|] end.
    apply set_eq. intros k. rewrite !elem_of_union, !elem_of_singleton, !elem_of_unscheduled, is_Some_hold, is_Some_delete.
    unfold all_pending. cbn [mbind list_bind pending_ids p_leader p_loop app fmap list_fmap b_id set_iteration_ctx add_operator set_only_one].
    rewrite !elem_of_cons, elem_of_nil. fold (all_pending ps).
    destruct (decide (b_id b = k)) as [<-|]; [|naive_solver]. tauto.
  - eapply hold_keys; [done|]. intros k b0 [_ ?]%lookup_delete_Some. done.
  - rewrite !NoDup_cons, !not_elem_of_cons. split_and!; try lia; try apply not_elem_of_nil. apply NoDup_nil_2.
  - intros k Hk. assert (k = b_id b ∨ (k = b_id leader ∨ k = b_id output)) as Hk'.
    { rewrite !elem_of_cons, elem_of_nil in Hk. tauto. }
    split.
    + apply eq_None_not_Some. intros [Hi|[Hd Hi]%is_Some_delete]%is_Some_hold.
      * apply list_elem_of_singleton in Hi. cbn in Hi. lia.
      * specialize (Hsl _ Hi). destruct Hk' as [->|?]; [done|lia].
    + intros Hp. specialize (Bd _ Hp). specialize (Hpl _ Hp). destruct Hk' as [->|?]; [congruence|lia].
  - intros k Hk. rewrite !elem_of_cons, elem_of_nil in Hk. destruct Hk as [->|[->|[]]]; lia.
  - intros k [->%list_elem_of_singleton|[_ Hk]%is_Some_delete]%is_Some_hold; [right; cbn; lia|by left].
  - intros k Hk. rewrite !elem_of_cons, elem_of_nil in Hk. destruct Hk as [->|[->|[->|[]]]]; [right; lia|by left|right; lia].
  - lia.
  - intros Hp%Hpl. lia.
  - right. lia.
Qed.

Lemma replay_end_ok ctx streams ps delta feedback p b nb ctx' :
  builder_ok (mkBuilder ctx streams (p :: ps)) → streams !! b_id b = Some b → p_loop p = None →
  replay_end delta feedback p b ctx = Done (nb, ctx') →
  builder_ok (mkBuilder ctx' (hold [nb] (delete (b_id b) streams)) ps).
Proof.
  intros Hbu Hb Hp E. pose proof Hbu as [Bc Bk Bn Bd Bp Bs]. cbn [bu_ctx bu_open bu_pending] in *.
  assert (all_pending (p :: ps) = b_id (p_leader p) :: all_pending ps) as EA.
  { unfold all_pending. cbn [mbind list_bind]. unfold pending_ids at 1. by rewrite Hp. }
  rewrite EA in Bn, Bd. apply NoDup_cons in Bn as [Hnl Bn].
  destruct (Bp p) as [Hst Hle _ _]; [by left|].
  assert (is_Some (streams !! b_id b)) as HbS by by eexists.
  assert (b_id b ≠ b_id (p_leader p)) as Hne by (intros Eq; rewrite Eq, Bd in HbS; [by destruct HbS|by left]).
  destruct (replay_end_step delta feedback p b ctx _ nb ctx' Bc) as (Eid & S); try done.
  { apply elem_of_unscheduled. by left. }
  { apply elem_of_unscheduled. right. rewrite EA. by left. }
  assert (∀ k, k ∈ all_pending ps → (k < ctx_block_count ctx)%N ∧ k ≠ b_id b ∧ k ≠ b_id (p_leader p)) as Hpl.
  { intros k Hk. split_and!; [|intros ->; rewrite Bd in Hb; [done|by right]|by intros ->].
    eapply ctx_ok_lt; [done|]. apply elem_of_unscheduled. right. rewrite EA. by right. }
  match type of S with ctx_step _ _ ?V _ => assert (V = unscheduled (hold [nb] (delete (b_id b) streams)) ps) as EU end.
  { apply set_eq. intros k.
    rewrite elem_of_union, elem_of_difference, elem_of_union, !elem_of_singleton, !elem_of_unscheduled, is_Some_hold, is_Some_delete, EA.
    cbn [fmap list_fmap]. rewrite !elem_of_cons, elem_of_nil. specialize (Hpl k). pose proof (Bd k) as Hd.
    rewrite elem_of_cons in Hd. destruct (decide (k = b_id (p_leader p))) as [Hk|Hk]; [|naive_solver].
    rewrite Hd by (by left). pose proof (is_Some_None (A := Block)). naive_solver. }
  rewrite EU in S. eapply builder_step; [done|done| | | |by exists [p]].
  - intros x y t f He.
    assert ((x = b_id b ∨ x = b_id (p_leader p)) ∧ (y = b_id (p_leader p) ∨ y = p_start p ∨ y = b_id nb)) as [Hx Hy].
    { rewrite !elem_of_cons, elem_of_nil in He. naive_solver. }
    split.
    + right. left. rewrite <-EU, elem_of_union, elem_of_difference, elem_of_union, !elem_of_singleton.
      assert (b_id b < ctx_block_count ctx ∧ b_id (p_leader p) < ctx_block_count ctx)%N as [? ?].
      { split; (eapply ctx_ok_lt; [done|]); apply elem_of_unscheduled; [by left|right; rewrite EA; by left]. }
      intros [?|[_ ?]]; [lia|tauto].
    + intros q Hq. split.
      * intros ->. destruct (Hpl (b_id (p_leader q))) as (_ & ? & ?); [|tauto]. eapply reserved_pending; [done|by left].
      * intros Hr. destruct Hy as [->|[->| ->]].
        -- destruct (Hpl (b_id (p_leader p))) as (_ & _ & ?); [by eapply reserved_pending|done].
        -- revert Hr. apply Bs; [by left|by right].
        -- destruct (Hpl (b_id nb)) as (? & _); [by eapply reserved_pending|lia].
  - eapply hold_keys; [done|]. intros k b0 [_ ?]%lookup_delete_Some. done.
  - intros k [->%list_elem_of_singleton|[Hd Hk]%is_Some_delete]%is_Some_hold; [right; lia|left].
    split; [apply elem_of_unscheduled; by left|]. intros Hkp. rewrite Bd in Hk; [by destruct Hk|by right].
Qed.

Lemma iterate_end_ok ctx streams ps delta feedback p b st nb ctx' :
  builder_ok (mkBuilder ctx streams (p :: ps)) → streams !! b_id b = Some b →
  iterate_end delta feedback p b ctx = Done (st, nb, ctx') →
  builder_ok (mkBuilder ctx' (hold [st; nb] (delete (b_id b) streams)) ps).
Proof.
  intros Hbu Hb E. pose proof Hbu as [Bc Bk Bn Bd Bp Bs]. cbn [bu_ctx bu_open bu_pending] in *.
  destruct (p_loop p) as [[i o]|] eqn:Hp; [|unfold iterate_end in E; rewrite Hp in E; done].
  assert (all_pending (p :: ps) = b_id (p_leader p) :: b_id i :: b_id o :: all_pending ps) as EA.
  { unfold all_pending. cbn [mbind list_bind]. unfold pending_ids at 1. by rewrite Hp. }
  assert (∀ k, k ∈ all_pending (p :: ps) → k ∈ unscheduled streams (p :: ps)) as HpU.
  { intros k Hk. apply elem_of_unscheduled. by right. }
  assert (∀ k, k ∈ all_pending (p :: ps) → (k < ctx_block_count ctx)%N) as HpL.
  { intros k Hk. eapply ctx_ok_lt; [done|by apply HpU]. }
  assert (∀ k, k ∈ all_pending (p :: ps) → k ≠ b_id b) as HpB.
  { intros k Hk ->. rewrite Bd in Hb; done. }
  rewrite EA in Bn, Bd, HpU, HpL, HpB.
  rewrite !NoDup_cons, !not_elem_of_cons in Bn. destruct Bn as ((Hli & Hlo & Hl) & (Hio & Hi) & Ho & Bn).
  destruct (Bp p) as [Hst Hle Hou Hin]; [by left|].
  assert (p_start p ∉ reserved p) as Hsr by (apply Bs; by left).
  unfold reserved in Hsr. rewrite Hp, !not_elem_of_cons in Hsr. destruct Hsr as (Hsl & Hso & _).
  assert (b_id b ∈ unscheduled streams (p :: ps)) as HbU by (apply elem_of_unscheduled; left; by eexists).
  destruct (iterate_end_step delta feedback p i o b ctx (unscheduled streams (p :: ps)) st nb ctx') as (-> & Eid & L & S & HL); try done.
  { apply HpU. by left. }
  { apply HpU. right. by left. }
  { rewrite !NoDup_cons, !not_elem_of_cons. split_and!; try done; try apply not_elem_of_nil; [..|apply NoDup_nil_2];
      apply not_eq_sym, HpB; set_solver. }
  { apply HpL. set_solver. }
  { intros x y t f He. destruct (Hle _ _ _ _ He). split_and!; [done|done|]. by eapply Hou. }
  { intros t f He. eapply Hin; [done|done|]. apply HpU. right. by left. }
  assert (∀ k, k ∈ all_pending ps → (k < ctx_block_count ctx)%N ∧ k ≠ b_id b ∧ k ≠ b_id (p_leader p) ∧ k ≠ b_id i ∧ k ≠ b_id o) as Hpl.
  { intros k Hk. split_and!; [apply HpL; by repeat right|apply HpB; by repeat right|by intros ->..]. }
  match type of S with ctx_step _ _ ?V _ => assert (V = unscheduled (hold [st; o] (delete (b_id b) streams)) ps) as EU end.
  { apply set_eq. intros k. pose proof (HpB (b_id o) ltac:(set_solver)) as Hob.
    rewrite elem_of_union, elem_of_difference, !elem_of_union, !elem_of_singleton, !elem_of_unscheduled, is_Some_hold, is_Some_delete, EA.
    cbn [fmap list_fmap]. rewrite !elem_of_cons, elem_of_nil. specialize (Hpl k).
    assert (is_Some (streams !! k) → k ≠ b_id (p_leader p) ∧ k ≠ b_id i) as Hd.
    { intros Hk. split; intros ->; (rewrite Bd in Hk; [by destruct Hk|set_solver]). }
    clear -Hpl Hd Hlo Hio Hob. split.
    - intros [->|[Hk Hk']]; [tauto|]. destruct Hk as [Hk|[->|[->|[->|Hk]]]]; try tauto.
      left. right. split; [intros <-; tauto|done].
    - intros [[[->|[->|Hk]]|[Hbk Hk]]|Hk]; [by left| |done|right..].
      + right. split; [tauto|]. intros [[?|?]|?]; congruence.
      + destruct (Hd Hk). split; [tauto|]. intros [[?|?]|?]; congruence.
      + destruct (Hpl Hk) as (_ & ? & ? & ? & ?). tauto. }
  assert (∀ k, k = b_id b ∨ k = b_id (p_leader p) ∨ k = b_id i → (k < ctx_block_count ctx)%N) as Hcl.
  { intros k [->|[->| ->]]; [by eapply ctx_ok_lt|apply HpL; set_solver..]. }
  rewrite EU in S. eapply builder_step; [done|done| | | |by exists [p]].
  - intros x y t f He. destruct (HL _ _ _ _ He) as [[-> ->]|[Hx Hy]].
    + split; [right; right; intros q Hq Es; assert (p_start q ∉ reserved p) as Hr by (apply Bs; [by right|by left])|].
      { apply Hr. unfold reserved. rewrite Hp, Es. set_solver. }
      intros q Hq. split.
      * assert (p_start p ∉ reserved q) as Hr by (apply Bs; [by left|by right]). intros Es. apply Hr. rewrite Es. by left.
      * intros Hr. apply Ho. by eapply reserved_pending.
    + split.
      * right. left. rewrite <-EU, elem_of_union, elem_of_difference, !elem_of_union, !elem_of_singleton.
        intros [->|[Hx1 Hx2]]; [|destruct Hx as [?|[?|[?|[Hx _]]]]; [tauto..|]].
        -- destruct Hx as [?|[?|[?|[_ ?]]]]; [..|done]; (specialize (Hcl (b_id st) ltac:(tauto)); lia).
        -- pose proof (ctx_ok_lt _ _ _ Bc Hx1). lia.
      * intros q Hq. split.
        -- intros ->. destruct (Hpl (b_id (p_leader q))) as (? & ? & ? & ? & ?); [eapply reserved_pending; [done|by left]|].
           destruct Hx as [?|[?|[?|[Hx _]]]]; [done..|lia].
        -- intros Hr. destruct Hy as [Hy|[->| ->]].
           ++ destruct (Hpl y) as (? & _); [by eapply reserved_pending|lia].
           ++ revert Hr. apply Bs; [by left|by right].
           ++ destruct (Hpl (b_id (p_leader p))) as (_ & _ & ? & _); [by eapply reserved_pending|done].
  - eapply hold_keys; [done|]. intros k b0 [_ ?]%lookup_delete_Some. done.
  - intros k [Hk|[Hd Hk]%is_Some_delete]%is_Some_hold.
    + cbn [fmap list_fmap] in Hk. rewrite !elem_of_cons, elem_of_nil in Hk. destruct Hk as [->|[->|[]]]; [by right|left].
      split; [apply HpU; set_solver|done].
    + left. split; [apply elem_of_unscheduled; by left|]. intros Hkp. rewrite Bd in Hk; [by destruct Hk|by repeat right].
Qed.

Lemma ctx_stream_opened r out m ctx U b ctx' :
  ctx_ok ctx U → ctx_stream r out m ctx = Done (b, ctx') → opened ctx U ∅ [b] ctx' [].
Proof.
  intros Hok E. unfold ctx_stream in E. apply bind_done in E as (_ & _ & E).
  destruct (new_block r out m [] ctx) as [nb ctx1] eqn:En. injection E as -> ->.
  destruct (new_block_step _ _ _ _ _ _ _ _ Hok En) as (Eid & S & _).
  split; [|constructor; [lia|done]|apply NoDup_singleton|by intros ???? ?%elem_of_nil].
  cbn [fmap list_fmap]. rewrite list_to_set_singleton_L, difference_empty_L. exact S.
Qed.
Lemma finalize_block_opened b ctx U ctx' :
  ctx_ok ctx U → b_id b ∈ U → finalize_block b ctx = Done ctx' → opened ctx U {[b_id b]} [] ctx' [].
Proof.
  intros Hok Hb E. destruct (close_block_step (add_operator unit_type b) _ _ _ Hok Hb E) as [S _].
  split; [|done|apply NoDup_nil_2|by intros ???? ?%elem_of_nil].
  cbn [fmap list_fmap list_to_set foldr]. by rewrite union_empty_l_L.
Qed.

(** The two inputs of a method are different streams. *)
Lemma binary_ok ctx streams ps b1 b2 o1 o2 out nb nb' ctx' :
  builder_ok (mkBuilder ctx streams ps) → streams !! b_id b1 = Some b1 →
  delete (b_id b1) streams !! b_id b2 = Some b2 → b_id nb' = b_id nb →
  binary_connection o1 o2 out b1 b2 ctx = Done (nb, ctx') →
  builder_ok (mkBuilder ctx' (hold [nb'] (delete (b_id b2) (delete (b_id b1) streams))) ps).
Proof.
  intros Hbu H1 [Hne H2]%lookup_delete_Some En E.
  destruct (binary_connection_opened o1 o2 out b1 b2 ctx (unscheduled streams ps) nb ctx' (bo_ctx _ Hbu)) as [L HL];
    [apply elem_of_unscheduled; left; by eexists..|done|done|].
  eapply (builder_opened _ streams _ {[b_id b1; b_id b2]}); [done| | | |].
  - intros k. rewrite elem_of_union, !elem_of_singleton, elem_of_dom. intros [-> | ->]; by eexists.
  - intros k. rewrite elem_of_union, !elem_of_singleton. intros [-> | ->]; [|by rewrite lookup_delete_eq].
    rewrite lookup_delete_ne by done. by rewrite lookup_delete_eq.
  - intros k Hk. rewrite elem_of_union, !elem_of_singleton in Hk. rewrite !lookup_delete_ne by naive_solver. done.
  - eapply opened_ids; [|exact HL]. by rewrite !list_fmap_singleton, En.
Qed.

Lemma take_two ctx streams ps b block rest :
  take_stream b (mkBuilder ctx streams ps) = Done (block, rest) →
  (∀ k b, streams !! k = Some b → b_id b = k) →
  streams !! b_id block = Some block ∧ rest = delete (b_id block) streams.
Proof.
  intros E Hk. unfold take_stream in E. apply bind_done in E as (block' & E1 & [= -> <-]). cbn in *.
  destruct (streams !! b) eqn:Eb; [|done]. injection E1 as ->. by pose proof (Hk _ _ Eb) as ->.
Qed.

Lemma Done_inj {A} (x y : A) : Done x = Done y → x = y.
Proof. by intros [= ->]. Qed.

(** Every operation keeps the invariant. *)
Lemma build_op_ok m o bu bu' : builder_ok bu → build_op m o bu = Done bu' → builder_ok bu'.
Proof.
  destruct bu as [ctx streams ps]. intros Hbu E. pose proof (bo_ctx _ Hbu) as Hc. pose proof (bo_keys _ Hbu) as Hk.
  cbn [bu_ctx bu_open bu_pending] in Hc, Hk.
  assert (∀ b block rest, take_stream b (mkBuilder ctx streams ps) = Done (block, rest) →
    streams !! b_id block = Some block ∧ rest = delete (b_id block) streams ∧ b_id block ∈ unscheduled streams ps) as Htake.
  { intros b block rest Et. by apply (take_stream_done _ _ _ _ Hbu Et). }
  destruct o; cbn [build_op bu_ctx bu_open bu_pending] in E;
    [apply bind_done in E as ([b ctx1] & Et & <-%Done_inj)
    |apply bind_done in E as ([block rest] & Et & E); destruct (Htake _ _ _ Et) as (Hb & -> & HbU)..].
  - pose proof (ctx_stream_opened _ _ _ _ _ _ _ Hc Et) as Ho.
    apply (builder_opened _ _ _ ∅ [b] _ [] streams Hbu); [set_solver|set_solver|done|done].
  - apply Done_inj in E as <-. by eapply (builder_same _ _ _ _ _ Hbu Hb).
  - apply Done_inj in E as <-. by eapply (builder_same _ _ _ _ _ Hbu Hb).
  - apply bind_done in E as ([nb ctx1] & Er & <-%Done_inj). unfold repartition in Er.
    apply bind_done in Er as ([nb' ctx2] & Er & [= <- <-]).
    pose proof (split_block_opened _ _ _ _ _ _ Hc HbU Er) as Ho.
    eapply builder_opened1; [done|done|]. eapply opened_ids; [|done]. done.
  - apply bind_done in E as ([bs ctx1] & Es & <-%Done_inj).
    destruct (stream_split_opened _ _ _ _ _ _ Hc HbU Es) as [L Ho]. by eapply builder_opened1.
  - apply bind_done in E as ([block2 rest] & Et2 & E). apply bind_done in E as ([nb ctx1] & Eb & <-%Done_inj).
    apply take_two in Et2 as [H2 ->]; [|intros k b [_ ?]%lookup_delete_Some; by apply Hk]. eapply (binary_ok _ _ _ _ _ _ _ _ _ _ _ Hbu Hb H2); [|exact Eb]; done.
  - apply bind_done in E as ([block2 rest] & Et2 & E). apply bind_done in E as ([nb ctx1] & Eb & <-%Done_inj).
    apply take_two in Et2 as [H2 ->]; [|intros k b [_ ?]%lookup_delete_Some; by apply Hk].
    unfold stream_zip in Eb. apply bind_done in Eb as ([nb' ctx2] & Eb & [= <- <-]). eapply (binary_ok _ _ _ _ _ _ _ _ _ _ _ Hbu Hb H2); [|exact Eb]; done.
  - apply bind_done in E as ([bs ctx1] & Er & <-%Done_inj).
    destruct (route_build_opened _ _ _ _ _ _ Hc HbU Er) as [L Ho]. by eapply builder_opened1.
  - apply bind_done in E as (ctx1 & Ef & <-%Done_inj).
    pose proof (finalize_block_opened _ _ _ _ Hc HbU Ef) as Ho. by apply (builder_opened1 _ _ _ _ [] _ _ Hbu Hb Ho).
  - apply bind_done in E as ([[nb p] ctx1] & Er & <-%Done_inj). by eapply replay_begin_ok.
  - apply bind_done in E as (p & Ep & E). apply bind_done in E as (u & El & E).
    apply bind_done in E as ([nb ctx1] & Er & <-%Done_inj). destruct ps as [|q ps]; [done|]. injection Ep as ->.
    eapply replay_end_ok; [done|done| |done]. revert El. by case_bool_decide.
  - apply bind_done in E as ([[nb p] ctx1] & Er & <-%Done_inj). by eapply iterate_begin_ok.
  - apply bind_done in E as (p & Ep & E).
    apply bind_done in E as ([[st nb] ctx1] & Er & <-%Done_inj). destruct ps as [|q ps]; [done|]. injection Ep as ->.
    by eapply iterate_end_ok.
Qed.
Lemma build_ok m ops bu bu' : builder_ok bu → build m ops bu = Done bu' → builder_ok bu'.
Proof.
  revert bu. induction ops as [|o ops IH]; intros bu Hbu E; [by injection E as <-|].
  unfold build in E. cbn [forM] in E. apply bind_done in E as (bu1 & E1 & E). eapply IH; [|done]. by eapply build_op_ok.
Qed.
Lemma builder_new_ok : builder_ok (Builder_new config).
Proof.
  split; cbn; try done; [|by apply NoDup_nil_2|by intros ? ?%elem_of_nil|by intros ? ? ?%elem_of_nil].
  split; [done|]. eexists. split; [done|]. split; cbn.
  - intros b. rewrite lookup_empty, elem_of_unscheduled, lookup_empty. split; [lia|].
    intros [[? ?]|[[? ?]|?%elem_of_nil]]; done.
  - intros b _. apply lookup_empty.
  - apply map_Forall_empty.
  - intros x y t f. unfold edge. cbn. rewrite lookup_empty. intros ?%elem_of_nil. done.
  - intros x y t1 t2 f1 f2. unfold edge. cbn. rewrite lookup_empty. intros ?%elem_of_nil. done.
  - intros x y t. unfold edge. cbn. rewrite !lookup_empty. cbn. setoid_rewrite elem_of_nil. naive_solver.
  - intros x. by rewrite lookup_empty.
Qed.

(** *** When the program is run *)
Lemma graph_ok_size s n U : graph_ok config s n U → size (sc_block_info s) + size U = N.to_nat n.
Proof.
  intros [Hids Hopen _ _ _ _ _].
  assert (dom (sc_block_info s) ∪ U = list_to_set (N.of_nat <$> seq 0 (N.to_nat n))) as E.
  { apply set_eq. intros b. rewrite elem_of_union, elem_of_dom, <-Hids, elem_of_list_to_set, list_elem_of_fmap.
    split; [intros Hb; exists (N.to_nat b); split; [lia|apply elem_of_seq; lia]|].
    intros (i & -> & [_ Hi]%elem_of_seq). lia. }
  rewrite <-(size_dom (D := gset BlockId)), <-size_union, E.
  - rewrite size_list_to_set, length_fmap, length_seq; [done|]. apply (NoDup_fmap_2 N.of_nat). apply NoDup_seq.
  - intros b Hb HU. apply elem_of_dom in Hb. rewrite (Hopen _ HU) in Hb. by destruct Hb.
Qed.
End building.

(** C13. A program that ends every stream and every iteration can be run: the scheduler it
    starts has every block that was numbered and no other, each placed on the hosts, its
    graph mentions only those blocks, carries one type between two blocks, and its two
    adjacency lists mirror each other.  A program that leaves a stream or an iteration
    open is refused, whether the stream is still held or was dropped. *)
Theorem program_graph config m ops bu :
  build m ops (Builder_new config) = Done bu →
  (bu_open bu = ∅ → bu_pending bu = [] →
   ∃ s, execute_blocking 0 (bu_ctx bu) = Done s ∧ scheduled config s ∧ graph_closed s ∧ job_typed s ∧
     (∀ b, is_Some (sc_block_info s !! b) ↔ (b < ctx_block_count (bu_ctx bu))%N) ∧
     ∀ x y t, (x, t) ∈ default [] (prev_blocks s !! y) ↔ ∃ f, (y, t, f) ∈ default [] (next_blocks s !! x)) ∧
  (bu_open bu ≠ ∅ ∨ bu_pending bu ≠ [] → ∀ held, execute_blocking held (bu_ctx bu) = Panicked).
Proof.
  intros E. pose proof (build_ok config m ops _ _ (builder_new_ok config) E) as Hbu.
  destruct (bo_ctx _ _ Hbu) as (_ & s & Es & G). pose proof (graph_ok_size _ _ _ _ G) as Hsize.
  unfold execute_blocking. rewrite Es. cbn [unwrap mbind outcome_bind]. split.
  - intros Ho Hp. rewrite Ho, Hp in G, Hsize. exists s.
    assert (unscheduled ∅ [] = ∅) as EU by (unfold unscheduled; rewrite dom_empty_L; apply union_empty_l_L).
    rewrite EU in G, Hsize. rewrite size_empty in Hsize. cbn [rassert Nat.eqb].
    rewrite (proj2 (N.eqb_eq _ _)) by lia. split; [done|]. split; [apply G|].
    assert (∀ b, is_Some (sc_block_info s !! b) ↔ (b < ctx_block_count (bu_ctx bu))%N) as Hids.
    { intros b. rewrite (go_ids _ _ _ _ G). set_solver. }
    split_and!; [| |done|apply G].
    + intros x next Hx. split.
      * apply Hids. destruct next as [|[[y t] f] next].
        -- by destruct (go_nonempty _ _ _ _ G x).
        -- eapply (go_bounds _ _ _ _ G x y t f). unfold edge. rewrite Hx. by left.
      * apply Forall_forall. intros [[y t] f] Hy. apply Hids. eapply (go_bounds _ _ _ _ G x y t f).
        unfold edge. by rewrite Hx.
    + intros b next to t1 t2 f1 f2 Hb H1 H2. eapply (go_typed _ _ _ _ G b to); unfold edge; rewrite Hb; done.
  - intros Hne held. destruct held; [|done]. cbn [rassert Nat.eqb]. cbn.
    assert (size (unscheduled (bu_open bu) (bu_pending bu)) ≠ 0) as Hs.
    { apply size_non_empty_iff. intros EU. fold_leibniz. apply unscheduled_empty in EU. naive_solver. }
    rewrite (proj2 (N.eqb_neq _ _)) by lia. done.
Qed.

Module EnvironmentExample.
(** A stream split in two; one half is iterated and joined with the other. *)
Definition program : list op :=
  [OStream Unlimited 7; OSplit 0 2; OIterateBegin 1 9; OAddOperator 4 7; OIterateEnd 4 8 10;
   OBinary 2 5 false false 11; OSink 9; OSink 8].
Definition built : Builder :=
  match build Single program (Builder_new (Local 2)) with Done bu => bu | _ => Builder_new (Local 2) end.
(** The same program without its last sink. *)
Definition unfinished : Builder :=
  match build Single (removelast program) (Builder_new (Local 2)) with Done bu => bu | _ => Builder_new (Local 2) end.

Lemma program_graph_witness :
  (∃ s, execute_blocking 0 (bu_ctx built) = Done s ∧ graph_closed s ∧ job_typed s ∧
     default [] (next_blocks s !! 4%N) = [(6%N, 7%N, false); (5%N, 7%N, true)]) ∧
  execute_blocking 0 (bu_ctx unfinished) = Panicked.
Proof.
  split.
  - destruct (program_graph (Local 2) Single program built) as [H _]; [vm_compute; reflexivity|].
    destruct H as (s & E & _ & Hc & Ht & _); [vm_compute; reflexivity|vm_compute; reflexivity|].
    exists s. split_and!; [done|done|done|]. vm_compute in E. injection E as <-. vm_compute. reflexivity.
  - destruct (program_graph (Local 2) Single (removelast program) unfinished) as [_ H]; [vm_compute; reflexivity|].
    apply H. left. intros E. apply (f_equal (λ m, m !! 8%N)) in E. vm_compute in E. discriminate E.
Defined.
End EnvironmentExample.
