(* ===== verification/Registry.v ===== *)
(** * Channels, multiplexers and demultiplexers of the hosts

    What [NetworkTopology::get_sender] and [get_receiver] ([src/src/network/topology.rs])
    leave behind when the replicas of a host ask for the channels of the execution graph,
    and that the hosts agree: a demultiplexer expects as many connections as there are
    hosts that open one, at the address they open it to. *)
From stdpp Require Import strings.
From S2P Require Import Prelude StreamElement Operator Frontier Batcher Start End Shuffle Config Topology Scheduler.

(** What a replica asks the topology of its host for. *)
Inductive Request :=
| GetSender (typ : N) (ep : ReceiverEndpoint)
| GetReceiver (typ : N) (ep : ReceiverEndpoint).

Global Instance Request_eq_dec : EqDecision Request.
Proof. solve_decision. Defined.

Definition serve `{!HashOrder} (config : RuntimeConfig) (r : Request) (net : NetworkTopology)
    : outcome NetworkTopology :=
  match r with
  | GetSender typ ep => snd <$> get_sender config typ ep net
  | GetReceiver typ ep => snd <$> get_receiver config typ ep net
  end.

(** Whether the channel to [ep] leaves the host [h]. *)
Definition leaves (config : RuntimeConfig) (h : HostId) (ep : ReceiverEndpoint) : bool :=
  match config with
  | Local _ => false
  | Remote _ => negb (N.eqb (host_id (re_coord ep)) h)
  end.
Definition sender_of (config : RuntimeConfig) (h : HostId) (ep : ReceiverEndpoint) : NetworkSender :=
  if leaves config h ep then Mux ep (demux_of_endpoint ep) else LocalSender ep.

(** The blocks of other hosts that send to a demultiplexer. *)
Definition sends_to (t : N) (d : DemuxCoord) (e : Edge) : Prop :=
  e_typ e = t ∧ host_id (e_from e) ≠ bc_host_id (dc_coord d) ∧ DemuxCoord_new (e_from e) (e_to e) = d.
Global Instance sends_to_dec t d e : Decision (sends_to t d e).
Proof. unfold sends_to. apply _. Defined.
Definition peers (es : list Edge) (t : N) (d : DemuxCoord) : gset BlockCoord :=
  list_to_set ((λ e, blockcoord_of_coord (e_from e)) <$> base.filter (sends_to t d) es).

Lemma elem_of_peers es t d b :
  b ∈ peers es t d ↔ ∃ e, e ∈ es ∧ sends_to t d e ∧ b = blockcoord_of_coord (e_from e).
Proof.
  unfold peers. rewrite elem_of_list_to_set, list_elem_of_fmap.
  setoid_rewrite list_elem_of_filter. naive_solver.
Qed.

Lemma demux_endpoint_edge e : demux_of_endpoint (edge_endpoint e) = DemuxCoord_new (e_from e) (e_to e).
Proof. done. Qed.

(** A loop that inserts when a test succeeds. *)
Lemma foldl_insert_if {X Y} `{Countable X} (f : Y → option X) (ys : list Y) (s : gset X) x :
  x ∈ foldl (λ s y, match f y with Some x => {[x]} ∪ s | None => s end) s ys ↔
  x ∈ s ∨ ∃ y, y ∈ ys ∧ f y = Some x.
Proof.
  revert s. induction ys as [|y ys IH]; intros s; simpl.
  { split; [by left|]. intros [?|(? & ?%elem_of_nil & _)]; done. }
  rewrite IH. setoid_rewrite elem_of_cons. destruct (f y) eqn:E; set_solver.
Qed.

Section registry.
Context `{!HashOrder} (config : RuntimeConfig) (h : HostId) (es : list Edge)
  (addresses : gmap DemuxCoord (string * N)).

(** The part of the topology that the channels do not change. *)
Record graph_part (net : NetworkTopology) : Prop := {
  gp_next c t : topology_next net c t = omap (next_of c t) es;
  gp_metadata ep r : senders_metadata net !! ep = Some r ↔
    (∃ e, e ∈ es ∧ ep = edge_endpoint e ∧ touches h e) ∧ r = negb (N.eqb (host_id (re_coord ep)) h);
  gp_addresses : demultiplexer_addresses net = addresses
}.

(** [regs] are the channels registered so far, by type and endpoint; [got] are those
    whose receiver was taken. *)
Section maps.
Context (regs got : gset (N * ReceiverEndpoint)).
Definition senders_ok (m : gmap (N * ReceiverEndpoint) NetworkSender) : Prop := ∀ t ep s,
  m !! (t, ep) = Some s ↔ (t, ep) ∈ regs ∧ s = sender_of config h ep.
Definition receivers_ok (m : gmap (N * ReceiverEndpoint) ReceiverEndpoint) : Prop := ∀ t ep r,
  m !! (t, ep) = Some r ↔ (t, ep) ∈ regs ∧ (t, ep) ∉ got ∧ leaves config h ep = false ∧ r = ep.
Definition muxes_ok (m : gmap (N * DemuxCoord) MultiplexingSender) : Prop := ∀ t d x,
  m !! (t, d) = Some x ↔
  (∃ ep, (t, ep) ∈ regs ∧ leaves config h ep = true ∧ d = demux_of_endpoint ep) ∧
  ∃ a, addresses !! d = Some a ∧ x = mkMultiplexingSender d a.
Record demuxes_ok (m : gmap (N * DemuxCoord) DemuxHandle) : Prop := {
  do_handle t d x : m !! (t, d) = Some x →
    dh_coord x = d ∧ addresses !! d = Some (dh_address x) ∧ num_clients x = size (peers es t d);
  do_senders t d x : m !! (t, d) = Some x →
    NoDup (tx_senders x) ∧
    ∀ ep, ep ∈ tx_senders x ↔
      (t, ep) ∈ regs ∧ leaves config h ep = false ∧ demux_of_endpoint ep = d;
  do_some t d : is_Some (m !! (t, d)) ↔
    (∃ ep, (t, ep) ∈ regs ∧ leaves config h ep = false ∧ demux_of_endpoint ep = d) ∧
    (∃ r, config = Remote r) ∧ peers es t d ≠ ∅
}.
End maps.

Record registry (regs got : gset (N * ReceiverEndpoint)) (net : NetworkTopology) : Prop := {
  rg_graph : graph_part net;
  rg_senders : ∃ m, nt_senders net = Some m ∧ senders_ok regs m;
  rg_receivers : ∃ m, receivers net = Some m ∧ receivers_ok regs got m;
  rg_muxes : ∃ m, multiplexers net = Some m ∧ muxes_ok regs m;
  rg_demuxes : ∃ m, demultiplexers net = Some m ∧ demuxes_ok regs m;
  rg_registered ep : ep ∈ registered_receivers net ↔ ∃ t, (t, ep) ∈ regs
}.

(** The channels a host may ask for. *)
Definition channel (t : N) (ep : ReceiverEndpoint) : Prop :=
  ∃ e, e ∈ es ∧ touches h e ∧ ep = edge_endpoint e ∧ t = e_typ e.

Lemma demux_prev_peers net t d : graph_part net → demux_prev t d net = peers es t d.
Proof.
  intros Hg. apply leibniz_equiv. intros b. rewrite elem_of_peers. unfold demux_prev.
  assert (∀ ns (s : gset BlockCoord), b ∈ foldl (λ prev '((from, t'), to),
      if N.eqb (host_id from) (bc_host_id (dc_coord d)) then prev
      else if negb (N.eqb t' t) then prev
      else foldl (λ prev '(to, _),
             if includes_channel d from to then {[blockcoord_of_coord from]} ∪ prev else prev) prev to)
      s (ns : list (Coord * N * list (Coord * bool))) ↔
    b ∈ s ∨ ∃ from tos to fragile, (from, t, tos) ∈ ns ∧ (to, fragile) ∈ tos ∧
      host_id from ≠ bc_host_id (dc_coord d) ∧ DemuxCoord_new from to = d ∧
      b = blockcoord_of_coord from) as Hloop.
  { induction ns as [|[[from t'] tos] ns IH]; intros s; simpl.
    { split; [by left|]. intros [?|(? & ? & ? & ? & ?%elem_of_nil & _)]; done. }
    rewrite IH. setoid_rewrite elem_of_cons. clear IH.
    destruct (N.eqb_spec (host_id from) (bc_host_id (dc_coord d))) as [E|E]; [naive_solver|].
    destruct (N.eqb_spec t' t) as [->|E']; simpl; [|naive_solver].
    assert (∀ s : gset BlockCoord, foldl (λ prev '(to, _),
             if includes_channel d from to then {[blockcoord_of_coord from]} ∪ prev else prev) s tos =
      foldl (λ s (p : Coord * bool), match (if includes_channel d from p.1
         then Some (blockcoord_of_coord from) else None) with Some x => {[x]} ∪ s | None => s end) s tos)
      as ->.
    { clear. induction tos as [|[to f] tos IH]; intros s; simpl; [done|].
      destruct (includes_channel d from to); apply IH. }
    rewrite foldl_insert_if. split.
    - intros [[?|([to f] & Hin & Hi)]|?]; [by left| |naive_solver]. simpl in Hi.
      destruct (includes_channel d from to) eqn:Ei; [|done]. apply includes_channel_iff in Ei.
      right. exists from, tos, to, f. naive_solver.
    - intros [?|(f & ts & to & fr & [Heq|?] & Hto & ? & Hd & ->)]; [by do 2 left| |right; naive_solver].
      injection Heq as -> ->. left. right. exists (to, fr). split; [done|]. simpl.
      by rewrite (proj2 (includes_channel_iff _ _ _)). }
  rewrite Hloop, elem_of_empty. split.
  - intros [[]|(from & tos & to & fr & Hin & Hto & ? & ? & ->)].
    rewrite (hash_iter_perm (nt_next net)), elem_of_map_to_list in Hin.
    pose proof (gp_next _ Hg from t) as E. unfold topology_next in E. rewrite Hin in E. simpl in E.
    rewrite E in Hto. apply list_elem_of_omap in Hto as (e & He & Hn). unfold next_of in Hn.
    case_decide as Hd; [|done]. destruct Hd as [<- <-]. injection Hn as <- <-. by exists e.
  - intros (e & He & (<- & ? & ?) & ->). right.
    pose proof (gp_next _ Hg (e_from e) (e_typ e)) as E. unfold topology_next in E.
    assert ((e_to e, e_fragile e) ∈ omap (next_of (e_from e) (e_typ e)) es) as Hin.
    { apply list_elem_of_omap. exists e. split; [done|]. unfold next_of. by rewrite decide_True. }
    rewrite <-E in Hin. destruct (nt_next net !! _) as [tos|] eqn:En; [|by apply elem_of_nil in Hin].
    exists (e_from e), tos, (e_to e), (e_fragile e).
    rewrite (hash_iter_perm (nt_next net)), elem_of_map_to_list. done.
Qed.

Lemma graph_part_set_channels net a b c d : graph_part net → graph_part (set_channels net a b c d).
Proof. by intros [???]. Qed.
Lemma graph_part_set_used net u r : graph_part net → graph_part (set_used net u r).
Proof. by intros [???]. Qed.
Lemma registry_set_used regs got net u :
  registry regs got net → registry regs got (set_used net u (registered_receivers net)).
Proof. intros [Hg ?????]. split; simpl; try done. by apply graph_part_set_used. Qed.

Context (Hhost : config_host_id config = Some h)
  (Haddr : ∀ r e, config = Remote r → e ∈ es → is_Some (addresses !! demux_of_endpoint (edge_endpoint e)))
  (Htyped : ∀ e1 e2, e1 ∈ es → e2 ∈ es → edge_endpoint e1 = edge_endpoint e2 → e_typ e1 = e_typ e2).

(** How the maps follow one more registered channel. *)
Section extend.
Context (regs got : gset (N * ReceiverEndpoint)) (t : N) (ep : ReceiverEndpoint)
  (Hnew : (t, ep) ∉ regs).
Abbreviation regs' := ({[(t, ep)]} ∪ regs).

Lemma senders_ok_insert m :
  senders_ok regs m → senders_ok regs' (<[(t, ep) := sender_of config h ep]> m).
Proof.
  unfold senders_ok. intros Hm t' ep' s. destruct (decide ((t', ep') = (t, ep))) as [[= -> ->]|Hne].
  - rewrite lookup_insert_eq. set_solver.
  - rewrite lookup_insert_ne, Hm by congruence. set_solver.
Qed.

Lemma receivers_ok_leaves m :
  leaves config h ep = true → receivers_ok regs got m → receivers_ok regs' got m.
Proof.
  unfold receivers_ok. intros Hl Hm t' ep' r. rewrite Hm. split; [set_solver|].
  intros ([[= -> ->]%elem_of_singleton|?]%elem_of_union & ? & ? & ->); [congruence|done].
Qed.
Lemma receivers_ok_insert m :
  leaves config h ep = false → (t, ep) ∉ got →
  receivers_ok regs got m → receivers_ok regs' got (<[(t, ep) := ep]> m).
Proof.
  unfold receivers_ok. intros Hl Hg Hm t' ep' r. destruct (decide ((t', ep') = (t, ep))) as [[= -> ->]|Hne].
  - rewrite lookup_insert_eq. set_solver.
  - rewrite lookup_insert_ne, Hm by congruence. set_solver.
Qed.

Lemma muxes_ok_local m : leaves config h ep = false → muxes_ok regs m → muxes_ok regs' m.
Proof.
  unfold muxes_ok. intros Hl Hm t' d x. rewrite Hm. f_equiv. split; intros (ep' & Hin & ? & ->); exists ep';
    [set_solver|]. apply elem_of_union in Hin as [[= -> ->]%elem_of_singleton|?]; [congruence|done].
Qed.
Lemma muxes_ok_known m x :
  m !! (t, demux_of_endpoint ep) = Some x → muxes_ok regs m → muxes_ok regs' m.
Proof.
  unfold muxes_ok. intros Hx Hm t' d y. rewrite Hm. apply Hm in Hx as [(ep' & ? & ? & E) _]. f_equiv.
  split; intros (ep2 & Hin & ? & ->); [exists ep2; set_solver|].
  apply elem_of_union in Hin as [[= -> ->]%elem_of_singleton|?]; [|by exists ep2].
  rewrite E. by exists ep'.
Qed.
Lemma muxes_ok_insert m a :
  leaves config h ep = true → addresses !! demux_of_endpoint ep = Some a → muxes_ok regs m →
  muxes_ok regs' (<[(t, demux_of_endpoint ep) := mkMultiplexingSender (demux_of_endpoint ep) a]> m).
Proof.
  unfold muxes_ok. intros Hl Ha Hm t' d y.
  destruct (decide ((t', d) = (t, demux_of_endpoint ep))) as [[= -> ->]|Hne].
  - rewrite lookup_insert_eq. split.
    + intros [= <-]. split; [exists ep; set_solver|by exists a].
    + intros [_ (a' & Ha' & ->)]. congruence.
  - rewrite lookup_insert_ne, Hm by congruence. f_equiv.
    split; intros (ep' & Hin & ? & ->); exists ep'; [set_solver|].
    split_and!; [|done..]. by apply elem_of_union in Hin as [[= -> ->]%elem_of_singleton|?].
Qed.

Lemma demuxes_ok_other m :
  leaves config h ep = true → demuxes_ok regs m → demuxes_ok regs' m.
Proof.
  intros Hl [H1 H2 H3].
  assert (∀ t' ep', leaves config h ep' = false → (t', ep') ∈ regs' ↔ (t', ep') ∈ regs) as Hr.
  { intros t' ep' Hl'. rewrite elem_of_union, elem_of_singleton. split; [|by right].
    intros [[= -> ->]|?]; [congruence|done]. }
  split; [done| |].
  - intros t' d x Hx. destruct (H2 _ _ _ Hx) as [Hnd Hin]. split; [done|]. intros ep'.
    rewrite Hin. split; intros (? & ? & ?); split_and!; try done; by apply Hr.
  - intros t' d. rewrite H3. f_equiv. split; intros (ep' & ? & ? & ?); exists ep'; split_and!; try done;
      by apply Hr.
Qed.

(** [DemuxHandle::register]. *)
Lemma demuxes_ok_register m x :
  leaves config h ep = false → is_Some (m !! (t, demux_of_endpoint ep)) ∨
    (∃ r, config = Remote r) ∧ peers es t (demux_of_endpoint ep) ≠ ∅ →
  dh_coord x = demux_of_endpoint ep → addresses !! demux_of_endpoint ep = Some (dh_address x) →
  num_clients x = size (peers es t (demux_of_endpoint ep)) →
  (NoDup (tx_senders x) ∧ ∀ ep', ep' ∈ tx_senders x ↔
     (t, ep') ∈ regs ∧ leaves config h ep' = false ∧ demux_of_endpoint ep' = demux_of_endpoint ep) →
  demuxes_ok regs m →
  demuxes_ok regs' (<[(t, demux_of_endpoint ep) := demux_register ep x]> m).
Proof.
  intros Hl Hsome Hc Ha Hn [Hnd Htx] [H1 H2 H3]. split.
  - intros t' d y. destruct (decide ((t', d) = (t, demux_of_endpoint ep))) as [[= -> ->]|Hne].
    + rewrite lookup_insert_eq. by intros [= <-].
    + rewrite lookup_insert_ne by congruence. apply H1.
  - intros t' d y. destruct (decide ((t', d) = (t, demux_of_endpoint ep))) as [[= -> ->]|Hne].
    + rewrite lookup_insert_eq. intros [= <-]. simpl. split.
      * apply NoDup_app. split_and!; [done| |apply NoDup_singleton]. intros ep' Hin.
        rewrite list_elem_of_singleton. intros ->. by apply Htx in Hin as [? _].
      * intros ep'. rewrite elem_of_app, Htx, list_elem_of_singleton, elem_of_union, elem_of_singleton.
        split; [intros [(? & ? & ?)| ->]; (split_and!; [|done..]); [by right|by left]|].
        intros ([[= ->]|?] & ? & ?); [by right|by left].
    + rewrite lookup_insert_ne by congruence. intros Hy. destruct (H2 _ _ _ Hy) as [? Hin].
      split; [done|]. intros ep'. rewrite Hin, elem_of_union, elem_of_singleton.
      split; [intros (? & ? & ?); by auto|].
      intros ([[= -> ->]|?] & ? & ?); [|done]. congruence.
  - intros t' d. destruct (decide ((t', d) = (t, demux_of_endpoint ep))) as [[= -> ->]|Hne].
    + rewrite lookup_insert_eq. split; [|by eauto]. intros _.
      split; [exists ep; set_solver|]. destruct Hsome as [Hs|?]; [|done]. by apply H3 in Hs as [_ ?].
    + rewrite lookup_insert_ne, H3 by congruence. f_equiv.
      split; intros (ep' & Hin & ? & <-); exists ep'; [set_solver|].
      split_and!; [|done..]. by apply elem_of_union in Hin as [[= -> ->]%elem_of_singleton|?].
Qed.

(** No handle when nobody sends from outside. *)
Lemma demuxes_ok_skip m :
  (peers es t (demux_of_endpoint ep) = ∅ ∨ ¬ ∃ r, config = Remote r) →
  m !! (t, demux_of_endpoint ep) = None →
  demuxes_ok regs m → demuxes_ok regs' m.
Proof.
  intros Hp Hnone [H1 H2 H3]. split; [done| |].
  - intros t' d x Hx. destruct (H2 _ _ _ Hx) as [? Hin]. split; [done|]. intros ep'.
    rewrite Hin, elem_of_union, elem_of_singleton. split; [intros (? & ? & ?); by auto|].
    intros ([[= -> ->]|?] & ? & <-); [congruence|done].
  - intros t' d. rewrite H3. split; intros [(ep' & Hin & ? & <-) [Hr Hpe]]; (split; [|done]).
    + exists ep'. set_solver.
    + apply elem_of_union in Hin as [[= -> ->]%elem_of_singleton|?]; [by destruct Hp|by exists ep'].
Qed.
End extend.

Lemma channel_address t ep r :
  channel t ep → config = Remote r → ∃ a, addresses !! demux_of_endpoint ep = Some a.
Proof. intros (e & He & _ & -> & _) Hc. by eapply Haddr. Qed.
Lemma channel_metadata t ep net :
  channel t ep → graph_part net →
  senders_metadata net !! ep = Some (negb (N.eqb (host_id (re_coord ep)) h)).
Proof. intros (e & He & Ht & -> & _) Hg. apply (gp_metadata _ Hg). split; [by exists e|done]. Qed.
Lemma channel_type t t' ep : channel t ep → channel t' ep → t = t'.
Proof. intros (e & He & _ & -> & ->) (e' & He' & _ & E & ->). by apply Htyped. Qed.

Section step.
Context (regs got : gset (N * ReceiverEndpoint)) (t : N) (ep : ReceiverEndpoint)
  (Hch : channel t ep) (Hnew : (t, ep) ∉ regs) (Hgot : (t, ep) ∉ got).
Abbreviation regs' := ({[(t, ep)]} ∪ regs).

Lemma register_mux_ok net r ms :
  config = Remote r → graph_part net → multiplexers net = Some ms → muxes_ok regs ms →
  leaves config h ep = true →
  ∃ ms', register_mux t ep net =
    Done (sender_of config h ep,
          set_channels net (receivers net) (nt_senders net) (demultiplexers net) (Some ms')) ∧
    muxes_ok regs' ms'.
Proof.
  intros Hr Hg Hms Hm Hl. destruct (channel_address t ep r Hch Hr) as [a Ha].
  unfold register_mux, sender_of. rewrite Hms, Hl, (gp_addresses _ Hg), Ha. simpl.
  destruct (ms !! (t, demux_of_endpoint ep)) as [x|] eqn:E; simpl.
  - rewrite E. pose proof E as Ex. apply Hm in E as [_ (a' & ? & ->)]. simpl. exists ms.
    split; [done|]. by eapply muxes_ok_known.
  - rewrite lookup_insert_eq. simpl. eexists. split; [done|]. by apply muxes_ok_insert.
Qed.

Lemma register_demux_ok net r ds :
  config = Remote r → graph_part net → demultiplexers net = Some ds → demuxes_ok regs ds →
  leaves config h ep = false →
  ∃ ds', register_demux t ep net =
    Done (set_channels net (receivers net) (nt_senders net) (Some ds') (multiplexers net)) ∧
    demuxes_ok regs' ds'.
Proof.
  intros Hr Hg Hds Hd Hl. destruct (channel_address t ep r Hch Hr) as [a Ha].
  unfold register_demux. rewrite Hds, (gp_addresses _ Hg), Ha, (demux_prev_peers _ t _ Hg). simpl.
  destruct (ds !! (t, demux_of_endpoint ep)) as [x|] eqn:E; simpl.
  - rewrite E. eexists. split; [done|]. destruct (do_handle _ _ Hd _ _ _ E) as (? & ? & ?).
    apply demuxes_ok_register; eauto. by apply (do_senders _ _ Hd).
  - case_decide as Hp; simpl.
    + rewrite E. eexists. split; [done|]. apply demuxes_ok_skip; auto.
    + rewrite lookup_insert_eq. eexists. split; [done|]. rewrite insert_insert_eq.
      apply demuxes_ok_register; eauto. simpl. split; [constructor|]. intros ep'.
      split; [by intros ?%elem_of_nil|]. intros (Hin & ? & Heq). exfalso.
      destruct (proj2 (do_some _ _ Hd t (demux_of_endpoint ep))) as [y Hy]; [|congruence].
      split; [by exists ep'|eauto].
Qed.

(** [register_channel] on a channel of the execution graph that is not there yet. *)
Lemma register_channel_ok net :
  (∀ t' ep', (t', ep') ∈ regs → channel t' ep') →
  registry regs got net →
  ∃ net', register_channel config t ep net = Done net' ∧
    used_receivers net' = used_receivers net ∧ registry regs' got net'.
Proof.
  intros Hall [Hg (ss & Hss & Hs) (rs & Hrs & Hr) (ms & Hms & Hm) (ds & Hds & Hd) Hreg].
  unfold register_channel. rewrite bool_decide_true.
  2: { rewrite Hreg. intros [t' Ht']. apply Hnew. by rewrite (channel_type t t' ep Hch (Hall _ _ Ht')). }
  simpl. rewrite (channel_metadata t ep net Hch Hg). simpl.
  assert (∀ ep', ep' ∈ {[ep]} ∪ registered_receivers net ↔ ∃ t0, (t0, ep') ∈ regs') as Hreg'.
  { intros ep'. rewrite elem_of_union, elem_of_singleton, Hreg. set_solver. }
  set (net1 := set_used net (used_receivers net) ({[ep]} ∪ registered_receivers net)).
  assert (graph_part net1) as Hg1 by by apply graph_part_set_used.
  case_eq config; [intros p Hc|intros remote Hc].
  - assert (leaves config h ep = false) as Hl by by rewrite Hc.
    unfold insert_receiver, insert_sender. simpl. rewrite Hrs. simpl. rewrite Hss. simpl.
    replace (LocalSender ep) with (sender_of config h ep) by (unfold sender_of; by rewrite Hc).
    eexists. split; [done|]. split; [done|].
    split; simpl; [by destruct Hg1|..|done]; eexists; (split; [done|]).
    + by apply senders_ok_insert.
    + by apply receivers_ok_insert.
    + by apply muxes_ok_local.
    + apply demuxes_ok_skip; [done| | |done].
      * right. intros [? ?]. congruence.
      * destruct (ds !! _) eqn:E; [|done].
        destruct (proj1 (do_some _ _ Hd t (demux_of_endpoint ep))) as (_ & [? ?] & _);
          [by eauto|congruence].
  - assert (leaves config h ep = negb (N.eqb (host_id (re_coord ep)) h)) as Hl by by rewrite Hc.
    destruct (N.eqb_spec (host_id (re_coord ep)) h) as [El|El]; simpl in *.
    + pose proof Hhost as Hh. rewrite Hc in Hh. simpl in Hh. rewrite Hh. simpl. rewrite El, N.eqb_refl. simpl.
      destruct (register_demux_ok net1 remote ds) as (ds' & -> & Hd'); [done..|]. simpl.
      unfold insert_receiver, insert_sender. simpl. rewrite Hrs. simpl. rewrite Hss. simpl.
      replace (LocalSender ep) with (sender_of config h ep) by (unfold sender_of; by rewrite Hl).
      eexists. split; [done|]. split; [done|].
      split; simpl; [by destruct Hg1|..|done]; eexists; (split; [done|]);
        [by apply senders_ok_insert|by apply receivers_ok_insert|by apply muxes_ok_local|done].
    + destruct (register_mux_ok net1 remote ms) as (ms' & -> & Hm'); [done..|]. simpl.
      unfold insert_sender. simpl. rewrite Hss. simpl. eexists. split; [done|]. split; [done|].
      split; simpl; [by destruct Hg1|..|done]; eexists; (split; [done|]);
        [by apply senders_ok_insert|by apply receivers_ok_leaves|done|by apply demuxes_ok_other].
Qed.
End step.

(** The requests that the replicas of host [h] make of the execution graph. *)
Definition allowed (r : Request) : Prop :=
  match r with
  | GetSender t ep => ∃ e, e ∈ es ∧ host_id (e_from e) = h ∧ ep = edge_endpoint e ∧ t = e_typ e
  | GetReceiver t ep => ∃ e, e ∈ es ∧ host_id (e_to e) = h ∧ ep = edge_endpoint e ∧ t = e_typ e
  end.
Definition request_key (r : Request) : N * ReceiverEndpoint :=
  match r with GetSender t ep | GetReceiver t ep => (t, ep) end.
Definition received (r : Request) : option (N * ReceiverEndpoint) :=
  match r with GetSender _ _ => None | GetReceiver t ep => Some (t, ep) end.
Definition regs_of (rs : list Request) : gset (N * ReceiverEndpoint) :=
  list_to_set (request_key <$> rs).
Definition got_of (rs : list Request) : gset (N * ReceiverEndpoint) :=
  list_to_set (omap received rs).

Lemma allowed_channel r : allowed r → channel (request_key r).1 (request_key r).2.
Proof.
  destruct r; simpl; intros (e & ? & ? & -> & ->); exists e; split_and!; try done; [by left|by right].
Qed.

Record served (rs : list Request) (net : NetworkTopology) : Prop := {
  sv_registry : registry (regs_of rs) (got_of rs) net;
  sv_used ep : ep ∈ used_receivers net ↔ ∃ t, (t, ep) ∈ got_of rs
}.

Lemma regs_of_snoc rs r : regs_of (rs ++ [r]) = {[request_key r]} ∪ regs_of rs.
Proof. unfold regs_of. apply leibniz_equiv. rewrite fmap_app, list_to_set_app. set_solver. Qed.
Lemma got_of_snoc rs r :
  got_of (rs ++ [r]) = match received r with Some k => {[k]} ∪ got_of rs | None => got_of rs end.
Proof.
  unfold got_of. apply leibniz_equiv. rewrite omap_app, list_to_set_app. cbn.
  destruct (received r); set_solver.
Qed.
Lemma got_of_regs rs k : k ∈ got_of rs → k ∈ regs_of rs.
Proof.
  unfold got_of, regs_of. rewrite !elem_of_list_to_set, list_elem_of_omap, list_elem_of_fmap.
  intros (r & Hin & Hr). exists r. destruct r; simplify_eq/=. done.
Qed.
Lemma regs_of_channel rs t ep : Forall allowed rs → (t, ep) ∈ regs_of rs → channel t ep.
Proof.
  unfold regs_of. rewrite elem_of_list_to_set, list_elem_of_fmap, Forall_forall.
  intros Hall (r & E & Hr). apply Hall in Hr. apply allowed_channel in Hr. by rewrite <-E in Hr.
Qed.

Lemma get_sender_ok rs net t ep :
  Forall allowed rs → allowed (GetSender t ep) → served rs net →
  ∃ net', get_sender config t ep net = Done (sender_of config h ep, net') ∧
    served (rs ++ [GetSender t ep]) net'.
Proof.
  intros Hrs Ha [Hreg Hu]. pose proof (allowed_channel _ Ha) as Hch. simpl in Hch.
  assert (∀ net' m, nt_senders net' = Some m → senders_ok ({[(t, ep)]} ∪ regs_of rs) m →
    m !! (t, ep) = Some (sender_of config h ep)) as Hget.
  { intros net' m _ Hm. apply Hm. set_solver. }
  unfold get_sender. destruct (rg_senders _ _ _ Hreg) as (m & Em & Hm). rewrite Em. simpl.
  destruct (decide ((t, ep) ∈ regs_of rs)) as [Hin|Hnew].
  - rewrite (proj2 (Hm t ep (sender_of config h ep)) (conj Hin eq_refl)). simpl. rewrite Em. simpl.
    rewrite (proj2 (Hm t ep (sender_of config h ep)) (conj Hin eq_refl)). simpl.
    exists net. split; [done|].
    split; rewrite got_of_snoc, ?regs_of_snoc; simpl; [|done].
    by replace ({[(t, ep)]} ∪ regs_of rs) with (regs_of rs) by set_solver.
  - destruct (m !! (t, ep)) as [x|] eqn:E; [by apply Hm in E as [? _]|].
    destruct (register_channel_ok (regs_of rs) (got_of rs) t ep Hch Hnew) with net
      as (net' & -> & Hu' & Hreg'); [by intros ?%got_of_regs|by intros; eapply regs_of_channel|done|].
    simpl. destruct (rg_senders _ _ _ Hreg') as (m' & Em' & Hm'). rewrite Em'. simpl.
    rewrite (Hget _ _ Em' Hm'). simpl. exists net'. split; [done|].
    split; rewrite got_of_snoc, ?regs_of_snoc; simpl; [done|]. by rewrite Hu'.
Qed.

Lemma registry_take regs got net t ep rs :
  registry regs got net → receivers net = Some rs → (t, ep) ∈ regs →
  registry regs ({[(t, ep)]} ∪ got)
    (set_channels net (Some (delete (t, ep) rs)) (nt_senders net) (demultiplexers net)
       (multiplexers net)).
Proof.
  intros [Hg Hs (rs' & E & Hr) Hm Hd Hreg] Ers Hin. rewrite E in Ers. injection Ers as ->.
  split; try done; [by apply graph_part_set_channels|]. eexists. split; [done|].
  unfold receivers_ok in *. intros t' ep' r.
  destruct (decide ((t', ep') = (t, ep))) as [[= -> ->]|Hne].
  - rewrite lookup_delete_eq. split; [done|]. intros (_ & Hn & _). set_solver.
  - rewrite lookup_delete_ne, Hr by congruence. rewrite not_elem_of_union, not_elem_of_singleton.
    split; [intros (? & ? & ? & ->); by auto|intros (? & [_ ?] & ? & ->); by auto].
Qed.

Lemma get_receiver_ok rs net t ep :
  Forall allowed rs → allowed (GetReceiver t ep) → (t, ep) ∉ got_of rs → served rs net →
  ∃ net', get_receiver config t ep net = Done (ep, net') ∧ served (rs ++ [GetReceiver t ep]) net'.
Proof.
  intros Hrs Ha Hng [Hreg Hu]. pose proof (allowed_channel _ Ha) as Hch. simpl in Hch.
  assert (leaves config h ep = false) as Hl.
  { destruct Ha as (e & _ & Eh & -> & _). unfold leaves, edge_endpoint. simpl.
    destruct config; [done|]. by rewrite Eh, N.eqb_refl. }
  unfold get_receiver. rewrite bool_decide_true.
  2: { rewrite Hu. intros [t' Ht']. apply Hng. rewrite (channel_type t t' ep Hch); [done|].
       eapply regs_of_channel; [done|by apply got_of_regs]. }
  simpl. destruct (rg_receivers _ _ _ Hreg) as (m & Em & Hm). rewrite Em. simpl.
  apply (registry_set_used _ _ _ ({[ep]} ∪ used_receivers net)) in Hreg.
  set (net1 := set_used net ({[ep]} ∪ used_receivers net) (registered_receivers net)) in *.
  assert (∃ net', match m !! (t, ep) with
      | Some _ => Done net1 | None => register_channel config t ep net1 end = Done net' ∧
    used_receivers net' = {[ep]} ∪ used_receivers net ∧
    registry ({[(t, ep)]} ∪ regs_of rs) (got_of rs) net') as (net' & -> & Hu' & Hreg').
  { destruct (decide ((t, ep) ∈ regs_of rs)) as [Hin|Hnew].
    - rewrite (proj2 (Hm t ep ep)) by done. exists net1. split; [done|]. split; [done|].
      by replace ({[(t, ep)]} ∪ regs_of rs) with (regs_of rs) by set_solver.
    - destruct (m !! (t, ep)) as [x|] eqn:E; [by apply Hm in E as [? _]|].
      apply (register_channel_ok (regs_of rs) (got_of rs) t ep Hch Hnew Hng); [|done].
      by intros; eapply regs_of_channel. }
  simpl. destruct (rg_receivers _ _ _ Hreg') as (m' & Em' & Hm'). rewrite Em'. simpl.
  rewrite (proj2 (Hm' t ep ep)) by (split_and!; [set_solver|done..]). simpl.
  eexists. split; [done|]. split; rewrite got_of_snoc, ?regs_of_snoc; simpl.
  - apply registry_take; [done..|set_solver].
  - intros ep'. rewrite Hu', elem_of_union, elem_of_singleton, Hu. set_solver.
Qed.

Lemma serve_all rs : ∀ past net,
  served past net → Forall allowed (past ++ rs) → NoDup (omap received (past ++ rs)) →
  ∃ net', forM rs net (serve config) = Done net' ∧ served (past ++ rs) net'.
Proof.
  induction rs as [|r rs IH]; intros past net Hs Hall Hnd; simpl.
  { exists net. by rewrite app_nil_r. }
  assert (past ++ r :: rs = (past ++ [r]) ++ rs) as Eq by by rewrite <-(assoc_L (++)).
  rewrite Eq in *.
  assert (∃ net', serve config r net = Done net' ∧ served (past ++ [r]) net') as (net' & -> & Hs').
  { apply Forall_app in Hall as [[Hp Hr]%Forall_app _]. rewrite Forall_singleton in Hr.
    destruct r as [t ep|t ep]; simpl.
    - destruct (get_sender_ok past net t ep Hp Hr Hs) as (net' & -> & ?). by exists net'.
    - rewrite omap_app, omap_app in Hnd. apply NoDup_app in Hnd as [Hnd _].
      apply NoDup_app in Hnd as (_ & Hnd & _).
      destruct (get_receiver_ok past net t ep Hp Hr) as (net' & -> & ?); [|done|by exists net'].
      unfold got_of. rewrite elem_of_list_to_set. intros Hin. apply (Hnd _ Hin). by left. }
  simpl. by apply IH.
Qed.

Lemma served_start net :
  graph_built h es net → ∀ net', graph_part net' →
  receivers net' = receivers net → nt_senders net' = nt_senders net →
  demultiplexers net' = demultiplexers net → multiplexers net' = multiplexers net →
  used_receivers net' = used_receivers net → registered_receivers net' = registered_receivers net →
  served [] net'.
Proof using Type.
  clear Haddr Hhost Htyped. intros Hb net' Hg E1 E2 E3 E4 E5 E6.
  destruct (gb_fresh _ _ _ Hb) as (F1 & F2 & F3 & F4 & F5 & F6 & _).
  split; [split|]; try done; rewrite ?E1, ?E2, ?E3, ?E4, ?E5, ?E6, ?F1, ?F2, ?F3, ?F4, ?F5, ?F6.
  - eexists. split; [done|]. intros t ep x. rewrite lookup_empty. set_solver.
  - eexists. split; [done|]. intros t ep x. rewrite lookup_empty. set_solver.
  - eexists. split; [done|]. intros t d x. rewrite lookup_empty. set_solver.
  - eexists. split; [done|]. split; [done..|]. intros t d. rewrite lookup_empty.
    split; [by intros []|]. intros [(? & ? & _) _]. set_solver.
  - intros ep. set_solver.
  - intros ep. set_solver.
Qed.
End registry.

(** ** The topology of a host, from the job graph *)
Section host.
Context `{!HashOrder}.

Definition host_topology (config : RuntimeConfig) (s : Scheduler) : outcome NetworkTopology :=
  net ← build_execution_graph config s NetworkTopology_new; topology_build config net.

Lemma host_topology_served config h s net :
  config_valid config → config_host_id config = Some h → graph_closed s → scheduled config s →
  host_topology config s = Done net →
  served config h (edges_of s) (demultiplexer_addresses net) [] net ∧
  ∀ r e, config = Remote r → e ∈ edges_of s →
    is_Some (demultiplexer_addresses net !! demux_of_endpoint (edge_endpoint e)).
Proof.
  intros Hv Hh Hc Hs Ht. unfold host_topology in Ht.
  destruct (execution_graph_built config s h Hh Hc) as (net1 & E1 & Hb). rewrite E1 in Ht. simpl in Ht.
  assert (∀ net', topology_next net' = topology_next net1 →
    senders_metadata net' = senders_metadata net1 →
    graph_part h (edges_of s) (demultiplexer_addresses net') net') as Hgp.
  { intros net' En Em. split; [intros; rewrite En; apply Hb|intros; rewrite Em; apply Hb|done]. }
  destruct config as [p|remote].
  - injection Ht as <-. split; [|done]. eapply served_start; eauto.
  - pose proof Ht as Hp. apply topology_build_ports in Hp as [used Hp]; [|apply Hb].
    simpl in Ht. inv_bind Ht. injection Ht as <-. split; [by eapply served_start; eauto|].
    intros r e _ He. rewrite demux_endpoint_edge. eapply ports_ok_some; [exact Hp|].
    rewrite (insertion_sort_perm demux_leb (demux_coords net1)).
    apply (proj2 (demux_coords_spec net1)). exists (e_from e), (e_typ e), (e_to e), (e_fragile e).
    split; [|done]. rewrite (gb_next _ _ _ Hb). apply list_elem_of_omap. exists e. split; [done|].
    unfold next_of. by rewrite decide_True.
Qed.

Lemma host_serves config h s net rs :
  config_valid config → config_host_id config = Some h → graph_closed s → scheduled config s →
  job_typed s → host_topology config s = Done net →
  Forall (allowed h (edges_of s)) rs → NoDup (omap received rs) →
  ∃ net', forM rs net (serve config) = Done net' ∧
    served config h (edges_of s) (demultiplexer_addresses net) rs net'.
Proof.
  intros Hv Hh Hc Hs Hty Ht Hall Hnd.
  destruct (host_topology_served config h s net Hv Hh Hc Hs Ht) as [Hserved Haddr].
  apply (serve_all config h (edges_of s) (demultiplexer_addresses net) Hh Haddr) with (past := []);
    [|done..].
  intros e1 e2 H1%elem_of_edges H2%elem_of_edges. by eapply job_edges_typed.
Qed.
End host.

(** ** All the hosts *)
Lemma scheduled_hosts r1 r2 s : hosts r1 = hosts r2 → scheduled (Remote r1) s → scheduled (Remote r2) s.
Proof. intros E Hs b info Hb. destruct (Hs _ _ Hb) as (bl & ? & Hi). exists bl. simpl in *. by rewrite <-E. Qed.

Section cluster.
Context (s : Scheduler) (Hclosed : graph_closed s).

Lemma demux_coords_edges (o : HashOrder) config h :
  config_host_id config = Some h →
  ∃ net, @build_execution_graph o config s NetworkTopology_new = Done net ∧
    demultiplexer_addresses net = ∅ ∧ NoDup (@demux_coords o net) ∧
    ∀ d, d ∈ @demux_coords o net ↔ ∃ e, @job_edge o s e ∧ d = DemuxCoord_new (e_from e) (e_to e).
Proof.
  intros Hh. destruct (@execution_graph_built o config s h Hh Hclosed) as (net & Hn & Hb).
  exists net. split; [done|]. split; [apply Hb|]. destruct (@demux_coords_spec o net) as [Hnd Hin].
  split; [done|]. intros d. rewrite Hin. split.
  - intros (from & typ & to & fr & Hto & ->). rewrite (gb_next _ _ _ Hb) in Hto.
    apply list_elem_of_omap in Hto as (e & He & Hn'). unfold next_of in Hn'.
    case_decide as Hd; [|done]. destruct Hd as [<- <-]. injection Hn' as <- <-. exists e.
    by rewrite elem_of_edges in He.
  - intros (e & He & ->). exists (e_from e), (e_typ e), (e_to e), (e_fragile e). split; [|done].
    rewrite (gb_next _ _ _ Hb). apply list_elem_of_omap. exists e. rewrite elem_of_edges.
    split; [done|]. unfold next_of. by rewrite decide_True.
Qed.

(** Every host computes the same table of addresses. *)
Lemma host_addresses_agree (o1 o2 : HashOrder) r1 r2 h1 h2 net1 net2 :
  config_valid (Remote r1) → scheduled (Remote r1) s →
  hosts r1 = hosts r2 → rc_host_id r1 = Some h1 → rc_host_id r2 = Some h2 →
  @host_topology o1 (Remote r1) s = Done net1 → @host_topology o2 (Remote r2) s = Done net2 →
  demultiplexer_addresses net1 = demultiplexer_addresses net2.
Proof.
  intros Hv Hs Eh Hh1 Hh2 H1 H2. unfold host_topology in H1, H2.
  destruct (demux_coords_edges o1 (Remote r1) h1 Hh1) as (n1 & E1 & A1 & Hnd1 & Hin1).
  destruct (demux_coords_edges o2 (Remote r2) h2 Hh2) as (n2 & E2 & A2 & Hnd2 & Hin2).
  rewrite E1 in H1. rewrite E2 in H2. simpl in H1, H2. rewrite A1 in H1. rewrite A2, <-Eh in H2.
  rewrite (sorted_demuxes_unique (@demux_coords o1 n1) (@demux_coords o2 n2)) in H1.
  - destruct (assign_ports _ _ _ _); simpl in *; [|done..].
    injection H1 as <-. injection H2 as <-. done.
  - apply NoDup_Permutation; [done..|]. intros d. rewrite Hin1, Hin2.
    split; intros (e & He & ->); exists e; (split; [|done]).
    + by apply (job_edge_order (Remote r1) h1 s Hv Hh1 Hs o1 o2).
    + by apply (job_edge_order (Remote r1) h1 s Hv Hh1 Hs o2 o1).
Qed.
End cluster.

(** The hosts that opened a connection to a demultiplexer. *)
Definition clients (n : nat) (nets : HostId → NetworkTopology) (t : N) (d : DemuxCoord) : list HostId :=
  base.filter (λ h, is_Some (multiplexers (nets h) ≫= (.!! (t, d)))) (N.of_nat <$> seq 0 n).

Section agreement.
Context (o : HostId → HashOrder) (r : RemoteConfig) (s : Scheduler)
  (rs : HostId → list Request) (nets0 nets : HostId → NetworkTopology).
Definition remote_on (h : HostId) : RemoteConfig :=
  mkRemoteConfig (Some h) (hosts r) (tracing_dir r) (cleanup_executable r).
Definition on (h : HostId) : RuntimeConfig := Remote (remote_on h).
Definition is_host (h : HostId) : Prop := (h < N.of_nat (length (hosts r)))%N.

(** Every host runs the same program, and its replicas ask for all their channels. *)
Record cluster_run : Prop := {
  cr_hosts : Forall host_valid (hosts r);
  cr_closed : graph_closed s;
  cr_sched : scheduled (Remote r) s;
  cr_typed : job_typed s;
  cr_topology h : is_host h → @host_topology (o h) (on h) s = Done (nets0 h);
  cr_allowed h : is_host h → Forall (allowed h (@edges_of (o h) s)) (rs h);
  cr_once h : is_host h → NoDup (omap received (rs h));
  cr_senders h e : is_host h → @job_edge (o h) s e → host_id (e_from e) = h →
    GetSender (e_typ e) (edge_endpoint e) ∈ rs h;
  cr_receivers h e : is_host h → @job_edge (o h) s e → host_id (e_to e) = h →
    GetReceiver (e_typ e) (edge_endpoint e) ∈ rs h;
  cr_served h : is_host h → forM (rs h) (nets0 h) (@serve (o h) (on h)) = Done (nets h)
}.
Context (Hrun : cluster_run).

Lemma on_valid h : is_host h → config_valid (on h).
Proof. intros Hh. split; [apply Hrun|]. intros h' [= <-]. exact Hh. Qed.
Lemma on_scheduled h : scheduled (on h) s.
Proof. by apply (scheduled_hosts r), Hrun. Qed.

Lemma cluster_served h :
  is_host h →
  served (on h) h (@edges_of (o h) s) (demultiplexer_addresses (nets0 h)) (rs h) (nets h).
Proof.
  intros Hh. destruct (@host_serves (o h) (on h) h s (nets0 h) (rs h)) as (net' & E & Hs);
    [by apply on_valid|done|apply Hrun|apply on_scheduled|apply Hrun|by apply Hrun..|].
  rewrite (cr_served Hrun h Hh) in E. injection E as ->. done.
Qed.

Lemma cluster_addresses h h' :
  is_host h → is_host h' → demultiplexer_addresses (nets0 h) = demultiplexer_addresses (nets0 h').
Proof.
  intros Hh Hh'.
  apply (host_addresses_agree s (cr_closed Hrun) (o h) (o h') (remote_on h) (remote_on h') h h');
    [by apply (on_valid h)|apply (on_scheduled h)|done..|by apply (cr_topology Hrun h)|
     by apply (cr_topology Hrun h')].
Qed.

Lemma edges_host_indep h h' e :
  is_host h → is_host h' → e ∈ @edges_of (o h) s → e ∈ @edges_of (o h') s.
Proof.
  intros Hh Hh'. rewrite !elem_of_edges.
  eapply (job_edge_order (on h) h s); [by apply on_valid|done|apply on_scheduled].
Qed.

(** A host opens a connection to [d] when one of its replicas has an edge into [d]. *)
Lemma mux_iff h t d y :
  is_host h →
  multiplexers (nets h) ≫= (.!! (t, d)) = Some y ↔
  (∃ e, e ∈ @edges_of (o h) s ∧ sends_to t d e ∧ host_id (e_from e) = h) ∧
  ∃ a, demultiplexer_addresses (nets0 h) !! d = Some a ∧ y = mkMultiplexingSender d a.
Proof.
  intros Hh. destruct (cluster_served h Hh) as [[_ _ _ (m & Em & Hm) _ _] _].
  rewrite Em. simpl. rewrite (Hm t d y). f_equiv. split.
  - intros (ep & Hin & Hl & ->). unfold regs_of in Hin.
    rewrite elem_of_list_to_set, list_elem_of_fmap in Hin. destruct Hin as (rq & E & Hin).
    pose proof (cr_allowed Hrun h Hh) as Hall. rewrite Forall_forall in Hall.
    specialize (Hall _ Hin). unfold leaves in Hl. simpl in Hl. apply negb_true_iff, N.eqb_neq in Hl.
    destruct rq; simpl in *; destruct Hall as (e & He & Eh & -> & ->); injection E as -> ->.
    + exists e. split; [done|]. split; [|done]. split_and!; try done. simpl in *. congruence.
    + by simpl in Hl.
  - intros (e & He & (<- & Hne & <-) & Eh). exists (edge_endpoint e). split_and!; [|..|done].
    + unfold regs_of. rewrite elem_of_list_to_set, list_elem_of_fmap.
      exists (GetSender (e_typ e) (edge_endpoint e)). split; [done|].
      apply (cr_senders Hrun); [done| |done]. by apply elem_of_edges.
    + unfold leaves. simpl. apply negb_true_iff, N.eqb_neq. simpl in Hne. congruence.
Qed.

Lemma clients_peers t d :
  is_host (bc_host_id (dc_coord d)) →
  size (peers (@edges_of (o (bc_host_id (dc_coord d))) s) t d) =
  length (clients (length (hosts r)) nets t d).
Proof.
  intros Hd. set (hd := bc_host_id (dc_coord d)) in *.
  assert (∀ h, h ∈ clients (length (hosts r)) nets t d ↔
    ∃ e, e ∈ @edges_of (o hd) s ∧ sends_to t d e ∧ host_id (e_from e) = h) as Hc.
  { intros h. unfold clients. rewrite list_elem_of_filter, list_elem_of_fmap. split.
    - intros [[y Hy] (i & -> & Hi%elem_of_seq)].
      assert (is_host (N.of_nat i)) as Hh by (unfold is_host; lia).
      apply (mux_iff _ t d y Hh) in Hy as [(e & He & ? & ?) _]. exists e.
      split; [|done]. by apply (edges_host_indep (N.of_nat i)).
    - intros (e & He & Hs & Eh).
      assert (is_host h) as Hh.
      { rewrite elem_of_edges in He.
        apply (job_edge_hosts (on hd) hd s (on_valid hd Hd) eq_refl (on_scheduled hd)) in He as [He _].
        simpl in He. by rewrite Eh in He. }
      split; [|exists (N.to_nat h); rewrite N2Nat.id, elem_of_seq; unfold is_host in Hh; lia].
      destruct (@host_topology_served (o hd) (on hd) hd s (nets0 hd)) as [_ Haddr];
        [by apply on_valid|done|apply Hrun|apply on_scheduled|by apply Hrun|].
      destruct (Haddr _ e eq_refl He) as [a Ha]. rewrite demux_endpoint_edge in Ha.
      destruct Hs as (Ht & Hne & Ed). rewrite Ed in Ha.
      exists (mkMultiplexingSender d a). apply mux_iff; [done|]. split.
      + exists e. split; [by apply (edges_host_indep hd)|]. done.
      + exists a. by rewrite <-(cluster_addresses hd h). }
  assert (NoDup (clients (length (hosts r)) nets t d)) as Hnd.
  { apply NoDup_filter, NoDup_fmap_2; [intros ???; lia|apply NoDup_seq]. }
  rewrite <-(length_fmap (mkBlockCoord (dc_prev_block_id d)) (clients _ _ _ _)).
  rewrite <-(size_list_to_set (C := gset BlockCoord)).
  - f_equal. apply leibniz_equiv. intros b. rewrite elem_of_peers, elem_of_list_to_set, list_elem_of_fmap.
    setoid_rewrite Hc. split.
    + intros (e & He & Hs & ->). exists (host_id (e_from e)). split; [|by exists e].
      destruct Hs as (_ & _ & <-). done.
    + intros (h & -> & e & He & Hs & <-). exists e. split_and!; try done.
      destruct Hs as (_ & _ & <-). done.
  - apply NoDup_fmap_2; [by intros ?? [= ->]|done].
Qed.
End agreement.

(** C17.  On every host, once its topology is built, any sequence of requests of its
    replicas for the channels of the execution graph is answered, in any order, as long as
    no receiver is asked for twice: a sender is a local channel when the receiver is on
    the host and goes through the multiplexer of the receiver's block otherwise; a
    receiver asked for again panics, and so does every request, for a sender or for a
    receiver, after [finalize]. *)
Theorem host_channels `{!HashOrder} config h s net rs :
  config_valid config → config_host_id config = Some h → graph_closed s → scheduled config s →
  job_typed s → host_topology config s = Done net →
  Forall (allowed h (edges_of s)) rs → NoDup (omap received rs) →
  ∃ net' senders, forM rs net (serve config) = Done net' ∧ nt_senders net' = Some senders ∧
    (∀ t ep, GetSender t ep ∈ rs → senders !! (t, ep) = Some (sender_of config h ep)) ∧
    (∀ t ep, GetReceiver t ep ∈ rs → get_receiver config t ep net' = Panicked) ∧
    (∀ t ep, get_sender config t ep (finalize net') = Panicked ∧
             get_receiver config t ep (finalize net') = Panicked).
Proof.
  intros Hv Hh Hc Hs Hty Ht Hall Hnd.
  destruct (host_serves config h s net rs Hv Hh Hc Hs Hty Ht Hall Hnd) as (net' & Hrun & [Hreg Hu]).
  destruct (rg_senders _ _ _ _ _ _ _ Hreg) as (m & Em & Hm).
  exists net', m. split_and!; [done..| | |].
  - intros t ep Hin. apply Hm. split; [|done]. unfold regs_of.
    rewrite elem_of_list_to_set, list_elem_of_fmap. by exists (GetSender t ep).
  - intros t ep Hin. unfold get_receiver. rewrite bool_decide_false; [done|].
    rewrite Hu. intros Hn. apply Hn. exists t. unfold got_of. rewrite elem_of_list_to_set.
    apply list_elem_of_omap. by exists (GetReceiver t ep).
  - intros t ep. split; [done|]. unfold get_receiver. by case_bool_decide.
Qed.

(**  The hosts of a remote run compute the addresses of the demultiplexers on their
    own, each iterating over its hash maps in an order of its own: they get the same table,
    it covers every link of the execution graph, and no two demultiplexers of a host share
    a port. *)
Theorem demux_addresses_agree (o1 o2 : HashOrder) s r1 r2 h1 h2 net1 net2 :
  graph_closed s → config_valid (Remote r1) → scheduled (Remote r1) s →
  hosts r1 = hosts r2 → rc_host_id r1 = Some h1 → rc_host_id r2 = Some h2 →
  @host_topology o1 (Remote r1) s = Done net1 → @host_topology o2 (Remote r2) s = Done net2 →
  demultiplexer_addresses net1 = demultiplexer_addresses net2 ∧
  (∀ e, @job_edge o1 s e →
    is_Some (demultiplexer_addresses net1 !! DemuxCoord_new (e_from e) (e_to e))) ∧
  (∀ d d' a a', demultiplexer_addresses net1 !! d = Some a → demultiplexer_addresses net1 !! d' = Some a' →
    bc_host_id (dc_coord d) = bc_host_id (dc_coord d') → a.2 = a'.2 → d = d').
Proof.
  intros Hc Hv Hs Eh Hh1 Hh2 H1 H2. split; [by apply (host_addresses_agree s Hc o1 o2 r1 r2 h1 h2)|]. split.
  - intros e He.
    destruct (@host_topology_served o1 (Remote r1) h1 s net1 Hv Hh1 Hc Hs H1) as [_ Haddr].
    apply (Haddr r1 e eq_refl). by apply elem_of_edges.
  - unfold host_topology in H1.
    destruct (demux_coords_edges s Hc o1 (Remote r1) h1 Hh1) as (n1 & E1 & A1 & _).
    rewrite E1 in H1. apply topology_build_ports in H1 as [used Hp]; [|done].
    intros d d' a a'. by apply (ports_ok_inj _ _ _ _ _ _ _ _ Hp).
Qed.

(** C16.  In a cluster whose replicas ask for all their channels, a demultiplexer waits
    for exactly as many connections as there are hosts that open one, at the address they
    open it to, and a host that opens a connection finds a demultiplexer there: no side
    waits for a connection that never comes. *)
Theorem demultiplexers_meet o r s rs nets0 nets t d :
  cluster_run o r s rs nets0 nets → is_host r (bc_host_id (dc_coord d)) →
  let cs := clients (length (hosts r)) nets t d in
  match demultiplexers (nets (bc_host_id (dc_coord d))) ≫= (.!! (t, d)) with
  | Some x =>
      num_clients x = length cs ∧ cs ≠ [] ∧
      ∀ h y, h ∈ cs → multiplexers (nets h) ≫= (.!! (t, d)) = Some y → ms_address y = dh_address x
  | None => cs = []
  end.
Proof.
  intros Hrun Hd. cbv zeta. pose proof (clients_peers o r s rs nets0 nets Hrun t d Hd) as Hsize.
  set (hd := bc_host_id (dc_coord d)) in *.
  destruct (cluster_served o r s rs nets0 nets Hrun hd Hd) as [[_ _ _ _ (m & Em & Hm) _] _].
  rewrite Em. simpl. destruct (m !! (t, d)) as [x|] eqn:Ex.
  - destruct (do_handle _ _ _ _ _ _ Hm _ _ _ Ex) as (_ & Ha & Hn). split; [congruence|]. split.
    + destruct (proj1 (do_some _ _ _ _ _ _ Hm t d)) as (_ & _ & Hp); [by eauto|].
      intros E. rewrite E in Hsize. by apply size_empty_inv, leibniz_equiv in Hsize.
    + intros h y Hin Hy. unfold clients in Hin. apply list_elem_of_filter in Hin as [_ Hin].
      apply list_elem_of_fmap in Hin as (i & -> & Hi%elem_of_seq).
      assert (is_host r (N.of_nat i)) as Hh by (unfold is_host; lia).
      apply (mux_iff o r s rs nets0 nets Hrun _ t d y Hh) in Hy as [_ (a & Ha' & ->)].
      rewrite <-(cluster_addresses o r s rs nets0 nets Hrun hd) in Ha' by done. simpl. congruence.
  - apply length_zero_iff_nil. rewrite <-Hsize. apply size_empty_iff. intros b. split; [|by intros ?%elem_of_empty].
    intros (e & He & Hs & _)%elem_of_peers. exfalso.
    destruct (proj2 (do_some _ _ _ _ _ _ Hm t d)) as [y Hy]; [|congruence].
    pose proof Hs as (<- & _ & Ed). split; [|split; [by eexists|]].
    + exists (edge_endpoint e). unfold regs_of. rewrite elem_of_list_to_set, list_elem_of_fmap.
      assert (host_id (e_to e) = hd) as Eto by (unfold hd; by rewrite <-Ed).
      split_and!; [|unfold leaves; simpl; by rewrite Eto, N.eqb_refl|done].
      exists (GetReceiver (e_typ e) (edge_endpoint e)). split; [done|].
      apply (cr_receivers _ _ _ _ _ _ Hrun); [done| |done]. by apply elem_of_edges.
    + intros E. apply (not_elem_of_empty (C := gset BlockCoord) (blockcoord_of_coord (e_from e))).
      rewrite <-E. apply elem_of_peers. by exists e.
Qed.

(** ** Examples: two hosts, two blocks *)

(** The requests of all the replicas of a host: every sender, then every receiver once. *)
Definition all_requests (h : HostId) (es : list Edge) : list Request :=
  ((λ e, GetSender (e_typ e) (edge_endpoint e)) <$> base.filter (λ e, host_id (e_from e) = h) es) ++
  ((λ k, GetReceiver k.1 k.2) <$>
    remove_dups ((λ e, (e_typ e, edge_endpoint e)) <$> base.filter (λ e, host_id (e_to e) = h) es)).

Lemma all_requests_allowed h es : Forall (allowed h es) (all_requests h es).
Proof.
  apply Forall_app. split; apply Forall_fmap, Forall_forall; simpl.
  - intros e [Hh He]%list_elem_of_filter. by exists e.
  - intros [t ep]. rewrite elem_of_remove_dups. intros Hk. apply list_elem_of_fmap in Hk as (e & [= -> ->] & He).
    apply list_elem_of_filter in He as [Hh He]. by exists e.
Qed.
Lemma all_requests_once h es : NoDup (omap received (all_requests h es)).
Proof.
  unfold all_requests. rewrite omap_app.
  assert (∀ l : list Edge, omap received ((λ e, GetSender (e_typ e) (edge_endpoint e)) <$> l) = []) as ->.
  { intros l. by induction l. }
  assert (∀ l : list (N * ReceiverEndpoint), omap received ((λ k, GetReceiver k.1 k.2) <$> l) = l) as ->.
  { induction l as [|[] l IH]; [done|]. csimpl. by rewrite IH. }
  apply NoDup_remove_dups.
Qed.
Lemma all_requests_complete h es e :
  e ∈ es →
  (host_id (e_from e) = h → GetSender (e_typ e) (edge_endpoint e) ∈ all_requests h es) ∧
  (host_id (e_to e) = h → GetReceiver (e_typ e) (edge_endpoint e) ∈ all_requests h es).
Proof.
  intros He. unfold all_requests. rewrite !elem_of_app, !list_elem_of_fmap. split; intros Hh.
  - left. exists e. by rewrite list_elem_of_filter.
  - right. exists (e_typ e, edge_endpoint e). split; [done|]. apply elem_of_remove_dups, list_elem_of_fmap.
    exists e. by rewrite list_elem_of_filter.
Qed.

Module RegistryExample.
Definition cluster : RemoteConfig := SchedulerExample.remote 0.
Definition job : outcome Scheduler :=
  s ← schedule_block (Remote cluster) (mkBlockDecl 0 Unlimited false Single) Scheduler_new;
  s ← schedule_block (Remote cluster) (mkBlockDecl 1 Unlimited false Single) s;
  Done (connect_blocks 0 1 0 s).
Definition run {X} (x : X) (r : outcome X) : X := match r with Done x => x | _ => x end.
Definition returned {X} (r : outcome X) : bool := match r with Done _ => true | _ => false end.
Lemma run_done {X} (x : X) r : returned r = true → r = Done (run x r).
Proof. by destruct r. Qed.
Definition s : Scheduler := run Scheduler_new job.
Definition o (_ : HostId) : HashOrder := key_order.
Definition nets0 (h : HostId) : NetworkTopology :=
  run NetworkTopology_new (@host_topology key_order (on cluster h) s).
Definition rs (h : HostId) : list Request := all_requests h (@edges_of key_order s).
Definition nets (h : HostId) : NetworkTopology :=
  run NetworkTopology_new (forM (rs h) (nets0 h) (@serve key_order (on cluster h))).

Lemma job_done : job = Done s.
Proof. apply run_done. reflexivity. Qed.
Lemma s_scheduled : scheduled (Remote cluster) s.
Proof.
  pose proof job_done as Hj. unfold job in Hj.
  apply bind_done in Hj as (s1 & H1 & Hj). apply bind_done in Hj as (s2 & H2 & Hj).
  apply schedule_block_scheduled in H1; [|done]. apply schedule_block_scheduled in H2; [|done].
  assert (s = connect_blocks 0 1 0 s2) as -> by congruence. exact H2.
Qed.
Lemma s_next : next_blocks s = {[0%N := [(1%N, 0%N, false)]]}.
Proof. reflexivity. Qed.
Lemma s_closed : graph_closed s.
Proof.
  unfold graph_closed. rewrite s_next, map_Forall_singleton. split; [by eexists|].
  rewrite Forall_singleton. by eexists.
Qed.
Lemma s_typed : job_typed s.
Proof.
  intros b next to t1 t2 f1 f2. rewrite s_next, lookup_singleton_Some. intros [<- <-].
  by intros [= -> -> ->]%list_elem_of_singleton [= ->]%list_elem_of_singleton.
Qed.
Lemma is_host_cases h : is_host cluster h → h = 0%N ∨ h = 1%N.
Proof. unfold is_host. simpl. lia. Qed.

Lemma topology_done h :
  is_host cluster h → @host_topology key_order (on cluster h) s = Done (nets0 h).
Proof.
  intros Hh. unfold nets0. apply (run_done NetworkTopology_new (@host_topology key_order (on cluster h) s)).
  destruct (is_host_cases h Hh) as [-> | ->]; vm_compute; reflexivity.
Qed.
Lemma requests_done h :
  is_host cluster h → forM (rs h) (nets0 h) (@serve key_order (on cluster h)) = Done (nets h).
Proof.
  intros Hh. unfold nets.
  apply (run_done NetworkTopology_new (forM (rs h) (nets0 h) (@serve key_order (on cluster h)))).
  destruct (is_host_cases h Hh) as [-> | ->]; vm_compute; reflexivity.
Qed.

Lemma cluster_runs : cluster_run o cluster s rs nets0 nets.
Proof.
  split.
  - repeat constructor; by left.
  - apply s_closed.
  - apply s_scheduled.
  - apply s_typed.
  - apply topology_done.
  - intros h _. apply all_requests_allowed.
  - intros h _. apply all_requests_once.
  - intros h e _ He. apply all_requests_complete. by apply elem_of_edges.
  - intros h e _ He. apply all_requests_complete. by apply elem_of_edges.
  - apply requests_done.
Qed.
End RegistryExample.

Lemma demultiplexers_meet_witness :
  ∃ x, demultiplexers (RegistryExample.nets 1) ≫=
         (.!! (0%N, mkDemuxCoord (mkBlockCoord 1 1) 0)) = Some x ∧ num_clients x = 1.
Proof.
  pose proof (demultiplexers_meet RegistryExample.o RegistryExample.cluster RegistryExample.s
    RegistryExample.rs RegistryExample.nets0 RegistryExample.nets 0 (mkDemuxCoord (mkBlockCoord 1 1) 0)
    RegistryExample.cluster_runs eq_refl) as H.
  cbv zeta in H. destruct (demultiplexers _ ≫= _) as [x|] eqn:E.
  - exists x. split; [reflexivity|]. destruct H as [-> _]. vm_compute. reflexivity.
  - exfalso. vm_compute in H. discriminate H.
Defined.

Lemma demux_addresses_agree_witness :
  demultiplexer_addresses (RegistryExample.nets0 0) = demultiplexer_addresses (RegistryExample.nets0 1).
Proof.
  refine (proj1 (demux_addresses_agree key_order key_order RegistryExample.s
    (remote_on RegistryExample.cluster 0) (remote_on RegistryExample.cluster 1) 0 1
    (RegistryExample.nets0 0) (RegistryExample.nets0 1) RegistryExample.s_closed
    (SchedulerExample.remote_valid 0 eq_refl) _ eq_refl eq_refl eq_refl _ _)).
  - exact (on_scheduled _ _ _ _ _ _ RegistryExample.cluster_runs 0).
  - exact (cr_topology _ _ _ _ _ _ RegistryExample.cluster_runs 0 eq_refl).
  - exact (cr_topology _ _ _ _ _ _ RegistryExample.cluster_runs 1 eq_refl).
Defined.

Lemma host_channels_witness :
  ∃ net' senders, forM (RegistryExample.rs 0) (RegistryExample.nets0 0)
      (@serve key_order (on RegistryExample.cluster 0)) = Done net' ∧
    nt_senders net' = Some senders ∧
    senders !! (0%N, mkReceiverEndpoint (mkCoord 1 1 2) 0) =
      Some (Mux (mkReceiverEndpoint (mkCoord 1 1 2) 0) (mkDemuxCoord (mkBlockCoord 1 1) 0)).
Proof.
  destruct (@host_channels key_order (on RegistryExample.cluster 0) 0 RegistryExample.s
    (RegistryExample.nets0 0) (RegistryExample.rs 0)) as (net' & senders & Hr & Hs & Hm & _).
  - exact (SchedulerExample.remote_valid 0 eq_refl).
  - reflexivity.
  - exact RegistryExample.s_closed.
  - exact (on_scheduled _ _ _ _ _ _ RegistryExample.cluster_runs 0).
  - exact RegistryExample.s_typed.
  - exact (cr_topology _ _ _ _ _ _ RegistryExample.cluster_runs 0 eq_refl).
  - apply all_requests_allowed.
  - apply all_requests_once.
  - exists net', senders. split; [exact Hr|]. split; [exact Hs|]. apply Hm.
    apply (bool_decide_unpack _). vm_compute. exact I.
Defined.
